(* ===== verification/_CoqProject ===== *)
-Q . S2P
Prelude.v
GoIo.v
Recordio.v
Scanner.v
GoStr.v
ObjectStore.v
Prog.v
Logstream.v
Codec.v
Namespace.v
Cas.v
Footprint.v
Catalog.v
Float32.v
Sha256.v
Storage.v
Ingester.v
Flusher.v
FlusherSafety.v
FlusherLive.v
Vector.v
Simd.v
Table.v
Search.v
Loader.v
LoaderSafety.v
Visible.v
Writers.v
System.v
Engine.v
Grpc.v
Ideal.v
LocalFs.v
Local.v
LocalSafety.v
LocalAlone.v
LocalList.v
LocalDisk.v
Gcs.v
Open.v
Server.v
Walbench.v
BenchRun.v
