(* ===== verification/Prelude.v ===== *)
(** * cloudy-neigh: a verification development

    cloudy-neigh is a vector search engine whose only durable state is an
    object store.  A write goes, as one object, to the namespace's
    write-ahead log; a flusher turns log entries into immutable segments and
    appends them to branch manifests; a query engine replays manifests into
    in-memory tables and searches them.  Processes coordinate only through
    conditional writes of the store.

    ** Files and what they model (paths under src/)

    - [Prelude] (this file): errors, results, tactics, hints, list lemmas.
    - [GoIo], [GoStr], [Sha256], [Float32], [Codec]: the parts of Go's
      standard library in use (io, bufio, bytes; strings, strconv, path;
      crypto/sha256; float32 and float64 arithmetic).  protobuf and JSON
      encodings are not part of the repository: [Codec] is a class with the
      round-trip law the code relies on, and [bit_codec] instantiates it.
    - [Recordio] (recordio/crc.go, writer.go), [Scanner]
      (recordio/scanner.go): record framing with masked CRC-32C.
    - [ObjectStore] (objectstore/objectstore.go, mem.go): the [Store]
      interface as a class, [StoreLaws] as what clients rely on, the memory
      store and its proof of the laws.
    - [Prog]: the code above the store as programs, i.e. sequences of store
      calls and atomic loads and swaps.  [run] executes one alone; [esteps]
      interleaves any number of them, call by call, with calls that fail with
      or without having taken effect; [safe] is the rely-guarantee rule by
      which the invariants are proved, [wp] the rule for total runs of one
      program alone, which takes the invariants along.
    - [Cas]: the read-modify-write cycle shared by catalogs and manifests;
      [Footprint]: what a program writes, read off its text.
    - [Logstream] (logstream/log.go): the log; [Namespace], [Catalog]
      (namespace/*.go): names, keys, catalog, cache, branch and tenant lists,
      registry; [Storage] (manifest/manifest.go, segment/*.go).
    - [Ingester] (ingest/ingester.go); [Flusher] (ingest/flusher.go),
      [FlusherSafety] what concurrent flushers guarantee, [FlusherLive] that
      one left alone catches up.
    - [Vector] (vector/format.go, distance.go, distance_pure.go, variant.go);
      [Simd] (vector/distance_simd.go, distance_amd64.go,
      distance_fp16_amd64.go): the kernels on vector registers, over any
      arithmetic; [Table], [Search] (query/table.go); [Loader],
      [LoaderSafety] (query/loader.go); [Visible]: log, flusher and loader
      together; [Writers], [System]: the ingester's clients, and all of them
      with flushers and loaders as one system; [Engine] (query/engine.go); [Grpc] (grpcapi/*.go).
    - [Local] (objectstore/local.go): the methods of the file store as
      sequences of system calls on the machine of [LocalFs] (directories,
      hard links, rename, modification times, the directory lock, a counter
      shared by the process), interleaved call by call.  [Ideal] is the
      atomic store it is compared with; [LocalSafety] proves the simulation,
      [LocalAlone] and [LocalList] that a client alone gets to its end, and
      [LocalDisk] states what follows for the program's keys.
    - [Gcs] (objectstore/gcs.go) on a bucket of the storage client, the class
      [Bucket] with [BucketLaws]; [Open] (objectstore/open.go, the lock table
      of local.go, namespace/registry.go); [Server] (cmd/cloudy/main.go):
      starting, serving and ending the ingest and the query server;
      [Walbench] (cmd/walbench/main.go): the log benchmark, its records, how
      a run ends, and its check of the stream; [BenchRun]: the command around
      it and its report.

    Definitions keep the Go names; a method becomes a function of its
    receiver, a pointer receiver's new state is part of the result.

    ** What the theorems show

    - Framing: a writer leaves the concatenated frames of its records; the
      scanner is the flat parser [parse_frame] for every chunking of the
      input; written records scan back; a cut stream gives a prefix and
      [ErrTornWrite]; a changed byte is never returned; [Skip] moves as
      [Scan]; a writer's error is sticky.
    - Stores: generations are never reused (no ABA), listing is the sorted
      filter of the keys, ranges are exact, the laws hold, for the memory
      store and for GCS on any bucket that behaves as documented.  The local
      store is linearizable for the goroutines of one process that do not
      list: whatever the interleaving of system calls and their failures,
      [Stat], [Get], [Put], [Delete] and [Exists] cannot be told from those of
      an atomic store, so the catalog on a local disk loses no update; alone,
      every operation, [List] included, returns what the atomic store does.  Where a store departs from this there is a theorem about it
      ([put_absent_stale_generation], [list_hidden_root],
      [delete_empty_directory], [gcs_put_truncated], [gcs_list_marker]).
    - Log: under any interleaving and any failures the directory is objects
      1..N, nothing is overwritten, an acknowledged batch is read back at its
      number; the galloping search finds the exact head.
    - Names: the keys of the key space never collide and a log's directory
      belongs to it alone.
    - Catalogs: concurrent creates and deletes keep the catalog well formed
      and lose no update; the cache answers as the catalog it last read.
    - Write path: an upsert is one log entry with its records in order; a
      fork copies the parent's manifest; whatever flushers run and whatever
      fails, each manifest is exactly the segments of a prefix of the log,
      each entry once, in order; and whatever was left half done, the next
      flusher that is not disturbed flushes the whole log.
    - Read path: the columnar table refines a map from ids to records; top-k
      search with a heap equals sorting every candidate; a loader's table is
      the replay of a prefix of the branch's mutations in log order, and of
      whole batches after a [Sync] without error; a query's hits come from
      such a replay.  If all mutations of the branch can be applied one after
      the other, a loader catches up after any failures, and what is in the
      log is in its table after one undisturbed run of a flusher and one
      undisturbed [Sync].  The ingester accepts mutations that cannot be
      applied; [sync_poisoned] says what becomes of the branch then: no
      loader gets past the batch, ever.
    - Composition: the theorems above take the writers as an environment,
      [others], that appends to the log and writes elsewhere.  [System] puts
      the ingester's upserts and deletes in its place: every run of the whole
      system is a run of its flushers and loaders among [others], so what a
      client was acknowledged is in the log and becomes visible, where the
      branch's mutations can be applied.  Forks are not among the requests
      there: a fork writes a manifest of its own.
    - Kernels: over a commutative ring the AVX-512 and the portable kernels
      are the plain loops, for every length and number of lanes.
    - Servers: the tenants of a server do not interfere: each is answered and
      left as its requests alone would leave it, when no two have the same
      ingester or store (a started server gives each its own,
      [started_separate]; two URLs that name the same place do share their
      contents); a request is rejected before any effect when malformed; the
      status of each error, and of a query in every case.
    - Processes: local stores opened on existing directories share a lock
      exactly when their paths lead to the same directory ([second_lock] is
      the case of a directory that does not exist yet); every store opened is closed once on every path; a server
      that is told to end, or part of which fails, returns within a bounded
      number of steps of its goroutines and reports the failure.  A run of
      the benchmark ends, and the check of its stream passes exactly because
      the log keeps its promises; the command closes every store it opens,
      writes a file its check reads back, and reports counts that add up.

    ** Fuel and bounds

    - Compare-and-swap loops (catalog, branches, manifests, append) take the
      number of attempts as an argument: Go loops until it wins the race.
      The safety theorems hold for every number; the theorems about
      undisturbed runs need only one or two attempts.
    - A flusher's loops take one more round than the entries and polls they
      go through, and three writes an entry ([flush_recovers]).
    - Loops over a reader or a segment take fuel one more than the number of
      bytes or mutations at hand, as each round consumes at least one.
    - Loops that end with a context (flusher, engine, catalog cache) run over
      a list of ticks or a number of polls, for every such list or number.
    - The loops on the local store's time counter take the number of rounds;
      a loop that has used them up blocks ([spin]), so no theorem about
      results depends on it, and alone one round is enough ([local_alone]).
      [CreateTemp] tries 10000 names, as os.CreateTemp does.  Clock readings
      lie in [T0, T1], below 2^63 nanoseconds with room for a tick per step.
    - A walk of a directory takes its depth; the program's keys have at most
      five components ([program_key_depth]).
    - The kernels' loops take the vector's length, of which each round
      consumes at least 16.
    - Integers are [Z] with the 64-bit wrap-around written out where the code
      can reach it ([int64] in ranges and sequence numbers), [nat] for
      lengths.

    ** Not modelled, and why

    - The storage client, the operating system's path functions, url.Parse,
      the packages flag, net and grpc, and the decoders of protobuf and JSON:
      not in the repository; they are classes, arguments, or the environment
      of a transition system.
    - vector/distance_fp16_amd64.s and [fp16Kernels]: assembly, arguments of
      the functions that call it.
    - Symbolic links and special files in a local store's directory, and
      several processes on one such directory: the advisory lock ([flock]) by
      which they exclude each other is a call without effect here.
    - cmd/walbench: its flags, the debug log, and how values are formatted.
    - Clocks, logging, metrics and the texts of error messages. *)

From Stdlib Require Export ZArith Lia.
From Stdlib Require Import Strings.Byte.
From Corelib Require Export Init.Byte.
From stdpp Require Export base gmap strings numbers sorting countable pretty.
From stdpp Require Export list.


Local Open Scope Z_scope.

(** ** Errors

    Go error values are modelled up to [errors.Is]: a sentinel is a
    constructor, an error made by [errors.New]/[fmt.Errorf] without [%w] is
    [Msg], and [fmt.Errorf("...: %w", err)] is [err] itself, since the code
    observes a wrapped error only through [errors.Is]. *)
Inductive error :=
  (* io, os, context *)
  | EOF | ErrUnexpectedEOF | ErrShortWrite | ErrClosed
  | Canceled | DeadlineExceeded
  (* objectstore *)
  | ErrNotFound | ErrPreconditionFailed
  (* recordio, segment, logstream *)
  | ErrTornWrite | ErrHeaderCorrupted | ErrDataCorrupted | ErrRecordTooLarge
  | ErrNilMutation | ErrEndOfStream
  (* manifest, namespace *)
  | ErrBranchAlreadyExists | ErrNilManifest | ErrInvalidName | ErrNilStore
  | ErrNamespaceAlreadyExists | ErrNamespaceNotFound | ErrNamespaceDeleted
  | ErrGenerationMismatch
  (* query, vector *)
  | ErrDimensionMismatch | ErrVectorDimension | ErrManifestTruncated | ErrZeroVector
  | ErrFloat16Overflow
  (* everything else *)
  | Msg (what : string)
  (* not Go errors: a run-time panic, and a loop of the model that ran out of
     the rounds it was given *)
  | Panic (what : string)
  | OutOfFuel.

#[export] Instance error_eq_dec : EqDecision error.
Proof. solve_decision. Defined.

(** [errors.Is(err, target)] *)
Definition errors_Is (err target : error) : bool := bool_decide (err = target).

(** ** Results: Go's [(value, error)] pairs *)
Inductive res (A : Type) :=
  | Ok (a : A)
  | Err (e : error).
Arguments Ok {A} a.
Arguments Err {A} e.

#[export] Instance res_eq_dec `{EqDecision A} : EqDecision (res A).
Proof. solve_decision. Defined.

#[export] Instance res_ret : MRet res := fun A a => Ok a.
#[export] Instance res_bind : MBind res := fun A B f r =>
  match r with Ok a => f a | Err e => Err e end.
#[export] Instance res_fmap : FMap res := fun A B f r =>
  match r with Ok a => Ok (f a) | Err e => Err e end.

Definition is_ok {A} (r : res A) : bool :=
  match r with Ok _ => true | Err _ => false end.

(** ** Machine integers

    A w-bit integer is a [Z]; the wrap-around is written where the code's
    operation can overflow. *)
Definition u16 (x : Z) : Z := x mod 2 ^ 16.
Definition u32 (x : Z) : Z := x mod 2 ^ 32.
Definition u64 (x : Z) : Z := x mod 2 ^ 64.
Definition i64 (x : Z) : Z := (x + 2 ^ 63) mod 2 ^ 64 - 2 ^ 63.
Definition MaxUint64 : Z := 2 ^ 64 - 1.
Definition MaxInt64 : Z := 2 ^ 63 - 1.

Definition is_u32 (x : Z) : Prop := 0 <= x < 2 ^ 32.
Definition is_u64 (x : Z) : Prop := 0 <= x < 2 ^ 64.

Lemma u32_small x : is_u32 x -> u32 x = x.
Proof. intros H. apply Z.mod_small, H. Qed.
Lemma u64_small x : is_u64 x -> u64 x = x.
Proof. intros H. apply Z.mod_small, H. Qed.
Lemma u32_range x : is_u32 (u32 x).
Proof. apply Z.mod_pos_bound. lia. Qed.
Lemma u64_range x : is_u64 (u64 x).
Proof. apply Z.mod_pos_bound. lia. Qed.
Lemma i64_small x : - 2 ^ 63 <= x < 2 ^ 63 -> i64 x = x.
Proof. intros H. unfold i64. rewrite Z.mod_small; lia. Qed.

(** ** Bytes *)
#[export] Instance byte_eq_dec : EqDecision byte := Byte.byte_eq_dec.

Definition byte_to_Z (b : byte) : Z := Z.of_N (Byte.to_N b).
Definition byte_of_Z (z : Z) : byte :=
  match Byte.of_N (Z.to_N (z mod 256)) with Some b => b | None => x00 end.

Lemma byte_to_Z_range b : 0 <= byte_to_Z b < 256.
Proof. unfold byte_to_Z. pose proof (Byte.to_N_bounded b). lia. Qed.

Lemma byte_of_to_Z b : byte_of_Z (byte_to_Z b) = b.
Proof.
  unfold byte_of_Z. rewrite Z.mod_small by apply byte_to_Z_range.
  unfold byte_to_Z. rewrite N2Z.id, Byte.of_to_N. done.
Qed.

Lemma byte_to_of_Z z : byte_to_Z (byte_of_Z z) = z mod 256.
Proof.
  unfold byte_of_Z. pose proof (Z.mod_pos_bound z 256 ltac:(lia)).
  destruct (Byte.of_N (Z.to_N (z mod 256))) as [b|] eqn:E.
  - apply Byte.to_of_N in E. unfold byte_to_Z. rewrite E, Z2N.id; lia.
  - apply Byte.of_N_None_iff in E. lia.
Qed.

Lemma byte_to_Z_inj b c : byte_to_Z b = byte_to_Z c -> b = c.
Proof. intros H. rewrite <-(byte_of_to_Z b), H. apply byte_of_to_Z. Qed.

#[export] Program Instance byte_countable : Countable byte := {|
  encode b := encode (byte_to_Z b);
  decode p := byte_of_Z <$> (decode p : option Z)
|}.
Next Obligation.
  intros b. cbv beta. rewrite decode_encode. cbn. by rewrite byte_of_to_Z.
Qed.

(** Little-endian encoding ([encoding/binary]). *)
Fixpoint le_put (n : nat) (v : Z) : list byte :=
  match n with
  | O => []
  | S n => byte_of_Z v :: le_put n (Z.shiftr v 8)
  end.

Fixpoint le_get (l : list byte) : Z :=
  match l with
  | [] => 0
  | b :: l => byte_to_Z b + Z.shiftl (le_get l) 8
  end.

Lemma length_le_put n v : length (le_put n v) = n.
Proof. revert v. induction n; intros v; simpl; auto. Qed.

Lemma le_get_put n v : le_get (le_put n v) = v mod 2 ^ (8 * Z.of_nat n).
Proof.
  revert v. induction n as [|n IH]; intros v; simpl le_put; simpl le_get.
  - by rewrite Z.mod_1_r.
  - rewrite IH, byte_to_of_Z, Z.shiftl_mul_pow2, Z.shiftr_div_pow2 by lia.
    replace (8 * Z.of_nat (S n)) with (8 + 8 * Z.of_nat n) by lia.
    rewrite Z.pow_add_r by lia. change (2 ^ 8) with 256.
    rewrite Z.rem_mul_r by lia. lia.
Qed.

Lemma le_get_range l : 0 <= le_get l < 2 ^ (8 * Z.of_nat (length l)).
Proof.
  induction l as [|b l IH]; simpl; [lia|].
  pose proof (byte_to_Z_range b). rewrite Z.shiftl_mul_pow2 by lia.
  replace (8 * Z.of_nat (S (length l))) with (8 + 8 * Z.of_nat (length l)) by lia.
  rewrite Z.pow_add_r by lia. change (2 ^ 8) with 256. nia.
Qed.

Lemma le_get_inj l1 l2 :
  length l1 = length l2 -> le_get l1 = le_get l2 -> l1 = l2.
Proof.
  revert l2. induction l1 as [|b l1 IH]; intros [|c l2] Hl H; try done.
  simpl in H. rewrite !Z.shiftl_mul_pow2 in H by lia. change (2 ^ 8) with 256 in H.
  pose proof (byte_to_Z_range b). pose proof (byte_to_Z_range c).
  injection Hl as Hl.
  assert (byte_to_Z b = byte_to_Z c /\ le_get l1 = le_get l2) as [E1 E2] by lia.
  f_equal; [by apply byte_to_Z_inj|by apply IH].
Qed.

(** Big-endian. *)
Definition be_put (n : nat) (v : Z) : list byte := reverse (le_put n v).

Lemma length_be_put n v : length (be_put n v) = n.
Proof. unfold be_put. by rewrite length_reverse, length_le_put. Qed.

(** ** Lists *)
Lemma take_app_exact {A} (l k : list A) n : n = length l -> take n (l ++ k) = l.
Proof. intros ->. by rewrite take_app_length. Qed.
Lemma drop_app_exact {A} (l k : list A) n : n = length l -> drop n (l ++ k) = k.
Proof. intros ->. by rewrite drop_app_length. Qed.

Lemma omap_None {A B} (f : A -> option B) (l : list A) : Forall (fun x => f x = None) l -> omap f l = [].
Proof. induction 1 as [|x l Hx _ IH]; [done|]. cbn. by rewrite Hx. Qed.

Lemma sum_list_with_insert {A} (f : A -> nat) (l : list A) i x y : l !! i = Some x ->
  (sum_list_with f (<[i := y]> l) + f x = sum_list_with f l + f y)%nat.
Proof.
  revert i. induction l as [|v l IH]; intros [|i]; [done..|cbn; intros [= ->]; lia|]. intros Hi.
  specialize (IH i Hi). change (<[S i := y]> (v :: l)) with (v :: <[i := y]> l). cbn [sum_list_with]. lia.
Qed.

Lemma sum_list_with_replicate {A} (f : A -> nat) n x : sum_list_with f (replicate n x) = (n * f x)%nat.
Proof. induction n as [|n IH]; cbn; lia. Qed.

(** ** Automation *)
Create HintDb cloudy.
Create Rewrite HintDb cloudy_len.
#[export] Hint Rewrite length_le_put @length_app @length_take @length_drop : cloudy_len.
#[export] Hint Resolve u32_range u64_range byte_to_Z_range : cloudy.

(** Split a computation that returned a given result into its cases. *)
Ltac res_cases H :=
  repeat first
    [ discriminate H
    | case_match; simplify_eq/= ].

(** Split [Forall] over a concrete list into its elements. *)
Ltac forall_list := repeat (apply Forall_nil_2 || apply Forall_cons_2).

(** [lia] with [/] and [mod] by constants. *)
Ltac dlia := Z.to_euclidean_division_equations; lia.

Lemma i64_add a b : i64 (i64 a + b) = i64 (a + b).
Proof. unfold i64. dlia. Qed.

Lemma i64_idemp a : i64 (i64 a) = i64 a.
Proof. pose proof (i64_add a 0) as H. by rewrite !Z.add_0_r in H. Qed.
