(* ===== verification/GoIo.v ===== *)
(** * The parts of Go's [io], [bufio] and [bytes] the program uses

    [bytes.Buffer] and [io.Writer] (a class, so that the record writer is
    written against the interface), [bufio.Writer], [bufio.Reader],
    [io.ReadFull] and [io.CopyN(io.Discard, ...)].

    A reader is the list of chunks its successive [Read] calls deliver and
    the error that ends it: every chunking of a byte stream is one such list,
    so a statement for all [source]s covers files, memory readers and network
    bodies alike.  [stream] forgets the chunking; the lemmas of this file say
    what each operation does to [stream]. *)

From S2P Require Import Prelude.

(** ** io.Writer *)
Class IoWriter (W : Type) := {
  io_write : W -> list byte -> W * nat * option error;
  (* [Some] when the concrete type also implements [io.Closer] *)
  io_close : option (W -> W * option error);
}.

(** What [bytes.Buffer] promises: it accepts every byte and never fails. *)
Class IoSink (W : Type) `{IoWriter W} := {
  sink_contents : W -> list byte;
  sink_write w p : exists w',
    io_write w p = (w', length p, None) /\
    sink_contents w' = sink_contents w ++ p;
}.

(** [bytes.Buffer] *)
Definition Buffer : Type := list byte.
#[export] Instance Buffer_writer : IoWriter Buffer := {|
  io_write w p := (w ++ p, length p, None);
  io_close := None;
|}.
#[export] Program Instance Buffer_sink : IoSink Buffer := {|
  sink_contents w := w;
|}.
Next Obligation. intros w p. by exists (w ++ p). Qed.

(** A writer that accepts [room] more bytes and then fails, as a full disk
    does; it closes cleanly. *)
Record LimitedWriter := { lw_data : list byte; lw_room : nat; lw_err : error }.
#[export] Instance LimitedWriter_writer : IoWriter LimitedWriter := {|
  io_write w p :=
    if decide (length p <= lw_room w) then
      ({| lw_data := lw_data w ++ p; lw_room := lw_room w - length p;
          lw_err := lw_err w |}, length p, None)
    else
      ({| lw_data := lw_data w ++ take (lw_room w) p; lw_room := 0;
          lw_err := lw_err w |}, lw_room w, Some (lw_err w));
  io_close := Some (fun w => (w, None));
|}.

(** ** bufio.Writer *)
Record bufioWriter (W : Type) := BufioWriter {
  bw_err : option error;
  bw_buf : list byte;        (* b.buf[0:b.n] *)
  bw_size : nat;             (* len(b.buf) *)
  bw_wr : W;
}.
Arguments BufioWriter {W} _ _ _ _.
Arguments bw_err {W} _.
Arguments bw_buf {W} _.
Arguments bw_size {W} _.
Arguments bw_wr {W} _.

Section BufioWriter.
Context {W : Type} `{IoWriter W}.

Definition bufio_NewWriterSize (w : W) (size : nat) : bufioWriter W :=
  BufioWriter None [] (if decide (size = 0%nat) then 4096%nat else size) w.

Definition bufio_Reset (b : bufioWriter W) (w : W) : bufioWriter W :=
  BufioWriter None [] (bw_size b) w.

Definition bufio_Flush (b : bufioWriter W) : bufioWriter W * option error :=
  match bw_err b with
  | Some e => (b, Some e)
  | None =>
    if decide (bw_buf b = []) then (b, None) else
    let '(w', n, err) := io_write (bw_wr b) (bw_buf b) in
    let err := match err with
               | None => if decide (n < length (bw_buf b))%nat
                         then Some ErrShortWrite else None
               | Some e => Some e
               end in
    match err with
    | Some e => (BufioWriter (Some e) (drop n (bw_buf b)) (bw_size b) w', Some e)
    | None => (BufioWriter None [] (bw_size b) w', None)
    end
  end.

(** The loop of [bufio.Writer.Write]; each round hands over at least one byte
    of [p] or empties the buffer, so [length p + 2] rounds are enough. *)
Fixpoint bufio_write_loop (fuel : nat) (b : bufioWriter W) (nn : nat) (p : list byte)
  : bufioWriter W * nat * option error :=
  match fuel with
  | O => (b, nn, Some (Msg "bufio: writer makes no progress"))
  | S fuel =>
    match bw_err b with
    | Some e => (b, nn, Some e)
    | None =>
      let avail := (bw_size b - length (bw_buf b))%nat in
      if decide (avail < length p)%nat then
        if decide (bw_buf b = []) then
          let '(w', n, err) := io_write (bw_wr b) p in
          bufio_write_loop fuel (BufioWriter err [] (bw_size b) w') (nn + n) (drop n p)
        else
          let b1 := BufioWriter None (bw_buf b ++ take avail p) (bw_size b) (bw_wr b) in
          let '(b2, _) := bufio_Flush b1 in
          bufio_write_loop fuel b2 (nn + avail) (drop avail p)
      else
        (BufioWriter None (bw_buf b ++ p) (bw_size b) (bw_wr b), (nn + length p)%nat, None)
    end
  end.

Definition bufio_Write (b : bufioWriter W) (p : list byte)
  : bufioWriter W * nat * option error :=
  bufio_write_loop (S (S (S (length p)))) b 0 p.

(** What has left the process plus what is still buffered. *)
Definition bw_wf (b : bufioWriter W) : Prop :=
  bw_err b = None /\ (0 < bw_size b)%nat /\ (length (bw_buf b) <= bw_size b)%nat.

Lemma bufio_NewWriterSize_wf w size : bw_wf (bufio_NewWriterSize w size).
Proof. unfold bufio_NewWriterSize, bw_wf. case_decide; simpl; auto with lia. Qed.

(** A failed writer stays failed and touches nothing. *)
Lemma bufio_Write_sticky b e p :
  bw_err b = Some e -> bufio_Write b p = (b, 0%nat, Some e).
Proof. intros He. unfold bufio_Write. cbn [bufio_write_loop]. by rewrite He. Qed.

Lemma bufio_Flush_sticky b e :
  bw_err b = Some e -> bufio_Flush b = (b, Some e).
Proof. intros He. unfold bufio_Flush. by rewrite He. Qed.
End BufioWriter.

Section BufioSink.
Context {W : Type} `{IoSink W}.

(** Every byte accepted so far, in order. *)
Definition bw_out (b : bufioWriter W) : list byte := sink_contents (bw_wr b) ++ bw_buf b.

Lemma bufio_Flush_sink b : bw_wf b -> exists b',
  bufio_Flush b = (b', None) /\ bw_wf b' /\ bw_buf b' = [] /\
  bw_out b' = bw_out b /\ bw_size b' = bw_size b.
Proof.
  intros (He & Hs & Hl). unfold bufio_Flush. rewrite He. case_decide as Hb.
  - exists b. by repeat split.
  - destruct (sink_write (bw_wr b) (bw_buf b)) as (w' & -> & Hc).
    rewrite decide_False by lia. eexists. split; [done|].
    unfold bw_wf, bw_out. simpl. rewrite Hc, app_nil_r. auto with lia.
Qed.

Lemma bufio_write_loop_small fuel b nn p :
  bw_wf b -> (length p <= bw_size b - length (bw_buf b))%nat ->
  bufio_write_loop (S fuel) b nn p =
    (BufioWriter None (bw_buf b ++ p) (bw_size b) (bw_wr b), (nn + length p)%nat, None).
Proof.
  intros (He & _ & _) Hp. simpl. rewrite He. by rewrite decide_False by lia.
Qed.

(** On an empty buffer two rounds are enough. *)
Lemma bufio_write_loop_empty fuel b nn p : bw_wf b -> bw_buf b = [] -> exists b',
  bufio_write_loop (S (S fuel)) b nn p = (b', (nn + length p)%nat, None) /\
  bw_wf b' /\ bw_out b' = bw_out b ++ p /\ bw_size b' = bw_size b.
Proof.
  intros Hw Hb. destruct (decide (length p <= bw_size b - 0)%nat) as [Hp|Hp].
  - rewrite bufio_write_loop_small by (rewrite ?Hb; auto). eexists. split; [done|].
    destruct Hw as (He & Hs & Hl). unfold bw_wf, bw_out. simpl.
    rewrite Hb. simpl. rewrite app_nil_r. auto with lia.
  - destruct Hw as (He & Hs & Hl). cbn [bufio_write_loop]. rewrite He, Hb. simpl.
    rewrite !decide_True by (done || lia).
    destruct (sink_write (bw_wr b) p) as (w' & -> & Hc). simpl.
    rewrite drop_all. cbn [length]. rewrite decide_False by lia.
    eexists. split; [f_equal; f_equal; lia|].
    unfold bw_wf, bw_out. simpl. rewrite Hc, Hb, !app_nil_r. auto with lia.
Qed.

Lemma bufio_Write_sink b p : bw_wf b -> exists b',
  bufio_Write b p = (b', length p, None) /\
  bw_wf b' /\ bw_out b' = bw_out b ++ p /\ bw_size b' = bw_size b.
Proof.
  intros Hw. unfold bufio_Write.
  destruct (decide (bw_buf b = [])) as [Hb|Hb].
  { destruct (bufio_write_loop_empty (S (length p)) b 0 p Hw Hb) as (b' & ? & ?). eauto. }
  set (avail := (bw_size b - length (bw_buf b))%nat).
  destruct (decide (avail < length p)%nat) as [Ha|Ha].
  - pose proof Hw as (He & Hs & Hl). cbn [bufio_write_loop]. rewrite He.
    fold avail. rewrite decide_True, decide_False by done.
    assert (bw_wf (BufioWriter None (bw_buf b ++ take avail p) (bw_size b) (bw_wr b))) as Hw1.
    { unfold bw_wf. simpl. rewrite length_app, length_take. auto with lia. }
    destruct (bufio_Flush_sink _ Hw1) as (b2 & -> & Hw2 & Hb2 & Ho2 & Hs2).
    destruct (bufio_write_loop_empty (length p) b2 (0 + avail) (drop avail p) Hw2 Hb2)
      as (b' & E & Hw' & Ho' & Hs').
    cbn [bufio_write_loop] in E. rewrite E. exists b'. split_and!; auto.
    + f_equal. f_equal. rewrite length_drop. lia.
    + rewrite Ho', Ho2. unfold bw_out. simpl.
      by rewrite <-!app_assoc, take_drop.
    + by rewrite Hs', Hs2.
  - rewrite bufio_write_loop_small by (auto; lia). eexists. split; [done|].
    destruct Hw as (He & Hs & Hl). unfold bw_wf, bw_out. simpl.
    rewrite app_assoc, length_app. auto with lia.
Qed.
End BufioSink.

(** ** io.Reader, bufio.Reader *)
Record source := Source {
  src_chunks : list (list byte);
  src_end : error;             (* [EOF], or the error that ends the stream *)
}.

Definition src_stream (s : source) : list byte := mjoin (src_chunks s).

(** [Read(p)] with [len(p) = k]. *)
Definition src_read (k : nat) (s : source) : list byte * option error * source :=
  match src_chunks s with
  | [] => ([], Some (src_end s), s)
  | c :: cs =>
    (take k c, None,
     Source (if decide (length c <= k)%nat then cs else drop k c :: cs) (src_end s))
  end.

(** [Seek(n, io.SeekCurrent)]: a seek past the end succeeds. *)
Fixpoint drop_chunks (n : nat) (cs : list (list byte)) : list (list byte) :=
  match cs with
  | [] => []
  | c :: cs => if decide (length c <= n)%nat then drop_chunks (n - length c) cs
               else drop n c :: cs
  end.
Definition src_seek (n : nat) (s : source) : source :=
  Source (drop_chunks n (src_chunks s)) (src_end s).

Record bufioReader := BufioReader {
  br_buf : list byte;          (* b.buf[b.r:b.w] *)
  br_size : nat;               (* len(b.buf) *)
  br_src : source;
}.

Definition bufio_NewReaderSize (s : source) (size : nat) : bufioReader :=
  BufioReader [] (max size 16) s.

Definition stream (b : bufioReader) : list byte := br_buf b ++ src_stream (br_src b).
Definition br_chunks (b : bufioReader) : nat := length (src_chunks (br_src b)).

(** [bufio.Reader.Read(p)] with [len(p) = k > 0]. *)
Definition br_read (k : nat) (b : bufioReader) : list byte * option error * bufioReader :=
  match br_buf b with
  | [] =>
    if decide (br_size b <= k)%nat then
      let '(d, e, s) := src_read k (br_src b) in (d, e, BufioReader [] (br_size b) s)
    else
      let '(d, e, s) := src_read (br_size b) (br_src b) in
      (take k d, e, BufioReader (drop k d) (br_size b) s)
  | buf => (take k buf, None, BufioReader (drop k buf) (br_size b) (br_src b))
  end.

(** Repeated [Read]s of at most [lim] bytes until [k] bytes arrived; every
    round delivers a byte or uses up an empty chunk. *)
Fixpoint read_loop (fuel lim k : nat) (b : bufioReader) (acc : list byte)
  : list byte * option error * bufioReader :=
  match k with
  | O => (acc, None, b)
  | _ =>
    match fuel with
    | O => (acc, Some (Msg "io: reader makes no progress"), b)
    | S fuel =>
      let '(d, e, b') := br_read (min lim k) b in
      match e with
      | Some e => (acc ++ d, Some e, b')
      | None => read_loop fuel lim (k - length d) b' (acc ++ d)
      end
    end
  end.

(** [io.ReadFull]: the bytes read and the error; a partial read that ends in
    [io.EOF] is [io.ErrUnexpectedEOF]. *)
Definition io_ReadFull (k : nat) (b : bufioReader) : list byte * option error * bufioReader :=
  let '(d, e, b') := read_loop (S (k + br_chunks b)) k k b [] in
  (d, match e with
      | Some EOF => if decide (d = []) then Some EOF else Some ErrUnexpectedEOF
      | _ => e
      end, b').

(** [io.CopyN(io.Discard, b, k)]: reads through 8 KiB buffers. *)
Definition io_CopyN_Discard (k : nat) (b : bufioReader) : nat * option error * bufioReader :=
  let '(d, e, b') := read_loop (S (k + br_chunks b)) (Z.to_nat 8192) k b [] in (length d, e, b').

(** [b.Discard(n)] for [n <= b.Buffered()], the only use in the program. *)
Definition bufio_Discard (n : nat) (b : bufioReader) : bufioReader :=
  BufioReader (drop n (br_buf b)) (br_size b) (br_src b).

Lemma drop_chunks_join n cs : mjoin (drop_chunks n cs) = drop n (mjoin cs).
Proof.
  revert n. induction cs as [|c cs IH]; intros n; simpl; [by rewrite drop_nil|].
  case_decide as Hc; simpl.
  - rewrite IH, drop_app, (drop_ge c) by lia. done.
  - rewrite drop_app. by replace (n - length c)%nat with 0%nat by lia.
Qed.

Lemma src_seek_stream n s : src_stream (src_seek n s) = drop n (src_stream s).
Proof. apply drop_chunks_join. Qed.

Lemma src_read_spec k s d e s' :
  (0 < k)%nat -> src_read k s = (d, e, s') ->
  match e with
  | Some e => d = [] /\ s' = s /\ src_chunks s = [] /\ e = src_end s
  | None => src_stream s = d ++ src_stream s' /\ (length d <= k)%nat /\
            (length (src_chunks s') <= length (src_chunks s))%nat /\
            src_end s' = src_end s /\
            (d = [] -> length (src_chunks s') < length (src_chunks s))%nat
  end.
Proof.
  intros Hk. unfold src_read. destruct s as [[|c cs] en]; intros [= <- <- <-]; simpl; [done|].
  unfold src_stream. simpl. rewrite length_take. case_decide; simpl.
  - rewrite take_ge by lia. auto with lia.
  - rewrite app_assoc, take_drop. split_and!; auto with lia.
    intros Hd. destruct c, k; simpl in *; try done; lia.
Qed.

Lemma br_read_spec k b d e b' :
  (0 < k)%nat -> (0 < br_size b)%nat -> br_read k b = (d, e, b') ->
  br_size b' = br_size b /\ src_end (br_src b') = src_end (br_src b) /\
  (br_chunks b' <= br_chunks b)%nat /\
  match e with
  | Some e => d = [] /\ stream b = [] /\ stream b' = [] /\ e = src_end (br_src b)
  | None => stream b = d ++ stream b' /\ (length d <= k)%nat /\
            (d = [] -> br_chunks b' < br_chunks b)%nat
  end.
Proof.
  intros Hk Hs. unfold br_read. destruct b as [buf size s]. simpl in *.
  destruct buf as [|x buf].
  - case_decide as Hsz.
    + destruct (src_read k s) as [[d0 e0] s0] eqn:E. intros [= <- <- <-].
      apply src_read_spec in E; [|done]. unfold stream, br_chunks. simpl.
      destruct e0; [|destruct E as (? & ? & ? & ? & ?); by auto].
      destruct E as (-> & -> & E & ->). unfold src_stream. rewrite E. done.
    + destruct (src_read size s) as [[d0 e0] s0] eqn:E. intros [= <- <- <-].
      apply src_read_spec in E; [|done]. unfold stream, br_chunks. simpl.
      destruct e0.
      * destruct E as (-> & -> & E & ->). rewrite take_nil, drop_nil.
        unfold src_stream. rewrite E. done.
      * destruct E as (E & Hl & Hc & -> & Hd). split_and!; auto.
        -- rewrite app_assoc, take_drop. done.
        -- rewrite length_take. lia.
        -- intros H0. apply Hd. destruct d0, k; simpl in *; try done; lia.
  - intros [= <- <- <-]. unfold stream, br_chunks. cbn [br_buf br_src br_size].
    split_and!; auto.
    + rewrite app_assoc, take_drop. done.
    + rewrite length_take. lia.
    + intros H0. destruct k; [lia|done].
Qed.

(** Reading [k] bytes takes them off the front of the stream, or uses the
    stream up and reports its end. *)
Lemma read_loop_spec fuel lim k b acc d e b' :
  (0 < lim)%nat -> (0 < br_size b)%nat -> (k + br_chunks b < fuel)%nat ->
  read_loop fuel lim k b acc = (d, e, b') ->
  br_size b' = br_size b /\ src_end (br_src b') = src_end (br_src b) /\
  (if decide (k <= length (stream b))%nat
   then d = acc ++ take k (stream b) /\ e = None /\ stream b' = drop k (stream b)
   else d = acc ++ stream b /\ e = Some (src_end (br_src b)) /\ stream b' = []).
Proof.
  intros Hl. revert k b acc. induction fuel as [|fuel IH]; intros k b acc Hs Hf; [lia|].
  destruct k as [|k].
  { cbn [read_loop]. intros [= <- <- <-]. rewrite decide_True, take_0, app_nil_r by lia. done. }
  cbn [read_loop]. destruct (br_read (min lim (S k)) b) as [[d0 e0] b0] eqn:E.
  apply br_read_spec in E; [|lia|done].
  destruct E as (Hs0 & He0 & Hc0 & E). destruct e0 as [e0|].
  - destruct E as (-> & Hst & Hst0 & ->). intros [= <- <- <-].
    rewrite Hst, decide_False by (simpl; lia). done.
  - destruct E as (Hst & Hd & Hne). intros Hr.
    assert (0 < length d0 \/ br_chunks b0 < br_chunks b)%nat as Hprog.
    { destruct d0; [right; auto|left; simpl; lia]. }
    apply IH in Hr; [|congruence|lia].
    rewrite Hs0, He0 in Hr. destruct Hr as (-> & -> & Hr). do 2 (split; [done|]).
    rewrite Hst, length_app.
    destruct (decide (S k - length d0 <= length (stream b0))%nat) as [Hle|Hle].
    + rewrite decide_True by lia. destruct Hr as (-> & -> & ->). split_and!; auto.
      * rewrite <-app_assoc. f_equal.
        rewrite take_app, (take_ge d0) by lia. done.
      * rewrite drop_app, (drop_ge d0) by lia. done.
    + rewrite decide_False by lia. destruct Hr as (-> & -> & ->).
      by rewrite app_assoc.
Qed.

Definition eof_error (partial : bool) (e : error) : error :=
  match e with EOF => if partial then ErrUnexpectedEOF else EOF | _ => e end.

Lemma io_ReadFull_spec k b : (0 < br_size b)%nat -> exists b',
  br_size b' = br_size b /\ src_end (br_src b') = src_end (br_src b) /\
  if decide (k <= length (stream b))%nat
  then io_ReadFull k b = (take k (stream b), None, b') /\ stream b' = drop k (stream b)
  else io_ReadFull k b =
         (stream b, Some (eof_error (bool_decide (stream b <> [])) (src_end (br_src b))), b') /\
       stream b' = [].
Proof.
  intros Hs. unfold io_ReadFull.
  destruct (decide (k = 0%nat)) as [->|Hk].
  { exists b. rewrite decide_True by lia. done. }
  destruct (read_loop _ _ _ _ _) as [[d e] b'] eqn:E.
  apply read_loop_spec in E; [|lia|done|lia]. exists b'.
  destruct E as (H1 & H2 & E). do 2 (split; [done|]). case_decide.
  - destruct E as (-> & -> & ->). done.
  - destruct E as (-> & -> & ->). split; [|done]. simpl.
    destruct (src_end (br_src b)); try done.
    case_decide as Hst; [rewrite Hst|rewrite bool_decide_eq_true_2 by done]; done.
Qed.

Lemma io_CopyN_Discard_spec k b : (0 < br_size b)%nat -> exists n b',
  br_size b' = br_size b /\ src_end (br_src b') = src_end (br_src b) /\
  if decide (k <= length (stream b))%nat
  then io_CopyN_Discard k b = (n, None, b') /\ stream b' = drop k (stream b)
  else io_CopyN_Discard k b = (n, Some (src_end (br_src b)), b') /\ stream b' = [].
Proof.
  intros Hs. unfold io_CopyN_Discard.
  destruct (read_loop _ _ _ _ _) as [[d e] b'] eqn:E.
  apply read_loop_spec in E; [|lia|done|lia]. exists (length d), b'.
  destruct E as (H1 & H2 & E). do 2 (split; [done|]). case_decide.
  - by destruct E as (-> & -> & ->).
  - by destruct E as (-> & -> & ->).
Qed.

#[global] Arguments io_ReadFull : simpl never.
#[global] Arguments io_CopyN_Discard : simpl never.
#[global] Arguments bufio_Write : simpl never.
#[global] Arguments bufio_Flush : simpl never.
