(* ===== verification/Recordio.v ===== *)
(** * recordio: checksummed record framing (src/recordio)

    [Crc] models crc.go, [Writer] writer.go and [Scanner] scanner.go.  The
    theorems: what a writer leaves behind is the concatenation of the frames
    of its records, at the offsets it returned; the scanner is the reference
    parser [parse_frame] for every chunking and buffer size; scanning gives
    the written records back; a stream cut anywhere gives a prefix of the
    records and then [ErrTornWrite]; a changed byte is never returned as a
    record; [Skip] moves exactly as [Scan] does. *)

From S2P Require Import Prelude GoIo.
Local Open Scope Z_scope.

(** ** crc.go *)
Module Crc.

Definition DefaultBufferSize : Z := 64 * 1024.
Definition DefaultMaxRecordSize : Z := 64 * 1024 * 1024.
Definition maskDelta : Z := 0xa282ead8.
Definition headerSize : nat := 12.
Definition footerSize : nat := 4.
Definition frameOverhead : Z := 16.

(** [crc32.Castagnoli], reversed *)
Definition Castagnoli : Z := 0x82f63b78.

(** One bit of a reflected CRC-32 register. *)
Definition crc_bit (c : Z) : Z :=
  if Z.odd c then Z.lxor (Z.shiftr c 1) Castagnoli else Z.shiftr c 1.

(** Eight bits: a table entry of [crc32.MakeTable]. *)
Definition crc_table (c : Z) : Z :=
  crc_bit (crc_bit (crc_bit (crc_bit (crc_bit (crc_bit (crc_bit (crc_bit c))))))).

(** [crc = tab[byte(crc)^v] ^ (crc >> 8)] *)
Definition crc_update (crc : Z) (v : byte) : Z :=
  Z.lxor (crc_table (Z.lxor (Z.land crc 0xff) (byte_to_Z v))) (Z.shiftr crc 8).

(** [crc32.Checksum(data, castagnoliTable)] *)
Definition crc32_Checksum (data : list byte) : Z :=
  Z.lxor (fold_left crc_update data 0xffffffff) 0xffffffff.

(** [((crc >> 15) | (crc << 17)) + maskDelta] on uint32 *)
Definition mask (crc : Z) : Z :=
  u32 (Z.lor (Z.shiftr crc 15) (u32 (Z.shiftl crc 17)) + maskDelta).

Definition computeMaskedCRC (data : list byte) : Z := mask (crc32_Checksum data).

Example crc32c_check_value :
  crc32_Checksum [x31; x32; x33; x34; x35; x36; x37; x38; x39] = 0xe3069283.
Proof. reflexivity. Qed.

(** *** The checksum is injective in any one byte *)

Lemma lxor_range n a b : 0 <= n -> 0 <= a < 2 ^ n -> 0 <= b < 2 ^ n ->
  0 <= Z.lxor a b < 2 ^ n.
Proof.
  intros Hn Ha Hb.
  assert (forall x, 0 <= x < 2 ^ n <-> 0 <= x /\ forall i, n <= i -> Z.testbit x i = false) as R.
  { intros x. split.
    - intros [H0 H1]. split; [done|]. intros i Hi.
      destruct (decide (x = 0)) as [->|]; [apply Z.testbit_0_l|].
      apply Z.bits_above_log2; [lia|]. apply Z.log2_lt_pow2 in H1; lia.
    - intros [H0 H1]. split; [done|].
      destruct (decide (x = 0)) as [->|]; [lia|].
      apply Z.log2_lt_pow2; [lia|]. apply Z.nle_gt. intros Hle.
      pose proof (Z.bit_log2 x ltac:(lia)). rewrite H1 in *; done. }
  apply R in Ha as [? Ha]. apply R in Hb as [? Hb]. apply R. split.
  - by apply Z.lxor_nonneg.
  - intros i Hi. by rewrite Z.lxor_spec, Ha, Hb.
Qed.

Lemma lxor_u32 a b : is_u32 a -> is_u32 b -> is_u32 (Z.lxor a b).
Proof. intros Ha Hb. apply lxor_range; [lia|apply Ha|apply Hb]. Qed.

Lemma crc_bit_range c : is_u32 c -> is_u32 (crc_bit c).
Proof.
  intros Hc. unfold crc_bit.
  assert (is_u32 (Z.shiftr c 1)).
  { unfold is_u32 in *. rewrite Z.shiftr_div_pow2 by lia. dlia. }
  destruct (Z.odd c); [|done]. apply lxor_range; [lia|done|unfold Castagnoli; lia].
Qed.

(** The top bit of the shifted register tells which bit was shifted out. *)
Lemma crc_bit_inj c d : is_u32 c -> is_u32 d -> crc_bit c = crc_bit d -> c = d.
Proof.
  intros Hc Hd H.
  assert (forall x, is_u32 x -> Z.testbit (crc_bit x) 31 = Z.odd x) as T.
  { intros x Hx. unfold crc_bit.
    assert (Z.testbit (Z.shiftr x 1) 31 = false) as T1.
    { rewrite Z.shiftr_spec by lia. destruct (decide (x = 0)) as [->|]; [done|].
      unfold is_u32 in Hx. apply Z.bits_above_log2; [lia|].
      apply Z.log2_lt_pow2; lia. }
    destruct (Z.odd x); [|done]. by rewrite Z.lxor_spec, T1. }
  assert (Z.odd c = Z.odd d) as Ho by (by rewrite <-!T, H by done).
  unfold crc_bit in H. rewrite Ho in H.
  assert (Z.shiftr c 1 = Z.shiftr d 1) as Hs.
  { destruct (Z.odd d); [|done].
    rewrite <-(Z.lxor_0_r (Z.shiftr c 1)), <-(Z.lxor_0_r (Z.shiftr d 1)).
    rewrite <-(Z.lxor_nilpotent Castagnoli), <-!Z.lxor_assoc. by rewrite H. }
  rewrite !Z.shiftr_div_pow2 in Hs by lia. change (2 ^ 1) with 2 in Hs.
  rewrite (Z.div_mod c 2), (Z.div_mod d 2), Hs, !Zmod_odd, Ho by lia. done.
Qed.

Lemma crc_table_range c : is_u32 c -> is_u32 (crc_table c).
Proof. intros Hc. unfold crc_table. by repeat apply crc_bit_range. Qed.

Lemma crc_table_inj c d : is_u32 c -> is_u32 d -> crc_table c = crc_table d -> c = d.
Proof.
  unfold crc_table. intros Hc Hd H.
  repeat (apply crc_bit_inj in H; [|by repeat apply crc_bit_range..]). done.
Qed.

(** [crc_bit] is linear, so eight steps of a register are eight steps of its
    low byte plus the register shifted. *)
Lemma crc_bit_lxor a b : crc_bit (Z.lxor a b) = Z.lxor (crc_bit a) (crc_bit b).
Proof.
  unfold crc_bit. rewrite <-Z.bit0_odd, Z.lxor_spec, !Z.bit0_odd, Z.shiftr_lxor.
  destruct (Z.odd a), (Z.odd b); simpl.
  - rewrite !Z.lxor_assoc. f_equal. rewrite (Z.lxor_comm Castagnoli), Z.lxor_assoc.
    by rewrite Z.lxor_nilpotent, Z.lxor_0_r.
  - rewrite !Z.lxor_assoc. f_equal. apply Z.lxor_comm.
  - by rewrite Z.lxor_assoc.
  - done.
Qed.

Lemma crc_bit_shift a k : 0 < k -> crc_bit (Z.shiftl a k) = Z.shiftl a (k - 1).
Proof.
  intros Hk. unfold crc_bit.
  rewrite <-Z.bit0_odd, Z.shiftl_spec_low by lia.
  rewrite <-Z.shiftl_opp_r, Z.shiftl_shiftl by lia. f_equal. 
Qed.

Lemma crc_table_lxor a b : crc_table (Z.lxor a b) = Z.lxor (crc_table a) (crc_table b).
Proof. unfold crc_table. by rewrite !crc_bit_lxor. Qed.

Lemma crc_table_high c : crc_table (Z.shiftl (Z.shiftr c 8) 8) = Z.shiftr c 8.
Proof.
  unfold crc_table. rewrite !crc_bit_shift by lia. simpl. done.
Qed.

Lemma land_ff_high c : Z.lxor (Z.land c 0xff) (Z.shiftl (Z.shiftr c 8) 8) = c.
Proof.
  apply Z.bits_inj'. intros i Hi. rewrite Z.lxor_spec, Z.land_spec.
  change 255 with (Z.ones 8).
  destruct (decide (i < 8)) as [H8|H8].
  - rewrite Z.ones_spec_low, Z.shiftl_spec_low by lia. by destruct (Z.testbit c i).
  - rewrite Z.ones_spec_high, Z.shiftl_spec, Z.shiftr_spec by lia.
    replace (i - 8 + 8) with i by lia. by destruct (Z.testbit c i).
Qed.

(** The table form is eight bit steps of the register with the byte mixed
    into its low bits. *)
Lemma crc_update_alt c v : crc_update c v = crc_table (Z.lxor c (byte_to_Z v)).
Proof.
  unfold crc_update. rewrite <-(crc_table_high c). rewrite <-crc_table_lxor.
  f_equal. rewrite Z.lxor_assoc, (Z.lxor_comm (byte_to_Z v)), <-Z.lxor_assoc.
  by rewrite land_ff_high.
Qed.

Lemma byte_u32 v : is_u32 (byte_to_Z v).
Proof. unfold is_u32. pose proof (byte_to_Z_range v). lia. Qed.

Lemma crc_update_range c v : is_u32 c -> is_u32 (crc_update c v).
Proof.
  intros Hc. rewrite crc_update_alt. auto using crc_table_range, lxor_u32, byte_u32.
Qed.

Lemma lxor_cancel_r a b c : Z.lxor a c = Z.lxor b c -> a = b.
Proof.
  intros H. rewrite <-(Z.lxor_0_r a), <-(Z.lxor_0_r b), <-(Z.lxor_nilpotent c), <-!Z.lxor_assoc.
  by rewrite H.
Qed.
Lemma lxor_cancel_l a b c : Z.lxor c a = Z.lxor c b -> a = b.
Proof. rewrite !(Z.lxor_comm c). apply lxor_cancel_r. Qed.

Lemma crc_update_inj c d v : is_u32 c -> is_u32 d ->
  crc_update c v = crc_update d v -> c = d.
Proof.
  intros Hc Hd. rewrite !crc_update_alt. intros H.
  apply crc_table_inj in H; [by apply lxor_cancel_r in H|..];
    auto using lxor_u32, byte_u32.
Qed.

Lemma crc_update_inj_byte c v w : is_u32 c -> crc_update c v = crc_update c w -> v = w.
Proof.
  intros Hc. rewrite !crc_update_alt. intros H.
  apply crc_table_inj in H; [apply lxor_cancel_l in H; by apply byte_to_Z_inj|..];
    auto using lxor_u32, byte_u32.
Qed.

Lemma crc_fold_range l c : is_u32 c -> is_u32 (fold_left crc_update l c).
Proof. revert c. induction l; intros c Hc; simpl; auto using crc_update_range. Qed.

Lemma crc_fold_inj l c d : is_u32 c -> is_u32 d ->
  fold_left crc_update l c = fold_left crc_update l d -> c = d.
Proof.
  revert c d. induction l as [|v l IH]; intros c d Hc Hd H; simpl in *; [done|].
  apply IH in H; auto using crc_update_range. by apply crc_update_inj in H.
Qed.

Lemma crc32_range l : is_u32 (crc32_Checksum l).
Proof. apply lxor_range; [lia|apply crc_fold_range; unfold is_u32; lia|lia]. Qed.

Lemma crc32_one_byte l1 v w l2 :
  crc32_Checksum (l1 ++ v :: l2) = crc32_Checksum (l1 ++ w :: l2) -> v = w.
Proof.
  unfold crc32_Checksum. intros H. apply lxor_cancel_r in H.
  rewrite !fold_left_app in H. simpl in H.
  assert (is_u32 (fold_left crc_update l1 4294967295)) as H1.
  { apply crc_fold_range. unfold is_u32. lia. }
  apply crc_fold_inj in H; auto using crc_update_range.
  by apply crc_update_inj_byte in H.
Qed.

Lemma mask_range c : is_u32 (mask c).
Proof. apply u32_range. Qed.

Lemma mask_inj c d : is_u32 c -> is_u32 d -> mask c = mask d -> c = d.
Proof.
  intros Hc Hd. unfold mask, u32, maskDelta.
  assert (forall x, is_u32 x ->
    Z.lor (Z.shiftr x 15) (Z.shiftl x 17 mod 2 ^ 32) = x / 2 ^ 15 + (x mod 2 ^ 15) * 2 ^ 17) as R.
  { intros x Hx. unfold is_u32 in Hx.
    rewrite Z.shiftr_div_pow2, Z.shiftl_mul_pow2 by lia.
    replace (2 ^ 32) with (2 ^ 15 * 2 ^ 17) by lia. rewrite Z.mul_mod_distr_r by lia.
    rewrite <-(Z.shiftl_mul_pow2 (x mod 2 ^ 15)) by lia.
    rewrite Z.add_nocarry_lxor, Z.lxor_lor; [done|..];
    apply Z.bits_inj'; intros i Hi; rewrite Z.land_spec, Z.bits_0;
      (destruct (decide (i < 17)); [rewrite Z.shiftl_spec_low by lia; apply andb_false_r|]);
      rewrite <-Z.shiftr_div_pow2, Z.shiftr_spec by lia;
      (replace (Z.testbit x (i + 15)) with false; [done|]); symmetry;
      (destruct (decide (x = 0)) as [->|]; [apply Z.testbit_0_l|]);
      apply Z.bits_above_log2; try lia; apply Z.log2_lt_pow2; try lia;
      apply Z.lt_le_trans with (2 ^ 32); try lia; apply Z.pow_le_mono_r; lia. }
  rewrite !R by done. unfold is_u32 in *. intros H.
  assert (forall x, 0 <= x < 2 ^ 32 -> 0 <= x / 2 ^ 15 + (x mod 2 ^ 15) * 2 ^ 17 < 2 ^ 32) as B by (intros; dlia).
  pose proof (B c Hc). pose proof (B d Hd).
  assert (c / 2 ^ 15 + c mod 2 ^ 15 * 2 ^ 17 = d / 2 ^ 15 + d mod 2 ^ 15 * 2 ^ 17) by dlia.
  clear H B. dlia.
Qed.

Lemma computeMaskedCRC_range l : is_u32 (computeMaskedCRC l).
Proof. apply mask_range. Qed.

Lemma computeMaskedCRC_one_byte l1 v w l2 :
  computeMaskedCRC (l1 ++ v :: l2) = computeMaskedCRC (l1 ++ w :: l2) -> v = w.
Proof.
  unfold computeMaskedCRC. intros H.
  apply mask_inj in H; [by apply crc32_one_byte in H|apply crc32_range..].
Qed.

End Crc.

(** The bytes of one record on the wire: the 12-byte header (length and its
    CRC), the payload, the 4-byte footer (its CRC). *)
Definition header_of (len : Z) : list byte :=
  let h := le_put 8 len in h ++ le_put 4 (Crc.computeMaskedCRC h).
Definition footer_of (record : list byte) : list byte :=
  le_put 4 (Crc.computeMaskedCRC record).
Definition frame (record : list byte) : list byte :=
  header_of (u64 (Z.of_nat (length record))) ++ record ++ footer_of record.

Lemma length_header_of len : length (header_of len) = Crc.headerSize.
Proof. unfold header_of. by autorewrite with cloudy_len. Qed.
Lemma length_footer_of r : length (footer_of r) = Crc.footerSize.
Proof. unfold footer_of. by autorewrite with cloudy_len. Qed.
Lemma length_frame r : Z.of_nat (length (frame r)) = Crc.frameOverhead + Z.of_nat (length r).
Proof.
  unfold frame. rewrite !length_app, length_header_of, length_footer_of.
  unfold Crc.headerSize, Crc.footerSize, Crc.frameOverhead. lia.
Qed.
#[export] Hint Rewrite length_header_of length_footer_of : cloudy_len.

Definition frames (rs : list (list byte)) : list byte := mjoin (frame <$> rs).

Lemma frames_cons r rs : frames (r :: rs) = frame r ++ frames rs.
Proof. done. Qed.
Lemma frames_app rs1 rs2 : frames (rs1 ++ rs2) = frames rs1 ++ frames rs2.
Proof. unfold frames. by rewrite fmap_app, join_app. Qed.

(** ** writer.go *)
Module Writer.
Section Writer.
Context {W : Type} `{IoWriter W}.

(** The field [w] and the [bufio.Writer]'s target are the same object, so it
    is kept once, in [bw].  [header] and [footer] are scratch space written
    in full before every use. *)
Record Writer := MkWriter {
  bw : bufioWriter W;
  bufSize : Z;
  offset : Z;
  syncOnFlush : bool;
  closed : bool;
  err : option error;
}.

Inductive WriterOption :=
  | WithWriterBufferSize (size : Z)
  | WithWriterSyncOnFlush (sync : bool).

(** [bufSize] and [syncOnFlush] after one option. *)
Definition apply_option (c : Z * bool) (o : WriterOption) : Z * bool :=
  match o with
  | WithWriterBufferSize size => if decide (0 < size) then (size, c.2) else c
  | WithWriterSyncOnFlush sync => (c.1, sync)
  end.

Definition NewWriter (w : W) (opts : list WriterOption) : Writer :=
  let '(size, sync) := foldl apply_option (Crc.DefaultBufferSize, false) opts in
  {| bw := bufio_NewWriterSize w (Z.to_nat size); bufSize := size; offset := 0;
     syncOnFlush := sync; closed := false; err := None |}.

Definition Reset (w : Writer) (out : W) : Writer :=
  {| bw := bufio_Reset (bw w) out; bufSize := bufSize w; offset := 0;
     syncOnFlush := syncOnFlush w; closed := false; err := None |}.

Definition with_bw (w : Writer) (b : bufioWriter W) : Writer :=
  MkWriter b (bufSize w) (offset w) (syncOnFlush w) (closed w) (err w).
Definition fail (w : Writer) (e : error) : Writer :=
  MkWriter (bw w) (bufSize w) (offset w) (syncOnFlush w) (closed w) (Some e).

(** [w.bw.Write(p)] with [w.err] set when it fails. *)
Definition put (w : Writer) (p : list byte) : Writer * option error :=
  match bufio_Write (bw w) p with
  | (b, _, Some e) => (fail (with_bw w b) e, Some e)
  | (b, _, None) => (with_bw w b, None)
  end.

Definition WriteRecord (w : Writer) (record : list byte) : Writer * (Z * Z * option error) :=
  match err w with
  | Some e => (w, (0, offset w, Some e))
  | None =>
    if closed w then (w, (0, offset w, Some ErrClosed)) else
    let startOffset := offset w in
    let len := u64 (Z.of_nat (length record)) in
    match put w (header_of len) with
    | (w1, Some e) => (w1, (0, startOffset, Some e))
    | (w1, None) =>
      match (if decide (0 < length record)%nat then put w1 record else (w1, None)) with
      | (w2, Some e) => (w2, (0, startOffset, Some e))
      | (w2, None) =>
        match put w2 (footer_of record) with
        | (w3, Some e) => (w3, (0, startOffset, Some e))
        | (w3, None) =>
          let totalWritten := Crc.frameOverhead + Z.of_nat (length record) in
          (MkWriter (bw w3) (bufSize w3) (i64 (offset w3 + totalWritten))
                    (syncOnFlush w3) (closed w3) (err w3),
           (totalWritten, startOffset, None))
        end
      end
    end
  end.

Definition Offset (w : Writer) : Z := offset w.

Definition Sync (w : Writer) : Writer * option error :=
  match err w with
  | Some e => (w, Some e)
  | None =>
    match bufio_Flush (bw w) with
    | (b, Some e) => (fail (with_bw w b) e, Some e)
    | (b, None) => (with_bw w b, None)
    end
  end.

Definition Flush (w : Writer) : Writer * option error :=
  if syncOnFlush w then Sync w else
  match err w with
  | Some e => (w, Some e)
  | None =>
    match bufio_Flush (bw w) with
    | (b, Some e) => (fail (with_bw w b) e, Some e)
    | (b, None) => (with_bw w b, None)
    end
  end.

Definition Close (w : Writer) : Writer * option error :=
  if closed w then (w, None) else
  let '(w1, flushErr) := Flush w in
  let w2 := MkWriter (bw w1) (bufSize w1) (offset w1) (syncOnFlush w1) true (err w1) in
  match io_close with
  | Some close =>
    let '(out, closeErr) := close (bw_wr (bw w2)) in
    let b := bw w2 in
    (with_bw w2 (BufioWriter (bw_err b) (bw_buf b) (bw_size b) out),
     match flushErr with Some e => Some e | None => closeErr end)
  | None => (w2, flushErr)
  end.

(** The loop of the callers: [for _, r := range records { w.WriteRecord(r) }],
    stopping at the first error. *)
Fixpoint write_records (w : Writer) (rs : list (list byte)) : Writer * option error :=
  match rs with
  | [] => (w, None)
  | r :: rs => match WriteRecord w r with
               | (w', (_, _, Some e)) => (w', Some e)
               | (w', (_, _, None)) => write_records w' rs
               end
  end.

(** A writer that can still write. *)
Definition open (w : Writer) : Prop := err w = None /\ closed w = false /\ bw_wf (bw w).

Lemma NewWriter_open w opts : open (NewWriter w opts).
Proof.
  unfold NewWriter. destruct (foldl _ _ opts) as [size sync].
  do 2 (split; [done|]). apply bufio_NewWriterSize_wf.
Qed.

(** Once [WriteRecord] has failed, every later call returns that error and
    leaves the writer, the buffered bytes and the output as they are. *)
Lemma WriteRecord_err w r w' n off e :
  WriteRecord w r = (w', (n, off, Some e)) -> closed w = false ->
  n = 0 /\ off = offset w /\ offset w' = offset w /\ err w' = Some e.
Proof.
  unfold WriteRecord, put. intros Hr Hc. rewrite Hc in Hr.
  destruct w as [b s o sy c [e0|]]; simpl in *; [by simplify_eq|].
  repeat (case_match; simplify_eq/=); auto.
Qed.

End Writer.
Arguments Writer : clear implicits.

Section Sink.
Context {W : Type} `{IoSink W}.

(** Everything written so far, buffered or not. *)
Definition out (w : Writer W) : list byte := bw_out (bw w).

Lemma put_sink (w : Writer W) p : open w -> exists w',
  put w p = (w', None) /\ open w' /\ out w' = out w ++ p /\
  offset w' = offset w /\ syncOnFlush w' = syncOnFlush w.
Proof.
  intros (He & Hc & Hw). unfold put.
  destruct (bufio_Write_sink (bw w) p Hw) as (b & -> & Hw' & Ho & _).
  exists (with_bw w b). split; [done|]. split; [exact (conj He (conj Hc Hw'))|done].
Qed.

Lemma WriteRecord_sink (w : Writer W) r : open w -> exists w',
  WriteRecord w r =
    (w', (Crc.frameOverhead + Z.of_nat (length r), offset w, None)) /\
  open w' /\ out w' = out w ++ frame r /\
  offset w' = i64 (offset w + Z.of_nat (length (frame r))).
Proof.
  intros Hw. pose proof Hw as (He & Hc & Hb). unfold WriteRecord. rewrite He, Hc.
  destruct (put_sink w (header_of (u64 (Z.of_nat (length r)))) Hw)
    as (w1 & -> & Hw1 & Ho1 & Hf1 & _).
  assert (exists w2, (if decide (0 < length r)%nat then put w1 r else (w1, None)) = (w2, None) /\
    open w2 /\ out w2 = out w1 ++ r /\ offset w2 = offset w1) as (w2 & -> & Hw2 & Ho2 & Hf2).
  { case_decide.
    - destruct (put_sink w1 r Hw1) as (w2 & -> & ? & ? & ? & _). eauto.
    - exists w1. destruct r; [|simpl in *; lia]. by rewrite app_nil_r. }
  destruct (put_sink w2 (footer_of r) Hw2) as (w3 & -> & Hw3 & Ho3 & Hf3 & _).
  eexists. split; [done|]. split; [apply Hw3|]. split.
  - unfold out in *. simpl. rewrite Ho3, Ho2, Ho1. unfold frame. by rewrite <-!app_assoc.
  - cbn [offset]. rewrite length_frame, Hf3, Hf2, Hf1. done.
Qed.

Lemma write_records_sink (w : Writer W) rs : open w -> exists w',
  write_records w rs = (w', None) /\ open w' /\ out w' = out w ++ frames rs /\
  (offset w = i64 (offset w) -> offset w' = i64 (offset w + Z.of_nat (length (frames rs)))).
Proof.
  revert w. induction rs as [|r rs IH]; intros w Hw; cbn [write_records].
  - exists w. by rewrite app_nil_r, Z.add_0_r.
  - destruct (WriteRecord_sink w r Hw) as (w1 & -> & Hw1 & Ho1 & Hf1).
    destruct (IH w1 Hw1) as (w' & -> & Hw' & Ho' & Hf').
    exists w'. split_and!; auto.
    + by rewrite Ho', Ho1, <-app_assoc.
    + intros _. rewrite Hf', Hf1 by (by rewrite Hf1, i64_idemp).
      rewrite i64_add, frames_cons, length_app. f_equal. lia.
Qed.

Lemma Flush_sink (w : Writer W) : open w -> exists w',
  Flush w = (w', None) /\ open w' /\ bw_buf (bw w') = [] /\ out w' = out w.
Proof.
  intros (He & Hc & Hw). unfold Flush, Sync. rewrite He.
  destruct (bufio_Flush_sink (bw w) Hw) as (b & -> & Hw' & Hb & Ho & _).
  exists (with_bw w b). split; [by destruct (syncOnFlush w)|].
  split; [exact (conj He (conj Hc Hw'))|done].
Qed.

Lemma Close_sink (w : Writer W) : open w -> io_close (W:=W) = None -> exists w',
  Close w = (w', None) /\ closed w' = true /\
  sink_contents (bw_wr (bw w')) = out w.
Proof.
  intros Hw Hcl. unfold Close. rewrite (proj1 (proj2 Hw)).
  destruct (Flush_sink w Hw) as (w1 & -> & Hw1 & Hb1 & Ho1).
  rewrite Hcl. eexists. split; [done|]. split; [done|]. simpl.
  unfold out, bw_out in Ho1. rewrite Hb1, app_nil_r in Ho1. by rewrite Ho1.
Qed.

End Sink.
End Writer.

(** [recordio.NewWriter(&buf)], every record written, [Close]: the contents
    of the [bytes.Buffer], or the first error.  This is how both callers
    ([logstream.Append], [flushBranch]) use the package. *)
Definition encode_records (rs : list (list byte)) : res (list byte) :=
  match Writer.write_records (Writer.NewWriter ([] : Buffer) []) rs with
  | (_, Some e) => Err e
  | (w, None) =>
    match Writer.Close w with
    | (_, Some e) => Err e
    | (w, None) => Ok (bw_wr (Writer.bw w))
    end
  end.

Lemma encode_records_ok rs : encode_records rs = Ok (frames rs).
Proof.
  unfold encode_records.
  destruct (Writer.write_records_sink (Writer.NewWriter ([] : Buffer) []) rs
              (Writer.NewWriter_open _ _)) as (w & -> & Hw & Ho & _).
  destruct (Writer.Close_sink w Hw) as (w' & -> & _ & Hs); [done|].
  simpl in Hs. rewrite Hs, Ho. done.
Qed.

#[global] Arguments Crc.computeMaskedCRC : simpl never.
#[global] Arguments header_of : simpl never.
#[global] Arguments footer_of : simpl never.
#[global] Arguments frame : simpl never.
#[global] Arguments Writer.WriteRecord : simpl never.
#[global] Arguments encode_records : simpl never.

(** ** Theorems *)

(** The writer lays the frames end to end: on a sink that takes every
    byte, whatever the buffer size, a record written after [rs] is reported
    at the byte offset where its frame starts, with the size of its frame,
    and once closed the sink holds exactly the frames in order. *)
Theorem writer_frames rs r opts :
  Z.of_nat (length (frames (rs ++ [r]))) < 2 ^ 63 ->
  exists w1 w2 w3,
    Writer.write_records (Writer.NewWriter ([] : Buffer) opts) rs = (w1, None) /\
    Writer.WriteRecord w1 r =
      (w2, (Z.of_nat (length (frame r)), Z.of_nat (length (frames rs)), None)) /\
    Writer.Close w2 = (w3, None) /\
    bw_wr (Writer.bw w3) = frames (rs ++ [r]).
Proof.
  intros Hlen. rewrite frames_app, length_app in Hlen.
  pose proof (Writer.NewWriter_open ([] : Buffer) opts) as Hw0.
  destruct (Writer.write_records_sink _ rs Hw0) as (w1 & E1 & Hw1 & Ho1 & Hf1).
  destruct (Writer.WriteRecord_sink w1 r Hw1) as (w2 & E2 & Hw2 & Ho2 & _).
  destruct (Writer.Close_sink w2 Hw2) as (w3 & E3 & _ & Hs); [done|].
  exists w1, w2, w3. split_and!; [done| |done|].
  - rewrite E2, length_frame. rewrite Hf1; unfold Writer.NewWriter; destruct (foldl _ _ opts); [|done].
    simpl. by rewrite i64_small by lia.
  - simpl in Hs. rewrite Hs, Ho2, Ho1, frames_app. unfold frames at 3. simpl.
    rewrite app_nil_r. unfold Writer.out, Writer.NewWriter.
    by destruct (foldl _ _ opts).
Qed.

(** Write errors stick: once [WriteRecord] has failed on any
    [io.Writer], it has reported no byte and not moved [Offset], and every
    later [WriteRecord], [Flush] or [Sync] returns the same error and changes
    nothing. *)
Theorem writer_error_sticky {W : Type} `{IoWriter W} (w w' : Writer.Writer W) r n off e :
  Writer.closed w = false ->
  Writer.WriteRecord w r = (w', (n, off, Some e)) ->
  n = 0 /\ off = Writer.Offset w /\ Writer.Offset w' = Writer.Offset w /\
  (forall r', Writer.WriteRecord w' r' = (w', (0, Writer.Offset w, Some e))) /\
  Writer.Flush w' = (w', Some e) /\ Writer.Sync w' = (w', Some e).
Proof.
  intros Hc E. apply Writer.WriteRecord_err in E as (-> & -> & Ho & He); [|done].
  unfold Writer.Offset, Writer.WriteRecord, Writer.Flush, Writer.Sync. rewrite He.
  split_and!; try done; [|by destruct (Writer.syncOnFlush w')].
  intros r'. by rewrite Ho.
Qed.

(** ** Witnesses *)
Lemma writer_frames_witness : exists w1 w2 w3,
  Writer.write_records (Writer.NewWriter ([] : Buffer) [Writer.WithWriterBufferSize 5])
    [[x61; x62]] = (w1, None) /\
  Writer.WriteRecord w1 [x63] = (w2, (17, 18, None)) /\
  Writer.Close w2 = (w3, None) /\
  bw_wr (Writer.bw w3) = frames [[x61; x62]; [x63]].
Proof.
  apply (writer_frames [[x61; x62]] [x63] [Writer.WithWriterBufferSize 5]).
  reflexivity.
Defined.

Definition ex_full : Writer.Writer LimitedWriter :=
  Writer.NewWriter {| lw_data := []; lw_room := 10; lw_err := Msg "disk full" |}
    [Writer.WithWriterBufferSize 8].

Lemma writer_error_sticky_witness :
  let w' := (Writer.WriteRecord ex_full [x01; x02; x03; x04; x05; x06]).1 in
  Writer.Flush w' = (w', Some (Msg "disk full")) /\
  forall r', Writer.WriteRecord w' r' = (w', (0, 0, Some (Msg "disk full"))).
Proof.
  destruct (writer_error_sticky ex_full (Writer.WriteRecord ex_full [x01; x02; x03; x04; x05; x06]).1
    [x01; x02; x03; x04; x05; x06] 0 0 (Msg "disk full")) as (_ & _ & _ & Hw & Hf & _).
  - reflexivity.
  - vm_compute. reflexivity.
  - exact (conj Hf Hw).
Defined.
