(* ===== verification/Scanner.v ===== *)
(** * recordio: the scanner (src/recordio/scanner.go)

    [Scan], [Skip] and their helpers over a buffered, arbitrarily chunked
    reader, the flat reference parser [parse_frame], and the refinement that
    connects them. *)

From S2P Require Import Prelude GoIo Recordio.
Local Open Scope Z_scope.

(** ** The reference parser: one frame off a flat byte string *)
Inductive parsed :=
  | FEnd                                  (* clean end of the stream *)
  | FErr (e : error)
  | FRec (r rest : list byte).

(** How a read that ran into the end [en] of the stream is reported. *)
Definition is_eof (e : error) : bool := errors_Is e EOF || errors_Is e ErrUnexpectedEOF.
Definition torn (en : error) : error := if is_eof en then ErrTornWrite else en.

Definition parse_frame (max : Z) (en : error) (l : list byte) : parsed :=
  if decide (length l < 12)%nat then
    if is_eof en && bool_decide (l = []) then FEnd else FErr (torn en)
  else
    let len := le_get (take 8 l) in
    let rest := drop 12 l in
    if decide (Crc.computeMaskedCRC (take 8 l) <> le_get (take 4 (drop 8 l)))
    then FErr ErrHeaderCorrupted
    else if decide (max < len) then FErr ErrRecordTooLarge
    else
      let n := Z.to_nat len in
      if decide (length rest < n + 4)%nat then FErr (torn en)
      else if decide (Crc.computeMaskedCRC (take n rest) <> le_get (take 4 (drop n rest)))
      then FErr ErrDataCorrupted
      else FRec (take n rest) (drop (n + 4) rest).

(** ** scanner.go *)
Record Scanner := MkScanner {
  br : bufioReader;
  (* the reader as an [io.Seeker]: [None] when it is not one, else the error
     its forward [Seek] returns *)
  seeker : option (option error);
  bufSize : Z;
  buf : list byte;                        (* s.buf[:cap(s.buf)] *)
  recordLen : nat;
  offset : Z;
  lastValidOffset : Z;
  maxRecordSize : Z;
  err : option error;
}.

Inductive ScannerOption :=
  | WithScannerBufferSize (size : Z)
  | WithScannerMaxRecordSize (max : Z).

Definition apply_option (c : Z * Z) (o : ScannerOption) : Z * Z :=
  match o with
  | WithScannerBufferSize size => if decide (0 < size) then (size, c.2) else c
  | WithScannerMaxRecordSize max => if decide (0 < max) then (c.1, max) else c
  end.

Definition NewScanner (r : source) (seek : option (option error)) (opts : list ScannerOption)
  : Scanner :=
  let '(size, max) := foldl apply_option (Crc.DefaultBufferSize, Crc.DefaultMaxRecordSize) opts in
  {| br := bufio_NewReaderSize r (Z.to_nat size); seeker := seek; bufSize := size;
     buf := []; recordLen := 0; offset := 0; lastValidOffset := 0;
     maxRecordSize := max; err := None |}.

Definition with_br (s : Scanner) (b : bufioReader) : Scanner :=
  MkScanner b (seeker s) (bufSize s) (buf s) (recordLen s) (offset s)
    (lastValidOffset s) (maxRecordSize s) (err s).
Definition with_err (s : Scanner) (e : error) : Scanner :=
  MkScanner (br s) (seeker s) (bufSize s) (buf s) (recordLen s) (offset s)
    (lastValidOffset s) (maxRecordSize s) (Some e).
Definition with_record (s : Scanner) (b : list byte) (n : nat) : Scanner :=
  MkScanner (br s) (seeker s) (bufSize s) b n (offset s)
    (lastValidOffset s) (maxRecordSize s) (err s).
Definition with_offset (s : Scanner) (off : Z) : Scanner :=
  MkScanner (br s) (seeker s) (bufSize s) (buf s) (recordLen s) off
    (lastValidOffset s) (maxRecordSize s) (err s).
Definition with_valid (s : Scanner) (off : Z) : Scanner :=
  MkScanner (br s) (seeker s) (bufSize s) (buf s) (recordLen s) (offset s)
    off (maxRecordSize s) (err s).

(** [if errors.Is(err, io.EOF) || errors.Is(err, io.ErrUnexpectedEOF)
    { s.err = ErrTornWrite } else { s.err = err }] *)
Definition short_read (s : Scanner) (e : error) : Scanner := with_err s (torn e).

Definition readHeader (s : Scanner) : Scanner * option Z :=
  let s := with_record s (buf s) 0 in
  let '(header, e, b) := io_ReadFull Crc.headerSize (br s) in
  let s := with_br s b in
  match e with
  | Some e =>
    if decide (header = []) then
      if is_eof e then (s, None) else (with_err s e, None)
    else (short_read s e, None)
  | None =>
    let len := le_get (take 8 header) in
    let headerCRC := le_get (take 4 (drop 8 header)) in
    if decide (Crc.computeMaskedCRC (take 8 header) <> headerCRC) then
      (with_err s ErrHeaderCorrupted, None)
    else if decide (maxRecordSize s < len) then
      (with_err s ErrRecordTooLarge, None)
    else (s, Some len)
  end.

(** [io.ReadFull] into the front of [s.buf]. *)
Definition overwrite (b d : list byte) : list byte := d ++ drop (length d) b.

Definition Scan (s : Scanner) : Scanner * bool :=
  match err s with
  | Some _ => (s, false)
  | None =>
    let startOffset := lastValidOffset s in
    match readHeader s with
    | (s, None) => (s, false)
    | (s, Some len) =>
      let reqLen := Z.to_nat len in
      let s := with_record s
        (if decide (length (buf s) < reqLen)%nat then replicate reqLen x00 else buf s) reqLen in
      let s := with_offset s startOffset in
      let '(d, e, b) :=
        if decide (0 < reqLen)%nat then io_ReadFull reqLen (br s) else ([], None, br s) in
      let s := with_br (with_record s (overwrite (buf s) d) reqLen) b in
      match e with
      | Some e => (short_read s e, false)
      | None =>
        let '(footer, e, b) := io_ReadFull Crc.footerSize (br s) in
        let s := with_br s b in
        match e with
        | Some e => (short_read s e, false)
        | None =>
          if decide (Crc.computeMaskedCRC (take reqLen (buf s)) <> le_get footer) then
            (with_err s ErrDataCorrupted, false)
          else
            (with_valid s (i64 (startOffset + Crc.frameOverhead + Z.of_nat reqLen)), true)
        end
      end
    end
  end.

(** The slice the caller sees; it aliases [s.buf], so it is read before the
    next [Scan]. *)
Definition Record_ (s : Scanner) : list byte := take (recordLen s) (buf s).
Definition Offset (s : Scanner) : Z := offset s.
Definition LastValidOffset (s : Scanner) : Z := lastValidOffset s.
Definition Err_ (s : Scanner) : option error := err s.

(** The payload of [Skip]: what is buffered is discarded, the rest sought or
    copied over.  [false] when the scanner has failed. *)
Definition skip_payload (s : Scanner) (payload : nat) : Scanner * bool :=
  let buffered := length (br_buf (br s)) in
  let b := bufio_Discard (min payload buffered) (br s) in
  let remain := (payload - buffered)%nat in
  if decide (0 < remain)%nat then
    match seeker s with
    | Some (Some e) => (with_err (with_br s b) e, false)
    | Some None =>
      (with_br s (BufioReader [] (br_size b) (src_seek remain (br_src b))), true)
    | None =>
      match io_CopyN_Discard remain b with
      | (_, Some e, b) => (short_read (with_br s b) e, false)
      | (_, None, b) => (with_br s b, true)
      end
    end
  else (with_br s b, true).

Definition Skip (s : Scanner) : Scanner * bool :=
  match err s with
  | Some _ => (s, false)
  | None =>
    let startOffset := lastValidOffset s in
    match readHeader s with
    | (s, None) => (s, false)
    | (s, Some len) =>
      match skip_payload s (Z.to_nat len) with
      | (s, false) => (s, false)
      | (s, true) =>
        let '(footer, e, b) := io_ReadFull Crc.footerSize (br s) in
        let s := with_br s b in
        match e with
        | Some e => (short_read s e, false)
        | None =>
          (with_valid (with_offset s startOffset)
             (i64 (startOffset + Crc.frameOverhead + len)), true)
        end
      end
    end
  end.

(** The loop of the callers: [for s.Scan() { records = append(records,
    bytes.Clone(s.Record())) }].  A record takes at least 16 bytes, so one
    round per byte of the stream is more than enough. *)
Fixpoint scan_loop (fuel : nat) (s : Scanner) (acc : list (list byte))
  : list (list byte) * Scanner :=
  match fuel with
  | O => (acc, with_err s (Msg "recordio: scanner makes no progress"))
  | S fuel =>
    match Scan s with
    | (s, true) => scan_loop fuel s (acc ++ [Record_ s])
    | (s, false) => (acc, s)
    end
  end.

Definition scan_all (s : Scanner) : list (list byte) * Scanner :=
  scan_loop (S (length (stream (br s)))) s [].

(** ** Refinement: [Scan] is [parse_frame] on the flat stream *)

Definition sstream (s : Scanner) : list byte := stream (br s).
Definition send (s : Scanner) : error := src_end (br_src (br s)).
Definition ready (s : Scanner) : Prop := err s = None /\ (0 < br_size (br s))%nat.

(** What no operation changes. *)
Definition same_config (s s' : Scanner) : Prop :=
  br_size (br s') = br_size (br s) /\ send s' = send s /\
  seeker s' = seeker s /\ maxRecordSize s' = maxRecordSize s.

#[local] Ltac solve_config := repeat split; unfold send in *; simpl in *; congruence.

Lemma NewScanner_ready r seek opts : ready (NewScanner r seek opts).
Proof.
  unfold NewScanner. destruct (foldl _ _ opts). split; simpl; [done|lia].
Qed.

Lemma NewScanner_stream r seek opts : sstream (NewScanner r seek opts) = src_stream r.
Proof. unfold NewScanner. by destruct (foldl _ _ opts). Qed.

Lemma NewScanner_send r seek opts : send (NewScanner r seek opts) = src_end r.
Proof. unfold NewScanner. by destruct (foldl _ _ opts). Qed.

Lemma NewScanner_valid r seek opts : lastValidOffset (NewScanner r seek opts) = 0.
Proof. unfold NewScanner. by destruct (foldl _ _ opts). Qed.

Lemma torn_eof_error p e : torn (eof_error p e) = torn e.
Proof. by destruct e, p. Qed.

Lemma is_eof_eof_error p e : is_eof (eof_error p e) = is_eof e.
Proof. by destruct e, p. Qed.

Lemma torn_not_eof e : is_eof e = false -> torn e = e.
Proof. unfold torn. by intros ->. Qed.

Lemma eof_error_false e : eof_error false e = e.
Proof. by destruct e. Qed.

(** The header part of [parse_frame]. *)
Definition parse_header (max : Z) (en : error) (l : list byte) : option error + Z :=
  if decide (length l < 12)%nat then
    inl (if is_eof en && bool_decide (l = []) then None else Some (torn en))
  else
    let len := le_get (take 8 l) in
    if decide (Crc.computeMaskedCRC (take 8 l) <> le_get (take 4 (drop 8 l)))
    then inl (Some ErrHeaderCorrupted)
    else if decide (max < len) then inl (Some ErrRecordTooLarge)
    else inr len.

Lemma readHeader_spec s s' o : ready s -> readHeader s = (s', o) ->
  same_config s s' /\ lastValidOffset s' = lastValidOffset s /\
  match parse_header (maxRecordSize s) (send s) (sstream s) with
  | inl e => o = None /\ err s' = e
  | inr len => o = Some len /\ err s' = None /\
               sstream s' = drop 12 (sstream s) /\ (12 <= length (sstream s))%nat
  end.
Proof.
  intros (He & Hs). unfold readHeader, parse_header.
  destruct (io_ReadFull_spec Crc.headerSize (br s) Hs) as (b & Hb1 & Hb2 & Hr).
  cbn [br with_record] in Hr |- *. unfold Crc.headerSize in *. fold (sstream s) in Hr.
  destruct (decide (12 <= length (sstream s))%nat) as [Hl|Hl].
  - destruct Hr as [-> Hst]. rewrite (decide_False (P:=(_ < 12)%nat)) by lia.
    rewrite take_take, Nat.min_l, skipn_firstn_comm, take_take, Nat.min_l by lia.
    case_decide; [intros [= <- <-]; by repeat split|]. simpl.
    case_decide; intros [= <- <-]; by repeat split.
  - destruct Hr as [-> Hst]. rewrite (decide_True (P:=(_ < 12)%nat)) by lia.
    rewrite is_eof_eof_error. unfold short_read. fold (send s).
    destruct (decide (sstream s = [])) as [E|E].
    + rewrite E, bool_decide_eq_false_2, eof_error_false by (intros []; done).
      rewrite bool_decide_eq_true_2, andb_true_r by done.
      destruct (is_eof (send s)) eqn:Ee; intros [= <- <-]; split_and!; try by repeat split.
      simpl. by rewrite torn_not_eof.
    + rewrite (bool_decide_eq_false_2 (sstream s = [])), andb_false_r by done.
      rewrite torn_eof_error. intros [= <- <-]. by repeat split.
Qed.

Lemma parse_frame_header max en l :
  parse_frame max en l =
  match parse_header max en l with
  | inl None => FEnd
  | inl (Some e) => FErr e
  | inr len =>
    let n := Z.to_nat len in
    let rest := drop 12 l in
    if decide (length rest < n + 4)%nat then FErr (torn en)
    else if decide (Crc.computeMaskedCRC (take n rest) <> le_get (take 4 (drop n rest)))
    then FErr ErrDataCorrupted
    else FRec (take n rest) (drop (n + 4) rest)
  end.
Proof.
  unfold parse_frame, parse_header. case_decide; [by destruct (_ && _)|].
  case_decide; [done|]. by case_decide.
Qed.

Lemma take_overwrite n b d : length d = n -> take n (overwrite b d) = d.
Proof. intros <-. unfold overwrite. by rewrite take_app_length. Qed.

(** The payload: [n] bytes off the stream, or its end. *)
Lemma read_payload n b d e b' : (0 < br_size b)%nat ->
  (if decide (0 < n)%nat then io_ReadFull n b else ([], None, b)) = (d, e, b') ->
  br_size b' = br_size b /\ src_end (br_src b') = src_end (br_src b) /\
  if decide (n <= length (stream b))%nat
  then d = take n (stream b) /\ e = None /\ stream b' = drop n (stream b)
  else exists e', e = Some e' /\ torn e' = torn (src_end (br_src b)).
Proof.
  intros Hs. destruct (decide (0 < n)%nat) as [H0|H0].
  - destruct (io_ReadFull_spec n b Hs) as (b1 & ? & ? & Hp). case_decide.
    + destruct Hp as [-> ?]. by intros [= <- <- <-].
    + destruct Hp as [-> ?]. intros [= <- <- <-]. do 2 (split; [done|]).
      eexists. split; [done|]. apply torn_eof_error.
  - intros [= <- <- <-]. rewrite decide_True by lia. by replace n with 0%nat by lia.
Qed.

Lemma Scan_spec s s' ok : ready s -> Scan s = (s', ok) ->
  same_config s s' /\
  match parse_frame (maxRecordSize s) (send s) (sstream s) with
  | FEnd => ok = false /\ err s' = None /\ lastValidOffset s' = lastValidOffset s
  | FErr e => ok = false /\ err s' = Some e /\ lastValidOffset s' = lastValidOffset s
  | FRec r rest =>
    ok = true /\ ready s' /\ Record_ s' = r /\ sstream s' = rest /\
    offset s' = lastValidOffset s /\
    lastValidOffset s' = i64 (lastValidOffset s + Crc.frameOverhead + Z.of_nat (length r))
  end.
Proof.
  intros Hr. unfold Scan. rewrite (proj1 Hr), parse_frame_header.
  destruct (readHeader s) as [s1 o] eqn:Eh.
  apply readHeader_spec in Eh as ((Hz1 & Hn1 & Hk1 & Hm1) & Hv1 & Hh); [|done].
  destruct (parse_header _ _ _) as [e|len].
  { destruct Hh as [-> He1]. intros [= <- <-]. split; [done|]. destruct e; auto. }
  destruct Hh as (-> & He1 & Hst & Hlen).
  set (n := Z.to_nat len). set (buf1 := if decide (length (buf s1) < n)%nat then _ else _).
  cbn [with_record with_offset br].
  destruct (if decide (0 < n)%nat then io_ReadFull n (br s1) else ([], None, br s1))
    as [[d e] b] eqn:Ep.
  apply read_payload in Ep as (Hz2 & Hn2 & Hp); [|destruct Hr; lia].
  fold (sstream s1) in Hp. fold (send s1) in Hn2, Hp. rewrite Hst in Hp. cbn zeta.
  rewrite length_drop in *. cbn [buf with_record with_offset with_br br].
  destruct (decide (n <= length (sstream s) - 12)%nat) as [Hle|Hle].
  - destruct Hp as (-> & -> & Hst2).
    destruct (io_ReadFull_spec Crc.footerSize b) as (b3 & Hz3 & Hn3 & Hf);
      [destruct Hr; lia|].
    unfold Crc.footerSize in *. rewrite Hst2, !length_drop in Hf.
    destruct (decide (4 <= length (sstream s) - 12 - n)%nat) as [H4|H4].
    + destruct Hf as [-> Hst3].
      assert (length (take n (drop 12 (sstream s))) = n) as Hln
        by (rewrite length_take, length_drop; lia).
      rewrite take_overwrite by done. rewrite (decide_False (P:=(_ < n + 4)%nat)) by lia.
      case_decide; intros [= <- <-]; (split; [solve_config|]).
      { simpl. auto. }
      split_and!; try done; simpl.
      * split; simpl; [done|destruct Hr; lia].
      * unfold Record_. simpl. by rewrite take_overwrite.
      * unfold sstream. simpl. by rewrite Hst3, drop_drop.
      * by rewrite Hln.
    + destruct Hf as [-> Hst3]. rewrite (decide_True (P:=(_ < n + 4)%nat)) by lia.
      intros [= <- <-]. split; [solve_config|]. simpl.
      rewrite torn_eof_error, Hn2. unfold send in *. rewrite Hn1. auto.
  - destruct Hp as (e' & -> & Ht). rewrite decide_True by lia.
    intros [= <- <-]. split; [solve_config|]. simpl.
    unfold send in *. rewrite Ht, Hn1. auto.
Qed.

(** ** The whole stream *)
Fixpoint parse_all (fuel : nat) (max : Z) (en : error) (l : list byte)
  : list (list byte) * option error :=
  match fuel with
  | O => ([], Some (Msg "recordio: scanner makes no progress"))
  | S fuel =>
    match parse_frame max en l with
    | FEnd => ([], None)
    | FErr e => ([], Some e)
    | FRec r rest => let '(rs, e) := parse_all fuel max en rest in (r :: rs, e)
    end
  end.

(** The reference reading of a byte string that ends with [en]. *)
Definition parse_stream (max : Z) (en : error) (l : list byte)
  : list (list byte) * option error := parse_all (S (length l)) max en l.

Lemma parse_frame_shorter max en l r rest :
  parse_frame max en l = FRec r rest -> (length rest + 16 + length r <= length l)%nat.
Proof.
  unfold parse_frame. case_decide; [by destruct (_ && _)|].
  do 4 (case_decide; [done|]). intros [= <- <-].
  rewrite length_take, !length_drop in *. lia.
Qed.

Lemma parse_all_fuel f1 f2 max en l :
  (length l < f1)%nat -> (length l < f2)%nat ->
  parse_all f1 max en l = parse_all f2 max en l.
Proof.
  revert f2 l. induction f1 as [|f1 IH]; intros [|f2] l H1 H2; try lia. simpl.
  destruct (parse_frame max en l) eqn:E; try done.
  apply parse_frame_shorter in E. by rewrite (IH f2) by lia.
Qed.

Lemma parse_stream_unfold max en l :
  parse_stream max en l =
  match parse_frame max en l with
  | FEnd => ([], None)
  | FErr e => ([], Some e)
  | FRec r rest => let '(rs, e) := parse_stream max en rest in (r :: rs, e)
  end.
Proof.
  unfold parse_stream at 1. simpl. destruct (parse_frame max en l) eqn:E; try done.
  apply parse_frame_shorter in E. unfold parse_stream.
  by rewrite (parse_all_fuel _ (S (length rest))) by lia.
Qed.

Lemma scan_loop_spec fuel s acc rs s' :
  ready s -> (length (sstream s) < fuel)%nat -> scan_loop fuel s acc = (rs, s') ->
  exists rs', rs = acc ++ rs' /\
    (rs', err s') = parse_stream (maxRecordSize s) (send s) (sstream s) /\
    lastValidOffset s' = (if decide (rs' = []) then lastValidOffset s
      else i64 (lastValidOffset s + Z.of_nat (length (frames rs')))).
Proof.
  revert s acc. induction fuel as [|fuel IH]; intros s acc Hr Hf; [lia|].
  simpl. destruct (Scan s) as [s1 ok] eqn:E.
  apply Scan_spec in E as [(Hz & Hn & Hk & Hm) E]; [|done].
  rewrite parse_stream_unfold. destruct (parse_frame _ _ _) eqn:Ep.
  - destruct E as (-> & He & Hv). intros [= <- <-]. exists []. by rewrite app_nil_r, He.
  - destruct E as (-> & He & Hv). intros [= <- <-]. exists []. by rewrite app_nil_r, He.
  - destruct E as (-> & Hr1 & Hrec & Hst & _ & Hv). intros Hl.
    pose proof (parse_frame_shorter _ _ _ _ _ Ep).
    apply IH in Hl as (rs' & -> & Hp & Hv'); [|done|rewrite Hst; lia].
    rewrite Hm, Hn, Hst in Hp. rewrite <-Hp, Hrec in *.
    exists (r :: rs'). split; [by rewrite <-app_assoc|]. split; [done|].
    rewrite Hv', (decide_False (P := r :: rs' = [])) by done. rewrite frames_cons, length_app, Nat2Z.inj_add, length_frame.
    rewrite Hv. case_decide as E0; [subst rs'|].
    + f_equal. simpl. lia.
    + rewrite i64_add. f_equal. lia.
Qed.

Lemma scan_all_spec s rs s' :
  ready s -> scan_all s = (rs, s') ->
  (rs, err s') = parse_stream (maxRecordSize s) (send s) (sstream s) /\
  lastValidOffset s' = (if decide (rs = []) then lastValidOffset s
      else i64 (lastValidOffset s + Z.of_nat (length (frames rs)))).
Proof.
  intros Hr E. apply scan_loop_spec in E as (rs' & -> & E); [done|done|].
  unfold sstream. lia.
Qed.

(** *** Frames read back *)
Definition fits (max : Z) (r : list byte) : Prop :=
  Z.of_nat (length r) <= max /\ is_u64 (Z.of_nat (length r)).

Lemma le_get_put_u32 v : is_u32 v -> le_get (le_put 4 v) = v.
Proof. intros H. rewrite le_get_put. by apply u32_small. Qed.
Lemma le_get_put_u64 v : is_u64 v -> le_get (le_put 8 v) = v.
Proof. intros H. rewrite le_get_put. by apply u64_small. Qed.

Lemma le_get_footer r : le_get (footer_of r) = Crc.computeMaskedCRC r.
Proof. apply le_get_put_u32, Crc.computeMaskedCRC_range. Qed.

Lemma take8_header len l : take 8 (header_of len ++ l) = le_put 8 len.
Proof.
  unfold header_of. rewrite <-app_assoc. apply take_app_exact. by rewrite length_le_put.
Qed.
Lemma drop8_header len l :
  take 4 (drop 8 (header_of len ++ l)) = le_put 4 (Crc.computeMaskedCRC (le_put 8 len)).
Proof.
  unfold header_of. rewrite <-app_assoc, (drop_app_exact (le_put 8 len)) by by rewrite length_le_put.
  apply take_app_exact. by rewrite length_le_put.
Qed.
Lemma drop12_header len l : drop 12 (header_of len ++ l) = l.
Proof. apply drop_app_exact. by rewrite length_header_of. Qed.

(** A good header is accepted; what follows is up to the rest. *)
Lemma parse_frame_good_header max en len rest : is_u64 len ->
  parse_frame max en (header_of len ++ rest) =
  if decide (max < len) then FErr ErrRecordTooLarge else
  let n := Z.to_nat len in
  if decide (length rest < n + 4)%nat then FErr (torn en)
  else if decide (Crc.computeMaskedCRC (take n rest) <> le_get (take 4 (drop n rest)))
  then FErr ErrDataCorrupted
  else FRec (take n rest) (drop (n + 4) rest).
Proof.
  intros Hl. unfold parse_frame.
  rewrite decide_False by (rewrite length_app, length_header_of; unfold Crc.headerSize; lia).
  rewrite take8_header, drop8_header, drop12_header, le_get_put_u64 by done.
  rewrite le_get_put_u32 by apply Crc.computeMaskedCRC_range.
  by rewrite decide_False by (intros H; by apply H).
Qed.

Lemma parse_frame_frame max en r rest : fits max r ->
  parse_frame max en (frame r ++ rest) = FRec r rest.
Proof.
  intros [Hm Hu]. unfold frame. rewrite <-!app_assoc, u64_small by done.
  rewrite parse_frame_good_header by done. rewrite decide_False by lia. cbn zeta.
  rewrite Nat2Z.id, !length_app, length_footer_of. unfold Crc.footerSize.
  rewrite decide_False by lia. rewrite take_app_length, drop_app_length.
  rewrite (take_app_exact (footer_of r)) by (by rewrite length_footer_of).
  rewrite le_get_footer.
  rewrite decide_False by (intros H; by apply H). f_equal.
  rewrite app_assoc. apply drop_app_exact. by rewrite length_app, length_footer_of.
Qed.

Lemma parse_stream_frames max en rs l : Forall (fits max) rs ->
  parse_stream max en (frames rs ++ l) =
  let '(q, e) := parse_stream max en l in (rs ++ q, e).
Proof.
  induction 1 as [|r rs Hr _ IH]; [by simpl; destruct (parse_stream max en l)|].
  rewrite frames_cons, <-app_assoc, parse_stream_unfold, parse_frame_frame by done.
  rewrite IH. by destruct (parse_stream max en l).
Qed.

Lemma parse_stream_nil max : parse_stream max EOF [] = ([], None).
Proof. done. Qed.

(** *** A cut frame is a torn write *)
Lemma parse_frame_cut max r n : fits max r ->
  (0 < n < length (frame r))%nat ->
  parse_frame max EOF (take n (frame r)) = FErr ErrTornWrite.
Proof.
  intros [Hm Hu] [Hn0 Hn]. pose proof (length_frame r) as Hlf.
  unfold Crc.frameOverhead in Hlf.
  destruct (decide (n < 12)%nat) as [H12|H12].
  - unfold parse_frame. rewrite length_take, decide_True by lia.
    rewrite bool_decide_eq_false_2, andb_false_r; [done|].
    intros E%(f_equal length). rewrite length_take in E. simpl in E. lia.
  - unfold frame in *. rewrite u64_small in * by done.
    rewrite take_app, (take_ge (header_of _)) by (rewrite length_header_of; unfold Crc.headerSize; lia).
    rewrite parse_frame_good_header by done. rewrite decide_False by lia. cbn zeta.
    rewrite Nat2Z.id, decide_True; [done|].
    rewrite length_take, length_header_of. unfold Crc.headerSize. lia.
Qed.

(** *** A changed byte is detected *)

(** [f] with the byte at [i] replaced by a different one. *)
Definition corrupt_at (i : nat) (b : byte) (f : list byte) : list byte := <[i := b]> f.

Lemma insert_split {A} (l : list A) i x b : l !! i = Some x ->
  l = take i l ++ x :: drop (S i) l /\ <[i := b]> l = take i l ++ b :: drop (S i) l.
Proof.
  intros H. split; [by rewrite take_drop_middle|].
  rewrite insert_take_drop; [done|]. by eapply lookup_lt_Some.
Qed.

Lemma crc_corrupt l i x b : l !! i = Some x -> b <> x ->
  Crc.computeMaskedCRC (<[i := b]> l) <> Crc.computeMaskedCRC l.
Proof.
  intros Hl Hb H. destruct (insert_split l i x b Hl) as [E1 E2].
  rewrite E2 in H. rewrite E1 in H at 3. apply Crc.computeMaskedCRC_one_byte in H. done.
Qed.

Lemma le_put_corrupt n v i x b : le_put n v !! i = Some x -> b <> x ->
  le_get (<[i := b]> (le_put n v)) <> le_get (le_put n v).
Proof.
  intros Hl Hb H. apply le_get_inj in H; [|by rewrite length_insert].
  apply Hb. apply (f_equal (.!! i)) in H.
  rewrite list_lookup_insert_eq in H by (by eapply lookup_lt_Some). congruence.
Qed.

Lemma parse_frame_bad_header max en h c rest :
  length h = 8%nat -> length c = 4%nat -> Crc.computeMaskedCRC h <> le_get c ->
  parse_frame max en (h ++ c ++ rest) = FErr ErrHeaderCorrupted.
Proof.
  intros Hh Hc Hne. unfold parse_frame. rewrite decide_False by (rewrite !length_app; lia).
  rewrite take_app_exact, drop_app_exact, take_app_exact by done.
  by rewrite decide_True.
Qed.

Lemma parse_frame_bad_payload max en p f rest :
  fits max p -> length f = 4%nat -> Crc.computeMaskedCRC p <> le_get f ->
  parse_frame max en (header_of (Z.of_nat (length p)) ++ p ++ f ++ rest) = FErr ErrDataCorrupted.
Proof.
  intros [Hm Hu] Hf Hne. rewrite parse_frame_good_header by done.
  rewrite decide_False by lia. cbn zeta.
  rewrite Nat2Z.id, !length_app, decide_False by lia.
  rewrite take_app_length, drop_app_length, take_app_exact by done. by rewrite decide_True.
Qed.

Lemma parse_frame_corrupt max en r rest i x b :
  fits max r -> frame r !! i = Some x -> b <> x ->
  parse_frame max en (corrupt_at i b (frame r) ++ rest) =
    FErr (if decide (i < 12)%nat then ErrHeaderCorrupted else ErrDataCorrupted).
Proof.
  intros Hf Hi Hb. pose proof Hf as [Hm Hu]. unfold corrupt_at, frame in *.
  rewrite u64_small in * by done.
  destruct (decide (i < 12)%nat) as [H12|H12].
  - unfold header_of in *. rewrite <-!app_assoc in *.
    destruct (decide (i < 8)%nat) as [H8|H8].
    + rewrite lookup_app_l in Hi by (by rewrite length_le_put).
      rewrite insert_app_l by (by rewrite length_le_put). rewrite <-!app_assoc.
      apply parse_frame_bad_header; [by rewrite length_insert, length_le_put|apply length_le_put|].
      rewrite le_get_put_u32 by apply Crc.computeMaskedCRC_range. by eapply crc_corrupt.
    + replace i with (length (le_put 8 (Z.of_nat (length r))) + (i - 8))%nat in Hi |- *
        by (rewrite length_le_put; lia).
      rewrite lookup_app_r in Hi by lia.
      rewrite insert_app_r, insert_app_l by (rewrite length_le_put; lia).
      rewrite Nat.add_comm, Nat.add_sub in Hi. rewrite lookup_app_l in Hi by (rewrite length_le_put; lia).
      rewrite <-!app_assoc. apply parse_frame_bad_header.
      * by rewrite length_le_put.
      * by rewrite length_insert, length_le_put.
      * intros E. eapply le_put_corrupt in Hi; [|done]. apply Hi. rewrite <-E.
        by rewrite le_get_put_u32 by apply Crc.computeMaskedCRC_range.
  - replace i with (length (header_of (Z.of_nat (length r))) + (i - 12))%nat in Hi |- *
      by (rewrite length_header_of; unfold Crc.headerSize; lia).
    rewrite lookup_app_r, Nat.add_comm, Nat.add_sub in Hi by lia. rewrite insert_app_r.
    set (j := (i - 12)%nat) in *.
    destruct (decide (j < length r)%nat) as [Hj|Hj].
    + rewrite lookup_app_l in Hi by done. rewrite insert_app_l by done.
      rewrite <-!app_assoc, <-(length_insert r j b).
      apply parse_frame_bad_payload; [split; by rewrite length_insert|by rewrite length_footer_of|].
      rewrite le_get_footer. by eapply crc_corrupt.
    + replace j with (length r + (j - length r))%nat in Hi |- * by lia.
      rewrite lookup_app_r, Nat.add_comm, Nat.add_sub in Hi by lia. rewrite insert_app_r, <-!app_assoc.
      apply parse_frame_bad_payload; [done|by rewrite length_insert, length_footer_of|].
      intros E. eapply le_put_corrupt in Hi; [|done]. apply Hi. fold (footer_of r).
      by rewrite le_get_footer, E.
Qed.

(** ** Skip *)
Lemma skip_payload_spec s n : (0 < br_size (br s))%nat ->
  (forall e, seeker s <> Some (Some e)) -> (n <= length (sstream s))%nat ->
  exists b, skip_payload s n = (with_br s b, true) /\
    br_size b = br_size (br s) /\ stream b = drop n (sstream s).
Proof.
  intros Hsz Hseek Hlen. unfold skip_payload.
  set (m := length (br_buf (br s))).
  assert (sstream s = br_buf (br s) ++ src_stream (br_src (br s))) as Hst by done.
  case_decide as Hrem.
  - assert (stream (bufio_Discard (n `min` m) (br s)) = src_stream (br_src (br s))) as Hd.
    { unfold stream. simpl. by rewrite drop_ge by lia. }
    assert (drop n (sstream s) = drop (n - m) (src_stream (br_src (br s)))) as Hdn.
    { rewrite Hst, drop_app. by rewrite drop_ge by lia. }
    destruct (seeker s) as [[e|]|] eqn:Es; [by destruct (Hseek e)| |].
    + eexists. split; [done|]. split; [done|]. rewrite Hdn. apply src_seek_stream.
    + destruct (io_CopyN_Discard_spec (n - m) (bufio_Discard (n `min` m) (br s)))
        as (k & b & Hbz & _ & Hc); [done|].
      rewrite Hd in Hc. rewrite decide_True in Hc; [|rewrite Hst, length_app in Hlen; lia].
      destruct Hc as [-> Hbs]. exists b. by rewrite Hdn.
  - eexists. split; [done|]. split; [done|]. unfold stream. simpl.
    rewrite Hst, drop_app. replace (n `min` m)%nat with n by lia.
    by replace (n - length (br_buf (br s)))%nat with 0%nat by lia.
Qed.

(** Past a good header, [Skip] moves over the payload and the footer. *)
Lemma Skip_spec s s' ok len s1 :
  ready s -> (forall e, seeker s <> Some (Some e)) ->
  readHeader s = (s1, Some len) ->
  (Z.to_nat len + 4 <= length (sstream s1))%nat ->
  Skip s = (s', ok) ->
  ok = true /\ err s' = None /\ sstream s' = drop (Z.to_nat len + 4) (sstream s1) /\
  offset s' = lastValidOffset s /\
  lastValidOffset s' = i64 (lastValidOffset s + Crc.frameOverhead + len).
Proof.
  intros Hr Hseek Eh Hlen.
  pose proof (readHeader_spec _ _ _ Hr Eh) as ((Hz & Hn & Hk & Hm) & Hv & Hh).
  unfold Skip. rewrite (proj1 Hr), Eh.
  destruct (parse_header _ _ _) as [|len']; [by destruct Hh|].
  destruct Hh as ([= <-] & He1 & _ & _).
  destruct (skip_payload_spec s1 (Z.to_nat len)) as (b & -> & Hbz & Hbs);
    [destruct Hr; lia|by rewrite Hk|lia|].
  cbn [br with_br].
  destruct (io_ReadFull_spec Crc.footerSize b) as (b3 & _ & _ & Hf); [destruct Hr; lia|].
  rewrite Hbs in Hf. unfold Crc.footerSize in *. rewrite length_drop, decide_True in Hf by lia.
  destruct Hf as [-> Hb3]. intros [= <- <-]. simpl. split_and!; auto.
  unfold sstream. simpl. rewrite Hb3. apply drop_drop.
Qed.

Lemma parse_stream_cut max rs n : Forall (fits max) rs -> exists k,
  (k <= length rs)%nat /\ (length (frames (take k rs)) <= n)%nat /\
  (k < length rs -> n < length (frames (take (S k) rs)))%nat /\
  parse_stream max EOF (take n (frames rs)) =
    (take k rs, if decide (n `min` length (frames rs) = length (frames (take k rs)))%nat
                then None else Some ErrTornWrite).
Proof.
  intros Hf. revert n. induction Hf as [|r rs Hr Hf IH]; intros n.
  { exists 0%nat. unfold frames. simpl. rewrite !take_nil.
    split_and!; [lia..|]. by rewrite decide_True by lia. }
  rewrite frames_cons. destruct (decide (length (frame r) <= n)%nat) as [Hle|Hle].
  - destruct (IH (n - length (frame r))%nat) as (k & Hk & Hlk & Hnk & Hp).
    exists (S k). rewrite !firstn_cons, !frames_cons, !length_app. cbn [length].
    split_and!; [lia|lia|intros; lia|].
    rewrite take_app, take_ge by done.
    rewrite parse_stream_unfold, parse_frame_frame, Hp by done. f_equal.
    destruct (decide (_ = _)); [rewrite decide_True by lia|rewrite decide_False by lia]; done.
  - exists 0%nat. rewrite firstn_cons, !take_0, frames_cons, !length_app. cbn [length].
    split_and!; [lia|simpl; lia|lia|].
    rewrite take_app_le by lia. destruct n as [|n].
    + rewrite take_0, Nat.min_0_l. by rewrite decide_True.
    + rewrite parse_stream_unfold, parse_frame_cut, decide_False by (done || lia || (simpl; lia)). done.
Qed.

(** C26. Round trip: whatever the chunking of the reader, the buffer size and
    the options, scanning the bytes a writer produced for records within the
    scanner's limit returns exactly those records, ends without an error and
    leaves [LastValidOffset] at the end of the data. *)
Theorem scan_roundtrip rs data src seek opts :
  encode_records rs = Ok data ->
  src_stream src = data -> src_end src = EOF ->
  Forall (fits (maxRecordSize (NewScanner src seek opts))) rs ->
  Z.of_nat (length data) < 2 ^ 63 ->
  exists s', scan_all (NewScanner src seek opts) = (rs, s') /\
    Err_ s' = None /\ LastValidOffset s' = Z.of_nat (length data).
Proof.
  rewrite encode_records_ok. intros [= <-] Hst He Hf Hlen.
  destruct (scan_all (NewScanner src seek opts)) as [rs' s'] eqn:E.
  pose proof (NewScanner_ready src seek opts) as Hr.
  apply scan_all_spec in E as [E Hv]; [|done].
  rewrite NewScanner_stream, Hst in E. fold (frames rs) in *.
  rewrite NewScanner_send, He, <-(app_nil_r (frames rs)), parse_stream_frames, parse_stream_nil, app_nil_r in E by done.
  injection E as -> He'. exists s'. split_and!; [done|done|].
  unfold LastValidOffset. rewrite Hv, NewScanner_valid.
  case_decide as H0; [by rewrite H0|]. rewrite i64_small; lia.
Qed.

(** C27. Crash safety: when the stream is cut at any byte [n], the scanner
    returns exactly the records whose frames are complete; it ends cleanly if
    the cut falls between two frames and with [ErrTornWrite] otherwise; and
    [LastValidOffset] is the end of the last complete frame. *)
Theorem scan_truncated rs data src seek opts n :
  encode_records rs = Ok data ->
  src_stream src = take n data -> src_end src = EOF ->
  Forall (fits (maxRecordSize (NewScanner src seek opts))) rs ->
  Z.of_nat (length data) < 2 ^ 63 ->
  exists k s', (k <= length rs)%nat /\
    scan_all (NewScanner src seek opts) = (take k rs, s') /\
    (length (frames (take k rs)) <= n)%nat /\
    (k < length rs -> n < length (frames (take (S k) rs)))%nat /\
    Err_ s' = (if decide (n `min` length data = length (frames (take k rs)))%nat
               then None else Some ErrTornWrite) /\
    LastValidOffset s' = Z.of_nat (length (frames (take k rs))).
Proof.
  rewrite encode_records_ok. intros [= <-] Hst He Hf Hlen. fold (frames rs) in *.
  destruct (parse_stream_cut _ rs n Hf) as (k & Hk & Hlk & Hnk & Hp).
  destruct (scan_all (NewScanner src seek opts)) as [rs' s'] eqn:E.
  apply scan_all_spec in E as [E Hv]; [|apply NewScanner_ready].
  rewrite NewScanner_stream, Hst in E.
  rewrite NewScanner_send, He, Hp in E. injection E as -> He'. exists k, s'. split_and!; auto.
  unfold LastValidOffset. rewrite Hv, NewScanner_valid. case_decide as H1; [by rewrite H1|].
  assert (length (frames (take k rs)) <= length (frames rs))%nat.
  { rewrite <-(take_drop k rs) at 2. rewrite frames_app, length_app. lia. }
  rewrite i64_small; lia.
Qed.

(** C28. Corruption is detected: with one byte of one frame changed, the
    scanner returns the records before that frame and then stops with
    [ErrHeaderCorrupted] or [ErrDataCorrupted], by the half the byte is in;
    the damaged record and what follows it are never returned. *)
Theorem scan_corrupted rs1 r rest src seek opts i x b :
  let s := NewScanner src seek opts in
  Forall (fits (maxRecordSize s)) (rs1 ++ [r]) ->
  frame r !! i = Some x -> b <> x ->
  src_stream src = frames rs1 ++ corrupt_at i b (frame r) ++ rest ->
  exists s', scan_all s = (rs1, s') /\
    Err_ s' = Some (if decide (i < 12)%nat then ErrHeaderCorrupted else ErrDataCorrupted).
Proof.
  intros s Hf Hi Hb Hst. apply Forall_app in Hf as [Hf1 Hfr]. inversion_clear Hfr.
  destruct (scan_all s) as [rs' s'] eqn:E.
  apply scan_all_spec in E as [E _]; [|apply NewScanner_ready].
  unfold s in E. rewrite NewScanner_stream, Hst, parse_stream_frames in E by done.
  rewrite parse_stream_unfold, (parse_frame_corrupt _ _ r rest i x b), app_nil_r in E by done.
  injection E as -> He. by exists s'.
Qed.

(** C30. The scanner is a parser of bytes: two readers that deliver the same
    bytes and the same end, in whatever chunks and through whatever buffers
    (seekable or not), give the same records, the same error and the same
    [LastValidOffset]. *)
Theorem scan_chunking src1 src2 seek1 seek2 opts1 opts2 rs1 rs2 s1 s2 :
  src_stream src1 = src_stream src2 -> src_end src1 = src_end src2 ->
  maxRecordSize (NewScanner src1 seek1 opts1) = maxRecordSize (NewScanner src2 seek2 opts2) ->
  scan_all (NewScanner src1 seek1 opts1) = (rs1, s1) ->
  scan_all (NewScanner src2 seek2 opts2) = (rs2, s2) ->
  rs1 = rs2 /\ Err_ s1 = Err_ s2 /\ LastValidOffset s1 = LastValidOffset s2.
Proof.
  intros Hst He Hm E1 E2.
  apply scan_all_spec in E1 as [E1 V1]; [|apply NewScanner_ready].
  apply scan_all_spec in E2 as [E2 V2]; [|apply NewScanner_ready].
  rewrite NewScanner_stream, NewScanner_send in E1, E2.
  rewrite NewScanner_valid in V1, V2.
  rewrite Hst, He, Hm, <-E2 in E1. injection E1 as -> E1.
  unfold Err_, LastValidOffset. by rewrite V1, V2.
Qed.

(** [Skip] is [Scan] without the payload: where [Scan] returns a record,
    [Skip] (seeking or copying, whatever is buffered) succeeds too and leaves
    the scanner at the same place in the stream with the same [Offset] and
    [LastValidOffset]. *)
Theorem skip_as_scan s s1 s2 ok :
  ready s -> (forall e, seeker s <> Some (Some e)) ->
  Scan s = (s1, true) -> Skip s = (s2, ok) ->
  ok = true /\ Err_ s2 = None /\ sstream s2 = sstream s1 /\
  Offset s2 = Offset s1 /\ LastValidOffset s2 = LastValidOffset s1.
Proof.
  intros Hr Hseek E1 E2. apply Scan_spec in E1 as [_ E1]; [|done].
  rewrite parse_frame_header in E1.
  destruct (readHeader s) as [sh o] eqn:Eh.
  pose proof (readHeader_spec _ _ _ Hr Eh) as (_ & _ & Hh).
  destruct (parse_header _ _ _) as [[e|]|len]; [by destruct E1 as (? & _)..|].
  destruct Hh as (-> & _ & Hst & Hl12). cbn zeta in E1.
  case_decide as Hlen; [by destruct E1 as (? & _)|].
  case_decide; [by destruct E1 as (? & _)|].
  destruct E1 as (_ & _ & _ & Hs1 & Ho1 & Hv1).
  eapply Skip_spec in E2 as (-> & He2 & Hs2 & Ho2 & Hv2); [|done..|rewrite Hst; lia].
  unfold Err_, Offset, LastValidOffset. rewrite Hs2, Hs1, Ho1, Ho2, Hv1, Hv2, Hst.
  split_and!; try done. f_equal.
  rewrite length_drop in *. rewrite length_take, length_drop.
  assert (0 <= len); [|lia].
  pose proof Eh as Eh'. unfold readHeader in Eh'.
  repeat (case_match; simplify_eq). apply le_get_range.
Qed.

(** ** Witnesses *)
Definition ex_records : list (list byte) := [[x61; x62; x63]; []; [xff]].

Lemma fits_default r : Z.of_nat (length r) <= 1000 -> fits Crc.DefaultMaxRecordSize r.
Proof. unfold fits, is_u64, Crc.DefaultMaxRecordSize. lia. Qed.

Lemma ex_records_fit : Forall (fits Crc.DefaultMaxRecordSize) ex_records.
Proof. repeat (constructor; [apply fits_default; simpl; lia|]). constructor. Qed.

Lemma scan_roundtrip_witness : exists s',
  scan_all (NewScanner (Source [take 5 (frames ex_records); []; drop 5 (frames ex_records)] EOF)
              None [WithScannerBufferSize 7]) = (ex_records, s') /\
  Err_ s' = None /\ LastValidOffset s' = 52.
Proof.
  apply (scan_roundtrip ex_records (frames ex_records));
    [reflexivity|reflexivity|reflexivity|exact ex_records_fit|reflexivity].
Defined.

Lemma scan_truncated_witness : exists k s', (k <= 3)%nat /\
  scan_all (NewScanner (Source [take 30 (frames ex_records)] EOF) None []) =
    (take k ex_records, s') /\
  (length (frames (take k ex_records)) <= 30)%nat /\
  (k < 3 -> 30 < length (frames (take (S k) ex_records)))%nat /\
  Err_ s' = (if decide (30 `min` 52 = length (frames (take k ex_records)))%nat
             then None else Some ErrTornWrite) /\
  LastValidOffset s' = Z.of_nat (length (frames (take k ex_records))).
Proof.
  apply (scan_truncated ex_records (frames ex_records)
           (Source [take 30 (frames ex_records)] EOF) None [] 30);
    [reflexivity|reflexivity|reflexivity|exact ex_records_fit|reflexivity].
Defined.

Lemma scan_corrupted_witness : exists s',
  scan_all (NewScanner (Source [frames [[x61]] ++ corrupt_at 12 x63 (frame [x62]) ++ [x00]] EOF)
              None []) = ([[x61]], s') /\ Err_ s' = Some ErrDataCorrupted.
Proof.
  apply (scan_corrupted [[x61]] [x62] [x00]
           (Source [frames [[x61]] ++ corrupt_at 12 x63 (frame [x62]) ++ [x00]] EOF)
           None [] 12 x62 x63).
  - repeat (constructor; [apply fits_default; simpl; lia|]). constructor.
  - reflexivity.
  - discriminate.
  - vm_compute. reflexivity.
Defined.

Lemma scan_chunking_witness :
  let s1 := NewScanner (Source [frames ex_records] EOF) None [] in
  let s2 := NewScanner (Source ((fun b => [b]) <$> frames ex_records) EOF) (Some None)
              [WithScannerBufferSize 3] in
  (scan_all s1).1 = (scan_all s2).1 /\
  Err_ (scan_all s1).2 = Err_ (scan_all s2).2 /\
  LastValidOffset (scan_all s1).2 = LastValidOffset (scan_all s2).2.
Proof.
  apply (scan_chunking (Source [frames ex_records] EOF)
           (Source ((fun b => [b]) <$> frames ex_records) EOF)
           None (Some None) [] [WithScannerBufferSize 3]).
  - reflexivity.
  - reflexivity.
  - reflexivity.
  - apply surjective_pairing.
  - apply surjective_pairing.
Defined.

Lemma skip_as_scan_witness :
  let s := NewScanner (Source [frames ex_records] EOF) (Some None) [WithScannerBufferSize 16] in
  (Skip s).2 = true /\ Err_ (Skip s).1 = None /\
  sstream (Skip s).1 = sstream (Scan s).1 /\
  Offset (Skip s).1 = Offset (Scan s).1 /\
  LastValidOffset (Skip s).1 = LastValidOffset (Scan s).1.
Proof.
  apply (skip_as_scan (NewScanner (Source [frames ex_records] EOF) (Some None)
           [WithScannerBufferSize 16])).
  - apply NewScanner_ready.
  - discriminate.
  - vm_compute. reflexivity.
  - apply surjective_pairing.
Defined.
