(* ===== verification/GoStr.v ===== *)
(** * The parts of Go's [strings], [strconv], [fmt], [path] and [hex] in use

    Go strings are byte strings; [string] with [ascii] as the byte type is
    their model, ordered bytewise. *)

From S2P Require Import Prelude.
From Stdlib Require Import Ascii.
Local Open Scope Z_scope.

(** ** Comparison: [a < b] *)
Definition str_ltb (a b : string) : bool :=
  match String.compare a b with Lt => true | _ => false end.
Definition str_lt (a b : string) : Prop := String.compare a b = Lt.

#[export] Instance str_lt_dec : RelDecision str_lt.
Proof. intros a b. unfold str_lt. apply _. Defined.

Lemma compare_refl s : String.compare s s = Eq.
Proof.
  induction s as [|c s IH]; simpl; [done|].
  unfold Ascii.compare. by rewrite N.compare_refl.
Qed.

Lemma compare_app_l p a b : String.compare (p +:+ a) (p +:+ b) = String.compare a b.
Proof.
  induction p as [|c p IH]; simpl; [done|].
  unfold Ascii.compare. by rewrite N.compare_refl.
Qed.

#[export] Instance str_lt_irrefl : Irreflexive str_lt.
Proof. intros s H. unfold str_lt in H. by rewrite compare_refl in H. Qed.

#[export] Instance str_lt_trans : Transitive str_lt.
Proof.
  intros a. induction a as [|x a IH]; intros [|y b] [|z c]; unfold str_lt; simpl; try done.
  unfold Ascii.compare.
  destruct (N.compare_spec (N_of_ascii x) (N_of_ascii y)) as [E1|E1|E1]; try done;
  destruct (N.compare_spec (N_of_ascii y) (N_of_ascii z)) as [E2|E2|E2]; try done; intros H1 H2.
  - rewrite E1, E2, N.compare_refl. by eapply IH.
  - by rewrite E1, (proj2 (N.compare_lt_iff _ _) E2).
  - by rewrite <-E2, (proj2 (N.compare_lt_iff _ _) E1).
  - by rewrite (proj2 (N.compare_lt_iff _ _) (N.lt_trans _ _ _ E1 E2)).
Qed.

Lemma str_lt_trichotomy a b : str_lt a b \/ a = b \/ str_lt b a.
Proof.
  unfold str_lt. rewrite (String.compare_antisym b a).
  destruct (String.compare a b) eqn:E; auto.
  right; left. by apply String.compare_eq_iff.
Qed.

Lemma str_ltb_lt a b : str_ltb a b = true <-> str_lt a b.
Proof. unfold str_ltb, str_lt. by destruct (String.compare a b). Qed.

(** ** Prefixes, suffixes *)
Fixpoint HasPrefix (s p : string) {struct p} : bool :=
  match p, s with
  | EmptyString, _ => true
  | String a p, String b s => bool_decide (a = b) && HasPrefix s p
  | _, _ => false
  end.

Fixpoint str_drop (n : nat) (s : string) {struct n} : string :=
  match n, s with
  | O, _ => s
  | S n, String _ s => str_drop n s
  | _, EmptyString => EmptyString
  end.
Fixpoint str_take (n : nat) (s : string) : string :=
  match n, s with
  | S n, String c s => String c (str_take n s)
  | _, _ => EmptyString
  end.

Definition TrimPrefix (s p : string) : string :=
  if HasPrefix s p then str_drop (String.length p) s else s.

Definition HasSuffix (s x : string) : bool :=
  let n := (String.length s - String.length x)%nat in
  Nat.leb (String.length x) (String.length s) && bool_decide (str_drop n s = x).
Definition TrimSuffix (s x : string) : string :=
  if HasSuffix s x then str_take (String.length s - String.length x)%nat s else s.

Lemma str_app_cons c (a b : string) : String c a +:+ b = String c (a +:+ b).
Proof. done. Qed.
#[export] Hint Rewrite str_app_cons : cloudy_len.

Lemma str_length_app a b : String.length (a +:+ b) = (String.length a + String.length b)%nat.
Proof. induction a as [|x a IH]; [done|]. rewrite str_app_cons. simpl. by rewrite IH. Qed.
Lemma str_app_assoc (a b c : string) : (a +:+ b) +:+ c = a +:+ (b +:+ c).
Proof. induction a as [|x a IH]; [done|]. by rewrite !str_app_cons, IH. Qed.
Lemma str_app_nil_r (a : string) : a +:+ "" = a.
Proof. induction a as [|x a IH]; [done|]. by rewrite !str_app_cons, IH. Qed.
Lemma str_app_inj_l (p a b : string) : p +:+ a = p +:+ b -> a = b.
Proof. induction p as [|c p IH]; [done|]. rewrite !str_app_cons. intros [= H]. auto. Qed.

Lemma str_drop_app a b : str_drop (String.length a) (a +:+ b) = b.
Proof. induction a; done. Qed.
Lemma str_take_app a b : str_take (String.length a) (a +:+ b) = a.
Proof. induction a as [|c a IH]; [by destruct b|]. rewrite str_app_cons. simpl. by rewrite IH. Qed.

Lemma str_app_inj_r (x a b : string) : a +:+ x = b +:+ x -> a = b.
Proof.
  intros H. pose proof (f_equal String.length H) as Hl. rewrite !str_length_app in Hl.
  rewrite <-(str_take_app a x), H. replace (String.length a) with (String.length b) by lia.
  apply str_take_app.
Qed.

Lemma HasPrefix_app p s : HasPrefix (p +:+ s) p = true.
Proof. induction p as [|c p IH]; [done|]. rewrite str_app_cons. simpl. by rewrite bool_decide_eq_true_2. Qed.

Lemma HasPrefix_spec s p : HasPrefix s p = true <-> exists t, s = p +:+ t.
Proof.
  split; [|intros [t ->]; apply HasPrefix_app].
  revert s. induction p as [|a p IH]; intros [|b s]; simpl; try by eauto.
  destruct (decide (a = b)) as [->|]; [|by rewrite bool_decide_eq_false_2].
  rewrite bool_decide_eq_true_2 by done. simpl. intros [t ->]%IH. by exists t.
Qed.

Lemma HasSuffix_app s x : HasSuffix (s +:+ x) x = true.
Proof.
  unfold HasSuffix. rewrite str_length_app.
  rewrite (proj2 (Nat.leb_le _ _)) by lia.
  replace (_ - _)%nat with (String.length s) by lia.
  by rewrite str_drop_app, bool_decide_eq_true_2.
Qed.
Lemma HasSuffix_char s c x : c <> x -> HasSuffix (s +:+ String c "") (String x "") = false.
Proof.
  intros Hne. unfold HasSuffix. rewrite str_length_app.
  replace (_ - _)%nat with (String.length s) by (simpl; lia).
  rewrite str_drop_app, bool_decide_eq_false_2 by congruence. apply andb_false_r.
Qed.
Lemma TrimSuffix_app s x : TrimSuffix (s +:+ x) x = s.
Proof.
  unfold TrimSuffix. rewrite HasSuffix_app, str_length_app.
  replace (_ - _)%nat with (String.length s) by lia. apply str_take_app.
Qed.

(** ** Numbers *)
Definition digit (d : Z) : ascii :=
  ascii_of_N (Z.to_N (if decide (d < 10) then 48 + d else 87 + d)).

(** [strconv] digits: [0-9], [a-z] and [A-Z], below the base. *)
Definition digit_val (base : Z) (c : ascii) : option Z :=
  let n := Z.of_N (N_of_ascii c) in
  let d := if decide (48 <= n <= 57) then n - 48
           else if decide (97 <= n <= 122) then n - 87
           else if decide (65 <= n <= 90) then n - 55
           else base in
  if decide (d < base) then Some d else None.

Fixpoint parse_loop (base : Z) (s : string) (v : Z) : option Z :=
  match s with
  | EmptyString => Some v
  | String c s => match digit_val base c with
                  | Some d => parse_loop base s (v * base + d)
                  | None => None
                  end
  end.

(** [strconv.ParseUint(s, base, 64)] for an explicit base. *)
Definition ParseUint (s : string) (base : Z) : option Z :=
  if decide (s = "") then None else
  match parse_loop base s 0 with
  | Some v => if decide (v <= MaxUint64) then Some v else None
  | None => None
  end.

(** [strconv.ParseInt(s, base, 64)]: an optional sign, then [ParseUint], then
    the signed range. *)
Definition ParseInt (s : string) (base : Z) : option Z :=
  let '(neg, u) := match s with
    | String "-" t => (true, t)
    | String "+" t => (false, t)
    | _ => (false, s)
    end in
  match ParseUint u base with
  | Some v => if (neg : bool) then (if decide (v <= 2 ^ 63) then Some (- v) else None)
              else (if decide (v < 2 ^ 63) then Some v else None)
  | None => None
  end.

(** Digits of [n], most significant first; 64 are enough for any 64-bit
    number in any base. *)
Fixpoint fmt_loop (fuel : nat) (base n : Z) (acc : string) : string :=
  match fuel with
  | O => acc
  | S fuel => let acc := String (digit (n mod base)) acc in
              if decide (n < base) then acc else fmt_loop fuel base (n / base) acc
  end.

Definition FormatInt (n base : Z) : string :=
  if decide (n < 0) then "-" +:+ fmt_loop 64 base (- n) "" else fmt_loop 64 base n "".

(** [fmt.Sprintf("%020d", n)] for [n < 10^20]. *)
Fixpoint fixed_loop (k : nat) (n : Z) (acc : string) : string :=
  match k with
  | O => acc
  | S k => fixed_loop k (n / 10) (String (digit (n mod 10)) acc)
  end.
Definition Sprintf_020d (n : Z) : string := fixed_loop 20 n "".
#[global] Arguments Sprintf_020d : simpl never.

Lemma digit_val_digit base d : 0 <= d < base -> base <= 36 -> digit_val base (digit d) = Some d.
Proof.
  intros Hd Hb. unfold digit_val, digit.
  rewrite N_ascii_embedding by (case_decide; lia).
  destruct (decide (d < 10)) as [H10|H10]; rewrite Z2N.id by lia.
  - rewrite (decide_True (P:=48 <= _ <= 57)) by lia.
    replace (48 + d - 48) with d by lia. by rewrite decide_True by lia.
  - rewrite (decide_False (P:=48 <= _ <= 57)), (decide_True (P:=97 <= _ <= 122)) by lia.
    replace (87 + d - 87) with d by lia. by rewrite decide_True by lia.
Qed.

Lemma parse_fmt_loop fuel base n acc : 2 <= base <= 36 -> 0 <= n < base ^ Z.of_nat fuel ->
  parse_loop base (fmt_loop fuel base n acc) 0 = parse_loop base acc n.
Proof.
  intros Hb. revert n acc. induction fuel as [|fuel IH]; intros n acc Hn.
  { simpl in *. by replace n with 0 by lia. }
  rewrite Nat2Z.inj_succ, Z.pow_succ_r in Hn by lia. simpl. case_decide as Hlt.
  - rewrite Z.mod_small by lia. simpl. by rewrite digit_val_digit by lia.
  - rewrite IH by (split; [apply Z.div_pos; lia|apply Z.div_lt_upper_bound; lia]).
    simpl. rewrite digit_val_digit by (try apply Z.mod_pos_bound; lia).
    f_equal. rewrite Z.mul_comm. symmetry. apply Z.div_mod. lia.
Qed.

Lemma parse_fixed_loop k n acc : 0 <= n < 10 ^ Z.of_nat k ->
  parse_loop 10 (fixed_loop k n acc) 0 = parse_loop 10 acc n.
Proof.
  revert n acc. induction k as [|k IH]; intros n acc Hn.
  { simpl in *. by replace n with 0 by lia. }
  rewrite Nat2Z.inj_succ, Z.pow_succ_r in Hn by lia. simpl.
  rewrite IH by (split; [apply Z.div_pos; lia|apply Z.div_lt_upper_bound; lia]).
  simpl. rewrite digit_val_digit by (try apply Z.mod_pos_bound; lia).
  f_equal. rewrite Z.mul_comm. symmetry. apply Z.div_mod. lia.
Qed.

Lemma length_fixed_loop k n acc :
  String.length (fixed_loop k n acc) = (k + String.length acc)%nat.
Proof. revert n acc. induction k; intros n acc; simpl; [done|]. rewrite IHk. simpl. lia. Qed.

Lemma compare_digit d e a b : 0 <= d < 10 -> 0 <= e < 10 ->
  String.compare (String (digit d) a) (String (digit e) b) =
  match d ?= e with Eq => String.compare a b | c => c end.
Proof.
  intros Hd He. simpl. unfold Ascii.compare, digit.
  rewrite !decide_True, !N_ascii_embedding by lia.
  assert ((Z.to_N (48 + d) ?= Z.to_N (48 + e))%N = (d ?= e)) as ->; [|by destruct (d ?= e)].
  rewrite Z2N.inj_compare by lia. apply Z.add_compare_mono_l.
Qed.

(** Zero-padded decimals compare as the numbers do. *)
Lemma compare_fixed_loop k n m a b :
  0 <= n < 10 ^ Z.of_nat k -> 0 <= m < 10 ^ Z.of_nat k ->
  String.compare (fixed_loop k n a) (fixed_loop k m b) =
  match n ?= m with Eq => String.compare a b | c => c end.
Proof.
  revert n m a b. induction k as [|k IH]; intros n m a b Hn Hm.
  { simpl in *. by replace n with 0 by lia; replace m with 0 by lia. }
  rewrite Nat2Z.inj_succ, Z.pow_succ_r in Hn, Hm by lia. simpl fixed_loop.
  rewrite IH by (split; [apply Z.div_pos; lia|apply Z.div_lt_upper_bound; lia]).
  rewrite compare_digit by (apply Z.mod_pos_bound; lia).
  destruct (Z.compare_spec (n / 10) (m / 10)), (Z.compare_spec (n mod 10) (m mod 10)),
    (Z.compare_spec n m); try done; exfalso; dlia.
Qed.

Lemma fmt_loop_not_empty fuel base n acc : fmt_loop (S fuel) base n acc <> "".
Proof.
  assert (forall f n c acc, fmt_loop f base n (String c acc) <> "") as H.
  { induction f as [|f IH]; intros; simpl; [done|]. case_decide; [done|]. apply IH. }
  simpl. case_decide; [done|]. apply H.
Qed.

(** Every digit string of a base up to 16 stays clear of [c]. *)
Fixpoint str_in (c : ascii) (s : string) : bool :=
  match s with
  | EmptyString => false
  | String a s => bool_decide (a = c) || str_in c s
  end.

Lemma str_in_app c a b : str_in c (a +:+ b) = str_in c a || str_in c b.
Proof. induction a as [|x a IH]; [done|]. rewrite str_app_cons. simpl. by rewrite IH, orb_assoc. Qed.

Definition is_hex_digit (c : ascii) : bool :=
  match digit_val 16 c with Some _ => true | None => false end.

Lemma digit_hex d : 0 <= d < 16 -> is_hex_digit (digit d) = true.
Proof. intros Hd. unfold is_hex_digit. by rewrite digit_val_digit by lia. Qed.

Lemma fmt_loop_str_in fuel base n acc c : 2 <= base <= 16 -> is_hex_digit c = false ->
  str_in c (fmt_loop fuel base n acc) = str_in c acc.
Proof.
  intros Hb Hc. revert n acc. induction fuel as [|fuel IH]; intros n acc; simpl; [done|].
  assert (bool_decide (digit (n mod base) = c) = false) as Hd.
  { apply bool_decide_eq_false_2. intros <-.
    rewrite digit_hex in Hc by (pose proof (Z.mod_pos_bound n base); lia). done. }
  destruct (decide (n < base)); [|rewrite IH]; simpl; by rewrite Hd.
Qed.

Lemma ParseUint_FormatInt n base : 2 <= base <= 36 -> is_u64 n ->
  ParseUint (FormatInt n base) base = Some n.
Proof.
  intros Hb Hn. unfold is_u64 in Hn. unfold FormatInt. rewrite decide_False by lia.
  unfold ParseUint. rewrite decide_False by apply fmt_loop_not_empty.
  rewrite parse_fmt_loop; [|lia|].
  - simpl. rewrite decide_True; [done|]. unfold MaxUint64. lia.
  - split; [lia|]. apply Z.lt_le_trans with (2 ^ Z.of_nat 64); [lia|].
    apply Z.pow_le_mono_l. lia.
Qed.

Lemma ParseInt_FormatInt n base : 2 <= base <= 16 -> 0 <= n < 2 ^ 63 ->
  ParseInt (FormatInt n base) base = Some n.
Proof.
  intros Hb Hn.
  assert (ParseUint (FormatInt n base) base = Some n) as P
    by (apply ParseUint_FormatInt; unfold is_u64; lia).
  assert (forall c, is_hex_digit c = false -> str_in c (FormatInt n base) = false) as D.
  { intros c Hc. unfold FormatInt. rewrite decide_False by lia.
    by rewrite fmt_loop_str_in. }
  unfold ParseInt. pose proof (D "-"%char eq_refl) as D1. pose proof (D "+"%char eq_refl) as D2.
  destruct (FormatInt n base) as [|c s] eqn:E; [done|].
  cbn [str_in] in D1, D2.
  assert (c <> "-"%char) by (intros ->; by rewrite bool_decide_eq_true_2 in D1).
  assert (c <> "+"%char) by (intros ->; by rewrite bool_decide_eq_true_2 in D2).
  destruct c as [[] [] [] [] [] [] [] []]; try done; rewrite P; by rewrite decide_True by lia.
Qed.

(** ** strings.Cut *)
Fixpoint Cut (s : string) (sep : ascii) : option (string * string) :=
  match s with
  | EmptyString => None
  | String a t => if decide (a = sep) then Some ("", t)
                  else match Cut t sep with
                       | Some (u, v) => Some (String a u, v)
                       | None => None
                       end
  end.

Lemma Cut_app u v sep : str_in sep u = false -> Cut (u +:+ String sep v) sep = Some (u, v).
Proof.
  induction u as [|a u IH]; [intros _; simpl; by rewrite decide_True|].
  simpl. intros [Ha Hu]%orb_false_iff. apply bool_decide_eq_false in Ha.
  rewrite decide_False by done. by rewrite IH.
Qed.

Lemma Cut_sep u v sep : str_in sep u = false ->
  Cut (u +:+ String sep "" +:+ v) sep = Some (u, v).
Proof. apply Cut_app. Qed.

(** [strings.Contains] *)
Fixpoint Contains (s p : string) : bool :=
  HasPrefix s p || match s with EmptyString => false | String _ s => Contains s p end.

(** ** path *)
Fixpoint split_on (c : ascii) (s : string) : list string :=
  match s with
  | EmptyString => [""]
  | String a s => if decide (a = c) then "" :: split_on c s
                  else match split_on c s with
                       | w :: ws => String a w :: ws
                       | [] => [String a ""]
                       end
  end.

Fixpoint join_with (sep : string) (ws : list string) : string :=
  match ws with
  | [] => ""
  | [w] => w
  | w :: ws => w +:+ sep +:+ join_with sep ws
  end.

Definition slash : ascii := "/"%char.
Definition rooted (p : string) : bool := HasPrefix p "/".

(** One path element of [path.Clean]; [out] is what is kept, last first. *)
Definition clean_step (r : bool) (out : list string) (c : string) : list string :=
  if decide (c = "" \/ c = ".") then out
  else if decide (c = "..") then
    match out with
    | top :: rest => if decide (top = "..") then ".." :: out else rest
    | [] => if r then [] else [".."]
    end
  else c :: out.

Definition path_Clean (p : string) : string :=
  if decide (p = "") then "." else
  let r := rooted p in
  let out := reverse (foldl (clean_step r) [] (split_on slash p)) in
  if r then "/" +:+ join_with "/" out
  else if decide (out = []) then "." else join_with "/" out.

Definition path_Join (elems : list string) : string :=
  let elems := filter (fun e => e <> "") elems in
  if decide (elems = []) then "" else path_Clean (join_with "/" elems).

Lemma clean_step_ne r out e : Forall (fun w => w <> "") out -> Forall (fun w => w <> "") (clean_step r out e).
Proof.
  intros Ho. unfold clean_step. case_decide as He; [done|]. case_decide.
  - destruct Ho as [|top rest Ht Hr]; [destruct r; by repeat constructor|]. case_decide; [|done]. by repeat constructor.
  - constructor; [tauto|done].
Qed.

Lemma clean_steps_ne r es out : Forall (fun w => w <> "") out -> Forall (fun w => w <> "") (foldl (clean_step r) out es).
Proof. revert out. induction es as [|e es IH]; intros out Ho; cbn; [done|]. by apply IH, clean_step_ne. Qed.

Lemma path_Clean_ne p : path_Clean p <> "".
Proof.
  unfold path_Clean. case_decide; [done|]. destruct (rooted p); [done|]. case_decide as Ho; [done|].
  assert (Forall (fun w => w <> "") (reverse (foldl (clean_step false) [] (split_on slash p)))) as Hf.
  { by apply Forall_reverse, clean_steps_ne. }
  destruct (reverse _) as [|w [|v ws]]; [done|by inversion_clear Hf|]. cbn. by destruct w.
Qed.

Lemma path_Join_ne e es : e <> "" -> path_Join (e :: es) <> "".
Proof. intros He. unfold path_Join. rewrite filter_cons_True by done. case_decide; [done|]. apply path_Clean_ne. Qed.

(** [path.Base]: the last element, trailing slashes removed. *)
Definition path_Base (p : string) : string :=
  if decide (p = "") then "." else
  default "/" (head (filter (fun e => e <> "") (reverse (split_on slash p)))).

(** Elements [path.Clean] keeps as they are. *)
Definition good_elem (e : string) : Prop :=
  e <> "" /\ e <> "." /\ e <> ".." /\ str_in slash e = false.

Lemma split_no_slash w : str_in slash w = false -> split_on slash w = [w].
Proof.
  induction w as [|a w IH]; [done|]. simpl. intros [Ha Hw]%orb_false_iff.
  apply bool_decide_eq_false in Ha. rewrite decide_False by done. by rewrite IH.
Qed.

Lemma split_app_slash w s : str_in slash w = false ->
  split_on slash (w +:+ "/" +:+ s) = w :: split_on slash s.
Proof.
  induction w as [|a w IH]; [done|]. cbn [str_in]. intros [Ha Hw]%orb_false_iff.
  apply bool_decide_eq_false in Ha. rewrite str_app_cons. cbn [split_on].
  rewrite decide_False by done. by rewrite IH.
Qed.

Lemma split_on_nonempty c s : split_on c s <> [].
Proof. destruct s; simpl; repeat case_match; done. Qed.

Lemma Contains_split s : Contains s "//" = true -> "" ∈ tail (split_on slash s).
Proof.
  induction s as [|a s IH]; [done|]. cbn [Contains]. intros [Hp|Hc]%orb_true_iff.
  - apply HasPrefix_spec in Hp as [t Ht]. rewrite Ht. cbn. left.
  - specialize (IH Hc). pose proof (split_on_nonempty slash s) as Hne. cbn [split_on].
    destruct (split_on slash s) as [|w ws]; [done|]. case_decide; [by right|done].
Qed.

Lemma split_app_last p w : str_in slash w = false ->
  split_on slash (p +:+ "/" +:+ w) = split_on slash p ++ [w].
Proof.
  intros Hw. induction p as [|a p IH].
  - change ("" :: split_on slash w = [""; w]). by rewrite split_no_slash.
  - rewrite str_app_cons. cbn [split_on]. rewrite IH. case_decide; [done|].
    pose proof (split_on_nonempty slash p). by destruct (split_on slash p).
Qed.

Lemma Base_last p w : w <> "" -> str_in slash w = false ->
  path_Base (p +:+ "/" +:+ w) = w.
Proof.
  intros Hne Hw. unfold path_Base. rewrite decide_False by (by destruct p).
  rewrite split_app_last, reverse_app by done. simpl. by rewrite filter_cons_True.
Qed.

Lemma join_with_cons sep w v ws :
  join_with sep (w :: v :: ws) = w +:+ sep +:+ join_with sep (v :: ws).
Proof. done. Qed.

Lemma split_join ws : ws <> [] -> Forall (fun w => str_in slash w = false) ws ->
  split_on slash (join_with "/" ws) = ws.
Proof.
  induction ws as [|w [|v ws] IH]; intros Hne Hf; [done|..].
  - inversion_clear Hf. by apply split_no_slash.
  - inversion_clear Hf as [|? ? Hw Hf']. rewrite join_with_cons.
    rewrite split_app_slash by done. by rewrite IH.
Qed.

Lemma join_inj ws vs : ws <> [] -> vs <> [] ->
  Forall (fun w => str_in slash w = false) ws -> Forall (fun w => str_in slash w = false) vs ->
  join_with "/" ws = join_with "/" vs -> ws = vs.
Proof.
  intros H1 H2 F1 F2 E. rewrite <-(split_join ws), <-(split_join vs) by done. by rewrite E.
Qed.

Lemma join_app ws vs : ws <> [] -> vs <> [] ->
  join_with "/" (ws ++ vs) = join_with "/" ws +:+ "/" +:+ join_with "/" vs.
Proof.
  induction ws as [|w [|u ws] IH]; intros H1 H2; [done| |].
  - simpl. by destruct vs.
  - cbn [app] in *. rewrite !join_with_cons, IH, !str_app_assoc by done. done.
Qed.

Lemma clean_good r ws out : Forall good_elem ws ->
  foldl (clean_step r) out ws = reverse ws ++ out.
Proof.
  intros Hf. revert out. induction Hf as [|w ws (H1 & H2 & H3 & _) _ IH]; intros out; [done|].
  simpl. rewrite IH, reverse_cons, <-app_assoc. f_equal. unfold clean_step.
  by rewrite !decide_False by (done || by intros [?|?]).
Qed.

Lemma good_no_slash ws : Forall good_elem ws -> Forall (fun w => str_in slash w = false) ws.
Proof. intros Hf. eapply Forall_impl; [exact Hf|]. by intros w (_ & _ & _ & ?). Qed.

Lemma join_good_ne ws : ws <> [] -> Forall good_elem ws ->
  join_with "/" ws <> "" /\ rooted (join_with "/" ws) = false.
Proof.
  destruct ws as [|w ws]; [done|]. intros _ Hf.
  inversion_clear Hf as [|? ? (H1 & _ & _ & H4) _].
  destruct w as [|c w]; [done|]. cbn [str_in] in H4.
  apply orb_false_iff in H4 as [H4 _]. apply bool_decide_eq_false in H4.
  unfold rooted. destruct ws; cbn [join_with]; rewrite ?str_app_cons; (split; [done|]); simpl; rewrite bool_decide_eq_false_2; done.
Qed.

Lemma Clean_good ws : ws <> [] -> Forall good_elem ws ->
  path_Clean (join_with "/" ws) = join_with "/" ws.
Proof.
  intros Hne Hf. destruct (join_good_ne ws Hne Hf) as [H1 H2].
  unfold path_Clean. rewrite decide_False, H2, split_join by auto using good_no_slash.
  rewrite clean_good, app_nil_r, reverse_involutive by done. by rewrite decide_False.
Qed.

(** [path.Join] of clean relative paths is the path of all their elements. *)
Lemma Join_good ws vs : ws <> [] -> vs <> [] -> Forall good_elem ws -> Forall good_elem vs ->
  path_Join [join_with "/" ws; join_with "/" vs] = join_with "/" (ws ++ vs).
Proof.
  intros H1 H2 F1 F2. destruct (join_good_ne ws H1 F1) as [N1 _], (join_good_ne vs H2 F2) as [N2 _].
  unfold path_Join. rewrite !filter_cons_True, filter_nil by done.
  rewrite decide_False, join_with_cons by done. cbn [join_with].
  rewrite <-join_app by done. apply Clean_good; [by destruct ws|]. by apply Forall_app.
Qed.

Lemma Base_good ws w : Forall good_elem (ws ++ [w]) ->
  path_Base (join_with "/" (ws ++ [w])) = w.
Proof.
  intros Hf. assert (ws ++ [w] <> []) as Hne by (by destruct ws).
  destruct (join_good_ne _ Hne Hf) as [H1 _]. unfold path_Base.
  rewrite decide_False, split_join by auto using good_no_slash.
  rewrite reverse_app. simpl. apply Forall_app in Hf as [_ Hw]. inversion_clear Hw as [|? ? (? & _) _].
  by rewrite filter_cons_True.
Qed.

(** ** encoding/hex *)
Definition hex_byte (b : byte) : string :=
  let z := byte_to_Z b in String (digit (z / 16)) (String (digit (z mod 16)) "").
Fixpoint hex_EncodeToString (bs : list byte) : string :=
  match bs with
  | [] => ""
  | b :: bs => hex_byte b +:+ hex_EncodeToString bs
  end.

Lemma hex_no_char bs c : is_hex_digit c = false -> str_in c (hex_EncodeToString bs) = false.
Proof.
  intros Hc. induction bs as [|b bs IH]; [done|]. simpl. rewrite str_in_app, IH, orb_false_r.
  pose proof (byte_to_Z_range b) as Hb. unfold hex_byte. cbn [str_in].
  rewrite !bool_decide_eq_false_2; [done|intros <-..];
    rewrite digit_hex in Hc by dlia; done.
Qed.

Lemma digit_inj d e : 0 <= d < 16 -> 0 <= e < 16 -> digit d = digit e -> d = e.
Proof.
  intros Hd He H. apply (f_equal (digit_val 16)) in H.
  rewrite !digit_val_digit in H by lia. congruence.
Qed.

Lemma hex_inj bs cs : hex_EncodeToString bs = hex_EncodeToString cs -> bs = cs.
Proof.
  revert cs. induction bs as [|b bs IH]; intros [|c cs]; try done.
  pose proof (byte_to_Z_range b). pose proof (byte_to_Z_range c).
  cbn [hex_EncodeToString]. unfold hex_byte. rewrite !str_app_cons.
  intros [= H1 H2 H3]. apply digit_inj in H1; [|dlia..]. apply digit_inj in H2; [|dlia..].
  f_equal; [|auto]. apply byte_to_Z_inj. dlia.
Qed.
