(* ===== verification/ObjectStore.v ===== *)
(** * objectstore: the store interface and the in-memory store

    [Object], [Condition] and the class [Store] are src/objectstore/
    objectstore.go; module [Mem] is mem.go.  [StoreLaws] is what the clients
    (logs, manifests, catalogs, flusher, loader) rely on; the theorems about
    them are proved from these laws and [Mem] discharges them. *)

From S2P Require Import Prelude GoStr.
From Stdlib Require Import Ascii.
Local Open Scope Z_scope.

Record Object := MkObject { Key : string; Generation : string; Size : Z }.
Record Condition := MkCondition { Absent : bool; GenerationMatch : string }.

Definition IfAbsent : Condition := MkCondition true "".
Definition IfGeneration (g : string) : Condition := MkCondition false g.
Definition Unconditional : Condition := MkCondition false "".

(** The reader of [Put] delivers [content] and then the error, if any. *)
Record reader := MkReader { content : list byte; readErr : option error }.

(** A stored object: its bytes and the generation of the write. *)
Record entry := MkEntry { data : list byte; generation : string }.

Definition object_of (k : string) (e : entry) : Object :=
  MkObject k (generation e) (Z.of_nat (length (data e))).

(** The methods of [objectstore.Store]; the first argument is [ctx.Err()] at
    the time of the call, and the reader of [Put] is what [io.ReadAll] gives. *)
Class Store (S : Type) := {
  Stat : option error -> string -> S -> res Object;
  Get : option error -> string -> S -> res (list byte * Object);
  ReadRange : option error -> string -> Z -> Z -> S -> res (list byte * Object);
  Put : option error -> string -> res (list byte) -> Condition -> S -> res string * S;
  Delete : option error -> string -> S -> res unit * S;
  Exists : option error -> string -> S -> res bool;
  ListObjects : option error -> string -> string -> Z -> S -> res (list Object);
}.

(** [sort.Strings] *)
Definition sort_Strings (l : list string) : list string := merge_sort String.le l.

(** The keys [List] reports: those with the prefix that sort after
    [startAfter], in order, at most [limit] of them when [limit > 0]. *)
Definition listed (m : gmap string entry) (prefix startAfter : string) : list string :=
  sort_Strings (filter (fun k => HasPrefix k prefix = true /\ str_lt startAfter k)
                  ((map_to_list m).*1)).
#[global] Arguments listed : simpl never.
Definition limited {A} (limit : Z) (l : list A) : list A :=
  if decide (0 < limit /\ limit < Z.of_nat (length l)) then take (Z.to_nat limit) l else l.

(** A byte string that fits a Go slice. *)
Definition slice_len (d : list byte) : Prop := Z.of_nat (length d) < 2 ^ 63.

(** What a store promises.  [view] is its contents and [issued] the
    generations handed out so far; [ok n] says that the store is well formed
    and can take [n] more writes without a counter overflowing. *)
Class StoreLaws (S : Type) `{Store S} := {
  view : S -> gmap string entry;
  issued : S -> string -> Prop;
  ok : nat -> S -> Prop;
  ok_weaken n m s : (m <= n)%nat -> ok n s -> ok m s;
  view_issued n s k e : ok n s -> view s !! k = Some e -> issued s (generation e);
  issued_valid n s g : ok n s -> issued s g -> g <> "";
  stat_ok n s k : ok n s ->
    Stat None k s = match view s !! k with
                    | Some e => Ok (object_of k e) | None => Err ErrNotFound end;
  get_ok n s k : ok n s ->
    Get None k s = match view s !! k with
                   | Some e => Ok (data e, object_of k e) | None => Err ErrNotFound end;
  exists_ok n s k : ok n s -> Exists None k s = Ok (bool_decide (is_Some (view s !! k)));
  list_ok n s prefix start limit : ok n s ->
    ListObjects None prefix start limit s =
      Ok (omap (fun k => object_of k <$> view s !! k) (limited limit (listed (view s) prefix start)));
  (* a rejected write changes nothing *)
  put_absent_exists n s k d : ok n s -> is_Some (view s !! k) ->
    Put None k (Ok d) IfAbsent s = (Err ErrPreconditionFailed, s);
  put_mismatch n s k d g : ok n s -> issued s g ->
    (forall e, view s !! k = Some e -> generation e <> g) ->
    Put None k (Ok d) (IfGeneration g) s = (Err ErrPreconditionFailed, s);
  (* an accepted one gets a generation never seen before *)
  put_accepted n s k d c : ok (Datatypes.S n) s -> k <> "" -> slice_len d ->
    (c = IfAbsent /\ view s !! k = None \/
     (exists e, view s !! k = Some e /\ c = IfGeneration (generation e)) \/
     c = Unconditional) ->
    exists g s', Put None k (Ok d) c s = (Ok g, s') /\ ok n s' /\
      view s' = <[k := MkEntry d g]> (view s) /\
      ~ issued s g /\ issued s' g /\ (forall g', issued s g' -> issued s' g');
  delete_ok n s k : ok n s -> is_Some (view s !! k) ->
    exists s', Delete None k s = (Ok tt, s') /\ ok n s' /\
      view s' = delete k (view s) /\ (forall g, issued s g -> issued s' g);
  delete_missing n s k : ok n s -> view s !! k = None ->
    Delete None k s = (Err ErrNotFound, s);
  (* a dead context stops every call before it does anything *)
  ctx_dead e k s : 
    Stat (Some e) k s = Err e /\ Get (Some e) k s = Err e /\ Exists (Some e) k s = Err e /\
    Delete (Some e) k s = (Err e, s) /\
    (forall p a l, ListObjects (Some e) p a l s = Err e) /\
    (forall d c, exists e', Put (Some e) k (Ok d) c s = (Err e', s) /\ (e' = e \/ exists what, e' = Msg what));
}.

(** Keys the stores accept. *)
Class NonEmptyKey (k : string) : Prop := key_ne : k <> "".

(** ** local.go: generations (shared with mem.go) *)
Definition localGeneration (modTime size : Z) : string :=
  FormatInt modTime 16 +:+ "-" +:+ FormatInt size 16.

Definition validLocalGeneration (g : string) : bool :=
  match Cut g "-"%char with
  | None => false
  | Some (mod_, size) =>
    match ParseInt mod_ 16 with
    | None => false
    | Some _ => match ParseInt size 16 with Some _ => true | None => false end
    end
  end.

Lemma FormatInt_no_dash n : 0 <= n -> str_in "-"%char (FormatInt n 16) = false.
Proof.
  intros Hn. unfold FormatInt. rewrite decide_False by lia. by rewrite fmt_loop_str_in.
Qed.

Lemma validLocalGeneration_ok t n : 0 <= t < 2 ^ 63 -> 0 <= n < 2 ^ 63 ->
  validLocalGeneration (localGeneration t n) = true.
Proof.
  intros Ht Hn. unfold validLocalGeneration, localGeneration.
  rewrite Cut_sep by (apply FormatInt_no_dash; lia). by rewrite !ParseInt_FormatInt by lia.
Qed.

Lemma localGeneration_inj t n t' n' : 0 <= t < 2 ^ 63 -> 0 <= t' < 2 ^ 63 ->
  localGeneration t n = localGeneration t' n' -> t = t'.
Proof.
  intros Ht Ht' H. unfold localGeneration in H. apply (f_equal (fun s => Cut s "-"%char)) in H.
  rewrite !Cut_sep in H by (apply FormatInt_no_dash; lia). injection H as H _.
  apply (f_equal (fun s => ParseInt s 16)) in H. rewrite !ParseInt_FormatInt in H by lia.
  congruence.
Qed.

Lemma localGeneration_ne t n : localGeneration t n <> "".
Proof.
  unfold localGeneration. destruct (FormatInt t 16); done.
Qed.

(** ** mem.go *)
Module Mem.

(** [memEntry] is [entry]; [mu] makes every method one atomic step. *)
Record memStore := MkMem { objects : gmap string entry; genSeq : Z }.

Definition newMemStore : memStore := MkMem ∅ 0.

Definition Stat (ctxErr : option error) (key : string) (m : memStore) : res Object :=
  match ctxErr with
  | Some e => Err e
  | None => match objects m !! key with
            | None => Err ErrNotFound
            | Some e => Ok (MkObject key (generation e) (Z.of_nat (length (data e))))
            end
  end.

Definition Get (ctxErr : option error) (key : string) (m : memStore) : res (list byte * Object) :=
  match ctxErr with
  | Some e => Err e
  | None => match objects m !! key with
            | None => Err ErrNotFound
            | Some e => Ok (data e, MkObject key (generation e) (Z.of_nat (length (data e))))
            end
  end.

(** [end := offset + length] is an int64 sum; the slice expression panics
    when it has wrapped below [offset]. *)
Definition ReadRange (ctxErr : option error) (key : string) (offset len : Z) (m : memStore)
  : res (list byte * Object) :=
  match ctxErr with
  | Some e => Err e
  | None =>
    if decide (offset < 0 \/ len < 0) then Err (Msg "objectstore: invalid range") else
    match objects m !! key with
    | None => Err ErrNotFound
    | Some e =>
      let size := Z.of_nat (length (data e)) in
      if decide (size < offset) then Err (Msg "objectstore: offset exceeds object size") else
      let end_ := i64 (offset + len) in
      let end_ := if decide (size < end_) then size else end_ in
      if decide (end_ < offset) then Err (Panic "slice bounds out of range") else
      Ok (take (Z.to_nat (end_ - offset)) (drop (Z.to_nat offset) (data e)),
          MkObject key (generation e) size)
    end
  end.

Definition Exists (ctxErr : option error) (key : string) (m : memStore) : res bool :=
  match ctxErr with
  | Some e => Err e
  | None => Ok (match objects m !! key with Some _ => true | None => false end)
  end.

Definition Delete (ctxErr : option error) (key : string) (m : memStore) : res unit * memStore :=
  match ctxErr with
  | Some e => (Err e, m)
  | None => match objects m !! key with
            | None => (Err ErrNotFound, m)
            | Some _ => (Ok tt, MkMem (delete key (objects m)) (genSeq m))
            end
  end.

Definition Put (ctxErr : option error) (key : string) (r : res (list byte)) (cond : Condition)
    (m : memStore) : res string * memStore :=
  match ctxErr with
  | Some e => (Err e, m)
  | None =>
    if decide (GenerationMatch cond <> "" /\ validLocalGeneration (GenerationMatch cond) = false)
    then (Err (Msg "objectstore: malformed generation"), m) else
    match r with
    | Err e => (Err e, m)
    | Ok d =>
      let exists_ := objects m !! key in
      let rejected :=
        if Absent cond then
          match exists_ with Some _ => true | None => false end
        else if decide (GenerationMatch cond <> "") then
          match exists_ with
          | Some e => bool_decide (generation e <> GenerationMatch cond)
          | None => true
          end
        else false in
      if (rejected : bool) then (Err ErrPreconditionFailed, m) else
      let genSeq' := i64 (genSeq m + 1) in
      let gen := localGeneration genSeq' (Z.of_nat (length d)) in
      (Ok gen, MkMem (<[key := MkEntry d gen]> (objects m)) genSeq')
    end
  end.

Definition ListObjects (ctxErr : option error) (prefix startAfter : string) (limit : Z)
    (m : memStore) : res (list Object) :=
  match ctxErr with
  | Some e => Err e
  | None =>
    let keys := sort_Strings
      (filter (fun k => HasPrefix k prefix = true /\ str_lt startAfter k)
         ((map_to_list (objects m)).*1)) in
    let keys := if decide (0 < limit /\ limit < Z.of_nat (length keys))
                then take (Z.to_nat limit) keys else keys in
    Ok (omap (fun k => (fun e => MkObject k (generation e) (Z.of_nat (length (data e))))
                         <$> objects m !! k) keys)
  end.

#[global] Instance memStore_store : Store memStore := {|
  ObjectStore.Stat := Stat; ObjectStore.Get := Get; ObjectStore.ReadRange := ReadRange;
  ObjectStore.Put := Put; ObjectStore.Delete := Delete; ObjectStore.Exists := Exists;
  ObjectStore.ListObjects := ListObjects;
|}.

(** The generations issued so far are those of the counter values up to
    [genSeq] (with some size). *)
Definition mem_issued (m : memStore) (g : string) : Prop :=
  exists t n, 0 < t <= genSeq m /\ 0 <= n < 2 ^ 63 /\ g = localGeneration t n.

(** Well-formedness with room for [n] more writes; object sizes are Go slice
    lengths. *)
Definition mem_ok (n : nat) (m : memStore) : Prop :=
  0 <= genSeq m /\ genSeq m + Z.of_nat n < 2 ^ 63 /\
  forall k e, objects m !! k = Some e -> mem_issued m (generation e).

Lemma newMemStore_ok n : Z.of_nat n < 2 ^ 63 -> mem_ok n newMemStore.
Proof. intros Hn. split_and!; simpl; [lia|lia|]. intros k e. by rewrite lookup_empty. Qed.

Lemma mem_issued_fresh m d n : mem_ok (S n) m -> 
  ~ mem_issued m (localGeneration (i64 (genSeq m + 1)) d).
Proof.
  intros (H0 & H1 & _) (t & n' & Ht & Hn' & E). rewrite i64_small in E by lia.
  apply localGeneration_inj in E; lia.
Qed.

Lemma mem_put_accepted n m k d c : mem_ok (S n) m -> slice_len d ->
  (c = IfAbsent /\ objects m !! k = None \/
   (exists e, objects m !! k = Some e /\ c = IfGeneration (generation e)) \/
   c = Unconditional) ->
  let g := localGeneration (genSeq m + 1) (Z.of_nat (length d)) in
  Put None k (Ok d) c m = (Ok g, MkMem (<[k := MkEntry d g]> (objects m)) (genSeq m + 1)).
Proof.
  intros (H0 & H1 & Hv) Hd Hc g. unfold Put. rewrite i64_small by lia.
  destruct Hc as [[-> Hk]|[(e & Hk & ->)| ->]]; cbn [Absent GenerationMatch IfAbsent IfGeneration Unconditional].
  - rewrite decide_False by (intros [[] _]; done). by rewrite Hk.
  - destruct (Hv k e Hk) as (t & n' & Ht & Hn' & Hg).
    rewrite decide_False by (intros [_ H]; rewrite Hg, validLocalGeneration_ok in H; lia || done).
    rewrite decide_True by (rewrite Hg; apply localGeneration_ne).
    rewrite Hk, bool_decide_eq_false_2; [done|]. intros []; done.
  - rewrite decide_False by (intros [[] _]; done).
    by rewrite decide_False by (intros []; done).
Qed.

Lemma mem_issued_mono (m m' : memStore) g :
  genSeq m <= genSeq m' -> mem_issued m g -> mem_issued m' g.
Proof. intros Hle (t & n & Ht & Hn & ->). exists t, n. split; [lia|done]. Qed.

#[global] Program Instance memStore_laws : StoreLaws memStore := {|
  view := objects; issued := mem_issued; ok := mem_ok;
|}.
Next Obligation. intros n k s Hle (H0 & H1 & H2). split_and!; [done|lia|done]. Qed.
Next Obligation. intros n s k e (_ & _ & H) Hk. by eapply H. Qed.
Next Obligation. intros n s g _ (t & k & _ & _ & ->). apply localGeneration_ne. Qed.
Next Obligation. done. Qed.
Next Obligation. done. Qed.
Next Obligation.
  intros n s k _. simpl. f_equal. destruct (objects s !! k); [|done].
  by rewrite bool_decide_eq_true_2.
Qed.
Next Obligation. done. Qed.
Next Obligation.
  intros n s k d Hok [e Hk]. unfold ObjectStore.Put, memStore_store, Put. cbn [Absent GenerationMatch IfAbsent].
  rewrite decide_False by (intros [[] _]; done). by rewrite Hk.
Qed.
Next Obligation.
  intros n s k d g Hok (t & len & Ht & Hl & ->) Hne. unfold ObjectStore.Put, memStore_store, Put. cbn [Absent GenerationMatch IfGeneration].
  destruct Hok as (? & ? & _).
  rewrite decide_False by (intros [_ H']; rewrite validLocalGeneration_ok in H'; lia || done).
  rewrite decide_True by apply localGeneration_ne.
  destruct (objects s !! k) as [e|] eqn:Hk; [|done].
  by rewrite bool_decide_eq_true_2 by (by apply Hne).
Qed.
Next Obligation.
  intros n s k d c Hok _ Hd Hc. eexists _, _. split; [by apply (mem_put_accepted n)|].
  pose proof Hok as (H0 & H1 & Hv).
  assert (mem_issued (MkMem (<[k:=MkEntry d (localGeneration (genSeq s + 1) (Z.of_nat (length d)))]>
    (objects s)) (genSeq s + 1)) (localGeneration (genSeq s + 1) (Z.of_nat (length d)))) as Hi.
  { exists (genSeq s + 1), (Z.of_nat (length d)). simpl. unfold slice_len in Hd. split_and!; lia || done. }
  split_and!; try done.
  - split_and!; simpl; [lia|lia|]. intros k' e.
    destruct (decide (k' = k)) as [->|Hne]; [rewrite lookup_insert_eq|rewrite lookup_insert_ne by done].
    + by intros [= <-].
    + intros Hk'. eapply mem_issued_mono; [|by eapply Hv]. simpl. lia.
  - rewrite <-(i64_small (genSeq s + 1)) by lia. by eapply mem_issued_fresh.
  - intros g'. apply mem_issued_mono. simpl. lia.
Qed.
Next Obligation.
  intros n s k (H0 & H1 & Hv) [e Hk]. simpl. unfold Delete. rewrite Hk.
  eexists. split; [done|]. split; [|done]. split; [done|]. split; [done|]. intros k' e'. simpl.
  intros [_ Hk']%lookup_delete_Some. by eapply Hv.
Qed.
Next Obligation. intros n s k _ Hk. simpl. unfold Delete. by rewrite Hk. Qed.
Next Obligation. intros e k s. repeat split. intros d c. exists e. by split; [|left]. Qed.
End Mem.

(** ** Listing *)
Lemma str_le_lt a b : String.le a b <-> str_lt a b \/ a = b.
Proof.
  unfold String.le, String.leb, str_lt.
  destruct (String.compare a b) eqn:E.
  - apply String.compare_eq_iff in E. subst. naive_solver.
  - naive_solver.
  - split; [done|]. intros [?| ->]; [done|]. by rewrite compare_refl in E.
Qed.

Lemma sort_Strings_perm l : sort_Strings l ≡ₚ l.
Proof. apply merge_sort_Permutation. Qed.

Lemma NoDup_le_sorted l : NoDup l -> StronglySorted String.le l -> StronglySorted str_lt l.
Proof.
  induction l as [|a l IH]; intros Hn Hs; [constructor|].
  apply NoDup_cons in Hn as [Ha Hn]. apply StronglySorted_inv in Hs as [Hs Hf].
  constructor; [by apply IH|]. rewrite Forall_forall in Hf |- *. intros b Hb.
  by destruct (proj1 (str_le_lt a b) (Hf b Hb)) as [| ->].
Qed.

Lemma NoDup_keys (m : gmap string entry) : NoDup (map_to_list m).*1.
Proof. apply NoDup_fst_map_to_list. Qed.

Lemma listed_sorted m prefix start : StronglySorted str_lt (listed m prefix start).
Proof.
  apply NoDup_le_sorted.
  - unfold listed. rewrite sort_Strings_perm. apply NoDup_filter, NoDup_keys.
  - apply (StronglySorted_merge_sort String.le).
Qed.

Lemma elem_of_listed m prefix start k :
  k ∈ listed m prefix start <->
  is_Some (m !! k) /\ HasPrefix k prefix = true /\ str_lt start k.
Proof.
  unfold listed. rewrite sort_Strings_perm, list_elem_of_filter, list_elem_of_fmap.
  split.
  - intros [[H1 H2] ([k' e] & -> & Hk)]. apply elem_of_map_to_list in Hk. simpl in *. eauto.
  - intros ([e Hk] & H1 & H2). split; [done|]. exists (k, e).
    by rewrite elem_of_map_to_list.
Qed.

(** Every listed key has an object to report. *)
Lemma listed_objects m prefix start limit :
  let keys := limited limit (listed m prefix start) in
  Key <$> omap (fun k => object_of k <$> m !! k) keys = keys /\
  (forall o, o ∈ omap (fun k => object_of k <$> m !! k) keys ->
     Key o ∈ keys /\ exists e, m !! Key o = Some e /\ o = object_of (Key o) e).
Proof.
  intros keys. assert (forall k, k ∈ keys -> is_Some (m !! k)) as Hk.
  { intros k Hk. apply (elem_of_listed m prefix start). subst keys. unfold limited in Hk.
    case_decide; [|done]. by eapply subseteq_take. }
  split.
  - clearbody keys. induction keys as [|k keys IH]; [done|]. simpl.
    destruct (Hk k) as [e He]; [by left|]. rewrite He. simpl. f_equal.
    apply IH. intros k' ?. apply Hk. by right.
  - intros o. rewrite list_elem_of_omap. intros (k & Hin & Ho).
    destruct (m !! k) as [e|] eqn:E; simpl in Ho; [|done]. injection Ho as <-. simpl. eauto.
Qed.

#[export] Instance str_lt_antisymm : AntiSymm (=) str_lt.
Proof. intros a b H1 H2. destruct (irreflexivity str_lt a). by transitivity b. Qed.

Lemma limited_fmap {A B} (f : A -> B) limit (l : list A) : limited limit (f <$> l) = f <$> limited limit l.
Proof. unfold limited. rewrite length_fmap. case_decide; [by rewrite fmap_take|done]. Qed.

Lemma sorted_NoDup l : StronglySorted str_lt l -> NoDup l.
Proof.
  induction 1 as [|k l _ IH Hf]; constructor; [|done]. intros Hk. rewrite Forall_forall in Hf.
  by apply (irreflexivity str_lt k), Hf.
Qed.

Lemma sorted_ext l1 l2 : StronglySorted str_lt l1 -> StronglySorted str_lt l2 ->
  (forall k, k ∈ l1 <-> k ∈ l2) -> l1 = l2.
Proof.
  intros H1 H2 H. apply (StronglySorted_unique str_lt); [done..|].
  apply NoDup_Permutation; by try apply sorted_NoDup.
Qed.

(** The objects of [ob] that are asked for, in the order of their keys, cut
    at the limit. *)
Lemma listed_unique ob prefix start limit l : StronglySorted str_lt (Key <$> l) ->
  (forall o, o ∈ l <-> HasPrefix (Key o) prefix = true /\ str_lt start (Key o) /\
     exists e, ob !! Key o = Some e /\ o = object_of (Key o) e) ->
  limited limit l = omap (fun k => object_of k <$> ob !! k) (limited limit (listed ob prefix start)).
Proof.
  intros Hs Hl. assert (Key <$> l = listed ob prefix start) as <-.
  { apply sorted_ext; [done|apply listed_sorted|]. intros k. rewrite elem_of_listed, list_elem_of_fmap. split.
    - intros (o & -> & (? & ? & e & He & _)%Hl). by rewrite He.
    - intros ([e He] & ? & ?). exists (object_of k e). split; [done|]. apply Hl. eauto. }
  rewrite limited_fmap.
  assert (forall o, o ∈ limited limit l -> object_of (Key o) <$> ob !! Key o = Some o) as Hval.
  { intros o Ho. assert (o ∈ l) as (_ & _ & e & He & Hoe)%Hl.
    { unfold limited in Ho. case_decide; [by eapply subseteq_take|done]. }
    rewrite He. cbn. by rewrite <-Hoe. }
  induction (limited limit l) as [|o os IH]; [done|]. cbn. rewrite Hval by left. f_equal.
  apply IH. intros o' Ho'. apply Hval. by right.
Qed.

Lemma sorted_lt_NoDup l : StronglySorted str_lt l -> NoDup l.
Proof.
  induction 1 as [|a l _ IH Hf]; constructor; [|done].
  intros Ha. rewrite Forall_forall in Hf. destruct (irreflexivity str_lt a). by apply Hf.
Qed.

Lemma StronglySorted_take {A} (R : relation A) n l : StronglySorted R l ->
  StronglySorted R (take n l) /\
  forall x y, x ∈ take n l -> y ∈ drop n l -> R x y.
Proof.
  rewrite <-(take_drop n l) at 1. intros H. split.
  - by apply StronglySorted_app_1_l in H.
  - intros x y Hx Hy. by eapply StronglySorted_app_1_elem_of.
Qed.

(** [List] is ordered and complete: its keys come in strictly increasing
    order, each carries the prefix, sorts after [startAfter] and is in the
    store with the size and generation reported; and every such key of the
    store is reported unless [limit] objects were returned, in which case it
    sorts after all of them. *)
Theorem mem_list_spec m prefix start limit :
  exists objs, Mem.ListObjects None prefix start limit m = Ok objs /\
    StronglySorted str_lt (Key <$> objs) /\
    (forall o, o ∈ objs -> HasPrefix (Key o) prefix = true /\ str_lt start (Key o) /\
       exists e, Mem.objects m !! Key o = Some e /\ o = object_of (Key o) e) /\
    (forall k, is_Some (Mem.objects m !! k) -> HasPrefix k prefix = true -> str_lt start k ->
       k ∈ Key <$> objs \/
       0 < limit /\ Z.of_nat (length objs) = limit /\ forall o, o ∈ objs -> str_lt (Key o) k).
Proof.
  set (keys := limited limit (listed (Mem.objects m) prefix start)).
  destruct (listed_objects (Mem.objects m) prefix start limit) as [Hkeys Hobj].
  fold keys in Hkeys, Hobj. eexists. split; [reflexivity|].
  change (omap _ _) with (omap (fun k => object_of k <$> Mem.objects m !! k) keys).
  pose proof (listed_sorted (Mem.objects m) prefix start) as Hsorted.
  assert (StronglySorted str_lt keys /\
    (forall k, k ∈ listed (Mem.objects m) prefix start -> k ∈ keys \/
      0 < limit /\ Z.of_nat (length keys) = limit /\ forall k', k' ∈ keys -> str_lt k' k)) as [Hs Hc].
  { subst keys. unfold limited. case_decide as Hl; [|by auto].
    destruct (StronglySorted_take str_lt (Z.to_nat limit) _ Hsorted) as [Hs Hd].
    split; [done|]. intros k Hk.
    rewrite <-(take_drop (Z.to_nat limit) (listed _ _ _)), elem_of_app in Hk.
    destruct Hk as [Hk|Hk]; [by left|right]. rewrite length_take. split_and!; [lia..|].
    intros k' Hk'. by apply Hd. }
  split; [by rewrite Hkeys|]. split.
  - intros o Ho. destruct (Hobj o Ho) as (Hin & e & He & Heq).
    assert (Key o ∈ listed (Mem.objects m) prefix start) as Hli.
    { subst keys. unfold limited in Hin. case_decide; [|done]. by eapply subseteq_take. }
    apply elem_of_listed in Hli as (_ & ? & ?). eauto.
  - intros k H1 H2 H3. rewrite Hkeys.
    destruct (Hc k) as [?|(? & Hl & Hlt)]; [by apply elem_of_listed|by left|right].
    split_and!; [done| |].
    + rewrite <-Hl, <-(length_fmap Key). by rewrite Hkeys.
    + intros o Ho. apply Hlt. by destruct (Hobj o Ho).
Qed.

(** ** Generations: no ABA *)

(** The calls other clients make between two of ours. *)
Inductive mem_call :=
  | CPut (key : string) (d : list byte) (c : Condition)
  | CDelete (key : string).

Definition mem_exec (m : Mem.memStore) (c : mem_call) : Mem.memStore :=
  match c with
  | CPut key d c => (Mem.Put None key (Ok d) c m).2
  | CDelete key => (Mem.Delete None key m).2
  end.

Lemma mem_exec_step n m c : Mem.mem_ok (S n) m ->
  (forall key d cond, c = CPut key d cond -> slice_len d) ->
  Mem.mem_ok n (mem_exec m c) /\ Mem.genSeq m <= Mem.genSeq (mem_exec m c) /\
  forall k e, Mem.objects (mem_exec m c) !! k = Some e ->
    Mem.objects m !! k = Some e \/ ~ Mem.mem_issued m (generation e).
Proof.
  intros Hok Hd. pose proof Hok as (H0 & H1 & Hv). destruct c as [key d cond|key]; simpl.
  - unfold Mem.Put. rewrite i64_small by lia.
    assert (forall m' : Mem.memStore, m' = m -> Mem.mem_ok n m' /\ Mem.genSeq m <= Mem.genSeq m' /\
      forall k e, Mem.objects m' !! k = Some e ->
        Mem.objects m !! k = Some e \/ ~ Mem.mem_issued m (generation e)) as Hsame.
    { intros m' ->. split_and!; [by split_and!; lia || eauto|lia|auto]. }
    case_decide; [by apply Hsame|]. case_match; [by apply Hsame|]. simpl.
    specialize (Hd _ _ _ eq_refl). unfold slice_len in Hd.
    assert (forall t, t = Mem.genSeq m + 1 -> Mem.mem_issued
      (Mem.MkMem (<[key:=MkEntry d (localGeneration t (Z.of_nat (length d)))]> (Mem.objects m)) t)
      (localGeneration t (Z.of_nat (length d)))) as Hi.
    { intros t ->. exists (Mem.genSeq m + 1), (Z.of_nat (length d)). simpl. split_and!; lia || done. }
    split; [split; simpl; [lia|split; [lia|]]|split; [lia|]]; intros k e;
      (destruct (decide (k = key)) as [->|Hne];
         [rewrite lookup_insert_eq; intros [= <-]|rewrite lookup_insert_ne by done; intros Hk]).
    + by apply Hi.
    + eapply Mem.mem_issued_mono; [|by eapply Hv]. simpl. lia.
    + right. simpl. rewrite <-(i64_small (Mem.genSeq m + 1)) by lia.
      by eapply Mem.mem_issued_fresh.
    + by left.
  - unfold Mem.Delete. case_match; simpl.
    + split; [split; simpl; [lia|split; [lia|]]|split; [lia|]];
        intros k e' [_ ?]%lookup_delete_Some; eauto.
    + split; [split; [lia|split; [lia|done]]|split; [lia|auto]].
Qed.

Lemma mem_put_ok n m key d c : Mem.mem_ok (S n) m -> slice_len d ->
  Mem.mem_ok n (Mem.Put None key (Ok d) c m).2.
Proof. intros Hm Hd. apply (mem_exec_step n m (CPut key d c) Hm). by intros ? ? ? [= _ <- _]. Qed.

(** What was there at the end under an old generation was there all along. *)
Lemma mem_back calls m k e : Mem.mem_ok (length calls) m ->
  Forall (fun c => forall key d cond, c = CPut key d cond -> slice_len d) calls ->
  Mem.objects (foldl mem_exec m calls) !! k = Some e -> Mem.mem_issued m (generation e) ->
  Mem.objects m !! k = Some e.
Proof.
  revert m. induction calls as [|c calls IH]; intros m Hok Hc He Hi; [done|].
  inversion_clear Hc as [|? ? Hc1 Hc2]. simpl in *.
  destruct (mem_exec_step _ m c Hok Hc1) as (Hok' & Hle & Hcase).
  destruct (Hcase k e) as [?|Hn]; [|done|by destruct Hn].
  eapply IH; eauto. by eapply Mem.mem_issued_mono.
Qed.

Lemma mem_execs calls n m : Mem.mem_ok (length calls + n) m ->
  Forall (fun c => forall key d cond, c = CPut key d cond -> slice_len d) calls ->
  Mem.mem_ok n (foldl mem_exec m calls) /\ Mem.genSeq m <= Mem.genSeq (foldl mem_exec m calls).
Proof.
  revert m. induction calls as [|c calls IH]; intros m Hok Hc; [done|].
  inversion_clear Hc as [|? ? Hc1 Hc2]. simpl in *. destruct (mem_exec_step _ m c Hok Hc1) as (Hok' & Hle & _).
  destruct (IH _ Hok' Hc2). split; [done|lia].
Qed.

(** The call writes or deletes the object of key [k]. *)
Definition touches (k : string) (c : mem_call) (m : Mem.memStore) : Prop :=
  match c with
  | CPut key d cond => key = k /\ exists g, (Mem.Put None key (Ok d) cond m).1 = Ok g
  | CDelete key => key = k /\ (Mem.Delete None key m).1 = Ok tt
  end.

(** After it the object is gone or has a generation never seen before. *)
Lemma touches_fresh n k c m e : Mem.mem_ok (S n) m -> touches k c m -> Mem.mem_issued m (generation e) -> Mem.objects (mem_exec m c) !! k <> Some e.
Proof.
  intros Hok Ht Hi He. destruct c as [key d cond|key]; cbn in *; destruct Ht as [-> Ht].
  - destruct Ht as [g Ht]. revert Ht He. unfold Mem.Put. case_decide; [done|]. case_match; [done|]. simpl.
    intros _. rewrite lookup_insert_eq. intros [= <-]. revert Hi. simpl. by eapply Mem.mem_issued_fresh.
  - revert Ht He. unfold Mem.Delete. case_match; [|done]. simpl. intros _. by rewrite lookup_delete_eq.
Qed.

(** C29. Compare-and-swap is sound: if a write conditional on the generation
    read with an object succeeds after any number of other writes and
    deletes, the object read is still there, bytes and generation unchanged,
    and none of the calls in between wrote or deleted it, not even to put the
    same bytes back. *)
Theorem mem_cas_no_aba m k e calls d g m'' :
  Mem.mem_ok (length calls) m -> Mem.objects m !! k = Some e ->
  Forall (fun c => forall key d cond, c = CPut key d cond -> slice_len d) calls ->
  Mem.Put None k (Ok d) (IfGeneration (generation e)) (foldl mem_exec m calls) = (Ok g, m'') ->
  Mem.objects (foldl mem_exec m calls) !! k = Some e /\
  forall before c after, calls = before ++ c :: after -> ~ touches k c (foldl mem_exec m before).
Proof.
  intros Hok Hk Hc HP.
  assert (Mem.mem_issued m (generation e)) as Hi by (destruct Hok as (_ & _ & Hv); by eapply Hv).
  assert (exists e', Mem.objects (foldl mem_exec m calls) !! k = Some e' /\
    generation e' = generation e) as (e' & He' & Hg).
  { revert HP. unfold Mem.Put. cbn [Absent GenerationMatch IfGeneration].
    destruct Hi as (t & n & _ & _ & Hi).
    case_decide; [done|]. rewrite decide_True by (rewrite Hi; apply localGeneration_ne).
    destruct (Mem.objects (foldl _ _ _) !! k) as [e'|]; [|done]. intros HP. exists e'. split; [done|].
    destruct (decide (generation e' = generation e)) as [|Hne]; [done|].
    by rewrite bool_decide_eq_true_2 in HP. }
  assert (e' = e) as ->.
  { rewrite <-Hg in Hi. pose proof (mem_back _ _ _ _ Hok Hc He' Hi). congruence. }
  split; [done|]. intros before c after -> Ht. rewrite length_app, Nat.add_comm in Hok. cbn [length] in Hok.
  apply Forall_app in Hc as [Hb Ha]. inversion_clear Ha as [|? ? Hc1 Hc2].
  destruct (mem_execs before (S (length after)) m) as [Hok1 Hle]; [|done|]; [by rewrite Nat.add_comm|].
  assert (Mem.mem_issued (foldl mem_exec m before) (generation e)) as Hi1 by (by eapply Mem.mem_issued_mono).
  destruct (mem_exec_step _ _ c Hok1 Hc1) as (Hok2 & Hle2 & _).
  eapply (touches_fresh _ k c); [exact Hok1|exact Ht|exact Hi1|]. rewrite foldl_app in He'. simpl in He'.
  eapply mem_back; [exact Hok2|exact Hc2|exact He'|]. by eapply Mem.mem_issued_mono.
Qed.

(** [ReadRange] returns the bytes asked for: within the int64 range, the
    bytes [offset, offset+length) of the object, cut at its end, with its
    full size; an offset past the end or a negative argument is an error. *)
Theorem mem_read_range m k e off len :
  Mem.objects m !! k = Some e -> off + len < 2 ^ 63 ->
  Mem.ReadRange None k off len m =
    if decide (off < 0 \/ len < 0) then Err (Msg "objectstore: invalid range")
    else if decide (Z.of_nat (length (data e)) < off)
    then Err (Msg "objectstore: offset exceeds object size")
    else Ok (take (Z.to_nat len) (drop (Z.to_nat off) (data e)), object_of k e).
Proof.
  intros Hk Hsum. unfold Mem.ReadRange. case_decide as Hneg; [done|]. rewrite Hk.
  case_decide as Hoff; [done|]. rewrite i64_small by lia.
  destruct (decide (Z.of_nat (length (data e)) < off + len)) as [Hend|Hend];
    rewrite decide_False by lia; do 2 f_equal.
  - rewrite !take_ge by (rewrite length_drop; lia). done.
  - f_equal. lia.
Qed.

(** A range whose end overflows int64 is a run-time panic: reading "to
    the end" of a non-empty object as [ReadRange(key, 1, math.MaxInt64)]
    slices with a negative bound instead of being cut at the object's end. *)
Theorem mem_read_range_overflow m k e :
  Mem.objects m !! k = Some e -> data e <> [] ->
  Mem.ReadRange None k 1 MaxInt64 m = Err (Panic "slice bounds out of range").
Proof.
  intros Hk Hne. unfold Mem.ReadRange. rewrite decide_False by (unfold MaxInt64; lia).
  rewrite Hk. assert (0 < length (data e))%nat by (destruct (data e); [done|simpl; lia]).
  rewrite decide_False by lia. change (i64 (1 + MaxInt64)) with (- 2 ^ 63).
  destruct (decide (Z.of_nat (length (data e)) < - 2 ^ 63)); [lia|].
  by rewrite decide_True by lia.
Qed.

(** ** Witnesses *)
Definition ex_mem : Mem.memStore :=
  (Mem.Put None "a/2" (Ok [x01; x02; x03]) IfAbsent
    (Mem.Put None "a/1" (Ok [x00]) IfAbsent Mem.newMemStore).2).2.

Lemma ex_mem_ok n : Z.of_nat n < 1000 -> Mem.mem_ok n ex_mem.
Proof.
  intros Hn. apply (mem_exec_step n _ (CPut "a/2" [x01; x02; x03] IfAbsent)).
  - apply (mem_exec_step (S n) _ (CPut "a/1" [x00] IfAbsent)).
    + apply Mem.newMemStore_ok. lia.
    + intros ? ? ? [= _ <- _]. reflexivity.
  - intros ? ? ? [= _ <- _]. reflexivity.
Qed.

Lemma mem_cas_no_aba_witness :
  let e := MkEntry [x00] "1-1" in
  let calls := [CPut "a/2" [x09] Unconditional; CDelete "a/2"] in
  Mem.objects (foldl mem_exec ex_mem calls) !! "a/1" = Some e /\
  ~ touches "a/1" (CDelete "a/2") (foldl mem_exec ex_mem [CPut "a/2" [x09] Unconditional]).
Proof.
  cut (Mem.objects (foldl mem_exec ex_mem [CPut "a/2" [x09] Unconditional; CDelete "a/2"]) !! "a/1" =
         Some (MkEntry [x00] "1-1") /\
       forall before c after, [CPut "a/2" [x09] Unconditional; CDelete "a/2"] = before ++ c :: after ->
         ~ touches "a/1" c (foldl mem_exec ex_mem before)).
  { intros [H1 H2]. split; [exact H1|]. exact (H2 [CPut "a/2" [x09] Unconditional] (CDelete "a/2") [] eq_refl). }
  apply (mem_cas_no_aba ex_mem "a/1" (MkEntry [x00] "1-1")
           [CPut "a/2" [x09] Unconditional; CDelete "a/2"] [x05] "4-1"
           (Mem.Put None "a/1" (Ok [x05]) (IfGeneration "1-1")
              (foldl mem_exec ex_mem [CPut "a/2" [x09] Unconditional; CDelete "a/2"])).2).
  - apply ex_mem_ok. reflexivity.
  - vm_compute. reflexivity.
  - repeat constructor; intros ? ? ?; [intros [= _ <- _]; reflexivity|discriminate].
  - vm_compute. reflexivity.
Defined.

Lemma mem_read_range_witness :
  Mem.ReadRange None "a/2" 1 10 ex_mem = Ok ([x02; x03], MkObject "a/2" "2-3" 3).
Proof.
  apply (mem_read_range ex_mem "a/2" (MkEntry [x01; x02; x03] "2-3") 1 10);
    [vm_compute; reflexivity|lia].
Defined.

Lemma mem_read_range_overflow_witness :
  Mem.ReadRange None "a/2" 1 MaxInt64 ex_mem = Err (Panic "slice bounds out of range").
Proof.
  apply (mem_read_range_overflow ex_mem "a/2" (MkEntry [x01; x02; x03] "2-3"));
    [vm_compute; reflexivity|discriminate].
Defined.
