(* ===== verification/Prog.v ===== *)
(** * Programs over the object store

    The code above the store (logs, manifests, catalogs, flusher, loader) is
    a sequence of calls of [objectstore.Store] and of loads and
    compare-and-swaps of atomic counters, with pure computation in between.
    [prog] is that sequence as data, so that one definition of each Go
    function is both run to its end on a store ([run]) and interleaved, call
    by call, with the other clients of the store and with the failures of a
    remote store ([fstep], [pstep]).  The section [RelyGuarantee] has the
    invariant proof principle for the interleavings. *)

From S2P Require Import Prelude ObjectStore.
Local Open Scope Z_scope.

(** One call.  [OLoad]/[OCas] are [Load] and [CompareAndSwap] of the
    [atomic.Uint64] number [c]. *)
Inductive op : Type -> Type :=
  | OStat (key : string) : op (res Object)
  | OGet (key : string) : op (res (list byte * Object))
  | OPut (key : string) (d : list byte) (cond : Condition) : op (res string)
  | ODelete (key : string) : op (res unit)
  | OExists (key : string) : op (res bool)
  | OList (prefix startAfter : string) (limit : Z) : op (res (list Object))
  | OLoad (c : nat) : op Z
  | OCas (c : nat) (old new : Z) : op bool.

Inductive prog (A : Type) : Type :=
  | Ret (a : A)
  | Vis {X : Type} (o : op X) (k : X -> prog A).
Arguments Ret {A} a.
Arguments Vis {A X} o k.

Definition call {X} (o : op X) : prog X := Vis o Ret.

Fixpoint prog_bind {A B} (p : prog A) (f : A -> prog B) : prog B :=
  match p with
  | Ret a => f a
  | Vis o k => Vis o (fun x => prog_bind (k x) f)
  end.

#[export] Instance prog_mret : MRet prog := @Ret.
#[export] Instance prog_mbind : MBind prog := fun A B f p => prog_bind p f.

(** [v, err := p; if err != nil { return err }] *)
Definition try_bind {A B} (p : prog (res A)) (f : A -> prog (res B)) : prog (res B) :=
  prog_bind p (fun r => match r with Ok a => f a | Err e => Ret (Err e) end).
Notation "x <~ p ; q" := (try_bind p (fun x => q))
  (at level 20, p at level 100, q at level 200, only parsing) : stdpp_scope.
Notation "' x <~ p ; q" := (try_bind p (fun x => q))
  (at level 20, x pattern, p at level 100, q at level 200, only parsing) : stdpp_scope.

(** The error of a computation that does no call. *)
Definition lift {A} (r : res A) : prog (res A) := Ret r.

Lemma try_lift {A B} (r : res A) (f : A -> prog (res B)) :
  try_bind (lift r) f = match r with Ok a => f a | Err e => Ret (Err e) end.
Proof. done. Qed.

(** ** Worlds *)
Record world (S : Type) := MkWorld { store : S; cells : gmap nat Z }.
Arguments MkWorld {S} store cells.
Arguments store {S} w.
Arguments cells {S} w.

Section Run.
Context {S : Type} `{Store S}.

Definition cell (w : world S) (c : nat) : Z := default 0 (cells w !! c).

(** The effect of one call that is not disturbed. *)
Definition exec {X} (o : op X) (w : world S) : X * world S :=
  match o in op X return X * world S with
  | OStat key => (Stat None key (store w), w)
  | OGet key => (Get None key (store w), w)
  | OPut key d cond =>
    let '(r, s) := Put None key (Ok d) cond (store w) in (r, MkWorld s (cells w))
  | ODelete key => let '(r, s) := Delete None key (store w) in (r, MkWorld s (cells w))
  | OExists key => (Exists None key (store w), w)
  | OList p a l => (ListObjects None p a l (store w), w)
  | OLoad c => (cell w c, w)
  | OCas c old new =>
    if decide (cell w c = old) then (true, MkWorld (store w) (<[c := new]> (cells w)))
    else (false, w)
  end.

(** Undisturbed runs. *)
Fixpoint run {A} (p : prog A) (w : world S) : A * world S :=
  match p with
  | Ret a => (a, w)
  | Vis o k => let '(x, w') := exec o w in run (k x) w'
  end.

Lemma run_bind {A B} (p : prog A) (f : A -> prog B) w :
  run (prog_bind p f) w = let '(a, w') := run p w in run (f a) w'.
Proof.
  revert w. induction p as [a|X o k IH]; intros w; [done|]. simpl.
  destruct (exec o w) as [x w']. apply IH.
Qed.

Lemma run_try {A B} (p : prog (res A)) (f : A -> prog (res B)) w :
  run (try_bind p f) w =
    match run p w with (Ok a, w') => run (f a) w' | (Err e, w') => (Err e, w') end.
Proof.
  unfold try_bind. rewrite run_bind. by destruct (run p w) as [[a|e] w'].
Qed.

(** ** Failures

    A call can fail without having taken effect (a network error, a
    cancelled context); a write can take effect and its acknowledgement be
    lost; a client library that then repeats a conditional write by itself
    sees its own first attempt and reports a failed precondition; and a
    store that looks the generation of a new object up after having created
    it (local.go does) can report the generation of a later write. *)
Definition transient (e : error) : Prop :=
  match e with
  | Canceled | DeadlineExceeded | ErrUnexpectedEOF | ErrClosed | Msg _ => True
  | _ => False
  end.

Definition fault {X} (o : op X) : world S -> X -> world S -> Prop :=
  match o in op X return world S -> X -> world S -> Prop with
  | OStat _ => fun w x w' => (exists e, transient e /\ x = Err e) /\ w' = w
  | OGet _ => fun w x w' => (exists e, transient e /\ x = Err e) /\ w' = w
  | OExists _ => fun w x w' => (exists e, transient e /\ x = Err e) /\ w' = w
  | OList _ _ _ => fun w x w' => (exists e, transient e /\ x = Err e) /\ w' = w
  | ODelete k => fun w x w' => exists e, transient e /\ x = Err e /\
      (w' = w \/ w' = (exec (ODelete k) w).2)
  | OPut k d c => fun w x w' =>
      (exists e, transient e /\ x = Err e /\ w' = w) \/
      (exists g, exec (OPut k d c) w = (Ok g, w')) /\
      match x with
      | Err e => transient e \/ e = ErrPreconditionFailed /\ c <> Unconditional
      | Ok _ => Absent c = true
      end
  | OLoad _ | OCas _ _ _ => fun _ _ _ => False
  end.

(** A call of a client; [faulty] says whether failures happen. *)
Definition fstep (faulty : bool) {X} (o : op X) (w : world S) (x : X) (w' : world S) : Prop :=
  exec o w = (x, w') \/ faulty = true /\ fault o w x w'.

(** ** Interleavings

    The clients run concurrently: each step is one call of one of them.  The
    number is the budget of writes left, which bounds the run. *)
Definition cost {X} (o : op X) : nat := match o with OPut _ _ _ => 1 | _ => 0 end.

Inductive pstep (faulty : bool) {A} : list (prog A) * (nat * world S) -> list (prog A) * (nat * world S) -> Prop :=
  | PStep ts i X (o : op X) k x n w w' :
      ts !! i = Some (Vis o k) -> fstep faulty o w x w' ->
      pstep faulty (ts, ((cost o + n)%nat, w)) (<[i := k x]> ts, (n, w')).

(** An interleaving given by the order in which the clients move. *)
Fixpoint interleave {A} (sched : list nat) (ts : list (prog A)) (n : nat) (w : world S)
  : option (list (prog A) * (nat * world S)) :=
  match sched with
  | [] => Some (ts, (n, w))
  | i :: sched =>
    match ts !! i with
    | Some (Vis o k) =>
      if decide (cost o <= n)%nat then
        let '(x, w') := exec o w in interleave sched (<[i := k x]> ts) (n - cost o) w'
      else None
    | _ => None
    end
  end.

Lemma interleave_steps faulty {A} sched (ts : list (prog A)) n w c :
  interleave sched ts n w = Some c -> rtc (pstep faulty) (ts, (n, w)) c.
Proof.
  revert ts n w. induction sched as [|i sched IH]; intros ts n w E; simpl in E.
  - injection E as <-. reflexivity.
  - destruct (ts !! i) as [[a|X o k]|] eqn:Ei; [done| |done].
    case_decide as Hn; [|done]. destruct (exec o w) as [x w'] eqn:Ex. eapply rtc_l; [|by apply IH].
    replace n with (cost o + (n - cost o))%nat at 1 by lia. eapply PStep; [done|by left].
Qed.

(** A run in which the calls named by [script] fail without effect. *)
Definition failing {X} (o : op X) (e : error) : option X :=
  match o in op X return option X with
  | OStat _ | OGet _ | OPut _ _ _ | ODelete _ | OExists _ | OList _ _ _ => Some (Err e)
  | OLoad _ | OCas _ _ _ => None
  end.

Fixpoint run_faults {A} (script : list (option error)) (p : prog A) (w : world S) : A * world S :=
  match p with
  | Ret a => (a, w)
  | Vis o k =>
    match (match script with Some e :: _ => failing o e | _ => None end) with
    | Some x => run_faults (tail script) (k x) w
    | None => let '(x, w') := exec o w in run_faults (tail script) (k x) w'
    end
  end.

Lemma failing_fault {X} (o : op X) e x w : transient e -> failing o e = Some x -> fault o w x w.
Proof. intros He. destruct o; cbn; intros [= <-]; eauto 8. Qed.

Lemma run_faults_steps {A} script (p : prog A) w a w' : Forall (fun x => forall e, x = Some e -> transient e) script ->
  run_faults script p w = (a, w') -> exists n, forall m, rtc (pstep true) ([p], ((n + m)%nat, w)) ([Ret a], (m, w')).
Proof.
  revert script w. induction p as [b|X o k IH]; intros script w Hs; cbn [run_faults].
  { intros [= <- <-]. exists 0%nat. intros m. reflexivity. }
  assert (Forall (fun x => forall e, x = Some e -> transient e) (tail script)) as Hs' by (destruct Hs; [constructor|done]).
  assert (forall x w1, fstep true o w x w1 -> run_faults (tail script) (k x) w1 = (a, w') ->
    exists n, forall m, rtc (pstep true) ([Vis o k], ((n + m)%nat, w)) ([Ret a], (m, w'))) as Hstep.
  { intros x w1 Hst Hr. destruct (IH x (tail script) w1 Hs' Hr) as [n Hn]. exists (cost o + n)%nat. intros m.
    eapply rtc_l; [|apply Hn]. rewrite <-Nat.add_assoc. by apply (PStep true [Vis o k] 0). }
  destruct (match script with Some e :: _ => _ | _ => _ end) as [x|] eqn:E.
  - apply Hstep. right. split; [done|]. destruct script as [|[e|] script]; try done. cbn in E.
    apply (failing_fault o e); [|done]. apply Forall_inv in Hs. by apply Hs.
  - destruct (exec o w) as [x w1] eqn:Ex. apply Hstep. by left.
Qed.

(** The results of the clients that have returned. *)
Definition results {A} (ts : list (prog A)) : list (option A) :=
  (fun t => match t with Ret a => Some a | _ => None end) <$> ts.

Section RelyGuarantee.
Context (faulty : bool) (I : nat -> world S -> Prop) (R : relation (world S)).
Context `{!PreOrder R}.

(** From [w] on, however the other clients move along [R] under the
    invariant [I], each call of [p] keeps [I], moves along [R], and the
    result satisfies [Q]. *)
Fixpoint safe {A} (p : prog A) (Q : A -> world S -> Prop) (w : world S) : Prop :=
  match p with
  | Ret a => Q a w
  | Vis o k => forall n w1, R w w1 -> I (cost o + n)%nat w1 ->
      forall x w2, fstep faulty o w1 x w2 -> I n w2 /\ R w1 w2 /\ safe (k x) Q w2
  end.

Definition stable {A} (Q : A -> world S -> Prop) : Prop :=
  forall a w w', R w w' -> Q a w -> Q a w'.

Lemma safe_mono {A} (p : prog A) Q w w' : stable Q -> R w w' -> safe p Q w -> safe p Q w'.
Proof.
  intros HQ HR. destruct p as [a|X o k]; simpl; [by apply HQ|].
  intros Hs n w1 HR1. apply Hs. by transitivity w'.
Qed.

Lemma safe_bind {A B} (p : prog A) (f : A -> prog B) Q Q' w :
  safe p Q w -> (forall a w', R w w' -> Q a w' -> safe (f a) Q' w') -> safe (prog_bind p f) Q' w.
Proof.
  revert w. induction p as [a|X o k IH]; intros w Hp Hf; simpl in *.
  - apply Hf; [reflexivity|done].
  - intros n w1 HR1 HI x w2 Hst. destruct (Hp n w1 HR1 HI x w2 Hst) as (HI2 & HR2 & Hk).
    split; [done|split; [done|]]. apply IH; [done|].
    intros a w' HR'. apply Hf. etransitivity; [exact HR1|]. by transitivity w2.
Qed.

Lemma safe_weaken {A} (p : prog A) (Q Q' : A -> world S -> Prop) w :
  (forall a w', R w w' -> Q a w' -> Q' a w') -> safe p Q w -> safe p Q' w.
Proof.
  intros HQ Hp. revert w Hp HQ.
  induction p as [a|X o k IH]; intros w Hp HQ; simpl in *; [by apply HQ|].
  intros n w1 HR1 HI x w2 Hst. destruct (Hp n w1 HR1 HI x w2 Hst) as (HI2 & HR2 & Hk).
  split; [done|split; [done|]]. apply IH; [done|].
  intros a w' HR'. apply HQ. etransitivity; [exact HR1|]. by transitivity w2.
Qed.

Lemma safe_try {A B} (p : prog (res A)) (f : A -> prog (res B)) Q Q' w :
  safe p Q w ->
  (forall a w', R w w' -> Q (Ok a) w' -> safe (f a) Q' w') ->
  (forall e w', R w w' -> Q (Err e) w' -> Q' (Err e) w') ->
  safe (try_bind p f) Q' w.
Proof.
  intros Hp Hok Herr. eapply safe_bind; [done|]. intros [a|e] w' HR HQ; [by apply Hok|].
  by apply Herr.
Qed.

Lemma safe_call {X} (o : op X) (Q : X -> world S -> Prop) w :
  (forall n w1, R w w1 -> I (cost o + n)%nat w1 -> forall x w2, fstep faulty o w1 x w2 ->
     I n w2 /\ R w1 w2 /\ Q x w2) ->
  safe (call o) Q w.
Proof. done. Qed.

(** A call that only reads the store. *)
Definition reads {X} (o : op (res X)) : Prop := cost o = 0%nat /\ forall w,
  (exec o w).2 = w /\
  forall x w', fault o w x w' -> (exists e, transient e /\ x = Err e) /\ w' = w.

Lemma safe_read {X} (o : op (res X)) (Q : res X -> world S -> Prop) w :
  reads o ->
  (forall n w1, R w w1 -> I n w1 -> Q (exec o w1).1 w1) ->
  (forall e w1, R w w1 -> faulty = true -> transient e -> Q (Err e) w1) ->
  safe (call o) Q w.
Proof.
  intros Ho Hok Herr. apply safe_call. intros n w1 HR HI1 x w2 Hst.
  destruct Ho as (H0 & Ho). destruct (Ho w1) as (H2 & H3). rewrite H0 in HI1. destruct Hst as [Hex|[Hf Hfault]].
  - specialize (Hok n w1 HR HI1). rewrite Hex in H2, Hok. simpl in *.
    subst w2. split; [done|split; [reflexivity|done]].
  - destruct (H3 x w2 Hfault) as [(e & He & ->) ->].
    split; [done|split; [reflexivity|by apply Herr]].
Qed.

(** One step of a pool of safe clients, each with its own postcondition, and
    any number of steps. *)
Definition pool_safe {A} (ts : list (prog A)) (Qs : list (A -> world S -> Prop)) (w : world S) :=
  Forall2 (fun p Q => safe p Q w) ts Qs.

Lemma pool_step {A} (Qs : list (A -> world S -> Prop)) ts n w ts' n' w' : Forall stable Qs ->
  pool_safe ts Qs w -> I n w -> pstep faulty (ts, (n, w)) (ts', (n', w')) ->
  I n' w' /\ R w w' /\ pool_safe ts' Qs w'.
Proof.
  intros HQ Hts HI Hst. inversion Hst as [? i X o k x m ? ? Hi Hf]; subst.
  destruct (Forall2_lookup_l _ _ _ _ _ Hts Hi) as (Q & HiQ & Hp). simpl in Hp.
  destruct (Hp n' w ltac:(reflexivity) HI x w' Hf) as (HI' & HR & Hk).
  split; [done|split; [done|]]. unfold pool_safe. rewrite <-(list_insert_id Qs i Q) by done.
  apply Forall2_insert; [|done]. apply Forall2_same_length_lookup_2.
  - by eapply Forall2_length.
  - intros j p Q' Hj HjQ. eapply safe_mono; [by eapply Forall_lookup_1|exact HR|].
    by eapply (Forall2_lookup_lr _ _ _ _ _ _ Hts).
Qed.

Lemma pool_steps {A} (Qs : list (A -> world S -> Prop)) ts n w ts' n' w' : Forall stable Qs ->
  pool_safe ts Qs w -> I n w -> rtc (pstep faulty) (ts, (n, w)) (ts', (n', w')) ->
  I n' w' /\ R w w' /\ pool_safe ts' Qs w'.
Proof.
  intros HQ Hts HI Hst. remember (ts, (n, w)) as c0 eqn:E0. remember (ts', (n', w')) as c1 eqn:E1.
  revert ts n w ts' n' w' E0 E1 Hts HI.
  induction Hst as [c|c0 c1 c2 H1 _ IH]; intros ts n w ts' n' w' -> E1 Hts HI.
  - injection E1 as <- <- <-. split; [done|split; [reflexivity|done]].
  - destruct c1 as [ts1 [n1 w1]].
    destruct (pool_step Qs _ _ _ _ _ _ HQ Hts HI H1) as (HI1 & HR1 & Hts1).
    destruct (IH _ _ _ _ _ _ eq_refl E1 Hts1 HI1) as (? & ? & ?).
    split; [done|split; [by transitivity w1|done]].
Qed.

(** The same with steps of an environment that keeps the invariant. *)
Inductive estep {A} (env : relation (nat * world S)) : relation (list (prog A) * (nat * world S)) :=
  | EClient c c' : pstep faulty c c' -> estep env c c'
  | EEnv ts nw nw' : env nw nw' -> estep env (ts, nw) (ts, nw').

Lemma pool_steps_env {A} (env : relation (nat * world S)) (Qs : list (A -> world S -> Prop))
    ts n w ts' n' w' :
  (forall n w n' w', env (n, w) (n', w') -> I n w -> I n' w' /\ R w w') -> Forall stable Qs ->
  pool_safe ts Qs w -> I n w -> rtc (estep env) (ts, (n, w)) (ts', (n', w')) ->
  I n' w' /\ R w w' /\ pool_safe ts' Qs w'.
Proof.
  intros Henv HQ Hts HI Hst.
  remember (ts, (n, w)) as c0 eqn:E0. remember (ts', (n', w')) as c1 eqn:E1.
  revert ts n w ts' n' w' E0 E1 Hts HI.
  induction Hst as [c|c0 c1 c2 H1 _ IH]; intros ts n w ts' n' w' -> E1 Hts HI.
  - injection E1 as <- <- <-. split; [done|split; [reflexivity|done]].
  - destruct c1 as [ts1 [n1 w1]].
    assert (I n1 w1 /\ R w w1 /\ pool_safe ts1 Qs w1) as (HI1 & HR1 & Hts1).
    { inversion H1 as [? ? Hp|? ? ? He]; subst; [by eapply pool_step|].
      destruct (Henv _ _ _ _ He HI) as [HI1 HR1]. split; [done|]. split; [done|].
      apply Forall2_same_length_lookup_2; [by eapply Forall2_length|].
      intros j p Q' Hj HjQ. eapply safe_mono; [by eapply Forall_lookup_1|exact HR1|].
      by eapply (Forall2_lookup_lr _ _ _ _ _ _ Hts). }
    destruct (IH _ _ _ _ _ _ eq_refl E1 Hts1 HI1) as (? & ? & ?).
    split; [done|split; [by transitivity w1|done]].
Qed.

Lemma interleave_esteps {A} (env : relation (nat * world S)) sched (ts : list (prog A)) n w c :
  interleave sched ts n w = Some c -> rtc (estep env) (ts, (n, w)) c.
Proof.
  intros E%(interleave_steps faulty). induction E as [|x y z Hxy _ IH]; [reflexivity|].
  eapply rtc_l; [by apply EClient|exact IH].
Qed.

(** An undisturbed run is a special case; a program that only reads leaves
    the world as it is. *)
Fixpoint reading {A} (p : prog A) : Prop :=
  match p with
  | Ret _ => True
  | Vis o k => (cost o = 0%nat /\ forall w x w', fstep true o w x w' -> w' = w) /\ forall x, reading (k x)
  end.

Lemma run_reading {A} (p : prog A) w : reading p -> (run p w).2 = w.
Proof.
  induction p as [a|X o k IH]; [done|]. intros [[_ Ho] Hk]. simpl.
  destruct (exec o w) as [x w'] eqn:E. rewrite (Ho w x w' ltac:(by left)). by apply IH.
Qed.

Lemma reading_bind {A B} (p : prog A) (f : A -> prog B) :
  reading p -> (forall a, reading (f a)) -> reading (prog_bind p f).
Proof.
  intros Hp Hf. induction p as [a|X o k IH]; simpl; [done|]. destruct Hp as [Ho Hk].
  split; [done|]. intros x. by apply IH.
Qed.

Lemma reading_try {A B} (p : prog (res A)) (f : A -> prog (res B)) :
  reading p -> (forall a, reading (f a)) -> reading (try_bind p f).
Proof. intros Hp Hf. apply reading_bind; [done|]. by intros [a|e]; [apply Hf|]. Qed.

Lemma reading_call {X} (o : op (res X)) : reads o -> reading (call o).
Proof.
  intros [H0 Ho]. split; [|done]. split; [done|]. intros w x w' [E|[_ Hf]].
  - destruct (Ho w) as [E2 _]. by rewrite E in E2.
  - by destruct (Ho w) as [_ [_ ->]%(fun H => H x w' Hf)].
Qed.

(** Every result of [p], whatever its calls return. *)
Fixpoint always {A} (P : A -> Prop) (p : prog A) : Prop :=
  match p with
  | Ret a => P a
  | Vis o k => forall x, always P (k x)
  end.

Lemma always_bind {A B} (P : A -> Prop) (P' : B -> Prop) (p : prog A) (f : A -> prog B) :
  always P p -> (forall a, P a -> always P' (f a)) -> always P' (prog_bind p f).
Proof. intros Hp Hf. induction p as [a|X o k IH]; simpl in *; [by apply Hf|]. intros x. by apply IH. Qed.

Lemma always_true {A} (p : prog A) : always (fun _ => True) p.
Proof. induction p; simpl; auto. Qed.

Lemma safe_reading {A} (P : A -> Prop) (p : prog A) w : reading p -> always P p -> safe p (fun a _ => P a) w.
Proof.
  revert w. induction p as [a|X o k IH]; intros w; simpl; [done|]. intros [[H0 Ho] Hk] Ha n w1 HR HI1 x w2 Hst.
  rewrite H0 in HI1. assert (w2 = w1) as ->.
  { apply (Ho w1 x w2). destruct Hst as [?|[_ ?]]; [by left|by right]. }
  split; [done|]. split; [reflexivity|]. by apply IH.
Qed.

Lemma run_safe {A} (p : prog A) Q n w a w' : reading p ->
  safe p Q w -> I n w -> run p w = (a, w') -> Q a w' /\ w' = w.
Proof.
  intros Hr Hp HI Hrun. assert (w' = w) as ->.
  { pose proof (run_reading p w Hr) as H2. by rewrite Hrun in H2. }
  split; [|done]. revert w Hp HI Hrun.
  induction p as [b|X o k IH]; intros w Hp HI Hrun; simpl in *; [by injection Hrun as <-|].
  destruct Hr as [[H0 H2] Hk].
  destruct (exec o w) as [x w1] eqn:E. pose proof (H2 w x w1 ltac:(by left)) as ->.
  destruct (Hp n w ltac:(reflexivity)) with (x := x) (w2 := w) as (HI1 & HR1 & Hs).
  - by rewrite H0.
  - by left.
  - by apply (IH x).
Qed.

End RelyGuarantee.

(** *** Total runs

    The run of [p] on its own from [w], with [n] writes left, needs no more
    than those and ends with [Q]: what liveness claims are proved with.  The
    safety of [p] can be used on the way ([wp_safe]). *)
Fixpoint wp {A} (p : prog A) (Q : A -> nat -> world S -> Prop) (n : nat) (w : world S) : Prop :=
  match p with
  | Ret a => Q a n w
  | Vis o k => (cost o <= n)%nat /\ let '(x, w') := exec o w in wp (k x) Q (n - cost o) w'
  end.

Lemma wp_run {A} (p : prog A) Q n w : wp p Q n w -> exists a n' w', run p w = (a, w') /\ Q a n' w'.
Proof.
  revert n w. induction p as [a|X o k IH]; intros n w; cbn [wp run]; [by exists a, n, w|].
  intros [_ Hw]. destruct (exec o w) as [x w']. by eapply IH.
Qed.

Lemma wp_mono {A} (p : prog A) (Q Q' : A -> nat -> world S -> Prop) n w :
  wp p Q n w -> (forall a n' w', Q a n' w' -> Q' a n' w') -> wp p Q' n w.
Proof.
  intros Hp HQ. revert n w Hp. induction p as [a|X o k IH]; intros n w; cbn [wp]; [apply HQ|].
  intros [? Hw]. split; [done|]. destruct (exec o w) as [x w']. by apply IH.
Qed.

Lemma wp_bind {A B} (p : prog A) (f : A -> prog B) Q n w :
  wp p (fun a n' w' => wp (f a) Q n' w') n w -> wp (prog_bind p f) Q n w.
Proof.
  revert n w. induction p as [a|X o k IH]; intros n w; cbn [wp prog_bind]; [done|].
  intros [? Hw]. split; [done|]. destruct (exec o w) as [x w']. by apply IH.
Qed.

(** A program that only reads, by its run. *)
Lemma wp_reading {A} (p : prog A) Q n w a : reading p -> run p w = (a, w) -> Q a n w -> wp p Q n w.
Proof.
  induction p as [b|X o k IH]; cbn [reading run wp]; [by intros _ [= <-]|].
  intros [[H0 Ho] Hk] Hrun HQ. rewrite H0, Nat.sub_0_r. split; [lia|].
  destruct (exec o w) as [x w'] eqn:E. rewrite (Ho w x w' ltac:(by left)) in *. by apply IH.
Qed.

Lemma wp_safe (I : nat -> world S -> Prop) (R : relation (world S)) `{!PreOrder R} {A} (p : prog A) Q Q' n w :
  wp p Q n w -> safe false I R p Q' w -> I n w ->
  wp p (fun a n' w' => Q a n' w' /\ I n' w' /\ R w w' /\ Q' a w') n w.
Proof.
  revert n w. induction p as [a|X o k IH]; intros n w; cbn [wp safe].
  { intros ? ? ?. split_and!; try done. }
  intros [Hn Hw] Hs HI. split; [done|]. destruct (exec o w) as [x w'] eqn:E.
  destruct (Hs (n - cost o)%nat w ltac:(reflexivity)) with (x := x) (w2 := w') as (HI' & HR & Hk).
  { by rewrite Nat.add_comm, Nat.sub_add. }
  { by left. }
  eapply wp_mono; [by apply IH|]. intros a n1 w1 (? & ? & ? & ?). split_and!; try done. by transitivity w'.
Qed.

Lemma reads_OStat k : reads (OStat k). Proof. by split. Qed.
Lemma reads_OGet k : reads (OGet k). Proof. by split. Qed.
Lemma reads_OExists k : reads (OExists k). Proof. by split. Qed.
Lemma reads_OList p a l : reads (OList p a l). Proof. by split. Qed.

(** A dead context is one of the failures the steps allow: the call returns
    the context's error and leaves the store as it was. *)
Lemma dead_context_is_fault `{!StoreLaws S} e k d c w : transient e ->
  fault (OGet k) w (Get (Some e) k (store w)) w /\
  fault (OPut k d c) w (Put (Some e) k (Ok d) c (store w)).1
    (MkWorld (Put (Some e) k (Ok d) c (store w)).2 (cells w)).
Proof.
  intros He. destruct (ctx_dead e k (store w)) as (_ & -> & _ & _ & _ & HP).
  destruct (HP d c) as (e' & -> & He'). destruct w as [s cs]. simpl. split; [eauto 6|]. left. exists e'.
  split; [|done]. by destruct He' as [->|[what ->]].
Qed.

End Run.

Arguments safe {S _} faulty I R {A} p Q w.
#[export] Hint Resolve reads_OStat reads_OGet reads_OExists reads_OList : cloudy.
