(* ===== verification/Logstream.v ===== *)
(** * logstream: the write-ahead log on the object store

    src/logstream/log.go.  A log is a directory of objects
    [prefix/%020d.recordio], one per appended batch, numbered 1, 2, 3, ...
    [Append] finds the next number with [List], a galloping search over
    [Exists] and conditional writes; any number of processes append at the
    same time without any other coordination.

    The abstract log is the list of the batches' bytes, [is_log].  The main
    results: the directory is always the objects 1..N (no gap, nothing
    overwritten) whatever the interleaving of the appenders and whatever
    calls fail; [head] returns a length the log had during the call; the
    batch read at a returned number is the batch appended. *)

From S2P Require Import Prelude GoIo GoStr Recordio Scanner ObjectStore Prog.
From Stdlib Require Import Ascii.
Local Open Scope Z_scope.

(** [logstream.Record] *)
Definition LRecord : Type := list byte.
Definition headListLimit : Z := 1000.

(** [lastKnown] is the number of the atomic counter (see [Prog.op]). *)
Record Log := MkLog { prefix : string; lastKnown : nat }.

Definition prefix_char (c : ascii) : bool :=
  let n := Z.of_N (N_of_ascii c) in
  bool_decide (97 <= n <= 122) || bool_decide (65 <= n <= 90) || bool_decide (48 <= n <= 57)
  || bool_decide (c = "_"%char) || bool_decide (c = "-"%char) || bool_decide (c = "/"%char).

Fixpoint all_chars (f : ascii -> bool) (s : string) : bool :=
  match s with
  | EmptyString => true
  | String c s => f c && all_chars f s
  end.

Definition validPrefix (prefix : string) : bool :=
  if decide (prefix = "" \/ HasPrefix prefix "/" = true \/ HasSuffix prefix "/" = true \/
             Contains prefix "//" = true)
  then false
  else all_chars prefix_char prefix.

(** [store == nil] is a flag; [c] is the counter allocated for the log. *)
Definition New (store_nil : bool) (prefix : string) (c : nat) : res Log :=
  if store_nil then Err (Msg "logstream: nil store")
  else if negb (validPrefix prefix) then Err (Msg "logstream: invalid prefix")
  else Ok (MkLog prefix c).

Definition segmentKey (prefix : string) (seq : Z) : string :=
  prefix +:+ "/" +:+ Sprintf_020d seq +:+ ".recordio".

Definition parseSeq (key : string) : res Z :=
  let base := path_Base key in
  if negb (HasSuffix base ".recordio") then
    Err (Msg "logstream: key does not end with .recordio") else
  let raw := TrimSuffix base ".recordio" in
  if decide (String.length raw <> 20%nat) then
    Err (Msg "logstream: sequence number has the wrong length") else
  match ParseUint raw 10 with
  | None => Err (Msg "logstream: invalid sequence number")
  | Some seq => if decide (seq = 0) then Err (Msg "logstream: sequence number 0") else Ok seq
  end.

(** ** jump: galloping, then binary search.  The loops run at most 64 times
    each ([jump_safe] shows that the fuel never runs out).  The number of
    probes is returned with the result and only logged with an error. *)
Fixpoint bisect (fuel : nat) (probe : Z -> prog (res bool)) (low high probes : Z)
  : prog (res (Z * Z)) :=
  if decide (u64 (low + 1) < high) then
    match fuel with
    | O => Ret (Err OutOfFuel)
    | S fuel =>
      let mid := u64 (low + u64 (high - low) / 2) in
      ok <~ probe mid;
      if (ok : bool) then bisect fuel probe mid high (probes + 1)
      else bisect fuel probe low mid (probes + 1)
    end
  else Ret (Ok (low, probes)).

Fixpoint gallop (fuel : nat) (probe : Z -> prog (res bool)) (step low high probes : Z)
  : prog (res (Z * Z)) :=
  match fuel with
  | O => Ret (Err OutOfFuel)
  | S fuel =>
    let '(high, step) :=
      if decide (u64 (MaxUint64 - high) / 2 < step) then (MaxUint64, step)
      else (u64 (high + u64 (step * 2)), u64 (step * 2)) in
    let probes := probes + 1 in
    ok <~ probe high;
    if (ok : bool) then
      if decide (high = MaxUint64) then Ret (Ok (high, probes))
      else gallop fuel probe step high high probes
    else bisect 64 probe low high probes
  end.

Definition jump (lo : Z) (probe : Z -> prog (res bool)) : prog (res (Z * Z)) :=
  if decide (lo = MaxUint64) then Ret (Ok (lo, 0)) else
  ex <~ probe (u64 (lo + 1));
  if (ex : bool) then gallop 64 probe 1 (u64 (lo + 1)) (u64 (lo + 1)) 1
  else Ret (Ok (lo, 1)).

Definition probe_segment (prefix : string) (seq : Z) : prog (res bool) :=
  call (OExists (segmentKey prefix seq)).

Definition head (l : Log) (lo : Z) : prog (res (Z * Z)) :=
  let start := if decide (0 < lo) then segmentKey (prefix l) lo else "" in
  objs <~ call (OList (prefix l +:+ "/") start headListLimit);
  match last objs with
  | None => Ret (Ok (lo, 0))
  | Some o =>
    last <~ lift (parseSeq (Key o));
    if decide (Z.of_nat (length objs) < headListLimit) then Ret (Ok (last, 0))
    else jump last (probe_segment (prefix l))
  end.

Definition Tail (l : Log) : prog (res Z) :=
  '(h, _) <~ head l 0; Ret (Ok h).

(** [for { curr := c.Load(); if t <= curr || c.CompareAndSwap(curr, t) { break } }] *)
Fixpoint advance (fuel : nat) (c : nat) (t : Z) : prog (res unit) :=
  match fuel with
  | O => Ret (Err OutOfFuel)
  | S fuel =>
    curr ← call (OLoad c);
    if decide (t <= curr) then Ret (Ok tt) else
    ok ← call (OCas c curr t);
    if (ok : bool) then Ret (Ok tt) else advance fuel c t
  end.

(** The retry loop of [Append]; each round is one upload.  [cf] is the fuel of
    the compare-and-swap loop. *)
Fixpoint append_loop (cf fuel : nat) (l : Log) (payload : list byte) (seq : Z) : prog (res Z) :=
  match fuel with
  | O => Ret (Err OutOfFuel)
  | S fuel =>
    r ← call (OPut (segmentKey (prefix l) seq) payload IfAbsent);
    match r with
    | Ok _ => _ <~ advance cf (lastKnown l) seq; Ret (Ok seq)
    | Err e =>
      if errors_Is e ErrPreconditionFailed then
        '(h, _) <~ head l seq;
        append_loop cf fuel l payload (u64 (h + 1))
      else Ret (Err e)
    end
  end.

Definition Append (fuel : nat) (l : Log) (records : list LRecord) : prog (res Z) :=
  if decide (records = []) then Ret (Err (Msg "logstream: batch is empty")) else
  payload <~ lift (encode_records records);
  known ← call (OLoad (lastKnown l));
  _ <~ (if decide (known = 0) then
           t <~ Tail l;
           advance fuel (lastKnown l) t
         else Ret (Ok tt));
  known ← call (OLoad (lastKnown l));
  append_loop fuel fuel l payload (u64 (known + 1)).

(** The bytes of a segment as [Read] scans them. *)
Definition scan_segment (d : list byte) : res (list LRecord) :=
  let '(records, s) := scan_all (NewScanner (Source [d] EOF) None []) in
  match Err_ s with
  | Some e => Err e
  | None => Ok records
  end.

Definition Read (l : Log) (seq : Z) : prog (res (list LRecord)) :=
  if decide (seq = 0) then
    Ret (Err (Msg "logstream: sequence number must be greater than zero")) else
  r ← call (OGet (segmentKey (prefix l) seq));
  match r with
  | Err e => if errors_Is e ErrNotFound then Ret (Err ErrEndOfStream) else Ret (Err e)
  | Ok (d, _) => Ret (scan_segment d)
  end.

(** ** Keys *)
Lemma fixed_loop_app k n acc x : fixed_loop k n acc +:+ x = fixed_loop k n (acc +:+ x).
Proof. revert n acc. induction k as [|k IH]; intros n acc; [done|]. simpl. by rewrite IH. Qed.

Lemma segmentKey_compare p a b : is_u64 a -> is_u64 b ->
  String.compare (segmentKey p a) (segmentKey p b) = (a ?= b).
Proof.
  unfold is_u64. intros Ha Hb. unfold segmentKey. rewrite !compare_app_l.
  unfold Sprintf_020d. rewrite !fixed_loop_app, compare_fixed_loop by lia. by destruct (a ?= b).
Qed.

Lemma segmentKey_lt p a b : is_u64 a -> is_u64 b ->
  str_lt (segmentKey p a) (segmentKey p b) <-> a < b.
Proof. intros Ha Hb. unfold str_lt. by rewrite segmentKey_compare. Qed.

Lemma segmentKey_inj p a b : is_u64 a -> is_u64 b -> segmentKey p a = segmentKey p b -> a = b.
Proof.
  intros Ha Hb E. pose proof (segmentKey_compare p a b Ha Hb) as H.
  rewrite E, compare_refl in H. symmetry in H. by apply Z.compare_eq in H.
Qed.

Lemma segmentKey_prefix p a : HasPrefix (segmentKey p a) (p +:+ "/") = true.
Proof. apply HasPrefix_spec. eexists. unfold segmentKey. by rewrite str_app_assoc. Qed.

#[export] Instance segmentKey_ne p a : NonEmptyKey (segmentKey p a).
Proof. unfold NonEmptyKey, segmentKey. by destruct p. Qed.

Lemma segmentKey_after_empty p a : str_lt "" (segmentKey p a).
Proof. unfold segmentKey. by destruct p. Qed.

Lemma Sprintf_no c n : digit_val 10 c = None -> str_in c (Sprintf_020d n) = false.
Proof.
  intros Hc. unfold Sprintf_020d. assert (str_in c "" = false) as H by done. revert H n.
  generalize "" at 1 2. generalize 20%nat. induction n as [|k IH]; intros acc Hacc n; [done|].
  simpl. apply IH. cbn [str_in]. rewrite Hacc, orb_false_r. apply bool_decide_eq_false_2.
  intros E. assert (digit_val 10 (digit (n mod 10)) = Some (n mod 10)) as Hd
    by (apply digit_val_digit; [apply Z.mod_pos_bound|]; lia).
  congruence.
Qed.

Lemma Sprintf_no_slash n : str_in slash (Sprintf_020d n) = false.
Proof. by apply Sprintf_no. Qed.

Lemma parseSeq_segmentKey p seq : 0 < seq < 2 ^ 64 -> parseSeq (segmentKey p seq) = Ok seq.
Proof.
  intros Hs. unfold parseSeq, segmentKey.
  rewrite Base_last; [|by destruct (Sprintf_020d seq)|by rewrite str_in_app, Sprintf_no_slash].
  rewrite HasSuffix_app, TrimSuffix_app. cbn [negb].
  assert (String.length (Sprintf_020d seq) = 20%nat) as Hl by apply length_fixed_loop.
  rewrite decide_False by (intros []; done). unfold ParseUint.
  rewrite decide_False by (intros E; by rewrite E in Hl).
  unfold Sprintf_020d. rewrite parse_fixed_loop by lia. cbn [parse_loop].
  rewrite decide_True by (unfold MaxUint64; lia). by rewrite decide_False by lia.
Qed.

(** ** jump

    [P seq] is "segment [seq] exists", which stays true; [n0] is a number of
    segments known to exist when the search starts.  Whatever happens to the
    log meanwhile, the search returns an existing number that is at least
    [n0], after at most [2 log2 (distance) + 1] probes. *)
Section Jump.
Context {S : Type} `{Store S} (faulty : bool).
Context (I : nat -> world S -> Prop) (R : relation (world S)) `{!PreOrder R}.
Context (P : Z -> world S -> Prop) (E : error -> Prop) (n0 : Z) (probe : Z -> prog (res bool)).
Context (P_stable : forall seq w w', R w w' -> P seq w -> P seq w').

Definition probe_post (seq : Z) (r : res bool) (w : world S) : Prop :=
  match r with
  | Ok true => P seq w
  | Ok false => n0 < seq /\ ~ P seq w
  | Err e => E e
  end.

Definition jump_post (lo : Z) (bound : Z -> Z) (r : res (Z * Z)) (w : world S) : Prop :=
  match r with
  | Ok (h, probes) => lo <= h <= MaxUint64 /\ P h w /\ n0 <= h /\ probes <= bound h
  | Err e => E e
  end.

Context (w0 : world S).
Context (probe_safe : forall seq w, 1 <= seq <= MaxUint64 -> R w0 w ->
  safe faulty I R (probe seq) (probe_post seq) w).

Lemma bisect_safe (f fuel : nat) low high probes w :
  (f <= fuel)%nat -> R w0 w -> 1 <= low < high -> high <= MaxUint64 ->
  high - low <= 2 ^ Z.of_nat f -> P low w -> n0 < high ->
  safe faulty I R (bisect fuel probe low high probes)
    (jump_post low (fun _ => probes + Z.of_nat f)) w.
Proof.
  unfold MaxUint64. revert fuel low high probes w.
  induction f as [|f IH]; intros fuel low high probes w Hf Hw Hlow Hhigh Hd HP Hn0.
  { assert (high = low + 1) as -> by (simpl in Hd; lia). destruct fuel; cbn [bisect];
      rewrite u64_small by (split; lia); rewrite decide_False by lia;
      cbn; unfold MaxUint64; repeat split; try lia; done. }
  rewrite Nat2Z.inj_succ, Z.pow_succ_r in Hd by lia.
  destruct fuel as [|fuel]; [lia|]. cbn [bisect]. rewrite u64_small by (split; lia).
  case_decide as Hc; [|cbn; unfold MaxUint64; repeat split; try lia; done].
  rewrite (u64_small (high - low)), u64_small by (split; dlia).
  eapply safe_try; [done|apply probe_safe; [unfold MaxUint64; dlia|done]| |done].
  intros [] w' HR; cbn [probe_post]; intros Hpost.
  - eapply safe_weaken; [done| |apply IH; [lia|by transitivity w|dlia|dlia|dlia|done|done]].
    intros [[h c]|e] w2 HR2; [|done]. cbn. intros (H1 & H2 & H3 & H4). repeat split; try dlia; done.
  - destruct Hpost as [Hpost _]. eapply safe_weaken; [done| |apply IH;
      [lia|by transitivity w|dlia|dlia|dlia|by eapply P_stable|done]].
    intros [[h c]|e] w2 HR2; [|done]. cbn. intros (H1 & H2 & H3 & H4). repeat split; try lia; done.
Qed.

Context (n0_max : n0 <= MaxUint64).

Definition probe_bound (lo h : Z) : Z := 2 * Z.log2 (h - lo + 1) + 1.

Lemma gallop_safe (k fuel : nat) lo low w : low = lo + 2 ^ (Z.of_nat k + 1) - 1 ->
  (64 <= k + fuel)%nat -> (k <= 63)%nat -> 0 <= lo -> R w0 w -> low <= MaxUint64 -> P low w ->
  safe faulty I R (gallop fuel probe (2 ^ Z.of_nat k) low low (Z.of_nat k + 1))
    (jump_post lo (probe_bound lo)) w.
Proof.
  unfold MaxUint64. revert k low w.
  induction fuel as [|fuel IH]; intros k low w Elow Hf Hk Hlo Hw Hlow HP; [lia|].
  assert (0 < 2 ^ Z.of_nat k <= 2 ^ 63) as Hpow
    by (split; [apply Z.pow_pos_nonneg; lia|apply Z.pow_le_mono_r; lia]).
  assert (2 ^ (Z.of_nat k + 1) = 2 * 2 ^ Z.of_nat k) as Hk1 by (rewrite Z.pow_add_r; lia).
  assert (forall h, low <= h -> Z.of_nat k + 1 <= Z.log2 (h - lo + 1)) as Hlog.
  { intros h Hh. rewrite <-(Z.log2_pow2 (Z.of_nat k + 1)) by lia. apply Z.log2_le_mono. lia. }
  assert (forall high w', R w w' -> n0 < high -> low < high <= low + 2 ^ (Z.of_nat k + 1) ->
    high <= MaxUint64 ->
    safe faulty I R (bisect 64 probe low high (Z.of_nat k + 1 + 1))
      (jump_post lo (probe_bound lo)) w') as Hbis.
  { intros high w' HR Hn Hd Hh.
    eapply safe_weaken; [done| |apply (bisect_safe (k + 1));
      [lia|by transitivity w|lia|done|by rewrite Nat2Z.inj_add; simpl; lia|by eapply P_stable|done]].
    intros [[h c]|e] w2 HR2; [|done]. cbn. intros (H1 & H2 & H3 & H4).
    split; [lia|split; [done|split; [done|]]]. unfold probe_bound. specialize (Hlog h). lia. }
  cbn [gallop]. unfold MaxUint64. rewrite (u64_small (2 ^ 64 - 1 - low)) by (split; lia).
  case_decide as Hc.
  - eapply safe_try; [done|apply probe_safe; [unfold MaxUint64; lia|done]| |done].
    intros [] w' HR; cbn [probe_post]; intros Hpost.
    + rewrite decide_True by done. cbn. unfold MaxUint64 in *.
      split; [lia|split; [done|split; [lia|]]]. unfold probe_bound.
      specialize (Hlog (2 ^ 64 - 1)). lia.
    + destruct Hpost as [Hn Hnot]. destruct (decide (low = 2 ^ 64 - 1)) as [->|Hne].
      { destruct Hnot. unfold MaxUint64. by eapply P_stable. }
      apply Hbis; [done|done|unfold MaxUint64; dlia|unfold MaxUint64; lia].
  - rewrite (u64_small (2 ^ Z.of_nat k * 2)), u64_small by (split; dlia).
    eapply safe_try; [done|apply probe_safe; [unfold MaxUint64; dlia|done]| |done].
    intros [] w' HR; cbn [probe_post]; intros Hpost.
    + case_decide as Hmax.
      { cbn. unfold MaxUint64 in *. split; [lia|split; [done|split; [lia|]]]. unfold probe_bound.
        specialize (Hlog (low + 2 ^ Z.of_nat k * 2)). lia. }
      assert (k <= 62)%nat as Hk62.
      { destruct (decide (k = 63%nat)) as [->|]; [exfalso|lia].
        change (2 ^ Z.of_nat 63) with (2 ^ 63) in *. dlia. }
      replace (2 ^ Z.of_nat k * 2) with (2 ^ Z.of_nat (k + 1)) in *
        by (rewrite Nat2Z.inj_add; lia).
      replace (Z.of_nat k + 1 + 1) with (Z.of_nat (k + 1) + 1) by lia.
      apply IH; [|lia|lia|lia|by transitivity w|dlia|done].
      rewrite Nat2Z.inj_add, (Z.pow_add_r 2 (_ + _)) by lia.
      lia.
    + destruct Hpost as [Hn _]. apply Hbis; [done|done|lia|unfold MaxUint64; dlia].
Qed.

Lemma jump_safe lo w : 0 <= lo <= MaxUint64 -> R w0 w -> P lo w ->
  safe faulty I R (jump lo probe) (jump_post lo (probe_bound lo)) w.
Proof.
  unfold MaxUint64. intros Hlo Hw HP. unfold jump, MaxUint64. case_decide as Hmax.
  { cbn. unfold MaxUint64 in *. split; [lia|split; [done|split; [lia|]]].
    unfold probe_bound. pose proof (Z.log2_nonneg (lo - lo + 1)). lia. }
  rewrite u64_small by (split; lia).
  eapply safe_try; [done|apply probe_safe; [unfold MaxUint64; lia|done]| |done].
  intros [] w' HR; cbn [probe_post]; intros Hpost.
  - apply (gallop_safe 0 64 lo); [simpl; lia|lia..|by transitivity w|unfold MaxUint64; lia|done].
  - destruct Hpost as [Hn _]. cbn. unfold MaxUint64.
    split; [lia|split; [by eapply P_stable|split; [lia|]]].
    unfold probe_bound. replace (lo - lo + 1) with 1 by lia. simpl. lia.
Qed.

End Jump.

(** ** The abstract log *)
Section Abstract.
Context (p : string).

(** The objects under [p/] are the segments 1..N with the bytes [bs]. *)
Definition is_log (v : gmap string entry) (bs : list (list byte)) : Prop :=
  Z.of_nat (length bs) < 2 ^ 64 /\
  (forall i d, bs !! i = Some d -> data <$> v !! segmentKey p (Z.of_nat i + 1) = Some d) /\
  (forall k, is_Some (v !! k) -> HasPrefix k (p +:+ "/") = true ->
     exists i, (i < length bs)%nat /\ k = segmentKey p (Z.of_nat i + 1)).

Lemma is_log_exists v bs seq : is_log v bs -> 1 <= seq < 2 ^ 64 ->
  is_Some (v !! segmentKey p seq) <-> seq <= Z.of_nat (length bs).
Proof.
  intros (Hl & Hin & Hout) Hs. split.
  - intros (i & Hi & E)%Hout; [|apply segmentKey_prefix].
    apply segmentKey_inj in E; [lia|split; lia..].
  - intros Hle. destruct (lookup_lt_is_Some_2 bs (Z.to_nat (seq - 1))) as [d Hd]; [lia|].
    apply Hin in Hd. replace (Z.of_nat (Z.to_nat (seq - 1)) + 1) with seq in Hd by lia.
    by destruct (v !! segmentKey p seq).
Qed.

Lemma is_log_unique v bs bs' : is_log v bs -> is_log v bs' -> bs = bs'.
Proof.
  intros H1 H2. assert (length bs = length bs') as Hl.
  { pose proof H1 as (L1 & _). pose proof H2 as (L2 & _).
    destruct (decide (length bs <= length bs')%nat); destruct (decide (length bs' <= length bs)%nat);
      try lia; exfalso.
    - pose proof (is_log_exists v bs (Z.of_nat (length bs')) H1 ltac:(lia)) as E1.
      pose proof (is_log_exists v bs' (Z.of_nat (length bs')) H2 ltac:(lia)) as E2. 
      assert (Z.of_nat (length bs') <= Z.of_nat (length bs)); [|lia]. apply E1, E2. lia.
    - pose proof (is_log_exists v bs (Z.of_nat (length bs)) H1 ltac:(lia)) as E1.
      pose proof (is_log_exists v bs' (Z.of_nat (length bs)) H2 ltac:(lia)) as E2. 
      assert (Z.of_nat (length bs) <= Z.of_nat (length bs')); [|lia]. apply E2, E1. lia. }
  apply (list_eq_same_length _ _ (length bs)); [done|done|]. intros i x y _ Hx Hy.
  destruct H1 as (_ & H1 & _), H2 as (_ & H2 & _). apply H1 in Hx. apply H2 in Hy. congruence.
Qed.

Lemma is_log_append v bs d g : is_log v bs -> Z.of_nat (length bs) + 1 < 2 ^ 64 ->
  is_log (<[segmentKey p (Z.of_nat (length bs) + 1) := MkEntry d g]> v) (bs ++ [d]).
Proof.
  intros (Hl & Hin & Hout) Hroom. split; [|split].
  - rewrite length_app. simpl. lia.
  - intros i d' Hd. apply lookup_app_Some in Hd as [Hd|[Hi Hd]].
    + pose proof (lookup_lt_Some _ _ _ Hd). rewrite lookup_insert_ne; [by apply Hin|].
      intros E%segmentKey_inj; [lia|split; lia..].
    + apply list_lookup_singleton_Some in Hd as [? ->].
      replace (Z.of_nat i + 1) with (Z.of_nat (length bs) + 1) by lia. by rewrite lookup_insert_eq.
  - intros k Hk Hp. destruct (decide (k = segmentKey p (Z.of_nat (length bs) + 1))) as [->|Hne].
    + exists (length bs). rewrite length_app. simpl. split; [lia|done].
    + rewrite lookup_insert_ne in Hk by done. destruct (Hout k Hk Hp) as (i & Hi & ->).
      exists i. rewrite length_app. split; [lia|done].
Qed.

(** Changes outside the directory do not matter. *)
Lemma is_log_frame v v' bs : is_log v bs ->
  (forall k, HasPrefix k (p +:+ "/") = true -> v' !! k = v !! k) -> is_log v' bs.
Proof.
  intros (Hl & Hin & Hout) Hv. split; [done|split].
  - intros i d Hd. rewrite Hv by apply segmentKey_prefix. auto.
  - intros k Hk Hp. rewrite Hv in Hk by done. auto.
Qed.

Definition start_key (lo : Z) : string := if decide (0 < lo) then segmentKey p lo else "".

Lemma segs_sorted n a : 0 <= a -> a + Z.of_nat n <= 2 ^ 64 ->
  StronglySorted str_lt (segmentKey p <$> seqZ a (Z.of_nat n)).
Proof.
  revert a. induction n as [|n IH]; intros a Ha Hn; [constructor|].
  rewrite seqZ_cons, fmap_cons by lia. replace (Z.pred (Z.of_nat (S n))) with (Z.of_nat n) by lia.
  constructor; [apply IH; lia|]. rewrite Forall_fmap. apply Forall_seqZ. intros m Hm. simpl.
  apply segmentKey_lt; [split; lia..|lia].
Qed.

Lemma start_key_lt lo seq : is_u64 lo -> 1 <= seq < 2 ^ 64 ->
  str_lt (start_key lo) (segmentKey p seq) <-> lo < seq.
Proof.
  unfold is_u64. intros Hlo Hs. unfold start_key. case_decide.
  - apply segmentKey_lt; split; lia.
  - pose proof (segmentKey_after_empty p seq). split; [lia|done].
Qed.

Lemma listed_log v bs lo : is_log v bs -> 0 <= lo <= Z.of_nat (length bs) ->
  listed v (p +:+ "/") (start_key lo) =
  segmentKey p <$> seqZ (lo + 1) (Z.of_nat (length bs) - lo).
Proof.
  intros Hlog Hlo. pose proof Hlog as (Hl & Hin & Hout).
  assert (StronglySorted str_lt (segmentKey p <$> seqZ (lo + 1) (Z.of_nat (length bs) - lo))) as Hs.
  { rewrite <-(Z2Nat.id (_ - lo)) by lia. apply segs_sorted; lia. }
  apply (StronglySorted_unique str_lt); [apply listed_sorted|done|].
  apply NoDup_Permutation; [by apply sorted_lt_NoDup, listed_sorted|by apply sorted_lt_NoDup|].
  intros k. rewrite elem_of_listed, list_elem_of_fmap. split.
  - intros (Hk & Hp & Hst). destruct (Hout k Hk Hp) as (i & Hi & ->).
    exists (Z.of_nat i + 1). split; [done|]. apply elem_of_seqZ.
    apply start_key_lt in Hst; [lia|split; lia|lia].
  - intros (seq & -> & Hseq%elem_of_seqZ). split; [|split].
    + eapply is_log_exists; [done|lia..].
    + apply segmentKey_prefix.
    + apply start_key_lt; [split; lia|lia|lia].
Qed.

End Abstract.

(** ** Concurrent clients

    Any number of [Log] objects with the prefix [p] (their counters are
    [cs]), in any number of processes, appending batches that satisfy
    [allowed]. *)
Section Concurrent.
Context {S : Type} `{StoreLaws S} (faulty : bool) (p : string) (cs : list nat).
Context (allowed : list byte -> Prop).

Definition log_at (w : world S) (bs : list (list byte)) : Prop := is_log p (view (store w)) bs.
Definition at_least (w : world S) (n : Z) : Prop :=
  exists bs, log_at w bs /\ n <= Z.of_nat (length bs) /\ n < MaxUint64.

(** The store holds a log, no counter is ahead of it, and there is room for
    [n] more calls. *)
Definition log_inv (n : nat) (w : world S) : Prop :=
  ok n (store w) /\ exists bs, log_at w bs /\
    Z.of_nat (length bs) + Z.of_nat n < MaxUint64 /\
    forall c, c ∈ cs -> 0 <= cell w c <= Z.of_nat (length bs).

(** The log only grows at its end, the counters only grow. *)
Definition log_rel (w w' : world S) : Prop :=
  (forall bs, log_at w bs -> exists new, log_at w' (bs ++ new) /\ Forall allowed new) /\
  forall c, c ∈ cs -> cell w c <= cell w' c.

#[local] Instance log_rel_preorder : PreOrder log_rel.
Proof.
  split.
  - intros w. split; [|lia]. intros bs Hbs. exists []. by rewrite app_nil_r.
  - intros w1 w2 w3 [H1 C1] [H2 C2]. split.
    + intros bs Hbs. destruct (H1 bs Hbs) as (new & Hnew & F1).
      destruct (H2 _ Hnew) as (new' & ? & F2). exists (new ++ new').
      rewrite app_assoc, Forall_app. done.
    + intros c Hc. specialize (C1 c Hc). specialize (C2 c Hc). lia.
Qed.

Lemma at_least_stable n w w' : log_rel w w' -> at_least w n -> at_least w' n.
Proof.
  intros [HR _] (bs & Hbs & Hn & Hm). destruct (HR bs Hbs) as (new & Hnew & _).
  exists (bs ++ new). split; [done|split; [|done]]. rewrite length_app. lia.
Qed.

Lemma at_least_le n m w : m <= n -> at_least w n -> at_least w m.
Proof. intros Hm (bs & ? & ? & ?). exists bs. split; [done|lia]. Qed.

Lemma log_inv_weaken n w : log_inv (Datatypes.S n) w -> log_inv n w.
Proof.
  intros (Hok & bs & Hbs & Hn & Hc). split; [eapply ok_weaken; [|done]; lia|].
  exists bs. split_and!; [done|lia|done].
Qed.

Definition err_ok (e : error) : Prop := faulty = true /\ transient e.

Definition head_post (n0 lo : Z) (r : res (Z * Z)) (w : world S) : Prop :=
  match r with
  | Ok (h, _) => lo <= h /\ at_least w h /\ n0 <= h
  | Err e => err_ok e
  end.

Lemma probe_segment_safe n0 w0 seq w : at_least w0 n0 -> 1 <= seq <= MaxUint64 -> log_rel w0 w ->
  safe faulty log_inv log_rel (probe_segment p seq)
    (probe_post (fun seq w => at_least w seq) err_ok n0 seq) w.
Proof.
  intros Hn0 Hs HR. apply safe_read; [apply _|auto with cloudy| |done].
  intros n w1 HR1 (Hok & bs & Hbs & Hn & _). simpl. rewrite (exists_ok _ _ _ Hok).
  pose proof (is_log_exists p _ bs seq Hbs) as He. unfold MaxUint64 in *.
  specialize (He ltac:(lia)). cbn. case_bool_decide as Hb.
  - exists bs. apply He in Hb. unfold MaxUint64. split_and!; [done|lia|lia].
  - assert (Z.of_nat (length bs) < seq) as Hlt by (apply Z.nle_gt; by rewrite <-He).
    assert (at_least w1 n0) as (bs' & Hbs' & Hl & _) by (eapply at_least_stable; [|done]; by etrans).
    rewrite (is_log_unique p _ _ _ Hbs' Hbs) in Hl. split; [lia|].
    intros (bs'' & Hbs'' & Hl'' & _). rewrite (is_log_unique p _ _ _ Hbs'' Hbs) in Hl''. lia.
Qed.

(** What [List] reports of a log. *)
Lemma list_segments n w bs lo : ok n (store w) -> log_at w bs -> 0 <= lo <= Z.of_nat (length bs) ->
  exists objs, ListObjects None (p +:+ "/") (start_key p lo) headListLimit (store w) = Ok objs /\
    let k := Z.min headListLimit (Z.of_nat (length bs) - lo) in
    Z.of_nat (length objs) = k /\
    Key <$> last objs = if decide (k = 0) then None else Some (segmentKey p (lo + k)).
Proof.
  intros Hok Hbs Hlo. rewrite (list_ok _ _ _ _ _ Hok). eexists. split; [done|].
  destruct (listed_objects (view (store w)) (p +:+ "/") (start_key p lo) headListLimit) as [Hk _].
  rewrite (listed_log p _ bs lo Hbs Hlo) in *. set (objs := omap _ _) in *. clearbody objs.
  set (m := Z.of_nat (length bs) - lo) in *. intros k.
  assert (Key <$> objs = segmentKey p <$> seqZ (lo + 1) k) as Hkeys.
  { rewrite Hk. unfold limited, k. rewrite length_fmap, length_seqZ. case_decide as Hd.
    - unfold headListLimit in *. rewrite Z.min_l by lia. rewrite <-fmap_take. f_equal.
      replace m with (1000 + (m - 1000)) by lia.
      rewrite seqZ_app, take_app_exact; [done|by rewrite length_seqZ|lia..].
    - unfold headListLimit in *. rewrite Z.min_r by lia. done. }
  assert (0 <= k) by (unfold k, headListLimit; lia). clearbody k.
  pose proof (f_equal length Hkeys) as Hl. rewrite !length_fmap, length_seqZ in Hl. split; [lia|].
  rewrite <-fmap_last, Hkeys. case_decide as Hd.
  - by rewrite seqZ_nil by lia.
  - replace k with (Z.of_nat (Datatypes.S (Z.to_nat (k - 1)))) at 1 by lia.
    rewrite seqZ_S, fmap_app. simpl. rewrite last_snoc. do 2 f_equal. lia.
Qed.

Lemma head_safe l lo n0 w : prefix l = p -> 0 <= lo -> at_least w lo -> at_least w n0 ->
  safe faulty log_inv log_rel (head l lo) (head_post n0 lo) w.
Proof.
  intros Hp Hlo Hw Hn0. unfold head. rewrite Hp. fold (start_key p lo).
  eapply (safe_try _ _ _ _ _ (fun r w' => match r with
    | Ok objs => exists N, at_least w' N /\ n0 <= N /\ lo <= N < MaxUint64 /\
        let k := Z.min headListLimit (N - lo) in
        Z.of_nat (length objs) = k /\
        Key <$> last objs = if decide (k = 0) then None else Some (segmentKey p (lo + k))
    | Err e => err_ok e end)).
  - apply safe_read; [apply _|auto with cloudy| |done].
    intros n w1 HR (Hok & bs & Hbs & Hn & _). simpl.
    assert (forall m, at_least w m -> m <= Z.of_nat (length bs)) as Hle.
    { intros m (bs' & Hbs' & Hm & _)%(at_least_stable _ _ _ HR).
      by rewrite (is_log_unique p _ _ _ Hbs' Hbs) in Hm. }
    destruct (list_segments _ w1 bs lo Hok Hbs) as (objs & -> & Hl & Hlast); [auto|].
    exists (Z.of_nat (length bs)). split; [exists bs; split; [done|lia]|]. split_and!; auto. lia.
  - intros objs w1 HR (N & HN & Hn0N & HloN & Hl & Hlast).
    destruct (last objs) as [o|] eqn:Eo.
    + simpl in Hlast. case_decide; [done|]. injection Hlast as Hlast. rewrite Hlast.
      unfold headListLimit in *. unfold MaxUint64 in HloN.
      rewrite parseSeq_segmentKey by lia. unfold try_bind, lift. cbn [prog_bind].
      case_decide as Hlim.
      * cbn. split; [lia|split; [|lia]]. by eapply at_least_le; [|done]; lia.
      * eapply safe_weaken; [apply _| |eapply (jump_safe faulty log_inv log_rel
          (fun seq w => at_least w seq) err_ok n0 _ (fun seq => at_least_stable seq) w)].
        -- intros [[h c]|e] w2 HR2; cbn; [|done]. intros (? & ? & ? & ?). split; [lia|done].
        -- intros seq w' Hs Hw'. by apply (probe_segment_safe n0 w).
        -- unfold MaxUint64. lia.
        -- unfold MaxUint64. lia.
        -- done.
        -- by eapply at_least_le; [|done]; lia.
    + simpl in Hlast. case_decide; [|done]. unfold headListLimit in *.
      cbn. split; [lia|split; [|lia]]. by eapply at_least_le; [|done]; lia.
  - done.
Qed.

Lemma Tail_safe l n0 w : prefix l = p -> at_least w 0 -> at_least w n0 ->
  safe faulty log_inv log_rel (Tail l) (fun r w' => match r with
    | Ok h => 0 <= h /\ at_least w' h /\ n0 <= h | Err e => err_ok e end) w.
Proof.
  intros Hp Hz Hn0. unfold Tail. eapply safe_try; [apply _|by apply (head_safe l 0 n0)| |done].
  by intros [h c] w' HR.
Qed.

Lemma load_safe c (Q : Z -> world S -> Prop) w :
  (forall n w1, log_rel w w1 -> log_inv n w1 -> Q (cell w1 c) w1) ->
  safe faulty log_inv log_rel (call (OLoad c)) Q w.
Proof.
  intros HQ n w1 HR HI x w2 [[= <- <-]|[_ []]].
  split; [done|split; [reflexivity|by eapply HQ]].
Qed.

Lemma cell_set s cells c c' t :
  cell (MkWorld (S:=S) s (<[c := t]> cells)) c' =
    if decide (c = c') then t else cell (MkWorld s cells) c'.
Proof.
  unfold cell. simpl. case_decide as Hc; [subst; by rewrite lookup_insert_eq|].
  by rewrite lookup_insert_ne.
Qed.

(** The compare-and-swap loop raises the counter; every lost round means that
    another client raised it. *)
Lemma advance_safe fuel c t m w : c ∈ cs -> at_least w t -> 0 <= m <= cell w c ->
  safe faulty log_inv log_rel (advance fuel c t) (fun r w' => match r with
    | Ok _ => t <= cell w' c
    | Err e => e = OutOfFuel /\ (fuel = 0%nat \/ m + Z.of_nat fuel <= t) end) w.
Proof.
  intros Hc. revert m w. induction fuel as [|fuel IH]; intros m w Ht Hm; cbn [advance].
  { simpl. auto. }
  eapply safe_bind; [apply _|apply (load_safe c (fun curr w' => m <= curr <= cell w' c))|].
  { intros n w1 [_ HR] _. specialize (HR c Hc). lia. }
  intros curr w1 HR1 Hcurr. cbn beta in Hcurr. case_decide as Hle; [cbn [safe]; lia|].
  eapply (safe_bind _ _ _ _ _ (fun (b : bool) w' =>
    if b then t <= cell w' c else curr + 1 <= cell w' c)).
  { intros n w2 HR2 HI x w3 [Hex|[_ []]]. simpl in Hex.
    pose proof (at_least_stable t w w2 ltac:(by etrans) Ht) as (bs' & Hbs' & Hl & _).
    pose proof HR2 as [_ HC]. specialize (HC c Hc).
    case_decide as Hcell; injection Hex as <- <-.
    - destruct HI as (Hok & bs & Hbs & Hn & HC'). rewrite (is_log_unique p _ _ _ Hbs' Hbs) in Hl.
      split; [|split].
      + split; [done|]. exists bs. split_and!; [done|done|].
        intros c' Hc'. rewrite cell_set. specialize (HC' c' Hc').
        destruct w2. cbn in *. case_decide; [subst|]; lia.
      + split; [intros b Hb; exists []; by rewrite app_nil_r|].
        intros c' Hc'. rewrite cell_set. destruct w2. cbn in *.
        case_decide; [subst c'|]; lia.
      + cbn. rewrite cell_set, decide_True by done. lia.
    - split; [done|split; [reflexivity|]]. cbn [safe]. lia. }
  intros [] w2 HR2 HQ; [done|].
  eapply safe_weaken; [apply _| |apply (IH (curr + 1)); [|lia]].
  - intros [u|e] w3 _; [done|]. intros [-> He]. split; [done|]. right. lia.
  - eapply at_least_stable; [|done]. by etrans.
Qed.

Definition appended (payload : list byte) (n0 seq : Z) (w : world S) : Prop :=
  n0 < seq /\ exists bs, log_at w bs /\ bs !! Z.to_nat (seq - 1) = Some payload.

Lemma appended_stable payload n0 seq w w' :
  log_rel w w' -> appended payload n0 seq w -> appended payload n0 seq w'.
Proof.
  intros [HR _] (Hn & bs & Hbs & Hi). split; [done|].
  destruct (HR bs Hbs) as (new & Hnew & _). exists (bs ++ new). split; [done|].
  by apply lookup_app_l_Some.
Qed.

(** The conditional write: it appends exactly when [seq] is the next number,
    and a failed precondition means that segment [seq] exists. *)
Lemma put_segment_safe seq payload n0 w : slice_len payload -> allowed payload ->
  1 <= seq -> at_least w (seq - 1) -> at_least w n0 ->
  safe faulty log_inv log_rel (call (OPut (segmentKey p seq) payload IfAbsent))
    (fun r w' => match r with
      | Ok _ => appended payload n0 seq w' /\ at_least w' seq
      | Err e => e = ErrPreconditionFailed /\ at_least w' seq \/ err_ok e end) w.
Proof.
  intros Hlen Hall Hseq Hw Hn0. apply safe_call. intros n w1 HR HI.
  change (cost _ + n)%nat with (Datatypes.S n) in HI.
  assert (forall m, at_least w m -> at_least w1 m) as Hst by (intros m; by apply at_least_stable).
  destruct (Hst _ Hw) as (bs' & Hbs' & Hl' & Hmax). destruct (Hst _ Hn0) as (bs'' & Hbs'' & Hl'' & _).
  pose proof HI as (Hok & bs & Hbs & Hn & HC). unfold MaxUint64 in *.
  rewrite (is_log_unique p _ _ _ Hbs' Hbs) in Hl'. rewrite (is_log_unique p _ _ _ Hbs'' Hbs) in Hl''.
  clear bs' bs'' Hbs' Hbs''.
  pose proof (is_log_exists p _ bs seq Hbs ltac:(lia)) as Hex.
  assert (forall x w2, exec (OPut (segmentKey p seq) payload IfAbsent) w1 = (x, w2) ->
    log_inv n w2 /\ log_rel w1 w2 /\ at_least w2 seq /\
    ((exists g, x = Ok g) /\ appended payload n0 seq w2 \/ x = Err ErrPreconditionFailed)) as Hput.
  { intros x w2. cbn [exec]. destruct (decide (seq <= Z.of_nat (length bs))) as [Hle|Hgt].
    - rewrite (put_absent_exists _ _ _ _ Hok) by (by apply Hex). intros [= <- <-].
      destruct w1 as [s1 c1]. simpl in *. split; [by apply log_inv_weaken|split; [reflexivity|]].
      split; [|by right]. exists bs. unfold MaxUint64. split; [done|lia].
    - destruct (put_accepted _ _ (segmentKey p seq) payload IfAbsent Hok (segmentKey_ne _ _) Hlen)
        as (g & s' & -> & Hok' & Hv & _).
      { left. split; [done|]. apply eq_None_not_Some. by rewrite Hex. }
      intros [= <- <-]. assert (seq = Z.of_nat (length bs) + 1) as -> by lia.
      assert (log_at (MkWorld s' (cells w1)) (bs ++ [payload])) as Hbs2.
      { unfold log_at. simpl. rewrite Hv. apply is_log_append; [done|lia]. }
      split; [|split; [|split]].
      + split; [done|]. exists (bs ++ [payload]). rewrite length_app. unfold MaxUint64. simpl.
        split; [done|]. split; [lia|]. intros c Hc. specialize (HC c Hc). unfold cell in *. simpl. lia.
      + split; [|done]. intros b Hb. exists [payload]. 
        rewrite (is_log_unique p _ _ _ Hb Hbs). auto.
      + exists (bs ++ [payload]). rewrite length_app. unfold MaxUint64. simpl. split; [done|lia].
      + left. split; [by exists g|]. split; [lia|]. exists (bs ++ [payload]). split; [done|].
        replace (Z.to_nat _) with (length bs) by lia. by rewrite lookup_app_r, Nat.sub_diag by lia. }
  intros x w2 [E|[Hf [(e & He & -> & ->)|[[g E] He]]]].
  - destruct (Hput x w2 E) as (? & ? & ? & [[[g ->] ?]| ->]); auto.
  - split; [by apply log_inv_weaken|split; [reflexivity|]]. right. by split.
  - destruct (Hput _ w2 E) as (? & ? & ? & [[_ ?]|?]); [|done]. split; [done|split; [done|]].
    destruct x as [?|e]; [done|]. destruct He as [He|[-> _]]; [right; by split|by left].
Qed.

Definition append_post (payload : list byte) (n0 fuel : Z) (r : res Z) (w : world S) : Prop :=
  match r with
  | Ok seq => appended payload n0 seq w
  | Err e => err_ok e \/ e = OutOfFuel /\ at_least w fuel
  end.

Lemma append_post_stable payload n0 fuel : stable log_rel (append_post payload n0 fuel).
Proof.
  intros [seq|e] w w' HR; cbn; [by apply appended_stable|].
  intros [?|[? ?]]; [by left|right]. split; [done|]. by eapply at_least_stable.
Qed.

Lemma append_loop_safe cf fuel l payload seq n0 w : prefix l = p -> lastKnown l ∈ cs ->
  slice_len payload -> allowed payload -> 1 <= seq -> at_least w (seq - 1) -> at_least w n0 ->
  0 <= cell w (lastKnown l) ->
  safe faulty log_inv log_rel (append_loop cf fuel l payload seq)
    (append_post payload n0 (Z.min (Z.of_nat cf) (seq - 1 + Z.of_nat fuel))) w.
Proof.
  intros Hp Hc Hlen Hall. revert seq w.
  induction fuel as [|fuel IH]; intros seq w Hseq Hw Hn0 Hcell; cbn [append_loop].
  { right. split; [done|]. eapply at_least_le; [|exact Hw]. lia. }
  rewrite Hp. eapply safe_bind; [apply _|by apply (put_segment_safe seq payload n0)|].
  intros [g|e] w1 HR1.
  - intros [Happ Hal]. eapply safe_try; [apply _|apply (advance_safe cf _ seq 0); [done|done|]| |].
    + destruct HR1 as [_ HR1]. specialize (HR1 _ Hc). lia.
    + intros _ w2 HR2 _. by eapply appended_stable.
    + intros e w2 HR2 [-> He]. right. split; [done|]. eapply at_least_stable; [done|].
      eapply at_least_le; [|exact Hal]. lia.
  - intros Hcase. destruct (errors_Is e ErrPreconditionFailed) eqn:Ee.
    + assert (at_least w1 seq) as Hal.
      { apply bool_decide_eq_true in Ee as ->. by destruct Hcase as [[_ ?]|[_ []]]. }
      eapply safe_try; [apply _|apply (head_safe l seq n0); [done|lia|done|]| |by left].
      { by eapply at_least_stable. }
      intros [h c] w2 HR2 (Hh & Hah & Hn). pose proof Hah as (bs & _ & _ & Hmax).
      unfold MaxUint64 in Hmax. rewrite u64_small by (split; lia).
      eapply safe_weaken; [apply _| |apply (IH (h + 1));
        [lia|by replace (h + 1 - 1) with h by lia|by eapply at_least_le; [|exact Hah]|]].
      * intros [s|e'] w3 HR3; cbn; [done|]. intros [?|[-> ?]]; [by left|right]. split; [done|].
        eapply at_least_le; [|done]. lia.
      * destruct HR1 as [_ HR1], HR2 as [_ HR2]. specialize (HR1 _ Hc). specialize (HR2 _ Hc). lia.
    + destruct Hcase as [[-> _]|He]; [done|]. by left.
Qed.

Lemma Append_safe fuel l records n0 w : prefix l = p -> lastKnown l ∈ cs ->
  records <> [] -> slice_len (frames records) -> allowed (frames records) ->
  0 <= n0 -> at_least w n0 -> 0 <= cell w (lastKnown l) ->
  safe faulty log_inv log_rel (Append fuel l records)
    (append_post (frames records) n0 (Z.of_nat fuel)) w.
Proof.
  intros Hp Hc Hne Hlen Hall Hz Hn0 Hcell. unfold Append. rewrite decide_False by done.
  rewrite encode_records_ok. unfold try_bind at 1, lift. cbn [prog_bind].
  eapply safe_bind; [apply _|apply (load_safe _ (fun x _ => 0 <= x))|].
  { intros n w1 [_ HR] _. specialize (HR _ Hc). lia. }
  intros known w1 HR1 _. assert (0 <= cell w1 (lastKnown l)) as Hcell1
    by (destruct HR1 as [_ HR1]; specialize (HR1 _ Hc); lia).
  eapply (safe_try _ _ _ _ _ (fun (r : res unit) w' =>
    match r with Ok _ => True | Err e => err_ok e \/ e = OutOfFuel /\ at_least w' (Z.of_nat fuel) end)).
  - assert (at_least w1 n0) as Hn1 by (by eapply at_least_stable).
    case_decide; [|done].
    eapply safe_try; [apply _|apply (Tail_safe l n0); [done|exact (at_least_le n0 0 w1 Hz Hn1)|done]| |].
    + intros t w2 HR2 (Ht & Hat & _). eapply safe_weaken; [apply _| |apply (advance_safe fuel _ t 0)].
      * intros [u|e] w3 HR3; [done|]. intros [-> He]. right. split; [done|].
        eapply at_least_stable; [done|]. eapply at_least_le; [|exact Hat]. lia.
      * done.
      * done.
      * destruct HR2 as [_ HR2]. specialize (HR2 _ Hc). lia.
    + intros e w2 _ He. by left.
  - intros _ w2 HR2 _.
    eapply safe_bind; [apply _|apply (load_safe _ (fun x w' =>
      0 <= x /\ at_least w' x /\ 0 <= cell w' (lastKnown l)))|].
    { intros n w3 HR3 (_ & bs & Hbs & Hn & HC). specialize (HC _ Hc).
      split_and!; [lia| |lia]. exists bs. unfold MaxUint64 in *. split; [done|lia]. }
    intros x w3 HR3 (Hx & Hax & Hcell3). pose proof Hax as (bs & _ & _ & Hmax).
    unfold MaxUint64 in Hmax. rewrite u64_small by (split; lia).
    eapply safe_weaken; [apply _| |apply (append_loop_safe fuel fuel l _ (x + 1) n0); try done].
    + intros [s|e] w4 HR4; cbn; [done|]. intros [?|[-> ?]]; [by left|right]. split; [done|].
      eapply at_least_le; [|done]. lia.
    + lia.
    + by replace (x + 1 - 1) with x by lia.
    + eapply at_least_stable; [|done]. etrans; [done|]. by etrans.
  - intros [] w2 HR2; tauto || done.
Qed.

End Concurrent.

(** ** Undisturbed calls *)
Section Sequential.
Context {S : Type} `{StoreLaws S}.

Lemma bisect_reading fuel p low high probes :
  reading (S:=S) (bisect fuel (probe_segment p) low high probes).
Proof.
  revert low high probes. induction fuel as [|fuel IH]; intros; cbn [bisect]; case_decide; [done..| |done].
  apply reading_try; [apply reading_call; auto with cloudy|]. intros []; apply IH.
Qed.

Lemma gallop_reading fuel p step low high probes :
  reading (S:=S) (gallop fuel (probe_segment p) step low high probes).
Proof.
  revert step low high probes. induction fuel as [|fuel IH]; intros; cbn [gallop]; [done|].
  destruct (if decide _ then _ else _) as [high' step'].
  apply reading_try; [apply reading_call; auto with cloudy|].
  intros []; [case_decide; [done|apply IH]|apply bisect_reading].
Qed.

Lemma head_reading l lo : reading (S:=S) (head l lo).
Proof.
  apply reading_try; [apply reading_call; auto with cloudy|]. intros objs.
  destruct (last objs) as [o|]; [|done]. apply reading_try; [done|]. intros last.
  case_decide; [done|]. unfold jump. case_decide; [done|].
  apply reading_try; [apply reading_call; auto with cloudy|].
  intros []; [apply gallop_reading|done].
Qed.

(** [head] is exact when nobody else appends. *)
Lemma run_head l lo n w bs : ok n (store w) -> is_log (prefix l) (view (store w)) bs ->
  Z.of_nat (length bs) + Z.of_nat n < MaxUint64 -> 0 <= lo <= Z.of_nat (length bs) ->
  exists c, run (head l lo) w = (Ok (Z.of_nat (length bs), c), w).
Proof.
  intros Hok Hbs Hn Hlo. unfold MaxUint64 in Hn.
  assert (forall m, m <= Z.of_nat (length bs) -> at_least (prefix l) w m) as Hal.
  { intros m Hm. exists bs. unfold MaxUint64. split; [done|lia]. }
  pose proof (head_safe false (prefix l) [] (fun _ => True) l lo (Z.of_nat (length bs)) w
    eq_refl ltac:(lia) ltac:(apply Hal; lia) ltac:(apply Hal; lia)) as Hs.
  destruct (run (head l lo) w) as [r w'] eqn:E.
  assert (log_inv (prefix l) [] n w) as HI.
  { split; [done|]. exists bs. unfold MaxUint64. split_and!; [done|lia|]. by intros c ?%elem_of_nil. }
  pose proof (log_rel_preorder (S:=S) (prefix l) [] (fun _ => True)).
  destruct (run_safe _ _ _ _ _ n _ _ _ (head_reading l lo) Hs HI E) as [HQ ->].
  destruct r as [[h c]|e]; [|by destruct HQ]. destruct HQ as (_ & (bs' & Hbs' & Hle & _) & Hge).
  rewrite (is_log_unique _ _ _ _ Hbs' Hbs) in Hle. exists c. repeat f_equal. lia.
Qed.

Lemma run_advance fuel c t (w : world S) :
  exists cs, run (advance (Datatypes.S fuel) c t) w = (Ok tt, MkWorld (store w) cs) /\
    default 0 (cs !! c) = Z.max t (cell w c) /\
    forall c', c' <> c -> cs !! c' = cells w !! c'.
Proof.
  destruct w as [s cs]. cbn [advance run mbind prog_mbind prog_bind call exec].
  case_decide as Ht; cbn [run prog_bind exec].
  - exists cs. split; [done|]. unfold cell in *. simpl in *. split; [lia|done].
  - rewrite decide_True by done. exists (<[c := t]> cs). split; [done|]. unfold cell in *. simpl in *.
    rewrite lookup_insert_eq. split; [simpl; lia|]. intros c' Hc. by rewrite lookup_insert_ne.
Qed.

(** One round of the retry loop, at the end of the log or behind it. *)
Lemma run_append_loop cf fuel l payload seq n w bs :
  ok (Datatypes.S n) (store w) -> is_log (prefix l) (view (store w)) bs -> slice_len payload ->
  Z.of_nat (length bs) + Z.of_nat (Datatypes.S n) < MaxUint64 ->
  1 <= seq <= Z.of_nat (length bs) + 1 ->
  exists w', run (append_loop (Datatypes.S cf) (Datatypes.S (Datatypes.S fuel)) l payload seq) w
      = (Ok (Z.of_nat (length bs) + 1), w') /\
    ok n (store w') /\ is_log (prefix l) (view (store w')) (bs ++ [payload]) /\
    cell w' (lastKnown l) = Z.max (Z.of_nat (length bs) + 1) (cell w (lastKnown l)) /\
    forall k, HasPrefix k (prefix l +:+ "/") = false -> view (store w') !! k = view (store w) !! k.
Proof.
  intros Hok Hbs Hlen Hn Hseq. unfold MaxUint64 in Hn.
  assert (forall f, exists w',
    run (append_loop (Datatypes.S cf) (Datatypes.S f) l payload (Z.of_nat (length bs) + 1)) w
      = (Ok (Z.of_nat (length bs) + 1), w') /\
    ok n (store w') /\ is_log (prefix l) (view (store w')) (bs ++ [payload]) /\
    cell w' (lastKnown l) = Z.max (Z.of_nat (length bs) + 1) (cell w (lastKnown l)) /\
    forall k, HasPrefix k (prefix l +:+ "/") = false -> view (store w') !! k = view (store w) !! k) as Hnext.
  { intros f. cbn [append_loop]. unfold mbind, prog_mbind. rewrite run_bind. cbn [run call exec].
    destruct (put_accepted n _ (segmentKey (prefix l) (Z.of_nat (length bs) + 1)) payload IfAbsent Hok (segmentKey_ne _ _) Hlen)
      as (g & s' & -> & Hok' & Hv & _).
    { left. split; [done|]. apply eq_None_not_Some.
      rewrite (is_log_exists (prefix l) _ bs); [lia|done|lia]. }
    rewrite run_try. destruct (run_advance cf (lastKnown l) (Z.of_nat (length bs) + 1)
      (MkWorld s' (cells w))) as (cs & -> & Hc & _).
    eexists. split; [done|]. split; [done|]. simpl. rewrite Hv. split; [apply is_log_append; [done|lia]|].
    split; [done|]. intros k Hk. apply lookup_insert_ne. intros <-. by rewrite segmentKey_prefix in Hk. }
  destruct (decide (seq = Z.of_nat (length bs) + 1)) as [->|Hne]; [apply Hnext|].
  cbn [append_loop]. unfold mbind, prog_mbind. rewrite run_bind. cbn [run call exec].
  rewrite (put_absent_exists _ _ _ _ Hok); [|eapply is_log_exists; [done|lia..]].
  replace (MkWorld (store w) (cells w)) with w by (by destruct w).
  unfold errors_Is. rewrite bool_decide_eq_true_2 by done.
  rewrite run_try. destruct (run_head l seq (Datatypes.S n) w bs Hok Hbs) as (c & ->);
    [unfold MaxUint64; lia|lia|].
  rewrite u64_small by (split; lia). apply Hnext.
Qed.

Lemma run_Append fuel l records n w bs :
  records <> [] -> slice_len (frames records) ->
  ok (Datatypes.S n) (store w) -> is_log (prefix l) (view (store w)) bs ->
  Z.of_nat (length bs) + Z.of_nat (Datatypes.S n) < MaxUint64 ->
  0 <= cell w (lastKnown l) <= Z.of_nat (length bs) ->
  exists w', run (Append (Datatypes.S (Datatypes.S fuel)) l records) w
      = (Ok (Z.of_nat (length bs) + 1), w') /\
    ok n (store w') /\ is_log (prefix l) (view (store w')) (bs ++ [frames records]) /\
    cell w' (lastKnown l) = Z.of_nat (length bs) + 1 /\
    forall k, HasPrefix k (prefix l +:+ "/") = false -> view (store w') !! k = view (store w) !! k.
Proof.
  intros Hne Hlen Hok Hbs Hn Hc. unfold Append. rewrite decide_False by done.
  rewrite encode_records_ok. unfold try_bind at 1, lift. cbn [prog_bind].
  unfold mbind, prog_mbind. rewrite run_bind. cbn [run call exec]. rewrite run_try.
  assert (exists w1, run (if decide (cell w (lastKnown l) = 0)
      then try_bind (Tail l) (fun t => advance (Datatypes.S (Datatypes.S fuel)) (lastKnown l) t)
      else Ret (Ok ())) w = (Ok tt, w1) /\ store w1 = store w /\
      0 <= cell w1 (lastKnown l) <= Z.of_nat (length bs)) as (w1 & -> & Hs & Hc1).
  { case_decide; [|by exists w]. rewrite run_try. unfold Tail. rewrite run_try.
    destruct (run_head l 0 _ w bs Hok Hbs Hn ltac:(lia)) as (c & ->). cbn [run].
    destruct (run_advance (Datatypes.S fuel) (lastKnown l) (Z.of_nat (length bs)) w)
      as (cs & -> & Hcs & _).
    eexists. split; [done|]. split; [done|]. unfold cell in *. simpl in *. lia. }
  rewrite run_bind. cbn [run call exec]. unfold MaxUint64 in Hn.
  rewrite u64_small by (split; lia). rewrite <-Hs in *.
  destruct (run_append_loop (Datatypes.S fuel) fuel l (frames records) (cell w1 (lastKnown l) + 1)
    n w1 bs Hok Hbs Hlen Hn ltac:(lia)) as (w' & -> & ? & ? & Hcell & ?).
  exists w'. split_and!; [done|done|done|lia|done].
Qed.

End Sequential.

(** What [Read] returns of a log: the segment's records, or the end. *)
Lemma run_Read {S} `{StoreLaws S} l n (w : world S) bs seq : ok n (store w) ->
  is_log (prefix l) (view (store w)) bs -> 1 <= seq < 2 ^ 64 ->
  run (Read l seq) w =
    (match bs !! Z.to_nat (seq - 1) with
     | Some d => scan_segment d
     | None => Err ErrEndOfStream end, w).
Proof.
  intros Hok Hbs Hs. unfold Read. rewrite decide_False by lia.
  unfold mbind, prog_mbind. rewrite run_bind. cbn [run call exec]. rewrite (get_ok _ _ _ Hok).
  destruct (bs !! Z.to_nat (seq - 1)) as [d|] eqn:E.
  - destruct Hbs as (_ & Hin & _). apply Hin in E.
    replace (Z.of_nat (Z.to_nat (seq - 1)) + 1) with seq in E by lia.
    destruct (view (store w) !! segmentKey (prefix l) seq) as [e|]; [|done].
    by injection E as <-.
  - apply lookup_ge_None in E.
    destruct (view (store w) !! segmentKey (prefix l) seq) as [e|] eqn:Ee; [|done].
    pose proof (proj1 (is_log_exists (prefix l) _ bs seq Hbs Hs)) as Hex.
    rewrite Ee in Hex. specialize (Hex ltac:(eauto)). lia.
Qed.

Lemma scan_segment_frames rs : Forall (fits Crc.DefaultMaxRecordSize) rs ->
  slice_len (frames rs) -> scan_segment (frames rs) = Ok rs.
Proof.
  intros Hf Hl. unfold scan_segment.
  destruct (scan_all _) as [rs' s'] eqn:E. apply scan_all_spec in E as [E _]; [|apply NewScanner_ready].
  rewrite NewScanner_stream, NewScanner_send in E. unfold src_stream in E. cbn [src_chunks src_end mjoin list_join] in E.
  rewrite app_nil_r in E. rewrite <-(app_nil_r (frames rs)) in E.
  rewrite parse_stream_frames, parse_stream_nil, app_nil_r in E by done.
  injection E as <- He. unfold Err_. by rewrite He.
Qed.

(** ** Claims *)

(** Segment keys are faithful: [parseSeq] inverts [segmentKey] for every
    sequence number, and keys compare, as the store's listing compares
    them, the way their numbers do. *)
Theorem segment_keys p a b : 0 < a < 2 ^ 64 -> 0 < b < 2 ^ 64 ->
  parseSeq (segmentKey p a) = Ok a /\ (str_lt (segmentKey p a) (segmentKey p b) <-> a < b).
Proof.
  intros Ha Hb. split; [by apply parseSeq_segmentKey|]. apply segmentKey_lt; split; lia.
Qed.

Lemma pure_reading {S} `{Store S} (f : Z -> bool) lo :
  reading (S:=S) (jump lo (fun seq => Ret (Ok (f seq)))).
Proof.
  assert (forall fuel low high probes,
    reading (S:=S) (bisect fuel (fun seq => Ret (Ok (f seq))) low high probes)) as Hb.
  { induction fuel as [|fuel IH]; intros; cbn [bisect]; case_decide; try done.
    apply reading_try; [done|]. intros []; apply IH. }
  assert (forall fuel step low high probes,
    reading (S:=S) (gallop fuel (fun seq => Ret (Ok (f seq))) step low high probes)) as Hg.
  { induction fuel as [|fuel IH]; intros; cbn [gallop]; [done|].
    destruct (if decide _ then _ else _) as [high' step'].
    apply reading_try; [done|]. intros []; [case_decide; [done|apply IH]|apply Hb]. }
  unfold jump. case_decide; [done|]. apply reading_try; [done|]. by intros []; [apply Hg|].
Qed.

(** C25. The galloping search is exact and logarithmic: on a log of [N]
    segments, started at any existing [lo], [jump] returns [N] after at most
    [2 log2 (N - lo + 1) + 1] probes; its loops never run out of fuel and
    its 64-bit arithmetic never wraps, up to [N = 2^64 - 1]. *)
Theorem jump_exact lo N (w : world Mem.memStore) : 0 <= lo <= N -> N <= MaxUint64 ->
  exists c, run (jump lo (fun seq => Ret (Ok (bool_decide (seq <= N))))) w = (Ok (N, c), w) /\
    c <= 2 * Z.log2 (N - lo + 1) + 1.
Proof.
  intros Hlo HN. destruct (run _ w) as [r w'] eqn:E.
  assert (PreOrder (fun _ _ : world Mem.memStore => True)) by (by split).
  assert (safe true (fun _ _ => True) (fun _ _ => True)
    (jump lo (fun seq => Ret (Ok (bool_decide (seq <= N)))))
    (jump_post (fun seq _ => seq <= N) (fun _ => False) N lo (probe_bound lo)) w) as Hs.
  { apply jump_safe with (w0 := w); [done|done| |done|lia|done|lia].
    intros seq w1 _ _. simpl. case_bool_decide; simpl; lia. }
  eapply run_safe in E as [HQ ->]; [|done|apply pure_reading|exact Hs|exact I].
  destruct r as [[h c]|e]; [|done]. destruct HQ as (H1 & H2 & H3 & H4).
  assert (h = N) as -> by lia. by exists c.
  Unshelve. exact 0%nat.
Qed.

(** C8. Concurrent appends, with failures.  Any number of clients append to
    one log, each step of the run being one store call or counter operation
    of one client; calls may fail, with or without having taken effect.
    Whatever the interleaving, the directory is at every moment a log that
    extends the initial one: the segments 1..N without a gap, none changed
    or removed, each new one a batch some client appended.  A client that
    returned [seq] finds its batch at [seq], after everything that was in
    the log when it started; one that returned an error had a call fail
    (impossible when [faulty] is false) or lost more rounds than its fuel,
    each of which another client's segment won. *)
Theorem log_concurrent {S} `{StoreLaws S} (faulty : bool) (p : string) fuel
    (clients : list (Log * list LRecord)) n (w : world S) bs ts n' w' :
  Forall (fun '(l, rs) => prefix l = p /\ rs <> [] /\ slice_len (frames rs) /\
            0 <= cell w (lastKnown l) <= Z.of_nat (length bs)) clients ->
  ok n (store w) -> is_log p (view (store w)) bs ->
  Z.of_nat (length bs) + Z.of_nat n < MaxUint64 ->
  rtc (pstep faulty) ((fun '(l, rs) => Append fuel l rs) <$> clients, (n, w)) (ts, (n', w')) ->
  exists new, is_log p (view (store w')) (bs ++ new) /\
    Forall (fun b => exists l rs, (l, rs) ∈ clients /\ b = frames rs) new /\
    forall i l rs r, clients !! i = Some (l, rs) -> ts !! i = Some (Ret r) ->
      match r with
      | Ok seq => Z.of_nat (length bs) < seq /\
                  (bs ++ new) !! Z.to_nat (seq - 1) = Some (frames rs)
      | Err e => faulty = true /\ transient e \/
                 e = OutOfFuel /\ Z.of_nat fuel <= Z.of_nat (length (bs ++ new))
      end.
Proof.
  intros Hcl Hok Hbs Hn Hsteps.
  set (allowed := fun b => exists l rs, (l, rs) ∈ clients /\ b = frames rs).
  set (cs := (fun c : Log * list LRecord => lastKnown c.1) <$> clients).
  set (Qs := (fun c : Log * list LRecord =>
    append_post faulty p (frames c.2) (Z.of_nat (length bs)) (Z.of_nat fuel) (S:=S)) <$> clients).
  assert (log_inv p cs n w) as HI.
  { split; [done|]. exists bs. split_and!; [done|done|]. intros c Hc.
    apply list_elem_of_fmap in Hc as ([l rs] & -> & Hc).
    rewrite Forall_forall in Hcl. by destruct (Hcl _ Hc) as (_ & _ & _ & ?). }
  pose proof (log_rel_preorder p cs allowed (S:=S)) as HPO.
  assert (Forall (stable (log_rel p cs allowed)) Qs) as HQs
    by (apply Forall_fmap, Forall_true; intros [l rs]; apply append_post_stable).
  assert (pool_safe faulty (log_inv p cs) (log_rel p cs allowed)
    ((fun '(l, rs) => Append fuel l rs) <$> clients) Qs w) as Hpool.
  { apply Forall2_fmap, Forall_Forall2_diag, Forall_forall. intros [l rs] Hin.
    rewrite Forall_forall in Hcl. destruct (Hcl _ Hin) as (Hp & Hne & Hl & Hc).
    unfold MaxUint64 in Hn. apply Append_safe; [done| |done|done| |lia| |lia].
    - apply list_elem_of_fmap. by exists (l, rs).
    - by exists l, rs.
    - exists bs. unfold MaxUint64. split; [done|lia]. }
  destruct (pool_steps _ _ _ _ _ _ _ _ _ _ HQs Hpool HI Hsteps) as (HI' & [HR _] & Hts).
  destruct (HR bs Hbs) as (new & Hnew & Hall). exists new. split; [done|split; [done|]].
  intros i l rs r Hi Hr.
  assert (Qs !! i = Some (append_post faulty p (frames rs) (Z.of_nat (length bs)) (Z.of_nat fuel))) as HQ
    by (unfold Qs; rewrite list_lookup_fmap; exact (f_equal (fmap _) Hi)).
  pose proof (Forall2_lookup_lr _ _ _ _ _ _ Hts Hr HQ) as HQr. cbn in HQr.
  destruct r as [seq|e].
  + destruct HQr as (Hlt & bs' & Hbs' & Hb). split; [done|].
    by rewrite <-(is_log_unique p _ _ _ Hbs' Hnew).
  + destruct HQr as [?|[-> (bs' & Hbs' & Hle & _)]]; [by left|right].
    by rewrite <-(is_log_unique p _ _ _ Hbs' Hnew).
Qed.

(** C13. Append, then read back: an undisturbed [Append] takes the next number
    in at most two rounds, whether the counter is unset, stale or exact;
    [Read] at that number returns the records, [Read] past it reports the
    end of the stream, and the other segments still read as before. *)
Theorem append_read {S} `{StoreLaws S} fuel l records n (w : world S) bs :
  records <> [] -> Forall (fits Crc.DefaultMaxRecordSize) records -> slice_len (frames records) ->
  ok (Datatypes.S n) (store w) -> is_log (prefix l) (view (store w)) bs ->
  Z.of_nat (length bs) + Z.of_nat (Datatypes.S n) < MaxUint64 ->
  0 <= cell w (lastKnown l) <= Z.of_nat (length bs) ->
  let N := Z.of_nat (length bs) in
  exists w', run (Append (2 + fuel) l records) w = (Ok (N + 1), w') /\
    cell w' (lastKnown l) = N + 1 /\
    run (Tail l) w' = (Ok (N + 1), w') /\
    run (Read l (N + 1)) w' = (Ok records, w') /\
    run (Read l (N + 2)) w' = (Err ErrEndOfStream, w') /\
    forall seq, 1 <= seq <= N -> (run (Read l seq) w').1 = (run (Read l seq) w).1.
Proof.
  intros Hne Hf Hlen Hok Hbs Hn Hc N.
  destruct (run_Append fuel l records n w bs Hne Hlen Hok Hbs Hn Hc) as (w' & Hrun & Hok' & Hbs' & Hc' & _).
  unfold MaxUint64 in Hn.
  assert (length (bs ++ [frames records]) = Datatypes.S (length bs)) as Hl
    by (rewrite length_app; simpl; lia).
  exists w'. split; [done|]. split; [done|]. split; [|split; [|split]].
  - unfold Tail. rewrite run_try. destruct (run_head l 0 n w' _ Hok' Hbs') as (c & ->);
      [unfold MaxUint64; lia|lia|]. cbn [run]. repeat f_equal. lia.
  - rewrite (run_Read l n w' _ (N + 1) Hok' Hbs') by lia.
    replace (Z.to_nat (N + 1 - 1)) with (length bs) by lia.
    rewrite lookup_app_r, Nat.sub_diag by lia. cbn. by rewrite scan_segment_frames.
  - rewrite (run_Read l n w' _ (N + 2) Hok' Hbs') by lia. by rewrite lookup_ge_None_2 by lia.
  - intros seq Hs. rewrite (run_Read l n w' _ seq Hok' Hbs'), (run_Read l _ w _ seq Hok Hbs) by lia.
    by rewrite lookup_app_l by lia.
Qed.

Lemma scan_segment_oversized rs1 r rs2 : Forall (fits Crc.DefaultMaxRecordSize) rs1 ->
  Crc.DefaultMaxRecordSize < Z.of_nat (length r) < 2 ^ 63 ->
  scan_segment (frames (rs1 ++ r :: rs2)) = Err ErrRecordTooLarge.
Proof.
  intros Hf Hr. unfold scan_segment.
  destruct (scan_all _) as [rs' s'] eqn:E. apply scan_all_spec in E as [E _]; [|apply NewScanner_ready].
  rewrite NewScanner_stream, NewScanner_send in E. unfold src_stream in E.
  cbn [src_chunks src_end mjoin list_join] in E.
  assert (is_u64 (Z.of_nat (length r))) by (split; unfold Crc.DefaultMaxRecordSize in Hr; lia).
  rewrite app_nil_r, frames_app, frames_cons, parse_stream_frames, parse_stream_unfold in E by done.
  unfold frame in E. rewrite <-!app_assoc, u64_small, parse_frame_good_header in E by done.
  rewrite decide_True in E by apply Hr. injection E as _ He. unfold Err_. by rewrite He.
Qed.

(** The write path does not enforce the read path's limit: a batch with a
    record of more than [DefaultMaxRecordSize] (64 MiB) is appended and
    numbered like any other, and every [Read] of that number fails with
    [ErrRecordTooLarge], whatever else the batch holds. *)
Theorem append_oversized {S} `{StoreLaws S} fuel l rs1 r rs2 n (w : world S) bs :
  Forall (fits Crc.DefaultMaxRecordSize) rs1 ->
  Crc.DefaultMaxRecordSize < Z.of_nat (length r) < 2 ^ 63 ->
  slice_len (frames (rs1 ++ r :: rs2)) ->
  ok (Datatypes.S n) (store w) -> is_log (prefix l) (view (store w)) bs ->
  Z.of_nat (length bs) + Z.of_nat (Datatypes.S n) < MaxUint64 ->
  0 <= cell w (lastKnown l) <= Z.of_nat (length bs) ->
  exists seq w', run (Append (2 + fuel) l (rs1 ++ r :: rs2)) w = (Ok seq, w') /\
    run (Read l seq) w' = (Err ErrRecordTooLarge, w').
Proof.
  intros Hf Hr Hlen Hok Hbs Hn Hc.
  destruct (run_Append fuel l (rs1 ++ r :: rs2) n w bs) as (w' & Hrun & Hok' & Hbs' & _); try done.
  { by destruct rs1. }
  exists (Z.of_nat (length bs) + 1), w'. split; [done|]. unfold MaxUint64 in Hn.
  rewrite (run_Read l n w' _ _ Hok' Hbs') by lia.
  replace (Z.to_nat (Z.of_nat (length bs) + 1 - 1)) with (length bs) by lia.
  rewrite lookup_app_r, Nat.sub_diag by lia. cbn [lookup list_lookup].
  by rewrite scan_segment_oversized.
Qed.

(** ** Witnesses *)
Lemma segment_keys_witness :
  parseSeq (segmentKey "t/wal" 9) = Ok 9 /\
  (str_lt (segmentKey "t/wal" 9) (segmentKey "t/wal" 10) <-> 9 < 10).
Proof. apply segment_keys; lia. Defined.

Definition ex_world : world Mem.memStore := MkWorld Mem.newMemStore ∅.

Lemma jump_exact_witness : exists c,
  run (jump 5 (fun seq => Ret (Ok (bool_decide (seq <= MaxUint64))))) ex_world
    = (Ok (MaxUint64, c), ex_world) /\
  c <= 2 * Z.log2 (MaxUint64 - 5 + 1) + 1.
Proof. apply (jump_exact 5 MaxUint64 ex_world); unfold MaxUint64; lia. Defined.

Lemma empty_log p : is_log p (view (Mem.newMemStore)) [].
Proof.
  split; [done|split; [done|]]. intros k [e He]. cbn in He. by rewrite lookup_empty in He.
Qed.

Definition ex_log : Log := MkLog "t/wal" 0.
Definition ex_batch : list LRecord := [[x61; x62]; []].

(** Two clients of one process race for segment 1: both find the log empty,
    one wins, the other meets the failed precondition, lists, and takes 2. *)
Definition ex_clients : list (Log * list LRecord) := [(ex_log, ex_batch); (ex_log, [[x63]])].
Definition ex_sched : list nat := [0; 1; 0; 1; 0; 1; 0; 1; 0; 1; 0; 1; 0; 1; 1; 1]%nat.

Lemma ex_race_runs : (fun c => results c.1) <$>
    interleave ex_sched ((fun '(l, rs) => Append 9 l rs) <$> ex_clients) 20 ex_world
  = Some [Some (Ok 1); Some (Ok 2)].
Proof. vm_compute. reflexivity. Qed.

Lemma ex_clients_ok : Forall (fun '(l, rs) => prefix l = "t/wal" /\ rs <> [] /\
  slice_len (frames rs) /\ 0 <= cell ex_world (lastKnown l) <= Z.of_nat (length (@nil (list byte)))) ex_clients.
Proof.
  assert (forall rs, Z.of_nat (length (frames rs)) < 100 -> slice_len (frames rs)) as Hl
    by (intros rs Hrs; unfold slice_len; lia).
  repeat constructor; try done; apply Hl; vm_compute; reflexivity.
Qed.

Lemma log_concurrent_witness : exists ts n' w' new,
  interleave ex_sched ((fun '(l, rs) => Append 9 l rs) <$> ex_clients) 20 ex_world = Some (ts, (n', w')) /\
  results ts = [Some (Ok 1); Some (Ok 2)] /\
  is_log "t/wal" (view (store w')) ([] ++ new).
Proof.
  pose proof ex_race_runs as Hr. destruct (interleave _ _ _ _) as [[ts [n' w']]|] eqn:E; [|discriminate Hr].
  injection Hr as Hr. pose proof (interleave_steps false _ _ _ _ _ E) as Hst.
  apply (log_concurrent false "t/wal" 9 ex_clients 20 ex_world []) in Hst as (new & Hnew & _).
  - exists ts, n', w', new. split; [reflexivity|]. split; [exact Hr|exact Hnew].
  - exact ex_clients_ok.
  - apply Mem.newMemStore_ok. lia.
  - apply empty_log.
  - reflexivity.
Defined.

Lemma ex_batch_ok : ex_batch <> [] /\ Forall (fits Crc.DefaultMaxRecordSize) ex_batch /\
  slice_len (frames ex_batch).
Proof.
  split; [done|split].
  - repeat constructor; vm_compute; done.
  - vm_compute. reflexivity.
Qed.

Lemma append_read_witness : exists w',
  run (Append 3 ex_log ex_batch) ex_world = (Ok 1, w') /\
  run (Read ex_log 1) w' = (Ok ex_batch, w').
Proof.
  destruct ex_batch_ok as (H1 & H2 & H3).
  destruct (append_read 1 ex_log ex_batch 5 ex_world []) as (w' & Hrun & _ & _ & Hread & _);
    [done|done|done|by apply Mem.newMemStore_ok|apply empty_log|done|done|].
  exists w'. split; [exact Hrun|exact Hread].
Defined.

Lemma big_record : exists r : list byte, Z.of_nat (length r) = Crc.DefaultMaxRecordSize + 1.
Proof.
  exists (replicate (Z.to_nat (Crc.DefaultMaxRecordSize + 1)) x00).
  rewrite length_replicate. apply Z2Nat.id. by vm_compute.
Qed.

Lemma append_oversized_witness : exists r seq w',
  run (Append 2 ex_log [r]) ex_world = (Ok seq, w') /\
  run (Read ex_log seq) w' = (Err ErrRecordTooLarge, w').
Proof.
  destruct big_record as [r Hr]. exists r. unfold Crc.DefaultMaxRecordSize in Hr.
  apply (append_oversized 0 ex_log [] r [] 5 ex_world []).
  - constructor.
  - rewrite Hr. unfold Crc.DefaultMaxRecordSize. lia.
  - unfold slice_len. cbn [app]. rewrite frames_cons, app_nil_r, length_frame, Hr.
    unfold Crc.frameOverhead. lia.
  - apply Mem.newMemStore_ok. lia.
  - apply empty_log.
  - reflexivity.
  - done.
Defined.
