(* ===== verification/Codec.v ===== *)
(** * Message encodings

    protobuf and protojson ([proto.Marshal], [protojson.Unmarshal], ...) and
    [encoding/json] on string lists are parameters of the model: a class of
    the two functions, with the behaviour the code relies on as its laws.
    [bit_codec] is a concrete instance for every countable type; it shows
    that the laws can hold and runs the examples. *)

From S2P Require Import Prelude ObjectStore Prog.
Local Open Scope Z_scope.

Class Codec (A : Type) := {
  Marshal : A -> res (list byte);
  Unmarshal : list byte -> res A;
}.

Class CodecLaws (A : Type) `{Codec A} := {
  (* decoding inverts encoding *)
  codec_roundtrip (a : A) d : Marshal a = Ok d -> Unmarshal d = Ok a;
  (* the encoding is a Go slice *)
  codec_slice (a : A) d : Marshal a = Ok d -> slice_len d;
  (* their errors are their own, not the store's *)
  codec_marshal_err (a : A) e : Marshal a = Err e -> transient e;
  codec_unmarshal_err (d : list byte) e : Unmarshal d = Err e -> transient e;
}.

(** ** One bit of the countable encoding per byte *)
Fixpoint pos_bytes (p : positive) : list byte :=
  match p with
  | xH => []
  | xO p => x00 :: pos_bytes p
  | xI p => x01 :: pos_bytes p
  end.

Fixpoint bytes_pos (d : list byte) : positive :=
  match d with
  | [] => xH
  | b :: d => if decide (b = x00) then xO (bytes_pos d) else xI (bytes_pos d)
  end.

Lemma bytes_pos_bytes p : bytes_pos (pos_bytes p) = p.
Proof. induction p; cbn; rewrite ?IHp; done. Qed.

Section BitCodec.
Context (A : Type) `{Countable A}.

Definition bit_marshal (a : A) : res (list byte) :=
  let d := pos_bytes (encode a) in
  if decide (Z.of_nat (length d) < 2 ^ 63) then Ok d else Err (Msg "codec: message too large").

Definition bit_unmarshal (d : list byte) : res A :=
  match decode (bytes_pos d) with
  | Some a => Ok a
  | None => Err (Msg "codec: invalid message")
  end.

Definition bit_codec : Codec A := {| Marshal := bit_marshal; Unmarshal := bit_unmarshal |}.

Lemma bit_codec_laws : @CodecLaws A bit_codec.
Proof.
  split; cbn; unfold bit_marshal, bit_unmarshal.
  - intros a d. case_decide; [|done]. intros [= <-]. by rewrite bytes_pos_bytes, decode_encode.
  - intros a d. by case_decide; [|done]; intros [= <-].
  - intros a e. case_decide; [done|]. by intros [= <-].
  - intros d e. destruct (decode _); [done|]. by intros [= <-].
Qed.

End BitCodec.
