(* ===== verification/Namespace.v ===== *)
(** * namespace: names and the key space of a tenant's store

    src/namespace/namespace.go.  Everything a tenant stores lives in one
    object store under keys made from validated names; [key_of] collects
    every kind of key the program writes and the theorems show that no two
    of them ever collide. *)

From S2P Require Import Prelude GoStr ObjectStore Logstream.
From Stdlib Require Import Ascii.
Local Open Scope Z_scope.

Definition DefaultTenant : string := "cloudy".
Definition DefaultNamespace : string := "default".
Definition DefaultBranch : string := "main".
Definition CatalogFile : string := "ns.json".
Definition TenantsFile : string := "tenants.json".
Definition namespaceDir : string := "ns".
Definition refHeads : string := "refs/heads".

Definition between (lo c hi : ascii) : bool :=
  bool_decide (N_of_ascii lo <= N_of_ascii c /\ N_of_ascii c <= N_of_ascii hi)%N.

Definition is_letter (c : ascii) : bool := between "a" c "z" || between "A" c "Z".
Definition name_char (c : ascii) : bool :=
  is_letter c || between "0" c "9" || bool_decide (c = "-"%char) || bool_decide (c = "_"%char).

Definition ValidateName (name : string) : res unit :=
  match name with
  | EmptyString => Err ErrInvalidName
  | String first rest =>
    if negb (is_letter first) then Err ErrInvalidName
    else if all_chars name_char rest then Ok tt else Err ErrInvalidName
  end.

Record Scope := MkScope { Namespace : string }.

#[export] Instance Scope_eq_dec : EqDecision Scope.
Proof. solve_decision. Defined.

Definition Validate (s : Scope) : res unit := ValidateName (Namespace s).
Definition Prefix (s : Scope) : string := path_Join [namespaceDir; Namespace s].
Definition Path (s : Scope) (subpath : string) : string := path_Join [Prefix s; subpath].
Definition WALPrefix (s : Scope) : string := Path s "wal".
Definition ManifestKey (s : Scope) (branch : string) : string :=
  Path s (path_Join [refHeads; branch +:+ ".json"]).
Definition SegmentsPrefix (s : Scope) : string := Path s "segments".
Definition SegmentKey (s : Scope) (segID : string) : string :=
  Path s (path_Join ["segments"; segID +:+ ".recordio"]).
Definition branchesKey (s : Scope) : string := Path s "branches.json".

#[export] Instance CatalogFile_ne : NonEmptyKey CatalogFile.
Proof. done. Qed.

#[export] Instance TenantsFile_ne : NonEmptyKey TenantsFile.
Proof. done. Qed.

#[export] Instance Path_ne s sub : NonEmptyKey (Path s sub).
Proof. by apply path_Join_ne, path_Join_ne. Qed.

#[export] Instance ManifestKey_ne s branch : NonEmptyKey (ManifestKey s branch).
Proof. apply Path_ne. Qed.

#[export] Instance SegmentKey_ne s id : NonEmptyKey (SegmentKey s id).
Proof. apply Path_ne. Qed.

#[export] Instance branchesKey_ne s : NonEmptyKey (branchesKey s).
Proof. apply Path_ne. Qed.

(** ** Valid names *)
Definition valid_name (name : string) : Prop := ValidateName name = Ok tt.

#[export] Instance valid_name_dec name : Decision (valid_name name).
Proof. unfold valid_name. apply _. Defined.

Lemma name_char_not c x : name_char c = true -> name_char x = false -> c <> x.
Proof. intros Hc Hx ->. congruence. Qed.

Lemma all_chars_in f s c : all_chars f s = true -> f c = false -> str_in c s = false.
Proof.
  intros Hs Hc. induction s as [|a s IH]; [done|]. simpl in *.
  apply andb_true_iff in Hs as [Ha Hs]. rewrite IH, orb_false_r by done.
  apply bool_decide_eq_false_2. intros ->. congruence.
Qed.

Lemma valid_name_chars name : valid_name name -> name <> "" /\ all_chars name_char name = true.
Proof.
  unfold valid_name. destruct name as [|c s]; [done|]. simpl.
  destruct (is_letter c) eqn:Ec; [|done]. simpl. destruct (all_chars name_char s) eqn:E; [|done].
  intros _. split; [done|]. unfold name_char at 1. by rewrite Ec.
Qed.

Lemma valid_name_no c name : valid_name name -> name_char c = false -> str_in c name = false.
Proof. intros [_ H]%valid_name_chars Hc. by eapply all_chars_in. Qed.

(** A name followed by an extension is one clean path element. *)
Lemma good_with_dot w c ext : str_in slash w = false -> w <> "" -> str_in slash ext = false ->
  ext <> "" -> str_in c ext = true -> c <> "."%char -> good_elem (w +:+ ext).
Proof.
  intros Hw Hne Hext Hne' Hc Hdot.
  assert (str_in c (w +:+ ext) = true) as Hin by (by rewrite str_in_app, Hc, orb_true_r).
  split; [by destruct w|]. split; [|split].
  - intros E. rewrite E in Hin. simpl in Hin. rewrite orb_false_r in Hin.
    apply bool_decide_eq_true in Hin. done.
  - intros E. rewrite E in Hin. simpl in Hin. rewrite orb_false_r in Hin.
    apply orb_true_iff in Hin as [Hin|Hin]; by apply bool_decide_eq_true in Hin.
  - by rewrite str_in_app, Hw, Hext.
Qed.

Lemma valid_name_good name : valid_name name -> good_elem name.
Proof.
  intros Hv. pose proof (valid_name_chars name Hv) as [Hne _].
  assert (str_in "." name = false) as Hd by (by apply valid_name_no).
  split; [done|]. split; [by intros ->|]. split; [by intros ->|]. by apply valid_name_no.
Qed.

Lemma json_good w : str_in slash w = false -> w <> "" -> good_elem (w +:+ ".json").
Proof. intros Hw Hne. by apply (good_with_dot w "j"). Qed.

Lemma recordio_good w : str_in slash w = false -> w <> "" -> good_elem (w +:+ ".recordio").
Proof. intros Hw Hne. by apply (good_with_dot w "r"). Qed.

(** ** The keys, as paths *)
Section Keys.
Context (s : Scope) (Hs : valid_name (Namespace s)).

Let ns_good : good_elem (Namespace s) := valid_name_good _ Hs.

Lemma Prefix_path : Prefix s = join_with "/" ["ns"; Namespace s].
Proof.
  apply (Join_good ["ns"] [Namespace s]); try done; forall_list; done || apply ns_good.
Qed.

Lemma Path_good ws : ws <> [] -> Forall good_elem ws ->
  Path s (join_with "/" ws) = join_with "/" ("ns" :: Namespace s :: ws).
Proof.
  intros Hne Hws. unfold Path. rewrite Prefix_path.
  apply (Join_good ["ns"; Namespace s] ws); try done. forall_list; done || apply ns_good.
Qed.

Lemma WALPrefix_path : WALPrefix s = join_with "/" ["ns"; Namespace s; "wal"].
Proof. apply (Path_good ["wal"]); [done|]. forall_list; done. Qed.

Lemma branchesKey_path : branchesKey s = join_with "/" ["ns"; Namespace s; "branches.json"].
Proof. apply (Path_good ["branches.json"]); [done|]. forall_list; done. Qed.

Lemma ManifestKey_path branch : valid_name branch ->
  ManifestKey s branch = join_with "/" ["ns"; Namespace s; "refs"; "heads"; branch +:+ ".json"].
Proof.
  intros Hb. pose proof (valid_name_good _ Hb) as (Hne & _ & _ & Hsl). unfold ManifestKey.
  change refHeads with (join_with "/" ["refs"; "heads"]).
  assert (good_elem (branch +:+ ".json")) by (by apply json_good).
  pose proof (Join_good ["refs"; "heads"] [branch +:+ ".json"]) as HJ. cbn [join_with] in HJ.
  cbn [join_with]. rewrite HJ; try done.
  - apply Path_good; [done|]. forall_list; done || assumption.
  - forall_list; done.
  - by forall_list.
Qed.

Lemma SegmentKey_path segID : str_in slash segID = false -> segID <> "" ->
  SegmentKey s segID = join_with "/" ["ns"; Namespace s; "segments"; segID +:+ ".recordio"].
Proof.
  intros Hsl Hne. unfold SegmentKey.
  assert (good_elem (segID +:+ ".recordio")) by (by apply recordio_good).
  pose proof (Join_good ["segments"] [segID +:+ ".recordio"]) as HJ. cbn [join_with] in HJ.
  rewrite HJ; try done.
  - apply Path_good; [done|]. forall_list; done || assumption.
  - forall_list; done.
  - by forall_list.
Qed.

End Keys.

(** ** Every key the program writes *)
Inductive role :=
  | KCatalog
  | KTenants
  | KBranches (ns : string)
  | KManifest (ns branch : string)
  | KSegment (ns segID : string)
  | KWal (ns : string) (seq : Z).

Definition key_of (r : role) : string :=
  match r with
  | KCatalog => CatalogFile
  | KTenants => TenantsFile
  | KBranches ns => branchesKey (MkScope ns)
  | KManifest ns b => ManifestKey (MkScope ns) b
  | KSegment ns id => SegmentKey (MkScope ns) id
  | KWal ns seq => segmentKey (WALPrefix (MkScope ns)) seq
  end.

#[export] Instance key_of_ne r : NonEmptyKey (key_of r).
Proof. destruct r; apply _. Qed.

(** Names pass [ValidateName] (the handlers check them), segment ids are hex
    strings, sequence numbers are uint64. *)
Definition valid_role (r : role) : Prop :=
  match r with
  | KCatalog | KTenants => True
  | KBranches ns => valid_name ns
  | KManifest ns b => valid_name ns /\ valid_name b
  | KSegment ns id => valid_name ns /\ id <> "" /\ str_in slash id = false
  | KWal ns seq => valid_name ns /\ is_u64 seq
  end.

Definition path_of (r : role) : list string :=
  match r with
  | KCatalog => [CatalogFile]
  | KTenants => [TenantsFile]
  | KBranches ns => ["ns"; ns; "branches.json"]
  | KManifest ns b => ["ns"; ns; "refs"; "heads"; b +:+ ".json"]
  | KSegment ns id => ["ns"; ns; "segments"; id +:+ ".recordio"]
  | KWal ns seq => ["ns"; ns; "wal"; Sprintf_020d seq +:+ ".recordio"]
  end.

Lemma key_of_path r : valid_role r ->
  key_of r = join_with "/" (path_of r) /\
  Forall (fun w => str_in slash w = false) (path_of r).
Proof.
  assert (forall ns, valid_name ns -> str_in slash ns = false) as Hn
    by (intros ns Hns; by apply valid_name_no).
  destruct r as [| |ns|ns b|ns id|ns seq]; simpl; intros Hv.
  - split; [done|]. forall_list; done.
  - split; [done|]. forall_list; done.
  - rewrite branchesKey_path by done. split; [done|]. forall_list; auto.
  - destruct Hv as [H1 H2]. rewrite ManifestKey_path by done. split; [done|].
    forall_list; auto. by rewrite str_in_app, Hn.
  - destruct Hv as (H1 & H2 & H3). rewrite SegmentKey_path by done. split; [done|].
    forall_list; auto. by rewrite str_in_app, H3.
  - destruct Hv as [H1 H2]. unfold segmentKey. rewrite WALPrefix_path by done. split.
    + by rewrite !join_with_cons, !str_app_assoc.
    + forall_list; auto. by rewrite str_in_app, Sprintf_no_slash.
Qed.

Lemma Sprintf_020d_inj a b : is_u64 a -> is_u64 b -> Sprintf_020d a = Sprintf_020d b -> a = b.
Proof.
  intros Ha Hb E. apply (segmentKey_inj "" a b Ha Hb). unfold segmentKey. by rewrite E.
Qed.

(** The WAL directory of a namespace as a path prefix. *)
Lemma prefix_path r ns : valid_role r -> valid_name ns ->
  HasPrefix (key_of r) (WALPrefix (MkScope ns) +:+ "/") = true ->
  exists w ws, path_of r = "ns" :: ns :: "wal" :: w :: ws.
Proof.
  intros Hr Hns. destruct (key_of_path r Hr) as [-> Hsl].
  rewrite WALPrefix_path by done. cbn [Namespace]. rewrite HasPrefix_spec. intros (t & Ht).
  assert (path_of r = split_on slash (join_with "/" (path_of r))) as Hsp
    by (rewrite split_join; [done|by destruct r|done]).
  assert (str_in slash ns = false) by (by apply valid_name_no).
  rewrite Ht, !join_with_cons in Hsp. cbn [join_with] in Hsp. rewrite !str_app_assoc in Hsp.
  rewrite !split_app_slash in Hsp by done. rewrite Hsp.
  pose proof (split_on_nonempty slash t) as Hne. destruct (split_on slash t) as [|w ws]; [done|]. eauto.
Qed.

Lemma all_chars_app f a b : all_chars f (a +:+ b) = all_chars f a && all_chars f b.
Proof. induction a as [|c a IH]; [done|]. rewrite str_app_cons. simpl. by rewrite IH, andb_assoc. Qed.

Lemma name_prefix_char c : name_char c = true -> prefix_char c = true.
Proof. destruct c as [[] [] [] [] [] [] [] []]; vm_compute; done. Qed.

Lemma all_chars_impl (f g : ascii -> bool) s : (forall c, f c = true -> g c = true) ->
  all_chars f s = true -> all_chars g s = true.
Proof.
  intros Hfg. induction s as [|c s IH]; [done|]. simpl. rewrite !andb_true_iff.
  intros [? ?]. auto.
Qed.

Lemma WALPrefix_valid ns : valid_name ns -> validPrefix (WALPrefix (MkScope ns)) = true.
Proof.
  intros Hns. rewrite WALPrefix_path by done. rewrite !join_with_cons. cbn [join_with Namespace].
  destruct (valid_name_good ns Hns) as (Hne & _ & _ & Hsl). unfold validPrefix.
  rewrite decide_False.
  - change ("ns" +:+ "/" +:+ ns +:+ "/" +:+ "wal") with ("ns/" +:+ ns +:+ "/wal").
    rewrite !all_chars_app.
    rewrite (all_chars_impl name_char prefix_char ns name_prefix_char); [done|].
    by apply valid_name_chars.
  - intros [?|[?|[Hs|Hc]]]; [done|done| |].
    + assert ("ns" +:+ "/" +:+ ns +:+ "/" +:+ "wal" = ("ns/" +:+ ns +:+ "/wa") +:+ "l") as E
        by (by rewrite !str_app_assoc).
      rewrite E, HasSuffix_char in Hs; done.
    + apply Contains_split in Hc. rewrite !split_app_slash, split_no_slash in Hc by done.
      cbn [tail] in Hc. rewrite !elem_of_cons, elem_of_nil in Hc. naive_solver.
Qed.

Lemma key_of_inj r1 r2 : valid_role r1 -> valid_role r2 -> key_of r1 = key_of r2 -> r1 = r2.
Proof.
  intros H1 H2 E. destruct (key_of_path r1 H1) as [E1 F1], (key_of_path r2 H2) as [E2 F2].
  rewrite E1, E2 in E. apply join_inj in E; [|by destruct r1|by destruct r2|done|done].
  destruct r1, r2; simpl in *; try discriminate E; try done.
  - by injection E as ->.
  - injection E as -> Hb. by apply str_app_inj_r in Hb as ->.
  - injection E as -> Hb. by apply str_app_inj_r in Hb as ->.
  - pose proof (f_equal (fun l => l !! 1%nat) E) as En. change (Some ns = Some ns0) in En.
    pose proof (f_equal (fun l => l !! 3%nat) E) as Es.
    change (Some (Sprintf_020d seq +:+ ".recordio") = Some (Sprintf_020d seq0 +:+ ".recordio")) in Es.
    injection En as ->. apply (inj Some), str_app_inj_r, Sprintf_020d_inj in Es as ->;
      [done|apply H1|apply H2].
Qed.

(** C31. No two objects of a tenant share a key: the catalog, the tenant
    list, and every namespace's branch list, branch manifests, segments and
    log entries have pairwise different keys, for all valid names, hex
    segment ids and sequence numbers. *)
Theorem key_space_injective r1 r2 :
  valid_role r1 -> valid_role r2 -> key_of r1 = key_of r2 <-> r1 = r2.
Proof. intros H1 H2. split; [by apply key_of_inj|by intros ->]. Qed.

(** A namespace's log directory holds nothing but its log entries: a key
    the program writes that lies under [WALPrefix] is an entry of that
    namespace's log, so [List] of the directory sees only segments, and
    [logstream.New] accepts the prefix of every valid namespace. *)
Theorem wal_directory_private ns c : valid_name ns ->
  New false (WALPrefix (MkScope ns)) c = Ok (MkLog (WALPrefix (MkScope ns)) c) /\
  forall r, valid_role r -> HasPrefix (key_of r) (WALPrefix (MkScope ns) +:+ "/") = true ->
    exists seq, r = KWal ns seq.
Proof.
  intros Hns. split.
  - unfold New. by rewrite WALPrefix_valid.
  - intros r Hr Hp. destruct (prefix_path r ns Hr Hns Hp) as (w & ws & Hpath).
    destruct r; simpl in Hpath; try discriminate Hpath. injection Hpath as -> _ _. by eexists.
Qed.

(** ** Witnesses *)
Lemma key_space_injective_witness :
  key_of (KManifest "docs" "main") = key_of (KManifest "docs-main" "main") <->
  KManifest "docs" "main" = KManifest "docs-main" "main".
Proof.
  apply (key_space_injective (KManifest "docs" "main") (KManifest "docs-main" "main"));
    split; reflexivity.
Defined.

Lemma wal_directory_private_witness :
  New false (WALPrefix (MkScope "docs")) 0 = Ok (MkLog "ns/docs/wal" 0) /\
  exists seq, KWal "docs" 7 = KWal "docs" seq.
Proof.
  destruct (wal_directory_private "docs" 0) as [H1 H2]; [reflexivity|]. split; [exact H1|].
  apply H2; [split; [reflexivity|by split]|vm_compute; reflexivity].
Defined.
