(* ===== verification/Cas.v ===== *)
(** * Objects updated by compare-and-swap

    The catalogs, the tenant list, the branch lists and the branch manifests
    are single objects that clients update by reading the object with its
    generation and writing it back on the condition that the generation has
    not changed (or that the object is still absent).  This file has the two
    halves of such an update as rules for concurrent clients ([safe_get],
    [safe_swap]) and for undisturbed runs ([run_get], [run_swap]). *)

From S2P Require Import Prelude ObjectStore Prog Codec.
Local Open Scope Z_scope.

(** How the code turns a generation into the condition of a write. *)
Definition swap_cond (gen : string) : Condition :=
  if decide (gen = "") then IfAbsent else IfGeneration gen.

Section Generations.
Context {S : Type} `{StoreLaws S}.

(** A generation names one write: a key that holds an old generation has held
    that very entry since. *)
Definition gen_rel (w w' : world S) : Prop :=
  (forall g, issued (store w) g -> issued (store w') g) /\
  forall k e, view (store w') !! k = Some e -> issued (store w) (generation e) ->
    view (store w) !! k = Some e.

#[export] Instance gen_rel_preorder : PreOrder gen_rel.
Proof.
  split; [split; auto|]. intros w1 w2 w3 [I1 G1] [I2 G2]. split; [auto|].
  intros k e He Hg. apply G1; auto.
Qed.

(** An accepted write, whatever its condition. *)
Lemma put_gen_rel n w k d c g w' `{!NonEmptyKey k} : ok (Datatypes.S n) (store w) -> slice_len d ->
  (c = IfAbsent /\ view (store w) !! k = None \/
   (exists e, view (store w) !! k = Some e /\ c = IfGeneration (generation e)) \/ c = Unconditional) ->
  exec (OPut k d c) w = (Ok g, w') ->
  ok n (store w') /\ gen_rel w w' /\ issued (store w') g /\
  view (store w') = <[k := MkEntry d g]> (view (store w)) /\ cells w' = cells w.
Proof.
  intros Hok Hd Hc. cbn [exec].
  destruct (put_accepted n (store w) k d c Hok key_ne Hd Hc) as (g' & s' & -> & Hok' & Hv & Hn & Hi & Hm).
  intros [= <- <-]. cbn [store]. split; [done|]. split; [|done]. split; [done|].
  intros k' e' He' Hg. cbn [store] in *. rewrite Hv in He'.
  apply lookup_insert_Some in He' as [[-> <-]|[_ ?]]; done.
Qed.

(** The effect of an accepted write. *)
Definition put_done (n : nat) (k : string) (d : list byte) (g : string) (w w' : world S) : Prop :=
  ok n (store w') /\ gen_rel w w' /\ view (store w') = <[k := MkEntry d g]> (view (store w)) /\
  cells w' = cells w.

(** A write conditional on a generation that was read, or on absence. *)
Lemma put_exec n key g d w x w' `{!NonEmptyKey key} : ok (Datatypes.S n) (store w) -> slice_len d ->
  g = "" \/ issued (store w) g -> exec (OPut key d (swap_cond g)) w = (x, w') ->
  x = Err ErrPreconditionFailed /\ w' = w \/
  exists g', x = Ok g' /\
    (g = "" /\ view (store w) !! key = None \/
     exists e, view (store w) !! key = Some e /\ generation e = g) /\ put_done n key d g' w w'.
Proof.
  intros Hok Hd Hi Hex. assert (g <> "" -> issued (store w) g) as Hg by (by destruct Hi).
  assert ((g = "" /\ view (store w) !! key = None \/
     exists e, view (store w) !! key = Some e /\ generation e = g) \/
    ~ (g = "" /\ view (store w) !! key = None \/
     exists e, view (store w) !! key = Some e /\ generation e = g)) as [Hc|Hc].
  { destruct (view (store w) !! key) as [e|], (decide (g = "")) as [->|?]; try naive_solver.
    - destruct (decide (generation e = "")); naive_solver.
    - destruct (decide (generation e = g)); naive_solver. }
  - right. assert (swap_cond g = IfAbsent /\ view (store w) !! key = None \/
     (exists e, view (store w) !! key = Some e /\ swap_cond g = IfGeneration (generation e)) \/
     swap_cond g = Unconditional) as Hc'.
    { unfold swap_cond. destruct Hc as [[-> E]|(e & E & <-)]; [left; by rewrite decide_True|].
      right. left. exists e. split; [done|].
      by rewrite decide_False by (eapply issued_valid, view_issued; done). }
    destruct x as [g'|e].
    + destruct (put_gen_rel _ _ _ _ _ _ _ Hok Hd Hc' Hex) as (? & ? & _ & ? & ?). by exists g'.
    + exfalso. cbn [exec] in Hex. destruct (put_accepted _ _ _ _ _ Hok key_ne Hd Hc') as (? & ? & E & _).
      by rewrite E in Hex.
  - left. unfold swap_cond in Hex. cbn [exec] in Hex. case_decide as Hg0.
    + rewrite (put_absent_exists _ _ _ _ Hok) in Hex.
      * injection Hex as <- <-. by destruct w.
      * destruct (view (store w) !! key); [by eexists|]. exfalso. auto.
    + rewrite (put_mismatch _ _ _ _ _ Hok (Hg Hg0)) in Hex; [|naive_solver].
      injection Hex as <- <-. by destruct w.
Qed.

End Generations.

Section Cas.
Context {S : Type} `{StoreLaws S} {A : Type} `{CodecLaws A} (faulty : bool).
Context (key : string) `{!NonEmptyKey key} (dflt : A) (good : A -> Prop) (evolve : relation A) `{!PreOrder evolve}.

(** The value of the object: [dflt] while it is absent. *)
Definition holds (w : world S) (a : A) : Prop :=
  match view (store w) !! key with
  | Some e => Unmarshal (data e) = Ok a
  | None => a = dflt
  end.

Definition cas_inv (n : nat) (w : world S) : Prop :=
  ok n (store w) /\ exists a, holds w a /\ good a.

(** The value moves along [evolve]. *)
Definition cas_rel (w w' : world S) : Prop :=
  gen_rel w w' /\ forall a, holds w a -> exists a', holds w' a' /\ evolve a a'.

#[export] Instance cas_rel_preorder : PreOrder cas_rel.
Proof.
  split.
  - intros w. split; [reflexivity|]. intros a Ha. exists a. split; [done|reflexivity].
  - intros w1 w2 w3 [G1 E1] [G2 E2]. split; [by transitivity w2|]. intros a Ha.
    destruct (E1 a Ha) as (b & Hb & ?). destruct (E2 b Hb) as (c & Hc & ?).
    exists c. split; [done|by transitivity b].
Qed.

(** The object holds a value [a] has evolved to. *)
Definition after (a : A) (w : world S) : Prop := exists b, holds w b /\ evolve a b.

Lemma after_stable a w w' : cas_rel w w' -> after a w -> after a w'.
Proof.
  intros [_ HE] (b & Hb & Hab). destruct (HE b Hb) as (c & Hc & Hbc).
  exists c. split; [done|by transitivity b].
Qed.

Lemma holds_after w a : holds w a -> after a w.
Proof. intros Ha. exists a. split; [done|reflexivity]. Qed.

Lemma holds_unique w a b : holds w a -> holds w b -> a = b.
Proof. unfold holds. destruct (view (store w) !! key); congruence. Qed.

(** What a client knows after reading generation [g] (or the object's
    absence, [g = ""]) with value [a]. *)
Definition seen (g : string) (a : A) (w : world S) : Prop :=
  if decide (g = "") then a = dflt
  else issued (store w) g /\
    forall e, view (store w) !! key = Some e -> generation e = g -> Unmarshal (data e) = Ok a.

Lemma seen_gen g a w w' : gen_rel w w' -> seen g a w -> seen g a w'.
Proof.
  intros [HI HG]. unfold seen. case_decide; [done|]. intros [Hi Hs]. split; [auto|].
  intros e He Hg. apply Hs; [|done]. apply HG; [done|]. by rewrite Hg.
Qed.

Lemma seen_stable g a w w' : cas_rel w w' -> seen g a w -> seen g a w'.
Proof. intros [HG _]. by apply seen_gen. Qed.

Lemma seen_issued g a w : seen g a w -> g = "" \/ issued (store w) g.
Proof. unfold seen. case_decide; [by left|]. intros [? _]. by right. Qed.

(** The object whose generation was read still has the value read. *)
Lemma seen_holds n g a w : ok n (store w) -> seen g a w ->
  g = "" /\ view (store w) !! key = None \/
  (exists e, view (store w) !! key = Some e /\ generation e = g) -> holds w a.
Proof.
  intros Hok. unfold seen, holds. intros Hs [[-> ->]|(e & E & <-)].
  - by rewrite decide_True in Hs.
  - rewrite E. rewrite decide_False in Hs by (eapply issued_valid, view_issued; done).
    by apply Hs.
Qed.

Definition cas_err (e : error) : Prop := faulty = true /\ transient e.

(** Reading. *)
Lemma safe_get w :
  safe faulty cas_inv cas_rel (call (OGet key)) (fun r w' =>
    match r with
    | Ok (d, o) => exists a, Unmarshal d = Ok a /\ good a /\ seen (Generation o) a w' /\
                     Generation o <> "" /\ after a w'
    | Err e => e = ErrNotFound /\ good dflt /\ seen "" dflt w' /\ after dflt w' \/ cas_err e
    end) w.
Proof.
  apply safe_read; [apply _|auto with cloudy| |].
  - intros n w1 HR (Hok & a & Ha & Hg). cbn [exec fst]. rewrite (get_ok _ _ _ Hok).
    pose proof (holds_after w1 a Ha) as Haf. unfold holds in Ha.
    destruct (view (store w1) !! key) as [e|] eqn:Ee.
    + exists a. cbn. pose proof (view_issued _ _ _ _ Hok Ee) as Hi.
      pose proof (issued_valid _ _ _ Hok Hi) as Hne.
      split; [done|split; [done|split; [|done]]]. unfold seen. rewrite decide_False by done.
      split; [done|]. intros e' He' _. congruence.
    + subst a. left. split; [done|]. split; [done|]. split; [|done]. unfold seen. by rewrite decide_True.
  - intros e w1 HR Hf Ht. by right.
Qed.

(** Writing back: accepted only if the object still holds the value read. *)
Lemma swap_exec n g a cur d w x w' : ok (Datatypes.S n) (store w) -> slice_len d ->
  seen g a w -> holds w cur -> exec (OPut key d (swap_cond g)) w = (x, w') ->
  x = Err ErrPreconditionFailed /\ w' = w \/ exists g', x = Ok g' /\ cur = a /\ put_done n key d g' w w'.
Proof.
  intros Hok Hd Hs Hcur Hex.
  destruct (put_exec n key g d w x w' Hok Hd (seen_issued _ _ _ Hs) Hex) as [?|(g' & -> & Hat & Hp)];
    [by left|]. right. exists g'. split; [done|]. split; [|done].
  eapply holds_unique; [done|]. by eapply seen_holds.
Qed.

Lemma safe_swap g a a' d w : Marshal a' = Ok d -> seen g a w -> good a' -> evolve a a' ->
  safe faulty cas_inv cas_rel (call (OPut key d (swap_cond g))) (fun r w' =>
    match r with
    | Ok _ => after a' w'
    | Err e => e = ErrPreconditionFailed \/ cas_err e
    end) w.
Proof.
  intros Hm Hseen Hgood Hev. pose proof (codec_roundtrip _ _ Hm) as Hun.
  pose proof (codec_slice _ _ Hm) as Hd.
  apply safe_call. intros n w1 HR HI. change (cost _ + n)%nat with (Datatypes.S n) in HI.
  pose proof (seen_stable _ _ _ _ HR Hseen) as Hs1. pose proof HI as (Hok & cur & Hcur & Hgc).
  assert (cas_inv n w1) as HIn by (split; [eapply ok_weaken; [|done]; lia|by exists cur]).
  assert (forall x w2, exec (OPut key d (swap_cond g)) w1 = (x, w2) ->
    cas_inv n w2 /\ cas_rel w1 w2 /\
    match x with Ok _ => after a' w2 | Err e => e = ErrPreconditionFailed end) as Hput.
  { intros x w2 Hex.
    destruct (swap_exec _ _ _ _ _ _ _ _ Hok Hd Hs1 Hcur Hex)
      as [[-> ->]|(g' & -> & -> & Hok' & Hgr & Hv & _)]; [done|].
    assert (holds w2 a') as Hh by (unfold holds; by rewrite Hv, lookup_insert_eq).
    split; [split; [done|by exists a']|]. split; [|by apply holds_after].
    split; [done|]. intros b Hb. exists a'. split; [done|].
    by rewrite (holds_unique _ _ _ Hb Hcur). }
  intros x w2 [E|[Hf [(e & He & -> & ->)|[[g' E] He]]]].
  - destruct (Hput x w2 E) as (? & ? & ?). destruct x; auto.
  - split; [done|split; [reflexivity|right; by split]].
  - destruct (Hput _ w2 E) as (? & ? & ?). split; [done|split; [done|]].
    destruct x as [?|e]; [done|]. destruct He as [He|[-> _]]; [right; by split|by left].
Qed.

(** *** Undisturbed *)

(** The generation of the object, [""] while it is absent. *)
Definition gen_at (w : world S) : string :=
  match view (store w) !! key with Some e => generation e | None => "" end.

Lemma run_get n w a : ok n (store w) -> holds w a ->
  if decide (gen_at w = "") then a = dflt /\ exec (OGet key) w = (Err ErrNotFound, w)
  else exists d o, exec (OGet key) w = (Ok (d, o), w) /\ Unmarshal d = Ok a /\ Generation o = gen_at w.
Proof.
  intros Hok Ha. unfold holds in Ha. cbn [exec]. rewrite (get_ok _ _ _ Hok). unfold gen_at.
  destruct (view (store w) !! key) as [e|] eqn:Ee.
  - rewrite decide_False by (eapply issued_valid; [|eapply view_issued]; done).
    eexists _, _. split; [done|]. done.
  - by rewrite decide_True.
Qed.

(** Writing back the generation just read succeeds. *)
Lemma run_swap n w a d : ok (Datatypes.S n) (store w) -> Marshal a = Ok d ->
  exists g w', exec (OPut key d (swap_cond (gen_at w))) w = (Ok g, w') /\
    ok n (store w') /\ holds w' a /\ gen_at w' = g /\ g <> "" /\ cells w' = cells w /\
    forall k, k <> key -> view (store w') !! k = view (store w) !! k.
Proof.
  intros Hok Hm. pose proof (codec_slice _ _ Hm) as Hd.
  assert (swap_cond (gen_at w) = IfAbsent /\ view (store w) !! key = None \/
    (exists e, view (store w) !! key = Some e /\ swap_cond (gen_at w) = IfGeneration (generation e)) \/
    swap_cond (gen_at w) = Unconditional) as Hc.
  { unfold gen_at, swap_cond. destruct (view (store w) !! key) as [e|] eqn:Ee.
    - right. left. exists e. split; [done|].
      by rewrite decide_False by (eapply issued_valid; [|eapply view_issued]; done).
    - left. by rewrite decide_True. }
  destruct (exec (OPut key d (swap_cond (gen_at w))) w) as [[g|e] w'] eqn:Ex.
  - destruct (put_gen_rel _ _ _ _ _ _ _ Hok Hd Hc Ex) as (Hok' & _ & Hi & Hv & Hcells).
    exists g, w'. split; [done|]. split; [done|]. unfold holds, gen_at. rewrite Hv, lookup_insert_eq.
    split; [by apply codec_roundtrip|]. split; [done|]. split; [by eapply issued_valid|].
    split; [done|]. intros k Hk. by rewrite lookup_insert_ne.
  - exfalso. cbn [exec] in Ex. destruct (put_accepted _ _ _ _ _ Hok key_ne Hd Hc) as (? & ? & E & _).
    by rewrite E in Ex.
Qed.

(** The same with everything the write leaves. *)
Lemma swap_done n w a d : ok (Datatypes.S n) (store w) -> Marshal a = Ok d ->
  exists g w', exec (OPut key d (swap_cond (gen_at w))) w = (Ok g, w') /\ put_done n key d g w w'.
Proof.
  intros Hok Hm. destruct (run_swap n w a d Hok Hm) as (g & w' & Hex & _). exists g, w'. split; [done|].
  destruct (put_exec n key (gen_at w) d w (Ok g) w' Hok (codec_slice _ _ Hm)) as [[? _]|(g' & [= <-] & _ & Hp)]; try done.
  unfold gen_at. destruct (view (store w) !! key) as [e|] eqn:E; [|by left]. right. by eapply view_issued.
Qed.

End Cas.
