(* ===== verification/Footprint.v ===== *)
(** * What a program may write

    [tame] bounds the effects of a program whatever its calls return: the
    objects it writes, and that its conditional writes use only generations
    it has read.  It is checked on the text of the program, and one lemma
    ([tame_step]) turns it into what each of its steps can do to a store.
    [spares] says that a program moves no counter. *)

From S2P Require Import Prelude ObjectStore Prog Codec Cas.
Local Open Scope Z_scope.

Section Footprint.
Context {S : Type} `{StoreLaws S}.
(** The writes and the counters allowed. *)
Context (P : string -> list byte -> Condition -> Prop) (K : nat -> Prop).

(** A call that changes nothing. *)
Definition quiet_op {X} (o : op X) : Prop :=
  cost o = 0%nat /\ forall (w : world S) x w', fstep true o w x w' -> w' = w.

(** The generations a result tells. *)
Definition told {X} (o : op X) : X -> string -> Prop :=
  match o in op X return X -> string -> Prop with
  | OGet _ => fun x g => exists d ob, x = Ok (d, ob) /\ g = Generation ob
  | _ => fun _ _ => False
  end.

Definition may {X} (o : op X) (G : string -> Prop) : Prop :=
  quiet_op o \/
  match o with
  | OPut key d c => NonEmptyKey key /\ slice_len d /\ P key d c /\ exists g, c = swap_cond g /\ (g = "" \/ G g)
  | OCas c _ _ => K c
  | _ => False
  end.

(** [G] are the generations read so far. *)
Fixpoint tame {A} (p : prog A) (Q : A -> (string -> Prop) -> Prop) (G : string -> Prop) : Prop :=
  match p with
  | Ret a => Q a G
  | Vis o k => may o G /\ forall x, tame (k x) Q (fun g => G g \/ told o x g)
  end.

Lemma may_mono {X} (o : op X) (G G' : string -> Prop) : (forall g, G g -> G' g) -> may o G -> may o G'.
Proof.
  intros HG [Hq|Ho]; [by left|right]. destruct o; try done. destruct Ho as (? & ? & ? & g & ? & Hg).
  split_and!; try done. exists g. split; [done|]. destruct Hg; auto.
Qed.

Lemma tame_bind {A B} (p : prog A) (f : A -> prog B) Q Q' G :
  tame p Q G -> (forall a G', (forall g, G g -> G' g) -> Q a G' -> tame (f a) Q' G') -> tame (prog_bind p f) Q' G.
Proof.
  revert G. induction p as [a|X o k IH]; intros G Hp Hf; cbn [prog_bind tame] in *; [by apply Hf|].
  destruct Hp as [Ho Hk]. split; [done|]. intros x. apply IH; [apply Hk|]. intros a G' HG. apply Hf. auto.
Qed.

Lemma tame_try {A B} (p : prog (res A)) (f : A -> prog (res B)) Q Q' G : tame p Q G ->
  (forall a G', (forall g, G g -> G' g) -> Q (Ok a) G' -> tame (f a) Q' G') ->
  (forall e G', (forall g, G g -> G' g) -> Q (Err e) G' -> Q' (Err e) G') -> tame (try_bind p f) Q' G.
Proof. intros Hp Hok Herr. eapply tame_bind; [done|]. intros [a|e] G' HG HQ; [by apply Hok|by apply Herr]. Qed.

Lemma tame_weaken {A} (p : prog A) (Q Q' : A -> (string -> Prop) -> Prop) G :
  (forall a G', Q a G' -> Q' a G') -> tame p Q G -> tame p Q' G.
Proof.
  intros HQ. revert G. induction p as [a|X o k IH]; intros G; cbn [tame]; [apply HQ|].
  intros [Ho Hk]. split; [done|]. intros x. apply IH, Hk.
Qed.

Lemma tame_reading {A} (p : prog A) G : reading (S := S) p -> tame p (fun _ _ => True) G.
Proof.
  revert G. induction p as [a|X o k IH]; intros G; cbn [reading tame]; [done|].
  intros [Ho Hk]. split; [by left|]. intros x. by apply IH.
Qed.

Lemma tame_get key G : tame (call (OGet key)) (fun r G' =>
  match r with Ok (d, ob) => G' (Generation ob) | Err _ => True end) G.
Proof.
  split; [left; split; [done|]|].
  - intros w x w' [[= _ <-]|[_ [_ ->]]]; done.
  - intros [[d ob]|e]; [|done]. right. by exists d, ob.
Qed.

Lemma tame_put key d g G `{!NonEmptyKey key} : slice_len d -> P key d (swap_cond g) -> g = "" \/ G g ->
  tame (call (OPut key d (swap_cond g))) (fun _ _ => True) G.
Proof. intros Hd HP Hg. split; [|done]. right. split_and!; try done. eauto. Qed.

Definition all_issued (G : string -> Prop) (w : world S) : Prop := forall g, G g -> issued (store w) g.

Lemma all_issued_stable G w w' : gen_rel w w' -> all_issued G w -> all_issued G w'.
Proof. intros [Hi _] HG g Hg. by apply Hi, HG. Qed.

Lemma none_issued w : all_issued (fun _ => False) w.
Proof. by intros g []. Qed.

(** One allowed write. *)
Definition wrote (n : nat) (w w' : world S) : Prop :=
  exists key d c g, P key d c /\ exec (OPut key d c) w = (Ok g, w') /\ put_done n key d g w w' /\
    (c = IfAbsent -> view (store w) !! key = None).

Lemma put_wrote n key d g x (w w' : world S) `{!NonEmptyKey key} : ok (Datatypes.S n) (store w) -> slice_len d ->
  P key d (swap_cond g) -> g = "" \/ issued (store w) g ->
  exec (OPut key d (swap_cond g)) w = (x, w') -> w' = w \/ wrote n w w' /\ ok n (store w') /\ gen_rel w w' /\ cells w' = cells w.
Proof.
  intros Hok Hd HP Hg Hex. destruct (put_exec n key g d w x w' Hok Hd Hg Hex) as [[_ ->]|(g' & -> & Hat & Hp)]; [by left|right].
  split; [|by destruct Hp as (? & ? & _ & ?)]. exists key, d, (swap_cond g), g'. split_and!; try done.
  unfold swap_cond. case_decide as Hg0; [|done]. intros _. destruct Hat as [[_ ?]|(e & He & Hge)]; [done|].
  exfalso. eapply issued_valid; [exact Hok|eapply view_issued; [exact Hok|exact He]|]. by rewrite Hge.
Qed.

Lemma tame_step faulty {A X} (o : op X) (k : X -> prog A) Q G n (w : world S) x w' :
  tame (Vis o k) Q G -> all_issued G w -> ok (cost o + n) (store w) -> fstep faulty o w x w' ->
  ok n (store w') /\ gen_rel w w' /\ (store w' = store w \/ cost o = 1%nat /\ wrote n w w') /\ (forall c, ~ K c -> cell w' c = cell w c) /\
  exists G', all_issued G' w' /\ (forall g, G g -> G' g) /\ tame (k x) Q G'.
Proof.
  intros [Ho Hk] HG Hok Hst.
  assert (ok n (store w)) as Hn by (eapply ok_weaken; [|done]; lia).
  assert (w' = w -> ok n (store w') /\ gen_rel w w' /\ (store w' = store w \/ cost o = 1%nat /\ wrote n w w') /\ forall c, ~ K c -> cell w' c = cell w c) as Hsame.
  { intros ->. split_and!; [done|reflexivity|by left|done]. }
  assert (gen_rel w w' -> exists G', all_issued G' w' /\ (forall g, G g -> G' g) /\ tame (k x) Q G') as Hrest.
  { intros HR. eexists. split; [|split; [|by apply Hk]]; [|by left].
    intros g [Hg|Hg]; [by eapply all_issued_stable|]. destruct o; cbn in Hg; try done.
    destruct Hg as (d & ob & -> & ->). destruct Hst as [Hex|[_ [(e & _ & [=]) _]]]. cbn in Hex.
    injection Hex as Hget <-. rewrite (get_ok _ _ _ Hok) in Hget.
    destruct (view (store w) !! key) as [e|] eqn:E; [|done]. injection Hget as _ <-. by eapply view_issued. }
  enough (ok n (store w') /\ gen_rel w w' /\ (store w' = store w \/ cost o = 1%nat /\ wrote n w w') /\ forall c, ~ K c -> cell w' c = cell w c) as (? & ? & ? & ?)
    by (split_and!; auto).
  destruct Ho as [[_ Hq]|Ho].
  { apply Hsame, (Hq w x w'). destruct Hst as [?|[_ ?]]; [by left|by right]. }
  destruct o; try done.
  - destruct Ho as (Hne & Hd & HP & g & -> & Hg). cbn in Hok.
    assert (g = "" \/ issued (store w) g) as Hi by (destruct Hg; auto).
    assert (forall y, exec (OPut key d (swap_cond g)) w = (y, w') -> ok n (store w') /\ gen_rel w w' /\ (store w' = store w \/ 1%nat = 1%nat /\ wrote n w w') /\
      forall c, ~ K c -> cell w' c = cell w c) as Hex.
    { intros y Hy. destruct (put_wrote n key d g y w w' Hok Hd HP Hi Hy) as [?|(? & ? & ? & Hc)]; [auto|].
      split_and!; [done|done|by right|]. intros c _. unfold cell. by rewrite Hc. }
    destruct Hst as [?|[_ [(e & _ & _ & ->)|[[g' ?] _]]]]; eauto.
  - destruct Hst as [Hex|[_ []]]. cbn in Hex. case_decide; injection Hex as <- <-; [|auto].
    split_and!; [done|by split; [|done]|by left|]. intros c' Hc'. unfold cell. cbn. by rewrite lookup_insert_ne by (intros ->; done).
Qed.

End Footprint.

Section Spares.
Context {S : Type} `{Store S}.

Fixpoint spares {A} (p : prog A) : Prop :=
  match p with
  | Ret _ => True
  | Vis o k => (forall (w : world S) x w', fstep true o w x w' -> cells w' = cells w) /\ forall x, spares (k x)
  end.

Lemma spares_bind {A B} (p : prog A) (f : A -> prog B) :
  spares p -> (forall a, spares (f a)) -> spares (prog_bind p f).
Proof.
  intros Hp Hf. induction p as [a|X o k IH]; simpl; [done|]. destruct Hp as [Ho Hk].
  split; [done|]. intros x. by apply IH.
Qed.

Lemma spares_try {A B} (p : prog (res A)) (f : A -> prog (res B)) :
  spares p -> (forall a, spares (f a)) -> spares (try_bind p f).
Proof. intros Hp Hf. apply spares_bind; [done|]. by intros [a|e]; [apply Hf|]. Qed.

Lemma spares_reading {A} (p : prog A) : reading (S := S) p -> spares p.
Proof.
  induction p as [a|X o k IH]; simpl; [done|]. intros [[_ Ho] Hk]. split; [|auto].
  intros w x w' Hst. by rewrite (Ho w x w' Hst).
Qed.

Lemma spares_get key : spares (call (OGet key)).
Proof. apply spares_reading, reading_call. auto with cloudy. Qed.

Lemma spares_put key d c : spares (call (OPut key d c)).
Proof.
  split; [|done]. intros w x w'. assert (forall y, exec (OPut key d c) w = (y, w') -> cells w' = cells w) as Hex.
  { intros y. cbn [exec]. by destruct (Put _ _ _ _ _) as [r s]; intros [= _ <-]. }
  intros [?|[_ [(e & _ & _ & ->)|[[g ?] _]]]]; eauto.
Qed.

End Spares.

#[export] Hint Resolve spares_get spares_put : cloudy.

(** Follows the text of a program down to its calls. *)
Ltac spare := repeat first
  [ exact I | progress cbn [spares] | assumption | intro
  | solve [auto with cloudy]
  | apply spares_try | apply spares_bind
  | progress rewrite ?try_lift | case_match | case_decide ].

Arguments tame {S _} P K {A} p Q G.

Lemma tame_allow {S} `{Store S} {A} (P P' : string -> list byte -> Condition -> Prop) (K K' : nat -> Prop)
    (p : prog A) Q G : (forall key d c, P key d c -> P' key d c) -> (forall c, K c -> K' c) ->
  tame (S := S) P K p Q G -> tame (S := S) P' K' p Q G.
Proof.
  intros HP HK. revert G. induction p as [a|X o k IH]; intros G; cbn [tame]; [done|].
  intros [Ho Hk]. split; [|auto]. destruct Ho as [?|Ho]; [by left|right]. destruct o; try done; [|by apply HK].
  destruct Ho as (? & ? & ? & ?). split_and!; auto.
Qed.
