(* ===== verification/Catalog.v ===== *)
(** * namespace: the tenant's catalog, its branches, the tenant list

    src/namespace/{catalog,branch,tenant,registry}.go.  Each list is one JSON
    object updated by compare-and-swap ([Cas]).  The messages are those of
    proto/namespace/v1; a Go map of messages is a [gmap], nil and empty maps
    being the same to the code.  [now] is [now.Unix()]. *)

From S2P Require Import Prelude GoStr ObjectStore Prog Codec Namespace Cas.
Local Open Scope Z_scope.

Record NamespaceMetadata := MkMeta { Epoch : Z; CreatedAt : Z; DeletedAt : Z }.
Record TenantCatalog := MkCatalog { Tenant : string; Namespaces : gmap string NamespaceMetadata }.
(** [BranchMetadata] has no fields. *)
Record BranchCatalog := MkBranches { Branches : gmap string unit }.

#[export] Instance NamespaceMetadata_eq_dec : EqDecision NamespaceMetadata.
Proof. solve_decision. Defined.
#[export] Program Instance NamespaceMetadata_countable : Countable NamespaceMetadata :=
  inj_countable' (fun m => (Epoch m, CreatedAt m, DeletedAt m)) (fun '(e, c, d) => MkMeta e c d) _.
Next Obligation. by intros []. Qed.
#[export] Instance TenantCatalog_eq_dec : EqDecision TenantCatalog.
Proof. solve_decision. Defined.
#[export] Program Instance TenantCatalog_countable : Countable TenantCatalog :=
  inj_countable' (fun c => (Tenant c, Namespaces c)) (fun '(t, n) => MkCatalog t n) _.
Next Obligation. by intros []. Qed.
#[export] Instance BranchCatalog_eq_dec : EqDecision BranchCatalog.
Proof. solve_decision. Defined.
#[export] Program Instance BranchCatalog_countable : Countable BranchCatalog :=
  inj_countable' Branches MkBranches _.
Next Obligation. by intros []. Qed.

(** ** catalog.go *)
Section Catalog.
Context `{Codec TenantCatalog}.

Definition ReadTenantCatalog (nil_store : bool) : prog (res (TenantCatalog * string)) :=
  if nil_store then Ret (Err ErrNilStore) else
  '(d, obj) <~ call (OGet CatalogFile);
  catalog <~ lift (Unmarshal d);
  Ret (Ok (catalog, Generation obj)).

(** Functions that return a generation next to an error return a pair. *)
Definition ReadTenantCatalogIfGeneration (nil_store : bool) (generation : string)
  : prog (res TenantCatalog * string) :=
  r ← ReadTenantCatalog nil_store;
  match r with
  | Err e => Ret (Err e, "")
  | Ok (catalog, got) =>
    if decide (generation <> got) then Ret (Err ErrGenerationMismatch, got)
    else Ret (Ok catalog, got)
  end.

Definition emptyCatalog : TenantCatalog := MkCatalog "" ∅.

Definition readCatalogOrEmpty (nil_store : bool) : prog (res (TenantCatalog * string)) :=
  r ← ReadTenantCatalog nil_store;
  match r with
  | Ok x => Ret (Ok x)
  | Err e => if errors_Is e ErrNotFound then Ret (Ok (emptyCatalog, "")) else Ret (Err e)
  end.

Definition putTenantCatalog (catalog : TenantCatalog) (generation : string) : prog (res string) :=
  d <~ lift (Marshal catalog);
  call (OPut CatalogFile d (swap_cond generation)).

Fixpoint create_loop (fuel : nat) (name : string) (createdAt : Z)
  : prog (res NamespaceMetadata * string) :=
  match fuel with
  | O => Ret (Err OutOfFuel, "")
  | S fuel =>
    r ← readCatalogOrEmpty false;
    match r with
    | Err e => Ret (Err e, "")
    | Ok (catalog, generation) =>
      match Namespaces catalog !! name with
      | Some _ => Ret (Err ErrNamespaceAlreadyExists, generation)
      | None =>
        let meta := MkMeta 0 createdAt 0 in
        let catalog := MkCatalog (Tenant catalog) (<[name := meta]> (Namespaces catalog)) in
        w ← putTenantCatalog catalog generation;
        match w with
        | Ok newGen => Ret (Ok meta, newGen)
        | Err e => if errors_Is e ErrPreconditionFailed then create_loop fuel name createdAt
                   else Ret (Err e, "")
        end
      end
    end
  end.

Definition CreateNamespace (fuel : nat) (nil_store : bool) (name : string) (now : Z)
  : prog (res NamespaceMetadata * string) :=
  if nil_store then Ret (Err ErrNilStore, "") else
  match ValidateName name with
  | Err e => Ret (Err e, "")
  | Ok _ => create_loop fuel name (Z.max now 0)
  end.

Fixpoint delete_loop (fuel : nat) (name : string) (deletedAt : Z)
  : prog (res NamespaceMetadata * string) :=
  match fuel with
  | O => Ret (Err OutOfFuel, "")
  | S fuel =>
    r ← ReadTenantCatalog false;
    match r with
    | Err e => if errors_Is e ErrNotFound then Ret (Err ErrNamespaceNotFound, "") else Ret (Err e, "")
    | Ok (catalog, generation) =>
      match Namespaces catalog !! name with
      | None => Ret (Err ErrNamespaceNotFound, generation)
      | Some meta =>
        if decide (DeletedAt meta <> 0) then Ret (Ok meta, generation) else
        let meta := MkMeta (Epoch meta) (CreatedAt meta) deletedAt in
        let catalog := MkCatalog (Tenant catalog) (<[name := meta]> (Namespaces catalog)) in
        w ← putTenantCatalog catalog generation;
        match w with
        | Ok newGen => Ret (Ok meta, newGen)
        | Err e => if errors_Is e ErrPreconditionFailed then delete_loop fuel name deletedAt
                   else Ret (Err e, "")
        end
      end
    end
  end.

Definition DeleteNamespace (fuel : nat) (nil_store : bool) (name : string) (now : Z)
  : prog (res NamespaceMetadata * string) :=
  if nil_store then Ret (Err ErrNilStore, "") else
  match ValidateName name with
  | Err e => Ret (Err e, "")
  | Ok _ => delete_loop fuel name (Z.max now 1)
  end.

(** The names without a tombstone, sorted. *)
Definition active_names (cat : TenantCatalog) : list string :=
  sort_Strings ((filter (fun nm : string * NamespaceMetadata => DeletedAt nm.2 = 0)
                   (map_to_list (Namespaces cat))).*1).

Definition ActiveNamespaces : prog (res (list string)) :=
  r ← ReadTenantCatalog false;
  match r with
  | Err e => if errors_Is e ErrNotFound then Ret (Ok [DefaultNamespace]) else Ret (Err e)
  | Ok (cat, _) =>
    let names := active_names cat in
    if decide (names = []) then Ret (Ok [DefaultNamespace]) else Ret (Ok names)
  end.

(** *** CatalogCache: the state under [c.mu] *)
Record CatalogCache := MkCache {
  syncInterval : Z;
  catalog : option TenantCatalog;
  generation_ : string;
}.

Definition defaultSyncInterval : Z := 60 * 10 ^ 9.

Definition NewCatalogCache (nil_store : bool) (interval : Z) : res CatalogCache :=
  if nil_store then Err ErrNilStore else
  let interval := if decide (interval <= 0) then defaultSyncInterval else interval in
  Ok (MkCache interval None "").

Definition lookupCached (c : CatalogCache) (name : string) : option NamespaceMetadata :=
  match catalog c with
  | None => None
  | Some cat => Namespaces cat !! name
  end.

Definition refresh (c : CatalogCache) : prog (res (TenantCatalog * string) * CatalogCache) :=
  r ← readCatalogOrEmpty false;
  match r with
  | Err e => Ret (Err e, c)
  | Ok (cat, gen) => Ret (Ok (cat, gen), MkCache (syncInterval c) (Some cat) gen)
  end.

Definition Refresh (c : CatalogCache) : prog (res (TenantCatalog * string) * CatalogCache) :=
  refresh c.

Definition Invalidate (c : CatalogCache) : CatalogCache := MkCache (syncInterval c) None "".

Definition LookupNamespace (c : CatalogCache) (name : string)
  : prog (res NamespaceMetadata * CatalogCache) :=
  match ValidateName name with
  | Err e => Ret (Err e, c)
  | Ok _ =>
    match lookupCached c name with
    | Some meta =>
      if decide (DeletedAt meta <> 0) then Ret (Err ErrNamespaceDeleted, c) else Ret (Ok meta, c)
    | None =>
      '(r, c) ← refresh c;
      match r with
      | Err e => Ret (Err e, c)
      | Ok (cat, _) =>
        match Namespaces cat !! name with
        | None => Ret (Err ErrNamespaceNotFound, c)
        | Some meta =>
          if decide (DeletedAt meta <> 0) then Ret (Err ErrNamespaceDeleted, c)
          else Ret (Ok meta, c)
        end
      end
    end
  end.

(** What [Run]'s select waits for. *)
Inductive event := Tick | Done (err : error).

(** [Run] over the events it receives; it returns at [Done] or when a refresh
    fails because the context is over. *)
Fixpoint Run (c : CatalogCache) (events : list event) : prog (option error * CatalogCache) :=
  match events with
  | [] => Ret (None, c)
  | Done err :: _ => Ret (Some err, c)
  | Tick :: events =>
    '(r, c) ← refresh c;
    match r with
    | Err e => if negb (errors_Is e ErrNotFound) && (errors_Is e Canceled || errors_Is e DeadlineExceeded)
               then Ret (Some e, c) else Run c events
    | Ok _ => Run c events
    end
  end.

End Catalog.

(** ** branch.go *)
Section Branch.
Context `{Codec BranchCatalog}.

Definition readBranchCatalog (key : string) : prog (res (BranchCatalog * string)) :=
  r ← call (OGet key);
  match r with
  | Err e => if errors_Is e ErrNotFound then Ret (Ok (MkBranches ∅, "")) else Ret (Err e)
  | Ok (d, obj) =>
    catalog <~ lift (Unmarshal d);
    Ret (Ok (catalog, Generation obj))
  end.

Definition ListBranches (s : Scope) : prog (res (list string)) :=
  '(catalog, _) <~ readBranchCatalog (branchesKey s);
  if decide (Branches catalog = ∅) then Ret (Ok [DefaultBranch])
  else Ret (Ok (sort_Strings ((map_to_list (Branches catalog)).*1))).

(** [change] returns the changed map, or [None] for "no change". *)
Fixpoint updateBranches (fuel : nat) (s : Scope)
    (change : gmap string unit -> option (gmap string unit)) : prog (res unit) :=
  match fuel with
  | O => Ret (Err OutOfFuel)
  | S fuel =>
    '(catalog, gen) <~ readBranchCatalog (branchesKey s);
    match change (Branches catalog) with
    | None => Ret (Ok tt)
    | Some branches =>
      d <~ lift (Marshal (MkBranches branches));
      w ← call (OPut (branchesKey s) d (swap_cond gen));
      match w with
      | Ok _ => Ret (Ok tt)
      | Err e => if errors_Is e ErrPreconditionFailed then updateBranches fuel s change
                 else Ret (Err e)
      end
    end
  end.

Definition add_branch (branch : string) (branches : gmap string unit) : option (gmap string unit) :=
  match branches !! branch with Some _ => None | None => Some (<[branch := tt]> branches) end.
Definition remove_branch (branch : string) (branches : gmap string unit) : option (gmap string unit) :=
  match branches !! branch with None => None | Some _ => Some (delete branch branches) end.

Definition AddBranch (fuel : nat) (s : Scope) (branch : string) : prog (res unit) :=
  updateBranches fuel s (add_branch branch).
Definition RemoveBranch (fuel : nat) (s : Scope) (branch : string) : prog (res unit) :=
  updateBranches fuel s (remove_branch branch).

End Branch.

(** ** tenant.go *)
Section Tenants.
Context `{Codec (list string)}.

Definition ReadTenantsJSON : prog (res (list string * string)) :=
  r ← call (OGet TenantsFile);
  match r with
  | Err e => if errors_Is e ErrNotFound then Ret (Ok ([], "")) else Ret (Err e)
  | Ok (d, obj) =>
    tenants <~ lift (Unmarshal d);
    Ret (Ok (tenants, Generation obj))
  end.

Definition WriteTenantsJSON (tenants : list string) (expectedGen : string) : prog (res unit) :=
  d <~ lift (Marshal tenants);
  _ <~ call (OPut TenantsFile d (swap_cond expectedGen));
  Ret (Ok tt).

Definition ListTenants : prog (res (list string)) :=
  '(tenants, _) <~ ReadTenantsJSON;
  if decide (tenants = []) then Ret (Ok [DefaultTenant]) else Ret (Ok tenants).

Fixpoint add_tenant_loop (fuel : nat) (tenant : string) : prog (res unit) :=
  match fuel with
  | O => Ret (Err OutOfFuel)
  | S fuel =>
    '(tenants, gen) <~ ReadTenantsJSON;
    if decide (tenant ∈ tenants) then Ret (Ok tt) else
    w ← WriteTenantsJSON (tenants ++ [tenant]) gen;
    match w with
    | Ok _ => Ret (Ok tt)
    | Err e => if errors_Is e ErrPreconditionFailed then add_tenant_loop fuel tenant
               else Ret (Err e)
    end
  end.

Definition AddTenant (fuel : nat) (tenant : string) : prog (res unit) :=
  match ValidateName tenant with
  | Err e => Ret (Err e)
  | Ok _ => add_tenant_loop fuel tenant
  end.

End Tenants.

(** ** registry.go: the stores of the tenants ([None] is a nil store) *)
Section Registry.
Context {S : Type}.

Record Registry := MkRegistry { stores : gmap string S; tenants : list string }.

(** Go visits the map in an unspecified order; the model in [map_to_list]'s.
    Only which of several errors is reported depends on it. *)
Fixpoint check_stores (l : list (string * option S)) (acc : gmap string S) : res (gmap string S) :=
  match l with
  | [] => Ok acc
  | (tenant, store) :: l =>
    match ValidateName tenant with
    | Err e => Err e
    | Ok _ =>
      match store with
      | None => Err (Msg "namespace: nil store for tenant")
      | Some s => check_stores l (<[tenant := s]> acc)
      end
    end
  end.

Definition NewRegistry (m : gmap string (option S)) : res Registry :=
  if decide (size m = 0%nat) then Err (Msg "namespace: empty stores map") else
  copied ← check_stores (map_to_list m) ∅;
  Ok (MkRegistry copied (sort_Strings (map_to_list m).*1)).

Definition Store_ (r : Registry) (tenant : string) : option S := stores r !! tenant.
Definition Stores (r : Registry) : gmap string S := stores r.
Definition Tenants (r : Registry) : list string := tenants r.

End Registry.
Arguments Registry : clear implicits.

(** ** The catalog under concurrent clients *)

(** A namespace is never forgotten, keeps its epoch and creation time, and
    once it has a tombstone nothing about it changes. *)
Definition meta_le (m m' : NamespaceMetadata) : Prop :=
  Epoch m' = Epoch m /\ CreatedAt m' = CreatedAt m /\ (DeletedAt m <> 0 -> m' = m).
Definition cat_le (c c' : TenantCatalog) : Prop :=
  Tenant c' = Tenant c /\
  forall name m, Namespaces c !! name = Some m ->
    exists m', Namespaces c' !! name = Some m' /\ meta_le m m'.
Definition cat_good (c : TenantCatalog) : Prop :=
  forall name, is_Some (Namespaces c !! name) -> valid_name name.

#[export] Instance meta_le_preorder : PreOrder meta_le.
Proof.
  split; [by intros m; split_and!|]. intros a b c (E1 & C1 & D1) (E2 & C2 & D2).
  split_and!; [congruence|congruence|]. intros Ha. specialize (D1 Ha). subst b. auto.
Qed.
#[export] Instance cat_le_preorder : PreOrder cat_le.
Proof.
  split.
  - intros c. split; [done|]. intros name m Hm. exists m. split; [done|reflexivity].
  - intros a b c [T1 H1] [T2 H2]. split; [congruence|]. intros name m Hm.
    destruct (H1 name m Hm) as (m' & Hm' & ?). destruct (H2 name m' Hm') as (m'' & ? & ?).
    exists m''. split; [done|by transitivity m'].
Qed.

Lemma cat_le_insert c name m : (forall m0, Namespaces c !! name = Some m0 -> meta_le m0 m) ->
  cat_le c (MkCatalog (Tenant c) (<[name := m]> (Namespaces c))).
Proof.
  intros Hm. split; [done|]. intros name' m' Hm'. simpl.
  destruct (decide (name = name')) as [->|Hne].
  - exists m. rewrite lookup_insert_eq. auto.
  - exists m'. rewrite lookup_insert_ne by done. split; [done|reflexivity].
Qed.

Lemma cat_good_insert c name m : cat_good c -> valid_name name ->
  cat_good (MkCatalog (Tenant c) (<[name := m]> (Namespaces c))).
Proof.
  intros Hc Hn name' Hi. simpl in Hi. destruct (decide (name = name')) as [->|Hne]; [done|].
  rewrite lookup_insert_ne in Hi by done. auto.
Qed.

Lemma cat_good_empty : cat_good emptyCatalog.
Proof. intros name Hm. by apply is_Some_None in Hm. Qed.

Section CatalogSafe.
Context {S : Type} `{StoreLaws S} `{CodecLaws TenantCatalog} (faulty : bool).

#[local] Abbreviation cinv := (cas_inv CatalogFile emptyCatalog cat_good (S:=S)).
#[local] Abbreviation crel := (cas_rel CatalogFile emptyCatalog cat_le (S:=S)).
#[local] Abbreviation cseen := (seen CatalogFile emptyCatalog (S:=S)).
#[local] Abbreviation cafter := (after CatalogFile emptyCatalog cat_le (S:=S)).

Lemma ReadTenantCatalog_safe w :
  safe faulty cinv crel (ReadTenantCatalog false) (fun r w' => match r with
    | Ok (c, g) => cat_good c /\ cseen g c w' /\ cafter c w'
    | Err e => e = ErrNotFound /\ cseen "" emptyCatalog w' /\ cafter emptyCatalog w' \/
               cas_err faulty e end) w.
Proof.
  unfold ReadTenantCatalog.
  eapply safe_try; [apply _|apply safe_get; apply _| |].
  - intros [d o] w1 _ (c & Hd & Hc & Hs & _ & Ha). rewrite Hd. by cbn.
  - intros e w1 _ [(? & _ & ? & ?)|?]; [left|right]; done.
Qed.

Lemma readCatalogOrEmpty_safe w :
  safe faulty cinv crel (readCatalogOrEmpty false) (fun r w' => match r with
    | Ok (c, g) => cat_good c /\ cseen g c w' /\ cafter c w'
    | Err e => cas_err faulty e end) w.
Proof.
  unfold readCatalogOrEmpty. eapply safe_bind; [apply _|apply ReadTenantCatalog_safe|].
  intros [[c g]|e] w1 _ Hr; [done|]. destruct Hr as [(-> & Hs & Ha)|Hr]; cbn.
  - split; [apply cat_good_empty|done].
  - destruct (errors_Is e ErrNotFound) eqn:Ee; [|done].
    apply bool_decide_eq_true in Ee as ->. by destruct Hr as [_ []].
Qed.

Lemma putTenantCatalog_safe g c c' w : cseen g c w -> cat_good c' -> cat_le c c' ->
  safe faulty cinv crel (putTenantCatalog c' g) (fun r w' => match r with
    | Ok _ => cafter c' w'
    | Err e => e = ErrPreconditionFailed \/ transient e end) w.
Proof.
  intros Hs Hg Hle. unfold putTenantCatalog. rewrite try_lift. destruct (Marshal c') as [d|e] eqn:Em.
  - eapply safe_weaken; [apply _| |eapply safe_swap; [apply _|apply _|done..]]. intros [g'|e] w' _ Hr; [done|].
    destruct Hr as [->|[_ ?]]; auto.
  - right. by eapply codec_marshal_err.
Qed.

Definition create_post (name : string) (m : NamespaceMetadata) (r : res NamespaceMetadata * string)
    (w : world S) : Prop :=
  match r.1 with
  | Ok m' => m' = m /\ exists c, Namespaces c !! name = Some m /\ cafter c w
  | Err e => e = ErrNamespaceAlreadyExists -> exists c, is_Some (Namespaces c !! name) /\ cafter c w
  end.

Lemma create_loop_safe fuel name createdAt w : valid_name name ->
  safe faulty cinv crel (create_loop fuel name createdAt)
    (create_post name (MkMeta 0 createdAt 0)) w.
Proof.
  intros Hn. revert w. induction fuel as [|fuel IH]; intros w; cbn [create_loop]; [done|].
  eapply safe_bind; [apply _|apply readCatalogOrEmpty_safe|]. intros [[c g]|e] w1 _ Hr.
  2: { intros E. cbn in E. subst e. by destruct Hr as [_ []]. }
  destruct Hr as (Hg & Hs & Ha). destruct (Namespaces c !! name) as [m|] eqn:Em.
  { cbn. intros _. exists c. by rewrite Em. }
  eapply safe_bind; [apply _|eapply putTenantCatalog_safe; [done|by apply cat_good_insert|]|].
  { apply cat_le_insert. congruence. }
  intros [g'|e] w2 _ Hr2.
  - split; [done|]. eexists. split; [|exact Hr2]. simpl. by rewrite lookup_insert_eq.
  - destruct (errors_Is e ErrPreconditionFailed); [apply IH|]. cbn. intros ->. by destruct Hr2.
Qed.

Definition delete_post (name : string) (r : res NamespaceMetadata * string) (w : world S) : Prop :=
  match r.1 with
  | Ok m => DeletedAt m <> 0 /\ exists c, Namespaces c !! name = Some m /\ cafter c w
  | Err e => e <> ErrNamespaceAlreadyExists
  end.

Lemma delete_loop_safe fuel name deletedAt w : valid_name name -> deletedAt <> 0 ->
  safe faulty cinv crel (delete_loop fuel name deletedAt) (delete_post name) w.
Proof.
  intros Hn Hd. revert w. induction fuel as [|fuel IH]; intros w; cbn [delete_loop]; [done|].
  eapply safe_bind; [apply _|apply ReadTenantCatalog_safe|]. intros [[c g]|e] w1 _ Hr.
  2: { destruct (errors_Is e ErrNotFound); [done|]. intros E. cbn in E. subst e.
       by destruct Hr as [[? _]|[_ []]]. }
  destruct Hr as (Hg & Hs & Ha). destruct (Namespaces c !! name) as [m|] eqn:Em; [|done].
  case_decide as Hdel.
  { split; [done|]. exists c. done. }
  eapply safe_bind; [apply _|eapply putTenantCatalog_safe; [done|by apply cat_good_insert|]|].
  { apply cat_le_insert. intros m0. rewrite Em. intros [= <-]. by split_and!. }
  intros [g'|e] w2 _ Hr2.
  - split; [done|]. eexists. split; [|exact Hr2]. simpl. by rewrite lookup_insert_eq.
  - destruct (errors_Is e ErrPreconditionFailed); [apply IH|]. intros E. cbn in E. subst e.
    by destruct Hr2.
Qed.

Lemma create_post_stable name m : stable crel (create_post name m).
Proof.
  intros [[m'|e] g] w w' HR; unfold create_post; cbn.
  - intros (? & c & ? & ?). split; [done|]. exists c. split; [done|]. eapply after_stable; [apply _|done..].
  - intros Hp He. destruct (Hp He) as (c & ? & ?). exists c. split; [done|]. eapply after_stable; [apply _|done..].
Qed.

Lemma delete_post_stable name : stable crel (delete_post name).
Proof.
  intros [[m'|e] g] w w' HR; unfold delete_post; cbn; [|done].
  intros (? & c & ? & ?). split; [done|]. exists c. split; [done|]. eapply after_stable; [apply _|done..].
Qed.

End CatalogSafe.

(** *** The clients of the claim *)
Inductive cat_op := OpCreate (name : string) (now : Z) | OpDelete (name : string) (now : Z).

Definition cat_prog `{Codec TenantCatalog} (fuel : nat) (o : cat_op)
  : prog (res NamespaceMetadata * string) :=
  match o with
  | OpCreate name now => CreateNamespace fuel false name now
  | OpDelete name now => DeleteNamespace fuel false name now
  end.

(** What a caller that got [r] may conclude from any later catalog [c]. *)
Definition cat_answered (c : TenantCatalog) (o : cat_op) (r : res NamespaceMetadata) : Prop :=
  match o, r with
  | OpCreate name now, Ok m => m = MkMeta 0 (Z.max now 0) 0 /\
      exists m', Namespaces c !! name = Some m' /\ meta_le m m'
  | OpCreate name _, Err ErrNamespaceAlreadyExists => is_Some (Namespaces c !! name)
  | OpDelete name now, Ok m => DeletedAt m <> 0 /\ Namespaces c !! name = Some m
  | _, Err _ => True
  end.

Lemma catalog_pool {S} `{StoreLaws S} `{CodecLaws TenantCatalog} (faulty : bool) fuel
    (clients : list cat_op) n (w : world S) c0 ts n' w' :
  ok n (store w) -> holds CatalogFile emptyCatalog w c0 -> cat_good c0 ->
  rtc (pstep faulty) (cat_prog fuel <$> clients, (n, w)) (ts, (n', w')) ->
  exists c, holds CatalogFile emptyCatalog w' c /\ cat_good c /\ cat_le c0 c /\
    forall i o r, clients !! i = Some o -> ts !! i = Some (Ret r) -> cat_answered c o r.1.
Proof.
  intros Hok Hc0 Hg0 Hsteps.
  set (post := fun o : cat_op => match o with
    | OpCreate name now => create_post name (MkMeta 0 (Z.max now 0) 0) (S:=S)
    | OpDelete name now => delete_post name end).
  assert (Forall (stable (cas_rel CatalogFile emptyCatalog cat_le)) (post <$> clients)) as HQs.
  { apply Forall_fmap, Forall_true. intros []; [apply create_post_stable|apply delete_post_stable]. }
  assert (pool_safe faulty (cas_inv CatalogFile emptyCatalog cat_good)
    (cas_rel CatalogFile emptyCatalog cat_le) (cat_prog fuel <$> clients) (post <$> clients) w) as Hpool.
  { apply Forall2_fmap, Forall_Forall2_diag, Forall_true. intros [name now|name now]; simpl.
    - unfold CreateNamespace. destruct (ValidateName name) as [[]|e] eqn:Ev.
      + by apply create_loop_safe.
      + intros E. cbn in E. subst e. destruct name; simpl in Ev; repeat case_match; done.
    - unfold DeleteNamespace. destruct (ValidateName name) as [[]|e] eqn:Ev.
      + apply delete_loop_safe; [done|lia].
      + intros E. cbn in E. subst e. destruct name; simpl in Ev; repeat case_match; done. }
  assert (cas_inv CatalogFile emptyCatalog cat_good n w) as HI by (split; [done|by exists c0]).
  destruct (pool_steps _ _ _ _ _ _ _ _ _ _ HQs Hpool HI Hsteps)
    as ((_ & c & Hc & Hg) & [_ HE] & Hts).
  exists c. split; [done|split; [done|]].
  assert (forall a, after CatalogFile emptyCatalog cat_le a w' -> cat_le a c) as Haft.
  { intros a (b & Hb & Hab). by rewrite (holds_unique _ _ _ _ _ Hc Hb). }
  split; [by apply Haft, HE|]. intros i o r Hi Hr.
  assert ((post <$> clients) !! i = Some (post o)) as HQ by (by rewrite list_lookup_fmap, Hi).
  pose proof (Forall2_lookup_lr _ _ _ _ _ _ Hts Hr HQ) as HQr. cbn in HQr.
  destruct r as [[m|e] g], o as [name now|name now]; cbn in *.
  - destruct HQr as (-> & c1 & Hc1 & [_ Hle]%Haft). split; [done|]. by apply Hle.
  - destruct HQr as (Hd & c1 & Hc1 & [_ Hle]%Haft). split; [done|].
    destruct (Hle _ _ Hc1) as (m' & Hm' & (_ & _ & Hfr)). by rewrite <-(Hfr Hd).
  - destruct e; try done. destruct (HQr eq_refl) as (c1 & [m1 Hc1] & [_ Hle]%Haft).
    destruct (Hle _ _ Hc1) as (m' & Hm' & _). eauto.
  - done.
Qed.

(** C11. The catalog under concurrent clients with failing calls: however
    [CreateNamespace] and [DeleteNamespace] calls interleave, no update is
    lost.  Every namespace the catalog ever had is still there with its
    epoch and creation time, and a tombstone is final: nothing revives or
    changes a deleted namespace.  A successful create or delete is in the
    catalog from then on, and "already exists" means that it does. *)
Theorem catalog_concurrent {S} `{StoreLaws S} `{CodecLaws TenantCatalog} (faulty : bool) fuel
    (clients : list cat_op) n (w : world S) c0 ts n' w' :
  ok n (store w) -> holds CatalogFile emptyCatalog w c0 -> cat_good c0 ->
  rtc (pstep faulty) (cat_prog fuel <$> clients, (n, w)) (ts, (n', w')) ->
  exists c, holds CatalogFile emptyCatalog w' c /\ cat_good c /\ cat_le c0 c /\
    forall i o r, clients !! i = Some o -> ts !! i = Some (Ret r) -> cat_answered c o r.1.
Proof. apply catalog_pool. Qed.

(** ** Undisturbed calls *)
Section CatalogRun.
Context {S : Type} `{StoreLaws S} `{CodecLaws TenantCatalog}.
#[local] Abbreviation cholds := (holds CatalogFile emptyCatalog (S:=S)).
#[local] Abbreviation cgen := (gen_at CatalogFile (S:=S)).

Lemma run_ReadTenantCatalog n w c : ok n (store w) -> cholds w c ->
  run (ReadTenantCatalog false) w =
    (if decide (cgen w = "") then Err ErrNotFound else Ok (c, cgen w), w) /\
  (cgen w = "" -> c = emptyCatalog).
Proof.
  intros Hok Hc. pose proof (run_get _ _ _ _ _ Hok Hc) as Hg. unfold ReadTenantCatalog.
  rewrite run_try. case_decide as Hgen.
  - destruct Hg as [-> Hex]. cbn [run call]. by rewrite Hex.
  - destruct Hg as (d & o & Hex & Hd & Ho). cbn [run call]. rewrite Hex. cbn [run].
    rewrite try_lift, Hd, Ho. done.
Qed.

Lemma run_readCatalogOrEmpty n w c : ok n (store w) -> cholds w c ->
  run (readCatalogOrEmpty false) w = (Ok (c, cgen w), w).
Proof.
  intros Hok Hc. destruct (run_ReadTenantCatalog n w c Hok Hc) as [Hr He].
  unfold readCatalogOrEmpty, mbind, prog_mbind. rewrite run_bind, Hr.
  case_decide as Hg; [|done]. by rewrite Hg, He.
Qed.

Lemma run_putTenantCatalog n w c' d : ok (Datatypes.S n) (store w) -> Marshal c' = Ok d ->
  exists g w', run (putTenantCatalog c' (cgen w)) w = (Ok g, w') /\ ok n (store w') /\
    cholds w' c' /\ cgen w' = g /\ g <> "" /\ cells w' = cells w /\
    forall k, k <> CatalogFile -> view (store w') !! k = view (store w) !! k.
Proof.
  intros Hok Hm. destruct (run_swap CatalogFile emptyCatalog n w c' d Hok Hm)
    as (g & w' & Hex & Hok' & Hh & Hg & Hne & Hcells & Hfr).
  exists g, w'. split; [|done]. unfold putTenantCatalog. rewrite try_lift, Hm. cbn [run call].
  by rewrite Hex.
Qed.

Definition with_ns (c : TenantCatalog) (name : string) (m : NamespaceMetadata) : TenantCatalog :=
  MkCatalog (Tenant c) (<[name := m]> (Namespaces c)).

Lemma lookup_with_ns c name m : Namespaces (with_ns c name m) !! name = Some m.
Proof. apply lookup_insert_eq. Qed.
Lemma with_ns_twice c name m m' : with_ns (with_ns c name m) name m' = with_ns c name m'.
Proof. unfold with_ns. simpl. by rewrite insert_insert_eq. Qed.

(** [CreateNamespace] and [DeleteNamespace], case by case. *)
Lemma run_create fuel n w c name now : valid_name name -> ok (Datatypes.S n) (store w) -> cholds w c ->
  match Namespaces c !! name with
  | Some _ => run (CreateNamespace (Datatypes.S fuel) false name now) w =
                ((Err ErrNamespaceAlreadyExists, cgen w), w)
  | None => let m := MkMeta 0 (Z.max now 0) 0 in
      forall d, Marshal (with_ns c name m) = Ok d -> exists g w',
        run (CreateNamespace (Datatypes.S fuel) false name now) w = ((Ok m, g), w') /\
        ok n (store w') /\ cholds w' (with_ns c name m) /\ cgen w' = g /\ g <> "" /\
        cells w' = cells w /\ forall k, k <> CatalogFile -> view (store w') !! k = view (store w) !! k
  end.
Proof.
  intros Hv Hok Hc. unfold CreateNamespace. rewrite Hv. cbn [create_loop].
  unfold mbind, prog_mbind. rewrite run_bind, (run_readCatalogOrEmpty _ w c Hok Hc).
  destruct (Namespaces c !! name) as [m|] eqn:Em; [done|]. cbn zeta. intros d Hm.
  destruct (run_putTenantCatalog n w _ d Hok Hm) as (g & w' & Hr & ?).
  exists g, w'. rewrite run_bind. unfold with_ns in Hr. by rewrite Hr.
Qed.

Lemma run_delete fuel n w c name now : valid_name name -> ok (Datatypes.S n) (store w) -> cholds w c ->
  match Namespaces c !! name with
  | None => (run (DeleteNamespace (Datatypes.S fuel) false name now) w).1.1 = Err ErrNamespaceNotFound /\
            (run (DeleteNamespace (Datatypes.S fuel) false name now) w).2 = w
  | Some m0 =>
    if decide (DeletedAt m0 <> 0)
    then run (DeleteNamespace (Datatypes.S fuel) false name now) w = ((Ok m0, cgen w), w)
    else let m := MkMeta (Epoch m0) (CreatedAt m0) (Z.max now 1) in
      forall d, Marshal (with_ns c name m) = Ok d -> exists g w',
        run (DeleteNamespace (Datatypes.S fuel) false name now) w = ((Ok m, g), w') /\
        ok n (store w') /\ cholds w' (with_ns c name m) /\ cgen w' = g /\ g <> "" /\
        cells w' = cells w /\ forall k, k <> CatalogFile -> view (store w') !! k = view (store w) !! k
  end.
Proof.
  intros Hv Hok Hc. unfold DeleteNamespace. rewrite Hv. cbn [delete_loop].
  unfold mbind, prog_mbind. rewrite run_bind.
  destruct (run_ReadTenantCatalog _ w c Hok Hc) as [-> He].
  destruct (decide (cgen w = "")) as [Hg|Hg].
  - rewrite (He Hg). done.
  - destruct (Namespaces c !! name) as [m0|] eqn:Em; [|done].
    destruct (decide (DeletedAt m0 <> 0)) as [Hd|Hd]; [done|]. cbn zeta. intros d Hm.
    destruct (run_putTenantCatalog n w _ d Hok Hm) as (g & w' & Hr & ?).
    exists g, w'. rewrite run_bind. unfold with_ns in Hr. by rewrite Hr.
Qed.

Lemma elem_of_active c name :
  name ∈ active_names c <-> exists m, Namespaces c !! name = Some m /\ DeletedAt m = 0.
Proof.
  unfold active_names. rewrite sort_Strings_perm, list_elem_of_fmap. split.
  - intros ([k m] & -> & Hin). apply list_elem_of_filter in Hin as [Hd Hin].
    apply elem_of_map_to_list in Hin. simpl in *. eauto.
  - intros (m & Hm & Hd). exists (name, m). split; [done|].
    apply list_elem_of_filter. split; [done|]. by apply elem_of_map_to_list.
Qed.

Lemma run_active n w c : ok n (store w) -> cholds w c ->
  run ActiveNamespaces w =
    (Ok (if decide (active_names c = []) then [DefaultNamespace] else active_names c), w).
Proof.
  intros Hok Hc. unfold ActiveNamespaces, mbind, prog_mbind. rewrite run_bind.
  destruct (run_ReadTenantCatalog _ w c Hok Hc) as [-> He].
  destruct (decide (cgen w = "")) as [Hg|Hg]; [by rewrite (He Hg)|]. cbn [run]. by case_decide.
Qed.

Lemma run_refresh n w c cache : ok n (store w) -> cholds w c ->
  run (refresh cache) w =
    ((Ok (c, cgen w), MkCache (syncInterval cache) (Some c) (cgen w)), w).
Proof.
  intros Hok Hc. unfold refresh, mbind, prog_mbind.
  by rewrite run_bind, (run_readCatalogOrEmpty _ w c Hok Hc).
Qed.

End CatalogRun.

(** Life of a namespace, each call undisturbed: creating a new name makes
    it active with the clamped creation time; deleting it records the
    clamped time and takes it out of the active set; deleting it again
    returns the same metadata and writes nothing; creating it again fails
    with [ErrNamespaceAlreadyExists] for good; the other namespaces are
    untouched throughout. *)
Theorem namespace_lifecycle {S} `{StoreLaws S} `{CodecLaws TenantCatalog}
    fuel n (w : world S) c name t1 t2 t3 d1 d2 :
  let m1 := MkMeta 0 (Z.max t1 0) 0 in
  let m2 := MkMeta 0 (Z.max t1 0) (Z.max t2 1) in
  valid_name name -> ok (Datatypes.S (Datatypes.S (Datatypes.S n))) (store w) ->
  holds CatalogFile emptyCatalog w c -> Namespaces c !! name = None ->
  Marshal (with_ns c name m1) = Ok d1 -> Marshal (with_ns c name m2) = Ok d2 ->
  exists g1 w1 g2 w2,
    run (CreateNamespace (Datatypes.S fuel) false name t1) w = ((Ok m1, g1), w1) /\
    run (DeleteNamespace (Datatypes.S fuel) false name t2) w1 = ((Ok m2, g2), w2) /\
    run (DeleteNamespace (Datatypes.S fuel) false name t3) w2 = ((Ok m2, g2), w2) /\
    run (CreateNamespace (Datatypes.S fuel) false name t3) w2 =
      ((Err ErrNamespaceAlreadyExists, g2), w2) /\
    (exists l1, run ActiveNamespaces w1 = (Ok l1, w1) /\ name ∈ l1) /\
    (exists l2, run ActiveNamespaces w2 = (Ok l2, w2) /\ (name <> DefaultNamespace -> name ∉ l2)) /\
    holds CatalogFile emptyCatalog w1 (with_ns c name m1) /\
    holds CatalogFile emptyCatalog w2 (with_ns c name m2).
Proof.
  intros m1 m2 Hv Hok Hc Hnone Hd1 Hd2.
  pose proof (run_create fuel _ w c name t1 Hv Hok Hc) as Hr1. rewrite Hnone in Hr1.
  destruct (Hr1 d1 Hd1) as (g1 & w1 & Hrun1 & Hok1 & Hc1 & _).
  pose proof (run_delete fuel _ w1 _ name t2 Hv Hok1 Hc1) as Hr2.
  rewrite lookup_with_ns, decide_False in Hr2 by (intros []; done).
  cbn [Epoch CreatedAt] in Hr2. rewrite with_ns_twice in Hr2.
  destruct (Hr2 d2 Hd2) as (g2 & w2 & Hrun2 & Hok2 & Hc2 & Hg2 & _).
  exists g1, w1, g2, w2. split; [done|]. split; [done|].
  pose proof (run_delete fuel _ w2 _ name t3 Hv Hok2 Hc2) as Hr3.
  rewrite lookup_with_ns, decide_True in Hr3 by (cbn; lia).
  pose proof (run_create fuel _ w2 _ name t3 Hv Hok2 Hc2) as Hr4.
  rewrite lookup_with_ns in Hr4. rewrite Hg2 in Hr3, Hr4.
  split; [done|]. split; [done|]. split; [|split; [|done]].
  - assert (name ∈ active_names (with_ns c name m1)) as Hact.
    { apply elem_of_active. exists m1. by rewrite lookup_with_ns. }
    rewrite (run_active _ w1 _ Hok1 Hc1). eexists. split; [done|].
    fold m1. rewrite decide_False; [done|]. intros E. rewrite E in Hact. by apply elem_of_nil in Hact.
  - rewrite (run_active _ w2 _ Hok2 Hc2). eexists. split; [done|]. intros Hne. case_decide.
    + by rewrite list_elem_of_singleton.
    + rewrite elem_of_active. intros (m & Hm & Hdel). rewrite lookup_with_ns in Hm.
      injection Hm as <-. cbn in Hdel. lia.
Qed.

(** The fallback to the default namespace ignores its tombstone: when
    every namespace of the catalog is deleted, [default] included,
    [ActiveNamespaces] still reports [default] as active. *)
Theorem deleted_default_active {S} `{StoreLaws S} `{CodecLaws TenantCatalog} n (w : world S) c m :
  ok n (store w) -> holds CatalogFile emptyCatalog w c ->
  Namespaces c = {[ DefaultNamespace := m ]} -> DeletedAt m <> 0 ->
  run ActiveNamespaces w = (Ok [DefaultNamespace], w).
Proof.
  intros Hok Hc Hm Hd. rewrite (run_active _ _ _ Hok Hc).
  assert (active_names c = []) as ->; [|done].
  destruct (active_names c) as [|x l] eqn:E; [done|exfalso].
  assert (x ∈ active_names c) as Hx by (rewrite E; left).
  apply elem_of_active in Hx as (m' & Hm' & Hd'). rewrite Hm in Hm'.
  apply lookup_singleton_Some in Hm' as [_ <-]. done.
Qed.

(** What the catalog says about a name. *)
Definition truth (c : TenantCatalog) (name : string) : res NamespaceMetadata :=
  match Namespaces c !! name with
  | None => Err ErrNamespaceNotFound
  | Some m => if decide (DeletedAt m <> 0) then Err ErrNamespaceDeleted else Ok m
  end.

(** C32. The cache may be stale in one direction only.  If the cached catalog
    is any earlier state of the stored one, [LookupNamespace] answers
    "deleted" and "not found" only when that is so now, and a positive
    answer is the stored metadata unless the namespace has been deleted
    since it was cached; a lookup that misses the cache answers from the
    store and caches what it read. *)
Theorem cache_lookup {S} `{StoreLaws S} `{CodecLaws TenantCatalog} n (w : world S) c cache name :
  ok n (store w) -> holds CatalogFile emptyCatalog w c -> valid_name name ->
  (forall old, catalog cache = Some old -> cat_le old c) ->
  exists r cache', run (LookupNamespace cache name) w = ((r, cache'), w) /\
    (forall old, catalog cache' = Some old -> cat_le old c) /\
    (lookupCached cache name = None -> r = truth c name /\ catalog cache' = Some c) /\
    match r with
    | Ok m => truth c name = Ok m \/ truth c name = Err ErrNamespaceDeleted
    | Err e => truth c name = Err e
    end.
Proof.
  intros Hok Hc Hv Hold. unfold LookupNamespace. rewrite Hv.
  destruct (lookupCached cache name) as [m|] eqn:El.
  - assert (exists m', Namespaces c !! name = Some m' /\ meta_le m m') as (m' & Hm' & (_ & _ & Hfr)).
    { unfold lookupCached in El. destruct (catalog cache) as [old|]; [|done].
      destruct (Hold old eq_refl) as [_ Ho]. by apply Ho. }
    assert (meta_le m m') as Hle.
    { unfold lookupCached in El. destruct (catalog cache) as [old|]; [|done].
      destruct (Hold old eq_refl) as [_ Ho]. destruct (Ho _ _ El) as (m2 & Hm2 & ?). congruence. }
    case_decide as Hd.
    + exists (Err ErrNamespaceDeleted), cache. split; [done|]. split; [done|]. split; [done|].
      unfold truth. rewrite Hm', (Hfr Hd). by rewrite decide_True.
    + exists (Ok m), cache. split; [done|]. split; [done|]. split; [done|].
      unfold truth. rewrite Hm'. case_decide as Hd'; [by right|left].
      destruct Hle as (He & Ht & _). destruct m, m'; simpl in *. repeat f_equal; lia.
  - unfold mbind, prog_mbind. rewrite run_bind, (run_refresh _ _ _ _ Hok Hc). cbn [run].
    exists (truth c name), (MkCache (syncInterval cache) (Some c) (gen_at CatalogFile w)).
    split; [|split; [|split; [done|]]].
    + unfold truth. destruct (Namespaces c !! name) as [m|]; [|done]. by case_decide.
    + intros old [= <-]. reflexivity.
    + destruct (truth c name); auto.
Qed.

(** ** Branch lists, undisturbed *)
Section BranchRun.
Context {S : Type} `{StoreLaws S} `{CodecLaws BranchCatalog} (s : Scope).
#[local] Abbreviation bholds := (holds (branchesKey s) (MkBranches ∅) (S:=S)).

Lemma run_readBranchCatalog n w b : ok n (store w) -> bholds w b ->
  run (readBranchCatalog (branchesKey s)) w = (Ok (b, gen_at (branchesKey s) w), w).
Proof.
  intros Hok Hb. pose proof (run_get _ _ _ _ _ Hok Hb) as Hg.
  unfold readBranchCatalog, mbind, prog_mbind. rewrite run_bind. cbn [run call].
  case_decide as Hgen.
  - destruct Hg as [-> ->]. cbn. by rewrite Hgen.
  - destruct Hg as (d & o & -> & Hd & Ho). rewrite try_lift, Hd, Ho. done.
Qed.

Lemma run_updateBranches fuel n w b change : ok (Datatypes.S n) (store w) -> bholds w b ->
  match change (Branches b) with
  | None => run (updateBranches (Datatypes.S fuel) s change) w = (Ok tt, w)
  | Some b' => forall d, Marshal (MkBranches b') = Ok d -> exists w',
      run (updateBranches (Datatypes.S fuel) s change) w = (Ok tt, w') /\
      ok n (store w') /\ bholds w' (MkBranches b') /\ cells w' = cells w /\
      forall k, k <> branchesKey s -> view (store w') !! k = view (store w) !! k
  end.
Proof.
  intros Hok Hb. cbn [updateBranches]. rewrite run_try, (run_readBranchCatalog _ _ _ Hok Hb).
  destruct (change (Branches b)) as [b'|]; [|done]. intros d Hd.
  destruct (run_swap (branchesKey s) (MkBranches ∅) n w _ d Hok Hd)
    as (g & w' & Hex & Hok' & Hh & _ & _ & Hcells & Hfr).
  exists w'. rewrite try_lift, Hd. unfold mbind, prog_mbind. rewrite run_bind. cbn [run call].
  by rewrite Hex.
Qed.

Lemma run_ListBranches n w b : ok n (store w) -> bholds w b ->
  run (ListBranches s) w =
    (Ok (if decide (Branches b = ∅) then [DefaultBranch]
         else sort_Strings ((map_to_list (Branches b)).*1)), w).
Proof.
  intros Hok Hb. unfold ListBranches. rewrite run_try, (run_readBranchCatalog _ _ _ Hok Hb).
  by case_decide.
Qed.

End BranchRun.

(** Branch lists: [AddBranch] and [RemoveBranch] change exactly the named
    branch and are idempotent, and [ListBranches] returns the branches in
    order without repetition, or [main] alone when there are none; so the
    first branch added to an empty list replaces the implied [main]. *)
Theorem branch_list {S} `{StoreLaws S} `{CodecLaws BranchCatalog} fuel s n (w : world S) b name d :
  ok (3 + n) (store w) -> holds (branchesKey s) (MkBranches ∅) w b ->
  Marshal (MkBranches (<[name := tt]> (Branches b))) = Ok d ->
  exists w1, run (AddBranch (Datatypes.S fuel) s name) w = (Ok tt, w1) /\
    holds (branchesKey s) (MkBranches ∅) w1 (MkBranches (<[name := tt]> (Branches b))) /\
    run (AddBranch (Datatypes.S fuel) s name) w1 = (Ok tt, w1) /\
    (exists l, run (ListBranches s) w1 = (Ok l, w1) /\ StronglySorted str_lt l /\
       forall x, x ∈ l <-> x = name \/ is_Some (Branches b !! x)) /\
    (Branches b !! name = None -> forall d', Marshal (MkBranches (Branches b)) = Ok d' ->
       exists w2, run (RemoveBranch (Datatypes.S fuel) s name) w1 = (Ok tt, w2) /\
         holds (branchesKey s) (MkBranches ∅) w2 b /\
         run (RemoveBranch (Datatypes.S fuel) s name) w2 = (Ok tt, w2)).
Proof.
  intros Hok Hb Hd. set (b1 := MkBranches (<[name := tt]> (Branches b))).
  assert (exists w1, run (AddBranch (Datatypes.S fuel) s name) w = (Ok tt, w1) /\
    ok (2 + n) (store w1) /\ holds (branchesKey s) (MkBranches ∅) w1 b1)
    as (w1 & Hadd & Hok1 & Hb1).
  { pose proof (run_updateBranches s fuel _ w b (add_branch name) Hok Hb) as Hu.
    unfold add_branch in Hu at 1. destruct (Branches b !! name) as [[]|] eqn:En.
    - exists w. split; [done|]. split; [eapply ok_weaken; [|done]; lia|].
      unfold b1. rewrite insert_id by done. by destruct b.
    - destruct (Hu d Hd) as (w1 & ? & ? & ? & _). eauto. }
  exists w1. split; [done|]. split; [done|]. split; [|split].
  - pose proof (run_updateBranches s fuel _ w1 _ (add_branch name) Hok1 Hb1) as Hu.
    unfold add_branch in Hu at 1. simpl in Hu. by rewrite lookup_insert_eq in Hu.
  - rewrite (run_ListBranches s _ w1 _ Hok1 Hb1). rewrite decide_False by apply insert_non_empty.
    eexists. split; [done|]. split.
    + apply NoDup_le_sorted; [rewrite sort_Strings_perm; apply NoDup_fst_map_to_list|].
      apply (StronglySorted_merge_sort String.le).
    + intros x. rewrite sort_Strings_perm, list_elem_of_fmap. split.
      * intros ([k u] & -> & Hin). apply elem_of_map_to_list in Hin. simpl in *.
        apply lookup_insert_Some in Hin as [[-> _]|[_ ?]]; eauto.
      * intros Hx. assert (is_Some (Branches b1 !! x)) as [u Hu].
        { simpl. destruct (decide (name = x)) as [->|]; [rewrite lookup_insert_eq; eauto|].
          rewrite lookup_insert_ne by done. by destruct Hx as [->|?]. }
        exists (x, u). split; [done|]. by apply elem_of_map_to_list.
  - intros Hnone d' Hd'.
    pose proof (run_updateBranches s fuel _ w1 _ (remove_branch name) Hok1 Hb1) as Hu.
    unfold remove_branch in Hu at 1. simpl in Hu. rewrite lookup_insert_eq in Hu.
    rewrite delete_insert_id in Hu by done. destruct (Hu d' Hd') as (w2 & Hrm & Hok2 & Hb2 & _).
    exists w2. split; [done|]. split; [by destruct b|].
    pose proof (run_updateBranches s fuel _ w2 _ (remove_branch name) Hok2 Hb2) as Hu2.
    unfold remove_branch in Hu2 at 1. simpl in Hu2. by rewrite Hnone in Hu2.
Qed.

(** ** Witnesses *)
#[local] Instance ex_catalog_codec : Codec TenantCatalog := bit_codec TenantCatalog.
#[local] Instance ex_catalog_laws : CodecLaws TenantCatalog := bit_codec_laws TenantCatalog.
#[local] Instance ex_branch_codec : Codec BranchCatalog := bit_codec BranchCatalog.
#[local] Instance ex_branch_laws : CodecLaws BranchCatalog := bit_codec_laws BranchCatalog.

Definition ex_empty : world Mem.memStore := MkWorld Mem.newMemStore ∅.
Definition ex_ops : list cat_op := [OpCreate "docs" 10; OpCreate "docs" 20; OpDelete "docs" 30].

(** Both creators read the empty catalog; one wins, the other retries and
    finds the name; the delete then puts the tombstone. *)
Definition ex_outcome (c : list (prog (res NamespaceMetadata * string)) * (nat * world Mem.memStore))
  : list (option (res NamespaceMetadata)) := option_map fst <$> results c.1.

Lemma ex_ops_run :
  ex_outcome <$>
    interleave [0; 1; 0; 1; 1; 2; 2]%nat (cat_prog 5 <$> ex_ops) 20 ex_empty
  = Some [Some (Ok (MkMeta 0 10 0)); Some (Err ErrNamespaceAlreadyExists);
          Some (Ok (MkMeta 0 10 30))].
Proof. vm_compute. reflexivity. Qed.

Lemma catalog_concurrent_witness : exists ts n' w' c,
  interleave [0; 1; 0; 1; 1; 2; 2]%nat (cat_prog 5 <$> ex_ops) 20 ex_empty = Some (ts, (n', w')) /\
  holds CatalogFile emptyCatalog w' c /\ is_Some (Namespaces c !! "docs").
Proof.
  pose proof ex_ops_run as Hr. destruct (interleave _ _ _ _) as [[ts [n' w']]|] eqn:E; [|discriminate Hr].
  cbn [fmap option_fmap option_map fst] in Hr.
  pose proof (interleave_steps false _ _ _ _ _ E) as Hst.
  apply (catalog_concurrent false 5 ex_ops 20 ex_empty emptyCatalog) in Hst as (c & Hc & _ & _ & Hts).
  - exists ts, n', w', c. split; [reflexivity|]. split; [exact Hc|].
    destruct ts as [|t0 [|t1 ts]]; [discriminate Hr..|]. injection Hr as H0 H1 _.
    destruct t1 as [[r g]|]; [|discriminate H1]. injection H1 as H1.
    specialize (Hts 1%nat (OpCreate "docs" 20) (r, g) eq_refl eq_refl). cbn [fst] in Hts, H1.
    rewrite H1 in Hts. exact Hts.
  - apply Mem.newMemStore_ok. lia.
  - reflexivity.
  - exact cat_good_empty.
Defined.

Lemma namespace_lifecycle_witness : exists g1 w1 g2 w2,
  run (CreateNamespace 3 false "docs" 10) ex_empty = ((Ok (MkMeta 0 10 0), g1), w1) /\
  run (DeleteNamespace 3 false "docs" 30) w1 = ((Ok (MkMeta 0 10 30), g2), w2).
Proof.
  destruct (namespace_lifecycle 2 5 ex_empty emptyCatalog "docs" 10 30 40
    (pos_bytes (encode (with_ns emptyCatalog "docs" (MkMeta 0 10 0))))
    (pos_bytes (encode (with_ns emptyCatalog "docs" (MkMeta 0 10 30)))))
    as (g1 & w1 & g2 & w2 & H1 & H2 & _).
  - reflexivity.
  - apply Mem.newMemStore_ok. lia.
  - reflexivity.
  - reflexivity.
  - vm_compute. reflexivity.
  - vm_compute. reflexivity.
  - exists g1, w1, g2, w2. split; [exact H1|exact H2].
Defined.

Definition ex_deleted : TenantCatalog := MkCatalog "" {[ DefaultNamespace := MkMeta 0 1 2 ]}.
Definition ex_deleted_world : world Mem.memStore :=
  MkWorld (Mem.Put None CatalogFile (Ok (pos_bytes (encode ex_deleted))) IfAbsent Mem.newMemStore).2 ∅.

Lemma ex_deleted_world_ok : Mem.mem_ok 5 (store ex_deleted_world).
Proof.
  unfold ex_deleted_world. cbn [store]. apply mem_put_ok.
  - apply Mem.newMemStore_ok. lia.
  - vm_compute. reflexivity.
Qed.

Lemma deleted_default_active_witness :
  run ActiveNamespaces ex_deleted_world = (Ok [DefaultNamespace], ex_deleted_world).
Proof.
  apply (deleted_default_active 5 ex_deleted_world ex_deleted (MkMeta 0 1 2)).
  - exact ex_deleted_world_ok.
  - vm_compute. reflexivity.
  - reflexivity.
  - discriminate.
Defined.

(** The cache of a client that read the catalog before the namespace was
    deleted. *)
Definition ex_stale : CatalogCache := MkCache 1 (Some (MkCatalog "" {[ DefaultNamespace := MkMeta 0 1 0 ]})) "1-1".

Lemma ex_stale_le old : catalog ex_stale = Some old -> cat_le old ex_deleted.
Proof.
  intros [= <-]. split; [done|]. intros name m. cbn [Namespaces]. intros [<- <-]%lookup_singleton_Some.
  exists (MkMeta 0 1 2). done.
Qed.

Lemma cache_lookup_witness : exists r cache' r' cache2,
  run (LookupNamespace (MkCache 1 None "") "default") ex_deleted_world = ((r, cache'), ex_deleted_world) /\
  r = truth ex_deleted "default" /\
  run (LookupNamespace ex_stale "default") ex_deleted_world = ((r', cache2), ex_deleted_world) /\
  r' = Ok (MkMeta 0 1 0) /\ truth ex_deleted "default" = Err ErrNamespaceDeleted.
Proof.
  destruct (cache_lookup 5 ex_deleted_world ex_deleted (MkCache 1 None "") "default")
    as (r & cache' & Hr & _ & Hn & _);
    [exact ex_deleted_world_ok|vm_compute; reflexivity|reflexivity|discriminate|].
  destruct (cache_lookup 5 ex_deleted_world ex_deleted ex_stale "default") as (r' & cache2 & Hr' & _ & _ & Hm);
    [exact ex_deleted_world_ok|vm_compute; reflexivity|reflexivity|exact ex_stale_le|].
  exists r, cache', r', cache2. split; [exact Hr|]. split; [apply Hn; reflexivity|]. split; [exact Hr'|].
  apply (f_equal (fun x => x.1.1)) in Hr'. cbn [fst] in Hr'. rewrite <-Hr' in *. split; [vm_compute; reflexivity|].
  destruct Hm as [Hm|Hm]; [vm_compute in Hm; discriminate Hm|exact Hm].
Defined.

Lemma branch_list_witness : exists w1,
  run (AddBranch 2 (MkScope "docs") "dev") ex_empty = (Ok tt, w1) /\
  exists l, run (ListBranches (MkScope "docs")) w1 = (Ok l, w1) /\ "dev" ∈ l.
Proof.
  destruct (branch_list 1 (MkScope "docs") 5 ex_empty (MkBranches ∅) "dev"
    (pos_bytes (encode (MkBranches (<[ "dev" := tt ]> ∅))))) as (w1 & H1 & _ & _ & (l & Hl & _ & Hx) & _).
  - apply Mem.newMemStore_ok. lia.
  - vm_compute. reflexivity.
  - vm_compute. reflexivity.
  - exists w1. split; [exact H1|]. exists l. split; [exact Hl|]. apply Hx. by left.
Defined.
