(* ===== verification/Float32.v ===== *)
(** * float32 and the record message

    IEEE 754 binary32 as the Standard Library's [spec_float] with 24 bits of
    precision; the operations round to nearest even as Go's float32 does.
    One NaN stands for all of them.  [Record] and [AttributeValue] are
    proto/cloudyneigh/v1. *)

From S2P Require Import Prelude.
From Stdlib Require Import Floats.SpecFloat.
Local Open Scope Z_scope.

Definition float32 : Type := spec_float.
Definition prec : Z := 24.
Definition emax : Z := 128.

#[export] Instance float32_eq_dec : EqDecision spec_float.
Proof. solve_decision. Defined.

#[export] Program Instance float32_countable : Countable spec_float := inj_countable'
  (fun x => match x with
            | S754_zero s => (0, s, 1%positive, 0)
            | S754_infinity s => (1, s, 1%positive, 0)
            | S754_nan => (2, false, 1%positive, 0)
            | S754_finite s m e => (3, s, m, e)
            end)
  (fun '(t, s, m, e) => if decide (t = 0) then S754_zero s else if decide (t = 1) then S754_infinity s
     else if decide (t = 2) then S754_nan else S754_finite s m e) _.
Next Obligation. by intros []. Qed.

Definition fadd (a b : float32) : float32 := SFadd prec emax a b.
Definition fsub (a b : float32) : float32 := SFsub prec emax a b.
Definition fmul (a b : float32) : float32 := SFmul prec emax a b.
Definition fdiv (a b : float32) : float32 := SFdiv prec emax a b.
Definition fzero : float32 := S754_zero false.
(** float64 operations, and [math.Sqrt]. *)
Definition fsqrt64 (a : spec_float) : spec_float := SFsqrt 53 1024 a.
Definition fdiv64 (a b : spec_float) : spec_float := SFdiv 53 1024 a b.
Definition fmul64 (a b : spec_float) : spec_float := SFmul 53 1024 a b.
(** Conversion between the formats: exact widening, rounding narrowing. *)
Definition to_float32 (a : spec_float) : float32 :=
  match a with
  | S754_finite s m e => binary_normalize prec emax (if s then Z.neg m else Z.pos m) e s
  | _ => a
  end.
Definition to_float64 (a : float32) : spec_float :=
  match a with
  | S754_finite s m e => binary_normalize 53 1024 (if s then Z.neg m else Z.pos m) e s
  | _ => a
  end.
Definition fone : float32 := Eval vm_compute in binary_normalize prec emax 1 0 false.
Definition fone64 : spec_float := Eval vm_compute in binary_normalize 53 1024 1 0 false.

(** Go's comparisons: false on NaN. *)
Definition feq (a b : float32) : bool := SFeqb a b.
Definition flt (a b : float32) : bool := SFltb a b.
Definition is_nan (a : float32) : bool := match a with S754_nan => true | _ => false end.

(** ** Messages *)
Inductive AttributeValue := ValueUnset | StringValue (s : string).
Record DocRecord := MkRecord {
  Id : string;
  Vectors : gmap string (list float32);
  Attributes : gmap string AttributeValue }.

#[export] Instance AttributeValue_eq_dec : EqDecision AttributeValue.
Proof. solve_decision. Defined.
#[export] Program Instance AttributeValue_countable : Countable AttributeValue := inj_countable'
  (fun v => match v with ValueUnset => None | StringValue s => Some s end)
  (fun v => match v with None => ValueUnset | Some s => StringValue s end) _.
Next Obligation. by intros []. Qed.
#[export] Instance DocRecord_eq_dec : EqDecision DocRecord.
Proof. solve_decision. Defined.
#[export] Program Instance DocRecord_countable : Countable DocRecord := inj_countable'
  (fun r => (Id r, Vectors r, Attributes r)) (fun '(i, v, a) => MkRecord i v a) _.
Next Obligation. by intros []. Qed.
