(* ===== verification/Sha256.v ===== *)
(** * crypto/sha256

    SHA-256 as the standard library computes it, on lists of bytes; the
    flusher names segments by it.  The theorems about segments assume no
    collision among the segments at hand, never injectivity. *)

From S2P Require Import Prelude.
Local Open Scope Z_scope.

Definition rotr (n x : Z) : Z := Z.lor (Z.shiftr x n) (u32 (Z.shiftl x (32 - n))).

(** The constants are bits of roots of the first primes (FIPS 180-4): the
    first 32 bits of the fractional part of the cube roots of the first 64,
    and of the square roots of the first eight. *)
Definition is_prime (n : Z) : bool :=
  forallb (fun d => negb (bool_decide (n mod d = 0))) (seqZ 2 (n - 2)).
Definition primes (k : nat) : list Z := take k (filter (fun n => is_prime n = true) (seqZ 2 400)).

(** The largest [r] below [r + 2 ^ k] with [r ^ 3 <= n]. *)
Fixpoint cbrt_bits (k : nat) (r n : Z) : Z :=
  match k with
  | O => r
  | S k => let r' := r + 2 ^ Z.of_nat k in cbrt_bits k (if decide (r' ^ 3 <= n) then r' else r) n
  end.

Definition K256 : list Z :=
  Eval vm_compute in (fun p => cbrt_bits 40 0 (p * 2 ^ 96) mod 2 ^ 32) <$> primes 64.
Definition H256 : list Z :=
  Eval vm_compute in (fun p => Z.sqrt (p * 2 ^ 64) mod 2 ^ 32) <$> primes 8.

Fixpoint be_get (l : list byte) (acc : Z) : Z :=
  match l with [] => acc | b :: l => be_get l (acc * 256 + byte_to_Z b) end.

(** The message, a one bit, zeros, and the length in bits. *)
Definition pad (d : list byte) : list byte :=
  let n := length d in
  let zeros := ((119 - n mod 64) mod 64)%nat in
  d ++ [x80] ++ replicate zeros x00 ++ be_put 8 (u64 (8 * Z.of_nat n)).

Fixpoint words (k : nat) (l : list byte) : list Z :=
  match k with O => [] | S k => be_get (take 4 l) 0 :: words k (drop 4 l) end.

(** The message schedule; [ws] has the last sixteen words, newest first. *)
Fixpoint schedule (k : nat) (ws : list Z) : list Z :=
  match k with
  | O => []
  | S k =>
    let w2 := nth 1 ws 0 in let w7 := nth 6 ws 0 in
    let w15 := nth 14 ws 0 in let w16 := nth 15 ws 0 in
    let s0 := Z.lxor (Z.lxor (rotr 7 w15) (rotr 18 w15)) (Z.shiftr w15 3) in
    let s1 := Z.lxor (Z.lxor (rotr 17 w2) (rotr 19 w2)) (Z.shiftr w2 10) in
    let w := u32 (w16 + s0 + w7 + s1) in
    w :: schedule k (w :: take 15 ws)
  end.

Definition round (st : list Z) (kw : Z * Z) : list Z :=
  match st with
  | [a; b; c; d; e; f; g; h] =>
    let s1 := Z.lxor (Z.lxor (rotr 6 e) (rotr 11 e)) (rotr 25 e) in
    let ch := Z.lxor (Z.land e f) (Z.land (Z.lxor e 0xffffffff) g) in
    let t1 := u32 (h + s1 + ch + kw.1 + kw.2) in
    let s0 := Z.lxor (Z.lxor (rotr 2 a) (rotr 13 a)) (rotr 22 a) in
    let maj := Z.lxor (Z.lxor (Z.land a b) (Z.land a c)) (Z.land b c) in
    let t2 := u32 (s0 + maj) in
    [u32 (t1 + t2); a; b; c; u32 (d + t1); e; f; g]
  | _ => st
  end.

Definition block (st : list Z) (chunk : list byte) : list Z :=
  let w16 := words 16 chunk in
  let ws := w16 ++ schedule 48 (reverse w16) in
  zip_with (fun x y => u32 (x + y)) st (foldl round st (zip K256 ws)).

Fixpoint blocks (fuel : nat) (st : list Z) (l : list byte) : list Z :=
  match fuel, l with
  | S fuel, _ :: _ => blocks fuel (block st (take 64 l)) (drop 64 l)
  | _, _ => st
  end.

Definition Sum256 (d : list byte) : list byte :=
  let l := pad d in mjoin (be_put 4 <$> blocks (length l) H256 l).

(** The digest of "abc" (FIPS 180-2). *)
Example Sum256_abc : Sum256 [x61; x62; x63] =
  be_put 32 0xba7816bf8f01cfea414140de5dae2223b00361a396177a9cb410ff61f20015ad.
Proof. vm_compute. reflexivity. Qed.

Example Sum256_two_blocks : Sum256 (replicate 100 x61) =
  be_put 32 0x2816597888e4a0d3a36b82b83316ab32680eb8f00f8cd3b904d681246d285a0e.
Proof. vm_compute. reflexivity. Qed.

Lemma length_round st kw : length st = 8%nat -> length (round st kw) = 8%nat.
Proof. intros H. do 9 (destruct st as [|? st]; try done). Qed.

Lemma length_block st c : length st = 8%nat -> length (block st c) = 8%nat.
Proof.
  intros H. unfold block. rewrite length_zip_with, H.
  assert (forall l s, length s = 8%nat -> length (foldl round s l) = 8%nat) as ->; [|done|done].
  induction l as [|kw l IH]; intros s Hs; [done|]. simpl. by apply IH, length_round.
Qed.

Lemma length_Sum256 d : length (Sum256 d) = 32%nat.
Proof.
  unfold Sum256.
  assert (forall fuel st l, length st = 8%nat -> length (blocks fuel st l) = 8%nat) as Hb.
  { induction fuel as [|fuel IH]; intros st [|b l] Hs; try done. simpl. by apply IH, length_block. }
  specialize (Hb (length (pad d)) H256 (pad d) eq_refl).
  assert (forall l, length (mjoin (be_put 4 <$> l)) = 4 * length l)%nat as ->; [|by rewrite Hb].
  induction l as [|z l IH]; [done|]. rewrite fmap_cons. simpl.
  rewrite IH. lia.
Qed.
