(* ===== verification/Storage.v ===== *)
(** * The stored messages, branch manifests and segments

    proto/storage/v1 as inductive types, src/manifest/manifest.go, and
    src/segment/{writer,reader}.go.  [proto.Marshal] and friends are the
    [Codec] of each message type. *)

From S2P Require Import Prelude GoIo Recordio Scanner ObjectStore Prog Codec Cas.
Local Open Scope Z_scope.

(** ** Messages (enums are open: other numbers decode to [Op_other]) *)
Inductive MutationOp := MUTATION_OP_UNSPECIFIED | PUT | DELETE | Op_other (n : Z).
Record DocumentMutation := MkMutation {
  Branch : string; DocId : string; Op : MutationOp; Payload : list byte }.
Inductive EventType := EVENT_UNSPECIFIED | FORK | Event_other (n : Z).
Record BranchLifecycleEvent := MkEvent {
  Type_ : EventType; EvBranch : string; ParentBranch : string }.
(** The oneof: not set, a mutation, a branch event. *)
Inductive WalRecord :=
  | WalNone
  | WalMutation (m : DocumentMutation)
  | WalBranchEvent (e : BranchLifecycleEvent).
Record SegmentRef := MkSegmentRef { SegmentId : string; DocCount : Z; DocsSize : Z }.
Record BranchManifest := MkManifest {
  CheckpointSeq : Z; SchemaVersion : Z; Segments : list SegmentRef }.

#[export] Instance MutationOp_eq_dec : EqDecision MutationOp.
Proof. solve_decision. Defined.
#[export] Instance DocumentMutation_eq_dec : EqDecision DocumentMutation.
Proof. solve_decision. Defined.
#[export] Instance EventType_eq_dec : EqDecision EventType.
Proof. solve_decision. Defined.
#[export] Instance BranchLifecycleEvent_eq_dec : EqDecision BranchLifecycleEvent.
Proof. solve_decision. Defined.
#[export] Instance WalRecord_eq_dec : EqDecision WalRecord.
Proof. solve_decision. Defined.
#[export] Instance SegmentRef_eq_dec : EqDecision SegmentRef.
Proof. solve_decision. Defined.
#[export] Instance BranchManifest_eq_dec : EqDecision BranchManifest.
Proof. solve_decision. Defined.

#[export] Program Instance MutationOp_countable : Countable MutationOp := inj_countable'
  (fun o => match o with MUTATION_OP_UNSPECIFIED => (0, 0) | PUT => (1, 0) | DELETE => (2, 0)
            | Op_other n => (3, n) end)
  (fun '(t, n) => if decide (t = 0) then MUTATION_OP_UNSPECIFIED else if decide (t = 1) then PUT
                  else if decide (t = 2) then DELETE else Op_other n) _.
Next Obligation. by intros []. Qed.
#[export] Program Instance EventType_countable : Countable EventType := inj_countable'
  (fun o => match o with EVENT_UNSPECIFIED => (0, 0) | FORK => (1, 0) | Event_other n => (2, n) end)
  (fun '(t, n) => if decide (t = 0) then EVENT_UNSPECIFIED else if decide (t = 1) then FORK
                  else Event_other n) _.
Next Obligation. by intros []. Qed.
#[export] Program Instance DocumentMutation_countable : Countable DocumentMutation := inj_countable'
  (fun m => (Branch m, DocId m, Op m, Payload m)) (fun '(b, d, o, p) => MkMutation b d o p) _.
Next Obligation. by intros []. Qed.
#[export] Program Instance BranchLifecycleEvent_countable : Countable BranchLifecycleEvent :=
  inj_countable' (fun e => (Type_ e, EvBranch e, ParentBranch e)) (fun '(t, b, p) => MkEvent t b p) _.
Next Obligation. by intros []. Qed.
#[export] Program Instance WalRecord_countable : Countable WalRecord := inj_countable'
  (fun r => match r with WalNone => inl tt | WalMutation m => inr (inl m)
            | WalBranchEvent e => inr (inr e) end)
  (fun x : unit + (DocumentMutation + BranchLifecycleEvent) =>
     match x with inl _ => WalNone | inr (inl m) => WalMutation m
     | inr (inr e) => WalBranchEvent e end) _.
Next Obligation. by intros []. Qed.
#[export] Program Instance SegmentRef_countable : Countable SegmentRef := inj_countable'
  (fun s => (SegmentId s, DocCount s, DocsSize s)) (fun '(i, c, d) => MkSegmentRef i c d) _.
Next Obligation. by intros []. Qed.
#[export] Program Instance BranchManifest_countable : Countable BranchManifest := inj_countable'
  (fun m => (CheckpointSeq m, SchemaVersion m, Segments m)) (fun '(c, v, s) => MkManifest c v s) _.
Next Obligation. by intros []. Qed.

(** ** manifest.go *)
Module Manifest.
Section Manifest.
Context `{Codec BranchManifest}.

Definition Read (key : string) : prog (res (BranchManifest * string)) :=
  '(d, obj) <~ call (OGet key);
  m <~ lift (Unmarshal d);
  Ret (Ok (m, Generation obj)).

(** A nil manifest is [None]. *)
Definition Write (key : string) (m : option BranchManifest) (expectedGen : string)
  : prog (res string) :=
  match m with
  | None => Ret (Err ErrNilManifest)
  | Some m =>
    d <~ lift (Marshal m);
    let cond := if decide (expectedGen = "") then IfAbsent else IfGeneration expectedGen in
    call (OPut key d cond)
  end.

End Manifest.
End Manifest.

(** ** segment/writer.go, segment/reader.go *)
Module Segment.
Section Segment.
Context {W : Type} `{IoWriter W} `{Codec DocumentMutation}.

(** The embedded [recordio.Writer]; [buf] is scratch space that [Write]
    overwrites before use, so it is not state. *)
Definition Writer : Type := Writer.Writer W.
Definition NewWriter (w : W) : Writer := Writer.NewWriter w [].

(** A nil mutation is [None]. *)
Definition Write (w : Writer) (m : option DocumentMutation) : Writer * option error :=
  match m with
  | None => (w, Some ErrNilMutation)
  | Some m =>
    match Marshal m with
    | Err e => (w, Some e)
    | Ok buf => match Writer.WriteRecord w buf with
                | (w, (_, _, e)) => (w, e)
                end
    end
  end.

End Segment.

Section Reader.
Context `{Codec DocumentMutation}.

Definition Reader : Type := Scanner.Scanner.
Definition NewReader (r : source) : Reader := NewScanner r None [].

Definition Next (r : Reader) : res DocumentMutation * Reader :=
  let '(s, ok) := Scan r in
  if (ok : bool) then (Unmarshal (Record_ s), s)
  else match Err_ s with
       | Some e => (Err e, s)
       | None => (Err EOF, s)
       end.

End Reader.

Section Batch.
Context `{Codec DocumentMutation}.

(** The writing loop of the flusher: a segment of the given mutations. *)
Fixpoint write_all (w : Writer (W:=Buffer)) (ms : list DocumentMutation)
  : Writer (W:=Buffer) * option error :=
  match ms with
  | [] => (w, None)
  | m :: ms => match Write w (Some m) with
               | (w, Some e) => (w, Some e)
               | (w, None) => write_all w ms
               end
  end.

Definition encode_segment (ms : list DocumentMutation) : res (list byte) :=
  match write_all (NewWriter ([] : Buffer)) ms with
  | (_, Some e) => Err e
  | (w, None) => match Writer.Close w with
                 | (_, Some e) => Err e
                 | (w, None) => Ok (bw_wr (Writer.bw w))
                 end
  end.

(** The reading loop of the loader without its per-mutation work: the
    mutations up to the end or the first error. *)
Fixpoint read_loop (fuel : nat) (r : Reader) : list DocumentMutation * option error :=
  match fuel with
  | O => ([], Some OutOfFuel)
  | S fuel =>
    match Next r with
    | (Ok m, r) => let '(ms, e) := read_loop fuel r in (m :: ms, e)
    | (Err e, _) => ([], if errors_Is e EOF then None else Some e)
    end
  end.

Definition decode_segment (d : list byte) : list DocumentMutation * option error :=
  read_loop (S (length d)) (NewReader (Source [d] EOF)).

(** The encodings of the mutations, as the writer frames them. *)
Fixpoint marshal_all (ms : list DocumentMutation) : res (list (list byte)) :=
  match ms with
  | [] => Ok []
  | m :: ms => match Marshal m with
               | Err e => Err e
               | Ok d => ds ← marshal_all ms; Ok (d :: ds)
               end
  end.

Lemma write_all_records (w : Writer (W:=Buffer)) ms : Writer.open w -> exists w' e,
  write_all w ms = (w', e) /\
  match marshal_all ms with
  | Ok ds => e = None /\ Writer.open w' /\ Writer.out w' = Writer.out w ++ frames ds
  | Err e' => e = Some e'
  end.
Proof.
  revert w. induction ms as [|m ms IH]; intros w Hw; cbn [write_all marshal_all].
  - exists w, None. rewrite app_nil_r. done.
  - unfold Write. destruct (Marshal m) as [d|e]; [|by exists w, (Some e)].
    destruct (Writer.WriteRecord_sink w d Hw) as (w1 & -> & Hw1 & Ho1 & _).
    destruct (IH w1 Hw1) as (w' & e & -> & He). exists w', e. split; [done|].
    destruct (marshal_all ms) as [ds|e']; cbn [mbind res_bind]; [|done]. destruct He as (-> & Hw' & Ho').
    split; [done|]. split; [done|]. by rewrite Ho', Ho1, frames_cons, app_assoc.
Qed.

Lemma encode_segment_frames ms :
  encode_segment ms = match marshal_all ms with Ok ds => Ok (frames ds) | Err e => Err e end.
Proof.
  unfold encode_segment. pose proof (Writer.NewWriter_open ([] : Buffer) []) as Hop.
  destruct (write_all_records (NewWriter ([] : Buffer)) ms Hop) as (w' & e & -> & He).
  destruct (marshal_all ms) as [ds|e']; [|by rewrite He]. destruct He as (-> & Hw' & Ho').
  destruct (Writer.Close_sink w' Hw') as (w2 & -> & _ & Hs); [done|].
  cbn [sink_contents Buffer_sink] in Hs. by rewrite Hs, Ho'.
Qed.

(** Reading a byte string as a segment: scan, then decode, up to the first
    failure of either. *)
Fixpoint unmarshal_all (ds : list (list byte)) (e : option error) : list DocumentMutation * option error :=
  match ds with
  | [] => ([], e)
  | d :: ds => match Unmarshal d with
               | Ok m => let '(ms, e') := unmarshal_all ds e in (m :: ms, e')
               | Err e' => ([], if errors_Is e' EOF then None else Some e')
               end
  end.

Lemma read_loop_parse fuel r : ready r -> (length (sstream r) < fuel)%nat ->
  read_loop fuel r = let '(ds, e) := parse_stream (maxRecordSize r) (send r) (sstream r) in
                     unmarshal_all ds (match e with
                                       | Some e => if errors_Is e EOF then None else Some e
                                       | None => None end).
Proof.
  revert r. induction fuel as [|fuel IH]; intros r Hr Hf; [lia|].
  cbn [read_loop]. unfold Next. destruct (Scan r) as [s' ok] eqn:E.
  apply Scan_spec in E as [(Hz & Hn & Hk & Hm) E]; [|done].
  rewrite parse_stream_unfold. destruct (parse_frame _ _ _) eqn:Ep.
  - destruct E as (-> & He & _). unfold Err_. by rewrite He.
  - destruct E as (-> & He & _). unfold Err_. by rewrite He.
  - destruct E as (-> & Hr1 & Hrec & Hst & _). pose proof (parse_frame_shorter _ _ _ _ _ Ep).
    rewrite Hrec, IH by (done || rewrite Hst; lia). rewrite Hm, Hn, Hst.
    destruct (parse_stream _ _ rest) as [ds e]. cbn [unmarshal_all].
    destruct (Unmarshal r0); [by destruct (unmarshal_all ds _)|done].
Qed.

Lemma unmarshal_marshal_all `{!CodecLaws DocumentMutation} ms ds k e :
  marshal_all ms = Ok ds -> length ms = length ds /\
  unmarshal_all (take k ds) e = (take k ms, e).
Proof.
  revert ds k. induction ms as [|m ms IH]; intros ds k; cbn [marshal_all].
  { intros [= <-]. by rewrite !take_nil. }
  destruct (Marshal m) as [d|e'] eqn:Em; [|done].
  destruct (marshal_all ms) as [ds'|e']; cbn; [|done]. intros [= <-].
  destruct (IH ds' k eq_refl) as [Hl _]. split; [simpl; lia|].
  destruct k as [|k]; [done|]. cbn [take firstn unmarshal_all].
  rewrite (codec_roundtrip _ _ Em). by rewrite (proj2 (IH ds' k eq_refl)).
Qed.

(** The error of a scan as the reading loop reports it. *)
Definition end_error (e : option error) : option error :=
  match e with Some e => if errors_Is e EOF then None else Some e | None => None end.

Lemma decode_segment_parse d : decode_segment d =
  let '(ds, e) := parse_stream Crc.DefaultMaxRecordSize EOF d in unmarshal_all ds (end_error e).
Proof.
  unfold decode_segment, NewReader. rewrite read_loop_parse; [|apply NewScanner_ready|].
  - rewrite NewScanner_stream, NewScanner_send. unfold src_stream. cbn [src_chunks src_end].
    change (mjoin [d]) with (d ++ []). by rewrite app_nil_r.
  - rewrite NewScanner_stream. unfold src_stream. cbn [src_chunks].
    change (mjoin [d]) with (d ++ []). rewrite app_nil_r. lia.
Qed.

Lemma decode_encode_segment `{!CodecLaws DocumentMutation} ms ds :
  marshal_all ms = Ok ds -> Forall (fits Crc.DefaultMaxRecordSize) ds ->
  encode_segment ms = Ok (frames ds) /\ decode_segment (frames ds) = (ms, None).
Proof.
  intros Hm Hf. split; [by rewrite encode_segment_frames, Hm|].
  rewrite decode_segment_parse, <-(app_nil_r (frames ds)), parse_stream_frames by done.
  rewrite parse_stream_nil, app_nil_r.
  destruct (unmarshal_marshal_all ms ds (length ds) None Hm) as [Hl Hu].
  by rewrite !take_ge in Hu by lia.
Qed.

End Batch.
End Segment.

(** ** Claims *)

(** C33. A segment reads back: the file the segment writer produces for any
    list of mutations (each within the 64 MiB record limit) yields exactly
    those mutations in order and then [io.EOF]; cut anywhere, it yields a
    prefix of them, and [ErrTornWrite] unless the cut is between records. *)
Theorem segment_roundtrip `{CodecLaws DocumentMutation} ms ds n :
  Segment.marshal_all ms = Ok ds -> Forall (fits Crc.DefaultMaxRecordSize) ds ->
  exists d, Segment.encode_segment ms = Ok d /\ Segment.decode_segment d = (ms, None) /\
    exists k, (k <= length ms)%nat /\
      Segment.decode_segment (take n d) =
        (take k ms, if decide (n `min` length d = length (frames (take k ds)))%nat
                    then None else Some ErrTornWrite).
Proof.
  intros Hm Hf. destruct (Segment.decode_encode_segment ms ds Hm Hf) as [He Hd].
  exists (frames ds). split; [done|]. split; [done|].
  destruct (parse_stream_cut _ ds n Hf) as (k & Hk & _ & _ & Hp).
  exists k. destruct (Segment.unmarshal_marshal_all ms ds k None Hm) as [Hl _]. split; [lia|].
  rewrite Segment.decode_segment_parse, Hp.
  rewrite (proj2 (Segment.unmarshal_marshal_all ms ds k _ Hm)). by case_decide.
Qed.

(** ** Witnesses *)
#[local] Instance ex_mutation_codec : Codec DocumentMutation := bit_codec DocumentMutation.
#[local] Instance ex_mutation_laws : CodecLaws DocumentMutation := bit_codec_laws DocumentMutation.

Definition ex_mutations : list DocumentMutation :=
  [MkMutation "main" "doc-1" PUT [x01; x02]; MkMutation "main" "doc-1" DELETE []].
Definition ex_encodings : list (list byte) := pos_bytes ∘ encode <$> ex_mutations.

Lemma segment_roundtrip_witness : exists d, Segment.encode_segment ex_mutations = Ok d /\
  Segment.decode_segment d = (ex_mutations, None).
Proof.
  destruct (segment_roundtrip ex_mutations ex_encodings 10) as (d & H1 & H2 & _).
  - vm_compute. reflexivity.
  - apply (Forall_impl (fun r => Z.of_nat (length r) <= 1000)); [|exact fits_default].
    apply Forall_forall. apply Forall_forall. vm_compute. repeat constructor; discriminate.
  - exists d. split; [exact H1|exact H2].
Defined.
