(* ===== verification/Ingester.v ===== *)
(** * ingest: the write path

    src/ingest/ingester.go.  A write is one append of WAL records to the
    namespace's log.  The state is what [ing.mu] protects; [next] numbers the
    counters of the logs created ([logstream.Log.lastKnown]).  [time.Now()]
    is the argument [now]. *)

From S2P Require Import Prelude GoStr Recordio Scanner ObjectStore Prog Codec Logstream Namespace Cas Catalog Float32 Storage.
Local Open Scope Z_scope.

Record Ingester := MkIngester {
  logs : gmap string Log;
  registered : gmap string bool;
  next : nat;
}.

Definition NewIngester (nil_store : bool) : res Ingester :=
  if nil_store then Err ErrNilStore else Ok (MkIngester ∅ ∅ 0).

Section Ingester.
Context `{Codec TenantCatalog, Codec BranchCatalog, Codec BranchManifest, Codec WalRecord, Codec DocRecord}.

(** The error of [CreateNamespace] is dropped. *)
Definition getOrCreateLog (fuel : nat) (ing : Ingester) (scope : Scope) (now : Z)
  : prog (res Log * Ingester) :=
  let walPrefix := WALPrefix scope in
  match logs ing !! walPrefix with
  | Some l => Ret (Ok l, ing)
  | None =>
    let cachePath := Prefix scope in
    let reg := default false (registered ing !! cachePath) in
    ing ← (if reg then Ret ing
           else _ ← CreateNamespace fuel false (Namespace scope) now;
                Ret (MkIngester (logs ing) (<[cachePath := true]> (registered ing)) (next ing)));
    match New false walPrefix (next ing) with
    | Err e => Ret (Err e, ing)
    | Ok l =>
      match logs ing !! walPrefix with
      | Some existing => Ret (Ok existing, ing)
      | None => Ret (Ok l, MkIngester (<[walPrefix := l]> (logs ing)) (registered ing) (S (next ing)))
      end
    end
  end.

(** [v, err := f(); if err != nil { return err }] with the state kept. *)
Definition bind_state {S A B} (p : prog (res A * S)) (f : A -> S -> prog (res B * S)) : prog (res B * S) :=
  prog_bind p (fun '(r, s) => match r with Ok a => f a s | Err e => Ret (Err e, s) end).

Fixpoint put_records (branch : string) (records : list DocRecord) : res (list LRecord) :=
  match records with
  | [] => Ok []
  | rec :: records =>
    payload ← Marshal rec;
    recBytes ← Marshal (WalMutation (MkMutation branch (Id rec) PUT payload));
    rest ← put_records branch records;
    Ok (recBytes :: rest)
  end.

Definition Upsert (fuel : nat) (ing : Ingester) (ns branch : string) (records : list DocRecord) (now : Z)
  : prog (res unit * Ingester) :=
  if decide (records = []) then Ret (Ok tt, ing) else
  bind_state (getOrCreateLog fuel ing (MkScope ns) now) (fun log ing =>
    match put_records branch records with
    | Err e => Ret (Err e, ing)
    | Ok walRecords =>
      r ← Append fuel log walRecords;
      Ret (match r with Ok _ => Ok tt | Err e => Err e end, ing)
    end).

Fixpoint delete_records (branch : string) (ids : list string) : res (list LRecord) :=
  match ids with
  | [] => Ok []
  | id :: ids =>
    recBytes ← Marshal (WalMutation (MkMutation branch id DELETE []));
    rest ← delete_records branch ids;
    Ok (recBytes :: rest)
  end.

Definition Delete (fuel : nat) (ing : Ingester) (ns branch : string) (ids : list string) (now : Z)
  : prog (res unit * Ingester) :=
  if decide (ids = []) then Ret (Ok tt, ing) else
  bind_state (getOrCreateLog fuel ing (MkScope ns) now) (fun log ing =>
    match delete_records branch ids with
    | Err e => Ret (Err e, ing)
    | Ok walRecords =>
      r ← Append fuel log walRecords;
      Ret (match r with Ok _ => Ok tt | Err e => Err e end, ing)
    end).

(** The rollback of [Fork]; its errors are dropped. *)
Definition rollback (fuel : nat) (scope : Scope) (target : string) (err : error) : prog (res unit) :=
  _ ← call (ODelete (ManifestKey scope target));
  _ ← RemoveBranch fuel scope target;
  Ret (Err err).

Definition Fork (fuel : nat) (ing : Ingester) (ns source target : string) (now : Z)
  : prog (res unit * Ingester) :=
  let scope := MkScope ns in
  let targetKey := ManifestKey scope target in
  let failed err := (r ← rollback fuel scope target err; Ret (r, ing)) in
  parent ← Manifest.Read (ManifestKey scope source);
  match parent with
  | Err e => Ret (Err e, ing)
  | Ok (parentManifest, _) =>
    existing ← Manifest.Read targetKey;
    match existing with
    | Ok _ => Ret (Err ErrBranchAlreadyExists, ing)
    | Err e =>
      if negb (errors_Is e ErrNotFound) then Ret (Err e, ing) else
      written ← Manifest.Write targetKey (Some parentManifest) "";
      match written with
      | Err e => if errors_Is e ErrPreconditionFailed then Ret (Err ErrBranchAlreadyExists, ing)
                 else Ret (Err e, ing)
      | Ok _ =>
        added ← AddBranch fuel scope target;
        match added with
        | Err e => failed e
        | Ok _ =>
          match Marshal (WalBranchEvent (MkEvent FORK target source)) with
          | Err e => failed e
          | Ok recBytes =>
            '(log, ing) ← getOrCreateLog fuel ing scope now;
            match log with
            | Err e => r ← rollback fuel scope target e; Ret (r, ing)
            | Ok log =>
              appended ← Append fuel log [recBytes];
              match appended with
              | Err e => r ← rollback fuel scope target e; Ret (r, ing)
              | Ok _ => Ret (Ok tt, ing)
              end
            end
          end
        end
      end
    end
  end.

End Ingester.

(** ** Undisturbed writes *)
Section Run.
Context {S : Type} `{StoreLaws S} `{CodecLaws TenantCatalog, CodecLaws WalRecord, CodecLaws DocRecord}.

(** [CreateNamespace] touches only the catalog, whatever it returns. *)
Lemma run_create_any fuel n (w : world S) c name now : valid_name name ->
  ok (Datatypes.S n) (store w) -> holds CatalogFile emptyCatalog w c ->
  exists r w', run (CreateNamespace (Datatypes.S fuel) false name now) w = (r, w') /\
    ok n (store w') /\ cells w' = cells w /\
    forall k, k <> CatalogFile -> view (store w') !! k = view (store w) !! k.
Proof.
  intros Hv Hok Hc. pose proof (run_create fuel n w c name now Hv Hok Hc) as Hr.
  assert (ok n (store w)) by (eapply ok_weaken; [|done]; lia).
  destruct (Namespaces c !! name) as [m|] eqn:Em.
  - eexists _, w. split; [exact Hr|done].
  - cbn zeta in Hr. destruct (Marshal (with_ns c name (MkMeta 0 (Z.max now 0) 0))) as [d|e] eqn:Ed.
    + destruct (Hr d eq_refl) as (g & w' & Hrun & ? & _ & _ & _ & ? & ?). eauto 6.
    + exists (Err e, ""), w. split; [|done]. unfold CreateNamespace. rewrite Hv. cbn [create_loop].
      unfold mbind, prog_mbind. rewrite run_bind, (run_readCatalogOrEmpty _ w c Hok Hc), Em, run_bind.
      unfold putTenantCatalog. rewrite try_lift. unfold with_ns in Ed. rewrite Ed. cbn [run].
      apply codec_marshal_err in Ed. by destruct e.
Qed.

(** The catalog is not in a log directory. *)
Lemma catalog_not_wal ns : valid_name ns ->
  HasPrefix CatalogFile (WALPrefix (MkScope ns) +:+ "/") = false.
Proof.
  intros Hns. destruct (HasPrefix _ _) eqn:E; [|done].
  by destruct (prefix_path KCatalog ns I Hns E) as (? & ? & ?).
Qed.

Definition ing_ok (ing : Ingester) (w : world S) : Prop :=
  (forall p l, logs ing !! p = Some l -> Logstream.prefix l = p) /\
  (forall p l bs, logs ing !! p = Some l -> is_log p (view (store w)) bs ->
     0 <= cell w (lastKnown l) <= Z.of_nat (length bs)) /\
  cell w (next ing) = 0.

Lemma run_getOrCreateLog fuel n ing ns now (w : world S) c bs : valid_name ns ->
  ok (Datatypes.S n) (store w) -> holds CatalogFile emptyCatalog w c ->
  is_log (WALPrefix (MkScope ns)) (view (store w)) bs -> ing_ok ing w ->
  exists l ing' w', run (getOrCreateLog (Datatypes.S fuel) ing (MkScope ns) now) w = ((Ok l, ing'), w') /\
    ok n (store w') /\ Logstream.prefix l = WALPrefix (MkScope ns) /\
    is_log (WALPrefix (MkScope ns)) (view (store w')) bs /\
    0 <= cell w' (lastKnown l) <= Z.of_nat (length bs) /\
    forall k, k <> CatalogFile -> view (store w') !! k = view (store w) !! k.
Proof.
  intros Hv Hok Hc Hbs (Hp & Hcell & Hfresh). unfold getOrCreateLog.
  destruct (logs ing !! WALPrefix (MkScope ns)) as [l|] eqn:El.
  { exists l, ing, w. split; [done|]. split; [eapply ok_weaken; [|done]; lia|].
    split; [by apply Hp|]. split; [done|]. split; [by eapply Hcell|done]. }
  assert (exists ing1 w1, run (if default false (registered ing !! Prefix (MkScope ns)) then Ret ing
      else prog_bind (CreateNamespace (Datatypes.S fuel) false ns now)
        (fun _ => Ret (MkIngester (logs ing) (<[Prefix (MkScope ns) := true]> (registered ing)) (next ing)))) w
    = (ing1, w1) /\ logs ing1 = logs ing /\ next ing1 = next ing /\ ok n (store w1) /\
    cells w1 = cells w /\ is_log (WALPrefix (MkScope ns)) (view (store w1)) bs /\
    forall k, k <> CatalogFile -> view (store w1) !! k = view (store w) !! k)
    as (ing1 & w1 & Hrun & Hl1 & Hn1 & Hok1 & Hc1 & Hbs1 & Hfr1).
  { destruct (default false _).
    - exists ing, w. split; [done|]. split_and!; try done. eapply ok_weaken; [|done]; lia.
    - destruct (run_create_any fuel n w c ns now Hv Hok Hc) as (r & w1 & Hr & Hok1 & Hcs & Hfr).
      eexists _, w1. rewrite run_bind, Hr. split; [done|]. split_and!; try done.
      eapply is_log_frame; [done|]. intros k Hk. apply Hfr. intros ->.
      by rewrite catalog_not_wal in Hk. }
  unfold mbind, prog_mbind. rewrite run_bind. cbn [Namespace]. rewrite Hrun.
  unfold New. rewrite WALPrefix_valid by done. cbn [negb]. rewrite Hl1, El.
  eexists _, _, w1. split; [done|]. split; [done|]. split; [done|]. split; [done|]. split; [|done].
  unfold cell in *. cbn [lastKnown]. rewrite Hn1, Hc1, Hfresh. lia.
Qed.

Lemma put_records_decode branch records wal : put_records branch records = Ok wal ->
  Forall2 (fun d rec => exists payload,
    Unmarshal d = Ok (WalMutation (MkMutation branch (Id rec) PUT payload)) /\
    Unmarshal payload = Ok rec) wal records.
Proof.
  revert wal. induction records as [|rec records IH]; intros wal; cbn [put_records].
  { intros [= <-]. constructor. }
  destruct (Marshal rec) as [payload|] eqn:E1; cbn; [|done].
  destruct (Marshal (WalMutation _)) as [d|] eqn:E2; cbn; [|done].
  destruct (put_records branch records) as [rest|] eqn:E3; cbn; [|done]. intros [= <-].
  constructor; [|by apply IH]. exists payload.
  by rewrite (codec_roundtrip _ _ E2), (codec_roundtrip _ _ E1).
Qed.

End Run.

(** C20. An upsert is one atomic log entry: on an undisturbed store, [Upsert]
    of a non-empty batch to a valid namespace, known to this process or not,
    appends exactly one entry to that namespace's log; read back, the entry
    is one PUT mutation per record, in order, on the given branch, whose
    payload decodes to the record. *)
Theorem upsert_one_entry {S} `{StoreLaws S}
    `{CodecLaws TenantCatalog, CodecLaws WalRecord, CodecLaws DocRecord}
    fuel n ing ns branch records now (w : world S) c bs wal :
  valid_name ns -> records <> [] -> put_records branch records = Ok wal ->
  Forall (fits Crc.DefaultMaxRecordSize) wal -> slice_len (frames wal) ->
  ok (2 + n) (store w) -> holds CatalogFile emptyCatalog w c ->
  is_log (WALPrefix (MkScope ns)) (view (store w)) bs ->
  Z.of_nat (length bs) + Z.of_nat (2 + n) < MaxUint64 -> ing_ok ing w ->
  exists l ing' w', run (Upsert (2 + fuel) ing ns branch records now) w = ((Ok tt, ing'), w') /\
    Logstream.prefix l = WALPrefix (MkScope ns) /\
    is_log (WALPrefix (MkScope ns)) (view (store w')) (bs ++ [frames wal]) /\
    run (Read l (Z.of_nat (length bs) + 1)) w' = (Ok wal, w') /\
    Forall2 (fun d rec => exists payload,
      Unmarshal d = Ok (WalMutation (MkMutation branch (Id rec) PUT payload)) /\
      Unmarshal payload = Ok rec) wal records.
Proof.
  intros Hv Hne Hput Hfit Hlen Hok Hc Hbs Hn Hing. unfold Upsert. rewrite decide_False by done.
  destruct (run_getOrCreateLog (Datatypes.S fuel) (Datatypes.S n) ing ns now w c bs Hv Hok Hc Hbs Hing)
    as (l & ing' & w1 & Hrun & Hok1 & Hp & Hbs1 & Hcell & _).
  unfold bind_state. rewrite run_bind. change (2 + fuel)%nat with (Datatypes.S (Datatypes.S fuel)).
  rewrite Hrun, Hput. unfold mbind, prog_mbind. rewrite run_bind. rewrite <-Hp in Hbs1.
  destruct (run_Append fuel l wal n w1 bs) as (w2 & HA & Hok2 & Hbs2 & _); try done.
  { intros ->. destruct records; [done|]. pose proof (put_records_decode _ _ _ Hput) as Hd.
    by inversion Hd. }
  { unfold MaxUint64 in *. lia. }
  rewrite HA. exists l, ing', w2. split; [done|]. split; [done|].
  rewrite <-Hp. split; [done|]. split; [|by apply put_records_decode].
  unfold MaxUint64 in Hn. rewrite (run_Read l n w2 _ _ Hok2 Hbs2) by lia.
  replace (Z.to_nat _) with (length bs) by lia. rewrite lookup_app_r, Nat.sub_diag by lia.
  cbn [lookup list_lookup]. by rewrite scan_segment_frames.
Qed.

(** ** Forks *)
Section ForkRun.
Context {S : Type} `{StoreLaws S} `{CodecLaws TenantCatalog, CodecLaws BranchCatalog, CodecLaws BranchManifest}.
Context `{CodecLaws WalRecord, Codec DocRecord}.

(** Only the object under [r] may differ. *)
Definition frame (r : role) (w w' : world S) : Prop :=
  cells w' = cells w /\ forall k, k <> key_of r -> view (store w') !! k = view (store w) !! k.

Lemma frame_sym r w w' : frame r w w' -> frame r w' w.
Proof. intros [Hc Hv]. split; [done|]. intros k Hk. symmetry. auto. Qed.

Lemma frame_log r w w' ns bs : frame r w w' -> valid_role r -> valid_name ns ->
  match r with KWal _ _ => False | _ => True end ->
  is_log (WALPrefix (MkScope ns)) (view (store w)) bs -> is_log (WALPrefix (MkScope ns)) (view (store w')) bs.
Proof.
  intros [_ Hv] Hr Hns Hnw Hl. eapply is_log_frame; [done|]. intros k Hk. apply Hv. intros ->.
  destruct (prefix_path r ns Hr Hns Hk) as (? & ? & E). by destruct r.
Qed.

(** The logs an ingester keeps are of valid namespaces. *)
Definition logs_valid (ing : Ingester) : Prop :=
  forall p l, logs ing !! p = Some l -> exists ns, valid_name ns /\ p = WALPrefix (MkScope ns).

Lemma frame_ing_ok r ing w w' : frame r w w' -> valid_role r ->
  match r with KWal _ _ => False | _ => True end -> logs_valid ing -> ing_ok ing w -> ing_ok ing w'.
Proof.
  intros Hf Hr Hnw Hlv (I1 & I2 & I3). pose proof Hf as [Hc _]. split_and!; [done| |].
  - intros p l bs El Hl. destruct (Hlv p l El) as (ns & Hns & ->). unfold cell. rewrite Hc.
    apply (I2 _ l bs El). eapply frame_log; [by apply frame_sym|done|done|done|done].
  - unfold cell. by rewrite Hc.
Qed.

Lemma run_Manifest_Read n w key e m : ok n (store w) -> view (store w) !! key = Some e ->
  Unmarshal (data e) = Ok m -> run (Manifest.Read key) w = (Ok (m, generation e), w).
Proof.
  intros Hok He Hm. unfold Manifest.Read. rewrite run_try. cbn [run call exec]. rewrite (get_ok _ _ _ Hok), He.
  by rewrite try_lift, Hm.
Qed.

Lemma run_Manifest_missing n w key : ok n (store w) -> view (store w) !! key = None ->
  run (Manifest.Read key) w = (Err ErrNotFound, w).
Proof.
  intros Hok He. unfold Manifest.Read. rewrite run_try. cbn [run call exec]. by rewrite (get_ok _ _ _ Hok), He.
Qed.

(** The manifest of a new branch. *)
Lemma run_Manifest_create n w r m d : ok (Datatypes.S n) (store w) -> view (store w) !! key_of r = None ->
  Marshal m = Ok d -> exists g w' e, run (Manifest.Write (key_of r) (Some m) "") w = (Ok g, w') /\
    ok n (store w') /\ view (store w') !! key_of r = Some e /\ Unmarshal (data e) = Ok m /\ frame r w w'.
Proof.
  intros Hok He Hm. destruct (run_swap (key_of r) m n w m d Hok Hm) as (g & w' & Hex & Hok' & Hh & Hg & Hne & Hc & Hf).
  unfold gen_at in Hex. rewrite He in Hex. unfold holds, gen_at in Hh, Hg.
  destruct (view (store w') !! key_of r) as [e|] eqn:Ee; [|by subst g].
  exists g, w', e. split_and!; try done. unfold Manifest.Write. rewrite try_lift, Hm. cbn [run call].
  change (if decide ("" = "") then IfAbsent else IfGeneration "") with (swap_cond ""). by rewrite Hex.
Qed.

Lemma run_AddBranch fuel n w ns b name d : ok (Datatypes.S n) (store w) ->
  holds (branchesKey (MkScope ns)) (MkBranches ∅) w b ->
  Marshal (MkBranches (<[name := tt]> (Branches b))) = Ok d ->
  exists w', run (AddBranch (Datatypes.S fuel) (MkScope ns) name) w = (Ok tt, w') /\ ok n (store w') /\
    holds (branchesKey (MkScope ns)) (MkBranches ∅) w' (MkBranches (<[name := tt]> (Branches b))) /\
    frame (KBranches ns) w w'.
Proof.
  intros Hok Hb Hd. pose proof (run_updateBranches (MkScope ns) fuel _ w b (add_branch name) Hok Hb) as Hu.
  unfold add_branch in Hu at 1. destruct (Branches b !! name) as [[]|] eqn:En.
  - exists w. split; [done|]. split; [eapply ok_weaken; [|done]; lia|]. split; [|done].
    rewrite insert_id by done. by destruct b.
  - destruct (Hu d Hd) as (w1 & ? & ? & ? & ? & ?). exists w1. split_and!; done.
Qed.

(** One record appended to a namespace's log. *)
Lemma run_event fuel n ing ns now w c bs rec : valid_name ns ->
  ok (2 + n) (store w) -> holds CatalogFile emptyCatalog w c ->
  is_log (WALPrefix (MkScope ns)) (view (store w)) bs -> Z.of_nat (length bs) + Z.of_nat (2 + n) < MaxUint64 ->
  ing_ok ing w -> slice_len (frames [rec]) ->
  exists l ing' w1 w2, run (getOrCreateLog (2 + fuel) ing (MkScope ns) now) w = ((Ok l, ing'), w1) /\
    run (Append (2 + fuel) l [rec]) w1 = (Ok (Z.of_nat (length bs) + 1), w2) /\
    is_log (WALPrefix (MkScope ns)) (view (store w2)) (bs ++ [frames [rec]]) /\
    forall r, valid_role r -> r <> KCatalog -> match r with KWal _ _ => False | _ => True end ->
      view (store w2) !! key_of r = view (store w) !! key_of r.
Proof.
  intros Hns Hok Hc Hbs Hn Hing Hsl.
  destruct (run_getOrCreateLog (Datatypes.S fuel) (1 + n) ing ns now w c bs Hns Hok Hc Hbs Hing)
    as (l & ing' & w1 & Hr1 & Hok1 & Hp & Hbs1 & Hcell & F1).
  rewrite <-Hp in Hbs1. destruct (run_Append fuel l [rec] n w1 bs) as (w2 & Hr2 & _ & Hbs2 & _ & F2); try done; [lia|].
  exists l, ing', w1, w2. split_and!; [done|done|by rewrite <-Hp|]. intros r V Nc Nw. rewrite F2, F1; [done| |].
  - intros E. by apply Nc, (key_of_inj r KCatalog).
  - rewrite Hp. destruct (HasPrefix _ _) eqn:E; [|done].
    destruct (prefix_path r ns V Hns E) as (? & ? & Ep). by destruct r.
Qed.

End ForkRun.

(** C24. Forking a branch is a copy of its manifest: on an undisturbed store,
    [Fork] of a branch to a new name succeeds; the new branch's manifest is
    the parent's of that moment, the parent's is as before, the new branch is
    in the branch list, and the log has one more entry, the fork event, after
    which the flusher starts on the new branch. *)
Theorem fork_copies {S} `{StoreLaws S} `{CodecLaws TenantCatalog, CodecLaws BranchCatalog, CodecLaws BranchManifest}
    `{CodecLaws WalRecord, Codec DocRecord}
    fuel n ing ns source target now (w : world S) c bs e (m : BranchManifest) b dm db rec :
  valid_name ns -> valid_name source -> valid_name target -> source <> target ->
  ok (4 + n) (store w) -> holds CatalogFile emptyCatalog w c ->
  is_log (WALPrefix (MkScope ns)) (view (store w)) bs -> Z.of_nat (length bs) + Z.of_nat (4 + n) < MaxUint64 ->
  ing_ok ing w -> logs_valid ing ->
  view (store w) !! ManifestKey (MkScope ns) source = Some e -> Unmarshal (data e) = Ok m ->
  view (store w) !! ManifestKey (MkScope ns) target = None ->
  holds (branchesKey (MkScope ns)) (MkBranches ∅) w b ->
  Marshal m = Ok dm -> Marshal (MkBranches (<[target := tt]> (Branches b))) = Ok db ->
  Marshal (WalBranchEvent (MkEvent FORK target source)) = Ok rec -> slice_len (frames [rec]) ->
  exists ing' w', run (Fork (2 + fuel) ing ns source target now) w = ((Ok tt, ing'), w') /\
    (exists e', view (store w') !! ManifestKey (MkScope ns) target = Some e' /\ Unmarshal (data e') = Ok m) /\
    view (store w') !! ManifestKey (MkScope ns) source = Some e /\
    holds (branchesKey (MkScope ns)) (MkBranches ∅) w' (MkBranches (<[target := tt]> (Branches b))) /\
    is_log (WALPrefix (MkScope ns)) (view (store w')) (bs ++ [frames [rec]]) /\
    Unmarshal rec = Ok (WalBranchEvent (MkEvent FORK target source)).
Proof.
  intros Hns Hsrc Htgt Hne Hok Hc Hbs Hn Hing Hlv He Hm Hnone Hb Hdm Hdb Hrec Hsl.
  set (rt := KManifest ns target). set (rs := KManifest ns source). set (rb := KBranches ns).
  change (ManifestKey (MkScope ns) target) with (key_of rt) in *.
  change (ManifestKey (MkScope ns) source) with (key_of rs) in *.
  assert (valid_role rt /\ valid_role rs /\ valid_role rb) as (Vt & Vs & Vb) by done.
  assert (forall r r', valid_role r -> valid_role r' -> r <> r' -> key_of r <> key_of r') as Hkeys
    by (intros r r' V V' Hd E; by apply Hd, key_of_inj).
  assert (rt <> rs /\ rs <> rb /\ rt <> rb) as (Nts & Nsb & Ntb) by (split_and!; [congruence|done|done]).
  (* the copy, the branch list *)
  destruct (run_Manifest_create (3 + n) w rt m dm Hok Hnone Hdm) as (g & w1 & e1 & Hr1 & Hok1 & He1 & Hm1 & F1).
  assert (holds (branchesKey (MkScope ns)) (MkBranches ∅) w1 b) as Hb1.
  { unfold holds. change (branchesKey (MkScope ns)) with (key_of rb). rewrite (proj2 F1) by (apply Hkeys; done). done. }
  destruct (run_AddBranch (Datatypes.S fuel) (2 + n) w1 ns b target db Hok1 Hb1 Hdb) as (w2 & Hr2 & Hok2 & Hb2 & F2).
  fold rb in F2.
  assert (holds CatalogFile emptyCatalog w2 c) as Hc2.
  { unfold holds. change CatalogFile with (key_of KCatalog). rewrite (proj2 F2), (proj2 F1) by (apply Hkeys; done). done. }
  assert (is_log (WALPrefix (MkScope ns)) (view (store w2)) bs) as Hbs2
    by (do 2 (eapply frame_log; [done|done|done|done|]); done).
  assert (ing_ok ing w2) as Hing2 by (do 2 (eapply frame_ing_ok; [done|done|done|done|]); done).
  destruct (run_event fuel n ing ns now w2 c bs rec Hns Hok2 Hc2 Hbs2 ltac:(lia) Hing2 Hsl)
    as (l & ing' & w3 & w4 & Hr3 & Hr4 & Hbs4 & F).
  exists ing', w4. split; [|split_and!].
  - unfold Fork. cbv zeta. change (ManifestKey (MkScope ns) target) with (key_of rt).
    change (ManifestKey (MkScope ns) source) with (key_of rs).
    unfold mbind, prog_mbind. rewrite run_bind, (run_Manifest_Read _ _ _ _ _ Hok He Hm), run_bind.
    rewrite (run_Manifest_missing _ _ _ Hok Hnone). unfold errors_Is. rewrite bool_decide_eq_true_2 by done. cbn [negb].
    rewrite run_bind, Hr1, run_bind.
    change (Datatypes.S (Datatypes.S fuel)) with (2 + fuel)%nat in Hr2. by rewrite Hr2, Hrec, run_bind, Hr3, run_bind, Hr4.
  - exists e1. rewrite F, (proj2 F2) by (done || apply Hkeys; done). done.
  - rewrite F, (proj2 F2), (proj2 F1) by (done || apply Hkeys; congruence). done.
  - unfold holds in *. change (branchesKey (MkScope ns)) with (key_of rb) in *. by rewrite F.
  - done.
  - by apply codec_roundtrip.
Qed.

(** ** Witnesses *)
#[local] Instance ex_catalog_codec : Codec TenantCatalog := bit_codec TenantCatalog.
#[local] Instance ex_catalog_laws : CodecLaws TenantCatalog := bit_codec_laws TenantCatalog.
#[local] Instance ex_wal_codec : Codec WalRecord := bit_codec WalRecord.
#[local] Instance ex_wal_laws : CodecLaws WalRecord := bit_codec_laws WalRecord.
#[local] Instance ex_record_codec : Codec DocRecord := bit_codec DocRecord.
#[local] Instance ex_record_laws : CodecLaws DocRecord := bit_codec_laws DocRecord.

Definition ex_records : list DocRecord := [MkRecord "d1" ∅ ∅; MkRecord "d2" ∅ ∅].
Definition ex_wal : list LRecord :=
  match put_records "main" ex_records with Ok wal => wal | Err _ => [] end.

Lemma ex_wal_ok : put_records "main" ex_records = Ok ex_wal /\
  Forall (fits Crc.DefaultMaxRecordSize) ex_wal /\ slice_len (frames ex_wal).
Proof.
  split; [vm_compute; reflexivity|]. split.
  - apply (Forall_impl (fun r => Z.of_nat (length r) <= 1000)); [|exact fits_default].
    vm_compute. repeat constructor; discriminate.
  - vm_compute. reflexivity.
Qed.

Lemma ex_ing_ok : ing_ok (MkIngester ∅ ∅ 0) (MkWorld Mem.newMemStore ∅).
Proof. split; [|split]; try done; intros p l; by rewrite lookup_empty. Qed.

Lemma upsert_one_entry_witness : exists l ing' w',
  run (Upsert 3 (MkIngester ∅ ∅ 0) "docs" "main" ex_records 7) (MkWorld Mem.newMemStore ∅)
    = ((Ok tt, ing'), w') /\
  run (Read l 1) w' = (Ok ex_wal, w').
Proof.
  destruct ex_wal_ok as (H1 & H2 & H3).
  destruct (upsert_one_entry 1 5 (MkIngester ∅ ∅ 0) "docs" "main" ex_records 7
    (MkWorld Mem.newMemStore ∅) emptyCatalog [] ex_wal) as (l & ing' & w' & Hr & _ & _ & Hread & _).
  - reflexivity.
  - discriminate.
  - exact H1.
  - exact H2.
  - exact H3.
  - apply Mem.newMemStore_ok. lia.
  - reflexivity.
  - apply empty_log.
  - reflexivity.
  - exact ex_ing_ok.
  - exists l, ing', w'. split; [exact Hr|exact Hread].
Defined.

(** ** A fork *)
#[local] Instance ex_branch_list_codec : Codec BranchCatalog := bit_codec BranchCatalog.
#[local] Instance ex_branch_list_laws : CodecLaws BranchCatalog := bit_codec_laws BranchCatalog.
#[local] Instance ex_parent_codec : Codec BranchManifest := bit_codec BranchManifest.
#[local] Instance ex_parent_laws : CodecLaws BranchManifest := bit_codec_laws BranchManifest.

Definition ex_parent : BranchManifest := MkManifest 0 1 [].
Definition ex_fork_store : Mem.memStore :=
  (Mem.Put None (ManifestKey (MkScope "docs") "main") (Ok (pos_bytes (encode ex_parent))) IfAbsent Mem.newMemStore).2.
Definition ex_fork_entry : entry :=
  default (MkEntry [] "") (Mem.objects ex_fork_store !! ManifestKey (MkScope "docs") "main").

Lemma ex_fork_log : is_log (WALPrefix (MkScope "docs")) (view ex_fork_store) [].
Proof.
  eapply (is_log_frame _ ∅); [apply empty_log|]. intros k Hk.
  change (view ex_fork_store) with (Mem.objects ex_fork_store).
  assert (Mem.objects ex_fork_store = {[ ManifestKey (MkScope "docs") "main" := ex_fork_entry ]}) as ->
    by (vm_compute; reflexivity).
  rewrite lookup_empty. apply lookup_singleton_ne. intros <-. revert Hk. vm_compute. discriminate.
Qed.

Lemma fork_copies_witness : exists ing' w',
  run (Fork 3 (MkIngester ∅ ∅ 0) "docs" "main" "dev" 7) (MkWorld ex_fork_store ∅) = ((Ok tt, ing'), w') /\
  exists e', view (store w') !! ManifestKey (MkScope "docs") "dev" = Some e' /\ Unmarshal (data e') = Ok ex_parent.
Proof.
  destruct (fork_copies 1 5 (MkIngester ∅ ∅ 0) "docs" "main" "dev" 7 (MkWorld ex_fork_store ∅) emptyCatalog []
    ex_fork_entry ex_parent (MkBranches ∅) (pos_bytes (encode ex_parent))
    (pos_bytes (encode (MkBranches {[ "dev" := tt ]})))
    (pos_bytes (encode (WalBranchEvent (MkEvent FORK "dev" "main"))))) as (ing' & w' & Hr & He & _).
  - reflexivity.
  - reflexivity.
  - reflexivity.
  - discriminate.
  - apply mem_put_ok; [apply Mem.newMemStore_ok; reflexivity|vm_compute; reflexivity].
  - vm_compute. reflexivity.
  - exact ex_fork_log.
  - reflexivity.
  - split; [|split]; try done; intros p l; by rewrite lookup_empty.
  - intros p l. cbn. by rewrite lookup_empty.
  - vm_compute. reflexivity.
  - vm_compute. reflexivity.
  - vm_compute. reflexivity.
  - vm_compute. reflexivity.
  - vm_compute. reflexivity.
  - vm_compute. reflexivity.
  - vm_compute. reflexivity.
  - vm_compute. reflexivity.
  - exists ing', w'. split; [exact Hr|exact He].
Defined.

(** ** A namespace that is never registered

    The first write to a namespace registers it in the catalog, but drops the
    error and never tries again: after one failed read of the catalog, writes
    to the namespace are acknowledged while the flushers and the query engine
    do not know of it. *)
Theorem unregistered_namespace :
  let '((r1, ing1), w1) := run_faults [Some (Msg "timeout")]
    (Upsert 3 (MkIngester ∅ ∅ 0) "docs" "main" ex_records 7) (MkWorld Mem.newMemStore ∅) in
  let '((r2, _), w2) := run (Upsert 3 ing1 "docs" "main" ex_records 8) w1 in
  r1 = Ok tt /\ r2 = Ok tt /\ (run ActiveNamespaces w2).1 = Ok ["default"] /\
  exists n, forall m, rtc (pstep true)
    ([Upsert 3 (MkIngester ∅ ∅ 0) "docs" "main" ex_records 7], ((n + m)%nat, MkWorld Mem.newMemStore ∅))
    ([Ret (r1, ing1)], (m, w1)).
Proof.
  destruct (run_faults _ _ _) as [[r1 ing1] w1] eqn:E1. destruct (run _ w1) as [[r2 ing2] w2] eqn:E2.
  pose proof (f_equal (fun x => x.1.1) E1) as H1. cbn [fst] in H1.
  pose proof (f_equal (fun x => (run (Upsert 3 x.1.2 "docs" "main" ex_records 8) x.2).1.1) E1) as H2. cbn [fst snd] in H2.
  pose proof (f_equal (fun x => (run ActiveNamespaces (run (Upsert 3 x.1.2 "docs" "main" ex_records 8) x.2).2).1) E1) as H3.
  cbn [fst snd] in H3. rewrite E2 in H2, H3. cbn [fst snd] in H2, H3.
  split; [rewrite <-H1; vm_compute; reflexivity|]. split; [rewrite <-H2; vm_compute; reflexivity|].
  split; [rewrite <-H3; vm_compute; reflexivity|].
  apply (run_faults_steps [Some (Msg "timeout")]); [|exact E1]. constructor; [|constructor]. by intros e [= <-].
Qed.
