(* ===== verification/FlusherSafety.v ===== *)
(** * ingest: what concurrent flushers guarantee

    The log of one namespace as the flusher sees it ([entry_at]), the
    invariant of its manifests and segments, and the proof that every call
    of a [streamFlusher] keeps it, under any interleaving with other flushers
    of the namespace and with writers appending to the log, over failing
    calls. *)

From S2P Require Import Prelude GoStr Recordio Scanner ObjectStore Prog Codec Logstream Namespace Cas Catalog Sha256 Storage Flusher.
Local Open Scope Z_scope.

(** ** One log entry *)
Section Entry.
Context `{Codec WalRecord, Codec DocumentMutation}.

Fixpoint decode_wal (records : list LRecord) : res (list WalRecord) :=
  match records with
  | [] => Ok []
  | d :: records => r ← Unmarshal d; rs ← decode_wal records; Ok (r :: rs)
  end.

(** The mutations an entry asks to flush, and the branches it forks. *)
Definition muts_of (rs : list WalRecord) : list DocumentMutation :=
  omap (fun r => match r with
                 | WalMutation m => if decide (Branch m = "") then None else Some m
                 | _ => None end) rs.
Definition forks_of (rs : list WalRecord) : list string :=
  omap (fun r => match r with
                 | WalBranchEvent e => if decide (Type_ e = FORK) then Some (EvBranch e) else None
                 | _ => None end) rs.

(** The branch and the mutations of an entry that has some. *)
Definition entry_flush (records : list LRecord) : option (string * list DocumentMutation) :=
  match decode_wal records with
  | Ok rs => match muts_of rs with
             | m :: ms => if decide (Forall (fun m' => Branch m' = Branch m) ms)
                          then Some (Branch m, m :: ms) else None
             | [] => None
             end
  | Err _ => None
  end.

(** What the ingester writes: an entry with mutations forks nothing. *)
Definition entry_wf (records : list LRecord) : Prop :=
  forall rs, decode_wal records = Ok rs -> muts_of rs = [] \/ forks_of rs = [].

Definition skips (s : streamFlusher) (seq : Z) (branch : string) : bool :=
  match branchCheckpoints s !! branch with
  | Some lastSeq => bool_decide (seq <= lastSeq) | None => false end.

(** [collect] only moves checkpoints of forked branches, to [seq]. *)
Lemma collect_state seq records br acc s r s' : collect seq records br acc s = (r, s') ->
  log s' = log s /\ scope s' = scope s /\
  forall b c, branchCheckpoints s' !! b = Some c ->
    branchCheckpoints s !! b = Some c \/
    c = seq /\ (forall rs, decode_wal records = Ok rs -> forks_of rs <> []).
Proof.
  revert br acc s. induction records as [|rec records IH]; intros br acc s E; cbn [collect] in E.
  { injection E as <- <-. auto. }
  cbn [decode_wal].
  destruct (Unmarshal rec) as [[|m|evt]|e] eqn:Eu; [| | |by injection E as <- <-; auto].
  - destruct (IH _ _ _ E) as (? & ? & HC). split_and!; try done.
    intros b c Hb. destruct (HC b c Hb) as [?|[-> Hf]]; [by left|right]. split; [done|].
    cbn. destruct (decode_wal records) as [rs|]; cbn; [|done]. intros ? [= <-]. cbn. by apply Hf.
  - assert (s' = s \/ exists br acc, collect seq records br acc s = (r, s')) as [->|(? & ? & E')].
    { repeat case_decide; [eauto|injection E as <- <-; by left|eauto]. }
    { auto. }
    destruct (IH _ _ _ E') as (? & ? & HC). split_and!; try done.
    intros b c Hb. destruct (HC b c Hb) as [?|[-> Hf]]; [by left|right]. split; [done|].
    cbn. destruct (decode_wal records) as [rs|]; cbn; [|done]. intros ? [= <-]. cbn. by apply Hf.
  - destruct (IH _ _ _ E) as (Hl & Hs & HC). 
    assert (forall rs, (rs0 ← decode_wal records; Ok (WalBranchEvent evt :: rs0)) = Ok rs ->
      (forall rs, decode_wal records = Ok rs -> forks_of rs <> []) \/ Type_ evt = FORK ->
      forks_of rs <> []) as Hfk.
    { intros rs. destruct (decode_wal records) as [rs0|]; cbn; [|done]. intros [= <-]. cbn.
      case_decide; [done|]. intros [Hf|?]; [by apply Hf|done]. }
    destruct (bool_decide (Type_ evt = FORK)) eqn:Et; cbn in Hl, Hs, HC.
    + apply bool_decide_eq_true in Et. destruct (match _ with None => _ | Some _ => _ end).
      * cbn in *. split_and!; try done. intros b c Hb.
        destruct (HC b c Hb) as [Hb'|[-> Hf]]; [|right; split; [done|]; intros; eapply Hfk; eauto].
        apply lookup_insert_Some in Hb' as [[<- <-]|[_ ?]]; [|by left].
        right. split; [done|]. intros; eapply Hfk; eauto.
      * split_and!; try done. intros b c Hb. destruct (HC b c Hb) as [?|[-> Hf]]; [by left|right].
        split; [done|]. intros; eapply Hfk; eauto.
    + split_and!; try done. intros b c Hb. destruct (HC b c Hb) as [?|[-> Hf]]; [by left|right].
      split; [done|]. intros; eapply Hfk; eauto.
Qed.

(** What [collect] returns of an entry that forks nothing. *)
Lemma collect_mutations seq records br acc s br' ms s' :
  collect seq records br acc s = (Ok (br', ms), s') ->
  exists rs, decode_wal records = Ok rs /\
    (forks_of rs = [] -> s' = s) /\
    (br <> "" -> br' = br) /\ (muts_of rs = [] -> br' = br /\ ms = acc) /\
    (forks_of rs = [] -> Forall (fun m => Branch m = br') (muts_of rs) /\
      ms = acc ++ (if skips s seq br' then [] else muts_of rs)).
Proof.
  revert br acc s. induction records as [|rec records IH]; intros br acc s E; cbn [collect] in E.
  { injection E as <- <- <-. exists []. split_and!; try done. intros _. split; [done|].
    destruct (skips _ _ _); by rewrite app_nil_r. }
  cbn [decode_wal]. destruct (Unmarshal rec) as [[|m|evt]|e] eqn:Eu; [| | |done]; cbn.
  - destruct (IH _ _ _ E) as (rs & -> & ?). by exists (WalNone :: rs).
  - case_decide as Hb0.
    + destruct (IH _ _ _ E) as (rs & -> & ?). exists (WalMutation m :: rs). split; [done|].
      cbn. by rewrite decide_True.
    + case_decide as Hb1; [done|].
      destruct (IH _ _ _ E) as (rs & -> & H1 & H2 & H3 & H4). specialize (H2 Hb0). subst br'.
      exists (WalMutation m :: rs). split; [done|]. cbn. rewrite decide_False by done.
      assert (br <> "" -> Branch m = br) by (intros; destruct (decide (Branch m = br)); naive_solver).
      split_and!; try done. intros Hf. destruct (H4 Hf) as [F ->]. split; [by constructor|].
      unfold skips. destruct (branchCheckpoints s !! Branch m) as [c|]; [case_bool_decide|];
        try done; by rewrite <-app_assoc.
  - destruct (IH _ _ _ E) as (rs & -> & H1 & H2 & H3 & H4).
    exists (WalBranchEvent evt :: rs). split; [done|]. cbn. case_decide as Hk.
    + split_and!; done.
    + rewrite bool_decide_eq_false_2 in * by done. cbn in *. by split_and!.
Qed.

End Entry.

(** ** The namespace: its log, manifests and segments *)
Section Namespace.
Context {S : Type} `{StoreLaws S} `{Codec BranchCatalog, CodecLaws BranchManifest}.
Context `{Codec WalRecord, CodecLaws DocumentMutation} `{!CodecLaws BranchCatalog}.
Context (faulty : bool) (ns : string).
(** Every entry that is ever appended, and the manifests at the start. *)
Context (entries : list (list LRecord)) (base : string -> BranchManifest).

Let sc : Scope := MkScope ns.
Let p : string := WALPrefix sc.
Definition absentManifest : BranchManifest := MkManifest 0 1 [].

Definition flush_at (seq : Z) : option (string * list DocumentMutation) :=
  if decide (1 <= seq) then entries !! Z.to_nat (seq - 1) ≫= entry_flush else None.

Definition ref_of (ms : list DocumentMutation) (d : list byte) : SegmentRef :=
  MkSegmentRef (segment_id d) (Z.of_nat (length ms)) (Z.of_nat (length d)).

Definition ref_at (b : string) (seq : Z) : option SegmentRef :=
  match flush_at seq with
  | Some (b', ms) => if decide (b' = b) then
      match Segment.encode_segment ms with Ok d => Some (ref_of ms d) | Err _ => None end
    else None
  | None => None
  end.

(** The segments of [b]'s entries after [lo], up to [hi]. *)
Definition refs (b : string) (lo hi : Z) : list SegmentRef := omap (ref_at b) (seqZ (lo + 1) (hi - lo)).

Lemma refs_nil b lo : refs b lo lo = [].
Proof. unfold refs. by rewrite Z.sub_diag. Qed.

Lemma elem_of_refs b lo hi i ms d : lo < i <= hi -> flush_at i = Some (b, ms) ->
  Segment.encode_segment ms = Ok d -> ref_of ms d ∈ refs b lo hi.
Proof.
  intros Hi E Hd. apply list_elem_of_omap. exists i. split; [apply elem_of_seqZ; lia|].
  unfold ref_at. by rewrite E, decide_True, Hd.
Qed.

Lemma refs_snoc b lo c seq r : lo <= c < seq -> ref_at b seq = Some r ->
  (forall i, c < i < seq -> ref_at b i = None) -> refs b lo seq = refs b lo c ++ [r].
Proof.
  intros Hc Hr Hnone. unfold refs.
  replace (seq - lo) with ((c - lo) + ((seq - 1 - c) + 1)) by lia.
  rewrite !seqZ_app by lia. rewrite !omap_app. f_equal.
  rewrite (omap_None _ (seqZ _ (seq - 1 - c))).
  - cbn [app]. replace (lo + 1 + (c - lo) + (seq - 1 - c)) with seq by lia.
    change (seqZ seq 1) with [0 + seq]. rewrite Z.add_0_l. cbn. by rewrite Hr.
  - apply Forall_forall. intros i Hi%elem_of_seqZ. apply Hnone. lia.
Qed.

(** *** The state of the store *)
Definition manifest_is (b : string) (w : world S) (m : BranchManifest) : Prop :=
  holds (ManifestKey sc b) absentManifest w m.

Definition ckpt_ge (b : string) (i : Z) (w : world S) : Prop :=
  exists m, manifest_is b w m /\ i <= CheckpointSeq m.

(** Every entry of [b] up to [s] is in its manifest. *)
Definition flushed (b : string) (s : Z) (w : world S) : Prop :=
  forall i ms, i <= s -> flush_at i = Some (b, ms) -> ckpt_ge b i w.

Definition all_flushed (s : Z) (w : world S) : Prop := forall b, flushed b s w.

Definition log_ge (k : Z) (w : world S) : Prop :=
  exists n, (n <= length entries)%nat /\ is_log p (view (store w)) (frames <$> take n entries) /\
    k <= Z.of_nat n.

(** The segment object of a batch. *)
Definition stored (d : list byte) (w : world S) : Prop :=
  exists e, view (store w) !! SegmentKey sc (segment_id d) = Some e /\ data e = d.

Definition segment_of (seq : Z) (b : string) (d : list byte) : Prop :=
  exists ms, flush_at seq = Some (b, ms) /\ Segment.encode_segment ms = Ok d.

Definition manifest_ok (b : string) (m : BranchManifest) (w : world S) : Prop :=
  CheckpointSeq (base b) <= CheckpointSeq m /\ 0 <= CheckpointSeq (base b) /\
  log_ge (CheckpointSeq m) w /\ all_flushed (CheckpointSeq m) w /\
  Segments m = Segments (base b) ++ refs b (CheckpointSeq (base b)) (CheckpointSeq m) /\
  forall i ms, CheckpointSeq (base b) < i <= CheckpointSeq m -> flush_at i = Some (b, ms) ->
    exists d, Segment.encode_segment ms = Ok d /\ stored d w.

Definition names_ok (bc : BranchCatalog) : Prop :=
  forall b, is_Some (Branches bc !! b) -> valid_name b.

(** The branch list names valid branches. *)
Definition branches_ok (w : world S) : Prop :=
  forall e bc, view (store w) !! branchesKey sc = Some e -> Unmarshal (data e) = Ok bc -> names_ok bc.

Definition flush_inv (n : nat) (w : world S) : Prop :=
  ok n (store w) /\ log_ge 0 w /\
  (forall b, valid_name b -> exists m, manifest_is b w m /\ manifest_ok b m w) /\
  (forall i b d e, segment_of i b d -> view (store w) !! SegmentKey sc (segment_id d) = Some e ->
     data e = d) /\
  branches_ok w.

Definition flush_rel (w w' : world S) : Prop :=
  gen_rel w w' /\ (forall k, log_ge k w -> log_ge k w') /\
  (forall b i, valid_name b -> ckpt_ge b i w -> ckpt_ge b i w') /\
  (forall i b d, segment_of i b d -> stored d w -> stored d w').

#[export] Instance flush_rel_preorder : PreOrder flush_rel.
Proof.
  split; [split; [reflexivity|auto]|]. intros w1 w2 w3 (G1 & L1 & C1 & S1) (G2 & L2 & C2 & S2).
  split; [by transitivity w2|]. split_and!; eauto.
Qed.

(** What the log is assumed to be. *)
Context (Hns : valid_name ns) (Hlen : Z.of_nat (length entries) < MaxUint64).
Context (Hfits : Forall (fun rs => Forall (fits Crc.DefaultMaxRecordSize) rs /\ slice_len (frames rs)) entries).
Context (Hwf : Forall entry_wf entries).
Context (Hnames : forall i b ms, flush_at i = Some (b, ms) -> valid_name b).
Context (Hsize : forall i b d, segment_of i b d -> slice_len d).
(** No two different segments of the log have the same SHA-256. *)
Context (Hcoll : forall i b d i' b' d', segment_of i b d -> segment_of i' b' d' ->
  Sum256 d = Sum256 d' -> d = d').

Lemma all_flushed_stable s w w' : flush_rel w w' -> all_flushed s w -> all_flushed s w'.
Proof.
  intros (_ & _ & HC & _) Hf b i ms Hi E. apply HC; [by eapply Hnames|]. by eapply Hf.
Qed.

Lemma flushed_stable b s w w' : flush_rel w w' -> flushed b s w -> flushed b s w'.
Proof. intros (_ & _ & HC & _) Hf i ms Hi E. apply HC; [by eapply Hnames|]. by eapply Hf. Qed.

Lemma flushed_le b s s' w : s' <= s -> flushed b s w -> flushed b s' w.
Proof. intros Hs Hf i ms Hi. apply Hf. lia. Qed.

Lemma log_ge_le k k' w : k' <= k -> log_ge k w -> log_ge k' w.
Proof. intros Hk (n & ? & ? & ?). exists n. split_and!; [done..|lia]. Qed.

Lemma log_ge_bound k w : log_ge k w -> k <= Z.of_nat (length entries).
Proof. intros (n & ? & ? & ?). lia. Qed.

Lemma manifest_ok_stable b m w w' : flush_rel w w' -> manifest_ok b m w -> manifest_ok b m w'.
Proof.
  intros HR (M1 & M2 & M3 & M4 & M5 & M6). pose proof HR as (_ & HL & _ & HS).
  split_and!; [done|done|by apply HL|by eapply all_flushed_stable|done|]. intros i ms Hi E.
  destruct (M6 i ms Hi E) as (d & Hd & Hst). exists d. split; [done|]. eapply HS; [|done].
  by exists ms.
Qed.

(** *** Keys *)
Lemma segment_id_ok d : segment_id d <> "" /\ str_in slash (segment_id d) = false.
Proof.
  split; [|by apply hex_no_char]. unfold segment_id. pose proof (length_Sum256 d) as Hl.
  by destruct (Sum256 d).
Qed.

Lemma role_segment d : valid_role (KSegment ns (segment_id d)).
Proof. destruct (segment_id_ok d). done. Qed.

Lemma put_other r r' d g n (w w' : world S) : valid_role r -> valid_role r' -> r' <> r ->
  put_done n (key_of r) d g w w' -> view (store w') !! key_of r' = view (store w) !! key_of r'.
Proof.
  intros Hr Hr' Hne (_ & _ & -> & _). apply lookup_insert_ne. intros E.
  by apply Hne, key_of_inj.
Qed.

(** Not an object of the log. *)
Definition not_wal (r : role) : Prop := match r with KWal ns' _ => ns' <> ns | _ => True end.

Lemma is_log_put r d g n bs w w' : valid_role r -> not_wal r ->
  put_done n (key_of r) d g w w' -> is_log p (view (store w)) bs -> is_log p (view (store w')) bs.
Proof.
  intros Hr Hnw (_ & _ & Hv & _) Hl. eapply is_log_frame; [done|]. intros key Hp. rewrite Hv.
  apply lookup_insert_ne. intros <-. destruct (prefix_path r ns Hr Hns Hp) as (? & ? & E). destruct r; try done. by injection E.
Qed.

Lemma log_ge_put r d g n k w w' : valid_role r -> not_wal r ->
  put_done n (key_of r) d g w w' -> log_ge k w -> log_ge k w'.
Proof.
  intros Hr Hnw Hp (j & Hj & Hl & Hk). exists j. split_and!; [done| |done]. by eapply is_log_put.
Qed.

Lemma manifest_is_put r d g n b m w w' : valid_role r -> r <> KManifest ns b -> valid_name b ->
  put_done n (key_of r) d g w w' -> manifest_is b w m -> manifest_is b w' m.
Proof.
  intros Hr Hne Hb Hp. unfold manifest_is, holds.
  change (ManifestKey sc b) with (key_of (KManifest ns b)). by rewrite (put_other r (KManifest ns b) d g n w w').
Qed.

Lemma segment_put r d g n d' w w' : valid_role r -> r <> KSegment ns (segment_id d') ->
  put_done n (key_of r) d g w w' ->
  view (store w') !! SegmentKey sc (segment_id d') = view (store w) !! SegmentKey sc (segment_id d').
Proof.
  intros Hr Hne Hp. apply (put_other r (KSegment ns (segment_id d')) d g n w w'); try done.
  apply role_segment.
Qed.

Lemma branches_put r d g n w w' : valid_role r -> r <> KBranches ns ->
  put_done n (key_of r) d g w w' -> branches_ok w -> branches_ok w'.
Proof.
  intros Hr Hne Hp HB e bc. change (branchesKey sc) with (key_of (KBranches ns)).
  rewrite (put_other r (KBranches ns) d g n w w') by done. apply HB.
Qed.

(** A write of an object that is none of the namespace's log, manifests and
    segments. *)
Lemma put_unrelated r d g n w w' : valid_role r -> not_wal r -> (forall b, r <> KManifest ns b) ->
  (forall id, r <> KSegment ns id) -> put_done n (key_of r) d g w w' -> flush_inv (Datatypes.S n) w ->
  flush_rel w w' /\ (branches_ok w' -> flush_inv n w').
Proof.
  intros Hr Hw Hmn Hsg Hp (Hok & Hl & HM & HD & HB).
  assert (flush_rel w w') as HR.
  { pose proof Hp as (_ & Hg & _). split; [done|]. split_and!.
    - intros k. by eapply log_ge_put.
    - intros b i Hb (m & Hm' & Hi). exists m. split; [|done]. by apply (manifest_is_put r d g n b m w w').
    - intros i b d' _ (e & He & Hd'). exists e. split; [|done]. by rewrite (segment_put r d g n d' w w'). }
  split; [done|]. intros HB'. split; [apply Hp|]. split; [by eapply log_ge_put|]. split_and!; [| |done].
  - intros b Hb. destruct (HM b Hb) as (m & Hm1 & Hm2). exists m. split; [by apply (manifest_is_put r d g n b m w w')|].
    by eapply manifest_ok_stable.
  - intros i b d' e Hd'. rewrite (segment_put r d g n d' w w') by done. by eapply HD.
Qed.

(** The branch list. *)
Lemma put_branches d g n w w' : (forall bc, Unmarshal d = Ok bc -> names_ok bc) ->
  put_done n (branchesKey sc) d g w w' -> flush_inv (Datatypes.S n) w ->
  flush_inv n w' /\ flush_rel w w'.
Proof.
  intros Hd Hp HI. change (branchesKey sc) with (key_of (KBranches ns)) in Hp.
  destruct (put_unrelated (KBranches ns) d g n w w') as [HR Hinv]; try done. split; [|done]. apply Hinv.
  intros e bc. destruct Hp as (_ & _ & -> & _). change (branchesKey sc) with (key_of (KBranches ns)).
  rewrite lookup_insert_eq. intros [= <-]. apply Hd.
Qed.

(** The upload of a segment of the log. *)
Lemma put_segment i b d g n w w' : segment_of i b d ->
  view (store w) !! SegmentKey sc (segment_id d) = None ->
  put_done n (SegmentKey sc (segment_id d)) d g w w' -> flush_inv (Datatypes.S n) w ->
  flush_inv n w' /\ flush_rel w w' /\ stored d w'.
Proof.
  intros Hd Hnone Hp (Hok & Hl & HM & HD & HB). set (r := KSegment ns (segment_id d)).
  assert (valid_role r) as Hr by apply role_segment. change (SegmentKey sc (segment_id d)) with (key_of r) in *.
  assert (view (store w') !! key_of r = Some (MkEntry d g)) as Hnew
    by (destruct Hp as (_ & _ & -> & _); apply lookup_insert_eq).
  assert (forall i' b' d' e, segment_of i' b' d' ->
    view (store w') !! SegmentKey sc (segment_id d') = Some e -> data e = d' ) as HD'.
  { intros i' b' d' e Hd' He. destruct (decide (segment_id d' = segment_id d)) as [E|E].
    - rewrite E in He. change (view (store w') !! key_of r = Some e) in He. rewrite Hnew in He.
      injection He as <-. cbn. apply (Hcoll i b d i' b' d'); done || by apply hex_inj.
    - rewrite (segment_put r d g n d' w w') in He; [by eapply HD|done| |done].
      unfold r. congruence. }
  assert (flush_rel w w') as HR.
  { pose proof Hp as (_ & Hg & _). split; [done|]. split_and!.
    - intros k. by eapply log_ge_put.
    - intros b' i' Hb (m & Hm' & Hi). exists m. split; [|done]. by apply (manifest_is_put r d g n b' m w w').
    - intros i' b' d' Hd' (e & He & <-). destruct (decide (segment_id (data e) = segment_id d)) as [E|E].
      + rewrite E in He. change (view (store w) !! key_of r = Some e) in He. congruence.
      + exists e. split; [|done]. rewrite (segment_put r d g n _ w w'); try done. unfold r. congruence. }
  split; [|split; [done|by exists (MkEntry d g)]].
  split; [apply Hp|]. split; [by eapply log_ge_put|]. split_and!; [|done|by eapply (branches_put r)].
  intros b' Hb. destruct (HM b' Hb) as (m & Hm1 & Hm2). exists m. split; [by apply (manifest_is_put r d g n b' m w w')|].
  by eapply manifest_ok_stable.
Qed.

Lemma ckpt_ge_is b i w m : manifest_is b w m -> ckpt_ge b i w -> i <= CheckpointSeq m.
Proof. intros Hm (m' & Hm' & Hi). by rewrite (holds_unique _ _ _ _ _ Hm Hm'). Qed.

(** A manifest with the segment of the branch's next entry is the one of that
    entry's number. *)
Lemma manifest_next seq b ms ds m w : flush_at seq = Some (b, ms) -> Segment.encode_segment ms = Ok ds ->
  all_flushed (seq - 1) w -> manifest_is b w m -> CheckpointSeq m < seq -> manifest_ok b m w ->
  Segments m ++ [ref_of ms ds] = Segments (base b) ++ refs b (CheckpointSeq (base b)) seq /\
  forall i ms', CheckpointSeq m < i < seq -> flush_at i <> Some (b, ms').
Proof.
  intros Hseq Hds Hfl Hm Hlt (M1 & M2 & _ & _ & M5 & _).
  assert (forall i ms', CheckpointSeq m < i < seq -> flush_at i <> Some (b, ms')) as Hgap.
  { intros i ms' Hi E. pose proof (ckpt_ge_is b i w m Hm (Hfl b i ms' ltac:(lia) E)). lia. }
  split; [|done]. rewrite (refs_snoc b _ (CheckpointSeq m) seq (ref_of ms ds)); [|lia| |].
  - by rewrite M5, app_assoc.
  - unfold ref_at. by rewrite Hseq, decide_True, Hds.
  - intros i Hi. unfold ref_at. destruct (flush_at i) as [[b'' ms']|] eqn:E; [|done].
    case_decide; [|done]. subst b''. by apply Hgap in E.
Qed.

(** The swap of a manifest that adds the segment of entry [seq]. *)
Lemma put_manifest seq b ms ds m v d g n w w' : valid_name b ->
  flush_at seq = Some (b, ms) -> Segment.encode_segment ms = Ok ds ->
  stored ds w -> all_flushed (seq - 1) w -> log_ge seq w ->
  manifest_is b w m -> CheckpointSeq m < seq ->
  Unmarshal d = Ok (MkManifest seq v (Segments m ++ [ref_of ms ds])) ->
  put_done n (ManifestKey sc b) d g w w' -> flush_inv (Datatypes.S n) w ->
  flush_inv n w' /\ flush_rel w w' /\ all_flushed seq w'.
Proof.
  intros Hb Hseq Hds Hst Hfl Hlog Hm Hlt Hun Hp (Hok & Hl & HM & HD & HB).
  set (r := KManifest ns b). assert (valid_role r) as Hr by done.
  change (ManifestKey sc b) with (key_of r) in Hp.
  assert (manifest_is b w' (MkManifest seq v (Segments m ++ [ref_of ms ds]))) as Hnew.
  { unfold manifest_is, holds. change (ManifestKey sc b) with (key_of r).
    destruct Hp as (_ & _ & -> & _). by rewrite lookup_insert_eq. }
  assert (forall b' m', valid_name b' -> b' <> b -> manifest_is b' w m' -> manifest_is b' w' m') as Hother.
  { intros b' m' Hb' Hne. apply (manifest_is_put r d g n b' m' w w'); try done. unfold r. congruence. }
  assert (flush_rel w w') as HR.
  { pose proof Hp as (_ & Hg & _). split; [done|]. split_and!.
    - intros k. by eapply log_ge_put.
    - intros b' i Hb' Hi. destruct (decide (b' = b)) as [->|Hne].
      + pose proof (ckpt_ge_is b i w m Hm Hi). eexists. split; [done|]. cbn. lia.
      + destruct Hi as (m' & Hm' & Hi). exists m'. auto.
    - intros i b' d' _ (e & He & Hd). exists e. split; [|done].
      by rewrite (segment_put r d g n d' w w'). }
  assert (all_flushed seq w') as Hfl'.
  { intros b' i ms' Hi E. destruct (decide (i = seq)) as [->|Hne].
    - rewrite Hseq in E. injection E as <- <-. by eexists.
    - eapply (all_flushed_stable (seq - 1) w w'); [done|done| |done]. lia. }
  split; [|done]. split; [apply Hp|]. split; [by eapply log_ge_put|].
  split_and!; [| |by eapply (branches_put r)].
  - intros b' Hb'. destruct (HM b' Hb') as (m' & Hm' & Hmok). destruct (decide (b' = b)) as [->|Hne].
    + eexists. split; [done|]. rewrite (holds_unique _ _ _ _ _ Hm' Hm) in Hmok.
      destruct (manifest_next seq b ms ds m w Hseq Hds Hfl Hm Hlt Hmok) as [Hsegs Hgap].
      destruct (manifest_ok_stable b m w w' HR Hmok) as (M1 & M2 & M3 & M4 & M5 & M6).
      split_and!; cbn; [lia|done|by eapply log_ge_put|done|done|].
      * intros i ms' Hi Hd'. destruct (decide (i <= CheckpointSeq m)); [eapply M6; [|done]; lia|].
        destruct (decide (i = seq)) as [->|?]; [|exfalso; eapply Hgap; [|exact Hd']; lia].
        rewrite Hseq in Hd'. injection Hd' as <-. exists ds. split; [done|].
        destruct HR as (_ & _ & _ & HS). eapply HS; [|done]. by exists ms.
    + exists m'. split; [by apply Hother|]. by eapply manifest_ok_stable.
  - intros i b' d' e Hd. rewrite (segment_put r d g n d' w w') by done. by eapply HD.
Qed.

(** ** The calls *)
Abbreviation safe := (safe faulty flush_inv flush_rel).

Lemma flush_inv_weaken n w : flush_inv (Datatypes.S n) w -> flush_inv n w.
Proof. intros (Hok & ?). split; [|done]. eapply ok_weaken; [|done]. lia. Qed.

(** A conditional write: it fails without effect, is rejected, or is done
    (and its acknowledgement possibly lost). *)
Lemma safe_put key d g (Q : res string -> world S -> Prop) w `{!NonEmptyKey key} : slice_len d ->
  g = "" \/ issued (store w) g ->
  (forall n g' w1 w2, flush_rel w w1 -> flush_inv (Datatypes.S n) w1 ->
     (g = "" /\ view (store w1) !! key = None \/
      exists e, view (store w1) !! key = Some e /\ generation e = g) ->
     put_done n key d g' w1 w2 ->
     flush_inv n w2 /\ flush_rel w1 w2 /\ (forall g'', Q (Ok g'') w2) /\ Q (Err ErrPreconditionFailed) w2) ->
  (forall n w1, flush_rel w w1 -> flush_inv (Datatypes.S n) w1 ->
     (g = "" -> is_Some (view (store w1) !! key)) -> Q (Err ErrPreconditionFailed) w1) ->
  (forall e w1, flush_rel w w1 -> transient e -> Q (Err e) w1) ->
  safe (call (OPut key d (swap_cond g))) Q w.
Proof.
  intros Hd Hi Hdone Hrej Herr. apply safe_call. intros n w1 HR HI.
  change (cost _ + n)%nat with (Datatypes.S n) in HI. pose proof HI as (Hok & _).
  assert (g = "" \/ issued (store w1) g) as Hi1
    by (destruct Hi; [by left|right]; by apply HR).
  pose proof (flush_inv_weaken _ _ HI) as HIn.
  assert (forall x w2, exec (OPut key d (swap_cond g)) w1 = (x, w2) ->
    x = Err ErrPreconditionFailed /\ w2 = w1 /\ Q x w2 \/
    exists g', x = Ok g' /\ flush_inv n w2 /\ flush_rel w1 w2 /\ (forall g'', Q (Ok g'') w2) /\
      Q (Err ErrPreconditionFailed) w2) as Hx.
  { intros x w2 Hex. destruct (put_exec n key g d w1 x w2 Hok Hd Hi1 Hex) as [[-> ->]|(g' & -> & Hat & Hp)].
    - left. split; [done|]. split; [done|]. eapply Hrej; [done..|]. intros ->.
      destruct (view (store w1) !! key) eqn:E; [by eexists|]. exfalso. unfold swap_cond in Hex.
      rewrite decide_True in Hex by done. cbn [exec] in Hex.
      destruct (put_accepted n (store w1) key d IfAbsent Hok key_ne Hd) as (? & ? & E' & _); [by left|].
      by rewrite E' in Hex.
    - right. exists g'. split; [done|]. by eapply Hdone. }
  intros x w2 [Hex|[_ [(e & He & -> & ->)|[[g' Hex] He]]]].
  - destruct (Hx x w2 Hex) as [(-> & -> & ?)|(g' & -> & ? & ? & ? & _)]; [|done].
    split; [done|split; [reflexivity|done]].
  - split; [done|split; [reflexivity|by apply Herr]].
  - destruct (Hx _ w2 Hex) as [(? & ? & _)|(g'' & _ & ? & ? & ? & HQ)]; [done|].
    split; [done|split; [done|]]. destruct x as [?|e]; [done|]. destruct He as [He|[-> _]]; [|done]. apply Herr; [|done].
    by transitivity w1.
Qed.

(** *** Branch list *)
Lemma safe_readBranches w :
  safe (readBranchCatalog (branchesKey sc)) (fun r w' => match r with
    | Ok (bc, g) => names_ok bc /\ (g = "" \/ issued (store w') g)
    | Err _ => True end) w.
Proof.
  eapply safe_bind; [apply _| |].
  - apply (safe_read faulty flush_inv flush_rel (OGet (branchesKey sc)) (fun r w' => match r with
      | Ok (d, o) => issued (store w') (Generation o) /\
          forall bc, Unmarshal d = Ok bc -> names_ok bc
      | Err _ => True end)); [auto with cloudy| |done].
    intros n w1 _ (Hok & _ & _ & _ & HB). cbn [exec fst]. rewrite (get_ok _ _ _ Hok).
    destruct (view (store w1) !! branchesKey sc) as [e|] eqn:E; [|done].
    split; [by eapply view_issued|]. intros bc. by eapply HB.
  - intros [[d o]|e] w' _ HQ.
    + rewrite try_lift. destruct HQ as [Hi Hn]. destruct (Unmarshal d) as [bc|e]; cbn; auto.
    + cbn. case_match; cbn; [|done]. split; [|by left]. intros b. cbn. by rewrite lookup_empty, is_Some_alt.
Qed.

Lemma safe_ListBranches w :
  safe (ListBranches sc) (fun r _ => match r with Ok bs => Forall valid_name bs | Err _ => True end) w.
Proof.
  eapply safe_try; [apply _|apply safe_readBranches| |done].
  intros [bc g] w' _ [Hn _]. cbn. case_decide; cbn.
  - forall_list. reflexivity.
  - apply Forall_forall. intros b Hb. rewrite sort_Strings_perm in Hb.
    apply list_elem_of_fmap in Hb as ([b' []] & -> & Hb%elem_of_map_to_list). apply Hn. by eexists.
Qed.

Lemma safe_AddBranch fuel b w : valid_name b -> safe (AddBranch fuel sc b) (fun _ _ => True) w.
Proof.
  intros Hb. unfold AddBranch. revert w. induction fuel as [|fuel IH]; intros w; [done|].
  cbn [updateBranches]. eapply safe_try; [apply _|apply safe_readBranches| |done].
  intros [bc g] w1 _ [Hn Hg]. unfold add_branch. destruct (Branches bc !! b) eqn:E; [done|].
  rewrite try_lift. destruct (Marshal _) as [d|e] eqn:Em; [|done].
  eapply safe_bind; [apply _| |].
  - apply (safe_put _ _ _ (fun _ _ => True)); [apply _|exact (codec_slice _ _ Em)|done| |done|done].
    intros n g' w2 w3 _ HI _ Hp. destruct (put_branches d g' n w2 w3) as [? ?]; [|done..].
    intros bc' Hbc. rewrite (codec_roundtrip _ _ Em) in Hbc. injection Hbc as <-. intros b' Hb'.
    cbn in Hb'. apply lookup_insert_is_Some in Hb' as [->|[_ ?]]; [done|by apply Hn].
  - intros [?|e] w2 _ _; [done|]. case_match; [apply IH|done].
Qed.

(** *** The log *)
Definition entry_at (seq : Z) (rs : list LRecord) : Prop :=
  1 <= seq /\ entries !! Z.to_nat (seq - 1) = Some rs.

Lemma safe_Read_log l seq k0 w : prefix l = p -> 1 <= seq <= MaxUint64 -> log_ge k0 w ->
  safe (Read l seq) (fun r w' => match r with
    | Ok rs => entry_at seq rs /\ log_ge seq w'
    | Err e => e = ErrEndOfStream -> k0 < seq end) w.
Proof.
  intros Hl Hs Hk. unfold Read. rewrite decide_False by lia. eapply safe_bind; [apply _| |].
  - apply (safe_read faulty flush_inv flush_rel _ (fun r w' => match r with
      | Ok (d, _) => exists rs, entry_at seq rs /\ d = frames rs /\ log_ge seq w'
      | Err e => e = ErrNotFound /\ k0 < seq \/ transient e end)); [auto with cloudy| |by auto].
    intros n w1 HR (Hok & _). cbn [exec fst]. rewrite (get_ok _ _ _ Hok). rewrite Hl.
    apply HR in Hk. destruct Hk as (j & Hj & Hlog & Hk). unfold MaxUint64 in *.
    destruct (is_log_exists p _ _ seq Hlog ltac:(lia)) as [He1 He2].
    rewrite length_fmap, length_take in He1, He2.
    destruct (view (store w1) !! segmentKey p seq) as [e|] eqn:E.
    + specialize (He1 ltac:(by eexists)).
      destruct (lookup_lt_is_Some_2 entries (Z.to_nat (seq - 1))) as [rs Hrs]; [lia|].
      exists rs. split; [split; [lia|done]|]. split; [|exists j; split_and!; [done..|lia]].
      destruct Hlog as (_ & Hin & _). specialize (Hin (Z.to_nat (seq - 1)) (frames rs)).
      replace (Z.of_nat (Z.to_nat (seq - 1)) + 1) with seq in Hin by lia.
      rewrite E in Hin. cbn in Hin. cut (Some (data e) = Some (frames rs)); [by intros [= ?]|]. apply Hin.
      rewrite list_lookup_fmap, lookup_take_lt by lia. exact (f_equal (fmap frames) Hrs).
    + left. split; [done|]. destruct (decide (k0 < seq)); [done|].
      destruct He2 as [? ?]; [unfold LRecord in *; lia|]. done.
  - intros [[d o]|e] w' _ HQ; cbn.
    + destruct HQ as (rs & Hrs & -> & Hlg). destruct Hrs as [Hs1 Hrs].
      destruct (Forall_lookup_1 _ _ _ _ Hfits Hrs) as [Hf Hsl]. by rewrite scan_segment_frames.
    + destruct HQ as [[-> ?]|He]; [by cbn; intros _|].
      destruct (errors_Is e ErrNotFound) eqn:E; [by apply bool_decide_eq_true in E as ->|].
      cbn. by intros ->.
Qed.

(** *** Manifests *)
Lemma safe_Read_manifest_is b w : valid_name b ->
  safe (Manifest.Read (ManifestKey sc b)) (fun r w' => match r with
    | Ok (m, g) => g <> "" /\ seen (ManifestKey sc b) absentManifest g m w' /\ manifest_ok b m w' /\
        manifest_is b w' m /\ gen_at (ManifestKey sc b) w' = g
    | Err e => e = ErrNotFound /\ manifest_ok b absentManifest w' /\ manifest_is b w' absentManifest \/
        faulty = true /\ transient e end) w.
Proof.
  intros Hb. eapply safe_try; [apply _| | |].
  - apply (safe_read faulty flush_inv flush_rel _ (fun r w' => match r with
      | Ok (d, o) => exists m, Unmarshal d = Ok m /\ Generation o <> "" /\
          seen (ManifestKey sc b) absentManifest (Generation o) m w' /\ manifest_ok b m w' /\
          manifest_is b w' m /\ gen_at (ManifestKey sc b) w' = Generation o
      | Err e => e = ErrNotFound /\ manifest_ok b absentManifest w' /\ manifest_is b w' absentManifest \/
        faulty = true /\ transient e end));
      [auto with cloudy| |by auto].
    intros n w1 HR (Hok & _ & HM & _). cbn [exec fst]. rewrite (get_ok _ _ _ Hok).
    destruct (HM b Hb) as (m & Hm & Hmok). pose proof Hm as Hmi. unfold manifest_is, holds in Hm.
    destruct (view (store w1) !! ManifestKey sc b) as [e|] eqn:E.
    + exists m. pose proof (view_issued _ _ _ _ Hok E) as Hi. split; [done|].
      assert (generation e <> "") as Hne by (by eapply issued_valid). split; [done|].
      split; [|split; [done|split; [done|unfold gen_at; by rewrite E]]].
      unfold seen. rewrite decide_False by done. split; [done|]. intros e' He' _. congruence.
    + left. subst m. done.
  - intros [d o] w' _ (m & Hm & Hne & Hs & Hmok). rewrite try_lift, Hm. cbn. done.
  - done.
Qed.

Lemma safe_Read_manifest b w : valid_name b ->
  safe (Manifest.Read (ManifestKey sc b)) (fun r w' => match r with
    | Ok (m, g) => g <> "" /\ seen (ManifestKey sc b) absentManifest g m w' /\ manifest_ok b m w'
    | Err e => e = ErrNotFound /\ manifest_ok b absentManifest w' \/ transient e end) w.
Proof.
  intros Hb. eapply safe_weaken; [apply _| |by apply safe_Read_manifest_is].
  intros [[m g]|e] w' _; cbn; tauto.
Qed.

(** ** The flusher *)
Definition stream_ok (s : streamFlusher) (w : world S) : Prop :=
  prefix (log s) = p /\ scope s = sc /\
  forall b c, branchCheckpoints s !! b = Some c -> flushed b c w.

Lemma stream_ok_stable s w w' : flush_rel w w' -> stream_ok s w -> stream_ok s w'.
Proof. intros HR (? & ? & HC). split_and!; [done..|]. intros b c Hb. eapply flushed_stable; eauto. Qed.

Lemma stream_ok_checkpoint s b c w : stream_ok s w -> flushed b c w -> stream_ok (with_checkpoint s b c) w.
Proof.
  intros (? & ? & HC) Hf. split_and!; [done..|]. intros b' c' Hb'.
  cbn in Hb'. apply lookup_insert_Some in Hb' as [[<- <-]|[_ ?]]; auto.
Qed.

(** What a call that is to flush entry [seq] leaves. *)
Definition step_post (seq : Z) (x : res unit * streamFlusher) (w : world S) : Prop :=
  stream_ok x.2 w /\ (x.1 = Ok tt -> all_flushed seq w).

Lemma safe_add_then fuel b c seq s w : valid_name b -> stream_ok s w ->
  all_flushed seq w -> flushed b c w ->
  safe (a ← AddBranch fuel sc b;
        match a with
        | Err e => Ret (Err e, s)
        | Ok _ => Ret (Ok tt, with_checkpoint s b c)
        end) (step_post seq) w.
Proof.
  intros Hb Hs Hf Hc. eapply safe_bind; [apply _|by apply safe_AddBranch|].
  intros a w' HR _. pose proof (stream_ok_stable _ _ _ HR Hs). destruct a; cbn.
  - split; [|intros _; by eapply all_flushed_stable]. apply stream_ok_checkpoint; [done|].
    by eapply flushed_stable.
  - split; [done|]. intros [=].
Qed.

Lemma safe_commit fuel s b seq ms ds w : valid_name b -> 1 <= seq ->
  flush_at seq = Some (b, ms) -> Segment.encode_segment ms = Ok ds ->
  stream_ok s w -> stored ds w -> all_flushed (seq - 1) w -> log_ge seq w ->
  safe (commit_loop fuel s b (ref_of ms ds) seq) (step_post seq) w.
Proof.
  intros Hb Hs1 Hseq Hds. revert w. induction fuel as [|fuel IH]; intros w Hs Hst Hfl Hlog.
  { cbn. split; [done|]. intros [=]. }
  cbn [commit_loop]. pose proof Hs as (_ & -> & _).
  eapply safe_bind; [apply _|by apply safe_Read_manifest|]. intros r w1 HR1 Hr.
  assert (stream_ok s w1) as Hs' by (by eapply stream_ok_stable).
  assert (match (match r with
           | Ok mg => Ok mg
           | Err e => if errors_Is e ErrNotFound then Ok (MkManifest 0 1 [], "") else Err e
           end) with
    | Ok (m, g) => seen (ManifestKey sc b) absentManifest g m w1 /\ manifest_ok b m w1
    | Err e => True end) as Hr'.
  { destruct r as [[m g]|e]; [naive_solver|]. destruct Hr as [[-> Hmok]|He].
    - cbn. split; [|done]. unfold seen. by rewrite decide_True.
    - destruct e; done. }
  destruct (match r with Ok mg => Ok mg | Err e => _ end) as [[m g]|e]; clear Hr;
    [|cbn; split; [done|intros [=]]].
  destruct Hr' as [Hseen Hmok]. pose proof Hmok as (_ & _ & _ & Hall & _). case_decide as Hc.
  { apply safe_add_then; [done|done| |by apply Hall]. intros b'. by eapply flushed_le, Hall. }
  unfold Manifest.Write.
  eapply safe_bind with (Q := fun r w' => match r with Ok _ => all_flushed seq w' | Err _ => True end);
    [apply _| |].
  - rewrite try_lift. destruct (Marshal _) as [d|e] eqn:Em; [|exact I].
    apply (safe_put _ d g); [apply _|exact (codec_slice _ _ Em)|exact (seen_issued _ _ _ _ _ Hseen)| |done|done].
    intros n g' w2 w3 HR2 HI Hat Hp. pose proof HI as (Hok & _).
    assert (flush_rel w w2) as HR by (by transitivity w1).
    destruct (put_manifest seq b ms ds m (SchemaVersion m) d g' n w2 w3) as (? & ? & ?); try done.
    + destruct HR as (_ & _ & _ & HS). eapply HS; [|done]. by exists ms.
    + by eapply all_flushed_stable.
    + by apply HR.
    + eapply seen_holds; [done| |done]. eapply seen_gen; [|done]. apply HR2.
    + lia.
    + by apply codec_roundtrip.
  - intros r' w2 HR2 HQ. pose proof (stream_ok_stable _ _ _ HR2 Hs') as Hs2.
    destruct r' as [g'|e]; [apply safe_add_then; auto|].
    case_match; [|cbn; split; [done|intros [=]]].
    assert (flush_rel w w2) as HR by (by transitivity w1).
    apply IH; [done| |by eapply all_flushed_stable|by apply HR].
    destruct HR as (_ & _ & _ & HS). eapply HS; [|done]. by exists ms.
Qed.

Lemma safe_flushBranch fuel s b seq ms w : valid_name b -> 1 <= seq ->
  flush_at seq = Some (b, ms) -> stream_ok s w -> all_flushed (seq - 1) w -> log_ge seq w ->
  safe (flushBranch fuel s b ms seq) (step_post seq) w.
Proof.
  intros Hb Hs1 Hseq Hs Hfl Hlog. unfold flushBranch. case_decide as Hne.
  { subst ms. exfalso. revert Hseq. unfold flush_at, entry_flush. case_decide; [|done].
    destruct (entries !! _); cbn; [|done]. repeat case_match; congruence. }
  destruct (Segment.encode_segment ms) as [ds|e] eqn:Eds; [|cbn; split; [done|intros [=]]].
  assert (segment_of seq b ds) as Hsg by (by exists ms).
  pose proof Hs as (_ & -> & _). eapply safe_bind; [apply _| |].
  - change IfAbsent with (swap_cond "").
    apply (safe_put _ _ _ (fun r w' => match r with
      | Ok _ => stored ds w'
      | Err e => errors_Is e ErrPreconditionFailed = true -> stored ds w' end));
      [apply _|by eapply Hsize|by left| | |].
    + intros n g' w1 w2 _ HI Hat Hp. pose proof HI as (Hok & _).
      destruct (put_segment seq b ds g' n w1 w2) as (? & ? & ?); try done.
      destruct Hat as [[_ ?]|(e & He & Hg)]; [done|].
      exfalso. by apply (issued_valid _ _ _ Hok (view_issued _ _ _ _ Hok He)).
    + intros n w1 _ (_ & _ & _ & HD & _) Hx _. destruct (Hx eq_refl) as [e He]. exists e. split; [done|].
      by eapply HD.
    + intros e w1 _ He E. apply bool_decide_eq_true in E as ->. done.
  - intros r w1 HR Hr. pose proof (stream_ok_stable _ _ _ HR Hs) as Hs'.
    assert (stored ds w1 -> safe (commit_loop fuel s b (ref_of ms ds) seq) (step_post seq) w1) as Hgo.
    { intros Hst. apply safe_commit; try done; [by eapply all_flushed_stable|by apply HR]. }
    destruct r as [g|e]; [by apply Hgo|].
    destruct (errors_Is e ErrPreconditionFailed); [apply Hgo; auto|].
    cbn. split; [done|intros [=]].
Qed.

Lemma all_flushed_step seq w : all_flushed (seq - 1) w ->
  (forall b ms, flush_at seq = Some (b, ms) -> ckpt_ge b seq w) -> all_flushed seq w.
Proof.
  intros Hfl Hseq b i ms Hi E. destruct (decide (i = seq)) as [->|?]; [by eapply Hseq|].
  eapply Hfl; [|done]. lia.
Qed.

Lemma flush_at_entry seq rs : entry_at seq rs -> flush_at seq = entry_flush rs.
Proof. intros [H1' E]. unfold flush_at. by rewrite decide_True, E. Qed.

(** What the records of entry [seq] leave to flush: nothing, when they have no
    mutations or the branch's checkpoint is past them, or the entry's batch. *)
Lemma collect_entry seq recs s branch ms s' : entry_at seq recs ->
  collect seq recs "" [] s = (Ok (branch, ms), s') ->
  ms = [] /\ (forall b ms', flush_at seq = Some (b, ms') -> skips s seq b = true) \/
  s' = s /\ flush_at seq = Some (branch, ms).
Proof.
  intros Hent E. pose proof (flush_at_entry _ _ Hent) as Hfa. destruct Hent as [_ Hent].
  destruct (collect_mutations _ _ _ _ _ _ _ _ E) as (rs & Ed & Hst & _ & Hnil & Hmut).
  unfold entry_flush in Hfa. rewrite Ed in Hfa. destruct (decide (muts_of rs = [])) as [Hm|Hm].
  { left. split; [by apply Hnil|]. intros b ms'. by rewrite Hfa, Hm. }
  destruct (Forall_lookup_1 _ _ _ _ Hwf Hent rs Ed) as [?|Hk]; [done|]. destruct (Hmut Hk) as [HF ->].
  assert (flush_at seq = Some (branch, muts_of rs)) as Hseq.
  { rewrite Hfa. destruct (muts_of rs) as [|m ms]; [done|].
    apply Forall_cons in HF as [<- HF]. by rewrite decide_True. }
  destruct (skips s seq branch) eqn:Esk; [left|right; split; [by apply Hst|done]].
  split; [done|]. intros b ms'. rewrite Hseq. by intros [= <- _].
Qed.

Lemma safe_process fuel s seq recs w : entry_at seq recs -> log_ge seq w ->
  all_flushed (seq - 1) w -> stream_ok s w ->
  safe (processRecords fuel s seq recs) (step_post seq) w.
Proof.
  intros Hent Hlog Hfl Hs. pose proof (flush_at_entry _ _ Hent) as Hfa. pose proof Hent as [Hs1 Hrecs].
  pose proof (Forall_lookup_1 _ _ _ _ Hwf Hrecs) as Hw. unfold processRecords.
  destruct (collect seq recs "" [] s) as [r s'] eqn:E.
  assert (stream_ok s' w) as Hs'.
  { destruct (collect_state _ _ _ _ _ _ _ E) as (Hlg & Hsc & HC). destruct Hs as (? & ? & Hs).
    split_and!; [by rewrite Hlg|by rewrite Hsc|]. intros b c Hb. destruct (HC b c Hb) as [?|[-> Hf]]; [by apply Hs|].
    enough (all_flushed seq w) as Ha by apply Ha. apply all_flushed_step; [done|]. intros b' ms' Eb.
    rewrite Hfa in Eb. unfold entry_flush in Eb. destruct (decode_wal recs) as [rs|] eqn:Ed; [|done].
    destruct (Hw rs Ed) as [Hm|Hk]; [by rewrite Hm in Eb|]. by apply Hf in Hk. }
  destruct r as [[branch ms]|e]; [|cbn; split; [done|intros [=]]].
  destruct (collect_entry _ _ _ _ _ _ Hent E) as [[-> Hskip]|[-> Hseq]].
  - cbn. split; [done|]. intros _. apply all_flushed_step; [done|]. intros b ms Eb.
    specialize (Hskip b ms Eb). unfold skips in Hskip. destruct (branchCheckpoints s !! b) as [c|] eqn:Ec; [|done].
    apply bool_decide_eq_true in Hskip. destruct Hs as (_ & _ & Hs). by eapply (Hs b c Ec).
  - apply safe_flushBranch; try done. by eapply Hnames.
Qed.

(** Where a flusher may start. *)
Definition start_ok (k : Z) (w : world S) : Prop := 0 <= k /\ log_ge k w /\ all_flushed k w.

Lemma start_ok_stable k w w' : flush_rel w w' -> start_ok k w -> start_ok k w'.
Proof.
  intros HR (? & ? & ?). split_and!; [done|by apply HR|by eapply all_flushed_stable].
Qed.

Definition init_post (x : res Z * streamFlusher) (w : world S) : Prop :=
  stream_ok x.2 w /\ forall k, x.1 = Ok k -> start_ok k w.

Lemma safe_init_loop s branches min w : Forall valid_name branches -> stream_ok s w ->
  start_ok (default 0 min) w -> safe (init_loop s branches min) init_post w.
Proof.
  intros Hb. revert s min w. induction Hb as [|b branches Hb _ IH]; intros s min w Hs Hk; cbn [init_loop].
  { cbn. split; [done|]. by intros k [= <-]. }
  pose proof Hs as (_ & -> & _). eapply safe_bind; [apply _|by apply safe_Read_manifest|].
  intros [[m g]|e] w1 HR Hr.
  - destruct Hr as (_ & _ & (M1 & M2 & M3 & M4 & _)). apply IH.
    + apply stream_ok_checkpoint; [by eapply stream_ok_stable|apply M4].
    + assert (start_ok (CheckpointSeq m) w1) by (split_and!; [lia|done|done]).
      pose proof (start_ok_stable _ _ _ HR Hk). cbn. destruct min as [c|]; [case_decide|]; done.
  - pose proof (stream_ok_stable _ _ _ HR Hs). case_match.
    + apply IH; [done|]. by eapply start_ok_stable.
    + cbn. by split.
Qed.

Lemma start_ok_0 w : log_ge 0 w -> start_ok 0 w.
Proof.
  intros Hl. split_and!; [done|done|]. intros b i ms Hi. unfold flush_at.
  rewrite decide_False by lia. done.
Qed.

Lemma safe_initCheckpoints s w : stream_ok s w -> log_ge 0 w -> safe (initCheckpoints s) init_post w.
Proof.
  intros Hs Hl. unfold initCheckpoints. pose proof Hs as (_ & -> & _).
  eapply safe_bind; [apply _|apply safe_ListBranches|]. intros [bs|e] w1 HR Hb.
  - apply safe_init_loop; [done|by eapply stream_ok_stable|]. apply start_ok_0. by apply HR.
  - cbn. split; [by eapply stream_ok_stable|done].
Qed.

(** *** The loops: what was in the log when they were called gets flushed *)
Section Loops.
Context (k0 : Z).

Definition run_post (x : res unit * streamFlusher) (w : world S) : Prop :=
  stream_ok x.2 w /\ (x.1 = Ok tt -> all_flushed k0 w).

(** The state between two entries. *)
Definition between_entries (s : streamFlusher) (seq : Z) (w : world S) : Prop :=
  stream_ok s w /\ start_ok (seq - 1) w /\ log_ge k0 w.

Lemma between_stable s seq w w' : flush_rel w w' -> between_entries s seq w -> between_entries s seq w'.
Proof.
  intros HR (? & ? & ?). split_and!; [by eapply stream_ok_stable|by eapply start_ok_stable|by apply HR].
Qed.

Lemma safe_next s seq w (f : res (list LRecord) -> prog (res unit * streamFlusher)) :
  between_entries s seq w ->
  (forall w', flush_rel w w' -> between_entries s seq w' -> k0 < seq ->
     safe (f (Err ErrEndOfStream)) run_post w') ->
  (forall e w', e <> ErrEndOfStream -> flush_rel w w' -> between_entries s seq w' ->
     safe (f (Err e)) run_post w') ->
  (forall rs w', flush_rel w w' -> between_entries s seq w' -> entry_at seq rs -> log_ge seq w' ->
     safe (f (Ok rs)) run_post w') ->
  safe (r ← Read (log s) seq; f r) run_post w.
Proof.
  intros Hbt Hend Herr Hrec. pose proof Hbt as (Hs & (Hs0 & Hlog & Hfl) & Hk).
  pose proof (log_ge_bound _ _ Hlog). pose proof Hs as (Hp & _).
  eapply safe_bind; [apply _|apply (safe_Read_log _ _ k0); [done|lia|done]|].
  intros r w1 HR Hr. pose proof (between_stable _ _ _ _ HR Hbt).
  destruct r as [rs|e]; [destruct Hr; auto|].
  destruct (decide (e = ErrEndOfStream)) as [->|?]; [|by apply Herr]. apply Hend; auto.
Qed.

(** One entry, then the rest of the loop. *)
Lemma safe_entry fuel s seq recs w (f : res unit * streamFlusher -> prog (res unit * streamFlusher)) :
  between_entries s seq w -> entry_at seq recs -> log_ge seq w ->
  (forall s' w', flush_rel w w' -> between_entries s' (u64 (seq + 1)) w' ->
     safe (f (Ok tt, s')) run_post w') ->
  (forall e s' w', flush_rel w w' -> between_entries s' seq w' -> safe (f (Err e, s')) run_post w') ->
  safe (x ← processRecords fuel s seq recs; f x) run_post w.
Proof.
  intros Hbt Hent Hlog Hnext Herr. pose proof Hbt as (Hs & (Hs0 & Hlg & Hfl) & Hk).
  pose proof (log_ge_bound _ _ Hlog).
  eapply safe_bind; [apply _|by apply safe_process|]. intros [r s'] w1 HR [Hs' Hf]. cbn in Hs', Hf.
  destruct r as [[]|e].
  - apply Hnext; [done|]. rewrite u64_small by (unfold is_u64, MaxUint64 in *; lia).
    split_and!; [done| |by apply HR]. replace (seq + 1 - 1) with seq by lia.
    split_and!; [lia|by apply HR|auto].
  - apply Herr; [done|]. destruct (between_stable _ _ _ _ HR Hbt) as (_ & ? & ?). by split_and!.
Qed.

Lemma safe_fail s seq w e : between_entries s seq w -> safe (Ret (Err e, s)) run_post w.
Proof. intros (? & _). cbn. split; [done|]. intros [=]. Qed.

Lemma safe_drain fuel s seq w : between_entries s seq w -> safe (drain fuel s seq) run_post w.
Proof.
  revert s seq w. induction fuel as [|fuel IH]; intros s seq w Hbt; [by eapply safe_fail|].
  cbn [drain]. apply safe_next; [done|..].
  - intros w1 _ (? & (_ & _ & Hfl) & _) Hk. cbn. split; [done|]. intros _ b.
    eapply flushed_le; [|apply Hfl]. lia.
  - intros e w1 He _ Hb1. unfold errors_Is. rewrite bool_decide_eq_false_2 by done. by eapply safe_fail.
  - intros rs w1 _ Hb1 Hent Hlog.
    apply (safe_entry (Datatypes.S fuel) s seq rs w1 (fun '(r, s) => match r with
      | Err e => Ret (Err e, s) | Ok _ => drain fuel s (u64 (seq + 1)) end)); [done..| |].
    + intros s' w2 _ Hb2. by apply IH.
    + intros e s' w2 _ Hb2. by eapply safe_fail.
Qed.

Lemma safe_shutdown fuel s seq w : between_entries s seq w \/ seq = 0 /\ stream_ok s w /\ log_ge k0 w ->
  log_ge 0 w -> safe (shutdownFlush fuel s seq) run_post w.
Proof.
  intros Hbt Hl0. unfold shutdownFlush. case_decide as Hseq.
  - assert (stream_ok s w /\ log_ge k0 w) as [Hs Hk]
      by (destruct Hbt as [(? & ? & ?)|(? & ? & ?)]; done).
    eapply safe_bind; [apply _|by apply safe_initCheckpoints|]. intros [r s'] w1 HR [Hs' Hst].
    cbn in Hs', Hst. destruct r as [k|e]; [|cbn; split; [done|intros [=]]]. specialize (Hst k eq_refl).
    apply safe_drain. split_and!; [done| |by apply HR].
    pose proof Hst as (? & Hlg & _). pose proof (log_ge_bound _ _ Hlg).
    rewrite u64_small by (unfold is_u64, MaxUint64 in *; lia). by replace (k + 1 - 1) with k by lia.
  - destruct Hbt as [?|[? _]]; [|done]. by apply safe_drain.
Qed.

Lemma safe_follow fuel polls s seq w : between_entries s seq w ->
  safe (follow fuel polls s seq) run_post w.
Proof.
  revert polls s seq w. induction fuel as [|fuel IH]; intros polls s seq w Hbt; [by eapply safe_fail|].
  assert (forall fuel s w', between_entries s seq w' -> safe (shutdownFlush fuel s seq) run_post w') as Hsd.
  { intros fuel' s' w' Hb. apply safe_shutdown; [by left|]. destruct Hb as (_ & (? & Hlg & _) & _).
    eapply log_ge_le; [|done]. done. }
  cbn [follow]. apply safe_next; [done|..].
  - intros w1 _ Hb1 Hk. cbn. destruct polls as [|polls]; [by apply Hsd|by apply IH].
  - intros e w1 He _ Hb1. unfold errors_Is at 1. rewrite bool_decide_eq_false_2 by done.
    case_match; [by apply Hsd|by eapply safe_fail].
  - intros rs w1 _ Hb1 Hent Hlog.
    apply (safe_entry (Datatypes.S fuel) s seq rs w1 (fun '(r, s) => match r with
      | Err e => if is_ctx_error e then shutdownFlush (Datatypes.S fuel) s seq else Ret (Err e, s)
      | Ok _ => follow fuel polls s (u64 (seq + 1)) end)); [done..| |].
    + intros s' w2 _ Hb2. by apply IH.
    + intros e s' w2 _ Hb2. case_match; [by apply Hsd|by eapply safe_fail].
Qed.

Lemma safe_Run fuel polls s w : stream_ok s w -> log_ge 0 w -> log_ge k0 w ->
  safe (Run fuel polls s) run_post w.
Proof.
  intros Hs Hl0 Hk. unfold Run.
  eapply safe_bind; [apply _|by apply safe_initCheckpoints|]. intros [r s'] w1 HR [Hs' Hst].
  cbn in Hs', Hst. destruct r as [k|e].
  - specialize (Hst k eq_refl). apply safe_follow. split_and!; [done| |by apply HR].
    pose proof Hst as (? & Hlg & _). pose proof (log_ge_bound _ _ Hlg).
    rewrite u64_small by (unfold is_u64, MaxUint64 in *; lia). by replace (k + 1 - 1) with k by lia.
  - case_match; [|cbn; split; [done|intros [=]]].
    apply safe_shutdown; [|by apply HR]. right. split_and!; [done|done|by apply HR].
Qed.

Lemma run_post_stable : stable flush_rel run_post.
Proof.
  intros [r s] w w' HR [? Hf]. split; [by eapply stream_ok_stable|]. intros E.
  eapply all_flushed_stable; [done|]. by apply Hf.
Qed.

End Loops.

(** *** Writers *)

(** The next entry is appended to the log. *)
Definition appends (nw nw' : nat * world S) : Prop :=
  exists k rs g, is_log p (view (store nw.2)) (frames <$> take k entries) /\
    entries !! k = Some rs /\ nw.1 = Datatypes.S nw'.1 /\
    exec (OPut (segmentKey p (Z.of_nat k + 1)) (frames rs) IfAbsent) nw.2 = (Ok g, nw'.2).

Lemma appends_safe n w n' w' : appends (n, w) (n', w') -> flush_inv n w ->
  flush_inv n' w' /\ flush_rel w w'.
Proof.
  intros (k & rs & g & Hlog & Hrs & Hn & Hex) HI. cbn [fst snd] in *. subst n. unfold LRecord in *.
  pose proof HI as (Hok & Hl & HM & HD & HB). pose proof (lookup_lt_Some _ _ _ Hrs) as Hk.
  destruct (Forall_lookup_1 _ _ _ _ Hfits Hrs) as [_ Hsl].
  set (r := KWal ns (Z.of_nat k + 1)).
  assert (valid_role r) as Hr by (split; [done|unfold is_u64, MaxUint64 in *; lia]).
  change IfAbsent with (swap_cond "") in Hex.
  destruct (put_exec n' (segmentKey p (Z.of_nat k + 1)) "" (frames rs) w _ w' Hok Hsl ltac:(by left) Hex)
    as [[? _]|(g' & _ & _ & Hp)]; [done|].
  change (segmentKey p (Z.of_nat k + 1)) with (key_of r) in Hp.
  assert (is_log p (view (store w')) (frames <$> take (Datatypes.S k) entries)) as Hlog'.
  { destruct Hp as (_ & _ & -> & _). rewrite (take_S_r _ _ _ Hrs), fmap_app.
    assert (length (frames <$> take k entries) = k) as Hlk by (rewrite length_fmap, length_take; lia).
    pose proof (is_log_append p _ _ (frames rs) g' Hlog) as Ha. rewrite Hlk in Ha.
    apply Ha. unfold MaxUint64 in *. lia. }
  assert (flush_rel w w') as HR.
  { pose proof Hp as (_ & Hg & _). split; [done|]. split_and!.
    - intros k' (j & Hj & Hlj & Hk'). exists (Datatypes.S k). unfold LRecord in *. split_and!; [lia|done|].
      pose proof (f_equal length (is_log_unique p _ _ _ Hlj Hlog)) as E.
      rewrite !length_fmap, !length_take in E. unfold LRecord in *. lia.
    - intros b i Hb (m & Hm' & Hi). exists m. split; [|done].
      by apply (manifest_is_put r (frames rs) g' n' b m w w').
    - intros i b d' _ (e & He & Hd'). exists e. split; [|done].
      by rewrite (segment_put r (frames rs) g' n' d' w w'). }
  split; [|done]. split; [apply Hp|]. split; [by apply HR|]. split_and!.
  - intros b Hb. destruct (HM b Hb) as (m & Hm1 & Hm2). exists m.
    split; [by apply (manifest_is_put r (frames rs) g' n' b m w w')|]. by eapply manifest_ok_stable.
  - intros i b d' e Hd'. rewrite (segment_put r (frames rs) g' n' d' w w') by done. by eapply HD.
  - by eapply (branches_put r).
Qed.

(** What the others do: writers append to the log; objects of other
    namespaces, the catalog and the tenant list are written; counters move,
    and calls are spent that do nothing to the store. *)
Definition elsewhere (r : role) : Prop :=
  match r with
  | KCatalog | KTenants => True
  | KBranches ns' | KManifest ns' _ | KSegment ns' _ | KWal ns' _ => ns' <> ns
  end.

Inductive others : relation (nat * world S) :=
  | OtherAppend nw nw' : appends nw nw' -> others nw nw'
  | OtherWrite n w w' r d g : valid_role r -> elsewhere r -> put_done n (key_of r) d g w w' ->
      others (Datatypes.S n, w) (n, w')
  | OtherIdle n n' w w' : (n' <= n)%nat -> store w' = store w -> others (n, w) (n', w').

Lemma others_safe n w n' w' : others (n, w) (n', w') -> flush_inv n w -> flush_inv n' w' /\ flush_rel w w'.
Proof.
  intros Ho HI. inversion Ho as [? ? Ha|? ? ? r d g Hr He Hp|? ? ? ? Hn Hs]; subst; [by eapply appends_safe| |].
  - destruct (put_unrelated r d g n' w w') as [HR Hinv]; try done.
    + by destruct r.
    + intros b ->. done.
    + intros id ->. done.
    + split; [|done]. apply Hinv. eapply (branches_put r); try done; [intros ->; done|]. by destruct HI as (_ & _ & _ & _ & ?).
  - destruct w as [st cs], w' as [st' cs']. cbn in Hs. subst st'. destruct HI as (Hok & HI).
    split; [split; [by eapply ok_weaken|exact HI]|]. split; [by split|]. split_and!; done.
Qed.

End Namespace.

(** ** Claims *)
Section Claim.
Context {S : Type} `{StoreLaws S} `{CodecLaws BranchCatalog, CodecLaws BranchManifest}.
Context `{Codec WalRecord, CodecLaws DocumentMutation}.

(** The log's entries are what the ingester writes: readable batches, each
    the mutations of one validly named branch or fork events; their segments
    fit a slice and no two different ones have the same SHA-256. *)
Definition good_log (entries : list (list LRecord)) : Prop :=
  Z.of_nat (length entries) < MaxUint64 /\
  Forall (fun rs => Forall (fits Crc.DefaultMaxRecordSize) rs /\ slice_len (frames rs)) entries /\
  Forall entry_wf entries /\
  (forall i b ms, flush_at entries i = Some (b, ms) -> valid_name b) /\
  (forall i b d, segment_of entries i b d -> slice_len d) /\
  (forall i b d i' b' d', segment_of entries i b d -> segment_of entries i' b' d' ->
     Sum256 d = Sum256 d' -> d = d').

(** A state to start from: [base] are the manifests; no checkpoint is past
    the log's end or past an entry of another branch that is not flushed; the
    objects under the names of the log's segments are those segments. *)
Definition flush_start (ns : string) (entries : list (list LRecord)) (base : string -> BranchManifest)
    (n : nat) (w : world S) : Prop :=
  ok n (store w) /\ log_ge ns entries 0 w /\
  (forall b, valid_name b -> manifest_is ns b w (base b) /\ 0 <= CheckpointSeq (base b) /\
     log_ge ns entries (CheckpointSeq (base b)) w /\
     all_flushed ns entries (CheckpointSeq (base b)) w) /\
  (forall i b d e, segment_of entries i b d ->
     view (store w) !! SegmentKey (MkScope ns) (segment_id d) = Some e -> data e = d) /\
  branches_ok ns w.

Lemma flush_start_inv ns entries base n w : flush_start ns entries base n w ->
  flush_inv ns entries base n w.
Proof.
  intros (Hok & Hl & HM & HD & HB). split_and!; [done|done| |done|done].
  intros b Hb. destruct (HM b Hb) as (Hm & H0' & Hlg & Hf). exists (base b). split; [done|].
  split_and!; [lia|lia|done|done|by rewrite refs_nil, app_nil_r|]. intros i ms Hi. lia.
Qed.

(** The flushers, each with its own log handle. *)
Definition flusher_client (ns : string) (c : nat * nat * nat) : prog (res unit * streamFlusher) :=
  let '(fuel, polls, counter) := c in
  Run fuel polls (MkStream (MkLog (WALPrefix (MkScope ns)) counter) (MkScope ns) ∅).

(** A pool of flushers with writers keeps the invariant. *)
Lemma flushers_steps (faulty : bool) ns entries base clients k0 n (w : world S) ts n' w' :
  valid_name ns -> good_log entries -> flush_start ns entries base n w -> log_ge ns entries k0 w ->
  rtc (estep faulty (others ns entries)) (flusher_client ns <$> clients, (n, w)) (ts, (n', w')) ->
  flush_inv ns entries base n' w' /\ flush_rel ns entries w w' /\
  forall j s, ts !! j = Some (Ret (Ok tt, s)) -> all_flushed ns entries k0 w'.
Proof.
  intros Hns (L1 & L2 & L3 & L4 & L5 & L6) Hst Hk Hsteps. pose proof (flush_start_inv _ _ _ _ _ Hst) as HI.
  destruct (pool_steps_env faulty (flush_inv ns entries base) (flush_rel ns entries) (others ns entries)
    ((fun _ => run_post ns entries k0) <$> clients) (flusher_client ns <$> clients) n w ts n' w')
    as (HI' & HR & Hpool); [| | |done|done|].
  - intros n1 w1 n2 w2 Ha HI1. by eapply others_safe.
  - apply Forall_fmap, Forall_true. intros c. by apply run_post_stable.
  - apply Forall2_fmap, Forall_Forall2_diag, Forall_true. intros [[fuel polls] counter].
    assert (log_ge ns entries 0 w) by apply Hst. apply safe_Run; try done.
  - split_and!; [done|done|]. intros j s Hj. destruct (Forall2_lookup_l _ _ _ _ _ Hpool Hj) as (Q & HQ & Hsafe).
    rewrite list_lookup_fmap in HQ. destruct (clients !! j); [|done]. injection HQ as <-.
    by apply Hsafe.
Qed.

End Claim.

(** C2. Flushing is exactly once: any number of flushers of a namespace run
    at the same time, with writers appending to the log and others writing
    other namespaces' objects and the catalog, over calls that fail
    (without effect, or with the acknowledgement lost), and are stopped at
    any moment.  At every moment each branch's manifest lists, after what it
    listed at the start, exactly the segments of that branch's log entries up
    to its checkpoint, in log order, each once; each of those entries has its
    segment object in the store with the bytes of its mutations; the
    checkpoint never passes the end of the log nor an entry of any branch
    that is not flushed; and a flusher that returned without error has seen
    to it that everything in the log when it started is flushed. *)
Theorem flush_exactly_once {S} `{StoreLaws S} `{CodecLaws BranchCatalog, CodecLaws BranchManifest}
    `{Codec WalRecord, CodecLaws DocumentMutation} (faulty : bool)
    ns entries base clients k0 n (w : world S) ts n' w' :
  valid_name ns -> good_log entries -> flush_start ns entries base n w -> log_ge ns entries k0 w ->
  rtc (estep faulty (others ns entries)) (flusher_client ns <$> clients, (n, w)) (ts, (n', w')) ->
  (forall b, valid_name b -> exists m, manifest_is ns b w' m /\
     CheckpointSeq (base b) <= CheckpointSeq m /\ log_ge ns entries (CheckpointSeq m) w' /\
     all_flushed ns entries (CheckpointSeq m) w' /\
     Segments m = Segments (base b) ++ refs entries b (CheckpointSeq (base b)) (CheckpointSeq m) /\
     forall i ms, CheckpointSeq (base b) < i <= CheckpointSeq m -> flush_at entries i = Some (b, ms) ->
       exists d e, Segment.encode_segment ms = Ok d /\
         view (store w') !! SegmentKey (MkScope ns) (segment_id d) = Some e /\ data e = d) /\
  forall j s, ts !! j = Some (Ret (Ok tt, s)) -> all_flushed ns entries k0 w'.
Proof.
  intros Hns Hgood Hst Hk Hsteps.
  destruct (flushers_steps _ _ _ _ _ _ _ _ _ _ _ Hns Hgood Hst Hk Hsteps) as ((_ & _ & HM & _) & _ & Hret).
  split; [|done]. intros b Hb. destruct (HM b Hb) as (m & Hm & (M1 & M2 & M3 & M4 & M5 & M6)). exists m.
  split_and!; try done. intros i ms Hi E. destruct (M6 i ms Hi E) as (d & Hd & e & He & Hde). eauto.
Qed.

(** ** Witness: one entry appended, two flushers racing for it *)
#[local] Instance ex_branches_codec : Codec BranchCatalog := bit_codec BranchCatalog.
#[local] Instance ex_branches_laws : CodecLaws BranchCatalog := bit_codec_laws BranchCatalog.
#[local] Instance ex_manifest_codec : Codec BranchManifest := bit_codec BranchManifest.
#[local] Instance ex_manifest_laws : CodecLaws BranchManifest := bit_codec_laws BranchManifest.
#[local] Instance ex_wal_codec : Codec WalRecord := bit_codec WalRecord.
#[local] Instance ex_mut_codec : Codec DocumentMutation := bit_codec DocumentMutation.
#[local] Instance ex_mut_laws : CodecLaws DocumentMutation := bit_codec_laws DocumentMutation.

Definition ex_mut : DocumentMutation := MkMutation "main" "d" PUT [x00].
Definition ex_entry : list LRecord :=
  match Marshal (WalMutation ex_mut) with Ok d => [d] | Err _ => [] end.
Definition ex_entries : list (list LRecord) := [ex_entry].

(** A log of one entry. *)
Lemma single_flush_at wal i b ms b' ms' : entry_flush wal = Some (b, ms) -> flush_at [wal] i = Some (b', ms') ->
  i = 1 /\ b' = b /\ ms' = ms.
Proof.
  intros E. unfold flush_at. case_decide; [|done]. destruct (decide (i = 1)) as [->|Hne].
  - cbn [list_lookup lookup]. change (Z.to_nat (1 - 1)) with 0%nat. cbn. rewrite E. by intros [= <- <-].
  - rewrite lookup_ge_None_2; [done|]. cbn [length]. lia.
Qed.

Lemma single_good_log wal b ms d : entry_flush wal = Some (b, ms) -> entry_wf wal ->
  Forall (fits Crc.DefaultMaxRecordSize) wal -> slice_len (frames wal) -> valid_name b ->
  Segment.encode_segment ms = Ok d -> slice_len d -> good_log [wal].
Proof.
  intros E Hwf Hf Hl Hb Hd Hs.
  assert (forall i b' d', segment_of [wal] i b' d' -> d' = d) as Hseg.
  { intros i b' d' (ms' & E' & Hd'). destruct (single_flush_at _ _ _ _ _ _ E E') as (_ & _ & ->). congruence. }
  split_and!; [done|by apply Forall_singleton|by apply Forall_singleton| | |].
  - intros i b' ms' E'. by destruct (single_flush_at _ _ _ _ _ _ E E') as (_ & -> & _).
  - by intros i b' d' ->%Hseg.
  - by intros i b1 d1 i' b2 d2 ->%Hseg ->%Hseg.
Qed.

Lemma ex_flush_at i b ms : flush_at ex_entries i = Some (b, ms) -> i = 1 /\ b = "main" /\ ms = [ex_mut].
Proof.
  unfold flush_at. case_decide; [|done]. destruct (decide (i = 1)) as [->|Hne].
  - assert (ex_entries !! Z.to_nat (1 - 1) ≫= entry_flush = Some ("main", [ex_mut])) as ->
      by (vm_compute; reflexivity). intros [= <- <-]. done.
  - rewrite lookup_ge_None_2; [done|]. cbn [ex_entries length]. lia.
Qed.

Lemma ex_good_log : good_log ex_entries.
Proof.
  assert (forall i b d, segment_of ex_entries i b d -> Segment.encode_segment [ex_mut] = Ok d) as Hsg.
  { intros i b d (ms & E & Hd). apply ex_flush_at in E as (_ & _ & ->). exact Hd. }
  split; [reflexivity|]. split; [|split; [|split; [|split]]].
  - forall_list. split.
    + apply (Forall_impl (fun r => Z.of_nat (length r) <= 1000)); [|exact fits_default].
      vm_compute. repeat constructor; discriminate.
    + vm_compute. reflexivity.
  - forall_list. intros rs E. right.
    assert (decode_wal ex_entry = Ok [WalMutation ex_mut]) as E' by (vm_compute; reflexivity).
    rewrite E' in E. injection E as <-. reflexivity.
  - intros i b ms (_ & -> & _)%ex_flush_at. reflexivity.
  - intros i b d Hd%Hsg. apply (f_equal (fun r => match r with Ok d => Z.of_nat (length d) | Err _ => 0 end)) in Hd.
    unfold slice_len. rewrite <-Hd. vm_compute. reflexivity.
  - intros i b d i' b' d' Hd%Hsg Hd'%Hsg _. rewrite Hd in Hd'. by injection Hd'.
Qed.

(** An empty store is a state to start from, whatever the log is to be. *)
Lemma empty_flush_start ns entries : flush_start ns entries (fun _ => absentManifest) 50 (MkWorld Mem.newMemStore ∅).
Proof.
  assert (log_ge ns entries 0 (MkWorld Mem.newMemStore ∅)) as Hl.
  { exists 0%nat. split; [lia|]. split; [apply empty_log|lia]. }
  split; [by apply Mem.newMemStore_ok|]. split; [exact Hl|]. split; [|split].
  - intros b Hb. split; [reflexivity|]. split; [done|]. split; [exact Hl|].
    intros b' i ms Hi. cbn in Hi. unfold flush_at. by rewrite decide_False by lia.
  - intros i b d e _ He. change ((∅ : gmap string entry) !! SegmentKey (MkScope ns) (segment_id d) = Some e) in He.
    by rewrite lookup_empty in He.
  - intros e bc He. change ((∅ : gmap string entry) !! branchesKey (MkScope ns) = Some e) in He.
    by rewrite lookup_empty in He.
Qed.

Lemma ex_flush_start ns : flush_start ns ex_entries (fun _ => absentManifest) 50 (MkWorld Mem.newMemStore ∅).
Proof. apply empty_flush_start. Qed.

Definition ex_flush_w1 : world Mem.memStore :=
  (exec (OPut (segmentKey "ns/docs/wal" 1) (frames ex_entry) IfAbsent) (MkWorld Mem.newMemStore ∅)).2.
Definition ex_flush_sched : list nat := [0;1;0;1;0;1;0;1;0;1;0;1;0;1;0;1;0;1;0;1]%nat.
Definition ex_flush_clients : list (nat * nat * nat) := [(3, 0, 0); (3, 0, 1)]%nat.

Definition ex_returns (ts : list (prog (res unit * streamFlusher))) : list (option (res unit)) :=
  (fun r => match r with Some (x, _) => Some x | None => None end) <$> results ts.

Lemma ex_flush_runs :
  match interleave ex_flush_sched (flusher_client "docs" <$> ex_flush_clients) 49 ex_flush_w1 with
  | Some (ts, _) => ex_returns ts = [Some (Ok tt); Some (Ok tt)]
  | None => False
  end.
Proof. vm_compute. reflexivity. Qed.

Lemma ex_flush_appends : appends "docs" ex_entries (50%nat, MkWorld Mem.newMemStore ∅) (49%nat, ex_flush_w1).
Proof.
  exists 0%nat, ex_entry. eexists. split; [apply empty_log|]. split; [reflexivity|]. split; [reflexivity|].
  cbn [fst snd]. unfold ex_flush_w1. vm_compute. reflexivity.
Qed.

Lemma ex_flush_steps c : interleave ex_flush_sched (flusher_client "docs" <$> ex_flush_clients) 49 ex_flush_w1
    = Some c ->
  rtc (estep false (others "docs" ex_entries))
    (flusher_client "docs" <$> ex_flush_clients, (50%nat, MkWorld Mem.newMemStore ∅)) c.
Proof.
  intros E. eapply rtc_l; [apply EEnv, OtherAppend, ex_flush_appends|].
  by eapply interleave_esteps.
Qed.

Lemma flush_exactly_once_witness : exists ts n' w' m,
  ex_returns ts = [Some (Ok tt); Some (Ok tt)] /\
  rtc (estep false (others "docs" ex_entries))
    (flusher_client "docs" <$> ex_flush_clients, (50%nat, MkWorld Mem.newMemStore ∅)) (ts, (n', w')) /\
  manifest_is "docs" "main" w' m /\
  Segments m = [] ++ refs ex_entries "main" 0 (CheckpointSeq m).
Proof.
  pose proof ex_flush_runs as Hr.
  destruct (interleave _ _ _ _) as [[ts [n' w']]|] eqn:E; [|destruct Hr].
  apply ex_flush_steps in E.
  destruct (flush_exactly_once false "docs" ex_entries (fun _ => absentManifest) ex_flush_clients 0 50
    (MkWorld Mem.newMemStore ∅) ts n' w') as [HM _].
  - reflexivity.
  - exact ex_good_log.
  - exact (ex_flush_start "docs").
  - apply (ex_flush_start "docs").
  - exact E.
  - destruct (HM "main" eq_refl) as (m & Hm & _ & _ & _ & Hs & _).
    exists ts, n', w', m. split; [exact Hr|]. split; [exact E|]. split; [exact Hm|exact Hs].
Defined.
