(* ===== verification/FlusherLive.v ===== *)
(** * ingest: an undisturbed flusher catches up

    [FlusherSafety] shows that flushers never do anything wrong, whatever
    happens to their calls.  Here is the other half: whatever state such a
    history has left behind (a segment uploaded and no manifest written, a
    manifest written and its branch not listed, a flusher stopped anywhere),
    a flusher that then runs undisturbed returns without error and everything
    in the log is flushed.  The proofs are total runs ([wp] of Prog.v) that
    take the safety lemmas along. *)

From S2P Require Import Prelude GoStr Recordio Scanner ObjectStore Prog Codec Logstream Namespace Cas Catalog Sha256 Storage Flusher FlusherSafety.
Local Open Scope Z_scope.

(** ** One log entry *)
Section Entry.
Context `{Codec WalRecord}.

(** What the ingester writes: records that decode, the mutations all of one
    branch. *)
Definition flushable (records : list LRecord) : Prop :=
  exists rs b, decode_wal records = Ok rs /\ Forall (fun m => Branch m = b) (muts_of rs).

Lemma collect_total seq records rs b br acc s : decode_wal records = Ok rs ->
  Forall (fun m => Branch m = b) (muts_of rs) -> br = "" \/ br = b ->
  exists x s', collect seq records br acc s = (Ok x, s').
Proof.
  revert rs br acc s. induction records as [|rec records IH]; intros rs br acc s Ed HF Hbr; cbn [collect decode_wal] in *.
  { eauto. }
  destruct (Unmarshal rec) as [r|]; [|done]. cbn in Ed.
  destruct (decode_wal records) as [rs'|]; [|done]. injection Ed as <-.
  destruct r as [|m|evt]; [by eapply IH| |by eapply IH]. cbn in HF. case_decide; [by eapply IH|].
  cbn in HF. apply Forall_cons in HF as [Hm HF]. rewrite decide_False by (intros [? ?]; destruct Hbr; congruence).
  eapply IH; [done|done|by right].
Qed.

End Entry.

(** ** The namespace *)
Section Live.
Context {S : Type} `{StoreLaws S} `{Codec BranchCatalog, CodecLaws BranchManifest}.
Context `{Codec WalRecord, CodecLaws DocumentMutation} `{!CodecLaws BranchCatalog}.
Context (ns : string) (entries : list (list LRecord)) (base : string -> BranchManifest).
(** The number of entries in the log and the branch list at the start. *)
Context (k : nat) (bc0 : BranchCatalog).

Let sc : Scope := MkScope ns.
Let p : string := WALPrefix sc.
Abbreviation flush_inv := (flush_inv ns entries base).
Abbreviation flush_rel := (flush_rel ns entries).
Abbreviation flush_at := (flush_at entries).

(** The branch lists a flusher of the log makes of [bc0]. *)
Definition branches_from (bc : BranchCatalog) : Prop :=
  Branches bc0 ⊆ Branches bc /\
  forall b, is_Some (Branches bc !! b) ->
    is_Some (Branches bc0 !! b) \/ exists i ms, flush_at i = Some (b, ms).

(** What the flusher has to write can be encoded: the segments, the manifests
    (the one of entry [i] lists the branch's segments up to it) and the
    branch lists. *)
Definition encodable : Prop :=
  (forall i b ms, flush_at i = Some (b, ms) -> exists d, Segment.encode_segment ms = Ok d) /\
  (forall i b ms, flush_at i = Some (b, ms) -> CheckpointSeq (base b) < i ->
     exists d, Marshal (MkManifest i (SchemaVersion (base b))
       (Segments (base b) ++ refs entries b (CheckpointSeq (base b)) i)) = Ok d) /\
  (forall bc, branches_from bc -> exists d, Marshal bc = Ok d).

(** The state during the run: the log and the schema versions stay, the
    branch list can be read. *)
Definition quiet (w : world S) : Prop :=
  is_log p (view (store w)) (frames <$> take k entries) /\
  (exists bc, holds (branchesKey sc) (MkBranches ∅) w bc /\ branches_from bc) /\
  forall b m, valid_name b -> manifest_is ns b w m -> SchemaVersion m = SchemaVersion (base b).

Definition live_inv (n : nat) (w : world S) : Prop := flush_inv n w /\ quiet w.

Context (Hns : valid_name ns) (Hlen : Z.of_nat (length entries) < MaxUint64) (Hk : (k <= length entries)%nat).
Context (Hfits : Forall (fun rs => Forall (fits Crc.DefaultMaxRecordSize) rs /\ slice_len (frames rs)) entries).
Context (Hwf : Forall entry_wf entries) (Hflushable : Forall flushable entries).
Context (Hnames : forall i b ms, flush_at i = Some (b, ms) -> valid_name b).
Context (Hsize : forall i b d, segment_of entries i b d -> slice_len d).
Context (Hcoll : forall i b d i' b' d', segment_of entries i b d -> segment_of entries i' b' d' ->
  Sum256 d = Sum256 d' -> d = d').
Context (Henc : encodable).

(** A write to an object that is not the log, the branch list or a manifest. *)
Lemma quiet_segment d d' g n w w' : put_done n (SegmentKey sc (segment_id d)) d' g w w' -> quiet w -> quiet w'.
Proof.
  intros Hp (Hl & (bc & Hbc & Hf) & HV). set (r := KSegment ns (segment_id d)).
  pose proof (role_segment ns Hns d : valid_role r) as Hr. change (SegmentKey sc (segment_id d)) with (key_of r) in Hp.
  split_and!.
  - by eapply (is_log_put ns Hns r).
  - exists bc. split; [|done]. unfold holds. change (branchesKey sc) with (key_of (KBranches ns)).
    by rewrite (put_other r (KBranches ns) d' g n w w').
  - intros b m Hb. unfold manifest_is, holds. change (ManifestKey (MkScope ns) b) with (key_of (KManifest ns b)).
    rewrite (put_other r (KManifest ns b) d' g n w w') by done. by apply HV.
Qed.

Lemma quiet_branches bc d g n w w' : Marshal bc = Ok d -> branches_from bc ->
  put_done n (branchesKey sc) d g w w' -> quiet w -> quiet w'.
Proof.
  intros Hm Hf Hp (Hl & _ & HV). set (r := KBranches ns). change (branchesKey sc) with (key_of r) in Hp.
  split_and!.
  - by eapply (is_log_put ns Hns r).
  - exists bc. split; [|done]. unfold holds. change (branchesKey sc) with (key_of r).
    destruct Hp as (_ & _ & -> & _). rewrite lookup_insert_eq. by apply codec_roundtrip.
  - intros b m Hb. unfold manifest_is, holds. change (ManifestKey (MkScope ns) b) with (key_of (KManifest ns b)).
    rewrite (put_other r (KManifest ns b) d g n w w') by done. by apply HV.
Qed.

Lemma quiet_manifest b m d g n w w' : valid_name b -> Marshal m = Ok d ->
  SchemaVersion m = SchemaVersion (base b) ->
  put_done n (ManifestKey sc b) d g w w' -> quiet w -> quiet w'.
Proof.
  intros Hb Hm Hv Hp (Hl & (bc & Hbc & Hf) & HV). set (r := KManifest ns b).
  change (ManifestKey sc b) with (key_of r) in Hp. split_and!.
  - by eapply (is_log_put ns Hns r).
  - exists bc. split; [|done]. unfold holds. change (branchesKey sc) with (key_of (KBranches ns)).
    by rewrite (put_other r (KBranches ns) d g n w w').
  - intros b' m' Hb'. unfold manifest_is, holds. change (ManifestKey (MkScope ns) b') with (key_of (KManifest ns b')).
    destruct (decide (b' = b)) as [->|Hne].
    + destruct Hp as (_ & _ & -> & _). rewrite lookup_insert_eq. cbn [data].
      rewrite (codec_roundtrip _ _ Hm). by intros [= <-].
    + rewrite (put_other r (KManifest ns b') d g n w w'); [by apply HV|done|done|unfold r; congruence|done].
Qed.

(** *** Branch list *)
Lemma wp_readBranches n w : live_inv n w ->
  wp (readBranchCatalog (branchesKey sc)) (fun r n' w' => n' = n /\ w' = w /\
    exists bc, r = Ok (bc, gen_at (branchesKey sc) w) /\ branches_from bc /\ names_ok bc) n w.
Proof.
  intros [(Hok & _ & _ & _ & HB) (_ & (bc & Hbc & Hf) & _)].
  eapply (wp_reading _ _ _ _ _); [|by apply (run_readBranchCatalog _ n)|].
  - apply reading_bind; [apply reading_call; auto with cloudy|]. intros [[d o]|e].
    + rewrite try_lift. by destruct (Unmarshal d).
    + by case_match.
  - split_and!; try done. exists bc. split_and!; try done. unfold holds in Hbc.
    destruct (view (store w) !! branchesKey sc) as [e|] eqn:E; [by eapply HB|].
    rewrite Hbc. intros b. cbn. by rewrite lookup_empty, is_Some_alt.
Qed.

Lemma wp_ListBranches n w : live_inv n w ->
  wp (ListBranches sc) (fun r n' w' => n' = n /\ w' = w /\ exists bs, r = Ok bs /\ Forall valid_name bs) n w.
Proof.
  intros HL. pose proof HL as [HI _].
  eapply wp_mono; [eapply (wp_safe flush_inv flush_rel);
    [|apply (safe_ListBranches false ns entries base); done|done]|].
  - apply wp_bind. eapply wp_mono; [by apply wp_readBranches|]. intros r n' w' (-> & -> & bc & -> & _).
    instantiate (1 := fun r n' w' => n' = n /\ w' = w /\ exists bs, r = Ok bs). cbn. case_decide; cbn; eauto.
  - intros r n' w' ((-> & -> & bs & ->) & _ & _ & HF). eauto.
Qed.

Lemma wp_AddBranch fuel i b ms n w : flush_at i = Some (b, ms) -> live_inv (Datatypes.S n) w ->
  wp (AddBranch (Datatypes.S fuel) sc b) (fun r n' w' => r = Ok tt /\ (n <= n')%nat /\ live_inv n' w') (Datatypes.S n) w.
Proof.
  intros Hi HL. pose proof (Hnames i b ms Hi) as Hb. unfold AddBranch. cbn [updateBranches]. apply wp_bind.
  eapply wp_mono; [by apply wp_readBranches|]. intros r n' w' (-> & -> & bc & -> & Hf & Hn).
  unfold add_branch. destruct (Branches bc !! b) as [[]|] eqn:E; [cbn; split_and!; [done|lia|done]|].
  set (bc' := MkBranches (<[b := tt]> (Branches bc))).
  assert (branches_from bc') as Hf'.
  { split; [etransitivity; [apply Hf|by apply insert_subseteq]|]. intros b' Hb'.
    cbn in Hb'. apply lookup_insert_is_Some in Hb' as [<-|[_ ?]]; [eauto|by apply Hf]. }
  destruct (proj2 (proj2 Henc) bc' Hf') as [d Hd]. rewrite try_lift, Hd.
  pose proof HL as [HI HQ]. pose proof HI as (Hok & _).
  destruct (swap_done (branchesKey sc) (MkBranches ∅) n w bc' d Hok Hd) as (g & w' & Hex & Hp).
  apply wp_bind. cbn [wp call cost]. rewrite Hex. split; [lia|]. cbn. split; [done|]. split; [lia|].
  rewrite Nat.sub_0_r. split; [|by eapply quiet_branches].
  eapply (put_branches ns entries base); try done. intros bc2 Hbc. rewrite (codec_roundtrip _ _ Hd) in Hbc.
  injection Hbc as <-. intros b' Hb'. cbn in Hb'. apply lookup_insert_is_Some in Hb' as [->|[_ ?]]; [done|by apply Hn].
Qed.

(** *** The log *)
Lemma wp_Read s seq n w : prefix (log s) = p -> live_inv n w -> 1 <= seq <= Z.of_nat k + 1 ->
  wp (Read (log s) seq) (fun r n' w' => n' = n /\ w' = w /\
    (seq = Z.of_nat k + 1 /\ r = Err ErrEndOfStream \/
     seq <= Z.of_nat k /\ exists rs, r = Ok rs /\ entry_at entries seq rs)) n w.
Proof.
  intros Hp [(Hok & _) (Hl & _)] Hs. rewrite <-Hp in Hl. unfold MaxUint64 in *.
  eapply (wp_reading _ _ _ _ _); [|by apply (run_Read (log s) n w _ seq Hok Hl); lia|].
  - unfold Read. case_decide; [done|]. apply reading_bind; [apply reading_call; auto with cloudy|].
    intros [[d o]|e]; [done|by case_match].
  - split_and!; [done..|]. rewrite list_lookup_fmap. destruct (decide (seq = Z.of_nat k + 1)) as [->|Hne].
    + left. split; [done|]. by rewrite lookup_take_ge by lia.
    + right. split; [lia|]. rewrite lookup_take_lt by lia.
      destruct (lookup_lt_is_Some_2 entries (Z.to_nat (seq - 1))) as [rs Hrs]; [lia|].
      unfold LRecord in *. exists rs. split; [|split; [lia|done]]. rewrite Hrs. cbn.
      destruct (Forall_lookup_1 _ _ _ _ Hfits Hrs) as [Hf Hsl]. by apply scan_segment_frames.
Qed.

(** *** Manifests *)
Lemma wp_Read_manifest b n w : valid_name b -> live_inv n w ->
  wp (Manifest.Read (ManifestKey sc b)) (fun r n' w' => n' = n /\ w' = w /\
    exists m, manifest_is ns b w m /\
      (r = Ok (m, gen_at (ManifestKey sc b) w) \/
       r = Err ErrNotFound /\ m = absentManifest /\ gen_at (ManifestKey sc b) w = "")) n w.
Proof.
  intros Hb [(Hok & _ & HM & _) _]. destruct (HM b Hb) as (m & Hm & _).
  pose proof (run_get _ _ _ _ _ Hok Hm) as Hg. fold sc in Hg.
  assert (reading (S := S) (Manifest.Read (ManifestKey sc b))) as Hrd.
  { apply reading_try; [apply reading_call; auto with cloudy|]. intros [d o]. rewrite try_lift. by destruct (Unmarshal d). }
  case_decide as Hgen; [destruct Hg as [-> Hex]|destruct Hg as (d & o & Hex & Hd & Ho)];
    (eapply (wp_reading _ _ _ _ _); [done| |]).
  - unfold Manifest.Read. rewrite run_try. cbn [run call]. by rewrite Hex.
  - split_and!; try done. eexists. split; [done|]. right. done.
  - unfold Manifest.Read. rewrite run_try. cbn [run call]. rewrite Hex, try_lift, Hd. done.
  - split_and!; try done. exists m. split; [done|]. left. cbn. by rewrite Ho.
Qed.

(** ** The flusher *)

(** What a call of the flusher leaves when [n] writes had to be left. *)
Definition live_post (n : nat) (x : res unit * streamFlusher) (n' : nat) (w' : world S) : Prop :=
  x.1 = Ok tt /\ (n <= n')%nat /\ live_inv n' w'.

Lemma wp_add_then fuel seq b ms c s n w : flush_at seq = Some (b, ms) -> live_inv (Datatypes.S n) w ->
  wp (a ← AddBranch (Datatypes.S fuel) sc b;
      match a with
      | Err e => Ret (Err e, s)
      | Ok _ => Ret (Ok tt, with_checkpoint s b c)
      end) (live_post n) (Datatypes.S n) w.
Proof.
  intros Hseq HL. apply wp_bind. eapply wp_mono; [by eapply wp_AddBranch|].
  intros r n' w' (-> & ? & ?). done.
Qed.

Lemma live_inv_weaken n w : live_inv (Datatypes.S n) w -> live_inv n w.
Proof. intros [HI HQ]. split; [by apply flush_inv_weaken|done]. Qed.

(** Reading a manifest and not finding it is reading the empty one. *)
Lemma wp_commit fuel s b seq ms ds n w : scope s = sc ->
  flush_at seq = Some (b, ms) -> Segment.encode_segment ms = Ok ds ->
  stored ns ds w -> all_flushed ns entries (seq - 1) w -> log_ge ns entries seq w ->
  live_inv (2 + n) w ->
  wp (commit_loop (Datatypes.S fuel) s b (ref_of ms ds) seq) (live_post n) (2 + n) w.
Proof.
  intros Hsc Hseq Hds Hst Hfl Hlog HL. pose proof (Hnames _ _ _ Hseq) as Hb. cbn [commit_loop]. rewrite Hsc.
  apply wp_bind. eapply wp_mono; [by apply wp_Read_manifest|]. intros r n' w' (-> & -> & m & Hm & Hr).
  assert (match r with
          | Ok mg => Ok mg
          | Err e => if errors_Is e ErrNotFound then Ok (MkManifest 0 1 [], "") else Err e
          end = Ok (m, gen_at (ManifestKey sc b) w)) as ->.
  { destruct Hr as [->|(-> & -> & ->)]; done. }
  pose proof HL as [HI HQ]. pose proof HI as (Hok & _ & HM & _).
  destruct (HM b Hb) as (m' & Hm' & Hmok). rewrite (holds_unique _ _ _ _ _ Hm' Hm) in Hmok. case_decide as Hc.
  { eapply wp_mono; [by eapply wp_add_then|]. intros x n' w' (? & ? & ?). split_and!; [done|lia|done]. }
  destruct (manifest_next ns entries base seq b ms ds m w) as [Hsegs _]; try done; [lia|].
  destruct (proj1 (proj2 Henc) seq b ms Hseq) as [d Hd]; [destruct Hmok; lia|].
  pose proof HQ as (_ & _ & HV). rewrite <-Hsegs, <-(HV b m Hb Hm) in Hd.
  destruct (swap_done (ManifestKey sc b) absentManifest (Datatypes.S n) w _ d Hok Hd) as (g & w' & Hex & Hp).
  unfold Manifest.Write. apply wp_bind. rewrite try_lift, Hd. cbn [wp call cost].
  change (if decide (gen_at (ManifestKey sc b) w = "") then IfAbsent else IfGeneration (gen_at (ManifestKey sc b) w))
    with (swap_cond (gen_at (ManifestKey sc b) w)).
  rewrite Hex. split; [lia|]. cbn. apply (wp_add_then _ seq _ ms); [done|].
  split; [|by apply (quiet_manifest b _ d g (Datatypes.S n) w w' Hb Hd (HV b m Hb Hm))].
  destruct (put_manifest ns entries base Hns Hnames seq b ms ds m (SchemaVersion m) d g (Datatypes.S n) w w')
    as [? _]; try done; [lia|by apply codec_roundtrip].
Qed.

Lemma wp_flushBranch fuel s b seq ms n w : scope s = sc -> flush_at seq = Some (b, ms) ->
  all_flushed ns entries (seq - 1) w -> log_ge ns entries seq w -> live_inv (3 + n) w ->
  wp (flushBranch (Datatypes.S fuel) s b ms seq) (live_post n) (3 + n) w.
Proof.
  intros Hsc Hseq Hfl Hlog HL. unfold flushBranch. case_decide; [cbn; split_and!; [done|lia|done]|].
  destruct (proj1 Henc seq b ms Hseq) as [ds Hds]. rewrite Hds. rewrite Hsc.
  assert (segment_of entries seq b ds) as Hsg by (by exists ms).
  pose proof HL as [HI HQ]. pose proof HI as (Hok & _ & _ & HD & _).
  apply wp_bind. cbn [wp call cost]. split; [lia|]. replace (3 + n - 1)%nat with (2 + n)%nat by lia.
  change IfAbsent with (swap_cond ""). destruct (exec _ w) as [x w'] eqn:Hex.
  destruct (put_exec (2 + n) (SegmentKey sc (segment_id ds)) "" ds w x w' Hok (Hsize _ _ _ Hsg) ltac:(by left) Hex)
    as [[-> ->]|(g & -> & Hat & Hp)].
  - cbn. apply wp_commit; try done; [|by apply live_inv_weaken].
    destruct (view (store w) !! SegmentKey sc (segment_id ds)) as [e|] eqn:E.
    { exists e. split; [done|]. by eapply HD. }
    exfalso. unfold swap_cond in Hex. rewrite decide_True in Hex by done. cbn [exec] in Hex.
    destruct (put_accepted (2 + n) (store w) (SegmentKey sc (segment_id ds)) ds IfAbsent Hok key_ne (Hsize _ _ _ Hsg))
      as (? & ? & E' & _); [by left|]. by rewrite E' in Hex.
  - assert (view (store w) !! SegmentKey sc (segment_id ds) = None) as Hnone.
    { destruct Hat as [[_ ?]|(e & He & Hg)]; [done|].
      exfalso. by apply (issued_valid _ _ _ Hok (view_issued _ _ _ _ Hok He)). }
    destruct (put_segment ns entries base Hns Hnames Hcoll seq b ds g (2 + n) w w') as (HI' & HR & Hst); try done.
    cbn. apply wp_commit; try done; [by eapply all_flushed_stable|by apply HR|].
    split; [done|by eapply quiet_segment].
Qed.

Lemma wp_process fuel s seq recs n w : scope s = sc -> entry_at entries seq recs ->
  all_flushed ns entries (seq - 1) w -> log_ge ns entries seq w -> live_inv (3 + n) w ->
  wp (processRecords (Datatypes.S fuel) s seq recs) (live_post n) (3 + n) w.
Proof.
  intros Hsc Hent Hfl Hlog HL. unfold processRecords.
  destruct (Forall_lookup_1 _ _ _ _ Hflushable (proj2 Hent)) as (rs & b & Hrs & HF).
  destruct (collect_total seq recs rs b "" [] s Hrs HF ltac:(by left)) as ([branch ms] & s' & E). rewrite E.
  destruct (collect_entry entries Hwf seq recs s branch ms s' Hent E) as [[-> _]|[-> Hseq]].
  - cbn. split_and!; [done|lia|done].
  - by apply wp_flushBranch.
Qed.

(** *** Checkpoints *)
Lemma wp_init_loop s branches min n w : scope s = sc -> Forall valid_name branches -> live_inv n w ->
  wp (init_loop s branches min) (fun x n' w' => n' = n /\ w' = w /\ exists c, x.1 = Ok c) n w.
Proof.
  intros Hsc Hb HL. revert s min Hsc. induction Hb as [|b branches Hb _ IH]; intros s min Hsc; cbn [init_loop].
  { cbn. eauto. }
  rewrite Hsc. apply wp_bind. eapply wp_mono; [by apply wp_Read_manifest|].
  intros r n' w' (-> & -> & m & _ & [->|(-> & _)]); by apply IH.
Qed.

Lemma wp_initCheckpoints s n w : stream_ok ns entries s w -> live_inv n w ->
  wp (initCheckpoints s) (fun x n' w' => n' = n /\ w' = w /\ stream_ok ns entries x.2 w /\
    exists c, x.1 = Ok c /\ start_ok ns entries c w) n w.
Proof.
  intros Hs HL. pose proof HL as [HI _]. pose proof HI as (_ & Hl0 & _).
  eapply wp_mono; [eapply (wp_safe flush_inv flush_rel);
    [|by apply (safe_initCheckpoints false ns entries base)|done]|].
  - unfold initCheckpoints. pose proof Hs as (_ & Hsc & _). rewrite Hsc. apply wp_bind.
    eapply wp_mono; [by apply wp_ListBranches|]. intros r n' w' (-> & -> & bs & -> & HF).
    by apply wp_init_loop.
  - intros x n' w' ((-> & -> & c & Hc) & _ & _ & [Hs' Hst]). split_and!; try done. eauto.
Qed.

(** *** The loops *)
Abbreviation between := (between_entries ns entries (Z.of_nat k)).

(** One turn of a loop: the end of the log, or one more entry. *)
Lemma wp_turn fuel s seq n w (f : res (list LRecord) -> prog (res unit * streamFlusher))
    (g : res unit * streamFlusher -> prog (res unit * streamFlusher)) Q :
  between s seq w -> live_inv n w -> 1 <= seq <= Z.of_nat k + 1 -> 3 * (Z.of_nat k + 1 - seq) <= Z.of_nat n ->
  (forall rs, f (Ok rs) = prog_bind (processRecords (Datatypes.S fuel) s seq rs) g) ->
  (seq = Z.of_nat k + 1 -> wp (f (Err ErrEndOfStream)) Q n w) ->
  (forall s' n' w', u64 (seq + 1) = seq + 1 -> seq <= Z.of_nat k -> between s' (seq + 1) w' -> live_inv n' w' ->
     3 * (Z.of_nat k + 1 - (seq + 1)) <= Z.of_nat n' -> wp (g (Ok tt, s')) Q n' w') ->
  wp (r ← Read (log s) seq; f r) Q n w.
Proof.
  intros Hbt HL Hs Hn Hf Hend Hnext. pose proof Hbt as (Hst & (Hs0 & Hlg & Hfl) & Hlk).
  apply wp_bind. eapply wp_mono; [by apply wp_Read; [apply Hst|..]|].
  intros r n' w' (-> & -> & [[Hseq ->]|(Hseq & rs & -> & Hent)]); [by apply Hend|].
  rewrite Hf. apply wp_bind. assert (log_ge ns entries seq w) as Hls by (by eapply log_ge_le).
  replace n with (3 + (n - 3))%nat in * by lia. pose proof HL as [HI _].
  eapply wp_mono; [eapply (wp_safe flush_inv flush_rel);
    [by apply wp_process; [apply Hst|..]|by apply (safe_process false ns entries base)|done]|].
  intros [r s'] n' w' ((Hr & Hn' & HL') & _ & HR & Hs' & Hf'). cbn in Hr, Hs', Hf'. subst r.
  apply Hnext; [|done| |done|lia].
  - apply u64_small. unfold is_u64, MaxUint64 in *. lia.
  - split_and!; [done| |by apply HR]. replace (seq + 1 - 1) with seq by lia. split_and!; [lia|by apply HR|auto].
Qed.

Lemma wp_drain fuel s seq n w : between s seq w -> live_inv n w -> 1 <= seq <= Z.of_nat k + 1 ->
  3 * (Z.of_nat k + 1 - seq) <= Z.of_nat n -> Z.of_nat k + 1 - seq < Z.of_nat fuel ->
  wp (drain fuel s seq) (live_post 0) n w.
Proof.
  revert s seq n w. induction fuel as [|fuel IH]; intros s seq n w Hbt HL Hs Hn Hfuel; [lia|].
  cbn [drain]. eapply (wp_turn fuel s seq n w _ (fun '(r, s) => match r with
      | Err e => Ret (Err e, s) | Ok _ => drain fuel s (u64 (seq + 1)) end)); try done.
  - intros _. cbn. split_and!; [done|lia|done].
  - intros s' n' w' -> ? ? ? ?. apply IH; try done; lia.
Qed.

Lemma wp_follow fuel polls s seq n w : between s seq w -> live_inv n w -> 1 <= seq <= Z.of_nat k + 1 ->
  3 * (Z.of_nat k + 1 - seq) <= Z.of_nat n -> Z.of_nat k + 1 - seq + Z.of_nat polls < Z.of_nat fuel ->
  wp (follow fuel polls s seq) (live_post 0) n w.
Proof.
  revert polls s seq n w. induction fuel as [|fuel IH]; intros polls s seq n w Hbt HL Hs Hn Hfuel; [lia|].
  cbn [follow]. eapply (wp_turn fuel s seq n w _ (fun '(r, s) => match r with
      | Err e => if is_ctx_error e then shutdownFlush (Datatypes.S fuel) s seq else Ret (Err e, s)
      | Ok _ => follow fuel polls s (u64 (seq + 1)) end)); try done.
  - intros Hseq. cbn. destruct polls as [|polls]; [|apply IH; try done; lia].
    unfold shutdownFlush. rewrite decide_False by lia. apply wp_drain; try done; lia.
  - intros s' n' w' -> ? ? ? ?. apply IH; try done; lia.
Qed.

Lemma wp_Run fuel polls s n w : stream_ok ns entries s w -> live_inv n w ->
  (3 * k <= n)%nat -> (k + polls < fuel)%nat ->
  wp (Run fuel polls s) (fun x n' w' => live_post 0 x n' w' /\ all_flushed ns entries (Z.of_nat k) w') n w.
Proof.
  intros Hs HL Hn Hfuel. pose proof HL as [HI (Hl & _)]. pose proof HI as (_ & Hl0 & _).
  assert (log_ge ns entries (Z.of_nat k) w) as Hlk by (exists k; split_and!; done).
  eapply wp_mono; [eapply (wp_safe flush_inv flush_rel);
    [|by apply (safe_Run false ns entries base) with (k0 := Z.of_nat k)|done]|].
  - unfold Run. apply wp_bind. eapply wp_mono; [by apply wp_initCheckpoints|].
    intros [r s'] n' w' (-> & -> & Hs' & c & Hc & Hst). cbn in Hc, Hs'. subst r.
    pose proof Hst as (? & Hlg & _). assert (c <= Z.of_nat k).
    { destruct Hlg as (j & Hj & Hlj & ?). pose proof (f_equal length (is_log_unique _ _ _ _ Hlj Hl)) as E.
      rewrite !length_fmap, !length_take in E. unfold LRecord in *. lia. }
    rewrite u64_small by (unfold is_u64, MaxUint64 in *; lia).
    apply wp_follow; try lia; [|done]. split_and!; [done| |done]. by replace (c + 1 - 1) with c by lia.
  - intros x n' w' (Hp & _ & _ & _ & Hf). split; [done|]. apply Hf, Hp.
Qed.

End Live.

(** ** Claims *)
Section Rebase.
Context {S : Type} `{StoreLaws S} `{CodecLaws BranchManifest} `{Codec BranchCatalog} `{Codec WalRecord, CodecLaws DocumentMutation}.

(** The manifest the store holds of a branch. *)
Definition manifest_at (ns : string) (w : world S) (b : string) : BranchManifest :=
  match view (store w) !! ManifestKey (MkScope ns) b with
  | Some e => match Unmarshal (data e) with Ok m => m | Err _ => absentManifest end
  | None => absentManifest
  end.

Lemma manifest_at_is ns b (w : world S) m : manifest_is ns b w m -> manifest_at ns w b = m.
Proof.
  unfold manifest_is, holds, manifest_at. destruct (view (store w) !! _) as [e|]; [by intros ->|done].
Qed.

(** Any moment can be taken as the start. *)
Lemma flush_inv_now ns entries base n (w : world S) : flush_inv ns entries base n w ->
  flush_inv ns entries (manifest_at ns w) n w.
Proof.
  intros (Hok & Hl & HM & HD & HB). split_and!; [done|done| |done|done]. intros b Hb.
  destruct (HM b Hb) as (m & Hm & (M1 & M2 & M3 & M4 & _)). exists m. split; [done|].
  rewrite <-(manifest_at_is _ _ _ _ Hm) in *. split_and!; [lia|lia|done|done| |intros; lia].
  by rewrite refs_nil, app_nil_r.
Qed.

(** From any state of the invariant: the run on its own returns, keeps the
    invariant, leaves the log as it is and flushes all of it. *)
Lemma run_flusher ns entries base bc k fuel polls counter n (w : world S) `{!CodecLaws BranchCatalog} :
  valid_name ns -> good_log entries -> Forall flushable entries -> flush_inv ns entries base n w ->
  (k <= length entries)%nat -> is_log (WALPrefix (MkScope ns)) (view (store w)) (frames <$> take k entries) ->
  holds (branchesKey (MkScope ns)) (MkBranches ∅) w bc -> encodable entries (manifest_at ns w) bc ->
  (3 * k <= n)%nat -> (k + polls < fuel)%nat ->
  exists s n' w', run (flusher_client ns (fuel, polls, counter)) w = (Ok tt, s, w') /\
    flush_inv ns entries base n' w' /\ flush_rel ns entries w w' /\
    is_log (WALPrefix (MkScope ns)) (view (store w')) (frames <$> take k entries) /\
    all_flushed ns entries (Z.of_nat k) w'.
Proof.
  intros Hns (L1 & L2 & L3 & L4 & L5 & L6) Hfl HI Hk Hlog Hbc Henc Hn Hfuel.
  set (s0 := MkStream (MkLog (WALPrefix (MkScope ns)) counter) (MkScope ns) ∅).
  assert (stream_ok ns entries s0 w) as Hs0 by (split_and!; done).
  assert (live_inv ns entries (manifest_at ns w) k bc n w) as HL.
  { split; [by eapply flush_inv_now|]. split_and!; [done| |].
    - exists bc. split; [done|]. split; [done|auto].
    - intros b m _ Hm. by rewrite (manifest_at_is _ _ _ _ Hm). }
  pose proof HI as (_ & Hl0 & _).
  pose proof (wp_Run ns entries (manifest_at ns w) k bc Hns L1 Hk L2 L3 Hfl L4 L5 L6 Henc fuel polls s0 n w Hs0 HL Hn Hfuel) as Hwp.
  eapply (wp_safe (flush_inv ns entries base) (flush_rel ns entries)) in Hwp;
    [|by apply (safe_Run false ns entries base) with (k0 := 0)|done].
  destruct (wp_run _ _ _ _ Hwp) as ([r s] & n' & w' & Hrun & ((Hr & _ & _ & Hl & _) & Hf) & HI' & HR & _).
  cbn in Hr. subst r. exists s, n', w'. by split_and!.
Qed.

End Rebase.

(** C4. Flushing recovers: flushers of a namespace run at the same time, with
    writers appending to the log and other namespaces in use, over failing calls, and are all stopped at
    any moment, whatever they have left half done.  A flusher that then runs
    undisturbed returns without error, and every entry that is in the log is
    flushed: its branch's manifest lists its segment, the segment object has
    the bytes of its mutations, and the manifest still lists exactly the
    segments of the branch's entries up to its checkpoint, each once.  (What
    has to be written must be encodable, and the branch list readable.) *)
Theorem flush_recovers {S} `{StoreLaws S} `{CodecLaws BranchCatalog, CodecLaws BranchManifest}
    `{Codec WalRecord, CodecLaws DocumentMutation} (faulty : bool)
    ns entries base clients n (w : world S) ts n' w' bc fuel polls counter :
  valid_name ns -> good_log entries -> Forall flushable entries -> flush_start ns entries base n w ->
  rtc (estep faulty (others ns entries)) (flusher_client ns <$> clients, (n, w)) (ts, (n', w')) ->
  holds (branchesKey (MkScope ns)) (MkBranches ∅) w' bc -> encodable entries (manifest_at ns w') bc ->
  (3 * length entries <= n')%nat -> (length entries + polls < fuel)%nat ->
  exists s w'', run (flusher_client ns (fuel, polls, counter)) w' = (Ok tt, s, w'') /\
    forall i b ms, log_ge ns entries i w' -> flush_at entries i = Some (b, ms) -> CheckpointSeq (base b) < i ->
      exists m d e, manifest_is ns b w'' m /\ i <= CheckpointSeq m /\
        Segments m = Segments (base b) ++ refs entries b (CheckpointSeq (base b)) (CheckpointSeq m) /\
        Segment.encode_segment ms = Ok d /\ ref_of ms d ∈ Segments m /\
        view (store w'') !! SegmentKey (MkScope ns) (segment_id d) = Some e /\ data e = d.
Proof.
  intros Hns Hgood Hfl Hst Hsteps Hbc Henc Hn Hfuel. assert (log_ge ns entries 0 w) as Hl0 by apply Hst.
  destruct (flushers_steps _ _ _ _ _ _ _ _ _ _ _ Hns Hgood Hst Hl0 Hsteps) as (HI & _ & _).
  pose proof HI as (_ & (k & Hk & Hlog & _) & _).
  destruct (run_flusher ns entries base bc k fuel polls counter n' w')
    as (s & n2 & w2 & Hrun & (_ & _ & HM & _) & _ & _ & Hall); try done; [lia..|].
  exists s, w2. split; [done|]. intros i b ms (j & Hj & Hlj & Hi) E Hlt.
  assert (valid_name b) as Hb by (by eapply Hgood).
  assert (j = k) as ->.
  { pose proof (f_equal length (is_log_unique _ _ _ _ Hlj Hlog)) as El.
    rewrite !length_fmap, !length_take in El. unfold LRecord in *. lia. }
  destruct (HM b Hb) as (m & Hm & (_ & _ & _ & _ & M5 & M6)).
  pose proof (ckpt_ge_is _ _ _ _ _ Hm (Hall b i ms Hi E)) as Hc.
  destruct (M6 i ms ltac:(lia) E) as (d & Hd & e & He & Hde). exists m, d, e. split_and!; try done.
  rewrite M5. apply elem_of_app. right. by eapply elem_of_refs.
Qed.

(** ** Witness: a flusher is stopped after it has uploaded the segment *)
#[local] Existing Instances ex_branches_codec ex_branches_laws ex_manifest_codec ex_manifest_laws ex_wal_codec ex_mut_codec ex_mut_laws.

Definition ex_stopped : option (list (prog (res unit * streamFlusher)) * (nat * world Mem.memStore)) :=
  interleave [0; 0; 0; 0]%nat (flusher_client "docs" <$> [(3, 0, 0)]%nat) 49 ex_flush_w1.

Lemma ex_stopped_at : match ex_stopped with
  | Some (ts, (n', w')) => n' = 48%nat /\ results ts = [None] /\
      view (store w') !! branchesKey (MkScope "docs") = None /\
      view (store w') !! ManifestKey (MkScope "docs") "main" = None /\
      bool_decide (is_Some (view (store w') !! segmentKey "ns/docs/wal" 1)) = true
  | None => False
  end.
Proof. vm_compute. repeat split; reflexivity. Qed.

Lemma ex_logged w : log_ge "docs" ex_entries 0 w ->
  bool_decide (is_Some (view (store w : Mem.memStore) !! segmentKey "ns/docs/wal" 1)) = true ->
  log_ge "docs" ex_entries 1 w.
Proof.
  intros (k & Hk & Hl & _) Hs%bool_decide_eq_true. exists k. split_and!; [done..|].
  pose proof (proj1 (is_log_exists _ _ _ 1 Hl ltac:(lia)) Hs) as Hk1.
  rewrite length_fmap, length_take in Hk1. unfold LRecord in *. lia.
Qed.

Lemma ex_flushable : Forall flushable ex_entries.
Proof.
  forall_list. exists [WalMutation ex_mut], "main". split; [vm_compute; reflexivity|].
  replace (muts_of [WalMutation ex_mut]) with [ex_mut] by (vm_compute; reflexivity). by forall_list.
Qed.

Lemma ex_branch_lists bc : branches_from ex_entries (MkBranches ∅) bc ->
  bc = MkBranches ∅ \/ bc = MkBranches {[ "main" := tt ]}.
Proof.
  intros [_ Hb]. destruct bc as [m]. cbn in Hb. assert (forall b, is_Some (m !! b) -> b = "main") as Hm.
  { intros b Hb'. destruct (Hb b Hb') as [[? ?]|(i & ms & (_ & -> & _)%ex_flush_at)]; done. }
  destruct (m !! "main") as [[]|] eqn:E; [right|left]; f_equal; apply map_eq; intros b.
  - destruct (decide (b = "main")) as [->|Hne]; [by rewrite E, lookup_singleton_eq|].
    rewrite lookup_singleton_ne by done. apply eq_None_not_Some. by intros ?%Hm.
  - rewrite lookup_empty. apply eq_None_not_Some. intros Hs. rewrite (Hm b Hs) in Hs. rewrite E in Hs. by destruct Hs.
Qed.

Lemma ex_encodable base : base "main" = absentManifest -> encodable ex_entries base (MkBranches ∅).
Proof.
  intros Hbase. split_and!.
  - intros i b ms (_ & _ & ->)%ex_flush_at. eexists. vm_compute. reflexivity.
  - intros i b ms (-> & -> & _)%ex_flush_at _. rewrite Hbase. eexists. vm_compute. reflexivity.
  - intros bc [->| ->]%ex_branch_lists; eexists; vm_compute; reflexivity.
Qed.

Lemma flush_recovers_witness : exists ts n' w' s w'' m d e,
  rtc (estep false (others "docs" ex_entries))
    (flusher_client "docs" <$> [(3, 0, 0)]%nat, (50%nat, MkWorld Mem.newMemStore ∅)) (ts, (n', w')) /\
  results ts = [None] /\ view (store w') !! ManifestKey (MkScope "docs") "main" = None /\
  run (flusher_client "docs" (2, 0, 1)%nat) w' = (Ok tt, s, w'') /\
  manifest_is "docs" "main" w'' m /\ ref_of [ex_mut] d ∈ Segments m /\
  view (store w'') !! SegmentKey (MkScope "docs") (segment_id d) = Some e /\ data e = d.
Proof.
  pose proof ex_stopped_at as Hs. destruct ex_stopped as [[ts [n' w']]|] eqn:E; [|destruct Hs].
  destruct Hs as (-> & Hres & Hb & Hm & Hseg).
  assert (rtc (estep false (others "docs" ex_entries))
    (flusher_client "docs" <$> [(3, 0, 0)]%nat, (50%nat, MkWorld Mem.newMemStore ∅)) (ts, (48%nat, w'))) as Hst.
  { eapply rtc_l; [apply EEnv, OtherAppend, ex_flush_appends|]. by eapply interleave_esteps. }
  destruct (flush_recovers false "docs" ex_entries (fun _ => absentManifest) [(3, 0, 0)]%nat 50
    (MkWorld Mem.newMemStore ∅) ts 48 w' (MkBranches ∅) 2 0 1) as (s & w'' & Hrun & Hall).
  - reflexivity.
  - exact ex_good_log.
  - exact ex_flushable.
  - exact (ex_flush_start "docs").
  - exact Hst.
  - unfold holds. by rewrite Hb.
  - apply ex_encodable. unfold manifest_at. by rewrite Hm.
  - cbn. lia.
  - cbn. lia.
  - destruct (Hall 1 "main" [ex_mut]) as (m & d & e & Hmi & _ & _ & _ & Hr & He & Hd).
    + apply ex_logged; [|exact Hseg].
      by destruct (flushers_steps false "docs" _ _ _ 0 _ _ _ _ _ eq_refl ex_good_log (ex_flush_start "docs")
        (proj1 (proj2 (ex_flush_start "docs"))) Hst) as ((_ & ? & _) & _).
    + vm_compute. reflexivity.
    + reflexivity.
    + exists ts, 48%nat, w', s, w'', m, d, e. by split_and!.
Defined.
