(* ===== verification/Vector.v ===== *)
(** * vector: distances, half precision, kernels

    src/vector/format.go, distance.go, distance_pure.go and variant.go.  The
    machine's own kernels are the arguments of the definitions that choose
    between kernels; Simd.v has those of distance_simd.go and
    distance_amd64.go.  Floating
    point is evaluated operation by operation, as the amd64 compiler does
    (Go lets a compiler fuse [x*y + z] on other machines). *)

From S2P Require Import Prelude Float32.
From Stdlib Require Import Floats.SpecFloat.
Local Open Scope Z_scope.

(** ** math.Float32bits, math.Float32frombits *)
Definition sign_bit (s : bool) : Z := if s then Z.shiftl 1 31 else 0.

Definition Float32bits (x : float32) : Z :=
  match x with
  | S754_zero s => sign_bit s
  | S754_infinity s => Z.lor (sign_bit s) 0x7F800000
  | S754_nan => 0x7FC00000
  | S754_finite s m e =>
    Z.lor (sign_bit s)
      (if decide (Z.pos m < 2 ^ 23) then Z.pos m else Z.shiftl (e + 150) 23 + (Z.pos m - 2 ^ 23))
  end.

Definition Float32frombits (b : Z) : float32 :=
  let s := Z.testbit b 31 in
  let exp := Z.land (Z.shiftr b 23) 0xFF in
  let mant := Z.land b 0x7FFFFF in
  if decide (exp = 255) then (if decide (mant = 0) then S754_infinity s else S754_nan)
  else if decide (exp = 0) then
    match mant with Z.pos m => S754_finite s m (-149) | _ => S754_zero s end
  else match mant + 2 ^ 23 with Z.pos m => S754_finite s m (exp - 150) | _ => S754_nan end.

(** ** format.go *)

(** The conversion on the bits [b] of the float32. *)
Definition fp16_of_bits (b : Z) : option Z :=
  let sign := Z.land (u16 (Z.shiftr b 16)) 0x8000 in
  let exp := Z.land (Z.shiftr b 23) 0xFF - 127 + 15 in
  let mant := Z.land b 0x7FFFFF in
  if decide (31 <= exp) then None
  else if decide (exp < -10) then Some sign
  else if decide (exp <= 0) then
    let mant := Z.lor mant 0x800000 in
    let shift := 14 - exp in
    let half := Z.shiftr mant shift in
    let rem := Z.land mant (Z.shiftl 1 shift - 1) in
    let mid := Z.shiftl 1 (shift - 1) in
    let half := if bool_decide (mid < rem) || (bool_decide (rem = mid) && bool_decide (Z.land half 1 = 1))
                then half + 1 else half in
    Some (Z.lor sign (u16 half))
  else
    let half := Z.lor (Z.shiftl exp 10) (Z.shiftr mant 13) in
    let rem := Z.land mant 0x1FFF in
    let half := if bool_decide (0x1000 < rem) || (bool_decide (rem = 0x1000) && bool_decide (Z.land half 1 = 1))
                then half + 1 else half in
    if decide (0x7C00 <= half) then None else Some (Z.lor sign (u16 half)).

Definition fp16FromFloat32 (x : float32) : option Z := fp16_of_bits (Float32bits x).

(** [float32(mant) * (1.0 / 16777216.0)], [-f] *)
Definition fneg (x : float32) : float32 := SFopp x.
Definition fp16ToFloat32 (h : Z) : float32 :=
  let sign := Z.shiftl (Z.land h 0x8000) 16 in
  let exp := Z.land (Z.shiftr h 10) 0x1F in
  let mant := Z.land h 0x3FF in
  if decide (exp = 0) then
    let f := fmul (binary_normalize prec emax mant 0 false) (binary_normalize prec emax 1 (-24) false) in
    if decide (sign <> 0) then fneg f else f
  else if decide (exp = 31) then Float32frombits (Z.lor (Z.lor sign 0x7F800000) (Z.shiftl mant 13))
  else Float32frombits (Z.lor (Z.lor sign (Z.shiftl (exp + 112) 23)) (Z.shiftl mant 13)).

(** [dst] is [cap] long; the values written to it. *)
Fixpoint encode_loop (src : list float32) : res (list Z) :=
  match src with
  | [] => Ok []
  | x :: src =>
    match x with
    | S754_nan | S754_infinity _ => Err (Msg "vector: non-finite float32 value")
    | _ => match fp16FromFloat32 x with
           | None => Err ErrFloat16Overflow
           | Some h => hs ← encode_loop src; Ok (h :: hs)
           end
    end
  end.

Lemma encode_loop_length src hs : encode_loop src = Ok hs -> length hs = length src.
Proof.
  revert hs. induction src as [|x src IH]; intros hs; cbn [encode_loop]; [by intros [= <-]|].
  intros E. assert (exists h rest, encode_loop src = Ok rest /\ hs = h :: rest) as (h & rest & Hr & ->).
  { destruct x; try discriminate; destruct (fp16FromFloat32 _); try discriminate;
      destruct (encode_loop src); cbn in E; try discriminate; injection E as <-; eauto. }
  cbn. by rewrite (IH rest Hr).
Qed.

Definition EncodeFP16 (cap : nat) (src : list float32) : res (list Z) :=
  if decide (cap < length src)%nat then Err ErrVectorDimension else encode_loop src.

(** ** distance_pure.go

    The callers pass slices of equal length. *)
Fixpoint l2_loop (a b : list float32) (sum : float32) : float32 :=
  match a, b with
  | x :: a, y :: b => let diff := fsub x y in l2_loop a b (fadd sum (fmul diff diff))
  | _, _ => sum
  end.
Definition l2SquaredPure (a b : list float32) : float32 := l2_loop a b fzero.

Fixpoint dot_loop (a b : list float32) (sum : float32) : float32 :=
  match a, b with
  | x :: a, y :: b => dot_loop a b (fadd sum (fmul x y))
  | _, _ => sum
  end.
Definition dotProductPure (a b : list float32) : float32 := dot_loop a b fzero.

Definition clamp (sim : float32) : float32 :=
  if flt fone sim then fone else if flt sim (fneg fone) then fneg fone else sim.

Definition cosinePure (a b : list float32) : res float32 :=
  let dot := dot_loop a b fzero in
  let sumA := dot_loop a a fzero in
  let sumB := dot_loop b b fzero in
  if feq sumA fzero || feq sumB fzero then Err ErrZeroVector else
  let denom := to_float32 (fmul64 (fsqrt64 (to_float64 sumA)) (fsqrt64 (to_float64 sumB))) in
  let sim := fdiv dot denom in
  Ok (fsub fone (clamp sim)).

Definition normalizeInPlacePure (v : list float32) : res (list float32) :=
  let sum := dot_loop v v fzero in
  if feq sum fzero then Err ErrZeroVector else
  let norm := to_float32 (fsqrt64 (to_float64 sum)) in
  let invNorm := fdiv fone norm in
  Ok ((fun x => fmul x invNorm) <$> v).

(** ** variant.go *)
Record HalfKernels := MkHalf {
  Dot16 : list float32 -> list Z -> float32;
  L216 : list float32 -> list Z -> float32;
  Decode16 : list Z -> list float32;
}.
(** The three half-precision functions are set together or all nil. *)
Record Kernels := MkKernels {
  Name : string;
  Dot : list float32 -> list float32 -> float32;
  L2 : list float32 -> list float32 -> float32;
  Half : option HalfKernels;
}.

Definition Variant : Type := Z.
Definition Pure : Variant := 0.
Definition SIMD : Variant := 1.
Definition FP16 : Variant := 2.
Definition variantNames : list string := ["pure"; "simd"; "fp16"].

Definition Variants : list Variant := Z.of_nat <$> seq 0 (length variantNames).

Definition Variant_String (v : Variant) : string :=
  if decide (v < 0) then "variant(" +:+ pretty v +:+ ")" else
  match variantNames !! Z.to_nat v with
  | Some s => s
  | None => "variant(" +:+ pretty v +:+ ")"
  end.

Fixpoint find_variant (i : Z) (names : list string) (s : string) : res Variant :=
  match names with
  | [] => Err (Msg "vector: unknown variant")
  | name :: names => if decide (name = s) then Ok i else find_variant (i + 1) names s
  end.
Definition ParseVariant (s : string) : res Variant := find_variant 0 variantNames s.

Section Kernels.
(** The machine's SIMD kernels. *)
Context (hasAVX512 : bool) (simdKernels fp16Kernels : Kernels).

Definition pureKernels : Kernels := MkKernels "pure" dotProductPure l2SquaredPure None.

Definition Variant_Kernels (v : Variant) : res Kernels :=
  if decide (v = Pure) then Ok pureKernels
  else if decide (v = SIMD) then Ok simdKernels
  else if decide (v = FP16) then
    if negb hasAVX512 then Err (Msg "vector: variant requires AVX-512") else Ok fp16Kernels
  else Err (Msg "vector: unknown variant").

End Kernels.

(** ** distance.go, over the machine's kernels *)
Section Distance.
Context (cosine : list float32 -> list float32 -> res float32).
Context (l2Squared dotProduct : list float32 -> list float32 -> float32).
Context (normalizeInPlace : list float32 -> res (list float32)).

Definition Cosine (a b : list float32) : res float32 :=
  if decide (length a <> length b) then Err ErrVectorDimension else cosine a b.
Definition L2Squared (a b : list float32) : res float32 :=
  if decide (length a <> length b) then Err ErrVectorDimension else Ok (l2Squared a b).
Definition DotProduct (a b : list float32) : res float32 :=
  if decide (length a <> length b) then Err ErrVectorDimension else Ok (dotProduct a b).
Definition NormalizeInPlace (v : list float32) : res (list float32) := normalizeInPlace v.
Definition Normalize (v : list float32) : res (list float32) := NormalizeInPlace v.

End Distance.

(** ** Half precision is faithful *)
Definition finite_half (h : Z) : Prop := 0 <= h < 2 ^ 16 /\ Z.land (Z.shiftr h 10) 0x1F <> 31.

Definition half_check (h : Z) : bool :=
  bool_decide (Z.land (Z.shiftr h 10) 0x1F = 31) ||
  match fp16ToFloat32 h with
  | S754_nan | S754_infinity _ => false
  | x => bool_decide (fp16FromFloat32 x = Some h)
  end.

Fixpoint check_from (f : Z -> bool) (n : nat) (z : Z) : bool :=
  match n with O => true | S n => f z && check_from f n (z + 1) end.

Lemma check_from_ok f n z h : check_from f n z = true -> z <= h < z + Z.of_nat n -> f h = true.
Proof.
  revert z. induction n as [|n IH]; intros z Hc Hh; [lia|]. cbn in Hc.
  apply andb_true_iff in Hc as [Hz Hc]. destruct (decide (h = z)) as [->|]; [done|].
  apply (IH _ Hc). lia.
Qed.

Lemma half_check_all : check_from half_check (Z.to_nat (2 ^ 16)) 0 = true.
Proof. vm_compute. reflexivity. Qed.

Lemma half_check_ok h : finite_half h -> encode_loop [fp16ToFloat32 h] = Ok [h].
Proof.
  intros [Hr He]. pose proof (check_from_ok _ _ _ h half_check_all) as Ha.
  rewrite Z2Nat.id in Ha by lia. specialize (Ha ltac:(lia)).
  unfold half_check in Ha. rewrite bool_decide_eq_false_2 in Ha by done.
  cbn [encode_loop]. destruct (fp16ToFloat32 h); cbn in Ha; try discriminate;
    apply bool_decide_eq_true in Ha; by rewrite Ha.
Qed.

(** C34. Half precision loses nothing once converted: every finite half
    (65536 bit patterns less the infinities and NaNs) decoded to float32 is
    finite and encodes back to the same bits, so reading a vector stored in
    16 bits and writing it again leaves it unchanged. *)
Theorem fp16_roundtrip hs : Forall finite_half hs ->
  EncodeFP16 (length hs) (fp16ToFloat32 <$> hs) = Ok hs.
Proof.
  intros Hh. unfold EncodeFP16. rewrite length_fmap, decide_False by lia.
  induction Hh as [|h hs Hh _ IH]; [done|]. rewrite fmap_cons. apply half_check_ok in Hh.
  cbn [encode_loop] in *. destruct (fp16ToFloat32 h); try discriminate;
    destruct (fp16FromFloat32 _); try discriminate; cbn in *; rewrite IH; cbn; congruence.
Qed.

(** Variant names: [ParseVariant] inverts [String] on every variant, and
    accepts nothing but the names of variants. *)
Theorem variant_roundtrip v s :
  (v ∈ Variants -> ParseVariant (Variant_String v) = Ok v) /\
  (ParseVariant s = Ok v <-> v ∈ Variants /\ Variant_String v = s).
Proof.
  assert (v ∈ Variants <-> v = 0 \/ v = 1 \/ v = 2) as ->.
  { change Variants with [0; 1; 2]. rewrite !elem_of_cons, elem_of_nil. naive_solver. }
  split; [by intros [->|[->| ->]]|]. unfold ParseVariant, find_variant, variantNames.
  split.
  - repeat case_decide; intros [= <-]; subst; eauto.
  - intros [[->|[->| ->]] <-]; reflexivity.
Qed.

Lemma fp16_roundtrip_witness : EncodeFP16 2 (fp16ToFloat32 <$> [0x3C00; 0x8001]) = Ok [0x3C00; 0x8001].
Proof.
  apply (fp16_roundtrip [0x3C00; 0x8001]). forall_list; split; done.
Defined.
