(* ===== verification/Simd.v ===== *)
(** * vector: the vector-instruction kernels

    src/vector/distance_simd.go and distance_amd64.go: the distances on
    vector registers, 16 lanes on AVX-512 and as many as the machine has in
    the portable version.  A register is the list of its lanes.  The kernels
    are written over any arithmetic ([Arith]), as the source is written over
    float32: at float32 they are the program's kernels, and over a
    commutative ring, where the order of a sum does not matter, they are
    equal to the plain loops ([simd_sums_exact]).  So the kernels multiply
    the right elements, each pair once, and on float32 differ from the plain
    loops by rounding only. *)

From S2P Require Import Prelude Float32 Vector.
From Stdlib Require Import Floats.SpecFloat Ring.

(** ** Arithmetic *)
Class Arith (F : Type) := {
  zero : F;
  add : F -> F -> F;
  sub : F -> F -> F;
  mul : F -> F -> F;
  muladd : F -> F -> F -> F;   (* x * y + z *)
}.

(** [x * y + z] rounded once. *)
Definition ffma (x y z : float32) : float32 :=
  match x, y with
  | S754_nan, _ | _, S754_nan => S754_nan
  | S754_infinity _, S754_zero _ | S754_zero _, S754_infinity _ => S754_nan
  | S754_infinity s, S754_infinity t | S754_infinity s, S754_finite t _ _ | S754_finite s _ _, S754_infinity t =>
    fadd (S754_infinity (xorb s t)) z
  | S754_zero s, S754_zero t | S754_zero s, S754_finite t _ _ | S754_finite s _ _, S754_zero t =>
    fadd (S754_zero (xorb s t)) z
  | S754_finite s m e, S754_finite t n f =>
    match z with
    | S754_nan => S754_nan
    | S754_infinity _ => z
    | S754_zero _ => binary_normalize prec emax (if xorb s t then Z.neg (m * n) else Z.pos (m * n)) (e + f) (xorb s t)
    | S754_finite u o g =>
      let e0 := Z.min (e + f) g in
      let p := (if xorb s t then Z.neg (m * n) else Z.pos (m * n)) in
      let q := (if u then Z.neg o else Z.pos o) in
      binary_normalize prec emax (p * 2 ^ (e + f - e0) + q * 2 ^ (g - e0))%Z e0 false
    end
  end.

#[export] Instance float32_arith : Arith float32 := {|
  zero := fzero; add := fadd; sub := fsub; mul := fmul; muladd := ffma;
|}.

Section Registers.
Context {F : Type} `{Arith F}.

(** ** Registers *)
Definition Add (x y : list F) : list F := zip_with add x y.
Definition Sub (x y : list F) : list F := zip_with sub x y.
Definition Mul (x y : list F) : list F := zip_with mul x y.
Definition MulAdd (x y z : list F) : list F := zip_with (fun p c => muladd p.1 p.2 c) (zip x y) z.
Definition Zero (lanes : nat) : list F := replicate lanes zero.
Definition Broadcast (lanes : nat) (c : F) : list F := replicate lanes c.

(** [LoadFloat32x16(a[i:i+16])]; [LoadFloat32x16Part(a)] fills up with zeros. *)
Definition Load (lanes i : nat) (a : list F) : list F := take lanes (drop i a).
Definition LoadPart (a : list F) : list F := take 16 a ++ replicate (16 - length a) zero.

Definition GetLo (x : list F) : list F := take (length x / 2) x.
Definition GetHi (x : list F) : list F := drop (length x / 2) x.

(** [x0+x1, x2+x3, y0+y1, y2+y3] *)
Definition ConcatAddPairs (x y : list F) : list F :=
  match x, y with
  | [x0; x1; x2; x3], [y0; y1; y2; y3] => [add x0 x1; add x2 x3; add y0 y1; add y2 y3]
  | _, _ => []
  end.

Definition sumLanes (v : list F) : list F :=
  let h := Add (GetLo v) (GetHi v) in Add (GetLo h) (GetHi h).

(** ** AVX-512 *)

(** [for len(a) >= w && len(b) >= w { body; a, b = a[w:], b[w:] }]; the
    length of [a] bounds the rounds. *)
Fixpoint blocks {A : Type} (fuel w : nat) (body : list F -> list F -> A -> A) (a b : list F) (s : A)
  : list F * list F * A :=
  if decide (w <= length a /\ w <= length b) then
    match fuel with
    | O => (a, b, s)
    | S fuel => blocks fuel w body (drop w a) (drop w b) (body a b s)
    end
  else (a, b, s).

(** The accumulators [acc0 .. acc7], of which the first [n] take the first
    [n] registers of the block. *)
Definition accumulate (term : list F -> list F -> list F -> list F) (n : nat) (a b : list F)
    (accs : list (list F)) : list (list F) :=
  imap (fun j acc => if decide (j < n) then term (Load 16 (16 * j) a) (Load 16 (16 * j) b) acc else acc) accs.

Definition add_at (j : nat) (f : list F -> list F) (accs : list (list F)) : list (list F) := alter f j accs.

(** [acc0.Add(acc1).Add(acc2.Add(acc3)).Add(acc4.Add(acc5).Add(acc6.Add(acc7)))] *)
Definition reduce8 (accs : list (list F)) : list F :=
  match accs with
  | [a0; a1; a2; a3; a4; a5; a6; a7] =>
    Add (Add (Add a0 a1) (Add a2 a3)) (Add (Add a4 a5) (Add a6 a7))
  | _ => []
  end.

Definition out0 (s : list F) : F :=
  match ConcatAddPairs (ConcatAddPairs s s) s with x :: _ => x | [] => zero end.

Definition sumAVX512 (term : list F -> list F -> list F -> list F) (a b : list F) : F :=
  let b := take (length a) b in
  let fuel := length a in
  let accs := replicate 8 (Zero 16) in
  let '(a, b, accs) := blocks fuel 128 (accumulate term 8) a b accs in
  let '(a, b, accs) := blocks fuel 64 (accumulate term 4) a b accs in
  let '(a, b, accs) := blocks fuel 16 (accumulate term 1) a b accs in
  let accs := if decide (0 < length a) then add_at 1 (term (LoadPart a) (LoadPart b)) accs else accs in
  out0 (sumLanes (reduce8 accs)).

Definition l2_term (va vb acc : list F) : list F := let d := Sub va vb in MulAdd d d acc.
Definition dot_term (va vb acc : list F) : list F := MulAdd va vb acc.

Definition l2SquaredAVX512 (a b : list F) : F := sumAVX512 l2_term a b.
Definition dotProductAVX512 (a b : list F) : F := sumAVX512 dot_term a b.

(** The state of [cosineAVX512]: two accumulators of each sum. *)
Record cosAcc := MkCos { dot_ : list F; sa_ : list F; sb_ : list F }.
Definition cos_step (va vb : list F) (c : cosAcc) : cosAcc :=
  MkCos (MulAdd va vb (dot_ c)) (MulAdd va va (sa_ c)) (MulAdd vb vb (sb_ c)).

Definition cos_block64 (a b : list F) (s : cosAcc * cosAcc) : cosAcc * cosAcc :=
  let '(c0, c1) := s in
  let c0 := cos_step (Load 16 0 a) (Load 16 0 b) c0 in
  let c1 := cos_step (Load 16 16 a) (Load 16 16 b) c1 in
  let c0 := cos_step (Load 16 32 a) (Load 16 32 b) c0 in
  let c1 := cos_step (Load 16 48 a) (Load 16 48 b) c1 in
  (c0, c1).

Definition cos_block16 (a b : list F) (s : cosAcc * cosAcc) : cosAcc * cosAcc :=
  let '(c0, c1) := s in (cos_step (Load 16 0 a) (Load 16 0 b) c0, c1).

(** [dot, sumA, sumB] *)
Definition cosineSumsAVX512 (a b : list F) : F * F * F :=
  let b := take (length a) b in
  let fuel := length a in
  let c := MkCos (Zero 16) (Zero 16) (Zero 16) in
  let '(a, b, s) := blocks fuel 64 cos_block64 a b (c, c) in
  let '(a, b, (c0, c1)) := blocks fuel 16 cos_block16 a b s in
  let c1 := if decide (0 < length a) then cos_step (LoadPart a) (LoadPart b) c1 else c1 in
  let d := sumLanes (Add (dot_ c0) (dot_ c1)) in
  let sa := sumLanes (Add (sa_ c0) (sa_ c1)) in
  let sb := sumLanes (Add (sb_ c0) (sb_ c1)) in
  match ConcatAddPairs (ConcatAddPairs d sa) (ConcatAddPairs sb sb) with
  | x :: y :: z :: _ => (x, y, z)
  | _ => (zero, zero, zero)
  end.

(** [for len(v) >= 16 { Load.Mul(inv).Store; v = v[16:] }] and the rest: what
    [v] holds afterwards. *)
Fixpoint scaleAVX512 (fuel : nat) (inv : F) (v : list F) : list F :=
  let lanes := Broadcast 16 inv in
  if decide (16 <= length v) then
    match fuel with
    | O => v
    | S fuel => Mul (Load 16 0 v) lanes ++ scaleAVX512 fuel inv (drop 16 v)
    end
  else if decide (0 < length v) then take (length v) (Mul (LoadPart v) lanes)
  else v.

(** ** Any number of lanes *)
Section Portable.
Context (vl : nat).   (* simd.Float32s{}.Len() *)

Definition chunks (n : nat) : nat := n - n mod vl.

(** [for i := 0; i < chunks; i += vl] *)
Definition starts (n : nat) : list nat := (fun k => k * vl) <$> seq 0 (chunks n / vl).

(** [sum] over the lanes, then the elements past the last full register. *)
Definition sumPortable (term : list F -> list F -> list F -> list F) (tail : F -> F -> F) (a b : list F) : F :=
  let n := length a in
  let acc := foldl (fun acc i => term (Load vl i a) (Load vl i b) acc) (Zero vl) (starts n) in
  let sum := foldl add zero acc in
  foldl (fun sum p => add sum (tail p.1 p.2)) sum (zip (drop (chunks n) a) (drop (chunks n) b)).

Definition l2SquaredPortable (a b : list F) : F :=
  sumPortable l2_term (fun x y => let d := sub x y in mul d d) a b.
Definition dotProductPortable (a b : list F) : F := sumPortable dot_term mul a b.

(** The three sums of [cosinePortable], in one pass. *)
Definition cosineSumsPortable (a b : list F) : F * F * F :=
  let n := length a in
  let c := foldl (fun c i => cos_step (Load vl i a) (Load vl i b) c)
             (MkCos (Zero vl) (Zero vl) (Zero vl)) (starts n) in
  let sums := (foldl add zero (dot_ c), foldl add zero (sa_ c), foldl add zero (sb_ c)) in
  foldl (fun '(dot, sumA, sumB) p =>
      (add dot (mul p.1 p.2), add sumA (mul p.1 p.1), add sumB (mul p.2 p.2)))
    sums (zip (drop (chunks n) a) (drop (chunks n) b)).

Definition scalePortable (inv : F) (v : list F) : list F :=
  let n := length v in
  mjoin ((fun i => Mul (Load vl i v) (Broadcast vl inv)) <$> starts n) ++
  ((fun x => mul x inv) <$> drop (chunks n) v).
End Portable.
End Registers.
Arguments cosAcc F : clear implicits.


(** ** The program's kernels *)
Definition cosine_of (sums : float32 * float32 * float32) : res float32 :=
  let '(dot, sumA, sumB) := sums in
  if feq sumA fzero || feq sumB fzero then Err ErrZeroVector else
  let denom := to_float32 (fmul64 (fsqrt64 (to_float64 sumA)) (fsqrt64 (to_float64 sumB))) in
  let sim := fdiv dot denom in
  Ok (fsub fone (clamp sim)).

Definition cosineAVX512 (a b : list float32) : res float32 := cosine_of (cosineSumsAVX512 a b).
Definition cosinePortable (vl : nat) (a b : list float32) : res float32 := cosine_of (cosineSumsPortable vl a b).

Definition normalizeInPlaceAVX512 (v : list float32) : res (list float32) :=
  let sum := dotProductAVX512 v v in
  if feq sum fzero then Err ErrZeroVector else
  let norm := to_float32 (fsqrt64 (to_float64 sum)) in
  Ok (scaleAVX512 (length v) (fdiv fone norm) v).

Definition normalizeInPlacePortable (vl : nat) (v : list float32) : res (list float32) :=
  let sum := dotProductPortable vl v v in
  if feq sum fzero then Err ErrZeroVector else
  let norm := to_float32 (fsqrt64 (to_float64 sum)) in
  let invNorm := fdiv fone norm in
  Ok (scalePortable vl invNorm v).

(** distance_amd64.go chooses by the processor. *)
Section Dispatch.
Context (hasAVX512 : bool) (vl : nat).

Definition l2Squared (a b : list float32) : float32 :=
  if hasAVX512 then l2SquaredAVX512 a b else l2SquaredPortable vl a b.
Definition dotProduct (a b : list float32) : float32 :=
  if hasAVX512 then dotProductAVX512 a b else dotProductPortable vl a b.
Definition cosine (a b : list float32) : res float32 :=
  if hasAVX512 then cosineAVX512 a b else cosinePortable vl a b.
Definition normalizeInPlace (v : list float32) : res (list float32) :=
  if hasAVX512 then normalizeInPlaceAVX512 v else normalizeInPlacePortable vl v.

Definition simdKernels : Kernels :=
  if hasAVX512 then MkKernels "avx512" dotProductAVX512 l2SquaredAVX512 None
  else MkKernels "portable" (dotProductPortable vl) (l2SquaredPortable vl) None.
End Dispatch.

(** distance_simd_other.go: other processors have only the portable kernels. *)
Module Other.
Section Other.
Context (vl : nat).

Definition hasAVX512 : bool := false.
Definition l2Squared (a b : list float32) : float32 := l2SquaredPortable vl a b.
Definition dotProduct (a b : list float32) : float32 := dotProductPortable vl a b.
Definition cosine (a b : list float32) : res float32 := cosinePortable vl a b.
Definition normalizeInPlace (v : list float32) : res (list float32) := normalizeInPlacePortable vl v.
Definition simdKernels : Kernels := MkKernels "portable" (dotProductPortable vl) (l2SquaredPortable vl) None.
End Other.
End Other.

(** ** Half precision: distance_fp16_amd64.go

    The sums and the conversion of whole blocks of 16 are assembly
    (distance_fp16_amd64.s), arguments here: they get the elements of the
    blocks. *)
Section Half.
Context (dotFP16Blocks l2FP16Blocks : list float32 -> list Z -> float32) (cvtFP16Blocks : list Z -> list float32).

Definition whole (n : nat) : nat := n / 16 * 16.

Definition dotFP16AVX512 (q : list float32) (row : list Z) : float32 :=
  let row := take (length q) row in
  let n := whole (length q) in
  let sum := if decide (0 < n) then dotFP16Blocks (take n q) (take n row) else fzero in
  foldl (fun sum p => fadd sum (fmul p.1 (fp16ToFloat32 p.2))) sum (zip (drop n q) (drop n row)).

Definition l2FP16AVX512 (q : list float32) (row : list Z) : float32 :=
  let row := take (length q) row in
  let n := whole (length q) in
  let sum := if decide (0 < n) then l2FP16Blocks (take n q) (take n row) else fzero in
  foldl (fun sum p => let d := fsub p.1 (fp16ToFloat32 p.2) in fadd sum (fmul d d)) sum
    (zip (drop n q) (drop n row)).

(** What [dst] holds; [dst[len(src)-1]] panics when it is too short. *)
Definition decodeFP16AVX512 (dst : list float32) (src : list Z) : res (list float32) :=
  if decide (src = []) then Ok dst else
  if decide (length dst < length src) then Err (Panic "index out of range") else
  let n := whole (length src) in
  Ok ((if decide (0 < n) then cvtFP16Blocks (take n src) else []) ++
      (fp16ToFloat32 <$> drop n src) ++ drop (length src) dst).
End Half.

(** ** Loops and registers *)

(** The plain loop over both vectors. *)
Definition pureSum {F} `{Arith F} (f : F -> F -> F) (a b : list F) : F :=
  foldl (fun sum p => add sum (f p.1 p.2)) zero (zip a b).

Definition sqdiff {F} `{Arith F} (x y : F) : F := mul (sub x y) (sub x y).

(** At float32 the plain loops are those of distance_pure.go. *)
Lemma pureSum_dot (a b : list float32) : pureSum mul a b = dotProductPure a b.
Proof.
  unfold pureSum, dotProductPure. change zero with fzero. generalize fzero.
  revert b. induction a as [|x a IH]; intros [|y b] s; try done. apply IH.
Qed.

Lemma pureSum_l2 (a b : list float32) : pureSum sqdiff a b = l2SquaredPure a b.
Proof.
  unfold pureSum, l2SquaredPure. change zero with fzero. generalize fzero.
  revert b. induction a as [|x a IH]; intros [|y b] s; try done. apply IH.
Qed.

Section Exact.
Context {F : Type} `{Arith F} (one : F) (opp : F -> F).
Context (rt : ring_theory zero one add mul sub opp eq).
Context (muladd_exact : forall x y z, muladd x y z = add (mul x y) z).
Add Ring lanes : rt.

Fixpoint vsum (v : list F) : F := match v with [] => zero | x :: v => add x (vsum v) end.
Definition psum (f : F -> F -> F) (a b : list F) : F := vsum (zip_with f a b).

Lemma vsum_app v w : vsum (v ++ w) = add (vsum v) (vsum w).
Proof. induction v as [|x v IH]; cbn; [ring|]. rewrite IH. ring. Qed.

Lemma vsum_zero n : vsum (replicate n zero) = zero.
Proof. induction n as [|n IH]; cbn; [done|]. rewrite IH. ring. Qed.

Lemma vsum_split n v : add (vsum (take n v)) (vsum (drop n v)) = vsum v.
Proof. by rewrite <-vsum_app, take_drop. Qed.

Lemma vsum_foldl v s : foldl add s v = add s (vsum v).
Proof. revert s. induction v as [|x v IH]; intros s; cbn; [ring|]. rewrite IH. ring. Qed.

Lemma psum_split f n a b : psum f a b = add (psum f (take n a) (take n b)) (psum f (drop n a) (drop n b)).
Proof. unfold psum. by rewrite <-zip_with_take, <-zip_with_drop, vsum_split. Qed.

Lemma pureSum_psum f a b : pureSum f a b = psum f a b.
Proof.
  unfold pureSum, psum. assert (forall s, foldl (fun sum p => add sum (f p.1 p.2)) s (zip a b) =
    add s (vsum (zip_with f a b))) as Hs; [|rewrite Hs; ring].
  revert b. induction a as [|x a IH]; intros [|y b] s; cbn; try ring. rewrite IH. ring.
Qed.

Lemma vsum_Add v w : length v = length w -> vsum (Add v w) = add (vsum v) (vsum w).
Proof.
  revert w. induction v as [|x v IH]; intros [|y w] Hl; try done; cbn; [ring|].
  injection Hl as Hl. unfold Add in IH. rewrite IH by done. ring.
Qed.

Lemma length_Add (v w : list F) : length v = length w -> length (Add v w) = length v.
Proof. intros Hl. unfold Add. rewrite length_zip_with. lia. Qed.

(** A multiply-accumulate instruction sums [f] over its lanes. *)
Definition sums (term : list F -> list F -> list F -> list F) (f : F -> F -> F) : Prop :=
  forall va vb acc, length va = length acc -> length vb = length acc ->
    length (term va vb acc) = length acc /\ vsum (term va vb acc) = add (psum f va vb) (vsum acc).

Lemma sums_dot : sums dot_term mul.
Proof.
  intros va vb acc Ha Hb. unfold dot_term, MulAdd. split; [rewrite length_zip_with, length_zip_with; lia|].
  revert vb acc Ha Hb. induction va as [|x va IH]; intros [|y vb] [|z acc] Ha Hb; try done; cbn.
  - unfold psum. cbn. ring.
  - injection Ha as Ha. injection Hb as Hb. rewrite IH, muladd_exact by done. unfold psum. cbn. ring.
Qed.

Lemma sums_l2 : sums l2_term sqdiff.
Proof.
  intros va vb acc Ha Hb. unfold l2_term.
  destruct (sums_dot (Sub va vb) (Sub va vb) acc) as [Hl Hs]; [unfold Sub; rewrite length_zip_with; lia..|].
  split; [exact Hl|]. unfold dot_term in Hs. rewrite Hs. f_equal. unfold psum, Sub. f_equal.
  clear. revert vb. induction va as [|x va IH]; intros [|y vb]; cbn; [done..|]. by rewrite IH.
Qed.

(** ** AVX-512 *)

(** [blocks] whose body adds the sums of a block to [total]. *)
Lemma blocks_sum {A} (wf : A -> Prop) (total : A -> F) f w (body : list F -> list F -> A -> A) fuel a b s :
  (0 < w)%nat -> length a = length b -> (length a <= fuel)%nat -> wf s ->
  (forall a b s, (w <= length a)%nat -> (w <= length b)%nat -> wf s ->
     wf (body a b s) /\ total (body a b s) = add (psum f (take w a) (take w b)) (total s)) ->
  exists a' b' s', blocks fuel w body a b s = (a', b', s') /\ wf s' /\ length a' = length b' /\
    (length a' < w)%nat /\ (length a' <= length a)%nat /\ add (psum f a' b') (total s') = add (psum f a b) (total s).
Proof.
  intros Hw Hl Hf Hs Hbody. revert a b s Hl Hf Hs. induction fuel as [|fuel IH]; intros a b s Hl Hf Hs; cbn [blocks].
  - rewrite decide_False by lia. exists a, b, s. split_and!; try done; lia.
  - case_decide as Hc.
    + destruct (Hbody a b s) as [Hs' Ht]; [lia..|done|].
      destruct (IH (drop w a) (drop w b) (body a b s)) as (a' & b' & s' & E & H1 & H2 & H3 & H4 & H5);
        [rewrite !length_drop; lia|rewrite length_drop; lia|done|].
      rewrite length_drop in H4. exists a', b', s'. split_and!; try done; [lia|].
      rewrite H5, Ht, (psum_split f w a b). ring.
    + exists a, b, s. split_and!; try done. lia.
Qed.

Definition wf_accs (accs : list (list F)) : Prop := length accs = 8%nat /\ Forall (fun v => length v = 16%nat) accs.
Definition total (accs : list (list F)) : F := vsum (vsum <$> accs).

Lemma accumulate_cons (term : list F -> list F -> list F -> list F) n a b acc accs :
  accumulate term (S n) a b (acc :: accs) =
  term (Load 16 0 a) (Load 16 0 b) acc :: accumulate term n (drop 16 a) (drop 16 b) accs.
Proof.
  unfold accumulate. cbn [imap]. f_equal.
  apply imap_ext. intros j acc' _. cbn [compose]. unfold Load. rewrite !drop_drop.
  replace (16 + 16 * j)%nat with (16 * S j)%nat by lia.
  destruct (decide (j < n)) as [Hj|Hj]; [by rewrite decide_True by lia|by rewrite decide_False by lia].
Qed.

Lemma accumulate_none (term : list F -> list F -> list F -> list F) a b accs : accumulate term 0 a b accs = accs.
Proof.
  unfold accumulate. apply list_eq. intros j. rewrite list_lookup_imap. by destruct (accs !! j).
Qed.

Lemma accumulate_sum term f n a b accs : sums term f -> (n <= length accs)%nat ->
  (16 * n <= length a)%nat -> (16 * n <= length b)%nat -> Forall (fun v => length v = 16%nat) accs ->
  length (accumulate term n a b accs) = length accs /\
  Forall (fun v => length v = 16%nat) (accumulate term n a b accs) /\
  total (accumulate term n a b accs) = add (psum f (take (16 * n) a) (take (16 * n) b)) (total accs).
Proof.
  intros Ht. revert a b accs. induction n as [|n IH]; intros a b accs Hn Ha Hb Hw.
  - rewrite accumulate_none. split; [done|]. split; [done|]. change (16 * 0)%nat with 0%nat.
    change (psum f (take 0 a) (take 0 b)) with zero. ring.
  - destruct accs as [|acc accs]; [cbn in Hn; lia|]. apply Forall_cons in Hw as [Hacc Hw]. rewrite accumulate_cons.
    destruct (IH (drop 16 a) (drop 16 b) accs) as (H1 & H2 & H3); [cbn in Hn; lia|rewrite length_drop; lia..|done|].
    destruct (Ht (Load 16 0 a) (Load 16 0 b) acc) as [H4 H5]; [unfold Load; rewrite length_take, length_drop; lia..|].
    split; [cbn; lia|]. split; [constructor; [lia|done]|]. unfold total in *. cbn [fmap list_fmap vsum].
    rewrite H3, H5, (psum_split f 16 (take (16 * S n) a)), !take_take, !skipn_firstn_comm.
    replace (16 `min` (16 * S n))%nat with 16%nat by lia. replace (16 * S n - 16)%nat with (16 * n)%nat by lia.
    unfold Load. rewrite !drop_0. ring.
Qed.

Lemma psum_LoadPart f a b : length a = length b -> (length a <= 16)%nat -> f zero zero = zero ->
  psum f (LoadPart a) (LoadPart b) = psum f a b.
Proof.
  intros Hl H16 Hz. unfold psum, LoadPart. rewrite !take_ge by lia. rewrite zip_with_app by done.
  rewrite vsum_app, <-Hl, zip_with_replicate, Hz, vsum_zero. ring.
Qed.

Lemma length_LoadPart a : (length a <= 16)%nat -> length (LoadPart a) = 16%nat.
Proof. intros Ha. unfold LoadPart. rewrite length_app, length_take, length_replicate. lia. Qed.

Lemma halves v n : length v = (2 * n)%nat ->
  length (GetLo v) = n /\ length (GetHi v) = n /\ add (vsum (GetLo v)) (vsum (GetHi v)) = vsum v.
Proof.
  intros Hv. unfold GetLo, GetHi. rewrite vsum_split, length_take, length_drop, Hv.
  rewrite (Nat.mul_comm 2 n), Nat.div_mul by done. split_and!; [lia..|done].
Qed.

Lemma sumLanes_spec v : length v = 16%nat -> length (sumLanes v) = 4%nat /\ vsum (sumLanes v) = vsum v.
Proof.
  intros Hv. unfold sumLanes. destruct (halves v 8 Hv) as (H1 & H2 & H3).
  set (h := Add (GetLo v) (GetHi v)). assert (length h = 8%nat) as Hh by (unfold h; rewrite length_Add; lia).
  destruct (halves h 4 Hh) as (H4 & H5 & H6). rewrite length_Add, vsum_Add by lia. split; [done|].
  rewrite H6. unfold h. by rewrite vsum_Add by lia.
Qed.

(** Four lanes. *)
Lemma four (s : list F) : length s = 4%nat -> exists x0 x1 x2 x3, s = [x0; x1; x2; x3].
Proof. destruct s as [|x0 [|x1 [|x2 [|x3 [|? ?]]]]]; try done. intros _. by exists x0, x1, x2, x3. Qed.

Lemma out0_spec s : length s = 4%nat -> out0 s = vsum s.
Proof. intros (x0 & x1 & x2 & x3 & ->)%four. cbn. ring. Qed.

Lemma reduce8_spec accs : wf_accs accs -> length (reduce8 accs) = 16%nat /\ vsum (reduce8 accs) = total accs.
Proof.
  intros [Hl Hf]. destruct accs as [|a0 [|a1 [|a2 [|a3 [|a4 [|a5 [|a6 [|a7 [|? ?]]]]]]]]]; try done.
  rewrite !Forall_cons in Hf. destruct Hf as (? & ? & ? & ? & ? & ? & ? & ? & _). cbn [reduce8].
  assert (forall v w, length v = 16%nat -> length w = 16%nat -> length (Add v w) = 16%nat) as HA
    by (intros v w Hv Hw; rewrite length_Add; lia).
  assert (forall v w, length v = 16%nat -> length w = 16%nat -> vsum (Add v w) = add (vsum v) (vsum w)) as HS
    by (intros v w Hv Hw; apply vsum_Add; lia).
  split; [auto 10|]. rewrite !HS by auto 10. unfold total. cbn. ring.
Qed.

Lemma wf_zero : wf_accs (replicate 8 (Zero 16)).
Proof. split; [done|]. by repeat constructor. Qed.

Lemma total_zero : total (replicate 8 (Zero 16)) = zero.
Proof. unfold total, Zero. cbn. ring. Qed.

Lemma add_at_spec term f a b accs : sums term f -> f zero zero = zero -> wf_accs accs ->
  length a = length b -> (length a <= 16)%nat ->
  wf_accs (add_at 1 (term (LoadPart a) (LoadPart b)) accs) /\
  total (add_at 1 (term (LoadPart a) (LoadPart b)) accs) = add (psum f a b) (total accs).
Proof.
  intros Ht Hz [Hl Hf] Hab H16. destruct accs as [|a0 [|a1 accs]]; try done.
  rewrite !Forall_cons in Hf. destruct Hf as (H0 & H1 & Hf).
  destruct (Ht (LoadPart a) (LoadPart b) a1) as [H2 H3]; [rewrite length_LoadPart; lia..|].
  unfold add_at. cbn [alter list_alter]. split.
  - split; [done|]. constructor; [done|]. constructor; [lia|done].
  - unfold total. cbn [fmap list_fmap vsum]. rewrite H3, (psum_LoadPart f) by (done || lia). ring.
Qed.

Lemma sumAVX512_exact term f a b : sums term f -> f zero zero = zero -> length a = length b ->
  sumAVX512 term a b = psum f a b.
Proof.
  intros Ht Hz Hl. unfold sumAVX512. rewrite (take_ge b) by lia.
  assert (forall n a b accs, (n <= 8)%nat -> (16 * n <= length a)%nat -> (16 * n <= length b)%nat -> wf_accs accs ->
    wf_accs (accumulate term n a b accs) /\
    total (accumulate term n a b accs) = add (psum f (take (16 * n) a) (take (16 * n) b)) (total accs)) as Hacc.
  { intros n a' b' accs Hn Ha Hb [H1 H2].
    destruct (accumulate_sum term f n a' b' accs) as (? & ? & ?); try done; [lia|]. split; [|done]. split; [lia|done]. }
  destruct (blocks_sum wf_accs total f 128 (accumulate term 8) (length a) a b (replicate 8 (Zero 16)))
    as (a1 & b1 & s1 & -> & W1 & L1 & _ & D1 & E1); [lia|done|lia|apply wf_zero|intros; by apply (Hacc 8%nat)|].
  destruct (blocks_sum wf_accs total f 64 (accumulate term 4) (length a) a1 b1 s1)
    as (a2 & b2 & s2 & -> & W2 & L2 & _ & D2 & E2); [lia|done|lia|done|intros; apply (Hacc 4%nat); try done; lia|].
  destruct (blocks_sum wf_accs total f 16 (accumulate term 1) (length a) a2 b2 s2)
    as (a3 & b3 & s3 & -> & W3 & L3 & S3 & D3 & E3); [lia|done|lia|done|intros; apply (Hacc 1%nat); try done; lia|].
  rewrite total_zero in E1.
  assert (exists accs, (if decide (0 < length a3) then add_at 1 (term (LoadPart a3) (LoadPart b3)) s3 else s3) = accs /\
    wf_accs accs /\ total accs = psum f a b) as (accs & -> & Wf & Ef).
  { eexists. split; [done|]. case_decide as Hr.
    - destruct (add_at_spec term f a3 b3 s3) as [? ->]; try done; [lia|]. split; [done|]. rewrite E3, E2, E1. ring.
    - split; [done|]. destruct a3; [|cbn in Hr; lia]. change (psum f [] b3) with zero in E3.
      transitivity (add zero (total s3)); [ring|]. rewrite E3, E2, E1. ring. }
  destruct (reduce8_spec accs Wf) as [L Es]. destruct (sumLanes_spec _ L) as [L4 E4].
  by rewrite out0_spec, E4, Es.
Qed.

(** *** The three sums of the cosine *)
Definition wf_cos (lanes : nat) (c : cosAcc F) : Prop :=
  length (dot_ c) = lanes /\ length (sa_ c) = lanes /\ length (sb_ c) = lanes.

(** One of the sums: [p] accumulates [f]. *)
Definition traces (p : cosAcc F -> list F) (f : F -> F -> F) : Prop :=
  f zero zero = zero /\ forall lanes va vb c, length va = lanes -> length vb = lanes -> wf_cos lanes c ->
    length (p c) = lanes /\ vsum (p (cos_step va vb c)) = add (psum f va vb) (vsum (p c)).

Lemma wf_cos_step lanes va vb c : length va = lanes -> length vb = lanes -> wf_cos lanes c -> wf_cos lanes (cos_step va vb c).
Proof. intros Ha Hb (H1 & H2 & H3). unfold wf_cos, cos_step, MulAdd. cbn. rewrite !length_zip_with. lia. Qed.

Lemma psum_left a b : length a = length b -> psum (fun x _ => mul x x) a b = psum mul a a.
Proof.
  unfold psum. revert b. induction a as [|x a IH]; intros [|y b] Hl; try done. cbn. injection Hl as Hl. by rewrite (IH b).
Qed.

Lemma psum_right a b : length a = length b -> psum (fun _ y => mul y y) a b = psum mul b b.
Proof.
  unfold psum. revert b. induction a as [|x a IH]; intros [|y b] Hl; try done. cbn. injection Hl as Hl. by rewrite (IH b).
Qed.

Lemma traces_dot : traces dot_ mul.
Proof.
  split; [ring|]. intros lanes va vb c Ha Hb (H1 & H2 & H3). split; [done|].
  by destruct (sums_dot va vb (dot_ c)) as [_ ?]; [lia..|].
Qed.

Lemma traces_sa : traces sa_ (fun x _ => mul x x).
Proof.
  split; [ring|]. intros lanes va vb c Ha Hb (H1 & H2 & H3). split; [done|]. rewrite psum_left by lia.
  by destruct (sums_dot va va (sa_ c)) as [_ ?]; [lia..|].
Qed.

Lemma traces_sb : traces sb_ (fun _ y => mul y y).
Proof.
  split; [ring|]. intros lanes va vb c Ha Hb (H1 & H2 & H3). split; [done|]. rewrite psum_right by lia.
  by destruct (sums_dot vb vb (sb_ c)) as [_ ?]; [lia..|].
Qed.

Definition wf_pair (s : cosAcc F * cosAcc F) : Prop := wf_cos 16 s.1 /\ wf_cos 16 s.2.
Definition total_pair (p : cosAcc F -> list F) (s : cosAcc F * cosAcc F) : F := add (vsum (p s.1)) (vsum (p s.2)).

Lemma length_Load lanes i (a : list F) : (i + lanes <= length a)%nat -> length (Load lanes i a) = lanes.
Proof. intros Ha. unfold Load. rewrite length_take, length_drop. lia. Qed.

Lemma cos_block64_spec p f a b s : traces p f -> (64 <= length a)%nat -> (64 <= length b)%nat -> wf_pair s ->
  wf_pair (cos_block64 a b s) /\
  total_pair p (cos_block64 a b s) = add (psum f (take 64 a) (take 64 b)) (total_pair p s).
Proof.
  intros [_ Hp] Ha Hb [W0 W1]. destruct s as [c0 c1]. unfold cos_block64. cbn in W0, W1.
  assert (forall j, (j + 16 <= 64)%nat -> length (Load 16 j a) = 16%nat /\ length (Load 16 j b) = 16%nat) as HL
    by (intros; rewrite !length_Load; lia).
  destruct (HL 0%nat), (HL 16%nat), (HL 32%nat), (HL 48%nat); [lia..|].
  pose proof (wf_cos_step 16 (Load 16 0 a) (Load 16 0 b) c0) as W2.
  pose proof (wf_cos_step 16 (Load 16 16 a) (Load 16 16 b) c1) as W3.
  split; [split; apply wf_cos_step; auto|]. unfold total_pair. cbn [fst snd].
  rewrite !(fun va vb c H1 H2 H3 => proj2 (Hp 16%nat va vb c H1 H2 H3)) by auto.
  rewrite (psum_split f 16 (take 64 a)), (psum_split f 16 (drop 16 _)), (psum_split f 16 (drop 16 (drop 16 _))).
  rewrite !skipn_firstn_comm, !drop_drop, !take_take. cbn [Nat.min Nat.sub Nat.add]. unfold Load. rewrite !drop_0. ring.
Qed.

Lemma cos_block16_spec p f a b s : traces p f -> (16 <= length a)%nat -> (16 <= length b)%nat -> wf_pair s ->
  wf_pair (cos_block16 a b s) /\
  total_pair p (cos_block16 a b s) = add (psum f (take 16 a) (take 16 b)) (total_pair p s).
Proof.
  intros [_ Hp] Ha Hb [W0 W1]. destruct s as [c0 c1]. unfold cos_block16. cbn in W0, W1.
  assert (length (Load 16 0 a) = 16%nat /\ length (Load 16 0 b) = 16%nat) as [H1 H2] by (rewrite !length_Load; lia).
  split; [split; [by apply wf_cos_step|done]|]. unfold total_pair. cbn [fst snd].
  rewrite (proj2 (Hp 16%nat _ _ _ H1 H2 W0)). unfold Load. rewrite !drop_0. ring.
Qed.

(** The accumulators of [cosineAVX512] when its loops are done. *)
Definition cosAccsAVX512 (a b : list F) : cosAcc F * cosAcc F :=
  let c := MkCos (Zero 16) (Zero 16) (Zero 16) in
  let '(a', b', s) := blocks (length a) 64 cos_block64 a b (c, c) in
  let '(a', b', (c0, c1)) := blocks (length a) 16 cos_block16 a' b' s in
  (c0, if decide (0 < length a') then cos_step (LoadPart a') (LoadPart b') c1 else c1).

Lemma cosAccs_sum p f a b : traces p f -> p (MkCos (Zero 16) (Zero 16) (Zero 16)) = Zero 16 -> length a = length b ->
  wf_pair (cosAccsAVX512 a b) /\ total_pair p (cosAccsAVX512 a b) = psum f a b.
Proof.
  intros Hp Hz Hl. unfold cosAccsAVX512. set (c := MkCos (Zero 16) (Zero 16) (Zero 16)) in *.
  assert (wf_pair (c, c)) as W0 by (repeat split).
  assert (total_pair p (c, c) = zero) as T0.
  { unfold total_pair. cbn [fst snd]. rewrite Hz. unfold Zero. rewrite !vsum_zero. ring. }
  destruct (blocks_sum wf_pair (total_pair p) f 64 cos_block64 (length a) a b (c, c))
    as (a1 & b1 & s1 & -> & W1 & L1 & _ & D1 & E1); [lia|done|lia|done|intros; by apply cos_block64_spec|].
  destruct (blocks_sum wf_pair (total_pair p) f 16 cos_block16 (length a) a1 b1 s1)
    as (a2 & b2 & [c0 c1] & -> & [W2 W3] & L2 & S2 & D2 & E2); [lia|done|lia|done|intros; by apply cos_block16_spec|].
  rewrite T0 in E1. cbn in W2, W3. destruct Hp as [Hfz Hp]. case_decide as Hr.
  - assert (length (LoadPart a2) = 16%nat /\ length (LoadPart b2) = 16%nat) as [H1 H2] by (rewrite !length_LoadPart; lia).
    split; [split; [done|by apply wf_cos_step]|]. unfold total_pair in *. cbn [fst snd] in *.
    rewrite (proj2 (Hp 16%nat _ _ _ H1 H2 W3)), psum_LoadPart by (done || lia).
    transitivity (add (psum f a2 b2) (add (vsum (p c0)) (vsum (p c1)))); [ring|]. rewrite E2, E1. ring.
  - split; [done|]. destruct a2; [|cbn in Hr; lia]. change (psum f [] b2) with zero in E2.
    transitivity (add zero (total_pair p (c0, c1))); [ring|]. rewrite E2, E1. ring.
Qed.

Lemma cosineSumsAVX512_exact a b : length a = length b ->
  cosineSumsAVX512 a b = (psum mul a b, psum mul a a, psum mul b b).
Proof.
  intros Hl. destruct (cosAccs_sum dot_ mul a b traces_dot eq_refl Hl) as [[W0 W1] T1].
  destruct (cosAccs_sum sa_ _ a b traces_sa eq_refl Hl) as [_ T2].
  destruct (cosAccs_sum sb_ _ a b traces_sb eq_refl Hl) as [_ T3].
  rewrite psum_left in T2 by done. rewrite psum_right in T3 by done.
  unfold cosineSumsAVX512. rewrite (take_ge b) by lia. unfold cosAccsAVX512 in *.
  destruct (blocks (length a) 64 cos_block64 a b _) as [[a1 b1] s1].
  destruct (blocks (length a) 16 cos_block16 a1 b1 s1) as [[a2 b2] [c0 c1]].
  set (c1' := if decide (0 < length a2) then _ else c1) in *. unfold total_pair in *. cbn [fst snd] in *.
  destruct W0 as (A1 & A2 & A3), W1 as (B1 & B2 & B3).
  assert (forall v w, length v = 16%nat -> length w = 16%nat -> exists x0 x1 x2 x3, sumLanes (Add v w) = [x0; x1; x2; x3] /\
    vsum [x0; x1; x2; x3] = add (vsum v) (vsum w)) as HS.
  { intros v w Hv Hw. destruct (sumLanes_spec (Add v w)) as [L4 E4]; [rewrite length_Add; lia|].
    destruct (four _ L4) as (x0 & x1 & x2 & x3 & E). exists x0, x1, x2, x3. split; [done|].
    by rewrite <-E, E4, vsum_Add by lia. }
  destruct (HS (dot_ c0) (dot_ c1')) as (x0 & x1 & x2 & x3 & -> & Ex); [done..|].
  destruct (HS (sa_ c0) (sa_ c1')) as (y0 & y1 & y2 & y3 & -> & Ey); [done..|].
  destruct (HS (sb_ c0) (sb_ c1')) as (z0 & z1 & z2 & z3 & -> & Ez); [done..|].
  cbn [ConcatAddPairs]. rewrite <-T1, <-T2, <-T3, <-Ex, <-Ey, <-Ez. cbn. apply pair_equal_spec. split; [apply pair_equal_spec; split|]; ring.
Qed.

(** ** Any number of lanes *)
Section Lanes.
Context (vl : nat) (Hvl : (0 < vl)%nat).

Lemma chunks_eq n : chunks vl n = (n / vl * vl)%nat.
Proof. unfold chunks. pose proof (Nat.div_mod_eq n vl). lia. Qed.

Lemma starts_eq n : starts vl n = (fun k => k * vl)%nat <$> seq 0 (n / vl).
Proof. unfold starts. by rewrite chunks_eq, Nat.div_mul by lia. Qed.

Lemma starts_fit n : (n / vl * vl <= n)%nat.
Proof. rewrite Nat.mul_comm. by apply Nat.Div0.mul_div_le. Qed.

(** [k] rounds of the loop. *)
Lemma rounds_sum {A} (wf : A -> Prop) (tot : A -> F) f (body : list F -> list F -> A -> A) s a b k :
  wf s -> tot s = zero -> length a = length b -> (k * vl <= length a)%nat ->
  (forall va vb s, length va = vl -> length vb = vl -> wf s -> wf (body va vb s) /\
     tot (body va vb s) = add (psum f va vb) (tot s)) ->
  let s' := foldl (fun s i => body (Load vl i a) (Load vl i b) s) s ((fun k => k * vl)%nat <$> seq 0 k) in
  wf s' /\ tot s' = psum f (take (k * vl) a) (take (k * vl) b).
Proof.
  intros Hs Hz Hl Hk Hbody. induction k as [|k IH]; [done|]. cbn zeta in *.
  destruct IH as [Wf E]; [lia|]. rewrite seq_S, fmap_app, foldl_app. cbn [foldl fmap list_fmap Nat.add].
  destruct (Hbody (Load vl (k * vl) a) (Load vl (k * vl) b) _ (length_Load vl (k * vl) a ltac:(lia))
    (length_Load vl (k * vl) b ltac:(lia)) Wf) as [Wf' E']. split; [done|]. rewrite E', E.
  rewrite (psum_split f (k * vl) (take (S k * vl) a)), !take_take, !skipn_firstn_comm.
  replace ((k * vl) `min` (S k * vl))%nat with (k * vl)%nat by lia.
  replace (S k * vl - k * vl)%nat with vl by lia. unfold Load. ring.
Qed.

Lemma sumPortable_exact term f a b : sums term f -> length a = length b ->
  sumPortable vl term f a b = psum f a b.
Proof.
  intros Ht Hl. unfold sumPortable. rewrite starts_eq, chunks_eq. set (k := (length a / vl)%nat).
  assert (k * vl <= length a)%nat as Hk by apply starts_fit.
  destruct (rounds_sum (fun v => length v = vl) vsum f term (Zero vl) a b k) as [_ E]; try done.
  - apply length_replicate.
  - apply vsum_zero.
  - intros va vb s Ha Hb Hs. destruct (Ht va vb s) as [H1 H2]; [lia..|]. split; [lia|done].
  - rewrite vsum_foldl, E. rewrite (psum_split f (k * vl) a b).
    rewrite <-(pureSum_psum f (drop (k * vl) a)). unfold pureSum.
    generalize (psum f (take (k * vl) a) (take (k * vl) b)). generalize (zip (drop (k * vl) a) (drop (k * vl) b)).
    intros l x. assert (forall s, foldl (fun sum p => add sum (f p.1 p.2)) s l =
      add s (foldl (fun sum p => add sum (f p.1 p.2)) zero l)) as Hf.
    { induction l as [|p l IH]; intros s; cbn; [ring|]. rewrite IH, (IH (add zero _)). ring. }
    rewrite Hf. ring.
Qed.

(** The tail of one of the three sums. *)
Lemma tail_sum f s (l : list (F * F)) :
  foldl (fun sum p => add sum (f p.1 p.2)) s l = add s (psum f l.*1 l.*2).
Proof.
  revert s. induction l as [|[x y] l IH]; intros s; [unfold psum; cbn; ring|]. cbn [foldl fst snd]. rewrite IH.
  unfold psum. cbn. ring.
Qed.

Lemma tail_sums (l : list (F * F)) d x y :
  foldl (fun '(dot, sumA, sumB) p => (add dot (mul p.1 p.2), add sumA (mul p.1 p.1), add sumB (mul p.2 p.2)))
    (d, x, y) l =
  (add d (psum mul l.*1 l.*2), add x (psum (fun u _ => mul u u) l.*1 l.*2), add y (psum (fun _ v => mul v v) l.*1 l.*2)).
Proof.
  revert d x y. induction l as [|[u v] l IH]; intros d x y; cbn [foldl fst snd].
  - unfold psum. cbn. apply pair_equal_spec. split; [apply pair_equal_spec; split|]; ring.
  - rewrite IH. unfold psum. cbn. apply pair_equal_spec. split; [apply pair_equal_spec; split|]; ring.
Qed.

Lemma cosineSumsPortable_exact a b : length a = length b ->
  cosineSumsPortable vl a b = (psum mul a b, psum mul a a, psum mul b b).
Proof.
  intros Hl. unfold cosineSumsPortable. rewrite starts_eq, chunks_eq. set (k := (length a / vl)%nat).
  assert (k * vl <= length a)%nat as Hk by apply starts_fit.
  set (c0 := MkCos (Zero vl) (Zero vl) (Zero vl)).
  assert (wf_cos vl c0) as W0 by (unfold wf_cos, c0, Zero; cbn; by rewrite length_replicate).
  assert (forall p f, traces p f -> p c0 = Zero vl ->
    vsum (p (foldl (fun c i => cos_step (Load vl i a) (Load vl i b) c) c0 ((fun k => k * vl)%nat <$> seq 0 k))) =
      psum f (take (k * vl) a) (take (k * vl) b)) as Hp.
  { intros p f [_ Hp] Hz. apply (rounds_sum (wf_cos vl) (fun c => vsum (p c)) f cos_step c0 a b k); try done.
    - rewrite Hz. apply vsum_zero.
    - intros va vb s Ha Hb Hs. split; [by apply wf_cos_step|]. by apply (Hp vl). }
  rewrite tail_sums, !vsum_foldl, (Hp dot_ mul traces_dot eq_refl), (Hp sa_ _ traces_sa eq_refl), (Hp sb_ _ traces_sb eq_refl).
  assert (length (drop (k * vl) a) = length (drop (k * vl) b)) as Hd by (rewrite !length_drop; lia).
  rewrite fst_zip, snd_zip by lia.
  rewrite <-(psum_left a b), <-(psum_right a b) by done.
  rewrite (psum_split mul (k * vl) a b), (psum_split (fun u _ => mul u u) (k * vl) a b),
    (psum_split (fun _ v => mul v v) (k * vl) a b).
  apply pair_equal_spec. split; [apply pair_equal_spec; split|]; ring.
Qed.
End Lanes.

(** C18. The vector kernels compute the distances: over a commutative ring,
    where rounding plays no role, the AVX-512 kernels and the portable ones,
    for any number of lanes, give the sum of the plain loop for vectors of
    every length, and the cosine's pass the three sums of the plain ones.
    Every pair of elements is used once, in all eight, four and single
    register blocks and in the remainder, and no lane is lost in the final
    reduction. *)
Theorem simd_sums_exact vl a b : (0 < vl)%nat -> length a = length b ->
  dotProductAVX512 a b = pureSum mul a b /\
  l2SquaredAVX512 a b = pureSum sqdiff a b /\
  dotProductPortable vl a b = pureSum mul a b /\
  l2SquaredPortable vl a b = pureSum sqdiff a b /\
  cosineSumsAVX512 a b = (pureSum mul a b, pureSum mul a a, pureSum mul b b) /\
  cosineSumsPortable vl a b = (pureSum mul a b, pureSum mul a a, pureSum mul b b).
Proof.
  intros Hvl Hl. rewrite !pureSum_psum. assert (sqdiff zero zero = zero) as Hz by (unfold sqdiff; ring).
  split_and!.
  - apply sumAVX512_exact; [apply sums_dot|ring|done].
  - by apply sumAVX512_exact; [apply sums_l2| |].
  - by apply sumPortable_exact; [| apply sums_dot|].
  - by apply sumPortable_exact; [|apply sums_l2|].
  - by apply cosineSumsAVX512_exact.
  - by apply cosineSumsPortable_exact.
Qed.
End Exact.

(** ** Scaling *)
Section Scale.
Context {F : Type} `{Arith F}.

Lemma Mul_Broadcast (v : list F) inv n : length v = n -> Mul v (Broadcast n inv) = (fun x => mul x inv) <$> v.
Proof.
  intros <-. unfold Mul, Broadcast. induction v as [|x v IH]; [done|]. cbn. by rewrite IH.
Qed.

Lemma scaleAVX512_map fuel inv (v : list F) : (length v <= fuel)%nat -> scaleAVX512 fuel inv v = (fun x => mul x inv) <$> v.
Proof.
  revert v. induction fuel as [|fuel IH]; intros v Hv; cbn [scaleAVX512]; [by destruct v; [|cbn in Hv; lia]|].
  destruct (decide (16 <= length v)%nat) as [H16|H16].
  - rewrite Mul_Broadcast, IH by (unfold Load; rewrite ?length_take, ?length_drop; lia).
    unfold Load. by rewrite drop_0, <-fmap_app, take_drop.
  - destruct (decide (0 < length v)%nat) as [H0|H0]; [|by destruct v; [|cbn in H0; lia]].
    rewrite Mul_Broadcast by (apply length_LoadPart; lia). unfold LoadPart. rewrite (take_ge v) by lia.
    by rewrite fmap_app, take_app_length' by (by rewrite length_fmap).
Qed.

Lemma scalePortable_map vl inv (v : list F) : (0 < vl)%nat -> scalePortable vl inv v = (fun x => mul x inv) <$> v.
Proof.
  intros Hvl. unfold scalePortable. rewrite starts_eq, chunks_eq by done. set (k := (length v / vl)%nat).
  assert (k * vl <= length v)%nat as Hk by (by apply starts_fit).
  assert (forall j, (j <= k)%nat -> mjoin ((fun i => Mul (Load vl i v) (Broadcast vl inv)) <$> ((fun k => k * vl)%nat <$> seq 0 j))
    = (fun x => mul x inv) <$> take (j * vl) v) as Hj.
  { induction j as [|j IH]; intros Hj; [done|]. rewrite seq_S, !fmap_app, join_app, IH by lia.
    cbn [fmap list_fmap mjoin list_join foldr Nat.add]. rewrite app_nil_r, Mul_Broadcast by (apply length_Load; nia).
    rewrite <-fmap_app. f_equal. unfold Load. rewrite <-(take_drop (j * vl) (take (S j * vl) v)), take_take, skipn_firstn_comm.
    repeat f_equal; lia. }
  rewrite Hj by done. by rewrite <-fmap_app, take_drop.
Qed.
End Scale.

(** Normalising on vector registers scales every element exactly once, by
    the same float32 factor: on float32, bit for bit, the result is the plain
    loop's for the kernel's own sum of squares, the error for a zero sum
    included, and the vector keeps its length. *)
Theorem simd_normalize_exact hasAVX512 vl (v : list float32) : (0 < vl)%nat ->
  let sum := dotProduct hasAVX512 vl v v in
  normalizeInPlace hasAVX512 vl v =
    if feq sum fzero then Err ErrZeroVector
    else Ok ((fun x => fmul x (fdiv fone (to_float32 (fsqrt64 (to_float64 sum))))) <$> v).
Proof.
  intros Hvl. unfold normalizeInPlace, normalizeInPlaceAVX512, normalizeInPlacePortable, dotProduct.
  destruct hasAVX512.
  - destruct (feq (dotProductAVX512 v v) fzero); [done|]. f_equal. by rewrite scaleAVX512_map.
  - destruct (feq (dotProductPortable vl v v) fzero); [done|]. f_equal. by rewrite scalePortable_map.
Qed.

Lemma whole_fits n : (whole n <= n)%nat.
Proof. unfold whole. pose proof (Nat.div_mod_eq n 16). lia. Qed.

(** Decoding a row: when the block conversion converts its elements, the
    decoded row is the conversion of every element of the source, whole
    blocks and remainder alike, the rest of the destination is left as it
    was, and a destination that is too short panics before anything is
    written. *)
Theorem fp16_decode_exact cvt (dst : list float32) (src : list Z) :
  (forall hs, length hs mod 16 = 0 -> cvt hs = fp16ToFloat32 <$> hs)%nat ->
  decodeFP16AVX512 cvt dst src =
    if decide (length src <= length dst)%nat then Ok ((fp16ToFloat32 <$> src) ++ drop (length src) dst)
    else Err (Panic "index out of range").
Proof.
  intros Hcvt. unfold decodeFP16AVX512. case_decide as Hs.
  { subst src. by rewrite decide_True by (cbn; lia). }
  destruct (decide (length src <= length dst)%nat) as [Hl|Hl]; [|by rewrite decide_True by lia].
  rewrite decide_False by lia. f_equal. rewrite app_assoc. f_equal.
  pose proof (whole_fits (length src)) as Hw.
  transitivity (fp16ToFloat32 <$> (take (whole (length src)) src ++ drop (whole (length src)) src)); [|by rewrite take_drop].
  rewrite fmap_app. f_equal.
  case_decide as Hn; [|by replace (whole (length src)) with 0%nat by lia].
  apply Hcvt. rewrite length_take, Nat.min_l by lia. unfold whole. apply Nat.Div0.mod_mul.
Qed.

(** ** Witnesses *)
#[local] Instance Z_arith : Arith Z := {|
  zero := 0%Z; add := Z.add; sub := Z.sub; mul := Z.mul; muladd x y z := (x * y + z)%Z;
|}.

Definition ex_vec (n : nat) (s : Z) : list Z := (fun i => (Z.of_nat i * 7 + s) mod 11 - 5)%Z <$> seq 0 n.

(** 221 elements go through all four loops. *)
Lemma simd_sums_exact_witness :
  dotProductAVX512 (ex_vec 221 1) (ex_vec 221 3) = pureSum mul (ex_vec 221 1) (ex_vec 221 3) /\
  pureSum mul (ex_vec 221 1) (ex_vec 221 3) = 228%Z.
Proof.
  split; [|vm_compute; reflexivity].
  refine (proj1 (@simd_sums_exact Z Z_arith 1%Z Z.opp InitialRing.Zth (fun x y z => eq_refl) 8 (ex_vec 221 1) (ex_vec 221 3) _ _)).
  - lia.
  - reflexivity.
Defined.

Lemma simd_normalize_exact_witness : exists r,
  normalizeInPlace true 8 (replicate 20 fone) = Ok r /\ length r = 20%nat.
Proof.
  rewrite (simd_normalize_exact true 8 (replicate 20 fone)) by lia.
  eexists. split; [vm_compute; reflexivity|reflexivity].
Defined.

Lemma fp16_decode_exact_witness :
  decodeFP16AVX512 (fun hs => fp16ToFloat32 <$> hs) (replicate 20 fzero) (replicate 18 15360%Z) =
    Ok (replicate 18 fone ++ replicate 2 fzero).
Proof.
  rewrite (fp16_decode_exact (fun hs => fp16ToFloat32 <$> hs)) by reflexivity. vm_compute. reflexivity.
Defined.
