(* ===== verification/Table.v ===== *)
(** * query: the table of one branch

    src/query/table.go without [Search] (Search.v).  A [Table] is columnar:
    one slot per row in every column.  Maps are [gmap]s; where Go ranges over
    a map, the model goes through it in key order, which decides nothing but
    the error reported when several vectors are bad.  Slices are lists of
    the slice's length; a slice or column access out of range would panic in
    Go, and [wf] (Theorem [table_refines]) shows that none ever is.

    [SearchStats] are wall-clock durations and are left out. *)

From S2P Require Import Prelude Float32 Vector.
Local Open Scope Z_scope.

(** The values of a column: [data], or [data16] in half precision. *)
Inductive coldata := D32 (data : list float32) | D16 (data : list Z).

Record flatVectorCol := MkCol {
  dim : nat;
  cdata : coldata;
  hasVec : list bool;
  invNorms : list float32;
}.

Definition vectorInvNorm (v : list float32) : float32 :=
  let normSq := dot_loop v v fzero in
  if feq normSq fzero then fzero else to_float32 (fdiv64 fone64 (fsqrt64 (to_float64 normSq))).

Record Table := MkTable {
  numRows : nat;
  docIDs : list string;
  index : gmap string nat;
  tombstones : list bool;
  vectors : gmap string flatVectorCol;
  attrs : gmap string (list (option AttributeValue));
}.

Definition NewTable : Table := MkTable 0 [] ∅ [] ∅ ∅.

(** [Clone] copies every slice and message; the copy has the same value. *)
Definition Clone (t : Table) : Table :=
  MkTable (numRows t) (docIDs t) (index t) (tombstones t)
    ((fun v => MkCol (dim v) (cdata v) (hasVec v) (invNorms v)) <$> vectors t)
    ((fun col => map (fun a => a) col) <$> attrs t).

Record stagedVector := MkStaged { values : list float32; sdata : coldata; invNorm : float32 }.

(** Overwrite [l[off:off+len(v)]]. *)
Definition splice {A} (off : nat) (v l : list A) : list A := take off l ++ v ++ drop (off + length v) l.

Section Table.
(** [t.kernels] is set once and never changed. *)
Context (kernels : Kernels).

Definition is16 : bool := match Half kernels with Some _ => true | None => false end.

(** ** Upsert *)

(** One vector of the record, checked and converted. *)
Definition stage_one (t : Table) (col : string) (vec : list float32) : res stagedVector :=
  if match vectors t !! col with
     | Some vCol => bool_decide (length vec <> dim vCol)
     | None => false
     end then Err ErrDimensionMismatch
  else if is16 then
    data16 ← EncodeFP16 (length vec) vec;
    Ok (MkStaged vec (D16 data16) (vectorInvNorm vec))
  else Ok (MkStaged vec (D32 vec) (vectorInvNorm vec)).

(** [staged]: empty vectors are skipped; the first bad one is the error.  Go
    visits the map in no particular order; [stage_any_order] shows that the
    order decides only which of several bad vectors is reported. *)
Fixpoint stage_loop (t : Table) (vecs : list (string * list float32)) (staged : gmap string stagedVector)
  : res (gmap string stagedVector) :=
  match vecs with
  | [] => Ok staged
  | (col, vec) :: vecs =>
    if decide (vec = []) then stage_loop t vecs staged else
    sv ← stage_one t col vec;
    stage_loop t vecs (<[col := sv]> staged)
  end.

Definition stage (t : Table) (vecs : gmap string (list float32)) : res (gmap string stagedVector) :=
  map_fold (fun col vec acc =>
    staged ← acc;
    if decide (vec = []) then Ok staged else
    sv ← stage_one t col vec;
    Ok (<[col := sv]> staged)) (Ok ∅) vecs.

(** [make([]T, n)] *)
Definition zeros (n : nat) : coldata := if is16 then D16 (replicate n 0) else D32 (replicate n fzero).

Definition new_col (t : Table) (sv : stagedVector) : flatVectorCol :=
  let dim := length (values sv) in
  MkCol dim (zeros (numRows t * dim)) (replicate (numRows t) false) (replicate (numRows t) fzero).

(** Columns the record names for the first time; a nil attribute is [None]. *)
Definition with_columns (t : Table) (staged : gmap string stagedVector)
    (as_ : gmap string (option AttributeValue)) : Table :=
  MkTable (numRows t) (docIDs t) (index t) (tombstones t)
    (vectors t ∪ (new_col t <$> staged))
    (attrs t ∪ omap (fun v => match v with Some _ => Some (replicate (numRows t) None) | None => None end) as_).

(** A revived row loses what the new record does not name. *)
Definition clear_row (row : nat) (t : Table) (staged : gmap string stagedVector)
    (as_ : gmap string (option AttributeValue)) : Table :=
  MkTable (numRows t) (docIDs t) (index t) (tombstones t)
    (map_imap (fun col c => Some match staged !! col with
       | Some _ => c
       | None => MkCol (dim c) (cdata c) (<[row := false]> (hasVec c)) (<[row := fzero]> (invNorms c))
       end) (vectors t))
    (map_imap (fun k col => Some match as_ !! k with
       | Some _ => col
       | None => <[row := None]> col
       end) (attrs t)).

Definition write_data (row dim : nat) (new old : coldata) : coldata :=
  match new, old with
  | D32 v, D32 l => D32 (splice (row * dim) v l)
  | D16 v, D16 l => D16 (splice (row * dim) v l)
  | _, _ => old
  end.

Definition write_col (row : nat) (sv : stagedVector) (c : flatVectorCol) : flatVectorCol :=
  MkCol (dim c) (write_data row (dim c) (sdata sv) (cdata c))
    (<[row := true]> (hasVec c)) (<[row := invNorm sv]> (invNorms c)).

(** The record over an existing row. *)
Definition write_row (row : nat) (t : Table) (staged : gmap string stagedVector)
    (as_ : gmap string (option AttributeValue)) : Table :=
  MkTable (numRows t) (docIDs t) (index t) (<[row := false]> (tombstones t))
    (map_imap (fun col c => Some match staged !! col with
       | Some sv => write_col row sv c
       | None => c
       end) (vectors t))
    (map_imap (fun k col => Some match as_ !! k with
       | Some (Some v) => <[row := Some v]> col
       | _ => col
       end) (attrs t)).

Definition append_data (old new : coldata) : coldata :=
  match old, new with
  | D32 l, D32 v => D32 (l ++ v)
  | D16 l, D16 v => D16 (l ++ v)
  | _, _ => old
  end.

Definition append_col (c : flatVectorCol) (sv : option stagedVector) : flatVectorCol :=
  match sv with
  | None => MkCol (dim c) (append_data (cdata c) (zeros (dim c))) (hasVec c ++ [false]) (invNorms c ++ [fzero])
  | Some sv => MkCol (dim c) (append_data (cdata c) (sdata sv)) (hasVec c ++ [true]) (invNorms c ++ [invNorm sv])
  end.

Definition append_row (id : string) (t : Table) (staged : gmap string stagedVector)
    (as_ : gmap string (option AttributeValue)) : Table :=
  let row := numRows t in
  MkTable (S row) (docIDs t ++ [id]) (<[id := row]> (index t)) (tombstones t ++ [false])
    (map_imap (fun col c => Some (append_col c (staged !! col))) (vectors t))
    (map_imap (fun k col => Some match as_ !! k with
       | Some (Some v) => col ++ [Some v]
       | _ => col ++ [None]
       end) (attrs t)).

Definition Upsert (t : Table) (id : string) (vecs : gmap string (list float32))
    (as_ : gmap string (option AttributeValue)) : res Table :=
  if decide (id = "") then Err (Msg "query: empty doc id") else
  staged ← stage t vecs;
  let t := with_columns t staged as_ in
  match index t !! id with
  | Some row =>
    let t := if default false (tombstones t !! row) then clear_row row t staged as_ else t in
    Ok (write_row row t staged as_)
  | None => Ok (append_row id t staged as_)
  end.

(** A decoded record has no nil vectors or attributes. *)
Definition UpsertRecord (t : Table) (rec : option DocRecord) : res Table :=
  match rec with
  | None => Err (Msg "query: nil record")
  | Some rec => Upsert t (Id rec) (Vectors rec) (Some <$> Attributes rec)
  end.

(** ** Delete, Get *)
Definition Delete (t : Table) (id : string) : bool * Table :=
  match index t !! id with
  | None => (false, t)
  | Some row =>
    if default false (tombstones t !! row) then (false, t)
    else (true, MkTable (numRows t) (docIDs t) (index t) (<[row := true]> (tombstones t)) (vectors t) (attrs t))
  end.

Definition isTombstoned (t : Table) (row : nat) : bool := default false (tombstones t !! row).

(** The values of a row in a column, [values[:dim]] or decoded. *)
Definition slice {A} (row dim : nat) (l : list A) : list A := take dim (drop (row * dim) l).
Definition row_data (row : nat) (c : flatVectorCol) : coldata :=
  match cdata c with
  | D32 l => D32 (slice row (dim c) l)
  | D16 l => D16 (slice row (dim c) l)
  end.
Definition decoded (d : coldata) : list float32 :=
  match d with
  | D32 v => v
  | D16 h => match Half kernels with Some k => Decode16 k h | None => [] end
  end.

Definition recordAt (t : Table) (row : nat) (id : string) : DocRecord :=
  MkRecord id
    (omap (fun c => if decide (hasVec c !! row = Some true) then Some (decoded (row_data row c)) else None)
       (vectors t))
    (omap (fun col => match col !! row with Some (Some a) => Some a | _ => None end) (attrs t)).

Definition Get (t : Table) (id : string) : option DocRecord :=
  match index t !! id with
  | None => None
  | Some row => if isTombstoned t row then None else Some (recordAt t row id)
  end.

End Table.

(** ** Slices *)
#[global] Arguments slice : simpl never.
#[global] Arguments splice : simpl never.

Lemma lookup_slice {A} row d (l : list A) i :
  slice row d l !! i = if decide (i < d)%nat then l !! (row * d + i)%nat else None.
Proof.
  unfold slice. case_decide.
  - by rewrite lookup_take_lt, lookup_drop.
  - rewrite lookup_take_ge; [done|lia].
Qed.

Lemma length_slice {A} row d n (l : list A) : length l = (n * d)%nat -> (row < n)%nat ->
  length (slice row d l) = d.
Proof. intros Hl Hr. unfold slice. rewrite length_take, length_drop. nia. Qed.

Lemma lookup_splice {A} off (v l : list A) j : (off + length v <= length l)%nat ->
  splice off v l !! j = if decide (off <= j < off + length v)%nat then v !! (j - off)%nat else l !! j.
Proof.
  intros Hl. unfold splice. case_decide.
  - rewrite lookup_app_r by (rewrite length_take; lia). rewrite length_take.
    rewrite lookup_app_l by lia. f_equal. lia.
  - destruct (decide (j < off)%nat).
    + rewrite lookup_app_l by (rewrite length_take; lia). by rewrite lookup_take_lt.
    + rewrite lookup_app_r by (rewrite length_take; lia). rewrite length_take.
      rewrite lookup_app_r by lia. rewrite lookup_drop. f_equal. lia.
Qed.

Lemma length_splice {A} off (v l : list A) : (off + length v <= length l)%nat ->
  length (splice off v l) = length l.
Proof. intros Hl. unfold splice. rewrite !length_app, length_take, length_drop. lia. Qed.

Lemma slice_splice {A} row row' d n (v l : list A) : length l = (n * d)%nat -> length v = d ->
  (row < n)%nat -> (row' < n)%nat ->
  slice row d (splice (row' * d) v l) = if decide (row = row') then v else slice row d l.
Proof.
  intros Hl Hv Hr Hr'. apply list_eq. intros i. rewrite lookup_slice.
  assert (row' * d + length v <= length l)%nat by nia.
  destruct (decide (i < d)%nat) as [Hi|Hi].
  - rewrite lookup_splice by done. destruct (decide (row = row')) as [->|Hne].
    + rewrite decide_True by lia. f_equal. lia.
    + rewrite decide_False, lookup_slice, decide_True by nia. done.
  - case_decide; symmetry; apply lookup_ge_None_2; [lia|].
    rewrite (length_slice _ _ n) by done. lia.
Qed.

Lemma slice_app {A} row d n (v l : list A) : length l = (n * d)%nat -> length v = d -> (row <= n)%nat ->
  slice row d (l ++ v) = if decide (row = n) then v else slice row d l.
Proof.
  intros Hl Hv Hr. apply list_eq. intros i. rewrite lookup_slice.
  destruct (decide (i < d)%nat) as [Hi|Hi].
  - case_decide as Hn.
    + subst. rewrite lookup_app_r by lia. f_equal. lia.
    + rewrite lookup_app_l by nia. by rewrite lookup_slice, decide_True.
  - case_decide; symmetry; apply lookup_ge_None_2; [lia|].
    rewrite (length_slice _ _ n) by (done || lia). lia.
Qed.

(** ** Columns *)
Section Columns.
Context (kernels : Kernels).
Abbreviation is16 := (is16 kernels).

Definition data_wf (n : nat) (d : coldata) : Prop :=
  match d with
  | D32 l => is16 = false /\ length l = n
  | D16 l => is16 = true /\ length l = n
  end.

Definition col_wf (n : nat) (c : flatVectorCol) : Prop :=
  (0 < dim c)%nat /\ length (hasVec c) = n /\ length (invNorms c) = n /\ data_wf (n * dim c) (cdata c).

(** What a column holds of a row. *)
Definition cell (c : flatVectorCol) (row : nat) : option (list float32) :=
  if decide (hasVec c !! row = Some true) then Some (decoded kernels (row_data row c)) else None.

Lemma zeros_wf n : data_wf n (zeros kernels n).
Proof. unfold zeros. destruct is16 eqn:E; cbn; rewrite length_replicate; done. Qed.

Lemma new_col_wf t sv : (0 < length (values sv))%nat -> col_wf (numRows t) (new_col kernels t sv).
Proof.
  intros Hv. split_and!; cbn; [done|by rewrite length_replicate|by rewrite length_replicate|].
  apply zeros_wf.
Qed.

Lemma new_col_cell t sv row : cell (new_col kernels t sv) row = None.
Proof.
  unfold cell. cbn. case_decide as H; [|done]. by apply lookup_replicate in H as [? _].
Qed.

Definition clear_col (row : nat) (c : flatVectorCol) : flatVectorCol :=
  MkCol (dim c) (cdata c) (<[row := false]> (hasVec c)) (<[row := fzero]> (invNorms c)).

Lemma clear_col_wf n row c : col_wf n c -> col_wf n (clear_col row c).
Proof. intros (? & ? & ? & ?). split_and!; cbn; rewrite ?length_insert; done. Qed.

Lemma clear_col_cell n row row' c : col_wf n c -> (row < n)%nat ->
  cell (clear_col row c) row' = if decide (row' = row) then None else cell c row'.
Proof.
  intros (_ & Hl & _) Hr. unfold cell, row_data. cbn.
  destruct (decide (row' = row)) as [->|Hne]; [by rewrite list_lookup_insert_eq by lia|].
  by rewrite list_lookup_insert_ne.
Qed.

Lemma write_col_wf n row sv c : col_wf n c -> (row < n)%nat -> data_wf (dim c) (sdata sv) ->
  col_wf n (write_col row sv c).
Proof.
  intros (? & ? & ? & Hd) Hr Hs. split_and!; cbn; rewrite ?length_insert; try done.
  unfold data_wf in *. destruct (sdata sv), (cdata c); cbn; destruct Hd as [? Hd], Hs as [? Hs];
    try congruence; split; try done; rewrite length_splice; nia.
Qed.

Lemma write_col_cell n row row' sv c : col_wf n c -> (row < n)%nat -> (row' < n)%nat ->
  data_wf (dim c) (sdata sv) ->
  cell (write_col row sv c) row' = if decide (row' = row) then Some (decoded kernels (sdata sv)) else cell c row'.
Proof.
  intros (_ & Hl & _ & Hd) Hr Hr' Hs. unfold cell, row_data. cbn.
  assert (match write_data row (dim c) (sdata sv) (cdata c) with
    | D32 l => D32 (slice row' (dim c) l) | D16 l => D16 (slice row' (dim c) l) end =
    if decide (row' = row) then sdata sv else
    match cdata c with
    | D32 l => D32 (slice row' (dim c) l) | D16 l => D16 (slice row' (dim c) l) end) as ->.
  { unfold data_wf in *. destruct (sdata sv), (cdata c); cbn; destruct Hd as [? Hd], Hs as [? Hs];
      try congruence; rewrite (slice_splice _ _ _ n) by done; by case_decide. }
  destruct (decide (row' = row)) as [->|Hne]; [by rewrite list_lookup_insert_eq by lia|].
  by rewrite list_lookup_insert_ne.
Qed.

Lemma append_col_wf n sv c : col_wf n c -> (forall s, sv = Some s -> data_wf (dim c) (sdata s)) ->
  col_wf (S n) (append_col kernels c sv).
Proof.
  intros (? & ? & ? & Hd) Hs.
  assert (data_wf (dim c) (match sv with Some s => sdata s | None => zeros kernels (dim c) end)) as Hn.
  { destruct sv; [by apply Hs|apply zeros_wf]. }
  assert (data_wf (S n * dim c) (append_data (cdata c)
    (match sv with Some s => sdata s | None => zeros kernels (dim c) end))) as Hd'.
  { unfold data_wf in *. destruct (match sv with Some s => _ | None => _ end), (cdata c); cbn;
      destruct Hd, Hn; try congruence; rewrite length_app; split; try done; lia. }
  destruct sv; split_and!; cbn; rewrite ?length_app; cbn; try done; lia.
Qed.

Lemma append_col_cell n row sv c : col_wf n c -> (forall s, sv = Some s -> data_wf (dim c) (sdata s)) ->
  (row <= n)%nat ->
  cell (append_col kernels c sv) row =
    if decide (row = n) then decoded kernels ∘ sdata <$> sv else cell c row.
Proof.
  intros (_ & Hl & _ & Hd) Hs Hr. unfold cell, row_data.
  assert (data_wf (dim c) (match sv with Some s => sdata s | None => zeros kernels (dim c) end)) as Hn.
  { destruct sv; [by apply Hs|apply zeros_wf]. }
  assert (forall new, data_wf (dim c) new ->
    match append_data (cdata c) new with
    | D32 l => D32 (slice row (dim c) l) | D16 l => D16 (slice row (dim c) l) end =
    if decide (row = n) then new else
    match cdata c with
    | D32 l => D32 (slice row (dim c) l) | D16 l => D16 (slice row (dim c) l) end) as Ha.
  { intros new Hnew. unfold data_wf in *. destruct new, (cdata c); cbn; destruct Hd as [? Hd], Hnew as [? Hnew];
      try congruence; rewrite (slice_app _ _ n) by done; by case_decide. }
  destruct sv as [s|]; cbn; rewrite Ha by done; destruct (decide (row = n)) as [->|Hne].
  - rewrite lookup_app_r, Hl, Nat.sub_diag by lia. done.
  - rewrite lookup_app_l by lia. done.
  - rewrite lookup_app_r, Hl, Nat.sub_diag by lia. done.
  - rewrite lookup_app_l by lia. done.
Qed.

End Columns.

(** ** Tables *)
Section Wf.
Context (kernels : Kernels).
Abbreviation cell := (cell kernels).

(** Every column has a slot for every row, and [index] and [docIDs] invert
    each other. *)
Definition wf (t : Table) : Prop :=
  length (docIDs t) = numRows t /\ length (tombstones t) = numRows t /\
  (forall id row, index t !! id = Some row <-> docIDs t !! row = Some id) /\
  (forall col c, vectors t !! col = Some c -> col_wf kernels (numRows t) c) /\
  (forall k col, attrs t !! k = Some col -> length col = numRows t).

Lemma wf_index t id row : wf t -> index t !! id = Some row -> (row < numRows t)%nat.
Proof. intros (Hl & _ & Hi & _) E%Hi. apply lookup_lt_Some in E. lia. Qed.

(** What the table holds of a row. *)
Definition row_vecs (t : Table) (row : nat) : gmap string (list float32) :=
  omap (fun c => cell c row) (vectors t).
Definition attr_cell (col : list (option AttributeValue)) (row : nat) : option AttributeValue :=
  match col !! row with Some (Some a) => Some a | _ => None end.
Definition row_attrs (t : Table) (row : nat) : gmap string AttributeValue :=
  omap (fun col => attr_cell col row) (attrs t).

Lemma recordAt_rows t row id : recordAt kernels t row id = MkRecord id (row_vecs t row) (row_attrs t row).
Proof. done. Qed.

(** *** Staged vectors *)
Definition staged_ok (t : Table) (staged : gmap string stagedVector) : Prop :=
  forall col sv, staged !! col = Some sv ->
    (0 < length (values sv))%nat /\ data_wf kernels (length (values sv)) (sdata sv) /\
    forall c, vectors t !! col = Some c -> dim c = length (values sv).

(** What is stored of a vector. *)
Definition stored_data (v : list float32) : res coldata :=
  if is16 kernels then d ← encode_loop v; Ok (D16 d) else Ok (D32 v).

Lemma stored_data_wf v d : stored_data v = Ok d -> data_wf kernels (length v) d.
Proof.
  unfold stored_data. destruct (is16 kernels) eqn:E; [|by intros [= <-]].
  destruct (encode_loop v) eqn:Ev; cbn; [|done]. intros [= <-]. split; [done|].
  by apply encode_loop_length.
Qed.

Definition dim_ok (t : Table) (col : string) (v : list float32) : bool :=
  match vectors t !! col with Some c => bool_decide (length v = dim c) | None => true end.

Lemma stage_one_spec t col vec :
  stage_one kernels t col vec =
    if dim_ok t col vec then d ← stored_data vec; Ok (MkStaged vec d (vectorInvNorm vec))
    else Err ErrDimensionMismatch.
Proof.
  unfold stage_one, dim_ok, stored_data, EncodeFP16. rewrite decide_False by lia.
  destruct (vectors t !! col) as [c|]; [destruct (decide (length vec = dim c))|].
  - rewrite bool_decide_eq_false_2, bool_decide_eq_true_2 by tauto.
    by destruct (is16 kernels), (encode_loop vec).
  - by rewrite bool_decide_eq_true_2, bool_decide_eq_false_2 by tauto.
  - by destruct (is16 kernels), (encode_loop vec).
Qed.

(** A vector that can be stored; the empty ones are skipped. *)
Definition storable (t : Table) (col : string) (v : list float32) : Prop :=
  v = [] \/ dim_ok t col v = true /\ exists d, stored_data v = Ok d.

Definition stage_of (v : list float32) : option stagedVector :=
  if decide (v = []) then None else
  match stored_data v with Ok d => Some (MkStaged v d (vectorInvNorm v)) | Err _ => None end.

(** Staging succeeds exactly when every vector can be stored. *)
Lemma stage_spec t vecs :
  match stage kernels t vecs with
  | Ok staged => staged = omap stage_of vecs /\ forall col v, vecs !! col = Some v -> storable t col v
  | Err _ => exists col v, vecs !! col = Some v /\ ~ storable t col v
  end.
Proof.
  unfold stage. apply (map_fold_weak_ind (fun r m => match r with
    | Ok staged => staged = omap stage_of m /\ forall col v, m !! col = Some v -> storable t col v
    | Err _ => exists col v, m !! col = Some v /\ ~ storable t col v end)).
  { split; [by rewrite omap_empty|]. intros col v. by rewrite lookup_empty. }
  intros col v m r Hn IH. destruct r as [staged|e]; cbn.
  - destruct IH as [-> Hst]. rewrite (omap_insert stage_of). unfold stage_of at 2 3 4. case_decide as Hv.
    + rewrite delete_id by (by rewrite lookup_omap, Hn). split; [done|].
      intros col' v' [[<- <-]|[_ ?]]%lookup_insert_Some; [by left|auto].
    + rewrite stage_one_spec. destruct (dim_ok t col v) eqn:Ed; cbn.
      * destruct (stored_data v) as [d|e] eqn:Es; cbn.
        -- split; [done|]. intros col' v' [[<- <-]|[_ ?]]%lookup_insert_Some; [right; eauto|auto].
        -- exists col, v. rewrite lookup_insert_eq. split; [done|]. intros [?|[_ [d E]]]; congruence.
      * exists col, v. rewrite lookup_insert_eq. split; [done|]. intros [?|[E _]]; congruence.
  - destruct IH as (col' & v' & E & Hns). exists col', v'. split; [|done].
    rewrite lookup_insert_ne; [done|]. intros ->. congruence.
Qed.

Lemma stage_loop_spec t l staged : NoDup l.*1 -> (forall col, col ∈ l.*1 -> staged !! col = None) ->
  match stage_loop kernels t l staged with
  | Ok staged' => staged' = omap stage_of (list_to_map l : gmap string (list float32)) ∪ staged /\
      Forall (fun cv => storable t cv.1 cv.2) l
  | Err e => exists col v, (col, v) ∈ l /\ ~ storable t col v /\ stage_one kernels t col v = Err e
  end.
Proof.
  revert staged. induction l as [|[col v] l IH]; intros staged Hnd Hnew; cbn [stage_loop].
  { split; [|done]. cbn. by rewrite omap_empty, (left_id_L ∅ (∪)). }
  cbn in Hnd. apply NoDup_cons in Hnd as [Hcol Hnd].
  assert ((list_to_map l : gmap string (list float32)) !! col = None) as Hn by (by apply not_elem_of_list_to_map_1).
  assert (forall e, stage_one kernels t col v = Err e -> v <> [] -> ~ storable t col v) as Hbad.
  { intros e E Hv [?|[Hd [d Hs]]]; [done|]. rewrite stage_one_spec, Hd, Hs in E. done. }
  case_decide as Hv.
  - specialize (IH staged Hnd ltac:(intros c Hc; apply Hnew; by right)). rewrite list_to_map_cons.
    destruct (stage_loop _ t l staged) as [s'|e].
    + destruct IH as [-> HF]. split; [|constructor; [by left|done]]. f_equal.
      apply map_eq. intros c. rewrite !lookup_omap. destruct (decide (c = col)) as [->|?];
        [|by rewrite lookup_insert_ne]. rewrite lookup_insert_eq, Hn, Hv. done.
    + destruct IH as (c & v' & Hin & ?). exists c, v'. split; [by right|done].
  - destruct (stage_one kernels t col v) as [sv|e] eqn:E; cbn; [|exists col, v; split; [by left|split; [by eapply Hbad|done]]].
    specialize (IH (<[col := sv]> staged) Hnd). destruct (stage_loop _ t l _) as [s'|e].
    + destruct IH as [-> HF].
      { intros c Hc. rewrite lookup_insert_ne by (intros ->; done). apply Hnew. by right. }
      rewrite stage_one_spec in E. destruct (dim_ok t col v) eqn:Ed; [|done].
      destruct (stored_data v) as [d|] eqn:Es; [|done]. injection E as <-.
      split; [|constructor; [right; eauto|done]].
      apply map_eq. intros c. rewrite !lookup_union, !lookup_omap.
      destruct (decide (c = col)) as [->|?]; [|by rewrite !lookup_insert_ne].
      rewrite !lookup_insert_eq, Hn, Hnew by (by left). cbn. unfold stage_of. by rewrite decide_False, Es.
    + destruct IH as (c & v' & Hin & ?); [|exists c, v'; split; [by right|done]].
      intros c Hc. rewrite lookup_insert_ne by (intros ->; done). apply Hnew. by right.
Qed.

(** The order in which the vectors are visited does not matter to what is
    staged, nor to whether the record is accepted. *)
Lemma stage_any_order t vecs l : l ≡ₚ map_to_list vecs ->
  match stage_loop kernels t l ∅ with
  | Ok staged => stage kernels t vecs = Ok staged
  | Err e => (exists e', stage kernels t vecs = Err e') /\
      exists col v, vecs !! col = Some v /\ stage_one kernels t col v = Err e
  end.
Proof.
  intros Hl. assert (NoDup l.*1) as Hnd by (rewrite Hl; apply NoDup_fst_map_to_list).
  assert (list_to_map l = vecs) as Hm by (rewrite (list_to_map_proper _ _ Hnd Hl); apply list_to_map_to_list).
  assert (forall col v, (col, v) ∈ l <-> vecs !! col = Some v) as Hin by (intros; by rewrite Hl, elem_of_map_to_list).
  pose proof (stage_loop_spec t l ∅ Hnd ltac:(intros; apply lookup_empty)) as Hs. pose proof (stage_spec t vecs) as Hs'.
  destruct (stage_loop kernels t l ∅) as [staged|e].
  - destruct Hs as [-> HF]. rewrite Hm, (right_id_L ∅ (∪)). destruct (stage kernels t vecs) as [s'|e'].
    + by destruct Hs' as [-> _].
    + destruct Hs' as (col & v & Hv & Hns). destruct Hns. apply Hin in Hv. rewrite Forall_forall in HF. by apply (HF (col, v)).
  - destruct Hs as (col & v & Hv%Hin & Hns & E). split; [|by exists col, v].
    destruct (stage kernels t vecs) as [s'|e']; [|by exists e']. destruct Hs' as [_ Hs']. destruct Hns. by apply Hs'.
Qed.

Lemma staged_ok_of t vecs staged : stage kernels t vecs = Ok staged -> staged_ok t staged.
Proof.
  intros E. pose proof (stage_spec t vecs) as Hs. rewrite E in Hs. destruct Hs as [-> Hst].
  intros col sv Hsv. rewrite lookup_omap in Hsv. destruct (vecs !! col) as [v|] eqn:Ev; [|done].
  cbn in Hsv. unfold stage_of in Hsv. case_decide as Hv; [done|].
  destruct (stored_data v) as [d|] eqn:Ed; [|done]. injection Hsv as <-. cbn.
  split; [by destruct v; [|cbn; lia]|]. split; [by apply stored_data_wf|]. intros c Hc.
  destruct (Hst col v Ev) as [?|[Hdim _]]; [done|]. unfold dim_ok in Hdim. rewrite Hc in Hdim.
  symmetry. by apply bool_decide_eq_true in Hdim.
Qed.

(** *** The rows after each step *)
Section Steps.
Context (t : Table) (staged : gmap string stagedVector) (as_ : gmap string (option AttributeValue)).
Context (Hwf : wf t) (Hst : staged_ok t staged).

(** Every column the record names is there. *)
Definition named : Prop :=
  (forall col sv, staged !! col = Some sv -> is_Some (vectors t !! col)) /\
  (forall k a, as_ !! k = Some (Some a) -> is_Some (attrs t !! k)).

Lemma staged_data col sv c : staged !! col = Some sv -> vectors t !! col = Some c ->
  data_wf kernels (dim c) (sdata sv).
Proof. intros E Hc. destruct (Hst col sv E) as (_ & Hd & Hdim). by rewrite (Hdim c Hc). Qed.

Lemma clear_row_wf row : (row < numRows t)%nat -> wf (clear_row row t staged as_).
Proof.
  intros Hr. pose proof Hwf as (H1 & H2 & H3 & H4 & H5). split_and!; [done|done|done| |].
  - intros col c. cbn. rewrite map_lookup_imap. destruct (vectors t !! col) as [c0|] eqn:E; [|done].
    cbn. intros [= <-]. destruct (staged !! col); [by eapply H4|by apply (clear_col_wf _ _ row), (H4 col)].
  - intros k col. cbn. rewrite map_lookup_imap. destruct (attrs t !! k) as [c0|] eqn:E; [|done].
    cbn. intros [= <-]. destruct (as_ !! k); rewrite ?length_insert; by eapply H5.
Qed.

Lemma write_row_wf row : (row < numRows t)%nat -> wf (write_row row t staged as_).
Proof.
  intros Hr. pose proof Hwf as (H1 & H2 & H3 & H4 & H5).
  split_and!; [done|cbn; by rewrite length_insert|done| |].
  - intros col c. cbn. rewrite map_lookup_imap. destruct (vectors t !! col) as [c0|] eqn:E; [|done].
    cbn. intros [= <-]. destruct (staged !! col) as [sv|] eqn:Es; [|by eapply H4].
    apply write_col_wf; [by eapply H4|done|by eapply staged_data].
  - intros k col. cbn. rewrite map_lookup_imap. destruct (attrs t !! k) as [c0|] eqn:E; [|done].
    cbn. intros [= <-]. destruct (as_ !! k) as [[]|]; rewrite ?length_insert; by eapply H5.
Qed.

Lemma append_row_wf id : index t !! id = None -> wf (append_row kernels id t staged as_).
Proof.
  intros Hid. pose proof Hwf as (H1 & H2 & H3 & H4 & H5).
  split_and!; cbn; [rewrite length_app; cbn; lia|rewrite length_app; cbn; lia| | |].
  - intros id' row. rewrite lookup_insert_Some, lookup_app_Some, H1, H3. cbn. split.
    + intros [[-> <-]|[Hne E]]; [|by left]. right. split; [lia|]. by rewrite Nat.sub_diag.
    + intros [E|[Hr E]].
      * right. split; [|done]. intros ->. apply H3 in E. congruence.
      * apply list_lookup_singleton_Some in E as [? <-]. left. split; [done|lia].
  - intros col c. rewrite map_lookup_imap. destruct (vectors t !! col) as [c0|] eqn:E; [|done].
    cbn. intros [= <-]. apply append_col_wf; [by eapply H4|]. intros sv Es. by eapply staged_data.
  - intros k col. rewrite map_lookup_imap. destruct (attrs t !! k) as [c0|] eqn:E; [|done].
    cbn. intros [= <-]. pose proof (H5 k c0 E).
    destruct (as_ !! k) as [[]|]; rewrite length_app; cbn; lia.
Qed.

(** The vectors and attributes the record brings. *)
Definition brought : gmap string (list float32) := (fun sv => decoded kernels (sdata sv)) <$> staged.
Definition given : gmap string AttributeValue := omap id as_.

Lemma write_row_vecs row row' : named -> (row < numRows t)%nat -> (row' < numRows t)%nat ->
  row_vecs (write_row row t staged as_) row' =
    if decide (row' = row) then brought ∪ row_vecs t row else row_vecs t row'.
Proof.
  intros [Hn _] Hr Hr'. pose proof Hwf as (_ & _ & _ & H4 & _). apply map_eq. intros col.
  unfold row_vecs. cbn. rewrite lookup_omap, map_lookup_imap.
  assert (forall m, (if decide (row' = row) then m ∪ row_vecs t row else row_vecs t row') !! col =
    if decide (row' = row) then m !! col ∪ (vectors t !! col ≫= (fun c => cell c row))
    else vectors t !! col ≫= (fun c => cell c row')) as Hm.
  { intros m. case_decide; rewrite ?lookup_union; unfold row_vecs; by rewrite lookup_omap. }
  unfold row_vecs in Hm. rewrite Hm. unfold brought. rewrite lookup_fmap.
  destruct (vectors t !! col) as [c|] eqn:E; cbn.
  - destruct (staged !! col) as [sv|] eqn:Es; cbn.
    + rewrite (write_col_cell kernels (numRows t)); [|by eapply H4|done|done|by eapply staged_data].
      case_decide; [|done]. by destruct (cell c row).
    + case_decide as Hrow; [|done]. subst row'. by destruct (cell c row).
  - destruct (staged !! col) as [sv|] eqn:Es; [|by case_decide].
    destruct (Hn col sv Es) as [? ?]. congruence.
Qed.

Lemma write_row_attrs row row' : named -> (row < numRows t)%nat ->
  row_attrs (write_row row t staged as_) row' =
    if decide (row' = row) then given ∪ row_attrs t row else row_attrs t row'.
Proof.
  intros [_ Hn] Hr. pose proof Hwf as (_ & _ & _ & _ & H5). apply map_eq. intros k.
  unfold row_attrs. cbn. rewrite lookup_omap, map_lookup_imap.
  assert (forall m, (if decide (row' = row) then m ∪ row_attrs t row else row_attrs t row') !! k =
    if decide (row' = row) then m !! k ∪ (attrs t !! k ≫= (fun c => attr_cell c row))
    else attrs t !! k ≫= (fun c => attr_cell c row')) as Hm.
  { intros m. case_decide; rewrite ?lookup_union; unfold row_attrs; by rewrite lookup_omap. }
  unfold row_attrs in Hm. rewrite Hm. unfold given. rewrite lookup_omap.
  destruct (attrs t !! k) as [c|] eqn:E; cbn.
  - pose proof (H5 k c E). destruct (as_ !! k) as [[a|]|] eqn:Es; cbn.
    + unfold attr_cell. destruct (decide (row' = row)) as [->|?].
      * rewrite list_lookup_insert_eq by lia. by destruct (c !! row) as [[]|].
      * by rewrite list_lookup_insert_ne.
    + case_decide as Hrow; [|done]. subst. by destruct (attr_cell c row).
    + case_decide as Hrow; [|done]. subst. by destruct (attr_cell c row).
  - destruct (as_ !! k) as [[a|]|] eqn:Es; cbn; [|by case_decide..].
    destruct (Hn k a Es) as [? ?]. congruence.
Qed.

Lemma append_row_vecs doc row : named -> (row <= numRows t)%nat ->
  row_vecs (append_row kernels doc t staged as_) row =
    if decide (row = numRows t) then brought else row_vecs t row.
Proof.
  intros [Hn _] Hr. pose proof Hwf as (_ & _ & _ & H4 & _). apply map_eq. intros col.
  unfold row_vecs. cbn. rewrite lookup_omap, map_lookup_imap.
  assert ((if decide (row = numRows t) then brought else row_vecs t row) !! col =
    if decide (row = numRows t) then (fun sv => decoded kernels (sdata sv)) <$> staged !! col
    else vectors t !! col ≫= (fun c => cell c row)) as Hm.
  { case_decide; unfold brought, row_vecs; by rewrite ?lookup_fmap, ?lookup_omap. }
  unfold row_vecs in Hm. rewrite Hm. destruct (vectors t !! col) as [c|] eqn:E; cbn.
  - rewrite (append_col_cell kernels (numRows t)); [done|by eapply H4| |done].
    intros sv Es. by eapply staged_data.
  - destruct (staged !! col) as [sv|] eqn:Es; [|by case_decide].
    destruct (Hn col sv Es) as [? ?]. congruence.
Qed.

Lemma append_row_attrs doc row : named -> (row <= numRows t)%nat ->
  row_attrs (append_row kernels doc t staged as_) row =
    if decide (row = numRows t) then given else row_attrs t row.
Proof.
  intros [_ Hn] Hr. pose proof Hwf as (_ & _ & _ & _ & H5). apply map_eq. intros k.
  unfold row_attrs. cbn. rewrite lookup_omap, map_lookup_imap.
  assert ((if decide (row = numRows t) then given else row_attrs t row) !! k =
    if decide (row = numRows t) then as_ !! k ≫= id else attrs t !! k ≫= (fun c => attr_cell c row)) as Hm.
  { case_decide; unfold given, row_attrs; by rewrite lookup_omap. }
  unfold row_attrs in Hm. rewrite Hm. destruct (attrs t !! k) as [c|] eqn:E; cbn.
  - pose proof (H5 k c E) as Hl.
    assert (forall x, attr_cell (c ++ [x]) row = if decide (row = numRows t) then x else attr_cell c row) as Hx.
    { intros x. unfold attr_cell. case_decide.
      - rewrite lookup_app_r by lia. replace (row - length c)%nat with 0%nat by lia. by destruct x.
      - by rewrite lookup_app_l by lia. }
    destruct (as_ !! k) as [[a|]|]; cbn; by rewrite Hx.
  - destruct (as_ !! k) as [[a|]|] eqn:Es; cbn; [|by case_decide..].
    destruct (Hn k a Es) as [? ?]. congruence.
Qed.

End Steps.

Lemma union_Some {A} (x : A) (o : option A) : Some x ∪ o = Some x.
Proof. by destruct o. Qed.

(** *** New columns, revived rows *)
Section Columns2.
Context (t : Table) (staged : gmap string stagedVector) (as_ : gmap string (option AttributeValue)).
Context (Hwf : wf t) (Hst : staged_ok t staged).
Abbreviation t1 := (with_columns kernels t staged as_).

Lemma with_columns_lookup col : vectors t1 !! col =
  match vectors t !! col with Some c => Some c | None => new_col kernels t <$> staged !! col end.
Proof.
  cbn. rewrite lookup_union, lookup_fmap. destruct (vectors t !! col); [|by destruct (staged !! col)].
  by destruct (_ <$> _).
Qed.

Lemma with_columns_attrs k : attrs t1 !! k =
  match attrs t !! k, as_ !! k with
  | Some col, _ => Some col
  | None, Some (Some _) => Some (replicate (numRows t) None)
  | None, _ => None
  end.
Proof.
  cbn. rewrite lookup_union, lookup_omap. destruct (attrs t !! k), (as_ !! k) as [[]|]; done.
Qed.

Lemma with_columns_ok : wf t1 /\ staged_ok t1 staged /\ named t1 staged as_.
Proof.
  pose proof Hwf as (H1 & H2 & H3 & H4 & H5). split_and!.
  - split_and!; [done|done|done| |].
    + intros col c. rewrite with_columns_lookup. destruct (vectors t !! col) eqn:E.
      * intros [= <-]. by eapply H4.
      * destruct (staged !! col) as [sv|] eqn:Es; [|done]. intros [= <-].
        apply (new_col_wf kernels t). by apply (Hst col sv Es).
    + intros k col. rewrite with_columns_attrs. destruct (attrs t !! k) eqn:E.
      * intros [= <-]. by eapply H5.
      * destruct (as_ !! k) as [[]|]; [|done..]. intros [= <-]. by rewrite length_replicate.
  - intros col sv Es. destruct (Hst col sv Es) as (? & ? & Hd). split_and!; [done|done|].
    intros c. rewrite with_columns_lookup, Es. destruct (vectors t !! col); [|by intros [= <-]].
    intros [= <-]. auto.
  - split; [intros col sv Es; rewrite with_columns_lookup, Es; destruct (vectors t !! col); by eexists|].
    intros k a Es. rewrite with_columns_attrs, Es. destruct (attrs t !! k); by eexists.
Qed.

Lemma with_columns_rows row : row_vecs t1 row = row_vecs t row /\ row_attrs t1 row = row_attrs t row.
Proof.
  split; apply map_eq; intros k; unfold row_vecs, row_attrs; rewrite !lookup_omap.
  - rewrite with_columns_lookup. destruct (vectors t !! k); [done|].
    destruct (staged !! k); [|done]. cbn. apply new_col_cell.
  - rewrite with_columns_attrs. destruct (attrs t !! k); [done|].
    destruct (as_ !! k) as [[]|]; [|done..]. cbn. unfold attr_cell.
    destruct (replicate _ _ !! row) as [[]|] eqn:E; [|done..]. by apply lookup_replicate in E as [? _].
Qed.

Lemma clear_row_rows row row' : (row < numRows t)%nat -> row' <> row ->
  row_vecs (clear_row row t staged as_) row' = row_vecs t row' /\
  row_attrs (clear_row row t staged as_) row' = row_attrs t row'.
Proof.
  intros Hr Hne. pose proof Hwf as (_ & _ & _ & H4 & _).
  split; apply map_eq; intros k; unfold row_vecs, row_attrs; cbn; rewrite !lookup_omap, map_lookup_imap.
  - destruct (vectors t !! k) as [c|] eqn:E; [|done]. cbn. destruct (staged !! k); [done|].
    pose proof (clear_col_cell kernels (numRows t) row row' c (H4 k c E) Hr) as Hc.
    rewrite decide_False in Hc by done. exact Hc.
  - destruct (attrs t !! k) as [c|]; [|done]. cbn. destruct (as_ !! k); [done|].
    unfold attr_cell. by rewrite list_lookup_insert_ne.
Qed.

(** What is left in a revived row is what the record overwrites. *)
Lemma clear_row_vecs row : (row < numRows t)%nat ->
  brought staged ∪ row_vecs (clear_row row t staged as_) row = brought staged.
Proof.
  intros Hr. pose proof Hwf as (_ & _ & _ & H4 & _). apply map_eq. intros k.
  rewrite lookup_union. unfold brought, row_vecs. cbn. rewrite lookup_fmap, lookup_omap, map_lookup_imap.
  destruct (staged !! k) as [sv|] eqn:Es; cbn; [by rewrite union_Some|].
  destruct (vectors t !! k) as [c|] eqn:E; [|done]. cbn.
  pose proof (clear_col_cell kernels (numRows t) row row c (H4 k c E) Hr) as Hc.
  rewrite decide_True in Hc by done. unfold clear_col in Hc. by rewrite Hc.
Qed.

Lemma clear_row_attrs row : (row < numRows t)%nat -> (forall k, as_ !! k <> Some None) ->
  given as_ ∪ row_attrs (clear_row row t staged as_) row = given as_.
Proof.
  intros Hr Hnil. pose proof Hwf as (_ & _ & _ & _ & H5). apply map_eq. intros k. specialize (Hnil k).
  rewrite lookup_union. unfold given, row_attrs. cbn. rewrite !lookup_omap, map_lookup_imap.
  destruct (as_ !! k) as [[a|]|] eqn:Es; cbn; [by rewrite union_Some|done|].
  destruct (attrs t !! k) as [c|] eqn:E; [|done]. cbn. pose proof (H5 k c E).
  unfold attr_cell. by rewrite list_lookup_insert_eq by lia.
Qed.

End Columns2.

(** ** The abstract table: dimensions of the columns and documents *)
Record state := MkState { schema : gmap string nat; docs : gmap string DocRecord }.

Definition stored (v : list float32) : option (list float32) :=
  (fun sv => decoded kernels (sdata sv)) <$> stage_of v.

Definition accepts (st : state) (col : string) (v : list float32) : Prop :=
  v = [] \/ (forall d, schema st !! col = Some d -> length v = d) /\ exists d, stored_data v = Ok d.

(** Upserting merges column by column into the live document, if there is
    one. *)
Definition spec_upsert (st : state) (id : string) (vecs : gmap string (list float32))
    (as_ : gmap string AttributeValue) : state :=
  let old := default (MkRecord id ∅ ∅) (docs st !! id) in
  MkState (schema st ∪ (length <$> filter (fun '(_, v) => v <> []) vecs))
    (<[id := MkRecord id (omap stored vecs ∪ Vectors old) (as_ ∪ Attributes old)]> (docs st)).

Definition abs (t : Table) : state :=
  MkState (dim <$> vectors t) (map_imap (fun id _ => Get kernels t id) (index t)).

Lemma abs_Get t id : docs (abs t) !! id = Get kernels t id.
Proof.
  cbn. rewrite map_lookup_imap. unfold Get. by destruct (index t !! id).
Qed.

Lemma accepts_storable t col v : accepts (abs t) col v <-> storable t col v.
Proof.
  unfold accepts, storable, dim_ok. cbn. rewrite lookup_fmap.
  destruct (vectors t !! col) as [c|]; cbn; [|naive_solver].
  rewrite bool_decide_eq_true. split; (intros [?|[Hd ?]]; [by left|right]); split; try done; [by apply Hd|].
  by intros d [= <-].
Qed.

Lemma brought_stored vecs : brought (omap stage_of vecs) = omap stored vecs.
Proof.
  apply map_eq. intros col. unfold brought, stored. rewrite lookup_fmap, !lookup_omap.
  by destruct (vecs !! col).
Qed.

Lemma given_Some (as_ : gmap string AttributeValue) : given (Some <$> as_) = as_.
Proof.
  apply map_eq. intros k. unfold given. rewrite lookup_omap, lookup_fmap. by destruct (as_ !! k).
Qed.

(** The dimensions, whatever the row. *)
Lemma schema_with_columns t vecs as_ :
  (forall col v, vecs !! col = Some v -> storable t col v) ->
  dim <$> vectors (with_columns kernels t (omap stage_of vecs) as_) =
    schema (abs t) ∪ (length <$> filter (fun '(_, v) => v <> []) vecs).
Proof.
  intros Hst. apply map_eq. intros col. rewrite lookup_fmap, with_columns_lookup, lookup_union.
  cbn. rewrite !lookup_fmap. destruct (vectors t !! col) as [c|]; cbn; [by rewrite union_Some|].
  rewrite lookup_omap, map_lookup_filter. destruct (vecs !! col) as [v|] eqn:Ev; [|done]. cbn.
  unfold stage_of. destruct (decide (v = [])) as [->|Hv].
  - by rewrite option_guard_False by tauto.
  - rewrite option_guard_True by done. destruct (Hst col v Ev) as [?|[_ [d ->]]]; done.
Qed.

Lemma schema_clear row t staged as_ : dim <$> vectors (clear_row row t staged as_) = dim <$> vectors t.
Proof.
  apply map_eq. intros col. cbn. rewrite !lookup_fmap, map_lookup_imap.
  destruct (vectors t !! col); [|done]. cbn. by destruct (staged !! col).
Qed.

Lemma schema_write row t staged as_ : dim <$> vectors (write_row row t staged as_) = dim <$> vectors t.
Proof.
  apply map_eq. intros col. cbn. rewrite !lookup_fmap, map_lookup_imap.
  destruct (vectors t !! col); [|done]. cbn. by destruct (staged !! col).
Qed.

Lemma schema_append doc t staged as_ :
  dim <$> vectors (append_row kernels doc t staged as_) = dim <$> vectors t.
Proof.
  apply map_eq. intros col. cbn. rewrite !lookup_fmap, map_lookup_imap.
  destruct (vectors t !! col); [|done]. cbn. by destruct (staged !! col).
Qed.

(** Clearing a row keeps the columns. *)
Lemma clear_row_named row t staged as_ : staged_ok t staged -> named t staged as_ ->
  staged_ok (clear_row row t staged as_) staged /\ named (clear_row row t staged as_) staged as_.
Proof.
  intros Hst [Hn1 Hn2]. split; [|split].
  - intros col sv Es. destruct (Hst col sv Es) as (? & ? & Hd). split_and!; [done|done|].
    intros c. cbn. rewrite map_lookup_imap, Es. destruct (vectors t !! col); [|done].
    intros [= <-]. auto.
  - intros col sv Es. cbn. rewrite map_lookup_imap. destruct (Hn1 col sv Es) as [c ->]. by eexists.
  - intros k a Es. cbn. rewrite map_lookup_imap. destruct (Hn2 k a Es) as [c ->]. by eexists.
Qed.

Lemma wf_distinct t id id' row row' : wf t -> index t !! id = Some row -> index t !! id' = Some row' ->
  id' <> id -> row' <> row.
Proof. intros (_ & _ & Hi & _) E%Hi E'%Hi Hne ->. congruence. Qed.

(** Writing over an existing row. *)
Lemma upsert_existing t id row vecs as_ : wf t -> index t !! id = Some row ->
  (forall col v, vecs !! col = Some v -> storable t col v) ->
  let staged := omap stage_of vecs in
  let t1 := with_columns kernels t staged (Some <$> as_) in
  let t2 := if default false (tombstones t !! row) then clear_row row t1 staged (Some <$> as_) else t1 in
  let t' := write_row row t2 staged (Some <$> as_) in
  wf t' /\ abs t' = spec_upsert (abs t) id vecs as_.
Proof.
  intros Hwf Hid Hsto staged t1 t2 t'. pose proof (wf_index _ _ _ Hwf Hid) as Hr.
  assert (staged_ok t staged) as Hst.
  { pose proof (stage_spec t vecs) as Hs. destruct (stage kernels t vecs) eqn:Es.
    - destruct Hs as [-> _]. by apply staged_ok_of in Es.
    - destruct Hs as (col & v & E & Hns). by apply Hsto in E. }
  destruct (with_columns_ok t staged (Some <$> as_) Hwf Hst) as (Hwf1 & Hst1 & Hn1). fold t1 in Hwf1, Hst1, Hn1.
  assert (wf t2 /\ staged_ok t2 staged /\ named t2 staged (Some <$> as_)) as (Hwf2 & Hst2 & Hn2).
  { unfold t2. destruct (default _ _); [|done]. split; [by apply clear_row_wf|by apply clear_row_named]. }
  assert (numRows t2 = numRows t /\ index t2 = index t /\ tombstones t2 = tombstones t) as (HR2 & HI2 & HT2)
    by (unfold t2; by destruct (default _ _)).
  split; [apply write_row_wf; [done|done|by rewrite HR2]|].
  unfold abs at 1, spec_upsert. f_equal.
  { unfold t'. rewrite schema_write, <-(schema_with_columns t vecs (Some <$> as_)) by done. fold staged t1.
    unfold t2. destruct (default _ _); [apply schema_clear|done]. }
  apply map_eq. intros id'. change (map_imap _ (index t')) with (docs (abs t')). rewrite abs_Get.
  unfold Get. change (index t') with (index t2). rewrite HI2.
  destruct (decide (id' = id)) as [->|Hne].
  - rewrite lookup_insert_eq, Hid. unfold isTombstoned. cbn [tombstones t' write_row].
    rewrite list_lookup_insert_eq by (destruct Hwf as (_ & Ht & _); rewrite HT2; lia).
    change (default false (Some false)) with false. cbv iota. rewrite recordAt_rows. unfold t'. rewrite write_row_vecs, write_row_attrs by (done || lia).
    rewrite !decide_True by done. rewrite abs_Get. unfold Get. rewrite Hid. unfold isTombstoned, t2.
    destruct (default false (tombstones t !! row)).
    + cbn [from_option Vectors Attributes]. rewrite clear_row_vecs, clear_row_attrs by
        (done || (intros k; rewrite lookup_fmap; by destruct (as_ !! k))).
      unfold staged. by rewrite brought_stored, given_Some, !(right_id_L ∅ (∪)).
    + cbn [from_option Datatypes.id]. rewrite recordAt_rows. cbn [Vectors Attributes].
      unfold t1. destruct (with_columns_rows t staged (Some <$> as_) row) as [-> ->].
      unfold staged. by rewrite brought_stored, given_Some.
  - rewrite lookup_insert_ne, abs_Get by done. unfold Get.
    destruct (index t !! id') as [row'|] eqn:Hid'; [|done].
    pose proof (wf_distinct _ _ _ _ _ Hwf Hid Hid' Hne). pose proof (wf_index _ _ _ Hwf Hid').
    unfold isTombstoned. cbn [tombstones t' write_row]. rewrite list_lookup_insert_ne, HT2 by done.
    case_match; [done|]. f_equal. rewrite !recordAt_rows. unfold t'.
    rewrite write_row_vecs, write_row_attrs, !decide_False by (done || lia).
    destruct (with_columns_rows t staged (Some <$> as_) row') as [Hv Ha].
    unfold t2. destruct (default false (tombstones t !! row)); [|unfold t1; by rewrite Hv, Ha].
    destruct (clear_row_rows t1 staged (Some <$> as_) Hwf1 row row') as [-> ->]; [done..|].
    unfold t1. by rewrite Hv, Ha.
Qed.

(** A new row at the end. *)
Lemma upsert_new t id vecs as_ : wf t -> index t !! id = None ->
  (forall col v, vecs !! col = Some v -> storable t col v) -> staged_ok t (omap stage_of vecs) ->
  let staged := omap stage_of vecs in
  let t1 := with_columns kernels t staged (Some <$> as_) in
  let t' := append_row kernels id t1 staged (Some <$> as_) in
  wf t' /\ abs t' = spec_upsert (abs t) id vecs as_.
Proof.
  intros Hwf Hid Hsto Hst staged t1 t'.
  destruct (with_columns_ok t staged (Some <$> as_) Hwf Hst) as (Hwf1 & Hst1 & Hn1). fold t1 in Hwf1, Hst1, Hn1.
  split; [by apply append_row_wf|]. unfold abs at 1, spec_upsert. f_equal.
  { unfold t'. rewrite schema_append, <-(schema_with_columns t vecs (Some <$> as_)) by done. done. }
  pose proof Hwf as (_ & Ht & _).
  assert (docs (abs t) !! id = None) as Hold by (rewrite abs_Get; unfold Get; by rewrite Hid).
  apply map_eq. intros id'. change (map_imap _ (index t')) with (docs (abs t')). rewrite abs_Get, Hold.
  cbn [from_option Datatypes.id Vectors Attributes].
  rewrite !(right_id_L ∅ (∪)). unfold Get. change (index t') with (<[id := numRows t]> (index t)).
  unfold isTombstoned. change (tombstones t') with (tombstones t ++ [false]).
  destruct (decide (id' = id)) as [->|Hne].
  - rewrite !lookup_insert_eq, lookup_app_r, Ht, Nat.sub_diag by lia. cbn. rewrite recordAt_rows. unfold t'.
    rewrite append_row_vecs, append_row_attrs by done. cbn [numRows t1 with_columns].
    rewrite !decide_True by done. unfold staged. by rewrite brought_stored, given_Some.
  - rewrite !lookup_insert_ne, abs_Get by done. unfold Get.
    destruct (index t !! id') as [row'|] eqn:Hid'; [|done]. pose proof (wf_index _ _ _ Hwf Hid') as Hr.
    rewrite lookup_app_l by lia. unfold isTombstoned. case_match; [done|]. f_equal.
    rewrite !recordAt_rows. unfold t'.
    rewrite append_row_vecs, append_row_attrs by (done || (cbn; lia)). cbn [numRows t1 with_columns].
    rewrite !decide_False by lia. unfold t1.
    by destruct (with_columns_rows t staged (Some <$> as_) row') as [-> ->].
Qed.

Lemma Upsert_refines t id vecs as_ : wf t ->
  match Upsert kernels t id vecs (Some <$> as_) with
  | Ok t' => id <> "" /\ (forall col v, vecs !! col = Some v -> accepts (abs t) col v) /\
      wf t' /\ abs t' = spec_upsert (abs t) id vecs as_
  | Err _ => id = "" \/ exists col v, vecs !! col = Some v /\ ~ accepts (abs t) col v
  end.
Proof.
  intros Hwf. unfold Upsert. case_decide as Hid; [by left|].
  pose proof (stage_spec t vecs) as Hs. destruct (stage kernels t vecs) as [staged|e] eqn:Es; cbn.
  - pose proof (staged_ok_of _ _ _ Es) as Hst. destruct Hs as [-> Hsto].
    assert (forall col v, vecs !! col = Some v -> accepts (abs t) col v)
      by (intros col v E; apply accepts_storable; auto).
    destruct (index t !! id) as [row|] eqn:Ei.
    + destruct (upsert_existing t id row vecs as_ Hwf Ei Hsto) as [? ?]. done.
    + destruct (upsert_new t id vecs as_ Hwf Ei Hsto Hst) as [? ?]. done.
  - right. destruct Hs as (col & v & E & Hns). exists col, v. by rewrite accepts_storable.
Qed.

Lemma Delete_refines t id : wf t ->
  let '(b, t') := Delete t id in
  wf t' /\ abs t' = MkState (schema (abs t)) (delete id (docs (abs t))) /\
  (b = true <-> is_Some (docs (abs t) !! id)).
Proof.
  intros Hwf. unfold Delete. rewrite abs_Get. unfold Get.
  assert (forall t', wf t' -> Get kernels t' id = None ->
    abs t' = MkState (schema (abs t')) (delete id (docs (abs t')))) as Hnone.
  { intros t' _ E. rewrite delete_id; [done|]. by rewrite abs_Get. }
  destruct (index t !! id) as [row|] eqn:Ei.
  2: { split; [done|]. split; [|split; [done|by intros [? ?]]]. apply Hnone; [done|]. unfold Get. by rewrite Ei. }
  unfold isTombstoned. destruct (default false (tombstones t !! row)) eqn:Et.
  { split; [done|]. split; [|split; [done|by intros [? ?]]]. apply Hnone; [done|]. unfold Get, isTombstoned.
    by rewrite Ei, Et. }
  pose proof Hwf as (H1 & H2 & H3 & H4 & H5). pose proof (wf_index _ _ _ Hwf Ei) as Hr.
  split; [|split; [|split; by eauto]].
  - split_and!; [done|cbn; by rewrite length_insert|done..].
  - unfold abs at 1. f_equal. apply map_eq. intros id'.
    change (map_imap _ _) with (docs (abs (MkTable (numRows t) (docIDs t) (index t) (<[row := true]> (tombstones t))
      (vectors t) (attrs t)))).
    rewrite abs_Get, lookup_delete, abs_Get. unfold Get, isTombstoned. cbn [index tombstones].
    destruct (decide (id = id')) as [<-|Hne].
    + rewrite Ei, list_lookup_insert_eq by lia. done.
    + destruct (index t !! id') as [row'|] eqn:Ei'; [|done].
      rewrite list_lookup_insert_ne; [done|]. symmetry. by eapply wf_distinct.
Qed.

Lemma NewTable_refines : wf NewTable /\ abs NewTable = MkState ∅ ∅.
Proof.
  split; [|done]. split_and!; try done.
Qed.

Lemma Clone_id t : Clone t = t.
Proof.
  destruct t as [n ids ix ts vs ats]. unfold Clone. cbn. f_equal; apply map_eq; intros k; rewrite lookup_fmap.
  - by destruct (vs !! k) as [[]|].
  - destruct (ats !! k); [|done]. cbn. by rewrite map_id.
Qed.

(** ** Sequences of operations *)
Inductive table_op :=
  | TUpsert (id : string) (vecs : gmap string (list float32)) (as_ : gmap string AttributeValue)
  | TDelete (id : string).

(** Whether the operation reported success, and the table after it. *)
Definition table_step (t : Table) (o : table_op) : bool * Table :=
  match o with
  | TUpsert id vecs as_ => match Upsert kernels t id vecs (Some <$> as_) with
                           | Ok t' => (true, t')
                           | Err _ => (false, t)
                           end
  | TDelete id => Delete t id
  end.

Fixpoint table_run (t : Table) (ops : list table_op) : list bool * Table :=
  match ops with
  | [] => ([], t)
  | o :: ops => let '(b, t) := table_step t o in let '(bs, t) := table_run t ops in (b :: bs, t)
  end.

(** The specification. *)
Inductive spec_step : state -> table_op -> bool -> state -> Prop :=
  | SpecUpsert st id vecs as_ :
      id <> "" -> (forall col v, vecs !! col = Some v -> accepts st col v) ->
      spec_step st (TUpsert id vecs as_) true (spec_upsert st id vecs as_)
  | SpecReject st id vecs as_ :
      id = "" \/ (exists col v, vecs !! col = Some v /\ ~ accepts st col v) ->
      spec_step st (TUpsert id vecs as_) false st
  | SpecDelete st id r :
      docs st !! id = Some r ->
      spec_step st (TDelete id) true (MkState (schema st) (delete id (docs st)))
  | SpecMissing st id :
      docs st !! id = None -> spec_step st (TDelete id) false st.

Inductive spec_run : state -> list table_op -> list bool -> state -> Prop :=
  | SpecNil st : spec_run st [] [] st
  | SpecCons st o b st' ops bs st'' :
      spec_step st o b st' -> spec_run st' ops bs st'' -> spec_run st (o :: ops) (b :: bs) st''.

Lemma table_step_refines t o b t' : wf t -> table_step t o = (b, t') ->
  wf t' /\ spec_step (abs t) o b (abs t').
Proof.
  intros Hwf. destruct o as [id vecs as_|id]; cbn [table_step].
  - pose proof (Upsert_refines t id vecs as_ Hwf) as Hu. destruct (Upsert _ _ _ _ _) as [t1|e].
    + intros [= <- <-]. destruct Hu as (? & ? & ? & ->). split; [done|by constructor].
    + intros [= <- <-]. split; [done|by constructor].
  - intros E. pose proof (Delete_refines t id Hwf) as Hd. rewrite E in Hd. destruct Hd as (? & Ha & Hb).
    split; [done|]. destruct b.
    + destruct (proj1 Hb eq_refl) as [r Hr]. rewrite Ha. by econstructor.
    + assert (docs (abs t) !! id = None) as Hn.
      { destruct (docs (abs t) !! id) eqn:Ed; [|done]. by destruct Hb as [_ Hb]; discriminate Hb. }
      rewrite Ha, delete_id by done. destruct (abs t) eqn:Eab. by constructor.
Qed.

Lemma table_run_refines t ops bs t' : wf t -> table_run t ops = (bs, t') ->
  wf t' /\ spec_run (abs t) ops bs (abs t').
Proof.
  revert t bs. induction ops as [|o ops IH]; intros t bs Hwf; cbn [table_run].
  { intros [= <- <-]. split; [done|constructor]. }
  destruct (table_step t o) as [b t1] eqn:E1. destruct (table_run t1 ops) as [bs1 t2] eqn:E2.
  intros [= <- <-]. destruct (table_step_refines _ _ _ _ Hwf E1) as [Hwf1 Hs].
  destruct (IH _ _ Hwf1 E2) as [? ?]. split; [done|by econstructor].
Qed.

End Wf.

(** ** Claims *)

(** C9. The table refines a map of documents: starting empty, after any
    sequence of [Upsert]s, whose attribute values are not nil (those of a
    decoded record never are; see [revive_nil_attribute]), and [Delete]s
    (accepted or rejected) the columns are well formed, the outcomes reported are those of the specification, and
    [Get] of every id returns the specification's document.  An upsert merges
    column by column into a live document, replaces a deleted one whole, and
    is rejected, without any effect, exactly when the id is empty or a vector
    has the wrong dimension for its column (or does not fit half precision). *)
Theorem table_refines kernels ops bs t : table_run kernels NewTable ops = (bs, t) ->
  wf kernels t /\
  exists st, spec_run kernels (MkState ∅ ∅) ops bs st /\ forall id, Get kernels t id = docs st !! id.
Proof.
  intros E. destruct (NewTable_refines kernels) as [Hwf Ha].
  destruct (table_run_refines kernels _ _ _ _ Hwf E) as [Hwf' Hs]. rewrite Ha in Hs.
  split; [done|]. exists (abs kernels t). split; [done|]. intros id. by rewrite abs_Get.
Qed.

(** Reviving a deleted document with a nil attribute brings the deleted
    value back: every attribute the new record does not have is cleared, but
    one it has with a nil value is neither cleared nor set. *)
Theorem revive_nil_attribute kernels t id row k col v :
  wf kernels t -> id <> "" -> index t !! id = Some row -> tombstones t !! row = Some true ->
  attrs t !! k = Some col -> col !! row = Some (Some v) ->
  Get kernels t id = None /\
  exists t', Upsert kernels t id ∅ {[ k := None ]} = Ok t' /\
    exists rec, Get kernels t' id = Some rec /\ Attributes rec !! k = Some v.
Proof.
  intros Hwf Hid Hi Ht Hk Hv. split.
  { unfold Get, isTombstoned. by rewrite Hi, Ht. }
  unfold Upsert. rewrite decide_False by done. unfold stage. rewrite map_fold_empty. cbn [mbind res_bind].
  change (index (with_columns kernels t ∅ {[k := None]})) with (index t). rewrite Hi.
  change (tombstones (with_columns kernels t ∅ {[k := None]})) with (tombstones t). rewrite Ht.
  change (default false (Some true)) with true. cbv iota. eexists. split; [done|].
  unfold Get. cbn [index write_row clear_row with_columns]. rewrite Hi. unfold isTombstoned.
  cbn [tombstones write_row clear_row with_columns].
  rewrite list_lookup_insert_eq by (apply lookup_lt_Some in Ht; lia).
  eexists. split; [done|]. cbn. rewrite lookup_omap, !map_lookup_imap, lookup_union, Hk.
  rewrite union_Some. cbn. rewrite lookup_singleton_eq. cbn. by rewrite Hv.
Qed.

(** ** Witnesses *)
Definition ex_ops : list table_op :=
  [TUpsert "a" {[ "v" := [fone; fzero] ]} {[ "k" := StringValue "x" ]};
   TUpsert "b" {[ "v" := [fone] ]} ∅; TDelete "a"; TUpsert "a" {[ "v" := [fzero; fone] ]} ∅].

Definition ex_table : Table := (table_run pureKernels NewTable (take 3 ex_ops)).2.

Lemma table_refines_witness : exists t, table_run pureKernels NewTable ex_ops = ([true; false; true; true], t) /\
  exists st, spec_run pureKernels (MkState ∅ ∅) ex_ops [true; false; true; true] st /\
    Get pureKernels t "a" = docs st !! "a".
Proof.
  assert ((table_run pureKernels NewTable ex_ops).1 = [true; false; true; true]) as E
    by (vm_compute; reflexivity).
  destruct (table_run pureKernels NewTable ex_ops) as [bs t] eqn:Er. cbn [fst] in E. subst bs.
  destruct (table_refines pureKernels ex_ops _ t Er) as (_ & st & Hs & Hg).
  exists t. split; [reflexivity|]. exists st. split; [exact Hs|apply Hg].
Defined.

Lemma ex_table_wf : wf pureKernels ex_table.
Proof.
  destruct (table_run pureKernels NewTable (take 3 ex_ops)) as [bs t] eqn:E.
  replace ex_table with t by (unfold ex_table; by rewrite E).
  eapply (table_run_refines pureKernels NewTable (take 3 ex_ops)); [apply NewTable_refines|exact E].
Qed.

Lemma revive_nil_attribute_witness :
  exists t', Upsert pureKernels ex_table "a" ∅ {[ "k" := None ]} = Ok t' /\
    exists rec, Get pureKernels t' "a" = Some rec /\ Attributes rec !! "k" = Some (StringValue "x").
Proof.
  apply (revive_nil_attribute pureKernels ex_table "a" 0 "k" [Some (StringValue "x")] (StringValue "x")).
  - exact ex_table_wf.
  - discriminate.
  - vm_compute. reflexivity.
  - vm_compute. reflexivity.
  - vm_compute. reflexivity.
  - reflexivity.
Defined.
