(* ===== verification/Search.v ===== *)
(** * query: top-k search

    [Table.Search] of src/query/table.go, with [container/heap] as the
    standard library has it ([heap.Push], [heap.Fix]).  The kernels and the
    metric are arguments; [time.Now] is not modelled.  [slices.SortFunc] is a
    merge sort by [cmp]: it leaves open, and the theorems do not use, the
    order of hits that compare equal. *)

From S2P Require Import Prelude GoStr ObjectStore Float32 Vector Table.
From Stdlib Require Import Floats.SpecFloat.
Local Open Scope Z_scope.

Inductive DistanceMetric := DISTANCE_METRIC_UNSPECIFIED | COSINE | EUCLIDEAN_SQUARED | DOT_PRODUCT
  | Metric_other (n : Z).
Record EqualityFilter := MkFilter { Field : string; FValue : option AttributeValue }.
Record ScoredRecord := MkScored { Record_ : DocRecord; Score : float32 }.

Record searchHit := MkHit { row : nat; hid : string; score : float32 }.

(** ** cmp.Compare, strings.Compare *)
Definition cmp_Compare (x y : float32) : comparison :=
  if is_nan x then (if is_nan y then Eq else Lt)
  else if is_nan y then Gt
  else if flt x y then Lt else if flt y x then Gt else Eq.

Definition cmpAsc (a b : searchHit) : comparison :=
  if negb (feq (score a) (score b)) then cmp_Compare (score a) (score b)
  else String.compare (hid a) (hid b).
Definition cmpDesc (a b : searchHit) : comparison :=
  if negb (feq (score a) (score b)) then cmp_Compare (score b) (score a)
  else String.compare (hid a) (hid b).

(** ** container/heap over [hitHeap] *)
Section Heap.
Context (cmp : searchHit -> searchHit -> comparison).

(** [Less]: the root is the worst hit. *)
Definition less (a b : searchHit) : bool := bool_decide (cmp a b = Gt).
Definition Less (h : list searchHit) (i j : nat) : bool :=
  match h !! i, h !! j with Some a, Some b => less a b | _, _ => false end.
Definition Swap (h : list searchHit) (i j : nat) : list searchHit :=
  match h !! i, h !! j with Some a, Some b => <[i := b]> (<[j := a]> h) | _, _ => h end.

Definition parent (j : nat) : nat := (j - 1) / 2.

Fixpoint up (fuel : nat) (h : list searchHit) (j : nat) : list searchHit :=
  match fuel with
  | O => h
  | S fuel =>
    let i := parent j in
    if bool_decide (i = j) || negb (Less h j i) then h else up fuel (Swap h i j) i
  end.

(** Also whether the element moved. *)
Fixpoint down (fuel : nat) (h : list searchHit) (i n : nat) : list searchHit * nat :=
  match fuel with
  | O => (h, i)
  | S fuel =>
    let j1 := (2 * i + 1)%nat in
    if decide (n <= j1)%nat then (h, i) else
    let j2 := (j1 + 1)%nat in
    let j := if decide (j2 < n)%nat then (if Less h j2 j1 then j2 else j1) else j1 in
    if negb (Less h j i) then (h, i) else down fuel (Swap h i j) j n
  end.

Definition heap_Push (h : list searchHit) (x : searchHit) : list searchHit :=
  let h := h ++ [x] in up (length h) h (length h - 1).

Definition heap_Fix (h : list searchHit) (i : nat) : list searchHit :=
  let '(h', i') := down (length h) h i (length h) in
  if decide (i < i')%nat then h' else up (length h') h' i.

End Heap.

(** ** Search *)
Section Searching.
Context (kernels : Kernels).

Definition dot_of (query : list float32) (d : coldata) : float32 :=
  match d with
  | D32 v => Dot kernels query v
  | D16 h => match Half kernels with Some k => Dot16 k query h | None => fzero end
  end.
Definition l2_of (query : list float32) (d : coldata) : float32 :=
  match d with
  | D32 v => L2 kernels query v
  | D16 h => match Half kernels with Some k => L216 k query h | None => fzero end
  end.

(** The score of a row, [None] for a row that is skipped. *)
Definition row_score (metric : DistanceMetric) (query : list float32) (invQ : float32)
    (vCol : flatVectorCol) (row : nat) : option float32 :=
  let d := row_data row vCol in
  match metric with
  | COSINE =>
    let invNorm := default fzero (invNorms vCol !! row) in
    if feq invNorm fzero then None else
    let sim := fmul (fmul (dot_of query d) invQ) invNorm in
    Some (fsub fone (clamp sim))
  | EUCLIDEAN_SQUARED => Some (l2_of query d)
  | DOT_PRODUCT => Some (dot_of query d)
  | _ => Some fzero
  end.

(** The filter: [None] when there is none, else the column and the value.
    [proto.Equal] of a stored value with a nil one is false. *)
Definition passes (filter : option (list (option AttributeValue) * option AttributeValue)) (row : nat) : bool :=
  match filter with
  | None => true
  | Some (col, v) => match col !! row with
                     | Some (Some a) => bool_decide (Some a = v)
                     | _ => false
                     end
  end.

(** One iteration: the row's hit, [None] if it is skipped. *)
Definition candidate (t : Table) (metric : DistanceMetric) (query : list float32) (invQ : float32)
    (vCol : flatVectorCol) (filter : option (list (option AttributeValue) * option AttributeValue))
    (row : nat) : option searchHit :=
  if default false (tombstones t !! row) || negb (default false (hasVec vCol !! row)) then None
  else if negb (passes filter row) then None
  else match row_score metric query invQ vCol row with
       | None => None
       | Some s => Some (MkHit row (default "" (docIDs t !! row)) s)
       end.

(** Adding a hit to the best [topK]. *)
Definition offer (cmp : searchHit -> searchHit -> comparison) (isDesc : bool) (topK : nat)
    (h : list searchHit) (cand : searchHit) : list searchHit :=
  let full := bool_decide (length h = topK) in
  let worse := match h !! 0%nat with
               | Some root => if isDesc then flt (score cand) (score root) else flt (score root) (score cand)
               | None => false
               end in
  if full && worse then h
  else if decide (length h < topK)%nat then heap_Push cmp h cand
  else match h !! 0%nat with
       | Some root => if decide (cmp cand root = Lt) then heap_Fix cmp (<[0%nat := cand]> h) 0 else h
       | None => h
       end.

Fixpoint scan (t : Table) (metric : DistanceMetric) (query : list float32) (invQ : float32)
    (vCol : flatVectorCol) (filter : option (list (option AttributeValue) * option AttributeValue))
    (cmp : searchHit -> searchHit -> comparison) (isDesc : bool) (topK : nat)
    (rows : list nat) (h : list searchHit) : list searchHit :=
  match rows with
  | [] => h
  | row :: rows =>
    scan t metric query invQ vCol filter cmp isDesc topK rows
      (match candidate t metric query invQ vCol filter row with
       | None => h
       | Some cand => offer cmp isDesc topK h cand
       end)
  end.

(** [slices.SortFunc] *)
Definition cmp_le (cmp : searchHit -> searchHit -> comparison) (a b : searchHit) : Prop := cmp a b <> Gt.
#[local] Instance cmp_le_dec cmp a b : Decision (cmp_le cmp a b).
Proof. unfold cmp_le. apply _. Defined.
Definition SortFunc (cmp : searchHit -> searchHit -> comparison) (h : list searchHit) : list searchHit :=
  merge_sort (cmp_le cmp) h.

(** The metric's inverse query norm, comparison and direction. *)
Definition metric_setup (metric : DistanceMetric) (query : list float32)
  : res (float32 * (searchHit -> searchHit -> comparison) * bool) :=
  match metric with
  | COSINE =>
    let invQ := vectorInvNorm query in
    if feq invQ fzero then Err ErrZeroVector else Ok (invQ, cmpAsc, false)
  | EUCLIDEAN_SQUARED => Ok (fzero, cmpAsc, false)
  | DOT_PRODUCT => Ok (fzero, cmpDesc, true)
  | _ => Err (Msg "query: unknown metric")
  end.

(** [t.attrs[filter.Field]]: [None] when the table has no such column. *)
Definition filter_column (t : Table) (filter : option EqualityFilter)
  : option (option (list (option AttributeValue) * option AttributeValue)) :=
  match filter with
  | None => Some None
  | Some f => match attrs t !! Field f with
              | None => None
              | Some colAttrs => Some (Some (colAttrs, FValue f))
              end
  end.

Definition materialize (t : Table) (hit : searchHit) : ScoredRecord :=
  MkScored (recordAt kernels t (row hit) (hid hit)) (score hit).

Definition Search (t : Table) (col : string) (query : list float32) (topK : Z)
    (metric : DistanceMetric) (filter : option EqualityFilter) : res (list ScoredRecord) :=
  if decide (topK <= 0) then Ok [] else
  match vectors t !! col with
  | None => Ok []
  | Some vCol =>
    if decide (numRows t = 0%nat) then Ok [] else
    if decide (length query <> dim vCol) then Err ErrDimensionMismatch else
    '(invQ, cmp, isDesc) ← metric_setup metric query;
    match filter_column t filter with
    | None => Ok []
    | Some filterAttrs =>
      let h := scan t metric query invQ vCol filterAttrs cmp isDesc (Z.to_nat topK) (seq 0 (numRows t)) [] in
      Ok (materialize t <$> SortFunc cmp h)
    end
  end.

(** ** The reference: sort every candidate, take the first [topK] *)
Definition search_ref (t : Table) (col : string) (query : list float32) (topK : Z)
    (metric : DistanceMetric) (filter : option EqualityFilter) : res (list ScoredRecord) :=
  match vectors t !! col, filter_column t filter with
  | Some vCol, fc =>
    if decide (topK <= 0 \/ numRows t = 0%nat) then Ok [] else
    if decide (length query <> dim vCol) then Err ErrDimensionMismatch else
    '(invQ, cmp, _) ← metric_setup metric query;
    match fc with
    | None => Ok []
    | Some fa =>
      let all := omap (candidate t metric query invQ vCol fa) (seq 0 (numRows t)) in
      Ok (materialize t <$> take (Z.to_nat topK) (SortFunc cmp all))
    end
  | None, _ => Ok []
  end.

End Searching.

(** ** Comparison functions *)
Class Compares {A} (f : A -> A -> comparison) : Prop := {
  compares_opp a b : f b a = CompOpp (f a b);
  compares_trans a b c : f a b <> Gt -> f b c <> Gt -> f a c <> Gt;
}.

#[export] Instance Z_compares : Compares Z.compare.
Proof. split; [intros; apply Z.compare_antisym|]. intros a b c. rewrite !Z.compare_le_iff. lia. Qed.

#[export] Instance string_compares : Compares String.compare.
Proof.
  split; [intros; apply String.compare_antisym|]. intros a b c H1 H2 H3.
  assert (str_lt c a) as Hca by (unfold str_lt; by rewrite String.compare_antisym, H3).
  destruct (str_lt_trichotomy a b) as [H|[->|H]].
  - apply H2. rewrite String.compare_antisym. by rewrite (str_lt_trans _ _ _ Hca H).
  - done.
  - apply H1. by rewrite String.compare_antisym, H.
Qed.

(** First by [f], then by [g]. *)
Definition lex {A} (f g : A -> A -> comparison) (a b : A) : comparison :=
  match f a b with Eq => g a b | c => c end.

Lemma lex_compares {A} (f g : A -> A -> comparison) `{!Compares f, !Compares g} :
  Compares (lex f g).
Proof.
  split.
  - intros a b. unfold lex. rewrite (compares_opp a b). destruct (f a b); [apply compares_opp|done..].
  - intros a b c. unfold lex. pose proof (compares_trans (f := f) a b c) as Ht.
    pose proof (compares_trans (f := f) c a b) as H1. pose proof (compares_trans (f := f) b c a) as H2.
    pose proof (compares_trans (f := g) a b c).
    rewrite (compares_opp (f := f) a c), (compares_opp (f := f) b c) in H1. rewrite (compares_opp (f := f) a c), (compares_opp (f := f) a b) in H2.
    destruct (f a b), (f b c), (f a c); cbn in *; try done; exfalso;
      first [by apply Ht|by apply H1|by apply H2].
Qed.

Lemma map_compares {A B} (h : A -> B) (f : B -> B -> comparison) `{!Compares f} :
  Compares (fun a b => f (h a) (h b)).
Proof. split; [intros; apply compares_opp|intros a b c; apply compares_trans]. Qed.

Lemma flip_compares {A} (f : A -> A -> comparison) `{!Compares f} : Compares (fun a b => f b a).
Proof. split; [intros; apply compares_opp|]. intros a b c H1 H2. by apply (compares_trans c b a). Qed.

(** The order of floats as numbers: class, exponent, mantissa; NaN first. *)
Definition rank (x : float32) : Z * Z * Z :=
  match x with
  | S754_nan => (-3, 0, 0)
  | S754_infinity true => (-2, 0, 0)
  | S754_finite true m e => (-1, - e, - Z.pos m)
  | S754_zero _ => (0, 0, 0)
  | S754_finite false m e => (1, e, Z.pos m)
  | S754_infinity false => (2, 0, 0)
  end.

Definition rank_compare (x y : float32) : comparison :=
  lex (lex (fun x y => (rank x).1.1 ?= (rank y).1.1) (fun x y => (rank x).1.2 ?= (rank y).1.2))
    (fun x y => (rank x).2 ?= (rank y).2) x y.

#[export] Instance rank_compares : Compares rank_compare.
Proof.
  unfold rank_compare. apply lex_compares; [apply lex_compares|].
  - apply (map_compares (fun x => (rank x).1.1) Z.compare).
  - apply (map_compares (fun x => (rank x).1.2) Z.compare).
  - apply (map_compares (fun x => (rank x).2) Z.compare).
Qed.

Lemma SFcompare_rank x y : is_nan x = false -> is_nan y = false -> SFcompare x y = Some (rank_compare x y).
Proof.
  unfold rank_compare, lex. destruct x as [?|sx| |sx mx ex], y as [?|sy| |sy my ey]; try done; intros _ _;
    try destruct sx; try destruct sy; try done; cbn.
  - rewrite Z.compare_opp. destruct (ey ?= ex) eqn:E; rewrite Z.compare_antisym, E; done.
Qed.

Lemma cmp_Compare_rank x y : cmp_Compare x y = rank_compare x y.
Proof.
  unfold cmp_Compare, flt, SFltb. destruct (is_nan x) eqn:Ex, (is_nan y) eqn:Ey.
  - by destruct x, y.
  - destruct x; try done. destruct y as [?|[]| |[]]; done.
  - destruct y; try done. destruct x as [?|[]| |[]]; done.
  - rewrite !SFcompare_rank by done. rewrite (compares_opp (f := rank_compare) x y). by destruct (rank_compare x y).
Qed.

Lemma feq_rank x y : feq x y = negb (is_nan x) && negb (is_nan y) && bool_decide (rank_compare x y = Eq).
Proof.
  unfold feq, SFeqb. destruct (is_nan x) eqn:Ex; [by destruct x|].
  destruct (is_nan y) eqn:Ey; [destruct x, y; done|]. rewrite SFcompare_rank by done.
  by destruct (rank_compare x y).
Qed.

(** The id decides between equal scores, but not between NaNs. *)
Definition tie (a b : searchHit) : comparison :=
  String.compare (if is_nan (score a) then "" else hid a) (if is_nan (score b) then "" else hid b).

#[export] Instance tie_compares : Compares tie.
Proof. unfold tie. apply (map_compares (fun a => if is_nan (score a) then "" else hid a) String.compare). Qed.

Lemma rank_eq_nan x y : rank_compare x y = Eq -> is_nan x = is_nan y.
Proof. destruct x as [?|[]| |[]], y as [?|[]| |[]]; done. Qed.

Lemma cmpAsc_lex a b : cmpAsc a b = lex (fun a b => rank_compare (score a) (score b)) tie a b.
Proof.
  unfold cmpAsc, lex, tie. rewrite feq_rank, cmp_Compare_rank.
  destruct (rank_compare (score a) (score b)) eqn:E.
  - apply rank_eq_nan in E as ->. by destruct (is_nan (score b)).
  - by rewrite bool_decide_eq_false_2, andb_false_r.
  - by rewrite bool_decide_eq_false_2, andb_false_r.
Qed.

Lemma cmpDesc_lex a b : cmpDesc a b = lex (fun a b => rank_compare (score b) (score a)) tie a b.
Proof.
  unfold cmpDesc, lex, tie. rewrite feq_rank, cmp_Compare_rank.
  rewrite (compares_opp (f := rank_compare) (score a) (score b)).
  destruct (rank_compare (score a) (score b)) eqn:E; cbn.
  - apply rank_eq_nan in E as ->. by destruct (is_nan (score b)).
  - by rewrite andb_false_r.
  - by rewrite andb_false_r.
Qed.

Lemma compares_ext {A} (f g : A -> A -> comparison) `{!Compares g} : (forall a b, f a b = g a b) -> Compares f.
Proof. intros E. split; intros *; rewrite !E; [apply compares_opp|apply compares_trans]. Qed.

#[export] Instance cmpAsc_compares : Compares cmpAsc.
Proof.
  apply (compares_ext _ _ (Compares0 := lex_compares _ _ (Compares0 := map_compares score rank_compare) (Compares1 := tie_compares))).
  apply cmpAsc_lex.
Qed.

#[export] Instance cmpDesc_compares : Compares cmpDesc.
Proof.
  apply (compares_ext _ _ (Compares0 := lex_compares _ _ (Compares0 := flip_compares _ (Compares0 := map_compares score rank_compare)) (Compares1 := tie_compares))).
  apply cmpDesc_lex.
Qed.

(** ** The heap *)
Section HeapProofs.
Context (cmp : searchHit -> searchHit -> comparison) `{!Compares cmp}.
Abbreviation le := (cmp_le cmp).
Abbreviation Less := (Less cmp).
Abbreviation up := (up cmp).
Abbreviation down := (down cmp).

#[local] Instance le_trans : Transitive le.
Proof. intros a b c. apply compares_trans. Qed.

Lemma le_total a b : le a b \/ le b a.
Proof. unfold cmp_le. rewrite (compares_opp (f := cmp) a b). destruct (cmp a b); cbn; [by left|by left|by right]. Qed.

Lemma le_refl a : le a a.
Proof. by destruct (le_total a a). Qed.

Lemma not_less_le a b : less cmp a b = false -> le a b.
Proof. unfold less, cmp_le. by rewrite bool_decide_eq_false. Qed.

Lemma less_le a b : less cmp a b = true -> le b a.
Proof. unfold less, cmp_le. rewrite bool_decide_eq_true, (compares_opp (f := cmp) a b). by intros ->. Qed.

(** A hit is not worse than its parent. *)
Definition edge (h : list searchHit) (i : nat) : Prop :=
  forall a b, h !! i = Some a -> h !! parent i = Some b -> le a b.
Definition heap (h : list searchHit) : Prop := forall i, (0 < i)%nat -> edge h i.

Lemma parent_lt i : (0 < i)%nat -> (parent i < i)%nat.
Proof. intros Hi. unfold parent. apply Nat.Div0.div_lt_upper_bound. lia. Qed.

Lemma parent_children i k : (0 < k)%nat -> parent k = i <-> k = (2 * i + 1)%nat \/ k = (2 * i + 2)%nat.
Proof.
  intros Hk. unfold parent. pose proof (Nat.div_mod (k - 1) 2). pose proof (Nat.mod_upper_bound (k - 1) 2). lia.
Qed.

Lemma lookup_Swap h i j a b k : h !! i = Some a -> h !! j = Some b -> i <> j ->
  Swap h i j !! k = if decide (k = i) then Some b else if decide (k = j) then Some a else h !! k.
Proof.
  intros Hi Hj Hne. unfold Swap. rewrite Hi, Hj.
  pose proof (lookup_lt_Some _ _ _ Hi). pose proof (lookup_lt_Some _ _ _ Hj).
  repeat case_decide; subst.
  - by rewrite list_lookup_insert_eq by (rewrite length_insert; lia).
  - rewrite list_lookup_insert_ne, list_lookup_insert_eq by (done || lia). done.
  - by rewrite !list_lookup_insert_ne by congruence.
Qed.

Lemma length_Swap h i j : length (Swap h i j) = length h.
Proof. unfold Swap. destruct (h !! i), (h !! j); rewrite ?length_insert; done. Qed.

Lemma Swap_perm h i j : Swap h i j ≡ₚ h.
Proof.
  unfold Swap. destruct (h !! i) as [a|] eqn:Hi, (h !! j) as [b|] eqn:Hj; [|done..].
  by apply Permutation_insert_swap.
Qed.

(** [up] repairs the edge above [j]. *)
Lemma up_heap fuel h j : (j < length h)%nat -> (j < fuel)%nat ->
  (forall k, (0 < k)%nat -> k <> j -> edge h k) ->
  (forall k a b, (0 < j)%nat -> (0 < k)%nat -> parent k = j ->
     h !! k = Some a -> h !! parent j = Some b -> le a b) ->
  heap (up fuel h j) /\ up fuel h j ≡ₚ h.
Proof.
  revert h j. induction fuel as [|fuel IH]; intros h j Hj Hf He Hc; [lia|]. cbn [Search.up].
  destruct (decide (parent j = j)) as [Hp|Hp].
  { rewrite bool_decide_eq_true_2 by done. cbn [orb]. split; [|done]. intros k Hk. apply He; [done|].
    intros ->. pose proof (parent_lt j Hk). lia. }
  assert (0 < j)%nat as Hj0 by (destruct j; [done|lia]). pose proof (parent_lt j Hj0) as Hpj.
  rewrite bool_decide_eq_false_2 by done. cbn [orb].
  destruct (lookup_lt_is_Some_2 h j Hj) as [a Ha].
  destruct (lookup_lt_is_Some_2 h (parent j) ltac:(lia)) as [b Hb].
  unfold Search.Less. rewrite Ha, Hb. destruct (less cmp a b) eqn:El; cbn [negb].
  2: { split; [|done]. intros k Hk. destruct (decide (k = j)) as [->|?]; [|auto].
       intros a' b' Ha' Hb'. apply not_less_le in El. congruence. }
  apply less_le in El. pose proof (lookup_Swap h (parent j) j b a) as Hl.
  destruct (IH (Swap h (parent j) j) (parent j)) as [? HP].
  - rewrite length_Swap. lia.
  - lia.
  - intros k Hk Hkp a' b'. rewrite !Hl by done. pose proof (parent_lt k Hk) as Hpk.
    rewrite (decide_False (P := k = parent j)) by done.
    destruct (decide (k = j)) as [->|Hkj].
    { rewrite decide_True by done. intros [= <-] [= <-]. done. }
    destruct (decide (parent k = parent j)) as [E|E].
    { intros Hk1 [= <-]. transitivity b; [|done]. apply (He k Hk Hkj); [done|by rewrite E]. }
    destruct (decide (parent k = j)) as [E'|E'].
    { intros Hk1 [= <-]. by apply (Hc k). }
    apply He; done.
  - intros k a' b' Hp0 Hk Ek. pose proof (parent_lt (parent j) Hp0) as Hpp. rewrite !Hl by done.
    rewrite (decide_False (P := k = parent j)) by (pose proof (parent_lt k Hk); lia).
    rewrite !(decide_False (P := parent (parent j) = _)) by lia.
    intros Hk1 Hb'. assert (le b b') by (apply (He (parent j)); [done|lia|done|done]).
    destruct (decide (k = j)) as [->|Hkj]; [congruence|].
    transitivity b; [|done]. apply (He k Hk Hkj); [done|by rewrite Ek].
  - split; [done|]. by rewrite HP, Swap_perm.
Qed.

(** The child [down] compares with: the worse one. *)
Lemma worse_child h i : (2 * i + 1 < length h)%nat ->
  let j1 := (2 * i + 1)%nat in let j2 := (j1 + 1)%nat in
  let j := if decide (j2 < length h)%nat then (if Less h j2 j1 then j2 else j1) else j1 in
  exists c, h !! j = Some c /\ (j = 2 * i + 1 \/ j = 2 * i + 2)%nat /\
    forall k x, (0 < k)%nat -> parent k = i -> h !! k = Some x -> le x c.
Proof.
  intros Hn j1 j2. destruct (lookup_lt_is_Some_2 h j1 Hn) as [c1 Hc1].
  assert (j2 = 2 * i + 2)%nat as Ej by lia.
  assert (forall c, le c1 c -> (forall c2, h !! j2 = Some c2 -> le c2 c) ->
    forall k x, (0 < k)%nat -> parent k = i -> h !! k = Some x -> le x c) as Hall.
  { intros c H1 H2 k x Hk E Hx. destruct (proj1 (parent_children i k Hk) E) as [->| ->].
    - unfold j1 in Hc1. congruence.
    - apply H2. by rewrite Ej. }
  destruct (decide _) as [H2|H2].
  - destruct (lookup_lt_is_Some_2 h j2 H2) as [c2 Hc2]. unfold Search.Less. rewrite Hc1, Hc2.
    destruct (less cmp c2 c1) eqn:El.
    + apply less_le in El. exists c2. split; [done|]. split; [lia|]. apply Hall; [done|].
      intros c Hc. assert (c = c2) as -> by congruence. apply le_refl.
    + apply not_less_le in El. exists c1. split; [done|]. split; [lia|]. apply Hall; [apply le_refl|congruence].
  - exists c1. split; [done|]. split; [lia|]. apply Hall; [apply le_refl|].
    intros c2 Hc2%lookup_lt_Some. lia.
Qed.

(** [down] repairs the edges below [i]. *)
Lemma down_heap fuel h i : (i < length h)%nat -> (length h <= i + fuel)%nat ->
  (forall k, (0 < k)%nat -> parent k <> i -> edge h k) ->
  (forall k a b, (0 < i)%nat -> (0 < k)%nat -> parent k = i ->
     h !! k = Some a -> h !! parent i = Some b -> le a b) ->
  exists h' i', down fuel h i (length h) = (h', i') /\ (i <= i')%nat /\ heap h' /\ h' ≡ₚ h.
Proof.
  revert h i. induction fuel as [|fuel IH]; intros h i Hi Hf He Hc; [lia|]. cbn [Search.down].
  assert (heap h -> exists h' i', (h, i) = (h', i') /\ (i <= i')%nat /\ heap h' /\ h' ≡ₚ h) as Hstop.
  { intros Hh. exists h, i. split_and!; [done|lia|done|done]. }
  case_decide as Hn.
  { apply Hstop. intros k Hk. destruct (decide (parent k = i)) as [E|]; [|auto].
    intros a b Ha _. apply lookup_lt_Some in Ha. apply parent_children in E; lia. }
  destruct (lookup_lt_is_Some_2 h i Hi) as [a Ha].
  destruct (worse_child h i ltac:(lia)) as (c & Hj & Hji & Hworst).
  set (j := if decide _ then _ else _) in *.
  assert (parent j = i) as Hpj by (apply parent_children; lia).
  pose proof (lookup_lt_Some _ _ _ Hj) as Hjl.
  unfold Search.Less at 1. rewrite Hj, Ha. destruct (less cmp c a) eqn:El; cbn [negb].
  2: { apply Hstop. intros k Hk. destruct (decide (parent k = i)) as [E|]; [|auto].
       intros x b Hx Hb. rewrite E in Hb. assert (b = a) as -> by congruence.
       transitivity c; [by apply (Hworst k)|by apply not_less_le]. }
  apply less_le in El. pose proof (lookup_Swap h i j a c) as Hl.
  destruct (IH (Swap h i j) j) as (h' & i' & Hd & Hii & Hh & HP).
  - by rewrite length_Swap.
  - rewrite length_Swap. lia.
  - intros k Hk Hkp x y. pose proof (parent_lt k Hk) as Hpk. rewrite !Hl by (done || lia).
    rewrite (decide_False (P := parent k = j)) by done.
    destruct (decide (k = i)) as [->|Hki].
    { rewrite (decide_False (P := parent i = i)) by lia. intros [= <-] Hy. apply (Hc j); [done|lia|done|done|done]. }
    destruct (decide (k = j)) as [->|Hkj].
    { rewrite decide_True by done. intros [= <-] [= <-]. done. }
    destruct (decide (parent k = i)) as [E|E].
    { intros Hx [= <-]. by apply (Hworst k). }
    by apply He.
  - intros k x y Hj0 Hk Ek. pose proof (parent_lt k Hk). rewrite !Hl by (done || lia). rewrite Hpj.
    rewrite (decide_True (P := i = i)) by done.
    rewrite (decide_False (P := k = i)), (decide_False (P := k = j)) by lia.
    intros Hx [= <-]. apply (He k Hk); [lia|done|by rewrite Ek].
  - rewrite length_Swap in Hd. exists h', i'. split; [done|]. split; [lia|]. split; [done|].
    by rewrite HP, Swap_perm.
Qed.

Lemma heap_root h root a : heap h -> h !! 0%nat = Some root -> a ∈ h -> le a root.
Proof.
  intros Hh Hr (i & Hi)%list_elem_of_lookup. revert a Hi.
  induction i as [i IH] using lt_wf_ind. intros a Hi. destruct (decide (i = 0)%nat) as [->|Hi0].
  - assert (a = root) as -> by congruence. apply le_refl.
  - pose proof (parent_lt i ltac:(lia)) as Hp. pose proof (lookup_lt_Some _ _ _ Hi).
    destruct (lookup_lt_is_Some_2 h (parent i) ltac:(lia)) as [b Hb].
    transitivity b; [by apply (Hh i); [lia|..]|by eapply IH].
Qed.

Lemma heap_Push_ok h x : heap h -> heap (heap_Push cmp h x) /\ heap_Push cmp h x ≡ₚ x :: h.
Proof.
  intros Hh. unfold heap_Push. rewrite length_app. cbn [length].
  replace (length h + 1 - 1)%nat with (length h) by lia.
  destruct (up_heap (length h + 1) (h ++ [x]) (length h)) as [? HP].
  - rewrite length_app. cbn. lia.
  - lia.
  - intros k Hk Hne a b Ha Hb. pose proof (lookup_lt_Some _ _ _ Ha) as Hl. rewrite length_app in Hl. cbn in Hl.
    pose proof (parent_lt k Hk). rewrite lookup_app_l in Ha, Hb by lia. by apply (Hh k).
  - intros k a b Hj Hk Ek Ha. pose proof (lookup_lt_Some _ _ _ Ha) as Hl. rewrite length_app in Hl. cbn in Hl.
    pose proof (parent_lt k Hk). lia.
  - split; [done|]. rewrite HP. by rewrite Permutation_app_comm.
Qed.

Lemma heap_Fix_ok h root x : heap h -> h !! 0%nat = Some root ->
  let h' := heap_Fix cmp (<[0%nat := x]> h) 0 in heap h' /\ root :: h' ≡ₚ x :: h.
Proof.
  intros Hh Hr. destruct h as [|r h]; [done|]. injection Hr as ->. cbn [insert list_insert].
  unfold heap_Fix.
  destruct (down_heap (length (x :: h)) (x :: h) 0) as (h' & i' & -> & Hi & Hh' & HP).
  - cbn. lia.
  - lia.
  - intros k Hk Hp a b Ha Hb. destruct k as [|k]; [lia|].
    destruct (parent (S k)) as [|pk] eqn:Ep; [done|]. apply (Hh (S k)); [lia|done|by rewrite Ep].
  - intros. lia.
  - assert (forall h'', h'' ≡ₚ h' -> root :: h'' ≡ₚ x :: root :: h) as Hperm.
    { intros h'' ->. rewrite HP. apply Permutation_swap. }
    case_decide; [auto|].
    destruct (up_heap (length h') h' 0) as [? HP'].
    + rewrite HP. cbn. lia.
    + rewrite HP. cbn. lia.
    + intros k Hk _. by apply Hh'.
    + intros. lia.
    + auto.
Qed.

End HeapProofs.

(** ** The best [k] *)
Section TopK.
Context (cmp : searchHit -> searchHit -> comparison) `{!Compares cmp} (isDesc : bool).
Context (Hdir : forall a b,
  (if isDesc then flt (score a) (score b) else flt (score b) (score a)) = true -> cmp a b = Gt).

(** [h] are the best [k] of [l]: none left out is better than one kept. *)
Definition best (k : nat) (h l : list searchHit) : Prop :=
  length h = Nat.min k (length l) /\
  exists rest, h ++ rest ≡ₚ l /\ forall x y, x ∈ rest -> y ∈ h -> cmp_le cmp y x.

Lemma best_perm k h h' l : h ≡ₚ h' -> best k h l -> best k h' l.
Proof.
  intros HP (Hl & rest & Hr & Hb). split; [by rewrite <-HP|]. exists rest. split; [by rewrite <-HP|].
  intros x y Hx Hy. apply Hb; [done|]. by rewrite HP.
Qed.

(** The root is not better than anything kept, so rejecting a hit that is not
    better than the root is right. *)
Lemma best_reject k h root x l : heap cmp h -> h !! 0%nat = Some root -> length h = k ->
  cmp_le cmp root x -> best k h l -> best k h (l ++ [x]).
Proof.
  intros Hh Hr Hk Hx (Hl & rest & HP & Hb). split; [rewrite length_app; lia|].
  exists (rest ++ [x]). rewrite app_assoc, HP. split; [done|].
  intros z y Hz Hy. apply elem_of_app in Hz as [Hz|Hz%list_elem_of_singleton]; [by apply Hb|subst z].
  eapply compares_trans; [|exact Hx]. by eapply heap_root.
Qed.

Lemma offer_ok k h x l : heap cmp h -> best k h l ->
  heap cmp (offer cmp isDesc k h x) /\ best k (offer cmp isDesc k h x) (l ++ [x]).
Proof.
  intros Hh Hb. unfold offer. pose proof Hb as (Hl & rest & HP & Hrest).
  assert (length h <= k)%nat by lia.
  destruct (decide (length h < k)%nat) as [Hlt|Hlt].
  { rewrite (bool_decide_eq_false_2 (length h = k)) by lia. cbn [andb].
    destruct (heap_Push_ok cmp h x Hh) as [Hh' HP']. split; [done|].
    assert (rest = []) as ->.
    { pose proof (Permutation_length HP) as E. rewrite length_app in E. destruct rest; [done|]. cbn in E. lia. }
    rewrite app_nil_r in HP. split.
    - rewrite HP', length_app. cbn. pose proof (Permutation_length HP). lia.
    - exists []. rewrite app_nil_r, HP', HP. split; [|intros z y Hz; by apply not_elem_of_nil in Hz].
      by rewrite Permutation_app_comm. }
  rewrite (bool_decide_eq_true_2 (length h = k)) by lia. cbn [andb].
  destruct (h !! 0%nat) as [root|] eqn:Hr.
  2: { destruct h as [|? h]; [|done]. cbn in *. split; [done|]. split; [cbn; rewrite length_app; lia|].
       exists (rest ++ [x]). rewrite HP. split; [done|]. intros z y _ Hy. by apply not_elem_of_nil in Hy. }
  destruct (if isDesc then flt (score x) (score root) else flt (score root) (score x)) eqn:Ew.
  { split; [done|]. eapply best_reject; [done|done|lia| |done]. apply Hdir in Ew. unfold cmp_le.
    rewrite (compares_opp (f := cmp) x root), Ew. done. }
  case_decide as Hc.
  2: { split; [done|]. eapply best_reject; [done|done|lia| |done]. unfold cmp_le.
       rewrite (compares_opp (f := cmp) x root). by destruct (cmp x root). }
  destruct (heap_Fix_ok cmp h root x Hh Hr) as [Hh' HP']. split; [done|].
  assert (cmp_le cmp x root) as Hxr by (unfold cmp_le; by rewrite Hc). split.
  - pose proof (Permutation_length HP') as E. cbn in E. rewrite length_app. cbn. lia.
  - exists (root :: rest). split.
    + rewrite <-Permutation_middle, app_comm_cons, HP'. cbn. rewrite HP. by rewrite Permutation_app_comm.
    + assert (forall y, y ∈ heap_Fix cmp (<[0%nat := x]> h) 0 -> cmp_le cmp y root) as Hy.
      { intros y Hy. assert (y ∈ x :: h) as Hy' by (rewrite <-HP'; by right).
        apply elem_of_cons in Hy' as [->|Hy']; [done|exact (heap_root cmp h root y Hh Hr Hy')]. }
      intros z y Hz Hyin. apply elem_of_cons in Hz as [->|Hz]; [by apply Hy|].
      eapply compares_trans; [by apply Hy|]. apply Hrest; [done|]. by eapply list_elem_of_lookup_2.
Qed.

Lemma scan_ok kernels t metric query invQ vCol fa k rows h l :
  heap cmp h -> best k h l ->
  best k (scan kernels t metric query invQ vCol fa cmp isDesc k rows h)
    (l ++ omap (candidate kernels t metric query invQ vCol fa) rows).
Proof.
  revert h l. induction rows as [|r rows IH]; intros h l Hh Hb; cbn [scan omap list_omap].
  { by rewrite app_nil_r. }
  destruct (candidate _ _ _ _ _ _ _ r) as [x|]; [|by apply IH].
  destruct (offer_ok k h x l Hh Hb) as [Hh' Hb']. specialize (IH _ _ Hh' Hb'). by rewrite <-app_assoc in IH.
Qed.

Lemma best_nil k : best k [] [].
Proof. split; [cbn; lia|]. exists []. split; [done|]. intros ? ? H. by apply not_elem_of_nil in H. Qed.

Lemma heap_nil : heap cmp [].
Proof. by intros i _ a b. Qed.

#[local] Instance cmp_le_total : Total (cmp_le cmp).
Proof. intros a b. by apply le_total. Qed.
#[local] Instance cmp_le_transitive : Transitive (cmp_le cmp).
Proof. intros a b c. apply compares_trans. Qed.

Lemma SortFunc_perm h : SortFunc cmp h ≡ₚ h.
Proof. apply merge_sort_Permutation. Qed.
Lemma SortFunc_sorted h : StronglySorted (cmp_le cmp) (SortFunc cmp h).
Proof. apply StronglySorted_merge_sort; apply _. Qed.

(** If no two hits compare equal, the sorted best [k] are the first [k]. *)
Lemma best_take k h l : best k h l ->
  (forall a b, a ∈ l -> b ∈ l -> cmp a b = Eq -> a = b) ->
  SortFunc cmp h = take k (SortFunc cmp l).
Proof.
  intros (Hl & rest & HP & Hb) Hinj.
  assert (SortFunc cmp l = SortFunc cmp h ++ SortFunc cmp rest) as ->.
  { symmetry. apply (StronglySorted_unique_strong (cmp_le cmp)).
    - intros a b Ha Hb' H1 H2. apply Hinj.
      + rewrite <-HP. revert Ha. rewrite !elem_of_app, !SortFunc_perm. done.
      + by rewrite SortFunc_perm in Hb'.
      + unfold cmp_le in *. rewrite (compares_opp (f := cmp) a b) in H2. by destruct (cmp a b).
    - apply StronglySorted_app_2; [|apply SortFunc_sorted..].
      intros x y. rewrite !SortFunc_perm. intros Hx Hy. by apply Hb.
    - apply SortFunc_sorted.
    - by rewrite !SortFunc_perm. }
  pose proof (Permutation_length HP) as E. rewrite length_app in E.
  assert (length (SortFunc cmp h) = length h) as El by (apply Permutation_length, SortFunc_perm).
  destruct (decide (k <= length l)%nat).
  - rewrite take_app_length'; [done|lia].
  - assert (rest = []) as -> by (destruct rest; [done|cbn in E; lia]).
    rewrite take_ge; [by rewrite app_nil_r|]. rewrite length_app, El. cbn. lia.
Qed.

End TopK.

(** ** The metrics' comparisons *)
Lemma flt_rank x y : flt x y = true -> rank_compare x y = Lt /\ rank_compare y x = Gt.
Proof.
  unfold flt, SFltb. intros E. assert (is_nan x = false /\ is_nan y = false) as [Hx Hy].
  { split; [by destruct x|destruct y; try done; by destruct x as [?|[]| |[]]]. }
  rewrite (SFcompare_rank x y) in E by done.
  rewrite (compares_opp (f := rank_compare) x y). by destruct (rank_compare x y).
Qed.

Lemma metric_setup_ok metric query invQ cmp isDesc : metric_setup metric query = Ok (invQ, cmp, isDesc) ->
  (cmp = cmpAsc /\ isDesc = false \/ cmp = cmpDesc /\ isDesc = true) /\
  (metric = COSINE -> invQ = vectorInvNorm query).
Proof.
  unfold metric_setup. destruct metric; try done.
  - destruct (feq _ _); [done|]. intros [= <- <- <-]. split; [by left|done].
  - intros [= <- <- <-]. split; [by left|done].
  - intros [= <- <- <-]. split; [by right|done].
Qed.

Section Setup.
Context metric query invQ cmp isDesc (Hm : metric_setup metric query = Ok (invQ, cmp, isDesc)).

Lemma setup_compares : Compares cmp.
Proof. destruct (metric_setup_ok _ _ _ _ _ Hm) as [[[-> _]|[-> _]] _]; apply _. Qed.

Lemma setup_dir a b :
  (if isDesc then flt (score a) (score b) else flt (score b) (score a)) = true -> cmp a b = Gt.
Proof.
  destruct (metric_setup_ok _ _ _ _ _ Hm) as [[[-> ->]|[-> ->]] _]; intros [? E]%flt_rank.
  - rewrite cmpAsc_lex. unfold lex. by rewrite E.
  - rewrite cmpDesc_lex. unfold lex. by rewrite E.
Qed.

(** Numbers compare equal only under the same id. *)
Lemma setup_eq a b : is_nan (score a) = false -> is_nan (score b) = false -> cmp a b = Eq -> hid a = hid b.
Proof.
  intros Ha Hb. assert (cmp a b = Eq -> tie a b = Eq) as Ht.
  { destruct (metric_setup_ok _ _ _ _ _ Hm) as [[[-> ->]|[-> ->]] _];
      [rewrite cmpAsc_lex|rewrite cmpDesc_lex]; unfold lex; by destruct (rank_compare _ _). }
  intros E%Ht. unfold tie in E. rewrite Ha, Hb in E. by apply String.compare_eq_iff in E.
Qed.

Lemma search_best kernels t vCol fa k :
  best cmp k (scan kernels t metric query invQ vCol fa cmp isDesc k (seq 0 (numRows t)) [])
    (omap (candidate kernels t metric query invQ vCol fa) (seq 0 (numRows t))).
Proof.
  pose proof setup_compares. apply (scan_ok cmp isDesc setup_dir kernels t metric query invQ vCol fa k _ [] []).
  - apply heap_nil.
  - apply best_nil.
Qed.

End Setup.

(** A candidate is a row of the table, with its id. *)
Lemma candidate_row kernels t metric query invQ vCol fa r x :
  candidate kernels t metric query invQ vCol fa r = Some x ->
  row x = r /\ hid x = default "" (docIDs t !! r) /\
  isTombstoned t r = false /\ hasVec vCol !! r = Some true /\ passes fa r = true /\
  candidate kernels t metric query invQ vCol None r = Some x.
Proof.
  unfold candidate, isTombstoned. destruct (default false (tombstones t !! r)); [done|].
  destruct (hasVec vCol !! r) as [[]|]; try done. cbn. destruct (passes fa r); [|done]. cbn.
  destruct (row_score _ _ _ _ _ _); [|done]. by intros [= <-].
Qed.

Lemma candidate_id kernels t metric query invQ vCol fa x : wf kernels t ->
  x ∈ omap (candidate kernels t metric query invQ vCol fa) (seq 0 (numRows t)) ->
  docIDs t !! row x = Some (hid x) /\ (row x < numRows t)%nat /\
  candidate kernels t metric query invQ vCol fa (row x) = Some x.
Proof.
  intros Hwf (r & Hr & Hc)%list_elem_of_omap. apply elem_of_seq in Hr.
  destruct (candidate_row _ _ _ _ _ _ _ _ _ Hc) as (-> & Hid & _).
  destruct Hwf as (Hl & _). destruct (lookup_lt_is_Some_2 (docIDs t) r) as [id E]; [lia|].
  rewrite E in Hid. cbn in Hid. subst id. split; [done|]. split; [lia|done].
Qed.

Lemma row_score_invQ kernels metric query invQ vCol r :
  (metric = COSINE -> invQ = vectorInvNorm query) ->
  row_score kernels metric query invQ vCol r = row_score kernels metric query (vectorInvNorm query) vCol r.
Proof. intros H. destruct metric; try done. by rewrite H. Qed.

(** Two candidates with one id are one. *)
Lemma candidate_inj kernels t metric query invQ vCol fa a b : wf kernels t ->
  let all := omap (candidate kernels t metric query invQ vCol fa) (seq 0 (numRows t)) in
  a ∈ all -> b ∈ all -> hid a = hid b -> a = b.
Proof.
  intros Hwf all (Ha & _ & Ca)%candidate_id (Hb & _ & Cb)%candidate_id E; [|done..].
  assert (row a = row b) as Er.
  { destruct Hwf as (_ & _ & Hi & _). apply Hi in Ha, Hb. congruence. }
  congruence.
Qed.

Lemma candidates_NoDup kernels t metric query invQ vCol fa rows : NoDup rows ->
  NoDup (omap (candidate kernels t metric query invQ vCol fa) rows).
Proof.
  induction 1 as [|r rows Hr _ IH]; cbn [omap list_omap]; [apply NoDup_nil_2|].
  destruct (candidate _ _ _ _ _ _ _ r) as [x|] eqn:E; [|done]. apply NoDup_cons_2; [|done].
  intros (r' & Hr' & E')%list_elem_of_omap. apply candidate_row in E as [E _], E' as [E' _]. congruence.
Qed.

(** The document [r] is in the table, with a vector in [col] and the
    attribute the filter asks for. *)
Definition live_hit (kernels : Kernels) (t : Table) (col : string) (filter : option EqualityFilter)
    (r : DocRecord) : Prop :=
  Get kernels t (Id r) = Some r /\ is_Some (Vectors r !! col) /\
  match filter with
  | Some f => exists v, FValue f = Some v /\ Attributes r !! Field f = Some v
  | None => True
  end.

Lemma candidate_live kernels t col metric query invQ vCol filter fa x : wf kernels t ->
  vectors t !! col = Some vCol -> filter_column t filter = Some fa ->
  x ∈ omap (candidate kernels t metric query invQ vCol fa) (seq 0 (numRows t)) ->
  live_hit kernels t col filter (recordAt kernels t (row x) (hid x)).
Proof.
  intros Hwf Hv Hf (Hid & Hr & Hc)%candidate_id; [|done]. apply candidate_row in Hc as (_ & _ & Ht & Hh & Hp & _).
  split_and!.
  - cbn [Id recordAt]. unfold Get. destruct Hwf as (_ & _ & Hi & _). apply Hi in Hid. by rewrite Hid, Ht.
  - cbn [Vectors recordAt]. rewrite lookup_omap, Hv. cbn. rewrite decide_True by done. by eexists.
  - destruct filter as [f|]; [|done]. unfold filter_column in Hf. cbn [Attributes recordAt]. rewrite lookup_omap.
    destruct (attrs t !! Field f) as [ca|]; [|done]. injection Hf as <-. unfold passes in Hp. cbn.
    destruct (ca !! row x) as [[a|]|]; try done. apply bool_decide_eq_true in Hp. by exists a.
Qed.

(** What a search returns. *)
Lemma Search_live kernels t col query topK metric filter hits :
  wf kernels t -> Search kernels t col query topK metric filter = Ok hits ->
  (length hits <= Z.to_nat topK)%nat /\ NoDup ((fun h => Id (Record_ h)) <$> hits) /\
  forall h, h ∈ hits -> live_hit kernels t col filter (Record_ h).
Proof.
  intros Hwf Hs. unfold Search in Hs.
  assert (Ok [] = Ok hits -> (length hits <= Z.to_nat topK)%nat /\ NoDup ((fun h => Id (Record_ h)) <$> hits) /\
    forall h, h ∈ hits -> live_hit kernels t col filter (Record_ h)) as Hnil.
  { intros [= <-]. cbn. split; [lia|]. split; [apply NoDup_nil_2|]. by intros h Hh%not_elem_of_nil. }
  case_decide; [by apply Hnil|]. destruct (vectors t !! col) as [vCol|] eqn:Ev; [|by apply Hnil].
  case_decide; [by apply Hnil|]. case_decide; [done|].
  destruct (metric_setup metric query) as [[[invQ cmp] isDesc]|e] eqn:Em; [|done]. cbn [mbind res_bind] in Hs.
  destruct (filter_column t filter) as [fa|] eqn:Ef; [|by apply Hnil]. injection Hs as <-. clear Hnil.
  destruct (search_best _ _ _ _ _ Em kernels t vCol fa (Z.to_nat topK)) as (Hlen & rest & HP & _).
  set (h := scan _ _ _ _ _ _ _ _ _ _ _ _) in *. set (all := omap _ _) in *.
  assert (forall x, x ∈ SortFunc cmp h -> x ∈ all) as Hin.
  { intros x. rewrite SortFunc_perm, <-HP, elem_of_app. tauto. }
  split; [rewrite length_fmap, SortFunc_perm; lia|]. split.
  - rewrite <-list_fmap_compose. apply NoDup_fmap_2_strong.
    + intros a b Ha Hb E. by eapply candidate_inj; [exact Hwf|apply Hin..|].
    + rewrite SortFunc_perm. apply (NoDup_app h rest). rewrite HP. apply candidates_NoDup, NoDup_seq.
  - intros ? (x & -> & Hx)%list_elem_of_fmap. apply Hin in Hx.
    by eapply candidate_live.
Qed.

(** ** Claims *)

(** C10. [Search] is the reference search: whatever the table, column, metric
    and filter, the bounded heap returns what sorting every live document
    that has the vector and passes the filter, and taking the first [topK],
    would; and it fails in the same cases with the same errors.  The scores
    must not be NaN (see [cosine_nan_first]). *)
Theorem search_reference kernels t col query topK metric filter :
  wf kernels t ->
  (forall vCol r hit, vectors t !! col = Some vCol ->
     candidate kernels t metric query (vectorInvNorm query) vCol None r = Some hit ->
     is_nan (score hit) = false) ->
  Search kernels t col query topK metric filter = search_ref kernels t col query topK metric filter.
Proof.
  intros Hwf Hnan. unfold Search, search_ref. destruct (vectors t !! col) as [vCol|] eqn:Ev.
  2: { by case_decide. }
  destruct (decide (topK <= 0)) as [Hk|Hk]; [by rewrite decide_True by tauto|].
  destruct (decide (numRows t = 0%nat)) as [Hn|Hn]; [by rewrite decide_True by tauto|].
  rewrite (decide_False (P := _ \/ _)) by tauto. case_decide; [done|].
  destruct (metric_setup metric query) as [[[invQ cmp] isDesc]|e] eqn:Em; [|done]. cbn [mbind res_bind].
  destruct (filter_column t filter) as [fa|]; [|done].
  destruct (metric_setup_ok _ _ _ _ _ Em) as [_ Hq]. pose proof (setup_compares _ _ _ _ _ Em).
  rewrite (best_take cmp (Z.to_nat topK) _ _ (search_best _ _ _ _ _ Em kernels t vCol fa (Z.to_nat topK))); [done|].
  assert (forall a, a ∈ omap (candidate kernels t metric query invQ vCol fa) (seq 0 (numRows t)) ->
    is_nan (score a) = false) as Hn'.
  { intros a (_ & _ & Ha)%candidate_id; [|done]. apply candidate_row in Ha as (_ & _ & _ & _ & _ & Ha).
    apply (Hnan vCol (row a)); [done|]. unfold candidate in *. by rewrite <-(row_score_invQ _ _ _ invQ). }
  intros a b Ha Hb E. apply (setup_eq _ _ _ _ _ Em) in E; [|by apply Hn'..]. by eapply candidate_inj.
Qed.

(** C23. What [Search] returns is live: each hit is the document [Get] returns
    for its id, it has a vector in the column searched and the attribute the
    filter asks for, no document appears twice, and there are at most [topK]
    hits.  Deleted documents are never returned. *)
Theorem search_live kernels t col query topK metric filter hits :
  wf kernels t -> Search kernels t col query topK metric filter = Ok hits ->
  (length hits <= Z.to_nat topK)%nat /\ NoDup ((fun h => Id (Record_ h)) <$> hits) /\
  forall h, h ∈ hits -> live_hit kernels t col filter (Record_ h).
Proof. intros Hwf Hs. by eapply Search_live. Qed.

(** ** Distances that are not numbers *)
Definition ex_num (m : positive) (e : Z) : float32 := binary_normalize prec emax (Z.pos m) e false.

Definition ex_docs (v : list float32) : Table :=
  (table_run pureKernels NewTable [TUpsert "match" {[ "v" := [fone; fzero] ]} ∅; TUpsert "other" {[ "v" := v ]} ∅]).2.

Definition ex_ids (r : res (list ScoredRecord)) : option (list string) :=
  match r with Ok hits => Some ((fun h => Id (Record_ h)) <$> hits) | Err _ => None end.

(** A document whose vector has a NaN is accepted, and a cosine query finds it
    before an exact match: its distance is NaN, which [cmp.Compare] puts
    below every number. *)
Theorem cosine_nan_first :
  ex_ids (Search pureKernels (ex_docs [S754_nan; fone]) "v" [fone; fzero] 1 COSINE None) = Some ["other"].
Proof. vm_compute. reflexivity. Qed.

(** The squared norm of a vector is a float32: where it overflows the inverse
    norm is zero, so that a document with the finite vector (2^64, 0) is
    passed over like a zero vector, and as a query that vector is refused as
    a zero vector. *)
Theorem cosine_overflow :
  ex_ids (Search pureKernels (ex_docs [ex_num 1 64; fzero]) "v" [fone; fzero] 2 COSINE None) = Some ["match"] /\
  Search pureKernels (ex_docs [ex_num 1 64; fzero]) "v" [ex_num 1 64; fzero] 2 COSINE None = Err ErrZeroVector.
Proof. split; vm_compute; reflexivity. Qed.

(** ** Witnesses *)
Definition ex_search : Table := ex_docs [fone; fone].

Lemma ex_search_wf : wf pureKernels ex_search.
Proof.
  unfold ex_search, ex_docs. destruct (table_run _ _ _) as [bs t] eqn:E.
  eapply (table_run_refines pureKernels NewTable); [apply NewTable_refines|exact E].
Qed.

Lemma search_live_witness :
  exists hits, Search pureKernels ex_search "v" [fone; fone] 1 COSINE None = Ok hits /\
    forall h, h ∈ hits -> live_hit pureKernels ex_search "v" None (Record_ h).
Proof.
  destruct (Search pureKernels ex_search "v" [fone; fone] 1 COSINE None) as [hits|e] eqn:E.
  - exists hits. split; [reflexivity|].
    exact (proj2 (proj2 (search_live pureKernels ex_search "v" [fone; fone] 1 COSINE None hits ex_search_wf E))).
  - exfalso. revert E. vm_compute. discriminate.
Defined.

Lemma search_reference_witness :
  Search pureKernels ex_search "v" [fone; fone] 1 EUCLIDEAN_SQUARED None =
  search_ref pureKernels ex_search "v" [fone; fone] 1 EUCLIDEAN_SQUARED None.
Proof.
  apply (search_reference pureKernels ex_search "v" [fone; fone] 1 EUCLIDEAN_SQUARED None).
  - exact ex_search_wf.
  - intros vCol r hit Hv Hc. apply candidate_row in Hc as Hr. destruct Hr as (_ & _ & _ & Hh & _).
    assert (vectors ex_search !! "v" = Some (MkCol 2 (D32 [fone; fzero; fone; fone]) [true; true]
      (invNorms vCol))) as Ev by (rewrite Hv; revert Hv; vm_compute; intros [= <-]; reflexivity).
    rewrite Ev in Hv. injection Hv as Hv. rewrite <-Hv in Hc, Hh. clear Ev Hv.
    destruct r as [|[|r]]; [| |discriminate Hh]; revert Hc; vm_compute; intros [= <-]; reflexivity.
Defined.
