(* ===== verification/Loader.v ===== *)
(** * query: the loader

    src/query/loader.go.  A [Loader] keeps the table of one branch up to date:
    [Sync] reads the branch's manifest and replays the segments it has not
    applied yet into a clone of the table, which it then publishes.

    The atomic pointer is the value [table] of the loader: a published table
    is never changed again, since every [Sync] works on a clone.  The
    context, and a failure of a segment's stream, are the argument [stop]:
    [stop i n] is the error found before mutation [n] of segment [i], if any. *)

From S2P Require Import Prelude GoIo GoStr Recordio Scanner ObjectStore Prog Codec Namespace Cas Float32 Storage Vector Table.
Local Open Scope Z_scope.

Record Loader := MkLoader {
  lscope : Scope;
  lbranch : string;
  table : Table;
  applied : nat;
  lastGen : string;
}.

Definition NewLoader (nil_store nil_table : bool) (t : Table) (scope : Scope) (branch : string) : res Loader :=
  if nil_store then Err (Msg "query: nil store") else
  if nil_table then Err (Msg "query: nil table") else
  Ok (MkLoader scope branch t 0 "").

(** [l.table.Store(t)], [l.applied++], [l.lastGen = gen] *)
Definition with_table (l : Loader) (t : Table) : Loader :=
  MkLoader (lscope l) (lbranch l) t (applied l) (lastGen l).
Definition with_applied (l : Loader) : Loader :=
  MkLoader (lscope l) (lbranch l) (table l) (S (applied l)) (lastGen l).
Definition with_gen (l : Loader) (gen : string) : Loader :=
  MkLoader (lscope l) (lbranch l) (table l) (applied l) gen.

Section Loading.
Context `{Codec BranchManifest, Codec DocumentMutation, Codec DocRecord}.
Context (kernels : Kernels) (stop : nat -> nat -> option error).

(** One mutation; the table is as before when there is an error. *)
Definition apply_mutation (t : Table) (mut : DocumentMutation) : option error * Table :=
  match Op mut with
  | PUT => match Unmarshal (Payload mut) with
           | Err e => (Some e, t)
           | Ok rec => match UpsertRecord kernels t (Some rec) with
                       | Err e => (Some e, t)
                       | Ok t => (None, t)
                       end
           end
  | DELETE => (None, (Delete t (DocId mut)).2)
  | _ => (Some (Msg "unknown mutation op"), t)
  end.

(** The reading loop over one segment: [readErr] and the table. *)
Fixpoint load_loop (fuel : nat) (stop : nat -> option error) (count : nat) (reader : Segment.Reader)
    (t : Table) : option error * Table :=
  match fuel with
  | O => (Some OutOfFuel, t)
  | S fuel =>
    match stop count with
    | Some e => (Some e, t)
    | None =>
      match Segment.Next reader with
      | (Err e, _) => (if errors_Is e EOF then None else Some e, t)
      | (Ok mut, reader) =>
        match apply_mutation t mut with
        | (Some e, t) => (Some e, t)
        | (None, t) => load_loop fuel stop (S count) reader t
        end
      end
    end
  end.

(** A segment of [n] bytes has at most [n] records. *)
Definition load_segment (stop : nat -> option error) (d : list byte) (t : Table) : option error * Table :=
  load_loop (S (length d)) stop 0 (Segment.NewReader (Source [d] EOF)) t.

(** An error return: what earlier segments of this call loaded is kept, and
    with it the mutations already applied of the segment that failed. *)
Definition failed_sync (l : Loader) (loadedCount : nat) (t : Table) (e : error)
  : nat * option error * Loader :=
  (loadedCount, Some e, if decide (0 < loadedCount)%nat then with_table l t else l).

(** The loop over the new segments; [t] is nil before the first. *)
Fixpoint sync_loop (segs : list SegmentRef) (gen : string) (t : option Table) (loadedCount : nat)
    (l : Loader) : prog (nat * option error * Loader) :=
  match segs with
  | [] => let l := match t with Some t => with_table l t | None => l end in
          Ret (loadedCount, None, with_gen l gen)
  | seg :: segs =>
    let t := match t with None => Clone (table l) | Some t => t end in
    r ← call (OGet (SegmentKey (lscope l) (SegmentId seg)));
    match r with
    | Err e => Ret (failed_sync l loadedCount t e)
    | Ok (d, _) =>
      match load_segment (stop (applied l)) d t with
      | (Some e, t) => Ret (failed_sync l loadedCount t e)
      | (None, t) => sync_loop segs gen (Some t) (S loadedCount) (with_applied l)
      end
    end
  end.

(** The number of segments loaded, the error, and the loader. *)
Definition Sync (l : Loader) : prog (nat * option error * Loader) :=
  r ← Manifest.Read (ManifestKey (lscope l) (lbranch l));
  match r with
  | Err e => Ret (0%nat, if errors_Is e ErrNotFound then None else Some e, l)
  | Ok (m, gen) =>
    if decide (gen <> "" /\ gen = lastGen l) then Ret (0%nat, None, l) else
    if decide (length (Segments m) < applied l)%nat then Ret (0%nat, Some ErrManifestTruncated, l) else
    sync_loop (drop (applied l) (Segments m)) gen None 0 l
  end.

End Loading.

(** ** Replaying mutations *)
Section Replay.
Context `{Codec DocumentMutation, Codec DocRecord} (kernels : Kernels).
Abbreviation apply_mutation := (apply_mutation kernels).

(** All of the mutations, up to the first that is rejected. *)
Fixpoint replay (t : Table) (ms : list DocumentMutation) : option error * Table :=
  match ms with
  | [] => (None, t)
  | m :: ms => match apply_mutation t m with
               | (Some e, t) => (Some e, t)
               | (None, t) => replay t ms
               end
  end.

Lemma replay_app t ms ms' : replay t (ms ++ ms') =
  match replay t ms with (None, t) => replay t ms' | r => r end.
Proof.
  revert t. induction ms as [|m ms IH]; intros t; cbn; [done|]. destruct (apply_mutation t m) as [[e|] t1]; [done|].
  apply IH.
Qed.

(** Loading a segment replays a prefix of its mutations: all of them unless
    it reports an error. *)
Lemma load_loop_prefix fuel stop n r t ms e : Segment.read_loop fuel r = (ms, e) ->
  exists k t', replay t (take k ms) = (None, t') /\
    exists oe, load_loop kernels fuel stop n r t = (oe, t') /\
      (oe = None -> take k ms = ms /\ e = None).
Proof.
  revert n r t ms. induction fuel as [|fuel IH]; intros n r t ms; cbn [Segment.read_loop load_loop].
  { intros [= <- <-]. exists 0%nat, t. split; [done|]. by eexists. }
  destruct (stop n) as [e'|]; [exists 0%nat, t; split; [done|by eexists]|].
  destruct (Segment.Next r) as [[m|e'] r'].
  - destruct (Segment.read_loop fuel r') as [ms' e'] eqn:Er. intros [= <- <-].
    destruct (apply_mutation t m) as [[e''|] t1] eqn:Ea.
    + exists 0%nat, t. split; [done|]. exists (Some e''). split; [|done].
      unfold Loader.apply_mutation in Ea. destruct (Op m); try by simplify_eq.
      destruct (Unmarshal (Payload m)); [|by simplify_eq]. by destruct (UpsertRecord _ _ _); simplify_eq.
    + destruct (IH (S n) r' t1 ms' Er) as (k & t' & Hr & oe & Hl & Hoe). exists (S k), t'.
      cbn [take firstn replay]. rewrite Ea. split; [done|]. exists oe. split; [done|].
      intros [Ht ?]%Hoe. by rewrite Ht.
  - intros [= <- <-]. exists 0%nat, t. split; [done|]. eexists. split; [done|]. done.
Qed.

(** Undisturbed, it replays them all. *)
Lemma load_loop_all fuel stop n r t ms e : (forall n, stop n = None) -> Segment.read_loop fuel r = (ms, e) ->
  load_loop kernels fuel stop n r t =
    match replay t ms with (Some e', t') => (Some e', t') | (None, t') => (e, t') end.
Proof.
  intros Hst. revert n r t ms. induction fuel as [|fuel IH]; intros n r t ms; cbn [Segment.read_loop load_loop].
  { by intros [= <- <-]. }
  rewrite Hst.
  destruct (Segment.Next r) as [[m|e'] r'].
  - destruct (Segment.read_loop fuel r') as [ms' e'] eqn:Er. intros [= <- <-]. cbn [replay].
    destruct (apply_mutation t m) as [[e''|] t1]; [done|]. by apply IH.
  - by intros [= <- <-].
Qed.

#[local] Strategy expand [Segment.decode_segment load_segment].

Lemma load_segment_prefix stop d t ms : Segment.decode_segment d = (ms, None) ->
  exists k t', replay t (take k ms) = (None, t') /\
    exists oe, load_segment kernels stop d t = (oe, t') /\ (oe = None -> take k ms = ms).
Proof.
  intros E. unfold Segment.decode_segment in E.
  destruct (load_loop_prefix _ stop 0 _ t ms None E) as (k & t' & Hr & oe & Hl & Hoe).
  exists k, t'. split; [exact Hr|]. exists oe. split; [unfold load_segment; exact Hl|]. intros Hn. exact (proj1 (Hoe Hn)).
Qed.

Lemma load_segment_all stop d t ms : (forall n, stop n = None) -> Segment.decode_segment d = (ms, None) ->
  load_segment kernels stop d t = replay t ms.
Proof.
  intros Hst E. unfold Segment.decode_segment in E. unfold load_segment.
  rewrite (load_loop_all _ stop 0 _ t ms None Hst E). by destruct (replay t ms) as [[e|] t'].
Qed.

(** *** On the abstract table *)
Definition spec_mut (st : state) (m : DocumentMutation) (st' : state) : Prop :=
  match Op m with
  | PUT => exists rec, Unmarshal (Payload m) = Ok rec /\ Id rec <> "" /\
      (forall col v, Vectors rec !! col = Some v -> accepts kernels st col v) /\
      st' = spec_upsert kernels st (Id rec) (Vectors rec) (Attributes rec)
  | DELETE => st' = MkState (schema st) (delete (DocId m) (docs st))
  | _ => False
  end.

Fixpoint spec_replay (st : state) (ms : list DocumentMutation) (st' : state) : Prop :=
  match ms with
  | [] => st' = st
  | m :: ms => exists st1, spec_mut st m st1 /\ spec_replay st1 ms st'
  end.

Lemma spec_mut_fun st m st1 st2 : spec_mut st m st1 -> spec_mut st m st2 -> st1 = st2.
Proof.
  unfold spec_mut. destruct (Op m); [done| |congruence|done].
  intros (r1 & E1 & _ & _ & ->) (r2 & E2 & _ & _ & ->). congruence.
Qed.

Lemma spec_replay_fun st ms st1 st2 : spec_replay st ms st1 -> spec_replay st ms st2 -> st1 = st2.
Proof.
  revert st. induction ms as [|m ms IH]; intros st; cbn; [congruence|].
  intros (a & Ha & H1) (b & Hb & H2). assert (a = b) as -> by by eapply spec_mut_fun. by eapply IH.
Qed.

Lemma spec_replay_app st ms ms' st' :
  spec_replay st (ms ++ ms') st' <-> exists st1, spec_replay st ms st1 /\ spec_replay st1 ms' st'.
Proof.
  revert st. induction ms as [|m ms IH]; intros st; cbn; [naive_solver|].
  setoid_rewrite IH. naive_solver.
Qed.

Lemma apply_mutation_refines t m : wf kernels t ->
  match apply_mutation t m with
  | (None, t') => wf kernels t' /\ spec_mut (abs kernels t) m (abs kernels t')
  | (Some _, t') => t' = t /\ forall st, ~ spec_mut (abs kernels t) m st
  end.
Proof.
  intros Hwf. unfold Loader.apply_mutation, spec_mut. destruct (Op m).
  - split; [done|]. auto.
  - destruct (Unmarshal (Payload m)) as [rec|e]; [|split; [done|naive_solver]]. cbn [UpsertRecord].
    pose proof (Upsert_refines kernels t (Id rec) (Vectors rec) (Attributes rec) Hwf) as Hu.
    destruct (Upsert _ _ _ _ _) as [t'|e].
    + destruct Hu as (? & ? & ? & ?). split; [done|]. by exists rec.
    + split; [done|]. intros st (rec' & [= <-] & Hid & Hacc & _). destruct Hu as [?|(col & v & Hv & Hn)]; [done|].
      by apply Hn, Hacc.
  - pose proof (Delete_refines kernels t (DocId m) Hwf) as Hd. destruct (Delete t (DocId m)) as [b t'].
    cbn. by destruct Hd as (? & ? & _).
  - split; [done|]. auto.
Qed.

Lemma replay_refines t ms t' : wf kernels t -> replay t ms = (None, t') ->
  wf kernels t' /\ spec_replay (abs kernels t) ms (abs kernels t').
Proof.
  revert t. induction ms as [|m ms IH]; intros t Hwf; cbn; [by intros [= <-]|].
  pose proof (apply_mutation_refines t m Hwf) as Ha. destruct (apply_mutation t m) as [[e|] t1]; [done|].
  destruct Ha as [Hwf1 Hs]. intros [? ?]%IH; [|done]. split; [done|]. by exists (abs kernels t1).
Qed.

Lemma replay_accepts t ms st : wf kernels t -> spec_replay (abs kernels t) ms st ->
  exists t', replay t ms = (None, t').
Proof.
  revert t. induction ms as [|m ms IH]; intros t Hwf; cbn; [by eexists|]. intros (st1 & Hm & Hs).
  pose proof (apply_mutation_refines t m Hwf) as Ha. destruct (apply_mutation t m) as [[e|] t1].
  - by destruct Ha as [_ []%(fun H => H st1)].
  - destruct Ha as [Hwf1 Hm']. apply IH; [done|]. by rewrite (spec_mut_fun _ _ _ _ Hm' Hm).
Qed.

(** *** What a sequence of mutations does to one document

    Nothing, a merge, or a replacement; such effects compose, and repeating
    one changes nothing. *)
Inductive effect :=
  | Keep
  | Merge (vecs : gmap string (list float32)) (as_ : gmap string AttributeValue)
  | Replace (r : option DocRecord).

Definition eff_apply (id : string) (e : effect) (x : option DocRecord) : option DocRecord :=
  match e with
  | Keep => x
  | Merge vecs as_ =>
    let old := default (MkRecord id ∅ ∅) x in
    Some (MkRecord id (vecs ∪ Vectors old) (as_ ∪ Attributes old))
  | Replace r => r
  end.

Definition eff_then (id : string) (e1 e2 : effect) : effect :=
  match e1, e2 with
  | _, Replace r => Replace r
  | _, Keep => e1
  | Keep, _ => e2
  | Merge v a, Merge v' a' => Merge (v' ∪ v) (a' ∪ a)
  | Replace r, _ => Replace (eff_apply id e2 r)
  end.

Lemma eff_then_apply id e1 e2 x : eff_apply id (eff_then id e1 e2) x = eff_apply id e2 (eff_apply id e1 x).
Proof.
  destruct e1, e2; try done. cbn. by rewrite <-!(assoc_L (∪)).
Qed.

Lemma eff_idemp id e x : eff_apply id e (eff_apply id e x) = eff_apply id e x.
Proof. destruct e as [|v a|r]; [done| |done]. cbn. by rewrite !(assoc_L (∪)), !(idemp_L (∪)). Qed.

Definition eff_of (id : string) (m : DocumentMutation) : effect :=
  match Op m with
  | PUT => match Unmarshal (Payload m) with
           | Ok rec => if decide (Id rec = id) then Merge (omap (stored kernels) (Vectors rec)) (Attributes rec)
                       else Keep
           | Err _ => Keep
           end
  | DELETE => if decide (DocId m = id) then Replace None else Keep
  | _ => Keep
  end.

Lemma spec_mut_effect st m st' id : spec_mut st m st' ->
  docs st' !! id = eff_apply id (eff_of id m) (docs st !! id).
Proof.
  unfold spec_mut, eff_of. destruct (Op m); [done| | |done].
  - intros (rec & -> & _ & _ & ->). cbn. case_decide as Hid; [subst id; by rewrite lookup_insert_eq|].
    by rewrite lookup_insert_ne.
  - intros ->. cbn. case_decide as Hid; [subst id; by rewrite lookup_delete_eq|]. by rewrite lookup_delete_ne.
Qed.

Lemma spec_replay_effect st ms st' id : spec_replay st ms st' ->
  docs st' !! id = eff_apply id (foldr (fun m e => eff_then id (eff_of id m) e) Keep ms) (docs st !! id).
Proof.
  revert st. induction ms as [|m ms IH]; intros st; cbn [spec_replay foldr]; [by intros ->|].
  intros (st1 & Hm & Hs). rewrite eff_then_apply, (IH st1) by done. by rewrite (spec_mut_effect st m st1).
Qed.

(** The columns only grow. *)
Lemma spec_mut_schema st m st' : spec_mut st m st' -> schema st ⊆ schema st'.
Proof.
  unfold spec_mut. destruct (Op m); [done| | |done].
  - intros (rec & _ & _ & _ & ->). apply map_union_subseteq_l.
  - by intros ->.
Qed.

Lemma spec_replay_schema st ms st' : spec_replay st ms st' -> schema st ⊆ schema st'.
Proof.
  revert st. induction ms as [|m ms IH]; intros st; cbn; [by intros ->|].
  intros (st1 & Hm & Hs). transitivity (schema st1); [by eapply spec_mut_schema|by apply IH].
Qed.

(** A mutation accepted once is accepted again where its columns exist. *)
Lemma spec_mut_again st m st1 st2 : spec_mut st m st1 -> schema st1 ⊆ schema st2 ->
  exists st3, spec_mut st2 m st3 /\ schema st3 = schema st2.
Proof.
  unfold spec_mut. destruct (Op m); [done| | |done].
  2: { intros -> _. eexists. split; [done|done]. }
  intros (rec & E & Hid & Hacc & ->) Hsub. cbn [schema spec_upsert] in Hsub.
  assert (forall col v, Vectors rec !! col = Some v -> v <> [] -> schema st2 !! col = Some (length v)) as Hdim.
  { intros col v Hv Hne. eapply lookup_weaken; [|exact Hsub]. destruct (Hacc col v Hv) as [?|[Hd _]]; [done|].
    rewrite lookup_union. destruct (schema st !! col) as [d|] eqn:Ed; [rewrite (Hd d eq_refl); by apply union_Some_l|].
    rewrite lookup_fmap, map_lookup_filter, Hv. cbn. by rewrite option_guard_True. }
  eexists. split; [exists rec; split; [done|]; split; [done|]; split; [|done]|].
  - intros col v Hv. destruct (Hacc col v Hv) as [?|[_ Hs]]; [by left|].
    destruct (decide (v = [])); [by left|]. right. split; [|done]. intros d. rewrite (Hdim col v) by done. congruence.
  - cbn. apply map_eq. intros col. rewrite lookup_union, lookup_fmap, map_lookup_filter.
    destruct (schema st2 !! col) as [d|] eqn:Ed; [by rewrite union_Some_l|].
    destruct (Vectors rec !! col) as [v|] eqn:Hv; [|done]. cbn. destruct (decide (v = [])) as [->|Hne].
    + by rewrite option_guard_False by tauto.
    + by rewrite (Hdim col v) in Ed.
Qed.

Lemma spec_replay_again st ms st1 st2 : spec_replay st ms st1 -> schema st1 ⊆ schema st2 ->
  exists st3, spec_replay st2 ms st3 /\ schema st3 = schema st2.
Proof.
  revert st st2. induction ms as [|m ms IH]; intros st st2; cbn; [by eauto|]. intros (sta & Hm & Hs) Hsub.
  destruct (spec_mut_again st m sta st2 Hm) as (st3 & Hm3 & E3).
  { transitivity (schema st1); [by eapply spec_replay_schema|done]. }
  destruct (IH sta st3 Hs) as (st4 & Hs4 & E4); [by rewrite E3|].
  exists st4. split; [by exists st3|congruence].
Qed.

Lemma state_eq st st' : schema st = schema st' -> (forall id, docs st !! id = docs st' !! id) -> st = st'.
Proof. destruct st, st'. cbn. intros -> Hd. f_equal. by apply map_eq. Qed.

(** Replaying twice is replaying once. *)
Lemma spec_replay_idemp st ms st' : spec_replay st ms st' -> spec_replay st' ms st'.
Proof.
  intros Hs. destruct (spec_replay_again st ms st' st' Hs) as (st3 & Hs3 & E3); [done|].
  replace st' with st3 at 2; [done|]. apply state_eq; [done|]. intros id.
  rewrite (spec_replay_effect _ _ _ id Hs3), (spec_replay_effect _ _ _ id Hs). apply eff_idemp.
Qed.

(** A prefix that was already applied does not matter. *)
Lemma spec_replay_resume st k ms st1 st' : spec_replay st (take k ms) st1 ->
  spec_replay st1 ms st' <-> spec_replay st ms st'.
Proof.
  intros H1. rewrite <-(take_drop k ms) at 1 2. rewrite !spec_replay_app. split; intros (st2 & H2 & H3).
  - exists st1. split; [done|].
    by rewrite (spec_replay_fun _ _ _ _ (spec_replay_idemp _ _ _ H1) H2).
  - exists st1. split; [by eapply spec_replay_idemp|]. by rewrite (spec_replay_fun _ _ _ _ H1 H2).
Qed.

End Replay.
