(* ===== verification/LoaderSafety.v ===== *)
(** * query: what a loader shows of the log

    A [Loader] syncs a branch while flushers and writers of the namespace are
    at work.  [loader_ok] is what its table holds at any time: the batches of
    the branch's log entries up to some point, in log order, and possibly the
    first mutations of the next one; a [Sync] that succeeds shows every batch
    of a manifest it read, each exactly once. *)

From S2P Require Import Prelude GoStr Recordio Scanner ObjectStore Prog Codec Logstream Namespace Cas Catalog Float32 Sha256 Storage Flusher FlusherSafety Vector Table Loader.
Local Open Scope Z_scope.

Definition new_loader (ns b : string) : Loader := MkLoader (MkScope ns) b NewTable 0 "".

Section Namespace.
Context {S : Type} `{StoreLaws S} `{CodecLaws BranchCatalog, CodecLaws BranchManifest}.
Context `{Codec WalRecord, CodecLaws DocumentMutation, Codec DocRecord}.
Context (faulty : bool) (kernels : Kernels) (ns : string).
Context (entries : list (list LRecord)) (base : string -> BranchManifest).
Context (b : string) (base_batches : list (list DocumentMutation)).

Let sc : Scope := MkScope ns.
Let key : string := ManifestKey sc b.
Let start : Z := CheckpointSeq (base b).
Abbreviation flush_at := (flush_at entries).
Abbreviation flush_inv := (flush_inv ns entries base).
Abbreviation flush_rel := (flush_rel ns entries).
Abbreviation ckpt_ge := (ckpt_ge ns b).
Abbreviation stored := (FlusherSafety.stored ns).
Abbreviation safe := (safe faulty flush_inv flush_rel).
Abbreviation spec_replay := (spec_replay kernels).
Abbreviation abs := (abs kernels).

(** The branch's batches, those of the manifest at the start first. *)
Definition batch_at (i : Z) : option (list DocumentMutation) :=
  match flush_at i with
  | Some (b', ms) => if decide (b' = b) then Some ms else None
  | None => None
  end.
Definition batches (c : Z) : list (list DocumentMutation) :=
  base_batches ++ omap batch_at (seqZ (start + 1) (c - start)).
Let full : list (list DocumentMutation) := batches (Z.of_nat (length entries)).

(** A reference to a segment of the log. *)
Definition known (r : SegmentRef) (ms : list DocumentMutation) : Prop :=
  exists i b' d, flush_at i = Some (b', ms) /\ Segment.encode_segment ms = Ok d /\ r = ref_of ms d.

(** A segment that can be read. *)
Definition seg_ready (w : world S) (r : SegmentRef) (ms : list DocumentMutation) : Prop :=
  exists i b' d, segment_of entries i b' d /\ SegmentId r = segment_id d /\
    Segment.decode_segment d = (ms, None) /\ stored d w.

Definition base_ready (w : world S) : Prop := Forall2 (seg_ready w) (Segments (base b)) base_batches.

Context (Hns : valid_name ns) (Hb : valid_name b).
(** Every mutation of the log is within the record limit of a segment. *)
Context (Hrec : forall i b' ms, flush_at i = Some (b', ms) ->
  exists ds, Segment.marshal_all ms = Ok ds /\ Forall (fits Crc.DefaultMaxRecordSize) ds).
Context (Hnames : forall i b ms, flush_at i = Some (b, ms) -> valid_name b).
Context (Hsize : forall i b d, segment_of entries i b d -> slice_len d).

Lemma batch_segment i b' ms : flush_at i = Some (b', ms) ->
  exists d, Segment.encode_segment ms = Ok d /\ Segment.decode_segment d = (ms, None).
Proof.
  intros (ds & Hm & Hf)%Hrec. exists (frames ds). by apply Segment.decode_encode_segment.
Qed.

Lemma seg_ready_stable w w' r ms : flush_rel w w' -> seg_ready w r ms -> seg_ready w' r ms.
Proof.
  intros HR (i & b' & d & Hd & Hr & Hm & Hst). exists i, b', d. split_and!; [done..|].
  destruct HR as (_ & _ & _ & HS). by eapply HS.
Qed.

Lemma ready_stable w w' rs mss : flush_rel w w' -> Forall2 (seg_ready w) rs mss -> Forall2 (seg_ready w') rs mss.
Proof. intros HR HF. eapply Forall2_impl; [exact HF|]. intros r ms. by apply seg_ready_stable. Qed.

Lemma batches_prefix c c' : c <= c' -> batches c `prefix_of` batches c'.
Proof.
  intros Hc. unfold batches. apply prefix_app. destruct (decide (0 <= c - start)).
  - replace (c' - start) with ((c - start) + (c' - c)) by lia. rewrite seqZ_app, omap_app by lia.
    by apply prefix_app_r.
  - rewrite (seqZ_nil (start + 1) (c - start)) by lia. apply prefix_nil.
Qed.

(** The segments of a manifest are the batches up to its checkpoint. *)
Lemma manifest_ready m w : base_ready w -> manifest_ok ns entries base b m w ->
  Forall2 (seg_ready w) (Segments m) (batches (CheckpointSeq m)) /\
  CheckpointSeq m <= Z.of_nat (length entries).
Proof.
  intros Hbase (M1 & M2 & M3 & _ & M5 & M6). split; [|by eapply log_ge_bound]. rewrite M5. unfold batches.
  apply Forall2_app; [done|]. unfold refs. fold start.
  assert (forall i, i ∈ seqZ (start + 1) (CheckpointSeq m - start) -> start < i <= CheckpointSeq m) as Hin.
  { intros i Hi%elem_of_seqZ. lia. }
  induction (seqZ (start + 1) (CheckpointSeq m - start)) as [|i l IH]; [constructor|].
  cbn [omap list_omap]. assert (start < i <= CheckpointSeq m) as Hi by (apply Hin; by left).
  assert (Forall2 (seg_ready w) (omap (ref_at entries b) l) (omap batch_at l)) as HF
    by (apply IH; intros j Hj; apply Hin; by right).
  unfold ref_at at 1, batch_at at 1. destruct (flush_at i) as [[b' ms]|] eqn:Ef; [|done].
  destruct (decide (b' = b)) as [->|]; [|done].
  destruct (batch_segment i b ms Ef) as (d & Hd & Hdec). rewrite Hd. constructor; [|done].
  destruct (M6 i ms Hi Ef) as (d' & Hd' & Hst). assert (d' = d) as -> by congruence.
  exists i, b, d. split_and!; [by exists ms|done|done|done].
Qed.

(** *** The loader's state *)
Definition empty_state : state := MkState ∅ ∅.

Definition table_ok (n : nat) (part : list DocumentMutation) (t : Table) : Prop :=
  wf kernels t /\ spec_replay empty_state (concat (take n full) ++ part) (abs t).

(** The beginning of batch [n]. *)
Definition partial (n : nat) (part : list DocumentMutation) : Prop :=
  part = [] \/ exists k ms, full !! n = Some ms /\ part = take k ms.

(** The manifest lists [n] batches. *)
Definition upto (n : nat) (w : world S) : Prop :=
  exists c, ckpt_ge c w /\ c <= Z.of_nat (length entries) /\ (n <= length (batches c))%nat.

Definition gen_ok (l : Loader) (w : world S) : Prop :=
  lastGen l = "" \/ exists m, seen key absentManifest (lastGen l) m w /\ (length (Segments m) <= applied l)%nat.

Definition loader_ok (l : Loader) (w : world S) : Prop :=
  lscope l = sc /\ lbranch l = b /\ base_ready w /\ gen_ok l w /\
  exists part, partial (applied l) part /\
    upto (if decide (part = []) then applied l else Datatypes.S (applied l)) w /\
    table_ok (applied l) part (table l).

Lemma upto_stable n w w' : flush_rel w w' -> upto n w -> upto n w'.
Proof. intros (_ & _ & HC & _) (c & Hc & ? & ?). exists c. split_and!; [by apply HC|done|done]. Qed.

Lemma gen_ok_stable l w w' : flush_rel w w' -> gen_ok l w -> gen_ok l w'.
Proof.
  intros (HG & _) [?|(m & Hm & Hl)]; [by left|right]. exists m. split; [|done]. by eapply seen_gen.
Qed.

Lemma loader_ok_stable l w w' : flush_rel w w' -> loader_ok l w -> loader_ok l w'.
Proof.
  intros HR (H1' & H2' & H3' & H4' & part & Hp & Hu & Ht). split_and!; [done|done| | |].
  - by eapply ready_stable.
  - by eapply gen_ok_stable.
  - exists part. split_and!; [done|by eapply upto_stable|done].
Qed.

Lemma fresh_loader_ok w : base_ready w -> upto 0 w -> loader_ok (new_loader ns b) w.
Proof.
  intros Hbase Hu. destruct (NewTable_refines kernels) as [Hwf Ha]. split_and!; [done|done|done|by left|].
  exists []. split; [by left|]. split; [by rewrite decide_True|]. split; [done|]. cbn [table new_loader]. by rewrite Ha.
Qed.

(** The manifest of the moment lists at least that many. *)
Lemma upto_manifest n m w : base_ready w -> manifest_is ns b w m -> manifest_ok ns entries base b m w ->
  upto n w -> (n <= length (Segments m))%nat.
Proof.
  intros Hbase Hm Hok (c & Hc & _ & Hn). destruct (manifest_ready m w Hbase Hok) as [HF _].
  rewrite (Forall2_length _ _ _ HF). etransitivity; [exact Hn|].
  apply prefix_length, batches_prefix. by eapply ckpt_ge_is.
Qed.

(** What a [Sync] leaves; [cs] is a checkpoint the manifest had reached when
    it began. *)
Definition sync_post (cs : Z) (x : nat * option error * Loader) (w : world S) : Prop :=
  loader_ok x.2 w /\
  (x.1.2 = None -> exists c, cs <= c /\ ckpt_ge c w /\
    spec_replay empty_state (concat (batches c)) (abs (table x.2))).

Lemma sync_post_stable cs : stable flush_rel (sync_post cs).
Proof.
  intros x w w' HR [Hl Hs]. split; [by eapply loader_ok_stable|]. intros E.
  destruct (Hs E) as (c & ? & Hc & ?). exists c. split_and!; [done| |done]. by apply HR.
Qed.

(** *** Sync *)
Section Sync.
Context (stop : nat -> nat -> option error) (cs : Z).

Lemma with_table_id l : with_table l (table l) = l.
Proof. by destruct l. Qed.

(** The loop with the segments [segs], of batches [bs], still to load: [t] is
    the working copy. *)
Definition loop_ok (segs : list SegmentRef) (bs : list (list DocumentMutation)) (gen : string) (c : Z)
    (part : list DocumentMutation) (t : Table) (l : Loader) (w : world S) : Prop :=
  lscope l = sc /\ lbranch l = b /\ base_ready w /\ gen_ok l w /\
  (exists m, seen key absentManifest gen m w /\ length (Segments m) = length (batches c)) /\
  ckpt_ge c w /\ cs <= c <= Z.of_nat (length entries) /\
  Forall2 (seg_ready w) segs bs /\
  batches c = take (applied l) full ++ bs /\ length (batches c) = (applied l + length bs)%nat /\
  partial (applied l) part /\ (part = [] \/ segs <> []) /\ table_ok (applied l) part t.

Lemma loop_ok_stable segs bs gen c part t l w w' : flush_rel w w' ->
  loop_ok segs bs gen c part t l w -> loop_ok segs bs gen c part t l w'.
Proof.
  intros HR (A1 & A2 & A3 & A4 & (m & A5 & A5') & A6 & A7 & A8 & A9).
  split_and!; [done|done|by eapply ready_stable|by eapply gen_ok_stable| | |lia|lia|by eapply ready_stable|
    apply A9..].
  - exists m. split; [|done]. eapply seen_gen; [|exact A5]. apply HR.
  - by apply HR.
Qed.

(** At any point the working copy could be published. *)
Lemma loop_loader_ok segs bs gen c part t l w : loop_ok segs bs gen c part t l w ->
  loader_ok (with_table l t) w.
Proof.
  intros (A1 & A2 & A3 & A4 & A5 & A6 & A7 & A8 & A9 & A10 & A11 & A12 & A13).
  split_and!; [done|done|done|exact A4|]. exists part. split_and!; [done| |done].
  exists c. split_and!; [done|lia|]. cbn [applied with_table]. case_decide as Hp; [lia|].
  destruct A12 as [?|Hs]; [done|]. destruct A8; [done|]. cbn in A10. lia.
Qed.

Lemma loop_next seg segs ms bs gen c part t l w : loop_ok (seg :: segs) (ms :: bs) gen c part t l w ->
  full !! applied l = Some ms.
Proof.
  intros (A1 & A2 & A3 & A4 & A5 & A6 & A7 & A8 & A9 & A10 & _).
  assert (batches c `prefix_of` full) as [tl Htl] by (apply batches_prefix; lia).
  assert (length (take (applied l) full) = applied l) as Hl.
  { apply (f_equal length) in A9. rewrite length_app in A9. lia. }
  rewrite Htl, A9, <-app_assoc, lookup_app_r by lia. by rewrite Hl, Nat.sub_diag.
Qed.

(** The next batch, cut short. *)
Lemma loop_partial seg segs ms bs gen c t k t' l w :
  loop_ok (seg :: segs) (ms :: bs) gen c [] t l w -> replay kernels t (take k ms) = (None, t') ->
  loop_ok (seg :: segs) (ms :: bs) gen c (take k ms) t' l w.
Proof.
  intros Hl Hr. pose proof (loop_next _ _ _ _ _ _ _ _ _ _ Hl) as Hms.
  destruct Hl as (A1 & A2 & A3 & A4 & A5 & A6 & A7 & A8 & A9 & A10 & A11 & A12 & A13 & A14).
  destruct (replay_refines kernels t (take k ms) t' A13 Hr) as [Hwf' Hs'].
  split_and!; try done; [lia|lia|right; by eexists _, _|by right|]. split; [done|].
  rewrite app_nil_r in A14. apply spec_replay_app. by exists (abs t).
Qed.

(** The next batch, whole; mutations of it that were there already make no
    difference. *)
Lemma loop_whole seg segs ms bs gen c part t t' l w :
  loop_ok (seg :: segs) (ms :: bs) gen c part t l w -> replay kernels t ms = (None, t') ->
  loop_ok segs bs gen c [] t' (with_applied l) w.
Proof.
  intros Hl Hr. pose proof (loop_next _ _ _ _ _ _ _ _ _ _ Hl) as Hms.
  destruct Hl as (A1 & A2 & A3 & A4 & A5 & A6 & A7 & A8 & A9 & A10 & A11 & A12 & A13 & A14).
  destruct (replay_refines kernels t ms t' A13 Hr) as [Hwf' Hs']. apply Forall2_cons in A8 as [_ A8].
  unfold loop_ok. cbn [lscope lbranch applied with_applied]. cbn [length] in A10.
  rewrite (take_S_r _ _ _ Hms). split_and!; try done; [|lia|lia|by rewrite A9, <-app_assoc|lia|by left|by left|].
  - destruct A4 as [?|(m & Hm & Hlen)]; [by left|right]. exists m. split; [done|]. cbn. lia.
  - split; [done|]. rewrite app_nil_r, (take_S_r _ _ _ Hms), concat_app. cbn [concat]. rewrite app_nil_r.
    apply spec_replay_app. apply spec_replay_app in A14 as (st1 & Hst1 & Hp). exists st1. split; [done|].
    destruct A11 as [->|(k & ms' & E & ->)]; [by rewrite Hp in Hs'|].
    assert (ms' = ms) as -> by congruence. by apply (spec_replay_resume kernels st1 k ms (abs t)).
Qed.

Lemma safe_get_segment seg ms w : seg_ready w seg ms ->
  safe (call (OGet (SegmentKey sc (SegmentId seg)))) (fun r _ => match r with
    | Ok (d, _) => Segment.decode_segment d = (ms, None)
    | Err _ => faulty = true end) w.
Proof.
  intros Hready. apply safe_read; [apply _|auto with cloudy| |done].
  intros n w1 HR HI. cbn [exec fst]. pose proof HI as (Hok & _). rewrite (get_ok _ _ _ Hok).
  destruct (seg_ready_stable _ _ _ _ HR Hready) as (i & b' & d & Hd & -> & Hdec & e & He & <-).
  fold sc in He. rewrite He. exact Hdec.
Qed.

(** Without failures, and if the branch's mutations can all be applied, the
    call succeeds. *)
Definition sync_live (x : nat * option error * Loader) : Prop :=
  faulty = false -> (forall i n, stop i n = None) ->
  (exists st, spec_replay empty_state (concat full) st) -> x.1.2 = None.

Lemma loop_accepts seg segs ms bs gen c part t l w :
  loop_ok (seg :: segs) (ms :: bs) gen c part t l w ->
  (exists st, spec_replay empty_state (concat full) st) -> exists t', replay kernels t ms = (None, t').
Proof.
  intros Hl [st Hst]. pose proof (loop_next _ _ _ _ _ _ _ _ _ _ Hl) as Hms.
  destruct Hl as (_ & _ & _ & _ & _ & _ & _ & _ & _ & _ & Hp & _ & Hwf & Hs).
  rewrite <-(take_drop (applied l) full), concat_app, (drop_S _ _ _ Hms) in Hst. cbn [concat] in Hst.
  apply spec_replay_app in Hst as (st1 & Hst1 & (st2 & Hst2 & _)%spec_replay_app).
  apply (replay_accepts kernels t ms st2 Hwf). apply spec_replay_app in Hs as (st1' & Hst1' & Hpart).
  rewrite (spec_replay_fun _ _ _ _ _ Hst1' Hst1) in Hpart.
  destruct Hp as [->|(k & ms' & E & ->)]; [by rewrite Hpart|].
  assert (ms' = ms) as -> by congruence. by apply (spec_replay_resume kernels st1 k ms).
Qed.

Lemma safe_sync_loop segs bs gen c part t n l w :
  gen <> "" -> loop_ok segs bs gen c part (match t with None => table l | Some t => t end) l w ->
  match t with None => n = 0%nat | Some _ => (0 < n)%nat /\ part = [] end ->
  safe (sync_loop kernels stop segs gen t n l) (fun x w => sync_post cs x w /\ sync_live x) w.
Proof.
  intros Hgen. revert bs part t n l w. induction segs as [|seg segs IH]; intros bs part t n l w Hl Ht; cbn [sync_loop].
  - cbn. set (l' := match t with Some t => with_table l t | None => l end).
    assert (loader_ok l' w) as Hok.
    { destruct t as [t|]; [|unfold l'; rewrite <-(with_table_id l)]; by eapply loop_loader_ok. }
    destruct Hl as (A1 & A2 & A3 & A4 & (m & A5 & A5') & A6 & A7 & A8 & A9 & A10 & A11 & A12 & A13 & A14).
    apply Forall2_nil_inv_l in A8. subst bs. rewrite app_nil_r in A9. cbn in A10.
    destruct A12 as [->|?]; [|done]. rewrite app_nil_r, <-A9 in A14. split; [|done]. split.
    + assert (applied l' = applied l) as El by (unfold l'; by destruct t).
      destruct Hok as (B1 & B2 & B3 & B4 & B5). cbn [snd]. split_and!; [done|done|done| |exact B5].
      right. exists m. split; [done|]. cbn. lia.
    + intros _. exists c. split_and!; [lia|done|]. unfold l'. by destruct t.
  - destruct bs as [|ms bs]; [by destruct Hl as (_ & _ & _ & _ & _ & _ & _ & HF%Forall2_nil_inv_r & _)|].
    assert (match t with None => Clone (table l) | Some t => t end =
      match t with None => table l | Some t => t end) as -> by (destruct t; [done|apply Clone_id]).
    assert (forall w' t' part' e, flush_rel w w' -> (part = [] -> loop_ok (seg :: segs) (ms :: bs) gen c part' t' l w') ->
      sync_post cs (failed_sync l n t' e) w') as Hfail.
    { intros w' t' part' e HR Hl'. unfold failed_sync. split; [|done]. cbn [snd]. case_decide.
      - destruct t as [t|]; [|lia]. eapply loop_loader_ok, Hl', Ht.
      - destruct t; [lia|]. rewrite <-(with_table_id l). by eapply loop_loader_ok, loop_ok_stable. }
    assert (lscope l = sc) as -> by apply Hl. eapply safe_bind; [apply _|apply (safe_get_segment seg ms)|].
    + destruct Hl as (_ & _ & _ & _ & _ & _ & _ & HF & _). by apply Forall2_cons in HF as [? _].
    + intros [[d o]|e] w' HR Hd; cbn beta iota in Hd.
      2: { cbn. split; [eapply Hfail; [done|]; intros ->; by eapply loop_ok_stable|]. intros Hf. congruence. }
      pose proof (loop_ok_stable _ _ _ _ _ _ _ _ _ HR Hl) as Hl'.
      destruct (load_segment_prefix kernels (stop (applied l)) d
        (match t with None => table l | Some t => t end) ms Hd) as (k & t' & Hr & oe & Hload & Hoe).
      rewrite Hload. destruct oe as [e|].
      * cbn. split; [eapply Hfail; [done|]; intros ->; by eapply loop_partial|]. intros _ Hnone Hall.
        destruct (loop_accepts _ _ _ _ _ _ _ _ _ _ Hl' Hall) as (t'' & Ht'').
        rewrite (load_segment_all kernels _ d _ ms (Hnone _) Hd), Ht'' in Hload. congruence.
      * rewrite (Hoe eq_refl) in Hr. apply (IH bs [] (Some t')); [by eapply loop_whole|]. split; [lia|done].
Qed.

Lemma safe_Sync l w : loader_ok l w -> ckpt_ge cs w ->
  safe (Sync kernels stop l) (fun x w => sync_post cs x w /\ sync_live x) w.
Proof.
  intros Hl Hcs. unfold Sync. assert (lscope l = sc) as -> by apply Hl. assert (lbranch l = b) as -> by apply Hl.
  eapply safe_bind; [apply _|by apply safe_Read_manifest_is|]. intros r w1 HR Hr.
  pose proof (loader_ok_stable _ _ _ HR Hl) as (L1 & L2 & L3 & L4 & part & Hp & Hu & Ht).
  assert (loader_ok l w1) as Hl1 by (by eapply loader_ok_stable).
  assert (ckpt_ge cs w1) as Hcs1 by (by apply HR).
  (* the table shows all of a manifest it has applied *)
  assert (forall m, manifest_is ns b w1 m -> manifest_ok ns entries base b m w1 ->
    (length (Segments m) <= applied l)%nat ->
    sync_post cs (0%nat, None, l) w1 /\ sync_live (0%nat, None, l)) as Hdone.
  { intros m Hm Hmok Hlen. split; [|done]. split; [done|]. intros _. exists (CheckpointSeq m).
    split; [by eapply ckpt_ge_is|]. split; [by exists m|].
    pose proof (upto_manifest _ m w1 L3 Hm Hmok Hu) as Hle. destruct (manifest_ready m w1 L3 Hmok) as [HF Hc].
    pose proof (Forall2_length _ _ _ HF) as Hlb. case_decide as Hnil; [subst part|lia].
    destruct Ht as [_ Ht]. rewrite app_nil_r in Ht.
    assert (batches (CheckpointSeq m) `prefix_of` full) as [tl Htl] by (apply batches_prefix; lia).
    rewrite Htl, take_app_length' in Ht by lia. done. }
  destruct r as [[m gen]|e].
  2: { cbn. destruct Hr as [(-> & Hmok & Hm)|[Hf He]]; [by apply (Hdone absentManifest); [| |cbn; lia]|].
       unfold errors_Is. case_bool_decide as E; [by subst e|].
       split; [by split|]. intros ?. congruence. }
  destruct Hr as (Hgen & Hseen & Hmok & Hm & Hat).
  pose proof (upto_manifest _ m w1 L3 Hm Hmok Hu) as Hle. destruct (manifest_ready m w1 L3 Hmok) as [HF Hc].
  destruct (decide (gen <> "" /\ gen = lastGen l)) as [[_ Hsame]|_].
  { cbn. destruct L4 as [?|(m' & Hm' & Hlen)]; [congruence|]. assert (m' = m) as ->; [|by eapply Hdone].
    rewrite <-Hsame in Hm'. unfold seen in Hm', Hseen. rewrite decide_False in Hm', Hseen by done.
    unfold gen_at in Hat. destruct (view (store w1) !! ManifestKey (MkScope ns) b) as [e|] eqn:Ee; [|congruence].
    apply proj2 in Hm', Hseen. specialize (Hm' e Ee Hat). specialize (Hseen e eq_refl Hat). congruence. }
  rewrite decide_False by (case_decide; lia).
  pose proof (Forall2_length _ _ _ HF) as Hlb. assert (batches (CheckpointSeq m) `prefix_of` full) as [tl Htl]
    by (apply batches_prefix; lia).
  assert (applied l <= length (Segments m))%nat as Hap by (case_decide; lia).
  apply (safe_sync_loop _ (drop (applied l) (batches (CheckpointSeq m))) _ (CheckpointSeq m) part); [done| |done].
  split_and!; try done; [by exists m|by exists m|by eapply ckpt_ge_is|by apply Forall2_drop| | |].
  - rewrite Htl, take_app_le by lia. by rewrite take_drop.
  - rewrite length_drop. lia.
  - case_decide as Hnil; [by left|right]. intros Hd. apply (f_equal length) in Hd. rewrite length_drop in Hd.
    cbn in Hd. lia.
Qed.

End Sync.

End Namespace.

(** ** Claims *)
Section Claim.
Context {S : Type} `{StoreLaws S} `{CodecLaws BranchCatalog, CodecLaws BranchManifest}.
Context `{Codec WalRecord, CodecLaws DocumentMutation, Codec DocRecord} (kernels : Kernels).

(** Every mutation of the log is within the 64 MiB limit of a segment's
    records. *)
Definition segments_fit (entries : list (list LRecord)) : Prop :=
  forall i b ms, flush_at entries i = Some (b, ms) ->
    exists ds, Segment.marshal_all ms = Ok ds /\ Forall (fits Crc.DefaultMaxRecordSize) ds.

(** A loader that syncs once per element of [stops], and the outcome of the
    last. *)
Fixpoint sync_times (stops : list (nat -> nat -> option error)) (x : nat * option error * Loader)
  : prog (nat * option error * Loader) :=
  match stops with
  | [] => Ret x
  | stop :: stops => y ← Sync kernels stop x.2; sync_times stops y
  end.
Definition loader_client (ns b : string) (stops : list (nat -> nat -> option error)) :
    prog (nat * option error * Loader) :=
  sync_times stops (0%nat, Some (Msg "not synced"), new_loader ns b).

(** Flushers and loaders of a namespace. *)
Definition outcome : Type := (res unit * streamFlusher) + (nat * option error * Loader).
Definition pool (ns b : string) (flushers : list (nat * nat * nat))
    (loaders : list (list (nat -> nat -> option error))) : list (prog outcome) :=
  ((fun c => x ← flusher_client ns c; Ret (inl x)) <$> flushers) ++
  ((fun stops => x ← loader_client ns b stops; Ret (inr x)) <$> loaders).

Definition outcome_post (ns : string) (entries : list (list LRecord)) (base : string -> BranchManifest)
    (b : string) (base_batches : list (list DocumentMutation)) (cs : Z) (x : outcome) (w : world S) : Prop :=
  match x with
  | inl _ => True
  | inr y => sync_post kernels ns entries base b base_batches cs y w
  end.

Lemma concat_partial {A} (full : list (list A)) n k ms : full !! n = Some ms ->
  concat (take n full) ++ take k ms `prefix_of` concat full.
Proof.
  intros E. rewrite <-(take_drop n full) at 2. rewrite concat_app. apply prefix_app.
  rewrite (drop_S _ _ _ E). cbn. rewrite <-(take_drop k ms) at 2. rewrite <-app_assoc. by apply prefix_app_r.
Qed.

Lemma loader_shows ns entries base b base_batches l (w : world S) :
  loader_ok kernels ns entries base b base_batches l w ->
  wf kernels (table l) /\
  exists ms, ms `prefix_of` concat (batches entries base b base_batches (Z.of_nat (length entries))) /\
    spec_replay kernels empty_state ms (abs kernels (table l)).
Proof.
  intros (_ & _ & _ & _ & part & Hp & _ & Hwf & Hs). split; [done|]. eexists. split; [|exact Hs].
  destruct Hp as [->|(k & ms & E & ->)]; [|by apply concat_partial].
  rewrite app_nil_r. rewrite <-(take_drop (applied l) (batches _ _ _ _ _)) at 2. rewrite concat_app.
  by apply prefix_app_r.
Qed.

Section Pool.
Context (faulty : bool) (ns : string) (entries : list (list LRecord)) (base : string -> BranchManifest).
Context (b : string) (base_batches : list (list DocumentMutation)) (cs : Z) (n : nat) (w : world S).
Context (Hns : valid_name ns) (Hb : valid_name b) (Hgood : good_log entries) (Hfit : segments_fit entries).
Context (Hst : flush_start ns entries base n w) (Hbase : base_ready ns entries base b base_batches w).
Context (Hcs : ckpt_ge ns b cs w).
Abbreviation inv := (flush_inv ns entries base).
Abbreviation rel := (flush_rel ns entries).
Abbreviation post := (sync_post kernels ns entries base b base_batches cs).

Lemma new_loader_ok : loader_ok kernels ns entries base b base_batches (new_loader ns b) w.
Proof.
  apply fresh_loader_ok; [done|]. destruct Hst as (_ & _ & HM & _). destruct (HM b Hb) as (Hm & _ & Hlg & _).
  exists (CheckpointSeq (base b)). split; [by exists (base b)|]. split; [by eapply log_ge_bound|lia].
Qed.

Lemma safe_sync_times stops x w1 : post x w1 -> ckpt_ge ns b cs w1 ->
  safe faulty inv rel (sync_times stops x) post w1.
Proof.
  revert x w1. induction stops as [|stop stops IH]; intros x w1 Hx Hc; cbn [sync_times]; [done|].
  destruct Hgood as (_ & _ & _ & HN & _). eapply safe_bind; [apply _|apply safe_Sync; try done; apply Hx|].
  intros y w2 HR [Hy _]. apply IH; [done|]. by apply HR.
Qed.

Lemma outcome_post_stable : stable rel (outcome_post ns entries base b base_batches cs).
Proof. intros [x|x] w1 w2 HR; [done|]. destruct Hgood as (_ & _ & _ & HN & _). by apply sync_post_stable. Qed.

Lemma pool_is_safe flushers loaders :
  let p := pool ns b flushers loaders in
  pool_safe faulty inv rel p ((fun _ => outcome_post ns entries base b base_batches cs) <$> p) w.
Proof.
  pose proof Hgood as (L1 & L2 & L3 & L4 & L5 & L6). assert (log_ge ns entries 0 w) as Hl0 by apply Hst.
  intros p. apply Forall2_fmap_r, Forall_Forall2_diag. unfold p, pool. apply Forall_app. split; apply Forall_fmap, Forall_true.
  - intros [[fuel polls] counter]. cbn [compose]. eapply safe_bind; [apply _|by apply (safe_Run faulty ns entries base) with (k0 := 0)|].
    done.
  - intros stops. eapply safe_bind; [apply _|apply safe_sync_times; [|done]|].
    + split; [apply new_loader_ok|done].
    + done.
Qed.

(** The pool at any moment. *)
Lemma pool_reach flushers loaders ts n' w' :
  rtc (estep faulty (others ns entries)) (pool ns b flushers loaders, (n, w)) (ts, (n', w')) ->
  inv n' w' /\ pool_safe faulty inv rel ts
    ((fun _ => outcome_post ns entries base b base_batches cs) <$> pool ns b flushers loaders) w'.
Proof.
  intros Hsteps. pose proof Hgood as (L1 & L2 & L3 & L4 & L5 & L6).
  pose proof (flush_start_inv _ _ _ _ _ Hst) as HI.
  destruct (pool_steps_env faulty inv rel (others ns entries)
    ((fun _ => outcome_post ns entries base b base_batches cs) <$> pool ns b flushers loaders)
    (pool ns b flushers loaders) n w ts n' w') as (HI' & HR & Hpool); [| |apply pool_is_safe|done|done|done].
  - intros n1 w1 n2 w2 Ha HI1. by eapply others_safe.
  - apply Forall_fmap, Forall_true. intros ?. apply outcome_post_stable.
Qed.

Lemma pool_loader flushers loaders ts n' w' :
  rtc (estep faulty (others ns entries)) (pool ns b flushers loaders, (n, w)) (ts, (n', w')) ->
  inv n' w' /\ forall j x, ts !! j = Some (Ret (inr x)) -> post x w'.
Proof.
  intros [HI Hpool]%pool_reach. split; [done|]. intros j x Hj.
  destruct (Forall2_lookup_l _ _ _ _ _ Hpool Hj) as (Q' & HQ' & Hsafe).
  rewrite list_lookup_fmap in HQ'. destruct (pool _ _ _ _ !! j); [|done]. by injection HQ' as <-.
Qed.

(** One step of it. *)
Lemma pool_next flushers loaders ts n1 w1 ts' n2 w2 :
  rtc (estep faulty (others ns entries)) (pool ns b flushers loaders, (n, w)) (ts, (n1, w1)) ->
  pstep faulty (ts, (n1, w1)) (ts', (n2, w2)) -> inv n2 w2 /\ rel w1 w2.
Proof.
  intros [HI Hpool]%pool_reach Hst1.
  destruct (pool_step faulty inv rel ((fun _ => outcome_post ns entries base b base_batches cs) <$> pool ns b flushers loaders)
    ts n1 w1 ts' n2 w2) as (? & ? & _); try done.
  apply Forall_fmap, Forall_true. intros ?. apply outcome_post_stable.
Qed.

End Pool.
End Claim.

(** C3. A query sees the log: flushers of a namespace and loaders of one of
    its branches run at the same time, with writers appending to the log and
    others writing other namespaces' objects and the catalog,
    over calls that fail and contexts that are cancelled anywhere.  A
    loader's table is always well formed and the replay of a prefix of the
    branch's mutations in log order, a prefix that may end within the batch of
    an entry when a [Sync] failed there; and when its last [Sync] reports no
    error, the prefix consists of every batch of the branch's log entries up
    to a checkpoint no older than the manifest was at the start, each applied
    exactly once in effect. *)
Theorem query_sees_log {S} `{StoreLaws S} `{CodecLaws BranchCatalog, CodecLaws BranchManifest}
    `{Codec WalRecord, CodecLaws DocumentMutation, Codec DocRecord} (faulty : bool) kernels
    ns entries base b base_batches flushers loaders cs n (w : world S) ts n' w' :
  valid_name ns -> valid_name b -> good_log entries -> segments_fit entries ->
  flush_start ns entries base n w -> base_ready ns entries base b base_batches w -> ckpt_ge ns b cs w ->
  rtc (estep faulty (others ns entries)) (pool kernels ns b flushers loaders, (n, w)) (ts, (n', w')) ->
  forall j k e l, ts !! j = Some (Ret (inr (k, e, l))) ->
    wf kernels (table l) /\
    (exists ms st, ms `prefix_of` concat (batches entries base b base_batches (Z.of_nat (length entries))) /\
       spec_replay kernels empty_state ms st /\ forall id, Table.Get kernels (table l) id = docs st !! id) /\
    (e = None -> exists c st, cs <= c /\ ckpt_ge ns b c w' /\
       spec_replay kernels empty_state (concat (batches entries base b base_batches c)) st /\
       forall id, Table.Get kernels (table l) id = docs st !! id).
Proof.
  intros Hns Hb Hgood Hfit Hst Hbase Hcs Hsteps j k e l Hj.
  destruct (pool_loader kernels faulty ns entries base b base_batches cs n w Hns Hb Hgood Hfit Hst Hbase Hcs
    flushers loaders ts n' w' Hsteps) as [_ Hloaders].
  destruct (Hloaders j (k, e, l) Hj) as [Hl Hs]. cbn [fst snd] in Hl, Hs.
  destruct (loader_shows _ _ _ _ _ _ _ _ Hl) as (Hwf & ms & Hms & Hr). split; [done|]. split.
  - exists ms, (abs kernels (table l)). split_and!; [done|done|]. intros id. by rewrite abs_Get.
  - intros E. destruct (Hs E) as (c & ? & ? & ?). exists c, (abs kernels (table l)). split_and!; try done.
    intros id. by rewrite abs_Get.
Qed.

(** [Sync] only reads. *)
Lemma reading_sync_loop {S} `{StoreLaws S} `{Codec DocumentMutation, Codec DocRecord} kernels stop segs gen t n l :
  reading (S := S) (sync_loop kernels stop segs gen t n l).
Proof.
  revert t n l. induction segs as [|seg segs IH]; intros t n l; cbn [sync_loop]; [done|].
  apply reading_bind; [apply reading_call; auto with cloudy|]. intros [[d o]|e]; [|done].
  destruct (load_segment _ _ _ _) as [[e|] t']; [done|apply IH].
Qed.

Lemma reading_Sync {S} `{StoreLaws S} `{Codec BranchManifest, Codec DocumentMutation, Codec DocRecord} kernels stop l :
  reading (S := S) (Sync kernels stop l).
Proof.
  apply reading_bind.
  - apply reading_try; [apply reading_call; auto with cloudy|]. intros [d o]. rewrite try_lift.
    by destruct (Unmarshal d).
  - intros [[m gen]|e]; [|done]. repeat case_decide; [done|done|apply reading_sync_loop].
Qed.

(** The next [Sync] of a loader on an undisturbed store, whatever the loader
    has been through. *)
Lemma run_Sync_ok {S} `{StoreLaws S} `{CodecLaws BranchCatalog, CodecLaws BranchManifest}
    `{Codec WalRecord, CodecLaws DocumentMutation, Codec DocRecord} kernels
    ns entries base b base_batches l n (w : world S) m :
  valid_name ns -> valid_name b -> good_log entries -> segments_fit entries ->
  flush_inv ns entries base n w -> manifest_is ns b w m ->
  loader_ok kernels ns entries base b base_batches l w ->
  (exists st, spec_replay kernels empty_state (concat (batches entries base b base_batches (Z.of_nat (length entries)))) st) ->
  exists k' l', run (Sync kernels (fun _ _ => None) l) w = (k', None, l', w) /\
    spec_replay kernels empty_state (concat (batches entries base b base_batches (CheckpointSeq m))) (abs kernels (table l')).
Proof.
  intros Hns Hb (L1 & L2 & L3 & L4 & L5 & L6) Hfit HI Hm Hl Hacc.
  destruct (run (Sync kernels (fun _ _ => None) l) w) as [[[k' e'] l'] w2] eqn:Erun.
  destruct (run_safe false (flush_inv ns entries base) (flush_rel ns entries) (Sync kernels (fun _ _ => None) l)
    (fun x w => sync_post kernels ns entries base b base_batches (CheckpointSeq m) x w /\
       sync_live false kernels entries base b base_batches (fun _ _ => None) x) n w (k', e', l') w2)
    as [[[Hl' Hs] Hlive] ->]; [apply reading_Sync| |done|done|].
  { apply safe_Sync; try done. exists m. by split. }
  specialize (Hlive eq_refl (fun _ _ => eq_refl) Hacc). cbn [fst snd] in *. subst e'. exists k', l'. split; [done|].
  destruct (Hs eq_refl) as (c & Hc & Hck & Hr). pose proof (ckpt_ge_is _ _ _ _ _ Hm Hck).
  by replace (CheckpointSeq m) with c by lia.
Qed.

(** C12. Loading catches up: whatever failures and cancellations a loader has
    been through, however much of a batch it had applied, its next [Sync]
    that is not disturbed succeeds, provided the branch's mutations can be
    applied at all, and its table then shows every batch that any manifest
    listed up to now. *)
Theorem sync_catches_up {S} `{StoreLaws S} `{CodecLaws BranchCatalog, CodecLaws BranchManifest}
    `{Codec WalRecord, CodecLaws DocumentMutation, Codec DocRecord} (faulty : bool) kernels
    ns entries base b base_batches flushers loaders n (w : world S) ts n' w' j k e l :
  valid_name ns -> valid_name b -> good_log entries -> segments_fit entries ->
  flush_start ns entries base n w -> base_ready ns entries base b base_batches w ->
  (exists st, spec_replay kernels empty_state (concat (batches entries base b base_batches (Z.of_nat (length entries)))) st) ->
  rtc (estep faulty (others ns entries)) (pool kernels ns b flushers loaders, (n, w)) (ts, (n', w')) ->
  ts !! j = Some (Ret (inr (k, e, l))) ->
  exists k' l', run (Sync kernels (fun _ _ => None) l) w' = (k', None, l', w') /\
    exists c st, (forall c', ckpt_ge ns b c' w' -> c' <= c) /\ ckpt_ge ns b c w' /\
      spec_replay kernels empty_state (concat (batches entries base b base_batches c)) st /\
      forall id, Table.Get kernels (table l') id = docs st !! id.
Proof.
  intros Hns Hb Hgood Hfit Hst Hbase Hacc Hsteps Hj.
  assert (ckpt_ge ns b (CheckpointSeq (base b)) w) as Hcs.
  { exists (base b). split; [|done]. destruct Hst as (_ & _ & HM & _). by apply HM. }
  destruct (pool_loader kernels faulty ns entries base b base_batches _ n w Hns Hb Hgood Hfit Hst Hbase Hcs
    flushers loaders ts n' w' Hsteps) as [HI' Hloaders].
  destruct (Hloaders j (k, e, l) Hj) as [Hl _]. cbn [snd] in Hl.
  pose proof HI' as (_ & _ & HM & _). destruct (HM b Hb) as (m & Hm & _).
  destruct (run_Sync_ok kernels ns entries base b base_batches l n' w' m) as (k' & l' & Hsync & Hr); try done.
  exists k', l'. split; [done|]. exists (CheckpointSeq m), (abs kernels (table l')). split_and!; try done.
  - intros c' Hc'. by eapply ckpt_ge_is.
  - by exists m.
  - intros id. by rewrite abs_Get.
Qed.

(** ** A batch that cannot be applied *)
Section Poisoned.
Context {S : Type} `{StoreLaws S} `{CodecLaws BranchCatalog, CodecLaws BranchManifest}.
Context `{Codec WalRecord, CodecLaws DocumentMutation, Codec DocRecord} (kernels : Kernels).
Context (faulty : bool) (ns : string) (entries : list (list LRecord)) (base : string -> BranchManifest).
Context (b : string) (base_batches : list (list DocumentMutation)) (k : nat).
Context (Hns : valid_name ns) (Hb : valid_name b) (Hgood : good_log entries) (Hfit : segments_fit entries).
Abbreviation inv := (flush_inv ns entries base).
Abbreviation rel := (flush_rel ns entries).
Abbreviation batches := (batches entries base b base_batches).
Abbreviation loader_ok := (loader_ok kernels ns entries base b base_batches).

(** The branch's batches up to and with number [k], from 0. *)
Definition upto_batch : list DocumentMutation := concat (take (Datatypes.S k) (batches (Z.of_nat (length entries)))).

(** Batch [k] cannot be applied after those before it. *)
Context (Hbad : forall st, ~ spec_replay kernels empty_state upto_batch st).

(** The loader shows a part of the log that ends before the end of batch [k]. *)
Definition stuck (l : Loader) : Prop :=
  exists ms st, ms `prefix_of` upto_batch /\ ms <> upto_batch /\ spec_replay kernels empty_state ms st /\
    forall id, Table.Get kernels (table l) id = docs st !! id.

Lemma loader_stuck l w : loader_ok l w -> stuck l.
Proof.
  intros (Hwf & ms & Hp & Hs)%loader_shows. exists ms, (abs kernels (table l)).
  assert (upto_batch `prefix_of` concat (batches (Z.of_nat (length entries)))) as Hk.
  { unfold upto_batch. rewrite <-(take_drop (Datatypes.S k) (batches _)) at 2. rewrite concat_app. by apply prefix_app_r. }
  assert (forall tl, ms = upto_batch ++ tl -> False) as Hno.
  { intros tl ->. apply spec_replay_app in Hs as (st & Hst & _). by apply Hbad in Hst. }
  split_and!; [|intros ->; by apply (Hno []); rewrite app_nil_r|done|intros id; by rewrite abs_Get].
  destruct (prefix_weak_total _ _ _ Hp Hk) as [?|[tl Htl]]; [done|]. by destruct (Hno tl).
Qed.

(** No [Sync] that finds batch [k] in the manifest reports success. *)
Lemma shown_stuck m w c st : base_ready ns entries base b base_batches w -> manifest_ok ns entries base b m w ->
  (k < length (Segments m))%nat -> CheckpointSeq m <= c ->
  ~ spec_replay kernels empty_state (concat (batches c)) st.
Proof.
  intros Hbase Hm Hk Hc Hs. pose proof Hgood as (_ & _ & _ & HN & HZ & _).
  destruct (manifest_ready ns entries base b base_batches Hfit m w Hbase Hm) as [HF Hle].
  pose proof (Forall2_length _ _ _ HF) as Hl.
  destruct (batches_prefix entries base b base_batches (CheckpointSeq m) c Hc) as [t1 E1].
  destruct (batches_prefix entries base b base_batches (CheckpointSeq m) (Z.of_nat (length entries)) Hle) as [t2 E2].
  assert (upto_batch = concat (take (Datatypes.S k) (batches (CheckpointSeq m)))) as Eu
    by (unfold upto_batch; by rewrite E2, take_app_le by lia).
  rewrite E1, <-(take_drop (Datatypes.S k) (batches (CheckpointSeq m))), <-app_assoc, concat_app, <-Eu in Hs.
  apply spec_replay_app in Hs as (st1 & Hst1 & _). by apply Hbad in Hst1.
Qed.

(** Flushers, and a loader that goes on from the outcome [x]. *)
Definition resumed (flushers : list (nat * nat * nat)) (stops : list (nat -> nat -> option error))
    (x : nat * option error * Loader) : list (prog outcome) :=
  ((fun c => y ← flusher_client ns c; Ret (inl y)) <$> flushers) ++ [y ← sync_times kernels stops x; Ret (inr y)].

Lemma resumed_fails flushers stops x m n w ts n' w' i y : inv n w -> loader_ok x.2 w ->
  manifest_is ns b w m -> (k < length (Segments m))%nat -> stops <> [] ->
  rtc (estep faulty (others ns entries)) (resumed flushers stops x, (n, w)) (ts, (n', w')) ->
  ts !! i = Some (Ret (inr y)) -> y.1.2 <> None /\ stuck y.2.
Proof.
  intros HI Hl Hm Hk Hne Hsteps Hi. pose proof Hgood as (L1 & L2 & L3 & L4 & L5 & L6).
  pose proof HI as (_ & Hl0 & HM & _). destruct (HM b Hb) as (m' & Hm' & Hmok).
  rewrite (holds_unique _ _ _ _ _ Hm' Hm) in Hmok. set (cs := CheckpointSeq m).
  assert (ckpt_ge ns b cs w) as Hcs by (by exists m). assert (base_ready ns entries base b base_batches w) as Hbase by apply Hl.
  set (Q := outcome_post kernels ns entries base b base_batches cs).
  destruct (pool_steps_env faulty inv rel (others ns entries) ((fun _ => Q) <$> resumed flushers stops x)
    (resumed flushers stops x) n w ts n' w') as (HI' & HR & Hpool); [| | |done|done|].
  - intros n1 w1 n2 w2 Ha HI1. by eapply others_safe.
  - apply Forall_fmap, Forall_true. intros ?. by eapply outcome_post_stable.
  - apply Forall2_fmap_r, Forall_Forall2_diag. unfold resumed. apply Forall_app. split.
    + apply Forall_fmap, Forall_true. intros [[fuel polls] counter]. cbn [compose].
      eapply safe_bind; [apply _|by apply (safe_Run faulty ns entries base) with (k0 := 0)|done].
    + apply Forall_singleton. destruct stops as [|stop stops]; [done|]. cbn [sync_times].
      eapply safe_bind; [apply _| |]; [eapply safe_bind; [apply _|by apply safe_Sync|]|].
      * intros y' w1 HR1 [Hy _]. eapply (safe_sync_times kernels faulty ns entries base b base_batches cs); try done. by apply HR1.
      * done.
  - destruct (Forall2_lookup_l _ _ _ _ _ Hpool Hi) as (Q' & HQ' & Hsafe). rewrite list_lookup_fmap in HQ'.
    destruct (resumed _ _ _ !! i); [|done]. injection HQ' as <-. destruct Hsafe as [Hly Hs].
    split; [|by eapply loader_stuck]. intros E. destruct (Hs E) as (c & Hc & _ & Hst). by eapply (shown_stuck m w c).
Qed.

End Poisoned.

(** C35. A batch that cannot be applied stops the branch for good (the ingester
    accepts a vector whose dimension is not the column's).  Let the branch's
    batch number [k] be one that cannot be applied after those before it.
    Flushers, loaders and writers run over failing calls and cancelled
    contexts, and go on writing after it.  At no moment does a loader show
    all of batch [k], let alone anything of a later batch; and once the
    manifest lists it, a loader that goes on to [Sync], however often, with
    whatever is appended and flushed meanwhile, ends with an error. *)
Theorem sync_poisoned {S} `{StoreLaws S} `{CodecLaws BranchCatalog, CodecLaws BranchManifest}
    `{Codec WalRecord, CodecLaws DocumentMutation, Codec DocRecord} (faulty : bool) kernels
    ns entries base b base_batches k flushers loaders n (w : world S) ts n' w' j x :
  valid_name ns -> valid_name b -> good_log entries -> segments_fit entries ->
  flush_start ns entries base n w -> base_ready ns entries base b base_batches w ->
  (forall st, ~ spec_replay kernels empty_state (upto_batch entries base b base_batches k) st) ->
  rtc (estep faulty (others ns entries)) (pool kernels ns b flushers loaders, (n, w)) (ts, (n', w')) ->
  ts !! j = Some (Ret (inr x)) ->
  stuck kernels entries base b base_batches k x.2 /\
  forall m flushers' stops ts' n2 w2 i y, manifest_is ns b w' m -> (k < length (Segments m))%nat -> stops <> [] ->
    rtc (estep faulty (others ns entries)) (resumed kernels ns flushers' stops x, (n', w')) (ts', (n2, w2)) ->
    ts' !! i = Some (Ret (inr y)) -> y.1.2 <> None /\ stuck kernels entries base b base_batches k y.2.
Proof.
  intros Hns Hb Hgood Hfit Hst Hbase Hbad Hsteps Hj.
  assert (ckpt_ge ns b (CheckpointSeq (base b)) w) as Hcs.
  { exists (base b). split; [|done]. destruct Hst as (_ & _ & HM & _). by apply HM. }
  destruct (pool_loader kernels faulty ns entries base b base_batches _ n w Hns Hb Hgood Hfit Hst Hbase Hcs
    flushers loaders ts n' w' Hsteps) as [HI Hloaders]. destruct (Hloaders j x Hj) as [Hl _].
  split; [by eapply loader_stuck|]. intros m flushers' stops ts' n2 w2 i y Hm Hk Hne Hsteps' Hi.
  by eapply (resumed_fails kernels faulty ns entries base b base_batches k).
Qed.

(** ** Witness: an entry is appended, flushed, and loaded *)
#[local] Existing Instances ex_branches_codec ex_branches_laws ex_manifest_codec ex_manifest_laws ex_wal_codec ex_mut_codec ex_mut_laws.
(** Records under the id "d" whose vector "v" is all ones, one byte each. *)
Definition ex_record (dim : nat) : DocRecord := MkRecord "d" {[ "v" := replicate dim fone ]} ∅.
#[local] Instance ex_record_codec : Codec DocRecord := {|
  Marshal r := Ok (replicate (length (default [] (Vectors r !! "v"))) x00);
  Unmarshal d := Ok (ex_record (length d)) |}.

Definition ex_pool (stop : option error) : list (prog outcome) :=
  pool pureKernels "docs" "main" [(3, 0, 0)]%nat [[fun _ _ => stop]].
Definition ex_sched : list nat := replicate 10 0%nat ++ replicate 2 1%nat.

Definition ex_loaded (ts : list (prog outcome)) : option (nat * option error * option DocRecord) :=
  match ts !! 1%nat with
  | Some (Ret (inr (k, e, l))) => Some (k, e, Table.Get pureKernels (table l) "d")
  | _ => None
  end.

Lemma ex_pool_runs : match interleave ex_sched (ex_pool None) 49 ex_flush_w1 with
  | Some (ts, _) => ex_loaded ts = Some (1%nat, None, Some (ex_record 1))
  | None => False
  end.
Proof. vm_compute. reflexivity. Qed.

Lemma ex_pool_steps stop c : interleave ex_sched (ex_pool stop) 49 ex_flush_w1 = Some c ->
  rtc (estep false (others "docs" ex_entries)) (ex_pool stop, (50%nat, MkWorld Mem.newMemStore ∅)) c.
Proof.
  intros E. eapply rtc_l; [apply EEnv, OtherAppend, ex_flush_appends|].
  by eapply interleave_esteps.
Qed.

Lemma ex_segments_fit : segments_fit ex_entries.
Proof.
  intros i b ms (_ & _ & ->)%ex_flush_at. exists [pos_bytes (encode ex_mut)]. split.
  - vm_compute. reflexivity.
  - apply (Forall_impl (fun r => Z.of_nat (length r) <= 1000)); [|exact fits_default].
    apply Forall_singleton. vm_compute. discriminate.
Qed.

Lemma ex_ckpt : ckpt_ge "docs" "main" 0 (MkWorld Mem.newMemStore ∅).
Proof. exists absentManifest. split; [reflexivity|]. cbn. lia. Qed.

Lemma query_sees_log_witness : exists ts n' w' l c st,
  rtc (estep false (others "docs" ex_entries)) (ex_pool None, (50%nat, MkWorld Mem.newMemStore ∅)) (ts, (n', w')) /\
  Table.Get pureKernels (table l) "d" = Some (ex_record 1) /\
  ckpt_ge "docs" "main" c w' /\
  spec_replay pureKernels empty_state (concat (batches ex_entries (fun _ => absentManifest) "main" [] c)) st /\
  Table.Get pureKernels (table l) "d" = docs st !! "d".
Proof.
  pose proof ex_pool_runs as Hr.
  destruct (interleave _ _ _ _) as [[ts [n' w']]|] eqn:E; [|destruct Hr].
  apply ex_pool_steps in E. unfold ex_loaded in Hr.
  destruct (ts !! 1%nat) as [[[x|[[k e] l]]|]|] eqn:Ej; [discriminate Hr| |discriminate Hr..].
  injection Hr as -> -> Hg.
  destruct (query_sees_log false pureKernels "docs" ex_entries (fun _ => absentManifest) "main" []
    [(3, 0, 0)]%nat [[fun _ _ => None]] 0 50 (MkWorld Mem.newMemStore ∅) ts n' w') with (j := 1%nat) (4 := ex_segments_fit)
      (8 := E) (9 := Ej) as (_ & _ & Hs).
  - reflexivity.
  - reflexivity.
  - exact ex_good_log.
  - exact (ex_flush_start "docs").
  - constructor.
  - exact ex_ckpt.
  - destruct (Hs eq_refl) as (c & st & _ & Hc & Hst & Hall).
    exists ts, n', w', l, c, st. split; [exact E|]. split; [exact Hg|]. split; [exact Hc|].
    split; [exact Hst|apply Hall].
Defined.

(** *** A loader that was cancelled catches up *)
Lemma ex_pool_cancelled : match interleave ex_sched (ex_pool (Some Canceled)) 49 ex_flush_w1 with
  | Some (ts, _) => ex_loaded ts = Some (0%nat, Some Canceled, None)
  | None => False
  end.
Proof. vm_compute. reflexivity. Qed.

Lemma ex_accepts : exists st, spec_replay pureKernels empty_state
  (concat (batches ex_entries (fun _ => absentManifest) "main" [] (Z.of_nat (length ex_entries)))) st.
Proof.
  replace (batches _ _ _ _ _) with [[ex_mut]] by (vm_compute; reflexivity).
  destruct (replay pureKernels NewTable (concat [[ex_mut]])) as [oe t] eqn:E.
  assert ((replay pureKernels NewTable (concat [[ex_mut]])).1 = None) as En by (vm_compute; reflexivity).
  rewrite E in En. cbn in En. subst oe. exists (abs pureKernels t).
  destruct (NewTable_refines pureKernels) as [Hwf Ha]. unfold empty_state. rewrite <-Ha.
  by apply replay_refines.
Qed.

Lemma sync_catches_up_witness : exists ts n' w' l k' l' c st,
  rtc (estep false (others "docs" ex_entries)) (ex_pool (Some Canceled), (50%nat, MkWorld Mem.newMemStore ∅))
    (ts, (n', w')) /\
  Table.Get pureKernels (table l) "d" = None /\
  run (Sync pureKernels (fun _ _ => None) l) w' = (k', None, l', w') /\
  spec_replay pureKernels empty_state (concat (batches ex_entries (fun _ => absentManifest) "main" [] c)) st /\
  Table.Get pureKernels (table l') "d" = docs st !! "d".
Proof.
  pose proof ex_pool_cancelled as Hr.
  destruct (interleave _ _ _ _) as [[ts [n' w']]|] eqn:E; [|destruct Hr].
  apply ex_pool_steps in E. unfold ex_loaded in Hr.
  destruct (ts !! 1%nat) as [[[x|[[k e] l]]|]|] eqn:Ej; [discriminate Hr| |discriminate Hr..].
  injection Hr as _ _ Hg.
  destruct (sync_catches_up false pureKernels "docs" ex_entries (fun _ => absentManifest) "main" []
    [(3, 0, 0)]%nat [[fun _ _ => Some Canceled]] 50 (MkWorld Mem.newMemStore ∅) ts n' w' 1 k e l)
    as (k' & l' & Hrun & c & st & _ & _ & Hst & Hall).
  - reflexivity.
  - reflexivity.
  - exact ex_good_log.
  - exact ex_segments_fit.
  - exact (ex_flush_start "docs").
  - constructor.
  - exact ex_accepts.
  - exact E.
  - exact Ej.
  - exists ts, n', w', l, k', l', c, st. split; [exact E|]. split; [exact Hg|]. split; [exact Hrun|].
    split; [exact Hst|apply Hall].
Defined.

(** *** An upsert with a vector of another dimension than the one before it *)
Definition ex_poison : list DocumentMutation :=
  [MkMutation "main" "d" PUT [x00]; MkMutation "main" "d" PUT [x00; x00]].
Definition ex_poison_entry : list LRecord :=
  omap (fun m => match Marshal (WalMutation m) with Ok d => Some d | Err _ => None end) ex_poison.
Definition ex_poison_log : list (list LRecord) := [ex_poison_entry].

Lemma ex_poison_flush : entry_flush ex_poison_entry = Some ("main", ex_poison).
Proof. vm_compute. reflexivity. Qed.

Lemma ex_poison_good : good_log ex_poison_log.
Proof.
  destruct (Segment.encode_segment ex_poison) as [d|e] eqn:Ed; [|exfalso; revert Ed; vm_compute; discriminate].
  apply (single_good_log _ _ _ d ex_poison_flush).
  - intros rs E. right. assert (decode_wal ex_poison_entry = Ok (WalMutation <$> ex_poison)) as E' by (vm_compute; reflexivity).
    rewrite E' in E. injection E as <-. reflexivity.
  - apply (Forall_impl (fun r => Z.of_nat (length r) <= 1000)); [|exact fits_default].
    vm_compute. repeat constructor; discriminate.
  - vm_compute. reflexivity.
  - reflexivity.
  - exact Ed.
  - apply (f_equal (fun r => match r with Ok d => Z.of_nat (length d) | Err _ => 0 end)) in Ed.
    unfold slice_len. rewrite <-Ed. vm_compute. reflexivity.
Qed.

Lemma ex_poison_fit : segments_fit ex_poison_log.
Proof.
  intros i b ms E. destruct (single_flush_at _ _ _ _ _ _ ex_poison_flush E) as (_ & _ & ->).
  exists (pos_bytes ∘ encode <$> ex_poison). split.
  - vm_compute. reflexivity.
  - apply (Forall_impl (fun r => Z.of_nat (length r) <= 1000)); [|exact fits_default].
    vm_compute. repeat constructor; discriminate.
Qed.

Lemma ex_poison_rejected st :
  ~ spec_replay pureKernels empty_state (upto_batch ex_poison_log (fun _ => absentManifest) "main" [] 0) st.
Proof.
  assert (upto_batch ex_poison_log (fun _ => absentManifest) "main" [] 0 = ex_poison) as -> by (vm_compute; reflexivity).
  intros Hs. destruct (NewTable_refines pureKernels) as [Hwf Ha]. unfold empty_state in Hs. rewrite <-Ha in Hs.
  destruct (replay_accepts pureKernels NewTable ex_poison st Hwf Hs) as [t Ht].
  apply (f_equal fst) in Ht. revert Ht. vm_compute. discriminate.
Qed.

Definition ex_poison_w1 : world Mem.memStore :=
  (exec (OPut (segmentKey "ns/docs/wal" 1) (frames ex_poison_entry) IfAbsent) (MkWorld Mem.newMemStore ∅)).2.

Lemma ex_poison_steps c : interleave ex_sched (ex_pool None) 49 ex_poison_w1 = Some c ->
  rtc (estep false (others "docs" ex_poison_log)) (ex_pool None, (50%nat, MkWorld Mem.newMemStore ∅)) c.
Proof.
  intros E. eapply rtc_l; [apply EEnv, OtherAppend|by eapply interleave_esteps].
  exists 0%nat, ex_poison_entry. eexists. split; [apply empty_log|]. split; [reflexivity|]. split; [reflexivity|].
  cbn [fst snd]. unfold ex_poison_w1. vm_compute. reflexivity.
Qed.

(** The manifest lists the segment, and the loader has failed; it fails again. *)
Lemma ex_poison_runs : match interleave ex_sched (ex_pool None) 49 ex_poison_w1 with
  | Some (ts, (n', w')) =>
    match ts !! 1%nat with
    | Some (Ret (inr x)) => x.1 = (0%nat, Some ErrDimensionMismatch) /\
        length (Segments (default absentManifest match view (store w') !! ManifestKey (MkScope "docs") "main" with
          | Some e => match Unmarshal (data e) with Ok m => Some m | Err _ => None end | None => None end)) = 1%nat /\
        match interleave [0; 0]%nat (resumed pureKernels "docs" [] [fun _ _ => None] x) n' w' with
        | Some (ts', _) => match ts' !! 0%nat with Some (Ret (inr _)) => True | _ => False end
        | None => False
        end
    | _ => False
    end
  | None => False
  end.
Proof. vm_compute. repeat split; reflexivity. Qed.

Lemma sync_poisoned_witness : exists x w' y,
  x.1 = (0%nat, Some ErrDimensionMismatch) /\ y.1.2 <> None /\
  stuck pureKernels ex_poison_log (fun _ => absentManifest) "main" [] 0 y.2 /\
  exists n' ts' c', rtc (estep false (others "docs" ex_poison_log))
    (resumed pureKernels "docs" [] [fun _ _ => None] x, (n', w')) (ts', c') /\ ts' !! 0%nat = Some (Ret (inr y)).
Proof.
  pose proof ex_poison_runs as Hr.
  destruct (interleave _ _ 49 _) as [[ts [n' w']]|] eqn:E; [|destruct Hr].
  apply ex_poison_steps in E. destruct (ts !! 1%nat) as [[[z|x]|]|] eqn:Ej; [destruct Hr| |destruct Hr..].
  destruct Hr as (Hx & Hlen & Hres).
  destruct (interleave [0; 0]%nat _ n' w') as [[ts' [n2 w2]]|] eqn:E2; [|destruct Hres].
  apply (interleave_esteps false (others "docs" ex_poison_log)) in E2.
  destruct (ts' !! 0%nat) as [[[z|y]|]|] eqn:Ei; [destruct Hres| |destruct Hres..].
  destruct (sync_poisoned false pureKernels "docs" ex_poison_log (fun _ => absentManifest) "main" [] 0
    [(3, 0, 0)]%nat [[fun _ _ => None]] 50 (MkWorld Mem.newMemStore ∅) ts n' w' 1 x) as [_ Hs].
  - reflexivity.
  - reflexivity.
  - exact ex_poison_good.
  - exact ex_poison_fit.
  - exact (empty_flush_start "docs" ex_poison_log).
  - constructor.
  - exact ex_poison_rejected.
  - exact E.
  - exact Ej.
  - destruct (view (store w') !! ManifestKey (MkScope "docs") "main") as [em|] eqn:Em; [|discriminate Hlen].
    destruct (Unmarshal (data em)) as [m|e] eqn:Um; [|discriminate Hlen]. cbn in Hlen.
    destruct (Hs m [] [fun _ _ => None] ts' n2 w2 0%nat y) as [Hy Hst].
    + unfold manifest_is, holds. rewrite Em. exact Um.
    + lia.
    + discriminate.
    + exact E2.
    + exact Ei.
    + exists x, w', y. split; [exact Hx|]. split; [exact Hy|]. split; [exact Hst|]. by exists n', ts', (n2, w2).
Defined.
