(* ===== verification/Visible.v ===== *)
(** * The pipeline, end to end

    What is in the log becomes visible: after any history of flushers,
    writers and loaders with failures, one undisturbed run of a flusher and
    one undisturbed [Sync] of any loader bring the loader's table to the
    replay of the branch's whole log.  The composition of the liveness of the
    flusher (FlusherLive.v) and of the loader (LoaderSafety.v). *)

From S2P Require Import Prelude GoStr Recordio Scanner ObjectStore Prog Codec Logstream Namespace Cas Catalog Float32 Sha256 Storage Flusher FlusherSafety FlusherLive Vector Table Loader LoaderSafety.
Local Open Scope Z_scope.

Section Visible.
Context {S : Type} `{StoreLaws S} `{CodecLaws BranchCatalog, CodecLaws BranchManifest}.
Context `{Codec WalRecord, CodecLaws DocumentMutation}.

(** Once the log is flushed up to [k], the manifest's checkpoint stands for
    all of the branch's entries up to [k]. *)
Lemma batches_flushed ns entries base b base_batches k m (w : world S) :
  manifest_is ns b w m -> CheckpointSeq (base b) <= CheckpointSeq m <= k -> all_flushed ns entries k w ->
  batches entries base b base_batches k = batches entries base b base_batches (CheckpointSeq m).
Proof.
  intros Hm Hc Hall. unfold batches. f_equal.
  replace (k - CheckpointSeq (base b)) with (CheckpointSeq m - CheckpointSeq (base b) + (k - CheckpointSeq m)) by lia.
  rewrite seqZ_app, omap_app by lia. rewrite (omap_None _ (seqZ _ (k - CheckpointSeq m))); [by rewrite app_nil_r|].
  apply Forall_forall. intros i Hi%elem_of_seqZ. unfold batch_at. destruct (flush_at entries i) as [[b' ms]|] eqn:E; [|done].
  case_decide; [subst b'|done]. pose proof (ckpt_ge_is _ _ _ _ _ Hm (Hall b i ms ltac:(lia) E)). lia.
Qed.

(** From any state the flushers can leave: a flusher's run and a [Sync]. *)
Lemma visible_after `{Codec DocRecord} kernels ns entries base b base_batches l bc k fuel polls counter n (w : world S) :
  valid_name ns -> valid_name b -> good_log entries -> segments_fit entries -> Forall flushable entries ->
  (exists st, spec_replay kernels empty_state (concat (batches entries base b base_batches (Z.of_nat (length entries)))) st) ->
  flush_inv ns entries base n w -> loader_ok kernels ns entries base b base_batches l w ->
  (k <= length entries)%nat -> is_log (WALPrefix (MkScope ns)) (view (store w)) (frames <$> take k entries) ->
  holds (branchesKey (MkScope ns)) (MkBranches ∅) w bc -> encodable entries (manifest_at ns w) bc ->
  (3 * k <= n)%nat -> (k + polls < fuel)%nat ->
  exists s w'' x' l' st, run (flusher_client ns (fuel, polls, counter)) w = (Ok tt, s, w'') /\
    run (Sync kernels (fun _ _ => None) l) w'' = (x', None, l', w'') /\
    spec_replay kernels empty_state (concat (batches entries base b base_batches (Z.of_nat k))) st /\
    forall id, Table.Get kernels (table l') id = docs st !! id.
Proof.
  intros Hns Hb Hgood Hfit Hfl Hacc HI Hl Hk Hlog Hbc Henc Hn Hfuel.
  destruct (run_flusher ns entries base bc k fuel polls counter n w)
    as (s & n2 & w2 & Hrun & HI2 & HR & Hlog2 & Hall); try done.
  pose proof HI2 as (_ & _ & HM & _). destruct (HM b Hb) as (m & Hm & Hmok).
  destruct (run_Sync_ok kernels ns entries base b base_batches l n2 w2 m) as (x' & l' & Hsync & Hr); try done.
  { pose proof Hgood as (_ & _ & _ & HN & _). by eapply loader_ok_stable. }
  exists s, w2, x', l', (abs kernels (table l')). split_and!; try done.
  - destruct Hmok as (? & ? & (i & Hi & Hli & ?) & _).
    pose proof (f_equal length (is_log_unique _ _ _ _ Hli Hlog2)) as El.
    rewrite !length_fmap, !length_take in El. unfold LRecord in *.
    rewrite (batches_flushed ns entries base b base_batches (Z.of_nat k) m w2) by (done || lia). done.
  - intros id. by rewrite abs_Get.
Qed.

End Visible.

(** C5. What is in the log becomes visible: flushers of a namespace and loaders
    of one of its branches have been running, with writers appending to the
    log and other namespaces in use, over failing calls and cancelled contexts,
    and were stopped at any moment.  Provided the branch's mutations that the
    writers append can all be applied one after the other (the ingester also
    accepts some that cannot: [sync_poisoned]), one undisturbed run of a
    flusher then returns without error, and one undisturbed [Sync] of any of
    the loaders returns without error, and the loader's table is the replay of
    every mutation of the branch that was in the log, in log order.  The run
    needs loop bounds above the length of the log, a branch catalog that can be
    read or is absent, files that can be marshalled ([encodable]) and
    generations left for its writes. *)
Theorem log_becomes_visible {S} `{StoreLaws S} `{CodecLaws BranchCatalog, CodecLaws BranchManifest}
    `{Codec WalRecord, CodecLaws DocumentMutation, Codec DocRecord} (faulty : bool) kernels
    ns entries base b base_batches flushers loaders n (w : world S) ts n' w' j x e l bc fuel polls counter :
  valid_name ns -> valid_name b -> good_log entries -> segments_fit entries -> Forall flushable entries ->
  flush_start ns entries base n w -> base_ready ns entries base b base_batches w ->
  (exists st, spec_replay kernels empty_state (concat (batches entries base b base_batches (Z.of_nat (length entries)))) st) ->
  rtc (estep faulty (others ns entries)) (pool kernels ns b flushers loaders, (n, w)) (ts, (n', w')) ->
  ts !! j = Some (Ret (inr (x, e, l))) ->
  holds (branchesKey (MkScope ns)) (MkBranches ∅) w' bc -> encodable entries (manifest_at ns w') bc ->
  (3 * length entries <= n')%nat -> (length entries + polls < fuel)%nat ->
  exists k s w'' x' l' st,
    is_log (WALPrefix (MkScope ns)) (view (store w')) (frames <$> take k entries) /\
    run (flusher_client ns (fuel, polls, counter)) w' = (Ok tt, s, w'') /\
    run (Sync kernels (fun _ _ => None) l) w'' = (x', None, l', w'') /\
    spec_replay kernels empty_state (concat (batches entries base b base_batches (Z.of_nat k))) st /\
    forall id, Table.Get kernels (table l') id = docs st !! id.
Proof.
  intros Hns Hb Hgood Hfit Hfl Hst Hbase Hacc Hsteps Hj Hbc Henc Hn Hfuel.
  assert (ckpt_ge ns b (CheckpointSeq (base b)) w) as Hcs.
  { exists (base b). split; [|done]. destruct Hst as (_ & _ & HM & _). by apply HM. }
  destruct (pool_loader kernels faulty ns entries base b base_batches _ n w Hns Hb Hgood Hfit Hst Hbase Hcs
    flushers loaders ts n' w' Hsteps) as [HI Hloaders].
  destruct (Hloaders j (x, e, l) Hj) as [Hl _]. cbn [snd] in Hl.
  pose proof HI as (_ & (k & Hk & Hlog & _) & _).
  destruct (visible_after kernels ns entries base b base_batches l bc k fuel polls counter n' w')
    as (s & w2 & x' & l' & st & Hvis); try done; [lia..|]. by exists k, s, w2, x', l', st.
Qed.

(** ** Witness: the flusher is stopped after the upload, the loader has found
    no manifest *)
#[local] Existing Instances ex_branches_codec ex_branches_laws ex_manifest_codec ex_manifest_laws ex_wal_codec ex_mut_codec ex_mut_laws ex_record_codec.

Definition ex_halted : option (list (prog outcome) * (nat * world Mem.memStore)) :=
  interleave [0; 0; 0; 0; 1]%nat (ex_pool None) 49 ex_flush_w1.

Lemma ex_halted_at : match ex_halted with
  | Some (ts, (n', w')) => n' = 48%nat /\ ex_loaded ts = Some (0%nat, None, None) /\
      view (store w') !! branchesKey (MkScope "docs") = None /\
      view (store w') !! ManifestKey (MkScope "docs") "main" = None
  | None => False
  end.
Proof. vm_compute. repeat split; reflexivity. Qed.

Lemma log_becomes_visible_witness : exists ts n' w' l k s w'' x' l' st,
  rtc (estep false (others "docs" ex_entries)) (ex_pool None, (50%nat, MkWorld Mem.newMemStore ∅)) (ts, (n', w')) /\
  Table.Get pureKernels (table l) "d" = None /\
  run (flusher_client "docs" (2, 0, 1)%nat) w' = (Ok tt, s, w'') /\
  run (Sync pureKernels (fun _ _ => None) l) w'' = (x', None, l', w'') /\
  spec_replay pureKernels empty_state
    (concat (batches ex_entries (fun _ => absentManifest) "main" [] (Z.of_nat k))) st /\
  Table.Get pureKernels (table l') "d" = docs st !! "d".
Proof.
  pose proof ex_halted_at as Hh. destruct ex_halted as [[ts [n' w']]|] eqn:E; [|destruct Hh].
  destruct Hh as (-> & Hr & Hb & Hm). unfold ex_loaded in Hr.
  destruct (ts !! 1%nat) as [[[y|[[x e] l]]|]|] eqn:Ej; [discriminate Hr| |discriminate Hr..].
  injection Hr as _ _ Hg.
  assert (rtc (estep false (others "docs" ex_entries)) (ex_pool None, (50%nat, MkWorld Mem.newMemStore ∅))
    (ts, (48%nat, w'))) as Hst.
  { eapply rtc_l; [apply EEnv, OtherAppend, ex_flush_appends|]. by eapply interleave_esteps. }
  destruct (log_becomes_visible false pureKernels "docs" ex_entries (fun _ => absentManifest) "main" []
    [(3, 0, 0)]%nat [[fun _ _ => None]] 50 (MkWorld Mem.newMemStore ∅) ts 48 w' 1 x e l (MkBranches ∅) 2 0 1)
    as (k & s & w'' & x' & l' & st & _ & Hrun & Hsync & Hrep & Hall).
  - reflexivity.
  - reflexivity.
  - exact ex_good_log.
  - exact ex_segments_fit.
  - exact ex_flushable.
  - exact (ex_flush_start "docs").
  - constructor.
  - exact ex_accepts.
  - exact Hst.
  - exact Ej.
  - unfold holds. by rewrite Hb.
  - apply ex_encodable. unfold manifest_at. by rewrite Hm.
  - cbn. lia.
  - cbn. lia.
  - exists ts, 48%nat, w', l, k, s, w'', x', l', st. by split_and!.
Defined.
