(* ===== verification/Writers.v ===== *)
(** * Writers

    Clients of the ingester (Ingester.v): each sends [Upsert] and [Delete]
    requests of one namespace, one after the other, through an ingester that
    keeps its logs and its list of registered namespaces.  What such a client
    writes, whatever its calls return ([tame_serve]: the catalog, and entries
    of the namespace's log that are the batches of its requests), and that it
    keeps the log a log and delivers what it acknowledges, whatever the
    others do ([safe_serve]). *)

From S2P Require Import Prelude GoStr Recordio Scanner ObjectStore Prog Codec Logstream Namespace Cas Footprint Catalog Float32 Sha256 Storage Ingester Flusher FlusherSafety.
Local Open Scope Z_scope.

(** ** Requests *)
Inductive request :=
  | RUpsert (branch : string) (records : list DocRecord) (now : Z)
  | RDelete (branch : string) (ids : list string) (now : Z).

Definition branch_of (q : request) : string := match q with RUpsert b _ _ | RDelete b _ _ => b end.
Definition sent_at (q : request) : Z := match q with RUpsert _ _ now | RDelete _ _ now => now end.
(** A request without documents writes nothing. *)
Definition vacuous (q : request) : Prop :=
  match q with RUpsert _ records _ => records = [] | RDelete _ ids _ => ids = [] end.

#[export] Instance vacuous_dec q : Decision (vacuous q).
Proof. destruct q; apply _. Defined.

Section Requests.
Context `{Codec TenantCatalog, Codec WalRecord, Codec DocRecord}.

(** The batch a request appends. *)
Definition wal_of (q : request) : res (list LRecord) :=
  match q with
  | RUpsert branch records _ => put_records branch records
  | RDelete branch ids _ => delete_records branch ids
  end.

Definition serve (fuel : nat) (ns : string) (ing : Ingester) (q : request) : prog (res unit * Ingester) :=
  match q with
  | RUpsert branch records now => Ingester.Upsert fuel ing ns branch records now
  | RDelete branch ids now => Ingester.Delete fuel ing ns branch ids now
  end.

(** Both kinds are one append. *)
Lemma serve_eq fuel ns ing q : serve fuel ns ing q =
  if decide (vacuous q) then Ret (Ok tt, ing) else
  bind_state (getOrCreateLog fuel ing (MkScope ns) (sent_at q))
    (fun log ing => match wal_of q with
     | Err e => Ret (Err e, ing)
     | Ok walRecords =>
       r ← Append fuel log walRecords;
       Ret (match r with Ok _ => Ok tt | Err e => Err e end, ing)
     end).
Proof. by destruct q; cbn; unfold Ingester.Upsert, Ingester.Delete; repeat case_decide. Qed.

Lemma wal_of_nonempty q wal : ~ vacuous q -> wal_of q = Ok wal -> wal <> [].
Proof.
  intros Hv Hw ->. destruct q as [b [|r rs] now|b [|id ids] now]; try done; cbn in Hw.
  - destruct (Marshal r); [|done]. cbn in Hw. destruct (Marshal (WalMutation _)); [|done]. cbn in Hw. by destruct (put_records b rs).
  - destruct (Marshal (WalMutation _)); [|done]. cbn in Hw. by destruct (delete_records b ids).
Qed.

End Requests.

(** ** What a writer writes *)
Section Footprints.
Context {S : Type} `{StoreLaws S} `{CodecLaws TenantCatalog, Codec WalRecord, Codec DocRecord}.
Context (ns : string) (cs : list nat) (sent : request -> Prop).
Context (Hns : valid_name ns).
Let p : string := WALPrefix (MkScope ns).

(** The batches of the requests that are sent. *)
Definition batch (wal : list LRecord) : Prop := exists q, sent q /\ ~ vacuous q /\ wal_of q = Ok wal.
Definition payload (d : list byte) : Prop := exists wal, batch wal /\ d = frames wal.

Definition catalog_write (key : string) (d : list byte) (c : Condition) : Prop := key = CatalogFile.
Definition writer_write (key : string) (d : list byte) (c : Condition) : Prop :=
  key = CatalogFile \/ (exists seq, key = segmentKey p seq) /\ payload d /\ c = IfAbsent.
Abbreviation tame_catalog := (tame (S := S) catalog_write (fun _ => False)).
Abbreviation tame_writer := (tame (S := S) writer_write (fun c => c ∈ cs)).

Lemma tame_readCatalog G : tame_catalog (readCatalogOrEmpty false) (fun r G' =>
  match r with Ok (_, g) => g = "" \/ G' g | Err _ => True end) G.
Proof.
  eapply (tame_bind _ _ _ _ (fun r G' => match r with Ok (_, g) => G' g | Err _ => True end)).
  - eapply tame_try; [apply tame_get| |done]. intros [d ob] G' _ HG. rewrite try_lift. by destruct (Unmarshal d).
  - intros [[c g]|e] G' _ HG; [by right|]. case_match; [by left|done].
Qed.

Lemma tame_create_loop fuel name at_ G : tame_catalog (create_loop fuel name at_) (fun _ _ => True) G.
Proof.
  revert G. induction fuel as [|fuel IH]; intros G; [done|]. cbn [create_loop].
  eapply tame_bind; [apply tame_readCatalog|]. intros [[c g]|e] G' _ Hg; [|done].
  destruct (Namespaces c !! name); [done|]. unfold putTenantCatalog.
  eapply tame_bind with (Q := fun _ _ => True); [|intros [?|e] G2 _ _; [done|]; case_match; [apply IH|done]].
  rewrite try_lift. destruct (Marshal _) as [d|e] eqn:Em; [|exact I].
  apply tame_put; [apply _|by eapply codec_slice|done|done].
Qed.

Lemma tame_CreateNamespace fuel name now G : tame_catalog (CreateNamespace fuel false name now) (fun _ _ => True) G.
Proof. unfold CreateNamespace. destruct (ValidateName name); [apply tame_create_loop|done]. Qed.

(** The counter of the ingester's log of the namespace. *)
Definition ing_fine (ing : Ingester) : Prop :=
  match logs ing !! p with Some l => prefix l = p /\ lastKnown l ∈ cs | None => next ing ∈ cs end.
Definition log_fine (x : res Log * Ingester) : Prop :=
  ing_fine x.2 /\ match x.1 with Ok l => prefix l = p /\ lastKnown l ∈ cs | Err _ => True end.

Lemma tame_getOrCreateLog fuel ing now G : ing_fine ing ->
  tame_catalog (getOrCreateLog fuel ing (MkScope ns) now) (fun x _ => log_fine x) G.
Proof.
  intros Hf. unfold getOrCreateLog. cbv zeta. fold p. unfold ing_fine in Hf.
  destruct (logs ing !! p) as [l|] eqn:El.
  { split; [|done]. unfold ing_fine. cbn. by rewrite El. }
  eapply (tame_bind _ _ _ _ (fun i _ => logs i = logs ing /\ next i = next ing)).
  - destruct (default false _); [done|]. eapply tame_bind; [apply tame_CreateNamespace|]. by intros ? ? _ _.
  - intros i G' _ [Hl Hn]. rewrite Hl, El, Hn. unfold New. unfold p. rewrite WALPrefix_valid by done. fold p. cbn.
    split; [|done]. unfold ing_fine. cbn. by rewrite lookup_insert_eq.
Qed.

Lemma tame_advance fuel c t G : c ∈ cs -> tame_writer (advance fuel c t) (fun _ _ => True) G.
Proof.
  intros Hc. revert G. induction fuel as [|fuel IH]; intros G; [done|]. cbn [advance].
  eapply tame_bind with (Q := fun _ _ => True).
  { split; [|done]. left. split; [done|]. intros w x w' [[= _ <-]|[_ []]]. done. }
  intros curr G1 _ _. case_decide; [done|]. eapply tame_bind with (Q := fun _ _ => True).
  { split; [by right|done]. }
  intros [] G2 _ _; [done|apply IH].
Qed.

Lemma tame_Append fuel l wal G : prefix l = p -> lastKnown l ∈ cs -> slice_len (frames wal) -> batch wal ->
  tame_writer (Append fuel l wal) (fun _ _ => True) G.
Proof.
  intros Hp Hc Hd Hb. unfold Append. case_decide; [done|]. rewrite encode_records_ok, try_lift.
  assert (forall G, tame_writer (call (OLoad (lastKnown l))) (fun _ _ => True) G) as Hload.
  { intros G'. split; [|done]. left. split; [done|]. intros w x w' [[= _ <-]|[_ []]]. done. }
  eapply tame_bind; [apply Hload|]. intros known G1 _ _. eapply tame_try with (Q := fun _ _ => True).
  { case_decide; [|done]. eapply tame_try; [apply tame_reading| |done].
    - apply reading_try; [apply head_reading|]. by intros [].
    - intros t G2 _ _. by apply tame_advance. }
  2: done.
  intros _ G2 _ _. eapply tame_bind; [apply Hload|]. intros known' G3 _ _.
  generalize (u64 (known' + 1)). generalize fuel at 1. intros cf seq. revert G3 seq.
  induction fuel as [|fuel IH]; intros G3 seq; [done|]. cbn [append_loop]. rewrite Hp.
  eapply tame_bind with (Q := fun _ _ => True).
  { change IfAbsent with (swap_cond ""). apply tame_put; [apply _|done| |by left]. right. split; [by exists seq|]. by split; [exists wal|]. }
  intros [g|e] G4 _ _.
  - eapply tame_try; [by apply tame_advance|done|done].
  - case_match; [|done]. eapply tame_try; [apply tame_reading, head_reading| |done].
    intros [h c] G5 _ _. apply IH.
Qed.

Context (Hsent : forall wal, batch wal -> slice_len (frames wal)).

Lemma tame_serve fuel ing q G : sent q -> ing_fine ing ->
  tame_writer (serve fuel ns ing q) (fun x _ => ing_fine x.2) G.
Proof.
  intros Hq Hf. rewrite serve_eq. case_decide as Hv; [done|]. unfold bind_state.
  eapply tame_bind; [eapply tame_allow; [| |by apply tame_getOrCreateLog]; [by left|done]|].
  intros [[l|e] ing'] G1 _ [Hf' Hl]; [|done]. cbn in Hl. destruct Hl as [Hp Hc].
  destruct (wal_of q) as [wal|e] eqn:Ew; [|done].
  assert (batch wal) as Hb by (by exists q).
  eapply tame_bind; [apply tame_Append; auto|]. intros r G2 _ _. done.
Qed.

End Footprints.

(** ** What a writer keeps *)
Section Safety.
Context {S : Type} `{StoreLaws S} `{CodecLaws TenantCatalog, Codec WalRecord, Codec DocRecord}.
Context (faulty : bool) (ns : string) (cs : list nat) (sent : request -> Prop).
Context (Hns : valid_name ns) (Hsent : forall wal, batch sent wal -> slice_len (frames wal)).
Let p : string := WALPrefix (MkScope ns).

Abbreviation linv := (log_inv (S := S) p cs).
Abbreviation lrel := (log_rel (S := S) p cs (payload sent)).

(** The log grows by batches that are sent, and a generation names one write. *)
Definition wrel (w w' : world S) : Prop := lrel w w' /\ gen_rel w w'.

#[export] Instance wrel_preorder : PreOrder wrel.
Proof.
  pose proof (log_rel_preorder (S := S) p cs (payload sent)) as HP. split.
  - intros w. split; reflexivity.
  - intros w1 w2 w3 [? ?] [? ?]. split; by transitivity w2.
Qed.

(** A program that is safe for the log, with the generations it has read. *)
Lemma safe_gens {A} P K (t : prog A) Q Q' G w :
  safe faulty linv lrel t Q w -> tame P K t Q' G -> all_issued G w -> safe faulty linv wrel t Q w.
Proof.
  revert G w. induction t as [a|X o k IH]; intros G w; [done|]. intros Hs Ht HG n w1 [HL HR] HI x w2 Hst.
  destruct (Hs n w1 HL HI x w2 Hst) as (HI2 & HL2 & Hk).
  destruct (tame_step P K faulty o k Q' G n w1 x w2 Ht) as (_ & HR2 & _ & _ & G' & HG' & _ & Ht'); [|apply HI|done|].
  { by eapply all_issued_stable. }
  split; [done|]. split; [done|]. by eapply IH.
Qed.

Lemma catalog_keeps n (w w' : world S) bs : store w' = store w \/ wrote catalog_write n w w' ->
  log_at p w bs -> log_at p w' bs.
Proof.
  unfold log_at. intros [->|(key & d & c & g & -> & _ & Hp & _)]; [done|]. by apply (is_log_put ns Hns KCatalog d g n).
Qed.

(** A program that writes the catalog alone. *)
Lemma safe_catalog {A} (t : prog A) Q G w : tame catalog_write (fun _ => False) t Q G -> all_issued G w ->
  safe faulty linv wrel t (fun a _ => exists G', Q a G') w.
Proof.
  revert G w. induction t as [a|X o k IH]; intros G w; [by exists G|]. intros Ht HG n w1 [HL HR] HI x w2 Hst.
  destruct (tame_step _ _ faulty o k Q G n w1 x w2 Ht) as (Hok2 & HR2 & Hd & Hc & G' & HG' & _ & Ht'); [|apply HI|done|].
  { by eapply all_issued_stable. }
  assert (forall bs, log_at p w1 bs -> log_at p w2 bs) as Hlog
    by (intros bs; apply (catalog_keeps n); tauto).
  assert (forall c, cell w2 c = cell w1 c) as Hcell by (intros c; apply Hc; by intros []).
  destruct HI as (Hok & bs & Hbs & Hn & HC). split; [|split; [|by eapply IH]].
  - split; [done|]. exists bs. split_and!; [auto|lia|]. intros c. rewrite Hcell. apply HC.
  - split; [|done]. split; [|intros c _; by rewrite Hcell].
    intros b Hb. exists []. rewrite app_nil_r. auto.
Qed.

(** A request is in the log. *)
Definition delivered (q : request) (w : world S) : Prop :=
  vacuous q \/ exists wal bs, wal_of q = Ok wal /\ log_at p w bs /\ frames wal ∈ bs.

Lemma delivered_stable q w w' : wrel w w' -> delivered q w -> delivered q w'.
Proof.
  intros [[HL _] _] [?|(wal & bs & Hw & Hbs & Hin)]; [by left|right]. destruct (HL bs Hbs) as (new & Hnew & _).
  exists wal, (bs ++ new). split_and!; [done|done|]. apply elem_of_app. by left.
Qed.

Definition started (w : world S) : Prop := at_least p w 0 /\ forall c, c ∈ cs -> 0 <= cell w c.

Lemma started_stable w w' : wrel w w' -> started w -> started w'.
Proof.
  intros [HL _] [Ha Hc]. split; [by eapply at_least_stable|]. intros c Hin. destruct HL as [_ HL].
  specialize (Hc c Hin). specialize (HL c Hin). lia.
Qed.

Lemma linv_started n w : linv n w -> started w.
Proof.
  intros (_ & bs & Hbs & Hn & HC). split; [|intros c Hin; by apply HC]. exists bs. unfold MaxUint64 in *.
  split; [done|lia].
Qed.

Definition ack_post (q : request) (x : res unit * Ingester) (w : world S) : Prop :=
  x.1 = Ok tt -> delivered q w.

Lemma ack_post_stable q : stable wrel (ack_post q).
Proof. intros x w w' HR Hx E. eapply delivered_stable; [done|]. by apply Hx. Qed.

Lemma safe_serve fuel ing q w : sent q -> ing_fine ns cs ing -> started w ->
  safe faulty linv wrel (serve fuel ns ing q) (ack_post q) w.
Proof.
  intros Hq Hf Hst. rewrite serve_eq. case_decide as Hv; [by intros _; left|]. unfold bind_state.
  eapply safe_bind; [apply _|eapply safe_catalog; [by apply (tame_getOrCreateLog ns cs Hns _ _ _ (fun _ => False))|apply none_issued]|].
  intros [[l|e] ing'] w1 HR1 (_ & _ & Hl); [|done]. cbn in Hl. destruct Hl as [Hp Hc].
  destruct (wal_of q) as [wal|e] eqn:Ew; [|done].
  assert (batch sent wal) as Hb by (by exists q). destruct (started_stable _ _ HR1 Hst) as [Ha Hcell].
  eapply safe_bind; [apply _|eapply (safe_gens _ _ _ _ _ (fun _ => False)); [|by apply (tame_Append ns cs sent); auto|apply none_issued]|].
  - apply (Append_safe faulty p cs (payload sent) fuel l wal 0); auto; [| |lia].
    + by eapply wal_of_nonempty.
    + by exists wal.
  - intros [seq|e] w2 _; [|done]. intros (_ & bs & Hbs & Hi) _. right. exists wal, bs. split_and!; [done|done|].
    by eapply list_elem_of_lookup_2.
Qed.

End Safety.
