(* ===== verification/System.v ===== *)
(** * The system: writers, flushers and loaders together

    The claims about flushers and loaders speak of the writers as others who
    append to the log ([others]).  Here the writers are clients of the
    ingester (Writers.v), and any number of them, of flushers and of loaders
    of a namespace run at the same time over failing calls.  Every run of the
    system is a run of its flushers and loaders among [others], for the log
    the writers happen to make ([system_projects]): the log is built up as the
    run goes on, a step of a writer being an append of its batch, a write of
    the catalog, or nothing. *)

From S2P Require Import Prelude GoStr Recordio Scanner ObjectStore Prog Codec Logstream Namespace Cas Footprint Catalog Float32 Sha256 Storage Ingester Flusher FlusherSafety FlusherLive Vector Table Loader LoaderSafety Visible Writers.
Local Open Scope Z_scope.

(** ** Requests make a good log *)
Section Good.
Context `{CodecLaws WalRecord, CodecLaws DocumentMutation, Codec DocRecord}.

Lemma wal_of_decodes q wal : wal_of q = Ok wal ->
  exists ms, decode_wal wal = Ok (WalMutation <$> ms) /\ Forall (fun m => Branch m = branch_of q) ms.
Proof.
  destruct q as [b rs now|b ids now]; cbn [wal_of branch_of].
  - revert wal. induction rs as [|r rs IH]; intros wal; cbn [put_records].
    { intros [= <-]. by exists []. }
    destruct (Marshal r) as [d|]; cbn; [|done]. destruct (Marshal (WalMutation _)) as [rec|] eqn:Em; cbn; [|done].
    destruct (put_records b rs) as [rest|]; cbn; [|done]. intros [= <-]. destruct (IH rest eq_refl) as (ms & Hd & Hb).
    exists (MkMutation b (Id r) PUT d :: ms). cbn. rewrite (codec_roundtrip _ _ Em). cbn. rewrite Hd. split; [done|by constructor].
  - revert wal. induction ids as [|id ids IH]; intros wal; cbn [delete_records].
    { intros [= <-]. by exists []. }
    destruct (Marshal (WalMutation _)) as [rec|] eqn:Em; cbn; [|done].
    destruct (delete_records b ids) as [rest|]; cbn; [|done]. intros [= <-]. destruct (IH rest eq_refl) as (ms & Hd & Hb).
    exists (MkMutation b id DELETE [] :: ms). cbn. rewrite (codec_roundtrip _ _ Em). cbn. rewrite Hd. split; [done|by constructor].
Qed.

Lemma muts_of_mutations b ms : b <> "" -> Forall (fun m => Branch m = b) ms ->
  muts_of (WalMutation <$> ms) = ms /\ forks_of (WalMutation <$> ms) = [].
Proof.
  intros Hb. induction 1 as [|m ms Hm _ [IH1 IH2]]; [done|]. unfold muts_of, forks_of in *. cbn.
  rewrite decide_False by congruence. by rewrite IH1, IH2.
Qed.

(** The segment the flusher makes of a batch. *)
Definition seg_of (wal : list LRecord) (d : list byte) : Prop :=
  exists b ms, entry_flush wal = Some (b, ms) /\ Segment.encode_segment ms = Ok d.

(** What is asked of the requests: valid branch names, records and segments
    within the limits of the formats, and no two different segments with the
    same SHA-256. *)
Definition good_requests (sent : request -> Prop) : Prop :=
  (forall q, sent q -> valid_name (branch_of q)) /\
  (forall wal, batch sent wal -> Forall (fits Crc.DefaultMaxRecordSize) wal /\ slice_len (frames wal)) /\
  (forall wal b ms, batch sent wal -> entry_flush wal = Some (b, ms) ->
     exists ds, Segment.marshal_all ms = Ok ds /\ Forall (fits Crc.DefaultMaxRecordSize) ds) /\
  (forall wal d, batch sent wal -> seg_of wal d -> slice_len d) /\
  (forall wal d wal' d', batch sent wal -> batch sent wal' -> seg_of wal d -> seg_of wal' d' ->
     Sum256 d = Sum256 d' -> d = d').

Context (sent : request -> Prop) (entries : list (list LRecord)).
Context (Hgood : good_requests sent) (Hent : Forall (batch sent) entries).

Lemma batch_entry wal : batch sent wal -> exists q ms, sent q /\ wal_of q = Ok wal /\
  decode_wal wal = Ok (WalMutation <$> ms) /\ muts_of (WalMutation <$> ms) = ms /\ forks_of (WalMutation <$> ms) = [] /\
  Forall (fun m => Branch m = branch_of q) ms.
Proof.
  intros (q & Hq & _ & Hw). destruct (wal_of_decodes q wal Hw) as (ms & Hd & Hb). exists q, ms.
  destruct (muts_of_mutations (branch_of q) ms) as [? ?]; [|done|by split_and!].
  intros E. destruct Hgood as [Hn _]. pose proof (Hn q Hq) as Hv. by rewrite E in Hv.
Qed.

Lemma flush_at_batch i b ms : flush_at entries i = Some (b, ms) ->
  exists wal, batch sent wal /\ entry_flush wal = Some (b, ms).
Proof.
  unfold flush_at. case_decide; [|done]. destruct (entries !! _) as [wal|] eqn:E; [|done]. cbn. intros Hf.
  exists wal. split; [|done]. by eapply (Forall_lookup_1 _ _ _ _ Hent).
Qed.

Lemma segment_of_batch i b d : segment_of entries i b d -> exists wal, batch sent wal /\ seg_of wal d.
Proof. intros (ms & Hf & Hd). destruct (flush_at_batch i b ms Hf) as (wal & ? & ?). exists wal. split; [done|]. by exists b, ms. Qed.

Lemma batch_branch wal b ms : batch sent wal -> entry_flush wal = Some (b, ms) -> valid_name b.
Proof.
  intros Hb. destruct (batch_entry wal Hb) as (q & ms' & Hq & _ & Hd & Hm & _ & HF). unfold entry_flush. rewrite Hd, Hm.
  destruct ms' as [|m ms']; [done|]. case_decide; [|done]. intros [= <- _]. apply Forall_inv in HF. rewrite HF.
  by apply Hgood.
Qed.

Lemma requests_good_log : Z.of_nat (length entries) < MaxUint64 ->
  good_log entries /\ segments_fit entries /\ Forall flushable entries.
Proof.
  intros Hlen. pose proof Hgood as (G1 & G2 & G3 & G4 & G5). split; [split_and!|split].
  - done.
  - eapply Forall_impl; [exact Hent|]. apply G2.
  - eapply Forall_impl; [exact Hent|]. intros wal Hb rs Hrs.
    destruct (batch_entry wal Hb) as (q & ms & _ & _ & Hd & _ & Hf & _). rewrite Hd in Hrs. injection Hrs as <-. by right.
  - intros i b ms Hf. destruct (flush_at_batch i b ms Hf) as (wal & ? & ?). by eapply batch_branch.
  - intros i b d Hd. destruct (segment_of_batch i b d Hd) as (wal & ? & ?). by eapply G4.
  - intros i b d i' b' d' Hd Hd'. destruct (segment_of_batch i b d Hd) as (wal & Hw & Hs).
    destruct (segment_of_batch i' b' d' Hd') as (wal' & Hw' & Hs'). exact (G5 wal d wal' d' Hw Hw' Hs Hs').
  - intros i b ms Hf. destruct (flush_at_batch i b ms Hf) as (wal & ? & ?). by eapply G3.
  - eapply Forall_impl; [exact Hent|]. intros wal Hb.
    destruct (batch_entry wal Hb) as (q & ms & _ & _ & Hd & Hm & _ & HF). exists (WalMutation <$> ms), (branch_of q).
    by rewrite Hm.
Qed.

End Good.

(** ** Flushers and loaders move no counter *)
Section Spare.
Context {S : Type} `{StoreLaws S} `{Codec BranchCatalog, Codec BranchManifest, Codec WalRecord}.
Context `{Codec DocumentMutation, Codec DocRecord}.
Abbreviation spares := (spares (S := S)).

Lemma spares_Manifest_Read key : spares (Manifest.Read key).
Proof. unfold Manifest.Read. spare. Qed.

Lemma spares_Manifest_Write key m g : spares (Manifest.Write key m g).
Proof. unfold Manifest.Write. spare. Qed.

Lemma spares_readBranches key : spares (readBranchCatalog key).
Proof. unfold readBranchCatalog. spare. Qed.
#[local] Hint Resolve spares_Manifest_Read spares_Manifest_Write spares_readBranches : cloudy.

Lemma spares_AddBranch fuel sc b : spares (AddBranch fuel sc b).
Proof. unfold AddBranch. induction fuel as [|fuel IH]; [done|]. cbn [updateBranches]. spare. Qed.
#[local] Hint Resolve spares_AddBranch : cloudy.

Lemma spares_commit fuel s b r seq : spares (commit_loop fuel s b r seq).
Proof. induction fuel as [|fuel IH]; [done|]. cbn [commit_loop]. spare. Qed.
#[local] Hint Resolve spares_commit : cloudy.

Lemma spares_process fuel s seq rs : spares (processRecords fuel s seq rs).
Proof. unfold processRecords, flushBranch. spare. Qed.

Lemma spares_Read l seq : spares (Logstream.Read l seq).
Proof. unfold Logstream.Read. spare. Qed.

Lemma spares_init_loop s bs min : spares (init_loop s bs min).
Proof. revert s min. induction bs as [|b bs IH]; intros s min; [done|]. cbn [init_loop]. spare. Qed.
#[local] Hint Resolve spares_init_loop : cloudy.

Lemma spares_init s : spares (initCheckpoints s).
Proof. unfold initCheckpoints, ListBranches. spare. Qed.
#[local] Hint Resolve spares_process spares_Read spares_init : cloudy.

Lemma spares_drain fuel s seq : spares (drain fuel s seq).
Proof. revert s seq. induction fuel as [|fuel IH]; intros s seq; [done|]. cbn [drain]. spare. Qed.
#[local] Hint Resolve spares_drain : cloudy.

Lemma spares_shutdown fuel s seq : spares (shutdownFlush fuel s seq).
Proof. unfold shutdownFlush. spare. Qed.
#[local] Hint Resolve spares_shutdown : cloudy.

Lemma spares_follow fuel polls s seq : spares (follow fuel polls s seq).
Proof. revert polls s seq. induction fuel as [|fuel IH]; intros polls s seq; [done|]. cbn [follow]. spare. Qed.
#[local] Hint Resolve spares_follow : cloudy.

Lemma spares_Run fuel polls s : spares (Run fuel polls s).
Proof. unfold Run. spare. Qed.

Lemma spares_sync_times kernels stops x : spares (sync_times kernels stops x).
Proof.
  revert x. induction stops as [|stop stops IH]; intros x; [done|]. cbn [sync_times].
  apply spares_bind; [apply spares_reading, reading_Sync|done].
Qed.

Lemma spares_pool kernels ns b flushers loaders : Forall spares (pool kernels ns b flushers loaders).
Proof.
  apply Forall_app. split; apply Forall_fmap, Forall_true.
  - intros [[fuel polls] counter]. by apply spares_bind; [apply spares_Run|].
  - intros stops. by apply spares_bind; [apply spares_sync_times|].
Qed.

End Spare.

(** ** The system *)

(** A client of the ingester: the request it is serving, those it has
    acknowledged before, and where it is.  Writers with the same counter
    share it, as requests served by one ingester do. *)
Record writer := MkWriter {
  current : option request;
  acked : list request;
  running : prog (res unit * Ingester);
}.
Definition new_writer (c : nat) : writer := MkWriter None [] (Ret (Ok tt, MkIngester ∅ ∅ c)).

(** The requests acknowledged so far. *)
Definition acks (wr : writer) : list request :=
  match running wr, current wr with Ret (Ok _, _), Some q => q :: acked wr | _, _ => acked wr end.

Section System.
Context {S : Type} `{StoreLaws S} `{CodecLaws TenantCatalog, CodecLaws BranchCatalog, CodecLaws BranchManifest}.
Context `{CodecLaws WalRecord, CodecLaws DocumentMutation, Codec DocRecord} (kernels : Kernels).
Context (faulty : bool) (fuel : nat) (ns : string) (sent : request -> Prop).

Definition system : Type := list writer * list (prog outcome) * (nat * world S).

(** A writer, or a flusher or loader, makes its next call; or a writer that
    is idle is sent a request. *)
Inductive sys_step : relation system :=
  | SWriter ws ts i cur ak X (o : op X) k x n w w' :
      ws !! i = Some (MkWriter cur ak (Vis o k)) -> fstep faulty o w x w' ->
      sys_step (ws, ts, ((cost o + n)%nat, w)) (<[i := MkWriter cur ak (k x)]> ws, ts, (n, w'))
  | SPool ws ts ts' c c' : pstep faulty (ts, c) (ts', c') -> sys_step (ws, ts, c) (ws, ts', c')
  | SRequest ws ts i wr r ing q c :
      ws !! i = Some wr -> running wr = Ret (r, ing) -> sent q ->
      sys_step (ws, ts, c) (<[i := MkWriter (Some q) (acks wr) (serve fuel ns ing q)]> ws, ts, c).

(** A namespace nothing was written to. *)
Definition untouched (w : world S) : Prop :=
  forall key, HasPrefix key ("ns/" +:+ ns +:+ "/") = true -> view (store w) !! key = None.

Context (Hns : valid_name ns) (cs : list nat) (Hgood : good_requests sent).
Context (b : string) (Hb : valid_name b).
Let p : string := WALPrefix (MkScope ns).
Let base : string -> BranchManifest := fun _ => absentManifest.

(** *** The start *)
Lemma role_prefix r : valid_role r -> match path_of r with _ :: ns' :: _ => ns' = ns | _ => False end ->
  HasPrefix (key_of r) ("ns/" +:+ ns +:+ "/") = true.
Proof.
  intros Hr He. destruct (key_of_path r Hr) as [-> _]. apply HasPrefix_spec.
  destruct r; cbn [path_of] in *; try done; subst; rewrite !join_with_cons, <-?str_app_assoc;
    eexists; rewrite !str_app_assoc; reflexivity.
Qed.

Lemma untouched_log w : untouched w -> is_log p (view (store w)) [].
Proof.
  intros Hu. split; [done|]. split; [done|]. intros key [e He] Hk. exfalso.
  rewrite Hu in He; [done|]. apply HasPrefix_spec in Hk as [t ->]. apply HasPrefix_spec. unfold p.
  rewrite WALPrefix_path by done. cbn [Namespace]. rewrite !join_with_cons. cbn [join_with].
  exists ("wal/" +:+ t). by rewrite !str_app_assoc.
Qed.

Lemma untouched_start entries n w : untouched w -> ok n (store w) -> flush_start ns entries base n w.
Proof.
  intros Hu Hok. pose proof (untouched_log w Hu) as Hl.
  assert (log_ge ns entries 0 w) as Hlg by (exists 0%nat; split_and!; [lia|done|lia]).
  split_and!; [done|done| | |].
  - intros b' Hb'. split_and!; [|done|done|].
    + unfold manifest_is, holds. change (ManifestKey (MkScope ns) b') with (key_of (KManifest ns b')).
      by rewrite Hu by (by apply role_prefix).
    + intros b'' i ms Hi. cbn in Hi. unfold flush_at. rewrite decide_False by lia. done.
  - intros i b' d e Hd. change (SegmentKey (MkScope ns) (segment_id d)) with (key_of (KSegment ns (segment_id d))).
    rewrite Hu; [done|]. apply role_prefix; [by apply role_segment|done].
  - intros e bc. change (branchesKey (MkScope ns)) with (key_of (KBranches ns)). by rewrite Hu by (by apply role_prefix).
Qed.

(** *** A longer log *)
Lemma others_longer entries rs (c c' : nat * world S) : others ns entries c c' -> others ns (entries ++ [rs]) c c'.
Proof.
  intros [? ? (k & rs' & g & Hl & Hrs & Hn & Hex)|? ? ? r d g ? ? ?|? ? ? ? ? ?];
    [|by eapply OtherWrite|by apply OtherIdle]. apply OtherAppend. exists k, rs', g.
  pose proof (lookup_lt_Some _ _ _ Hrs). split_and!; [|by apply lookup_app_l_Some|done|done].
  by rewrite take_app_le by (unfold LRecord in *; lia).
Qed.

Lemma runs_longer entries rs (c c' : list (prog outcome) * (nat * world S)) :
  rtc (estep faulty (others ns entries)) c c' -> rtc (estep faulty (others ns (entries ++ [rs]))) c c'.
Proof.
  induction 1 as [|c1 c2 c3 Hst _ IH]; [reflexivity|]. eapply rtc_l; [|exact IH].
  destruct Hst; [by apply EClient|by apply EEnv, others_longer].
Qed.

(** The write that keeps a log a log is the append. *)
Lemma log_grown (v : gmap string entry) bs bs' key e : is_log p v bs -> is_log p (<[key := e]> v) bs' ->
  v !! key = None -> HasPrefix key (p +:+ "/") = true -> key = segmentKey p (Z.of_nat (length bs) + 1).
Proof.
  intros Hl Hl' Hnone Hp. pose proof Hl' as (L' & _ & Hout). pose proof Hl as (L & _ & _).
  destruct (Hout key) as (i & Hi & ->); [rewrite lookup_insert_eq; by eexists|done|].
  destruct (decide (i = length bs)) as [->|Hne]; [done|exfalso].
  pose proof (is_log_exists p v bs (Z.of_nat i + 1) Hl ltac:(lia)) as Hex. rewrite Hnone in Hex.
  assert (length bs < i)%nat as Hlt.
  { destruct (decide (i < length bs)%nat); [|lia]. destruct (proj2 Hex) as [? ?]; [lia|done]. }
  pose proof (is_log_exists p v bs (Z.of_nat (length bs) + 1) Hl ltac:(lia)) as Hex1.
  pose proof (is_log_exists p _ bs' (Z.of_nat (length bs) + 1) Hl' ltac:(lia)) as Hex2.
  rewrite lookup_insert_ne in Hex2.
  - assert (Z.of_nat (length bs) + 1 <= Z.of_nat (length bs')) as Hle by lia.
    apply Hex2, Hex1 in Hle. lia.
  - intros E. apply segmentKey_inj in E; [lia|unfold is_u64; lia|unfold is_u64; lia].
Qed.

(** *** The invariant *)
Abbreviation linv := (log_inv (S := S) p cs).
Abbreviation wrel := (wrel (S := S) ns cs sent).
Abbreviation tame_writer := (tame (S := S) (writer_write ns sent) (fun c => c ∈ cs)).

Definition writer_ok (w : world S) (wr : writer) : Prop :=
  Forall (fun q => sent q /\ delivered ns q w) (acked wr) /\ (forall q, current wr = Some q -> sent q) /\
  safe faulty linv wrel (running wr) (fun x w' => forall q, current wr = Some q -> ack_post ns q x w') w /\
  exists G, all_issued G w /\ tame_writer (running wr) (fun x _ => ing_fine ns cs x.2) G.

Lemma writer_ok_stable w w' wr : wrel w w' -> writer_ok w wr -> writer_ok w' wr.
Proof.
  intros HR (Ha & Hc & Hs & G & HG & Ht). split_and!.
  - eapply Forall_impl; [exact Ha|]. intros q [? ?]. split; [done|]. by eapply (delivered_stable ns cs sent).
  - done.
  - eapply safe_mono; [apply _| |exact HR|done]. intros x w1 w2 HR' Hx q Hq.
    eapply (ack_post_stable ns cs sent); [done|]. by apply Hx.
  - exists G. split; [|done]. eapply all_issued_stable; [|done]. apply HR.
Qed.

Lemma acks_delivered w wr : writer_ok w wr -> Forall (fun q => sent q /\ delivered ns q w) (acks wr).
Proof.
  intros (Ha & Hc & Hs & _). unfold acks. destruct (running wr) as [[[[]|e] ing]|]; try done.
  destruct (current wr) as [q|]; [|done]. constructor; [|done]. split; [by apply Hc|by apply (Hs q)].
Qed.

Lemma new_writer_ok w c : c ∈ cs -> writer_ok w (new_writer c).
Proof.
  intros Hc. split_and!; [by constructor|done|done|]. exists (fun _ => False). split; [apply none_issued|].
  cbn. unfold ing_fine. cbn. by rewrite lookup_empty.
Qed.

Context (flushers : list (nat * nat * nat)) (loaders : list (list (nat -> nat -> option error))).
Context (n0 : nat) (w0 : world S) (Hu : untouched w0) (Hok0 : ok n0 (store w0)) (Hn0 : Z.of_nat n0 < MaxUint64).
Abbreviation ts0 := (pool kernels ns b flushers loaders).

(** The flushers and loaders have run among [others], with the log as it is. *)
Definition projects (entries : list (list LRecord)) (ts : list (prog outcome)) (n : nat) (w : world S) : Prop :=
  Forall (batch sent) entries /\ is_log p (view (store w)) (frames <$> entries) /\
  rtc (estep faulty (others ns entries)) (ts0, (n0, w0)) (ts, (n, w)).

Definition sys_inv (y : system) : Prop :=
  let '(ws, ts, (n, w)) := y in
  Forall (writer_ok w) ws /\ linv n w /\ Forall (spares (S := S)) ts /\ exists entries, projects entries ts n w.

Lemma sys_start : (forall c, c ∈ cs -> Prog.cell w0 c = 0) -> sys_inv (new_writer <$> cs, ts0, (n0, w0)).
Proof.
  intros Hc. pose proof (untouched_log w0 Hu) as Hl. split_and!.
  - apply Forall_fmap, Forall_forall. intros c. by apply new_writer_ok.
  - split; [done|]. exists []. split; [done|]. split; [cbn; lia|]. intros c Hin. rewrite (Hc c Hin). cbn. lia.
  - apply spares_pool.
  - exists []. split_and!; [constructor|done|reflexivity].
Qed.

Lemma projects_good entries ts n w : projects entries ts n w -> linv n w ->
  good_log entries /\ segments_fit entries /\ Forall flushable entries.
Proof.
  intros (Hent & Hl & _) (_ & bs & Hbs & Hn & _). apply (requests_good_log sent); [done|done|].
  rewrite (is_log_unique p _ _ _ Hbs Hl), length_fmap in Hn. unfold LRecord in *. lia.
Qed.

Lemma start_ckpt : ckpt_ge ns b 0 w0.
Proof.
  exists absentManifest. split; [|done]. unfold manifest_is, holds.
  change (ManifestKey (MkScope ns) b) with (key_of (KManifest ns b)). by rewrite Hu by (by apply role_prefix).
Qed.

(** What the projection says of the state. *)
Lemma projects_reach entries ts n w : projects entries ts n w -> linv n w ->
  flush_inv ns entries base n w /\
  forall j x, ts !! j = Some (Ret (inr x)) -> loader_ok kernels ns entries base b [] x.2 w.
Proof.
  intros Hp HI. destruct (projects_good _ _ _ _ Hp HI) as (Hg & Hf & _). destruct Hp as (_ & _ & Hrun).
  destruct (pool_loader kernels faulty ns entries base b [] 0 n0 w0 Hns Hb Hg Hf
    (untouched_start entries n0 w0 Hu Hok0) ltac:(constructor) start_ckpt flushers loaders ts n w Hrun) as [HI' HL].
  split; [done|]. intros j x Hj. by destruct (HL j x Hj).
Qed.

(** *** The steps *)
Lemma log_same w w' bs : is_log p (view (store w)) bs -> is_log p (view (store w')) bs ->
  (forall c, Prog.cell w' c = Prog.cell w c) -> gen_rel w w' -> wrel w w'.
Proof.
  intros Hl Hl' Hc Hg. split; [|done]. split; [|intros c _; by rewrite Hc].
  intros bs' Hbs'. exists []. rewrite app_nil_r. by rewrite (is_log_unique p _ _ _ Hbs' Hl).
Qed.

Lemma pstep_spares (ts ts' : list (prog outcome)) n n' (w w' : world S) : pstep faulty (ts, (n, w)) (ts', (n', w')) ->
  Forall (spares (S := S)) ts -> Forall (spares (S := S)) ts' /\ cells w' = cells w /\ (n' <= n)%nat.
Proof.
  intros Hst Hsp. inversion Hst as [? i X o k x m ? ? Hi Hf]; subst.
  destruct (Forall_lookup_1 _ _ _ _ Hsp Hi) as [Ho Hk]. split_and!; [apply Forall_insert; [done|apply Hk]| |lia].
  apply (Ho w x w'). destruct Hf as [?|[_ ?]]; [by left|by right].
Qed.

Lemma pool_moves ws ts ts' n n' w w' : sys_inv (ws, ts, (n, w)) -> pstep faulty (ts, (n, w)) (ts', (n', w')) ->
  sys_inv (ws, ts', (n', w')).
Proof.
  intros (Hws & HI & Hsp & entries & Hp) Hst. destruct (projects_good _ _ _ _ Hp HI) as (Hg & Hf & _).
  pose proof Hp as (Hent & Hlog & Hrun). destruct (pstep_spares _ _ _ _ _ _ Hst Hsp) as (Hsp' & Hc & Hn).
  destruct (pool_next kernels faulty ns entries base b [] 0 n0 w0 Hns Hb Hg Hf (untouched_start entries n0 w0 Hu Hok0)
    ltac:(constructor) start_ckpt flushers loaders ts n w ts' n' w' Hrun Hst) as [(Hok' & _) (Hgr & HL & _)].
  assert (is_log p (view (store w')) (frames <$> entries)) as Hlog'.
  { destruct (HL (Z.of_nat (length entries))) as (m & Hm & Hl & Hle).
    - exists (length entries). rewrite firstn_all. by split_and!.
    - rewrite take_ge in Hl by (unfold LRecord in *; lia). done. }
  assert (forall c, Prog.cell w' c = Prog.cell w c) as Hcell by (intros c; unfold Prog.cell; by rewrite Hc).
  split_and!; [| |done|].
  - eapply Forall_impl; [exact Hws|]. intros wr. apply writer_ok_stable. by eapply log_same.
  - destruct HI as (_ & bs & Hbs & Hb' & HC). split; [done|]. exists bs.
    rewrite (is_log_unique p _ _ _ Hbs Hlog) in *. split_and!; [done|lia|]. intros c. rewrite Hcell. apply HC.
  - exists entries. split_and!; [done|done|]. eapply rtc_r; [exact Hrun|by apply EClient].
Qed.

(** A writer's call, seen by the others. *)
Lemma writer_projects entries ts c n w w' : projects entries ts (c + n) w -> linv (c + n) w -> linv n w' ->
  store w' = store w \/ c = 1%nat /\ wrote (writer_write ns sent) n w w' ->
  exists entries', projects entries' ts n w'.
Proof.
  intros (Hent & Hlog & Hrun) (_ & bs0 & Hbs0 & Hn & _) HI [Hsame|(-> & key & d & cond & g & HP & Hex & Hp & Habs)].
  { exists entries. split_and!; [done|by rewrite Hsame|]. eapply rtc_r; [exact Hrun|]. apply EEnv, OtherIdle; [lia|done]. }
  destruct HP as [->|((seq & ->) & (wal & Hwal & ->) & ->)].
  { exists entries. split_and!; [done|by apply (is_log_put ns Hns KCatalog d g n _ w)|]. eapply rtc_r; [exact Hrun|].
    by eapply EEnv, (OtherWrite ns entries n w w' KCatalog d g). }
  pose proof HI as (_ & bs & Hbs & _). unfold log_at in Hbs. pose proof Hp as (_ & _ & Hv & _). rewrite Hv in Hbs.
  pose proof (log_grown _ _ _ _ _ Hlog Hbs (Habs eq_refl) (segmentKey_prefix p seq)) as Hkey.
  rewrite length_fmap in Hkey. unfold p in Hkey, Hlog. rewrite Hkey in *.
  exists (entries ++ [wal]). split_and!.
  - apply Forall_app. split; [done|by constructor].
  - rewrite Hv, fmap_app. pose proof (is_log_append p _ _ (frames wal) g Hlog) as Ha. rewrite length_fmap in Ha.
    apply Ha. rewrite (is_log_unique p _ _ _ Hbs0 Hlog), length_fmap in Hn. unfold MaxUint64, LRecord in *. lia.
  - eapply rtc_r; [by apply runs_longer|]. apply EEnv, OtherAppend. exists (length entries), wal, g. cbn [fst snd].
    rewrite take_app_length. split_and!; [done|by apply list_lookup_middle|done|done].
Qed.

Lemma sent_slice wal : batch sent wal -> slice_len (frames wal).
Proof. intros Hw. destruct Hgood as (_ & G2 & _). by apply G2. Qed.

Lemma writer_moves ws ts i cur ak X (o : op X) k x n w w' : sys_inv (ws, ts, ((cost o + n)%nat, w)) ->
  ws !! i = Some (MkWriter cur ak (Vis o k)) -> fstep faulty o w x w' ->
  sys_inv (<[i := MkWriter cur ak (k x)]> ws, ts, (n, w')).
Proof.
  intros (Hws & HI & Hsp & entries & Hp) Hi Hst.
  destruct (Forall_lookup_1 _ _ _ _ Hws Hi) as (Ha & Hc & Hs & G & HG & Ht). cbn [running acked current] in *.
  destruct (Hs n w ltac:(reflexivity) HI x w' Hst) as (HI' & HR & Hk).
  destruct (tame_step _ _ faulty o k _ G n w x w' Ht HG ltac:(apply HI) Hst) as (_ & _ & Hd & _ & G' & HG' & _ & Ht').
  split_and!; [|done|done|by eapply writer_projects].
  apply Forall_insert.
  - eapply Forall_impl; [exact Hws|]. intros wr. by apply writer_ok_stable.
  - split_and!; [|done|done|by exists G']. eapply Forall_impl; [exact Ha|]. intros q [? ?]. split; [done|].
    by eapply (delivered_stable ns cs sent).
Qed.

Lemma request_arrives ws ts i wr r ing q c : sys_inv (ws, ts, c) -> ws !! i = Some wr ->
  running wr = Ret (r, ing) -> sent q ->
  sys_inv (<[i := MkWriter (Some q) (acks wr) (serve fuel ns ing q)]> ws, ts, c).
Proof.
  destruct c as [n w]. intros (Hws & HI & Hsp & Hp) Hi Hr Hq. split_and!; try done. apply Forall_insert; [done|].
  pose proof (Forall_lookup_1 _ _ _ _ Hws Hi) as Hwr. pose proof (acks_delivered w wr Hwr) as Ha.
  destruct Hwr as (_ & _ & _ & G & _ & Ht). rewrite Hr in Ht. split_and!; [done|by intros q' [= <-]| |].
  - eapply safe_weaken; [apply _| |eapply (safe_serve faulty ns cs sent Hns sent_slice); [done|exact Ht|by eapply linv_started]].
    intros x w1 _ Hx q' [= <-]. exact Hx.
  - exists (fun _ => False). split; [apply none_issued|]. by apply (tame_serve ns cs sent Hns sent_slice).
Qed.

(** Every run of the system is a run of its flushers and loaders among
    [others]. *)
Lemma system_projects y : (forall c, c ∈ cs -> Prog.cell w0 c = 0) ->
  rtc sys_step (new_writer <$> cs, ts0, (n0, w0)) y -> sys_inv y.
Proof.
  intros Hc Hsteps. pose proof (sys_start Hc) as Hy. revert Hy. generalize (new_writer <$> cs, ts0, (n0, w0)), Hsteps.
  clear Hsteps. intros y0. induction 1 as [|y0 y1 y2 Hst _ IH]; [done|]. intros Hy. apply IH.
  destruct Hst as [ws ts i cur ak X o k x n w w' Hi Hst|ws ts ts' [n w] [n' w'] Hst|ws ts i wr r ing q c Hi Hr Hq].
  - by eapply writer_moves.
  - by eapply pool_moves.
  - by eapply request_arrives.
Qed.

(** The acknowledged batches are entries of the log. *)
Lemma delivered_entry entries ts n w q : projects entries ts n w -> delivered ns q w -> ~ vacuous q -> sent q ->
  exists wal, wal_of q = Ok wal /\ wal ∈ entries.
Proof.
  intros (Hent & Hlog & _) [?|(wal & bs & Hw & Hbs & Hin)] Hv Hq; [done|]. exists wal. split; [done|].
  rewrite (is_log_unique p _ _ _ Hbs Hlog) in Hin. apply list_elem_of_fmap in Hin as (wal' & E & Hin').
  destruct Hgood as (_ & G2 & _).
  destruct (G2 wal) as [F1 L1]; [by exists q|]. destruct (G2 wal') as [F2 L2]; [by eapply Forall_forall in Hent|].
  pose proof (scan_segment_frames wal F1 L1) as E1. rewrite E, (scan_segment_frames wal' F2 L2) in E1.
  by injection E1 as <-.
Qed.

End System.

(** ** Runs given by the order of the moves *)
Inductive move := MWriter (i : nat) | MPool (i : nat) | MRequest (i : nat) (q : request).

Section Moves.
Context {S : Type} `{Store S} `{Codec TenantCatalog, Codec WalRecord, Codec DocRecord}.
Context (fuel : nat) (ns : string) (sent : request -> Prop).

Definition next_move (m : move) (y : system (S := S)) : option (system (S := S)) :=
  let '(ws, ts, (n, w)) := y in
  match m with
  | MWriter i =>
    match ws !! i with
    | Some (MkWriter cur ak (Vis o k)) =>
      if decide (cost o <= n)%nat then
        let '(x, w') := exec o w in Some (<[i := MkWriter cur ak (k x)]> ws, ts, ((n - cost o)%nat, w'))
      else None
    | _ => None
    end
  | MPool i =>
    match interleave [i] ts n w with Some (ts', c) => Some (ws, ts', c) | None => None end
  | MRequest i q =>
    match ws !! i with
    | Some wr => match running wr with
                 | Ret (r, ing) => Some (<[i := MkWriter (Some q) (acks wr) (serve fuel ns ing q)]> ws, ts, (n, w))
                 | _ => None
                 end
    | None => None
    end
  end.

Fixpoint moves (ms : list move) (y : system (S := S)) : option (system (S := S)) :=
  match ms with
  | [] => Some y
  | m :: ms => match next_move m y with Some y' => moves ms y' | None => None end
  end.

Lemma next_move_step m y y' : match m with MRequest _ q => sent q | _ => True end -> next_move m y = Some y' ->
  rtc (sys_step false fuel ns sent) y y'.
Proof.
  destruct y as [[ws ts] [n w]], m as [i|i|i q]; cbn [next_move]; intros Hq E.
  - destruct (ws !! i) as [[cur ak [x|X o k]]|] eqn:Ei; try done. case_decide; [|done].
    destruct (exec o w) as [x w'] eqn:Ex. injection E as <-. apply rtc_once.
    replace n with (cost o + (n - cost o))%nat at 1 by lia. eapply SWriter; [done|by left].
  - destruct (interleave [i] ts n w) as [[ts' c]|] eqn:Ei; [|done]. injection E as <-.
    apply (interleave_steps false) in Ei. remember (ts, (n, w)) as c0 eqn:E0. remember (ts', c) as c1 eqn:E1.
    revert ts n w ts' c E0 E1. induction Ei as [c0|c0 [ts1 d1] c2 Hst _ IH]; intros ts n w ts' c -> E1.
    + injection E1 as <- <-. reflexivity.
    + eapply rtc_l; [by apply SPool|]. destruct d1. by eapply IH.
  - destruct (ws !! i) as [wr|] eqn:Ei; [|done]. destruct (running wr) as [[r ing]|] eqn:Er; [|done]. injection E as <-.
    apply rtc_once. by eapply SRequest.
Qed.

Lemma moves_steps ms y y' : Forall (fun m => match m with MRequest _ q => sent q | _ => True end) ms ->
  moves ms y = Some y' -> rtc (sys_step false fuel ns sent) y y'.
Proof.
  intros Hms. revert y. induction Hms as [|m ms Hm _ IH]; intros y; cbn [moves]; [by intros [= <-]|].
  destruct (next_move m y) as [y1|] eqn:E; [|done]. intros Hr. etransitivity; [by eapply next_move_step|by apply IH].
Qed.

End Moves.

(** ** The branch's documents as the log has them *)
Section Replay.
Context `{Codec WalRecord, Codec DocumentMutation}.

(** The mutations of an entry, if it is the branch's. *)
Definition branch_batch (b : string) (wal : list LRecord) : option (list DocumentMutation) :=
  match entry_flush wal with
  | Some (b', ms) => if decide (b' = b) then Some ms else None
  | None => None
  end.

Lemma batches_whole entries b :
  batches entries (fun _ => absentManifest) b [] (Z.of_nat (length entries)) = omap (branch_batch b) entries.
Proof.
  unfold batches. cbn [app CheckpointSeq absentManifest]. rewrite Z.sub_0_r. change (0 + 1) with 1.
  induction entries as [|wal entries IH] using rev_ind; [done|].
  rewrite length_app. cbn [length]. rewrite Nat2Z.inj_add, seqZ_app, !omap_app by lia. f_equal.
  - rewrite <-IH. apply list_omap_ext, Forall2_same_length_lookup. split; [done|]. intros i x y Hx Hy.
    assert (x = y) as -> by congruence. pose proof (list_elem_of_lookup_2 _ _ _ Hx) as Hin. apply elem_of_seqZ in Hin.
    unfold batch_at, flush_at. rewrite !decide_True by lia. by rewrite lookup_app_l by (unfold LRecord in *; lia).
  - change (seqZ (1 + Z.of_nat (length entries)) (Z.of_nat 1)) with [0 + (1 + Z.of_nat (length entries))]. rewrite Z.add_0_l.
    assert (batch_at (entries ++ [wal]) b (1 + Z.of_nat (length entries)) = branch_batch b wal) as E.
    { unfold batch_at, flush_at. rewrite decide_True by lia. replace (Z.to_nat _) with (length entries) by lia.
      by rewrite list_lookup_middle. }
    cbn. by rewrite E.
Qed.

End Replay.

(** C1. What is acknowledged becomes visible: clients of the ingester send
    upserts and deletes of documents of a fresh namespace, several flushers
    and several loaders of one branch run at the same time, every step being
    one call of one of them, over calls that fail (without effect, or with
    the acknowledgement lost), and all are stopped at any moment.  Then the
    namespace's log is a sequence of batches that were sent, and it contains
    the batch of every request that was acknowledged; every branch's manifest
    lists exactly the segments of its entries up to its checkpoint, in order,
    each once; and, provided the branch's mutations in the log can all be
    applied one after the other (the ingester also acknowledges some that
    cannot: [sync_poisoned]), one undisturbed run of a flusher followed by one
    undisturbed [Sync] of any of the loaders returns without error and makes
    the loader's table the replay of all of the branch's batches in the log.
    The run needs loop bounds above the length of the log, a branch catalog
    that can be read or is absent, files that can be marshalled
    ([encodable]) and generations left for its writes. *)
Theorem acknowledged_becomes_visible {S} `{StoreLaws S}
    `{CodecLaws TenantCatalog, CodecLaws BranchCatalog, CodecLaws BranchManifest}
    `{CodecLaws WalRecord, CodecLaws DocumentMutation, Codec DocRecord} kernels (faulty : bool)
    fuel ns sent cs b flushers loaders n0 (w0 : world S) ws ts n w :
  valid_name ns -> valid_name b -> good_requests sent -> untouched ns w0 -> ok n0 (store w0) ->
  Z.of_nat n0 < MaxUint64 -> (forall c, c ∈ cs -> Prog.cell w0 c = 0) ->
  rtc (sys_step faulty fuel ns sent) (new_writer <$> cs, pool kernels ns b flushers loaders, (n0, w0)) (ws, ts, (n, w)) ->
  exists entries,
    is_log (WALPrefix (MkScope ns)) (view (store w)) (frames <$> entries) /\ Forall (batch sent) entries /\
    (forall i wr q, ws !! i = Some wr -> q ∈ acks wr -> ~ vacuous q -> exists wal, wal_of q = Ok wal /\ wal ∈ entries) /\
    (forall b', valid_name b' -> exists m, manifest_is ns b' w m /\ CheckpointSeq m <= Z.of_nat (length entries) /\
       Segments m = refs entries b' 0 (CheckpointSeq m)) /\
    forall j x e l bc fuel' polls counter, ts !! j = Some (Ret (inr (x, e, l))) ->
      holds (branchesKey (MkScope ns)) (MkBranches ∅) w bc -> encodable entries (manifest_at ns w) bc ->
      (exists st, spec_replay kernels empty_state (concat (omap (branch_batch b) entries)) st) ->
      (3 * length entries <= n)%nat -> (length entries + polls < fuel')%nat ->
      exists s w' x' l' st, run (flusher_client ns (fuel', polls, counter)) w = (Ok tt, s, w') /\
        run (Sync kernels (fun _ _ => None) l) w' = (x', None, l', w') /\
        spec_replay kernels empty_state (concat (omap (branch_batch b) entries)) st /\
        forall id, Table.Get kernels (table l') id = docs st !! id.
Proof.
  intros Hns Hb Hgood Hu Hok Hn0 Hc Hsteps.
  destruct (system_projects kernels faulty fuel ns sent Hns cs Hgood b Hb flushers loaders n0 w0 Hu Hok Hn0 _ Hc Hsteps)
    as (Hws & HI & _ & entries & Hp). pose proof Hp as (Hent & Hlog & _).
  edestruct projects_good as (Hgl & Hfit & Hfl); [exact Hgood|exact Hp|exact HI|].
  destruct (projects_reach kernels faulty ns sent Hns cs Hgood b Hb flushers loaders n0 w0 Hu Hok entries ts n w Hp HI) as [HF HL].
  exists entries. split_and!; [done|done| | |].
  - intros i wr q Hi Hq Hv. pose proof (acks_delivered _ _ _ _ _ _ (Forall_lookup_1 _ _ _ _ Hws Hi)) as Ha.
    apply (proj1 (Forall_forall _ _)) with (x := q) in Ha as [Hsq Hd]; [|done]. by eapply delivered_entry.
  - intros b' Hb'. pose proof HF as (_ & _ & HM & _). destruct (HM b' Hb') as (m & Hm & (_ & _ & Hlg & _ & Hs & _)).
    exists m. split; [done|]. split; [by eapply log_ge_bound|exact Hs].
  - intros j x e l bc fuel' polls counter Hj Hbc Henc Hacc Hn Hfuel. rewrite <-!batches_whole in *.
    apply (visible_after kernels ns entries (fun _ => absentManifest) b [] l bc (length entries) fuel' polls counter n w);
      try done; [exact (HL j (x, e, l) Hj)|]. by rewrite firstn_all.
Qed.

(** ** Witness: a client's upsert is acknowledged, the flusher is stopped after
    the upload of its segment, the loader has found no manifest *)
#[local] Instance ex_catalog_codec' : Codec TenantCatalog := bit_codec TenantCatalog.
#[local] Instance ex_catalog_laws' : CodecLaws TenantCatalog := bit_codec_laws TenantCatalog.
#[local] Existing Instances ex_branches_codec ex_branches_laws ex_manifest_codec ex_manifest_laws ex_wal_codec ex_mut_codec ex_mut_laws ex_record_codec.
#[local] Instance ex_wal_laws' : CodecLaws WalRecord := bit_codec_laws WalRecord.

Definition ex_request : request := RUpsert "main" [ex_record 1] 7.
Definition ex_sent (q : request) : Prop := q = ex_request.
Definition ex_moves : list move :=
  MRequest 0 ex_request :: replicate 9 (MWriter 0) ++ (MPool <$> [0; 0; 0; 0; 1]%nat).
Definition ex_system : option (system (S := Mem.memStore)) :=
  moves 3 "docs" ex_moves (new_writer <$> [0%nat], ex_pool None, (50%nat, MkWorld Mem.newMemStore ∅)).

Lemma ex_system_at : match ex_system with
  | Some (ws, ts, (n, w)) => acks <$> ws = [[ex_request]] /\ n = 47%nat /\ ex_loaded ts = Some (0%nat, None, None) /\
      view (store w) !! branchesKey (MkScope "docs") = None /\
      view (store w) !! ManifestKey (MkScope "docs") "main" = None /\
      view (store w) !! segmentKey "ns/docs/wal" 2 = None
  | None => False
  end.
Proof. vm_compute. repeat split; reflexivity. Qed.

Lemma ex_batch wal : batch ex_sent wal -> wal = ex_entry.
Proof.
  intros (q & -> & _ & Hw). assert (wal_of ex_request = Ok ex_entry) as E by (vm_compute; reflexivity).
  rewrite E in Hw. by injection Hw as <-.
Qed.

Lemma ex_flushes : entry_flush ex_entry = Some ("main", [ex_mut]).
Proof. vm_compute. reflexivity. Qed.

Lemma ex_good_requests : good_requests ex_sent.
Proof.
  destruct ex_good_log as (_ & G2 & _ & _ & G5 & G6).
  assert (flush_at ex_entries 1 = Some ("main", [ex_mut])) as Hf by (vm_compute; reflexivity).
  assert (forall d, seg_of ex_entry d -> segment_of ex_entries 1 "main" d) as Hseg.
  { intros d (b & ms & E & Hd). rewrite ex_flushes in E. injection E as <- <-. exists [ex_mut]. split; [exact Hf|exact Hd]. }
  split_and!.
  - by intros q ->.
  - intros wal ->%ex_batch. exact (Forall_inv G2).
  - intros wal b ms ->%ex_batch E. rewrite ex_flushes in E. injection E as <- <-. exact (ex_segments_fit 1 "main" [ex_mut] Hf).
  - intros wal d ->%ex_batch Hd. exact (G5 _ _ _ (Hseg d Hd)).
  - intros wal d wal' d' ->%ex_batch ->%ex_batch Hd Hd'. exact (G6 _ _ _ _ _ _ (Hseg d Hd) (Hseg d' Hd')).
Qed.

Lemma ex_only_entry entries (w : world Mem.memStore) : is_log "ns/docs/wal" (view (store w)) (frames <$> entries) ->
  view (store w) !! segmentKey "ns/docs/wal" 2 = None -> Forall (batch ex_sent) entries -> ex_entry ∈ entries ->
  entries = ex_entries.
Proof.
  intros Hl Hnone Hb Hin. pose proof (is_log_exists _ _ _ 2 Hl ltac:(lia)) as Hex. rewrite Hnone in Hex.
  destruct entries as [|x [|y entries]]; [by apply not_elem_of_nil in Hin| |].
  - apply Forall_inv, ex_batch in Hb. by subst x.
  - destruct (proj2 Hex) as [? ?]; [cbn [length fmap list_fmap]; lia|done].
Qed.

Lemma acknowledged_becomes_visible_witness : exists ws ts n w l s w' x' l' st,
  rtc (sys_step false 3 "docs" ex_sent) (new_writer <$> [0%nat], ex_pool None, (50%nat, MkWorld Mem.newMemStore ∅)) (ws, ts, (n, w)) /\
  acks <$> ws = [[ex_request]] /\ Table.Get pureKernels (table l) "d" = None /\
  run (flusher_client "docs" (2, 0, 1)%nat) w = (Ok tt, s, w') /\
  run (Sync pureKernels (fun _ _ => None) l) w' = (x', None, l', w') /\
  spec_replay pureKernels empty_state [ex_mut] st /\ Table.Get pureKernels (table l') "d" = docs st !! "d".
Proof.
  pose proof ex_system_at as Hs. destruct ex_system as [[[ws ts] [n w]]|] eqn:E; [|destruct Hs].
  destruct Hs as (Hacks & -> & Hr & Hb & Hm & Hnone). unfold ex_loaded in Hr.
  destruct (ts !! 1%nat) as [[[y|[[x e] l]]|]|] eqn:Ej; [discriminate Hr| |discriminate Hr..].
  injection Hr as _ _ Hg. apply moves_steps with (sent := ex_sent) in E; [|by forall_list].
  destruct (acknowledged_becomes_visible pureKernels false 3 "docs" ex_sent [0%nat] "main" [(3, 0, 0)]%nat [[fun _ _ => None]]
    50 (MkWorld Mem.newMemStore ∅) ws ts 47 w) as (entries & Hlog & Hent & Hack & _ & Hvis).
  - reflexivity.
  - reflexivity.
  - exact ex_good_requests.
  - intros key _. apply lookup_empty.
  - apply Mem.newMemStore_ok. reflexivity.
  - reflexivity.
  - intros c _. reflexivity.
  - exact E.
  - destruct ws as [|wr [|]]; [discriminate Hacks| |discriminate Hacks]. injection Hacks as Hwr.
    assert (entries = ex_entries) as ->.
    { apply (ex_only_entry entries w); try done. destruct (Hack 0%nat wr ex_request eq_refl) as (wal & Hw & Hin).
      - rewrite Hwr. by apply list_elem_of_singleton.
      - discriminate.
      - assert (wal = ex_entry) as -> by (apply ex_batch; by exists ex_request). done. }
    destruct (Hvis 1%nat x e l (MkBranches ∅) 2%nat 0%nat 1%nat Ej) as (s & w' & x' & l' & st & Hrun & Hsync & Hrep & Hall).
    + unfold holds. by rewrite Hb.
    + apply ex_encodable. unfold manifest_at. by rewrite Hm.
    + rewrite <-batches_whole. exact ex_accepts.
    + cbn. lia.
    + cbn. lia.
    + exists [wr], ts, 47%nat, w, l, s, w', x', l', st. split_and!; try done. by rewrite <-Hwr.
Defined.
