(* ===== verification/Engine.v ===== *)
(** * query: the engine

    src/query/engine.go.  The [Engine] of a tenant keeps one loader per
    branch; [SyncOnce] discovers the active namespaces and their branches and
    syncs each, [Run] does so at every tick, and [Query] searches the table a
    branch's loader last published.

    The contexts are arguments: [ctx] is [ctx.Err()] where the code reads
    it, [stop] is the context as the loaders see it.  Errors that the code
    only logs are dropped. *)

From S2P Require Import Prelude GoStr Recordio ObjectStore Prog Codec Logstream Namespace Cas Catalog Float32 Sha256 Storage Flusher FlusherSafety Vector Table Search Loader LoaderSafety.
Local Open Scope Z_scope.

Record Request := MkRequest {
  ReqNamespace : string;
  ReqBranch : string;
  VectorColumn : string;
  ReqVector : list float32;
  TopK : Z;
  Filter : option EqualityFilter;
}.

Record Engine := MkEngine {
  esyncInterval : Z;
  ekernels : Kernels;
  loaders : gmap (string * string) Loader;
}.

Definition NewEngine (nil_store : bool) (syncInterval : Z) (kernels : Kernels) : res Engine :=
  if nil_store then Err (Msg "query: nil store") else
  if decide (syncInterval <= 0) then Err (Msg "query: non-positive sync interval") else
  Ok (MkEngine syncInterval kernels ∅).

Definition with_loader (e : Engine) (key : string * string) (l : Loader) : Engine :=
  MkEngine (esyncInterval e) (ekernels e) (<[key := l]> (loaders e)).

Section Syncing.
Context `{Codec TenantCatalog, Codec BranchCatalog, Codec BranchManifest, Codec DocumentMutation, Codec DocRecord}.
Context (stop : string -> string -> nat -> nat -> option error).

(** The loop over the branches of a namespace. *)
Fixpoint sync_branches (ns : string) (branches : list string) (e : Engine) : prog Engine :=
  match branches with
  | [] => Ret e
  | branch :: branches =>
    let key := (ns, branch) in
    match (match loaders e !! key with
           | Some l => Ok l
           | None => NewLoader false false NewTable (MkScope ns) branch
           end) with
    | Err _ => sync_branches ns branches e
    | Ok loader =>
      x ← Sync (ekernels e) (stop ns branch) loader;
      sync_branches ns branches (with_loader e key x.2)
    end
  end.

Fixpoint sync_namespaces (namespaces : list string) (e : Engine) : prog (option error * Engine) :=
  match namespaces with
  | [] => Ret (None, e)
  | ns :: namespaces =>
    r ← ListBranches (MkScope ns);
    match r with
    | Err err => Ret (Some err, e)
    | Ok branches =>
      e ← sync_branches ns branches e;
      sync_namespaces namespaces e
    end
  end.

Definition SyncOnce (ctx : option error) (e : Engine) : prog (option error * Engine) :=
  match ctx with
  | Some err => Ret (Some err, e)
  | None =>
    r ← ActiveNamespaces;
    match r with
    | Err err => Ret (Some err, e)
    | Ok namespaces => sync_namespaces namespaces e
    end
  end.

End Syncing.

(** One sync of [Run]: the context when it starts and when it returns. *)
Record tick := MkTick {
  at_start : option error;
  at_end : option error;
  tstop : string -> string -> nat -> nat -> option error;
}.

(** The first sync and then one per tick until the context is done; [Run]
    returns nil in every case, so the engine is all that is left. *)
Fixpoint Run `{Codec TenantCatalog, Codec BranchCatalog, Codec BranchManifest, Codec DocumentMutation, Codec DocRecord}
    (ticks : list tick) (e : Engine) : prog Engine :=
  match ticks with
  | [] => Ret e
  | t :: ticks =>
    '(err, e) ← SyncOnce (tstop t) (at_start t) e;
    match err, at_end t with
    | Some _, Some _ => Ret e
    | _, _ => Run ticks e
    end
  end.

Definition Query (ctx : option error) (e : Engine) (req : Request) : res (list ScoredRecord) :=
  match ctx with
  | Some err => Err err
  | None =>
    let col := if decide (VectorColumn req = "") then "default" else VectorColumn req in
    match loaders e !! (ReqNamespace req, ReqBranch req) with
    | None => Ok []
    | Some loader => Search (ekernels e) (table loader) col (ReqVector req) (TopK req) COSINE (Filter req)
    end
  end.

(** ** Programs that only read *)
Section Reading.
Context {S : Type} `{StoreLaws S} `{Codec TenantCatalog, Codec BranchCatalog, Codec BranchManifest}.
Context `{Codec DocumentMutation, Codec DocRecord}.

Lemma reading_ListBranches s : reading (S := S) (ListBranches s).
Proof.
  apply reading_try; [|intros [c g]; by case_decide]. apply reading_bind; [apply reading_call; auto with cloudy|].
  intros [[d o]|e]; [rewrite try_lift; by destruct (Unmarshal d)|by destruct (errors_Is _ _)].
Qed.

Lemma reading_ActiveNamespaces : reading (S := S) ActiveNamespaces.
Proof.
  apply reading_bind.
  - apply reading_try; [apply reading_call; auto with cloudy|]. intros [d o]. rewrite try_lift.
    by destruct (Unmarshal d).
  - intros [[c g]|e]; [cbn zeta; by case_decide|by destruct (errors_Is _ _)].
Qed.

(** A loader keeps its branch. *)
Definition same_branch (l : Loader) (x : nat * option error * Loader) : Prop :=
  lscope x.2 = lscope l /\ lbranch x.2 = lbranch l.

Lemma failed_same l n t e l0 : same_branch l0 (0%nat, None, l) -> same_branch l0 (failed_sync l n t e).
Proof. unfold failed_sync. by case_decide. Qed.

Lemma always_sync_loop kernels stop segs gen t n l l0 : same_branch l0 (0%nat, None, l) ->
  always (same_branch l0) (sync_loop kernels stop segs gen t n l).
Proof.
  revert t n l. induction segs as [|seg segs IH]; intros t n l Hl; cbn [sync_loop]; [by destruct t|].
  eapply always_bind; [apply always_true|]. intros [[d o]|e] _; [|by apply failed_same].
  destruct (load_segment _ _ _ _) as [[e|] t']; [by apply failed_same|by apply IH].
Qed.

Lemma always_Sync kernels stop l : always (same_branch l) (Sync kernels stop l).
Proof.
  eapply always_bind; [apply always_true|]. intros [[m gen]|e] _; [|done].
  repeat case_decide; [done|done|by apply always_sync_loop].
Qed.

End Reading.

(** ** The engine over a namespace that is being flushed *)
Section Namespace.
Context {S : Type} `{StoreLaws S} `{Codec TenantCatalog, CodecLaws BranchCatalog, CodecLaws BranchManifest}.
Context `{Codec WalRecord, CodecLaws DocumentMutation, Codec DocRecord}.
Context (faulty : bool) (kernels : Kernels) (ns : string).
Context (entries : list (list LRecord)) (base : string -> BranchManifest).
Context (b : string) (base_batches : list (list DocumentMutation)).
Context (Hns : valid_name ns) (Hb : valid_name b) (Hgood : good_log entries) (Hfit : segments_fit entries).
Abbreviation inv := (flush_inv ns entries base).
Abbreviation rel := (flush_rel ns entries).
Abbreviation loader_ok := (loader_ok kernels ns entries base b base_batches).

Definition engine_ok (e : Engine) (w : world S) : Prop :=
  ekernels e = kernels /\ base_ready ns entries base b base_batches w /\
  upto ns entries base b base_batches 0 w /\
  (forall key l, loaders e !! key = Some l -> lscope l = MkScope key.1 /\ lbranch l = key.2) /\
  (forall l, loaders e !! (ns, b) = Some l -> loader_ok l w).

Lemma engine_ok_stable e w w' : rel w w' -> engine_ok e w -> engine_ok e w'.
Proof.
  pose proof Hgood as (_ & _ & _ & HN & _ & _).
  intros HR (E1 & E2 & E3 & E4 & E5). split_and!; [done| | |done|].
  - by eapply ready_stable.
  - by eapply upto_stable.
  - intros l El. eapply loader_ok_stable; [done|done|]. by apply E5.
Qed.

(** Syncing any branch of any namespace. *)
Lemma safe_sync_branch stop ns' branch e l w : engine_ok e w ->
  lscope l = MkScope ns' -> lbranch l = branch -> ((ns', branch) = (ns, b) -> loader_ok l w) ->
  safe faulty inv rel (Sync kernels stop l) (fun x w' => engine_ok (with_loader e (ns', branch) x.2) w') w.
Proof.
  intros He Hs Hbr Hl. pose proof Hgood as (_ & _ & _ & HN & _ & _).
  assert (forall x w', rel w w' -> same_branch l x -> ((ns', branch) = (ns, b) -> loader_ok x.2 w') ->
    engine_ok (with_loader e (ns', branch) x.2) w') as Hset.
  { intros x w' HR [Hx1 Hx2] Hx3. destruct (engine_ok_stable _ _ _ HR He) as (E1 & E2 & E3 & E4 & E5).
    split_and!; [done|done|done| |].
    - intros key l'. cbn. intros [[<- <-]|[_ ?]]%lookup_insert_Some; [cbn; split; congruence|by apply E4].
    - intros l'. cbn. intros [[E <-]|[_ ?]]%lookup_insert_Some; [by apply Hx3|by apply E5]. }
  destruct (decide ((ns', branch) = (ns, b))) as [E|Hne].
  - pose proof He as (_ & _ & (c & Hc & _) & _). eapply safe_weaken; [apply _| |].
    2: { apply (safe_Sync faulty kernels ns entries base b base_batches) with (cs := c); try done. by apply Hl. }
    intros x w' HR [[Hx _] _]. apply Hset; [done| |done]. destruct Hx as (X1 & X2 & _).
    injection E as -> ->. split; congruence.
  - eapply safe_weaken; [apply _| |apply safe_reading; [apply _|apply reading_Sync|apply always_Sync]].
    intros x w' HR Hx. by apply Hset.
Qed.

Lemma safe_sync_branches stop ns' branches e w : engine_ok e w ->
  safe faulty inv rel (sync_branches stop ns' branches e) engine_ok w.
Proof.
  revert e w. induction branches as [|branch branches IH]; intros e w He; cbn [sync_branches]; [done|].
  set (r := match loaders e !! (ns', branch) with Some l => Ok l | None => _ end).
  assert (exists l, r = Ok l /\ lscope l = MkScope ns' /\ lbranch l = branch /\
    ((ns', branch) = (ns, b) -> loader_ok l w)) as (l & -> & H1' & H2' & H3').
  { pose proof He as (E1 & E2 & E3 & E4 & E5). unfold r.
    destruct (loaders e !! (ns', branch)) as [l|] eqn:El.
    - exists l. destruct (E4 _ _ El). split_and!; try done. intros E. apply E5. by rewrite <-E.
    - exists (new_loader ns' branch). split_and!; try done. intros [= -> ->]. by apply fresh_loader_ok. }
  assert (ekernels e = kernels) as Hk by apply He. rewrite Hk.
  eapply safe_bind; [apply _|by apply (safe_sync_branch _ ns' branch e l)|]. intros x w' _ Hx. by apply IH.
Qed.

Lemma safe_sync_namespaces stop namespaces e w : engine_ok e w ->
  safe faulty inv rel (sync_namespaces stop namespaces e) (fun x w => engine_ok x.2 w) w.
Proof.
  revert e w. induction namespaces as [|ns' namespaces IH]; intros e w He; cbn [sync_namespaces]; [done|].
  eapply safe_bind; [apply _|apply safe_reading; [apply _|apply reading_ListBranches|apply always_true]|].
  intros [branches|err] w1 HR _; [|cbn; by eapply engine_ok_stable].
  eapply safe_bind; [apply _|apply safe_sync_branches; by eapply engine_ok_stable|]. intros e' w2 _ He'. by apply IH.
Qed.

Lemma safe_SyncOnce stop ctx e w : engine_ok e w ->
  safe faulty inv rel (SyncOnce stop ctx e) (fun x w => engine_ok x.2 w) w.
Proof.
  intros He. unfold SyncOnce. destruct ctx; [done|].
  eapply safe_bind; [apply _|apply safe_reading; [apply _|apply reading_ActiveNamespaces|apply always_true]|].
  intros [namespaces|err] w1 HR _; [|cbn; by eapply engine_ok_stable].
  apply safe_sync_namespaces. by eapply engine_ok_stable.
Qed.

Lemma safe_Run_engine ticks e w : engine_ok e w -> safe faulty inv rel (Run ticks e) engine_ok w.
Proof.
  revert e w. induction ticks as [|t ticks IH]; intros e w He; cbn [Run]; [done|].
  eapply safe_bind; [apply _|by apply safe_SyncOnce|]. intros [err e'] w1 _ He'. cbn [snd] in He'.
  destruct err, (at_end t); [done|by apply IH..].
Qed.

End Namespace.

(** ** Claims *)
Section Claim.
Context {S : Type} `{StoreLaws S} `{Codec TenantCatalog, CodecLaws BranchCatalog, CodecLaws BranchManifest}.
Context `{Codec WalRecord, CodecLaws DocumentMutation, Codec DocRecord}.

(** Flushers of a namespace and query engines. *)
Definition served : Type := (res unit * streamFlusher) + Engine.
Definition engine_pool (kernels : Kernels) (ns : string) (flushers : list (nat * nat * nat))
    (engines : list (list tick)) : list (prog served) :=
  ((fun c => x ← flusher_client ns c; Ret (inl x)) <$> flushers) ++
  ((fun ticks => x ← Run ticks (MkEngine 1 kernels ∅); Ret (inr x)) <$> engines).

Section Pool.
Context (faulty : bool) (kernels : Kernels) (ns : string) (entries : list (list LRecord)).
Context (base : string -> BranchManifest) (b : string) (base_batches : list (list DocumentMutation)).
Context (n : nat) (w : world S).
Context (Hns : valid_name ns) (Hb : valid_name b) (Hgood : good_log entries) (Hfit : segments_fit entries).
Context (Hst : flush_start ns entries base n w) (Hbase : base_ready ns entries base b base_batches w).
Abbreviation inv := (flush_inv ns entries base).
Abbreviation rel := (flush_rel ns entries).
Abbreviation engine_ok := (engine_ok kernels ns entries base b base_batches).

Definition served_post (x : served) (w : world S) : Prop :=
  match x with inl _ => True | inr e => engine_ok e w end.

Lemma engine_start : engine_ok (MkEngine 1 kernels ∅) w.
Proof.
  split_and!; [done|done| |by intros key l; cbn; rewrite lookup_empty|by intros l; cbn; rewrite lookup_empty].
  destruct Hst as (_ & _ & HM & _). destruct (HM b Hb) as (Hm & _ & Hlg & _).
  exists (CheckpointSeq (base b)). split; [by exists (base b)|]. split; [by eapply log_ge_bound|lia].
Qed.

Lemma engine_pool_ok flushers engines ts n' w' :
  rtc (estep faulty (others ns entries)) (engine_pool kernels ns flushers engines, (n, w)) (ts, (n', w')) ->
  forall j e, ts !! j = Some (Ret (inr e)) -> engine_ok e w'.
Proof.
  intros Hsteps. pose proof Hgood as (L1 & L2 & L3 & L4 & L5 & L6).
  pose proof (flush_start_inv _ _ _ _ _ Hst) as HI.
  destruct (pool_steps_env faulty inv rel (others ns entries)
    ((fun _ => served_post) <$> engine_pool kernels ns flushers engines)
    (engine_pool kernels ns flushers engines) n w ts n' w') as (HI' & HR & Hpool); [| | |done|done|].
  - intros n1 w1 n2 w2 Ha HI1. by eapply others_safe.
  - apply Forall_fmap, Forall_true. intros _ [x|x] w1 w2 HR; [done|]. by eapply engine_ok_stable.
  - assert (log_ge ns entries 0 w) as Hl0 by apply Hst.
    apply Forall2_fmap_r, Forall_Forall2_diag, Forall_app. split; apply Forall_fmap, Forall_true.
    + intros [[fuel polls] counter]. cbn [compose].
      eapply safe_bind; [apply _|by apply (safe_Run faulty ns entries base) with (k0 := 0)|done].
    + intros ticks. eapply safe_bind; [apply _|apply safe_Run_engine; [done..|apply engine_start]|done].
  - intros j e Hj. destruct (Forall2_lookup_l _ _ _ _ _ Hpool Hj) as (Q' & HQ' & Hsafe).
    rewrite list_lookup_fmap in HQ'. destruct (engine_pool _ _ _ _ !! j); [|done]. by injection HQ' as <-.
Qed.

End Pool.
End Claim.

(** C7. Answers come from the log: query engines sync at every tick while
    flushers and writers of a namespace, and other namespaces', are at work,
    over failing calls and
    with contexts cancelled anywhere.  Every hit an engine returns for a
    branch is a live document of the replay of a prefix of the branch's
    mutations, in log order (one that may end within an entry's batch, after
    a sync that failed there), with a vector in the column asked for (the
    column "default" if none is named) and the attribute the filter asks for;
    no document comes twice and there are at most [TopK]. *)
Theorem query_from_log {S} `{StoreLaws S} `{Codec TenantCatalog, CodecLaws BranchCatalog, CodecLaws BranchManifest}
    `{Codec WalRecord, CodecLaws DocumentMutation, Codec DocRecord} (faulty : bool) kernels
    ns entries base b base_batches flushers engines n (w : world S) ts n' w' j e req hits :
  valid_name ns -> valid_name b -> good_log entries -> segments_fit entries ->
  flush_start ns entries base n w -> base_ready ns entries base b base_batches w ->
  rtc (estep faulty (others ns entries)) (engine_pool kernels ns flushers engines, (n, w)) (ts, (n', w')) ->
  ts !! j = Some (Ret (inr e)) -> ReqNamespace req = ns -> ReqBranch req = b ->
  Query None e req = Ok hits ->
  exists ms st, ms `prefix_of` concat (batches entries base b base_batches (Z.of_nat (length entries))) /\
    spec_replay kernels empty_state ms st /\
    (length hits <= Z.to_nat (TopK req))%nat /\ NoDup ((fun h => Id (Record_ h)) <$> hits) /\
    forall h, h ∈ hits ->
      docs st !! Id (Record_ h) = Some (Record_ h) /\
      is_Some (Vectors (Record_ h) !! (if decide (VectorColumn req = "") then "default" else VectorColumn req)) /\
      match Filter req with
      | Some f => exists v, FValue f = Some v /\ Attributes (Record_ h) !! Field f = Some v
      | None => True
      end.
Proof.
  intros Hns Hb Hgood Hfit Hst Hbase Hsteps Hj Ens Eb Hq.
  destruct (engine_pool_ok faulty kernels ns entries base b base_batches n w Hns Hb Hgood Hfit Hst Hbase
    flushers engines ts n' w' Hsteps j e Hj) as (Hk & _ & _ & _ & Hl).
  unfold Query in Hq. rewrite Ens, Eb in Hq. destruct (loaders e !! (ns, b)) as [l|].
  - rewrite Hk in Hq. destruct (loader_shows _ _ _ _ _ _ _ _ (Hl l eq_refl)) as (Hwf & ms & Hms & Hr).
    destruct (Search_live _ _ _ _ _ _ _ _ Hwf Hq) as (Hlen & Hnd & Hlive).
    exists ms, (abs kernels (table l)). split_and!; try done. intros h Hh. rewrite abs_Get. by apply Hlive.
  - injection Hq as <-. exists [], empty_state. split_and!; try done; [apply prefix_nil|cbn; lia|apply NoDup_nil_2|].
    by intros h Hh%not_elem_of_nil.
Qed.

(** ** Witness: an entry is appended, flushed, synced and found *)
#[local] Existing Instances ex_branches_codec ex_branches_laws ex_manifest_codec ex_manifest_laws ex_wal_codec ex_mut_codec ex_mut_laws ex_record_codec.
#[local] Instance ex_tenant_codec : Codec TenantCatalog := bit_codec TenantCatalog.

Definition ex_tick : tick := MkTick None None (fun _ _ _ _ => None).
Definition ex_engines : list (prog served) := engine_pool pureKernels "default" [(3, 0, 0)]%nat [[ex_tick]].
Definition ex_engine_sched : list nat := replicate 10 0%nat ++ replicate 4 1%nat.
Definition ex_engine_w1 : world Mem.memStore :=
  (exec (OPut (segmentKey "ns/default/wal" 1) (frames ex_entry) IfAbsent) (MkWorld Mem.newMemStore ∅)).2.
Definition ex_request : Request := MkRequest "default" "main" "v" [fone] 1 None.

Definition ex_answer (ts : list (prog served)) : res (list ScoredRecord) :=
  match ts !! 1%nat with
  | Some (Ret (inr e)) => Query None e ex_request
  | _ => Err (Msg "running")
  end.

Lemma ex_engine_runs : match interleave ex_engine_sched ex_engines 49 ex_engine_w1 with
  | Some (ts, _) => ex_answer ts = Ok [MkScored (ex_record 1) fzero]
  | None => False
  end.
Proof. vm_compute. reflexivity. Qed.

Lemma ex_engine_appends : appends "default" ex_entries (50%nat, MkWorld Mem.newMemStore ∅) (49%nat, ex_engine_w1).
Proof.
  exists 0%nat, ex_entry. eexists. split; [apply empty_log|]. split; [reflexivity|]. split; [reflexivity|].
  cbn [fst snd]. unfold ex_engine_w1. vm_compute. reflexivity.
Qed.

Lemma query_from_log_witness : exists ts n' w' e ms st,
  rtc (estep false (others "default" ex_entries)) (ex_engines, (50%nat, MkWorld Mem.newMemStore ∅)) (ts, (n', w')) /\
  ts !! 1%nat = Some (Ret (inr e)) /\ Query None e ex_request = Ok [MkScored (ex_record 1) fzero] /\
  spec_replay pureKernels empty_state ms st /\ docs st !! "d" = Some (ex_record 1).
Proof.
  pose proof ex_engine_runs as Hr.
  destruct (interleave _ _ _ _) as [[ts [n' w']]|] eqn:E; [|destruct Hr].
  assert (rtc (estep false (others "default" ex_entries)) (ex_engines, (50%nat, MkWorld Mem.newMemStore ∅))
    (ts, (n', w'))) as Hs.
  { eapply rtc_l; [apply EEnv, OtherAppend, ex_engine_appends|]. by eapply interleave_esteps. }
  unfold ex_answer in Hr. destruct (ts !! 1%nat) as [[[x|e]|]|] eqn:Ej; [discriminate Hr| |discriminate Hr..].
  destruct (query_from_log false pureKernels "default" ex_entries (fun _ => absentManifest) "main" []
    [(3, 0, 0)]%nat [[ex_tick]] 50 (MkWorld Mem.newMemStore ∅) ts n' w' 1 e ex_request
    [MkScored (ex_record 1) fzero]) as (ms & st & _ & Hms & _ & _ & Hh).
  - reflexivity.
  - reflexivity.
  - exact ex_good_log.
  - exact ex_segments_fit.
  - exact (ex_flush_start "default").
  - constructor.
  - exact Hs.
  - exact Ej.
  - reflexivity.
  - reflexivity.
  - exact Hr.
  - exists ts, n', w', e, ms, st. split; [exact Hs|]. split; [exact Ej|]. split; [exact Hr|]. split; [exact Hms|].
    apply (Hh (MkScored (ex_record 1) fzero)). by left.
Defined.
