(* ===== verification/Grpc.v ===== *)
(** * grpcapi: the RPC servers

    src/grpcapi/{interceptor,ingest,query}.go.  A response is [Done] with the
    reply or [Status] with the gRPC code (messages are left out).  The ingest
    server has a map from tenants to references of ingesters; what a handler
    does is an [act]: it answers, or it calls a method of the ingester it
    has looked up.  [serve] runs the method on the object referred to, which
    knows the store it was made with and has its own log counters.
    [time.Now()] is the argument [now]; the loops below have the fuel of the
    ingester.  Clocks, logging and the trailer's contents are left out;
    [trailer] is the error of [grpc.SetTrailer]. *)

From S2P Require Import Prelude GoStr Recordio ObjectStore Prog Codec Logstream Namespace Cas Catalog Float32 Storage Ingester Vector Table Search Loader Engine.
Local Open Scope Z_scope.

Inductive code := CodeUnauthenticated | CodeInvalidArgument | CodeNotFound | CodeAlreadyExists
  | CodeCanceled | CodeDeadlineExceeded | CodeInternal.
Inductive rpc (A : Type) := Done (reply : A) | Status (c : code).
Arguments Done {A} reply.
Arguments Status {A} c.

(** ** interceptor.go *)

(** [vals] are the values of the x-tenant-id header; the handler gets the
    tenant through the context. *)
Definition TenantInterceptor {A} (vals : list string) (handler : string -> A) : rpc A :=
  match vals with
  | [] => Status CodeUnauthenticated
  | tenant :: more =>
    if decide (tenant = "") then Status CodeUnauthenticated else
    if decide (more <> []) then Status CodeInvalidArgument else
    match ValidateName tenant with
    | Err _ => Status CodeInvalidArgument
    | Ok _ => Done (handler tenant)
    end
  end.

(** The tenant of a context: "" when the interceptor did not run. *)
Definition TenantFrom (ctx : option string) : string := default "" ctx.

(** ** ingest.go *)
Record UpsertRequest := MkUpsert { UNamespace : string; UBranch : string; Records : list (option DocRecord) }.
Record DeleteRequest := MkDelete { DNamespace : string; DBranch : string; Ids : list string }.
Record ForkRequest := MkFork { FNamespace : string; SourceBranch : string; TargetBranch : string }.

Definition NewIngestServer {A} (ingesters : option A) : res A :=
  match ingesters with None => Err (Msg "grpcapi: nil ingesters") | Some m => Ok m end.

Definition resolveNamespace (raw : string) : rpc string :=
  let ns := if decide (raw <> "") then raw else DefaultNamespace in
  match ValidateName ns with Err _ => Status CodeInvalidArgument | Ok _ => Done ns end.

Definition resolveBranch (rawBranch : string) : rpc string :=
  let branch := if decide (rawBranch <> "") then rawBranch else DefaultBranch in
  match ValidateName branch with Err _ => Status CodeInvalidArgument | Ok _ => Done branch end.

(** What a handler does: it answers without a call, or calls a method of the
    ingester with the reference [ing] and answers according to the result. *)
Inductive act (A : Type) :=
  | Answer (x : rpc A)
  | Invoke (ing : nat) (method : Ingester -> prog (res unit * Ingester)) (answer : res unit -> rpc A).
Arguments Answer {A} x.
Arguments Invoke {A} ing method answer.

Definition then_ {A B} (r : rpc A) (f : A -> act B) : act B :=
  match r with Status c => Answer (Status c) | Done a => f a end.

(** The loops over the records and the ids: the first bad one. *)
Fixpoint check_records (records : list (option DocRecord)) : rpc (list DocRecord) :=
  match records with
  | [] => Done []
  | None :: _ => Status CodeInvalidArgument
  | Some rec :: records =>
    if decide (Id rec = "") then Status CodeInvalidArgument else
    match check_records records with Done l => Done (rec :: l) | Status c => Status c end
  end.
Fixpoint check_ids (ids : list string) : rpc unit :=
  match ids with
  | [] => Done tt
  | id :: ids => if decide (id = "") then Status CodeInvalidArgument else check_ids ids
  end.

Definition write_status (e : error) : code :=
  if errors_Is e Canceled then CodeCanceled
  else if errors_Is e DeadlineExceeded then CodeDeadlineExceeded
  else CodeInternal.

Definition fork_status (e : error) : code :=
  if errors_Is e Canceled then CodeCanceled
  else if errors_Is e DeadlineExceeded then CodeDeadlineExceeded
  else if errors_Is e ErrNotFound then CodeNotFound
  else if errors_Is e ErrBranchAlreadyExists then CodeAlreadyExists
  else CodeInternal.

Section Ingest.
Context `{Codec TenantCatalog, Codec BranchCatalog, Codec BranchManifest, Codec WalRecord, Codec DocRecord}.

(** The response for the result of the ingester's method. *)
Definition reply {A} (status : error -> code) (ok : A) (r : res unit) : rpc A :=
  match r with Ok _ => Done ok | Err e => Status (status e) end.

(** [s] is the server's map of ingesters. *)
Definition Upsert (fuel : nat) (s : gmap string nat) (tenant : string) (req : option UpsertRequest) (now : Z) : act Z :=
  match req with
  | None => Answer (Status CodeInvalidArgument)
  | Some req =>
    match s !! tenant with
    | None => Answer (Status CodeNotFound)
    | Some ing =>
      then_ (resolveNamespace (UNamespace req)) (fun ns =>
      then_ (resolveBranch (UBranch req)) (fun branch =>
      if decide (Records req = []) then Answer (Done 0) else
      then_ (check_records (Records req)) (fun records =>
      Invoke ing (fun i => Ingester.Upsert fuel i ns branch records now)
        (reply write_status (u32 (Z.of_nat (length (Records req))))))))
    end
  end.

Definition Delete (fuel : nat) (s : gmap string nat) (tenant : string) (req : option DeleteRequest) (now : Z) : act Z :=
  match req with
  | None => Answer (Status CodeInvalidArgument)
  | Some req =>
    match s !! tenant with
    | None => Answer (Status CodeNotFound)
    | Some ing =>
      then_ (resolveNamespace (DNamespace req)) (fun ns =>
      then_ (resolveBranch (DBranch req)) (fun branch =>
      if decide (Ids req = []) then Answer (Done 0) else
      then_ (check_ids (Ids req)) (fun _ =>
      Invoke ing (fun i => Ingester.Delete fuel i ns branch (Ids req) now)
        (reply write_status (u32 (Z.of_nat (length (Ids req))))))))
    end
  end.

Definition Fork (fuel : nat) (s : gmap string nat) (tenant : string) (req : option ForkRequest) (now : Z) : act unit :=
  match req with
  | None => Answer (Status CodeInvalidArgument)
  | Some req =>
    match s !! tenant with
    | None => Answer (Status CodeNotFound)
    | Some ing =>
      then_ (resolveNamespace (FNamespace req)) (fun ns =>
      if decide (TargetBranch req = "") then Answer (Status CodeInvalidArgument) else
      match ValidateName (TargetBranch req) with
      | Err _ => Answer (Status CodeInvalidArgument)
      | Ok _ =>
        then_ (resolveBranch (SourceBranch req)) (fun srcBranch =>
        if decide (srcBranch = TargetBranch req) then Answer (Status CodeInvalidArgument) else
        Invoke ing (fun i => Ingester.Fork fuel i ns srcBranch (TargetBranch req) now) (reply fork_status tt))
      end)
    end
  end.

End Ingest.

(** ** query.go *)
Record QueryRequest := MkQuery {
  QNamespace : string;
  QBranch : string;
  QColumn : string;
  QVector : list float32;
  QTopK : Z;  (* uint32 *)
  QFilter : option EqualityFilter;
}.

Definition NewQueryServer {A} (engines : option A) : res A :=
  match engines with None => Err (Msg "grpcapi: nil engines") | Some m => Ok m end.

Definition query_status (e : error) : code :=
  if errors_Is e ErrDimensionMismatch then CodeInvalidArgument
  else if errors_Is e ErrZeroVector then CodeInvalidArgument
  else CodeInternal.

Definition Query (ctx trailer : option error) (engines : gmap string Engine) (tenant : string)
    (req : option QueryRequest) : rpc (list ScoredRecord) :=
  match req with
  | None => Status CodeInvalidArgument
  | Some req =>
    match ValidateName (QNamespace req) with
    | Err _ => Status CodeInvalidArgument
    | Ok _ =>
      match engines !! tenant with
      | None => Status CodeNotFound
      | Some eng =>
        match resolveBranch (QBranch req) with
        | Status c => Status c
        | Done branch =>
          if decide (QVector req = []) then Status CodeInvalidArgument else
          if decide (QTopK req = 0) then Status CodeInvalidArgument else
          match Engine.Query ctx eng (MkRequest (QNamespace req) branch (QColumn req) (QVector req) (QTopK req) (QFilter req)) with
          | Err e => Status (query_status e)
          | Ok hits => match trailer with Some _ => Status CodeInternal | None => Done hits end
          end
        end
      end
    end
  end.

(** ** A deployment: the stores, the ingesters and the server's map *)

(** An ingester: the store it writes to, its fields and the counters of its
    logs. *)
Record ingester_obj := MkObj { ostore : nat; ostate : Ingester; ocells : gmap nat Z }.

Section Deployment.
Context {S : Type} `{Store S}.
Context `{Codec TenantCatalog, Codec BranchCatalog, Codec BranchManifest, Codec WalRecord, Codec DocRecord}.

Record deployment := MkDeployment {
  stores : gmap nat S;
  objects : gmap nat ingester_obj;
  ingesters : gmap string nat;
}.

Inductive request :=
  | RUpsert (req : option UpsertRequest)
  | RDelete (req : option DeleteRequest)
  | RFork (req : option ForkRequest).

Definition rpc_map {A B} (f : A -> B) (x : rpc A) : rpc B :=
  match x with Done a => Done (f a) | Status c => Status c end.
Definition act_map {A B} (f : A -> B) (a : act A) : act B :=
  match a with
  | Answer x => Answer (rpc_map f x)
  | Invoke ing method answer => Invoke ing method (fun r => rpc_map f (answer r))
  end.

(** The handler of a request; the count is 0 for a fork. *)
Definition handle (fuel : nat) (s : gmap string nat) (tenant : string) (r : request) (now : Z) : act Z :=
  match r with
  | RUpsert req => Upsert fuel s tenant req now
  | RDelete req => Delete fuel s tenant req now
  | RFork req => act_map (fun _ => 0) (Fork fuel s tenant req now)
  end.

(** The method runs on the object's store and leaves the object changed.
    (References and stores exist: [separate]; the last case is not reached.) *)
Definition run_act {A} (a : act A) (d : deployment) : rpc A * deployment :=
  match a with
  | Answer x => (x, d)
  | Invoke ing method answer =>
    match objects d !! ing with
    | Some o =>
      match stores d !! ostore o with
      | Some st =>
        let '((r, i), w) := run (method (ostate o)) (MkWorld st (ocells o)) in
        (answer r, MkDeployment (<[ostore o := store w]> (stores d))
                                (<[ing := MkObj (ostore o) i (cells w)]> (objects d)) (ingesters d))
      | None => (Status CodeInternal, d)
      end
    | None => (Status CodeInternal, d)
    end
  end.

(** A request with its tenant headers, at its time. *)
Record arrival := MkArrival { headers : list string; what : request; now : Z }.

Definition serve (fuel : nat) (a : arrival) (d : deployment) : rpc Z * deployment :=
  match TenantInterceptor (headers a) (fun tenant =>
    run_act (handle fuel (ingesters d) tenant (what a) (now a)) d) with
  | Status c => (Status c, d)
  | Done x => x
  end.

(** Requests served one after the other. *)
Fixpoint serve_all (fuel : nat) (l : list arrival) (d : deployment) : list (rpc Z) * deployment :=
  match l with
  | [] => ([], d)
  | a :: l => let '(x, d) := serve fuel a d in
              let '(xs, d) := serve_all fuel l d in (x :: xs, d)
  end.

(** Every tenant has an ingester on a store, and no two have the same
    ingester or the same store. *)
Definition separate (d : deployment) : Prop :=
  (forall t i, ingesters d !! t = Some i ->
     exists o, objects d !! i = Some o /\ is_Some (stores d !! ostore o)) /\
  (forall t t' i i' o o', ingesters d !! t = Some i -> ingesters d !! t' = Some i' -> t <> t' ->
     objects d !! i = Some o -> objects d !! i' = Some o' -> i <> i' /\ ostore o <> ostore o').

(** What there is of a tenant: its ingester and the contents of its store. *)
Definition tenant_view (d : deployment) (t : string) : option (ingester_obj * S) :=
  i ← ingesters d !! t; o ← objects d !! i; st ← stores d !! ostore o; Some (o, st).

(** ** What reaches an ingester *)

(** The write a request stands for, once it is checked. *)
Inductive write :=
  | WUpsert (ns branch : string) (records : list DocRecord)
  | WDelete (ns branch : string) (ids : list string)
  | WFork (ns source target : string).

Definition write_ok (x : write) : Prop :=
  match x with
  | WUpsert ns branch records =>
    valid_name ns /\ valid_name branch /\ records <> [] /\ Forall (fun rec => Id rec <> "") records
  | WDelete ns branch ids => valid_name ns /\ valid_name branch /\ ids <> [] /\ Forall (fun id => id <> "") ids
  | WFork ns source target => valid_name ns /\ valid_name source /\ valid_name target /\ source <> target
  end.

Definition write_prog (fuel : nat) (ing : Ingester) (x : write) (now : Z) : prog (res unit * Ingester) :=
  match x with
  | WUpsert ns branch records => Ingester.Upsert fuel ing ns branch records now
  | WDelete ns branch ids => Ingester.Delete fuel ing ns branch ids now
  | WFork ns source target => Ingester.Fork fuel ing ns source target now
  end.

(** The answer to the outcome of a write. *)
Definition write_reply (x : write) (r : res unit) : rpc Z :=
  match r with
  | Ok _ => Done (match x with
                  | WUpsert _ _ records => u32 (Z.of_nat (length records))
                  | WDelete _ _ ids => u32 (Z.of_nat (length ids))
                  | WFork _ _ _ => 0
                  end)
  | Err e => Status (match x with WFork _ _ _ => fork_status e | _ => write_status e end)
  end.

Lemma resolveNamespace_ok raw ns : resolveNamespace raw = Done ns -> valid_name ns.
Proof. unfold resolveNamespace. destruct (ValidateName _) as [[]|] eqn:E; [|done]. by intros [= <-]. Qed.

Lemma resolveBranch_ok raw b : resolveBranch raw = Done b -> valid_name b.
Proof. unfold resolveBranch. destruct (ValidateName _) as [[]|] eqn:E; [|done]. by intros [= <-]. Qed.

Lemma check_records_ok records l : check_records records = Done l ->
  records = Some <$> l /\ Forall (fun rec => Id rec <> "") l.
Proof.
  revert l. induction records as [|[rec|] records IH]; intros l; cbn; [by intros [= <-]| |done].
  case_decide; [done|]. destruct (check_records records) as [l'|]; [|done]. intros [= <-].
  destruct (IH l' eq_refl) as [-> ?]. by repeat constructor.
Qed.

Lemma check_ids_ok ids : check_ids ids = Done tt -> Forall (fun id => id <> "") ids.
Proof. induction ids as [|id ids IH]; cbn; [done|]. case_decide; [done|]. intros E. by constructor; [|apply IH]. Qed.

(** A handler refuses, or has nothing to do, or performs one checked write. *)
Definition handled (fuel : nat) (s : gmap string nat) (tenant : string) (now : Z) (a : act Z) : Prop :=
  (exists c, (s !! tenant = None /\ c = CodeNotFound \/ c = CodeInvalidArgument) /\ a = Answer (Status c)) \/
  a = Answer (Done 0) \/
  exists i x answer, s !! tenant = Some i /\ write_ok x /\
    a = Invoke i (fun ing => write_prog fuel ing x now) answer /\ forall o, answer o = write_reply x o.

Lemma handled_bad fuel s tenant now : handled fuel s tenant now (Answer (Status CodeInvalidArgument)).
Proof. left. eexists. split; [by right|done]. Qed.

Lemma handled_unknown fuel s tenant now : s !! tenant = None -> handled fuel s tenant now (Answer (Status CodeNotFound)).
Proof. left. eexists. split; [by left|done]. Qed.

Lemma resolveNamespace_bad raw c : resolveNamespace raw = Status c -> c = CodeInvalidArgument.
Proof. unfold resolveNamespace. destruct (ValidateName _); [done|]. by intros [= <-]. Qed.
Lemma resolveBranch_bad raw c : resolveBranch raw = Status c -> c = CodeInvalidArgument.
Proof. unfold resolveBranch. destruct (ValidateName _); [done|]. by intros [= <-]. Qed.
Lemma check_records_bad records c : check_records records = Status c -> c = CodeInvalidArgument.
Proof.
  induction records as [|[rec|] records IH]; cbn; [done| |by intros [= <-]]. case_decide; [by intros [= <-]|].
  destruct (check_records records); [done|]. intros [= <-]. auto.
Qed.
Lemma check_ids_bad ids c : check_ids ids = Status c -> c = CodeInvalidArgument.
Proof. induction ids; cbn; [done|]. case_decide; [by intros [= <-]|done]. Qed.

(** The checks one after the other. *)
Ltac rpc_check E :=
  match goal with
  | |- context [then_ ?r _] =>
    destruct r eqn:E; cbn [then_];
    [|first [apply resolveNamespace_bad in E|apply resolveBranch_bad in E
            |apply check_records_bad in E|apply check_ids_bad in E]; subst; apply handled_bad]
  end.

Lemma handle_upsert fuel s tenant req now : handled fuel s tenant now (Upsert fuel s tenant req now).
Proof.
  unfold Upsert. destruct req as [req|]; [|apply handled_bad].
  destruct (s !! tenant) as [ing|] eqn:Es; [|by apply handled_unknown].
  rpc_check E1. rpc_check E2. case_decide as Hne; [by right; left|]. rpc_check E3.
  apply resolveNamespace_ok in E1. apply resolveBranch_ok in E2. apply check_records_ok in E3 as [Er E3].
  right. right. eexists ing, (WUpsert _ _ _), _. split; [done|]. split; [|split; [reflexivity|]].
  - split_and!; [done|done| |done]. intros ->. by rewrite Er in Hne.
  - intros [[]|e]; cbn; [|done]. by rewrite Er, length_fmap.
Qed.

Lemma handle_delete fuel s tenant req now : handled fuel s tenant now (Delete fuel s tenant req now).
Proof.
  unfold Delete. destruct req as [req|]; [|apply handled_bad].
  destruct (s !! tenant) as [ing|] eqn:Es; [|by apply handled_unknown].
  rpc_check E1. rpc_check E2. case_decide as Hne; [by right; left|]. rpc_check E3.
  match type of E3 with _ = Done ?u => destruct u end.
  apply resolveNamespace_ok in E1. apply resolveBranch_ok in E2. apply check_ids_ok in E3.
  right. right. eexists ing, (WDelete _ _ _), _. split; [done|]. split; [|split; [reflexivity|by intros [[]|e]]]. done.
Qed.

Lemma handle_fork fuel s tenant req now : handled fuel s tenant now (handle fuel s tenant (RFork req) now).
Proof.
  cbn [handle]. unfold Fork. destruct req as [req|]; [|apply handled_bad].
  destruct (s !! tenant) as [ing|] eqn:Es; [|by apply handled_unknown].
  rpc_check E1. case_decide; [apply handled_bad|].
  destruct (ValidateName (TargetBranch req)) as [[]|] eqn:E2; [|apply handled_bad]. rpc_check E3.
  case_decide as Hne; [apply handled_bad|]. apply resolveNamespace_ok in E1. apply resolveBranch_ok in E3.
  right. right. eexists ing, (WFork _ _ _), _. split; [done|]. split; [|split; [reflexivity|by intros [[]|e]]]. done.
Qed.

Lemma handle_handled fuel s tenant r now : handled fuel s tenant now (handle fuel s tenant r now).
Proof. destruct r; [apply handle_upsert|apply handle_delete|apply handle_fork]. Qed.

End Deployment.

Arguments deployment : clear implicits.
Arguments MkDeployment {S} stores objects ingesters.

Lemma TenantInterceptor_ok {A} vals (h : string -> A) : 
  (exists tenant, vals = [tenant] /\ valid_name tenant /\ TenantInterceptor vals h = Done (h tenant)) \/
  exists c, (c = CodeUnauthenticated \/ c = CodeInvalidArgument) /\ TenantInterceptor vals h = Status c.
Proof.
  destruct vals as [|tenant more]; cbn; [by eauto|]. case_decide; [by eauto|].
  case_decide as Hm; [by eauto|]. subst more.
  destruct (ValidateName tenant) as [[]|] eqn:E; [|by eauto]. left. by exists tenant.
Qed.

Lemma write_reply_status x o c : write_reply x o = Status c -> c <> CodeUnauthenticated /\ c <> CodeInvalidArgument.
Proof.
  destruct o as [u|e]; [done|]. cbn. destruct x; intros [= <-]; unfold write_status, fork_status;
    repeat case_match; done.
Qed.

(** ** Tenants *)
Section Tenants.
Context {S : Type} `{Store S}.
Context `{Codec TenantCatalog, Codec BranchCatalog, Codec BranchManifest, Codec WalRecord, Codec DocRecord}.

(** The effect of a method on the object with reference [i]. *)
Definition updated (d : deployment S) (i : nat) (o : ingester_obj) (ing : Ingester) (w : world S) : deployment S :=
  MkDeployment (<[ostore o := store w]> (stores d)) (<[i := MkObj (ostore o) ing (cells w)]> (objects d)) (ingesters d).

(** A request is refused, asks for nothing, or is one checked write of the
    ingester that the server's map has for the tenant of the header. *)
Lemma serve_cases fuel a (d : deployment S) :
  (exists c, serve fuel a d = (Status c, d)) \/ serve fuel a d = (Done 0, d) \/
  exists t i o st y out ing w, headers a = [t] /\ valid_name t /\ ingesters d !! t = Some i /\
    objects d !! i = Some o /\ stores d !! ostore o = Some st /\ write_ok y /\
    run (write_prog fuel (ostate o) y (now a)) (MkWorld st (ocells o)) = ((out, ing), w) /\
    serve fuel a d = (write_reply y out, updated d i o ing w).
Proof.
  unfold serve. set (h := fun tenant : string => run_act _ _).
  destruct (TenantInterceptor_ok (headers a) h) as [(t & -> & Hv & ->)|(c & Hc & ->)]; [|by left; exists c].
  unfold h. pose proof (handle_handled fuel (ingesters d) t (what a) (now a)) as Hh.
  destruct Hh as [(c & _ & ->)|[-> |(i & y & answer & Hi & Hy & -> & Ha)]]; [by left; exists c|by right; left|].
  cbn [run_act]. destruct (objects d !! i) as [o|] eqn:Ho; [|by left; eexists].
  destruct (stores d !! ostore o) as [st|] eqn:Hst; [|by left; eexists]. right. right.
  destruct (run _ _) as [[out ing] w] eqn:Er. rewrite Ha. exists t, i, o, st, y, out, ing, w. done.
Qed.

Lemma updated_separate (d : deployment S) t i o ing w : separate d -> ingesters d !! t = Some i ->
  objects d !! i = Some o -> separate (updated d i o ing w).
Proof.
  intros [Hex Hsep] Hi Ho.
  assert (forall j o2, objects (updated d i o ing w) !! j = Some o2 ->
    exists o1, objects d !! j = Some o1 /\ ostore o1 = ostore o2) as Hob.
  { intros j o2. cbn. rewrite lookup_insert_Some. intros [[<- <-]|[_ ?]]; eauto. }
  split; cbn [updated ingesters].
  - intros t1 j Hj. destruct (Hex t1 j Hj) as (o1 & Hk1 & Hk2). cbn. destruct (decide (i = j)) as [<-|Hne].
    + exists (MkObj (ostore o) ing (cells w)). split; [by rewrite lookup_insert_eq|]. cbn. rewrite lookup_insert_eq. eauto.
    + exists o1. split; [by rewrite lookup_insert_ne|]. rewrite lookup_insert_is_Some'. by right.
  - intros t1 t2 j j' o1 o2 Hj Hj' Hne (p1 & Hk1 & <-)%Hob (p2 & Hk2 & <-)%Hob. by eapply Hsep.
Qed.

(** A write is the tenant's own affair. *)
Lemma updated_other (d : deployment S) t i o ing w t' : separate d -> ingesters d !! t = Some i ->
  objects d !! i = Some o -> t' <> t -> tenant_view (updated d i o ing w) t' = tenant_view d t'.
Proof.
  intros [Hex Hsep] Hi Ho Hne. unfold tenant_view. cbn [updated ingesters].
  destruct (ingesters d !! t') as [j|] eqn:Ej; [|done]. cbn. destruct (Hex t' j Ej) as (o' & Ho' & _).
  destruct (Hsep t' t j i o' o Ej Hi Hne Ho' Ho) as [Hk1 Hk2]. rewrite lookup_insert_ne, Ho' by done. cbn.
  by rewrite lookup_insert_ne.
Qed.

Lemma updated_own (d : deployment S) t i o ing w : ingesters d !! t = Some i ->
  tenant_view (updated d i o ing w) t = Some (MkObj (ostore o) ing (cells w), store w).
Proof. intros Hi. unfold tenant_view. cbn. rewrite Hi. cbn. rewrite lookup_insert_eq. cbn. by rewrite lookup_insert_eq. Qed.

Lemma serve_separate fuel a (d : deployment S) : separate d ->
  separate (serve fuel a d).2 /\ ingesters (serve fuel a d).2 = ingesters d.
Proof.
  intros Hd. destruct (serve_cases fuel a d) as [(c & ->)|[-> |(t & i & o & st & y & out & ing & w & _ & _ & Hi & Ho & _ & _ & _ & ->)]];
    [done..|]. split; [by eapply updated_separate|done].
Qed.

Lemma serve_other fuel a (d : deployment S) t : separate d -> headers a <> [t] ->
  tenant_view (serve fuel a d).2 t = tenant_view d t.
Proof.
  intros Hd Hne. destruct (serve_cases fuel a d) as [(c & ->)|[-> |(t' & i & o & st & y & out & ing & w & Hh & _ & Hi & Ho & _ & _ & _ & ->)]];
    [done..|]. cbn [snd]. apply (updated_other d t'); [done..|]. intros ->. done.
Qed.

(** A tenant's request is answered from what there is of the tenant. *)
Lemma serve_own fuel a (d e : deployment S) t : separate d -> ingesters d = ingesters e ->
  tenant_view d t = tenant_view e t -> headers a = [t] ->
  (serve fuel a d).1 = (serve fuel a e).1 /\ tenant_view (serve fuel a d).2 t = tenant_view (serve fuel a e).2 t.
Proof.
  intros [Hex _] Hm Hv Ht. unfold serve. rewrite Ht, Hm.
  set (h := fun tenant : string => run_act _ d). set (h' := fun tenant : string => run_act _ e).
  assert ((h t).1 = (h' t).1 /\ tenant_view (h t).2 t = tenant_view (h' t).2 t) as Hh.
  { unfold h, h'. destruct (handle_handled fuel (ingesters e) t (what a) (now a))
      as [(c & _ & ->)|[-> |(i & y & answer & Hi & Hy & -> & Ha)]]; [done..|].
    destruct (Hex t i) as (o & Ho & st & Hst); [by rewrite Hm|]. unfold tenant_view in Hv. rewrite Hm, Hi in Hv. cbn in Hv.
    rewrite Ho in Hv. cbn in Hv. rewrite Hst in Hv. cbn in Hv.
    destruct (objects e !! i) as [o'|] eqn:Ho'; cbn in Hv; [|done].
    destruct (stores e !! ostore o') as [st'|] eqn:Hst'; cbn in Hv; [|done]. injection Hv as <- <-.
    cbn [run_act]. rewrite Ho, Ho', Hst, Hst'. destruct (run _ _) as [[out ing] w]. split; [done|]. cbn [snd].
    fold (updated d i o ing w). fold (updated e i o ing w).
    rewrite !(updated_own _ t) by (done || by rewrite Hm). done. }
  unfold TenantInterceptor. case_decide; [done|]. case_decide; [done|]. by destruct (ValidateName t).
Qed.

(** The requests of a tenant among those of all, and without them. *)
Lemma serve_all_own fuel l (d e : deployment S) t : separate d -> separate e -> ingesters d = ingesters e ->
  tenant_view d t = tenant_view e t ->
  let own := filter (fun a => headers a = [t]) l in
  (filter (fun ax => headers ax.1 = [t]) (zip l (serve_all fuel l d).1)).*2 = (serve_all fuel own e).1 /\
  tenant_view (serve_all fuel l d).2 t = tenant_view (serve_all fuel own e).2 t.
Proof.
  revert d e. induction l as [|a l IH]; intros d e Hd He Hm Hv; [done|]. cbn [serve_all].
  pose proof (serve_separate fuel a d Hd) as [Hd1 Hi1]. rewrite filter_cons. destruct (decide (headers a = [t])) as [Ha|Ha].
  - destruct (serve_own fuel a d e t Hd Hm Hv Ha) as [Hx Hv1]. pose proof (serve_separate fuel a e He) as [He1 Hj1].
    cbn [serve_all]. destruct (serve fuel a d) as [x d1], (serve fuel a e) as [y e1]. cbn [fst snd] in *. subst y.
    destruct (IH d1 e1) as [Hk1 Hk2]; [done|done|congruence|done|].
    destruct (serve_all fuel l d1) as [xs d2], (serve_all fuel _ e1) as [ys e2]. cbn [fst snd] in *.
    cbn [zip zip_with]. rewrite filter_cons, decide_True by done. cbn. split; [by f_equal|done].
  - pose proof (serve_other fuel a d t Hd Ha) as Ho. destruct (serve fuel a d) as [x d1]. cbn [fst snd] in *.
    destruct (IH d1 e) as [Hk1 Hk2]; [done|done|congruence|congruence|].
    destruct (serve_all fuel l d1) as [xs d2]. cbn [fst snd] in *.
    cbn [zip zip_with]. rewrite filter_cons, decide_False by done. done.
Qed.
End Tenants.

(** ** Claims *)

(** C21. Tenants are isolated: where no two tenants have the same ingester or
    the same store, any sequence of upserts, deletes and forks of any
    tenants, well formed or not, leaves the ingester and the store of a tenant
    exactly as that tenant's requests would alone, and answers these exactly
    as they would be answered alone; and a request that is answered
    Unauthenticated or InvalidArgument has changed nothing at all. *)
Theorem requests_isolated {S} `{Store S}
    `{Codec TenantCatalog, Codec BranchCatalog, Codec BranchManifest, Codec WalRecord, Codec DocRecord}
    fuel l (d : deployment S) xs d' t ys e :
  separate d -> serve_all fuel l d = (xs, d') ->
  serve_all fuel (filter (fun a => headers a = [t]) l) d = (ys, e) ->
  tenant_view d' t = tenant_view e t /\
  (filter (fun ax => headers ax.1 = [t]) (zip l xs)).*2 = ys /\
  forall a x d2, serve fuel a d' = (x, d2) -> x = Status CodeUnauthenticated \/ x = Status CodeInvalidArgument -> d2 = d'.
Proof.
  intros Hd E1 E2. destruct (serve_all_own fuel l d d t Hd Hd eq_refl eq_refl) as [Hx Hv].
  rewrite E1, E2 in *. cbn [fst snd] in *. split; [done|]. split; [done|].
  intros a x d2 E Hs. destruct (serve_cases fuel a d') as [(c & Ec)|[Ec|(t' & i & o & st & y & out & ing & w & _ & _ & _ & _ & _ & _ & _ & Ec)]];
    rewrite E in Ec; injection Ec as -> ->; [done..|].
  exfalso. destruct Hs as [Hs|Hs]; apply write_reply_status in Hs; naive_solver.
Qed.

(** C22. Only checked writes reach an ingester: whenever a request changes
    anything, its header named exactly one valid tenant that is served, and
    what ran was one upsert, delete or fork of the ingester that the server's
    map has for that tenant, with a valid namespace (empty means "default"),
    valid branch names (empty means "main"), at least one record or id and
    none with an empty id, and for a fork two different branches; the answer
    is the count (modulo 2^32) or the code of the ingester's error; and
    nothing but that ingester and its store has changed. *)
Theorem requests_checked {S} `{Store S}
    `{Codec TenantCatalog, Codec BranchCatalog, Codec BranchManifest, Codec WalRecord, Codec DocRecord}
    fuel a (d : deployment S) x d' :
  serve fuel a d = (x, d') -> d' <> d ->
  exists tenant i obj st y o ing w, headers a = [tenant] /\ valid_name tenant /\ ingesters d !! tenant = Some i /\
    objects d !! i = Some obj /\ stores d !! ostore obj = Some st /\ write_ok y /\
    run (write_prog fuel (ostate obj) y (now a)) (MkWorld st (ocells obj)) = ((o, ing), w) /\
    x = write_reply y o /\
    d' = MkDeployment (<[ostore obj := store w]> (stores d)) (<[i := MkObj (ostore obj) ing (cells w)]> (objects d)) (ingesters d).
Proof.
  intros E Hne. destruct (serve_cases fuel a d) as [(c & Ec)|[Ec|(t & i & o & st & y & out & ing & w & Hx)]].
  1-2: rewrite E in Ec; injection Ec as _ ->; done.
  exists t, i, o, st, y, out, ing, w. destruct Hx as (? & ? & ? & ? & ? & ? & ? & Ec). rewrite E in Ec.
  injection Ec as -> ->. done.
Qed.

Lemma Search_errors kernels t col query topK filter e :
  Search kernels t col query topK COSINE filter = Err e -> e = ErrDimensionMismatch \/ e = ErrZeroVector.
Proof.
  unfold Search. case_decide; [done|]. destruct (vectors t !! col); [|done]. case_decide; [done|].
  case_decide; [intros [= <-]; auto|]. cbn [metric_setup]. destruct (feq _ _); cbn; [intros [= <-]; auto|].
  by destruct (filter_column _ _).
Qed.

(** What the engine is asked: the request, with the default branch filled in. *)
Definition query_of (r : QueryRequest) : Engine.Request :=
  MkRequest (QNamespace r) (if decide (QBranch r = "") then DefaultBranch else QBranch r)
    (QColumn r) (QVector r) (QTopK r) (QFilter r).

(** The engine of the tenant gets the request. *)
Definition handed_over (engines : gmap string Engine) (tenant : string) (req : option QueryRequest)
    (r : QueryRequest) (eng : Engine) : Prop :=
  req = Some r /\ engines !! tenant = Some eng /\ valid_name (QNamespace r) /\ valid_name (ReqBranch (query_of r)) /\
  QVector r <> [] /\ QTopK r <> 0.

Lemma resolveBranch_of r : resolveBranch (QBranch r) =
  match ValidateName (ReqBranch (query_of r)) with Err _ => Status CodeInvalidArgument | Ok _ => Done (ReqBranch (query_of r)) end.
Proof. unfold resolveBranch, query_of. cbn. repeat case_decide; by subst. Qed.

(** Where [Query] stops, in the order of its checks. *)
Lemma Query_cases ctx trailer engines tenant req :
  let x := Query ctx trailer engines tenant req in
  req = None /\ x = Status CodeInvalidArgument \/
  exists r, req = Some r /\
    (~ valid_name (QNamespace r) /\ x = Status CodeInvalidArgument \/
     valid_name (QNamespace r) /\ engines !! tenant = None /\ x = Status CodeNotFound \/
     exists eng, engines !! tenant = Some eng /\ valid_name (QNamespace r) /\
       ((~ valid_name (ReqBranch (query_of r)) \/ QVector r = [] \/ QTopK r = 0) /\ x = Status CodeInvalidArgument \/
        handed_over engines tenant req r eng /\
        x = match Engine.Query ctx eng (query_of r) with
            | Err e => Status (query_status e)
            | Ok hits => match trailer with Some _ => Status CodeInternal | None => Done hits end
            end)).
Proof.
  unfold Query. destruct req as [r|]; [right; exists r; split; [done|]|by left].
  destruct (ValidateName (QNamespace r)) as [[]|] eqn:Ev; [right|left; split; [|done]; unfold valid_name; by rewrite Ev].
  destruct (engines !! tenant) as [eng|] eqn:Ee; [right; exists eng|by left].
  split; [done|]. split; [done|]. rewrite resolveBranch_of.
  destruct (ValidateName (ReqBranch (query_of r))) as [[]|] eqn:Eb.
  2: { left. split; [|done]. left. unfold valid_name. by rewrite Eb. }
  case_decide; [left; by auto|]. case_decide; [left; by auto|]. right. done.
Qed.

Lemma Engine_Query_errors ctx eng q e : Engine.Query ctx eng q = Err e ->
  ctx = Some e \/ ctx = None /\ (e = ErrDimensionMismatch \/ e = ErrZeroVector).
Proof.
  unfold Engine.Query. destruct ctx as [e'|]; [intros [= <-]; by left|]. destruct (loaders eng !! _); [|done].
  intros E. right. split; [done|]. by eapply Search_errors.
Qed.

(** C36. The answer of [Query] in every case, under a context that is alive,
    cancelled or past its deadline, and whether or not the trailer can be set.
    NotFound: exactly a request for a valid namespace (there is no default
    here) and an unknown tenant.  InvalidArgument: exactly the nil request,
    one with an invalid namespace, and for a known tenant one with an invalid
    branch, an empty vector or a TopK of 0, or that a live engine refuses,
    which is for a vector of another dimension than the column's or of norm 0.
    Hits: exactly when the engine gets the request, answers these hits and the
    trailer can be set.  Internal: exactly when the engine gets the request
    and the context is dead, or it answers and the trailer cannot be set.
    There is no other answer. *)
Theorem query_statuses ctx trailer engines tenant req :
  ctx = None \/ ctx = Some Canceled \/ ctx = Some DeadlineExceeded ->
  let x := Query ctx trailer engines tenant req in
  (x = Status CodeNotFound <-> exists r, req = Some r /\ valid_name (QNamespace r) /\ engines !! tenant = None) /\
  (x = Status CodeInvalidArgument <->
     req = None \/ exists r, req = Some r /\
       (~ valid_name (QNamespace r) \/ exists eng, engines !! tenant = Some eng /\
         (~ valid_name (ReqBranch (query_of r)) \/ QVector r = [] \/ QTopK r = 0 \/
          ctx = None /\ (Engine.Query None eng (query_of r) = Err ErrDimensionMismatch \/
                         Engine.Query None eng (query_of r) = Err ErrZeroVector)))) /\
  (forall hits, x = Done hits <-> trailer = None /\
     exists r eng, handed_over engines tenant req r eng /\ Engine.Query ctx eng (query_of r) = Ok hits) /\
  (x = Status CodeInternal <->
     exists r eng, handed_over engines tenant req r eng /\
       (ctx <> None \/ trailer <> None /\ exists hits, Engine.Query ctx eng (query_of r) = Ok hits)) /\
  (forall c, x = Status c -> c = CodeNotFound \/ c = CodeInvalidArgument \/ c = CodeInternal).
Proof.
  intros Hctx x. unfold x. destruct (Query_cases ctx trailer engines tenant req)
    as [[-> ->]|(r & -> & [[Hn ->]|[(Hn & He & ->)|(eng & He & Hn & [[Hb ->]|[Hh ->]])]])].
  1-4: unfold handed_over; naive_solver.
  assert (forall P, (exists r' eng', handed_over engines tenant (Some r) r' eng' /\ P r' eng') <-> P r eng) as Hone.
  { intros P. split; [|by exists r, eng]. by intros (r' & eng' & ([= <-] & [= <-]%(eq_trans (eq_sym He)) & _) & HP). }
  rewrite (Hone (fun r eng => ctx <> None \/ trailer <> None /\ exists hits, Engine.Query ctx eng (query_of r) = Ok hits)).
  setoid_rewrite Hone. pose proof Hh as (_ & _ & _ & Hb & Hv & Hk).
  assert (~ exists r', Some r = Some r' /\ valid_name (QNamespace r') /\ engines !! tenant = None) as Hnf by naive_solver.
  match goal with |- context [_ <-> (Some r = None \/ ?R)] =>
    assert (R <-> ctx = None /\ (Engine.Query None eng (query_of r) = Err ErrDimensionMismatch \/
                                 Engine.Query None eng (query_of r) = Err ErrZeroVector)) as Hia end.
  { split; [|by intros Hx; exists r; split; [done|]; right; exists eng; auto].
    by intros (r' & [= <-] & [?|(eng' & [= <-]%(eq_trans (eq_sym He)) & [?|[?|[?|?]]])]). }
  rewrite Hia. clear Hia Hone.
  destruct (Engine.Query ctx eng (query_of r)) as [hits|e] eqn:Eq.
  - destruct ctx; [done|]. rewrite Eq. destruct trailer; naive_solver.
  - apply Engine_Query_errors in Eq as Ec. destruct Ec as [-> |(-> & Ec)].
    + assert (query_status e = CodeInternal) as -> by (destruct Hctx as [|[[= ->]|[= ->]]]; done).
      naive_solver.
    + rewrite Eq. clear Eq. destruct Ec as [-> | ->]; cbn; naive_solver.
Qed.

(** A query whose context is cancelled is answered Internal, where the
    ingest service answers Canceled. *)
Theorem query_cancelled engines tenant r eng branch :
  valid_name (QNamespace r) -> engines !! tenant = Some eng -> resolveBranch (QBranch r) = Done branch ->
  QVector r <> [] -> QTopK r <> 0 ->
  Query (Some Canceled) None engines tenant (Some r) = Status CodeInternal /\ write_status Canceled = CodeCanceled.
Proof.
  intros Hv Hs Hb Hq Hk. unfold Query. by rewrite Hv, Hs, Hb, !decide_False.
Qed.

(** ** Witnesses *)
#[local] Existing Instances ex_catalog_codec ex_wal_codec ex_record_codec.
#[local] Instance ex_branch_codec : Codec BranchCatalog := bit_codec BranchCatalog.
#[local] Instance ex_branch_manifest_codec : Codec BranchManifest := bit_codec BranchManifest.

(** Two tenants, each with its ingester on its store. *)
Definition ex_deployment : deployment Mem.memStore :=
  MkDeployment {[ 0%nat := Mem.newMemStore; 1%nat := Mem.newMemStore ]}
    {[ 0%nat := MkObj 0 (MkIngester ∅ ∅ 0) ∅; 1%nat := MkObj 1 (MkIngester ∅ ∅ 0) ∅ ]}
    {[ "acme" := 0%nat; "other" := 1%nat ]}.
Definition ex_delete (tenant id : string) : arrival := MkArrival [tenant] (RDelete (Some (MkDelete "" "" [id]))) 7.

Lemma ex_separate : separate ex_deployment.
Proof.
  assert (forall t i, ingesters ex_deployment !! t = Some i -> t = "acme" /\ i = 0%nat \/ t = "other" /\ i = 1%nat) as Ht.
  { intros t i. cbn [ingesters ex_deployment]. rewrite lookup_insert_Some, lookup_singleton_Some. naive_solver. }
  split.
  - intros t i [[-> ->]|[-> ->]]%Ht; eexists; (split; [reflexivity|]); by eexists.
  - intros t t' i i' o o' [[-> ->]|[-> ->]]%Ht [[-> ->]|[-> ->]]%Ht Hne [= <-] [= <-]; done.
Qed.

(** Both tenants write, the one twice: the other is answered and left as if
    alone. *)
Lemma requests_isolated_witness : exists xs d' ys e,
  serve_all 5 [ex_delete "acme" "d"; ex_delete "other" "e"; ex_delete "acme" "f"] ex_deployment = (xs, d') /\
  serve_all 5 [ex_delete "other" "e"] ex_deployment = (ys, e) /\ xs = [Done 1; Done 1; Done 1] /\ ys = [Done 1] /\
  tenant_view d' "other" = tenant_view e "other" /\ ~ tenant_view d' "other" = tenant_view ex_deployment "other".
Proof.
  destruct (serve_all 5 [ex_delete "acme" "d"; ex_delete "other" "e"; ex_delete "acme" "f"] ex_deployment) as [xs d'] eqn:E.
  destruct (serve_all 5 [ex_delete "other" "e"] ex_deployment) as [ys e] eqn:E2.
  pose proof (requests_isolated 5 _ ex_deployment xs d' "other" ys e ex_separate E E2) as (Hv & _).
  exists xs, d', ys, e. split; [reflexivity|]. split; [reflexivity|].
  split; [apply (f_equal fst) in E; cbn [fst] in E; rewrite <-E; vm_compute; reflexivity|].
  split; [apply (f_equal fst) in E2; cbn [fst] in E2; rewrite <-E2; vm_compute; reflexivity|]. split; [exact Hv|].
  rewrite Hv. intros H. apply (f_equal (fmap (fun os => size (logs (ostate os.1))))) in H.
  apply (f_equal (fun p => fmap (fun os => size (logs (ostate os.1))) (tenant_view p.2 "other"))) in E2.
  cbn [snd] in E2. rewrite <-E2 in H. revert H. vm_compute. discriminate.
Defined.

Lemma requests_checked_witness : exists tenant y, headers (ex_delete "acme" "d") = [tenant] /\ write_ok y.
Proof.
  destruct (serve 5 (ex_delete "acme" "d") ex_deployment) as [x d'] eqn:E.
  destruct (requests_checked 5 (ex_delete "acme" "d") ex_deployment x d' E)
    as (tenant & i & obj & st & y & o & ing & w & Hh & _ & _ & _ & _ & Hy & _).
  - intros ->. apply (f_equal (fun p => fmap (fun os => size (logs (ostate os.1))) (tenant_view p.2 "acme"))) in E.
    revert E. vm_compute. discriminate.
  - exists tenant, y. split; [exact Hh|exact Hy].
Defined.

(** A server without engines: a request for a valid namespace is NotFound, and
    only such a request; nothing is answered with hits. *)
Lemma query_statuses_witness :
  Query (Some Canceled) None ∅ "acme" (Some (MkQuery "docs" "" "" [] 0 None)) = Status CodeNotFound /\
  ~ Query (Some Canceled) None ∅ "acme" (Some (MkQuery "docs" "" "" [] 0 None)) = Status CodeInvalidArgument.
Proof.
  destruct (query_statuses (Some Canceled) None ∅ "acme" (Some (MkQuery "docs" "" "" [] 0 None))) as (Hnf & Hia & _);
    [right; left; reflexivity|]. split.
  - apply Hnf. eexists. split; [reflexivity|]. split; vm_compute; reflexivity.
  - intros [|(r & [= <-] & [Hn|(eng & He & _)])]%Hia; [discriminate|apply Hn; vm_compute; reflexivity|discriminate He].
Defined.
