(* ===== verification/Ideal.v ===== *)
(** * An object store with given generations

    The specification the local store is compared with: a map from keys to
    objects, every method one atomic step.  The modification times that the
    writes will get are part of the state ([supply]), so that a run of the
    local store, whose times come from the clock, is matched by choosing the
    supply.  The methods that do not write are those of the memory store. *)

From S2P Require Import Prelude GoStr ObjectStore.
Local Open Scope Z_scope.

Record ideal := MkIdeal {
  contents : gmap string entry;
  supply : list Z;
  handed : gset string;    (* generations handed out *)
}.

Definition as_mem (s : ideal) : Mem.memStore := Mem.MkMem (contents s) 0.

(** The condition of a write fails. *)
Definition rejects (cond : Condition) (old : option entry) : bool :=
  if Absent cond then match old with Some _ => true | None => false end
  else if decide (GenerationMatch cond <> "") then
    match old with Some e => bool_decide (generation e <> GenerationMatch cond) | None => true end
  else false.

Definition malformed (cond : Condition) : Prop :=
  GenerationMatch cond <> "" /\ validLocalGeneration (GenerationMatch cond) = false.

Definition put (ctxErr : option error) (key : string) (r : res (list byte)) (cond : Condition)
    (s : ideal) : res string * ideal :=
  match ctxErr with
  | Some e => (Err e, s)
  | None =>
    if decide (malformed cond) then (Err (Msg "objectstore: malformed generation"), s) else
    match r with
    | Err e => (Err e, s)
    | Ok d =>
      if rejects cond (contents s !! key) then (Err ErrPreconditionFailed, s) else
      match supply s with
      | [] => (Err (Msg "supply"), s)
      | t :: sup =>
        let gen := localGeneration t (Z.of_nat (length d)) in
        (Ok gen, MkIdeal (<[key := MkEntry d gen]> (contents s)) sup ({[gen]} ∪ handed s))
      end
    end
  end.

Definition del (ctxErr : option error) (key : string) (s : ideal) : res unit * ideal :=
  let '(r, m) := Mem.Delete ctxErr key (as_mem s) in
  (r, MkIdeal (Mem.objects m) (supply s) (handed s)).

#[export] Instance ideal_store : Store ideal := {|
  Stat c k s := Mem.Stat c k (as_mem s);
  Get c k s := Mem.Get c k (as_mem s);
  ReadRange c k a l s := Mem.ReadRange c k a l (as_mem s);
  Put := put;
  Delete := del;
  Exists c k s := Mem.Exists c k (as_mem s);
  ListObjects c p a l s := Mem.ListObjects c p a l (as_mem s);
|}.

(** Generations of the form the store makes. *)
Definition well_formed (g : string) : Prop :=
  exists t n, 0 <= t < 2 ^ 63 /\ 0 <= n < 2 ^ 63 /\ g = localGeneration t n.

(** [n] writes are left, whose times are all new. *)
Definition ideal_ok (n : nat) (s : ideal) : Prop :=
  (n <= length (supply s))%nat /\ NoDup (supply s) /\
  (forall t, t ∈ supply s -> 0 <= t < 2 ^ 63 /\ forall z, localGeneration t z ∉ handed s) /\
  (forall g, g ∈ handed s -> well_formed g) /\
  (forall k e, contents s !! k = Some e -> generation e ∈ handed s).

Lemma well_formed_valid g : well_formed g -> validLocalGeneration g = true /\ g <> "".
Proof. intros (t & n & Ht & Hn & ->). split; [by apply validLocalGeneration_ok|apply localGeneration_ne]. Qed.

Lemma put_rejected cond k d s : ~ malformed cond -> rejects cond (contents s !! k) = true ->
  put None k (Ok d) cond s = (Err ErrPreconditionFailed, s).
Proof. intros Hm Hr. unfold put. by rewrite decide_False, Hr by done. Qed.

Lemma put_done cond k d s t sup : ~ malformed cond -> rejects cond (contents s !! k) = false ->
  supply s = t :: sup -> let g := localGeneration t (Z.of_nat (length d)) in
  put None k (Ok d) cond s = (Ok g, MkIdeal (<[k := MkEntry d g]> (contents s)) sup ({[g]} ∪ handed s)).
Proof. intros Hm Hr Hs. unfold put. by rewrite decide_False, Hr, Hs by done. Qed.

Lemma not_malformed g : well_formed g -> ~ malformed (IfGeneration g).
Proof. intros [Hv _]%well_formed_valid [_ H]. simpl in H. congruence. Qed.

Lemma ideal_put_ok n s k d t sup : ideal_ok (S n) s -> slice_len d -> supply s = t :: sup ->
  let g := localGeneration t (Z.of_nat (length d)) in
  ideal_ok n (MkIdeal (<[k := MkEntry d g]> (contents s)) sup ({[g]} ∪ handed s)) /\ g ∉ handed s.
Proof.
  intros (Hn & Hnd & Hnew & Hwf & Hc) Hd Hs g. rewrite Hs in Hn, Hnd, Hnew.
  apply NoDup_cons in Hnd as [Hin Hnd]. destruct (Hnew t ltac:(left)) as [Ht Hf].
  split; [|by apply Hf]. split; [simpl in *; lia|]. split; [done|]. simpl. split_and!.
  - intros t' Ht'. destruct (Hnew t' ltac:(by right)) as [Hr' Hf']. split; [done|]. intros z.
    rewrite elem_of_union, elem_of_singleton. intros [E|?]; [|by eapply Hf'].
    apply localGeneration_inj in E as ->; done.
  - intros g'. rewrite elem_of_union, elem_of_singleton. intros [->|?]; [|by apply Hwf].
    exists t, (Z.of_nat (length d)). unfold slice_len in Hd. split_and!; try done; lia.
  - intros k' e. rewrite lookup_insert_Some. set_unfold. intros [[_ <-]|[_ ?]]; [by left|right; by eapply Hc].
Qed.

#[export] Program Instance ideal_laws : StoreLaws ideal := {|
  view := contents; issued s g := g ∈ handed s; ok := ideal_ok;
|}.
Next Obligation. intros n m s Hle (H1 & H2). split; [lia|done]. Qed.
Next Obligation. intros n s k e (_ & _ & _ & _ & H). apply H. Qed.
Next Obligation. intros n s g (_ & _ & _ & H & _) Hg. by apply well_formed_valid, H. Qed.
Next Obligation. done. Qed.
Next Obligation. done. Qed.
Next Obligation.
  intros n s k _. simpl. f_equal. destruct (contents s !! k); [|done]. by rewrite bool_decide_eq_true_2.
Qed.
Next Obligation. done. Qed.
Next Obligation.
  intros n s k d Hok [e Hk]. apply put_rejected; [by intros [[] _]|]. unfold rejects. by rewrite Hk.
Qed.
Next Obligation.
  intros n s k d g (_ & _ & _ & Hwf & _) Hg Hne. specialize (Hwf g Hg). apply put_rejected.
  - by apply not_malformed.
  - unfold rejects. cbn [Absent GenerationMatch IfGeneration]. rewrite decide_True by (by apply well_formed_valid).
    destruct (contents s !! k) as [e|] eqn:Hk; [|done]. by rewrite bool_decide_eq_true_2 by (by apply Hne).
Qed.
Next Obligation.
  intros n s k d c Hok _ Hd Hc. destruct (supply s) as [|t sup] eqn:Hs.
  { destruct Hok as [Hn _]. rewrite Hs in Hn. simpl in Hn. lia. }
  destruct (ideal_put_ok n s k d t sup Hok Hd Hs) as [Hok' Hfr]. eexists _, _.
  split; [apply put_done; [| |exact Hs]|].
  - destruct Hc as [[-> _]|[(e & Hk & ->)| ->]]; [by intros [[] _]| |by intros [[] _]].
    apply not_malformed. destruct Hok as (_ & _ & _ & Hwf & Hv). eapply Hwf, Hv, Hk.
  - unfold rejects. destruct Hc as [[-> ->]|[(e & Hk & ->)| ->]]; [done| |done].
    cbn [Absent GenerationMatch IfGeneration]. case_decide; [|done]. rewrite Hk.
    by rewrite bool_decide_eq_false_2 by (intros []; done).
  - split; [done|]. split; [done|]. split; [done|]. simpl. set_unfold. split; [by left|].
    intros g' Hg'. set_unfold. by right.
Qed.
Next Obligation.
  intros n s k (H1 & H2 & H3 & H4 & H5) [e Hk]. simpl. unfold del, Mem.Delete. simpl. rewrite Hk.
  eexists. split; [done|]. split; [|done]. split; [done|]. split; [done|]. split; [done|].
  split; [done|]. intros k' e'. simpl. intros [_ Hk']%lookup_delete_Some. by eapply H5.
Qed.
Next Obligation.
  intros n s k _ Hk. simpl. unfold del, Mem.Delete. simpl. rewrite Hk. by destruct s.
Qed.
Next Obligation. intros e k [c sup h]. repeat split. intros d cd. exists e. by split; [|left]. Qed.
