(* ===== verification/LocalFs.v ===== *)
(** * The file system under the local store

    What src/objectstore/local.go uses of package [os], at the granularity of
    system calls: any number of goroutines of one process run [proc]s, and a
    step of the machine is one call of one of them.  Directories and regular
    files only; file contents and modification times live in inodes, so that
    [os.Link] shares them and an open file survives [os.Rename].  The kernel's
    choices are the argument [oracle] of a call: the clock, the random suffix
    of a temporary file, or an error (no space, an I/O error, a cancelled
    context) in place of the call's effect.  A loop that has used up its fuel
    never moves again, like a goroutine that is not scheduled, so fuel bounds
    the runs considered and changes no result.

    [icreator], [ipublished], [used] and [taken] are history: no call reads
    them. *)

From S2P Require Import Prelude GoStr ObjectStore Prog.
Local Open Scope Z_scope.

(** Absolute paths, as the list of their elements. *)
Abbreviation fpath := (list string).

Definition parent (p : fpath) : fpath := take (pred (length p)) p.
Definition base (p : fpath) : string := default "/" (last p).

Inductive node := Dir | File (ino : nat).

Record inode := MkInode {
  idata : list byte;
  imtime : Z;
  icreator : nat;      (* the goroutine that created it *)
  ipublished : bool;   (* it has been linked or renamed to its final name *)
}.

Record machine := MkMachine {
  names : gmap fpath node;
  inodes : gmap nat inode;
  lastLocalModTime : Z;     (* the process's atomic counter *)
  mutex : option nat;       (* the goroutine that holds diskLock.mu *)
  used : gmap Z nat;        (* random suffixes drawn so far, and by whom *)
  taken : gmap Z nat;       (* modification times drawn so far, and by whom *)
  atoms : gmap nat Z;       (* the clients' atomic counters *)
}.

#[export] Instance node_eq_dec : EqDecision node.
Proof. solve_decision. Defined.

Definition set_names ns (m : machine) : machine :=
  MkMachine ns (inodes m) (lastLocalModTime m) (mutex m) (used m) (taken m) (atoms m).
Definition set_inode i x (m : machine) : machine :=
  MkMachine (names m) (<[i := x]> (inodes m)) (lastLocalModTime m) (mutex m) (used m) (taken m) (atoms m).
Definition set_last t who (m : machine) : machine :=
  MkMachine (names m) (inodes m) t (mutex m) (used m)
    (match who with Some i => <[t := i]> (taken m) | None => taken m end) (atoms m).
Definition set_mutex h (m : machine) : machine :=
  MkMachine (names m) (inodes m) (lastLocalModTime m) h (used m) (taken m) (atoms m).
Definition set_used z i (m : machine) : machine :=
  MkMachine (names m) (inodes m) (lastLocalModTime m) (mutex m) (<[z := i]> (used m)) (taken m) (atoms m).
Definition set_atoms cs (m : machine) : machine :=
  MkMachine (names m) (inodes m) (lastLocalModTime m) (mutex m) (used m) (taken m) cs.

(** ** Errors of the kernel *)
Definition ENOENT : error := Msg "no such file or directory".
Definition EEXIST : error := Msg "file exists".
Definition ENOTDIR : error := Msg "not a directory".
Definition EISDIR : error := Msg "is a directory".
Definition ENOTEMPTY : error := Msg "directory not empty".
Definition IsNotExist (e : error) : bool := bool_decide (e = ENOENT).
Definition IsExist (e : error) : bool := bool_decide (e = EEXIST \/ e = ENOTEMPTY).

Record FileInfo := MkInfo { IsDir : bool; ModTime : Z; FSize : Z }.

(** ** System calls

    An open file is [Some ino], an open directory [None].  [SNext] is
    [CompareAndSwap] of [lastLocalModTime] by [nextLocalModTime], [SAdvance]
    the one of [advanceLocalModTime]. *)
Inductive sys : Type -> Type :=
  | SStat (p : fpath) : sys (res FileInfo)
  | SOpen (p : fpath) : sys (res (option nat))
  | SFstat (f : option nat) : sys (res FileInfo)
  | SRead (f : option nat) : sys (res (list byte))
  | SMkdir (p : fpath) : sys (res unit)
  | SRandom : sys Z
  | SCreate (p : fpath) : sys (res nat)
  | SWrite (ino : nat) (d : list byte) : sys (res unit)
  | SClose : sys (res unit)
  | SChtimes (p : fpath) (t : Z) : sys (res unit)
  | SLink (p q : fpath) : sys (res unit)
  | SRename (p q : fpath) : sys (res unit)
  | SRemove (p : fpath) : sys (res unit)
  | SReadDir (p : fpath) : sys (res (list (string * bool)))
  | SFlock : sys (res unit)
  | SLock : sys unit
  | SUnlock : sys unit
  | SNow : sys Z
  | SLast : sys Z
  | SNext (old new : Z) : sys bool
  | SAdvance (old new : Z) : sys bool
  | SLoad (c : nat) : sys Z
  | SCas (c : nat) (old new : Z) : sys bool
  | SCtxErr : sys (option error)   (* ctx.Err() *)
  | SSpin : sys Empty_set.         (* a loop that has used up its fuel *)

Inductive proc (A : Type) : Type :=
  | Done (a : A)
  | Sys {X : Type} (s : sys X) (k : X -> proc A).
Arguments Done {A} a.
Arguments Sys {A X} s k.

Fixpoint proc_bind {A B} (p : proc A) (f : A -> proc B) : proc B :=
  match p with
  | Done a => f a
  | Sys s k => Sys s (fun x => proc_bind (k x) f)
  end.

#[export] Instance proc_mret : MRet proc := @Done.
#[export] Instance proc_mbind : MBind proc := fun A B f p => proc_bind p f.

Definition sys_ {X} (s : sys X) : proc X := Sys s Done.

(** [v, err := p; if err != nil { return err }] *)
Definition ptry {A B} (p : proc (res A)) (f : A -> proc (res B)) : proc (res B) :=
  proc_bind p (fun r => match r with Ok a => f a | Err e => Done (Err e) end).
Notation "x <# p ; q" := (ptry p (fun x => q))
  (at level 20, p at level 100, q at level 200, only parsing) : stdpp_scope.

(** ** Their effect *)
Inductive oracle := Val (z : Z) | Fail (what : string).

(** The name at [p], or why there is none. *)
Definition find (m : machine) (p : fpath) : res node :=
  match names m !! p with
  | Some n => Ok n
  | None => if existsb (fun k => match names m !! take k p with Some (File _) => true | _ => false end)
                 (seq 0 (length p))
            then Err ENOTDIR else Err ENOENT
  end.

Definition info (m : machine) (z : Z) (f : option nat) : res FileInfo :=
  match f with
  | None => Ok (MkInfo true z 0)
  | Some i => match inodes m !! i with
              | Some x => Ok (MkInfo false (imtime x) (Z.of_nat (length (idata x))))
              | None => Err ENOENT
              end
  end.

Definition handle (n : node) : option nat := match n with Dir => None | File i => Some i end.

(** A new name can be made at [q]. *)
Definition vacant (m : machine) (q : fpath) : res unit :=
  match find m q with
  | Ok _ => Err EEXIST
  | Err e => if decide (e <> ENOENT) then Err e else
             match names m !! parent q with
             | Some Dir => Ok tt | Some (File _) => Err ENOTDIR | None => Err ENOENT end
  end.

Definition children (m : machine) (p : fpath) : list fpath :=
  filter (fun q => q <> [] /\ parent q = p) ((map_to_list (names m)).*1).

Definition readdir (m : machine) (p : fpath) : list (string * bool) :=
  (fun n => (n, bool_decide (names m !! (p ++ [n]) = Some Dir))) <$>
    sort_Strings (base <$> children m p).

Definition publish (x : inode) : inode := MkInode (idata x) (imtime x) (icreator x) true.

(** The calls that can fail, as functions of the machine. *)
Definition link (p q : fpath) (m : machine) : res unit * machine :=
  match find m p with
  | Ok (File i) =>
    match vacant m q, inodes m !! i with
    | Ok _, Some x => (Ok tt, set_inode i (publish x) (set_names (<[q := File i]> (names m)) m))
    | Err e, _ => (Err e, m)
    | _, None => (Err ENOENT, m)
    end
  | Ok Dir => (Err (Msg "operation not permitted"), m)
  | Err e => (Err e, m)
  end.

Definition rename (p q : fpath) (m : machine) : res unit * machine :=
  match find m p with
  | Ok (File i) =>
    let target := match find m q with
                  | Ok Dir => Err EEXIST
                  | Ok (File j) => Ok (Some j)
                  | Err _ => vacant m q ≫= fun _ => Ok None
                  end in
    match target, inodes m !! i with
    | Ok j, Some x =>
      if decide (j = Some i) then (Ok tt, m)
      else (Ok tt, set_inode i (publish x) (set_names (<[q := File i]> (delete p (names m))) m))
    | Err e, _ => (Err e, m)
    | _, None => (Err ENOENT, m)
    end
  | Ok Dir => (Err EISDIR, m) (* the store renames files only *)
  | Err e => (Err e, m)
  end.

Definition remove (p : fpath) (m : machine) : res unit * machine :=
  match find m p with
  | Ok (File _) => (Ok tt, set_names (delete p (names m)) m)
  | Ok Dir => if decide (children m p = []) then (Ok tt, set_names (delete p (names m)) m)
              else (Err ENOTEMPTY, m)
  | Err e => (Err e, m)
  end.

(** The call [s] by goroutine [i]; [None] while it blocks. *)
Definition exec_sys (i : nat) (z : Z) {X} (s : sys X) (m : machine) : option (X * machine) :=
  match s in sys X return option (X * machine) with
  | SStat p => Some (match find m p with Ok n => info m z (handle n) | Err e => Err e end, m)
  | SOpen p => Some (match find m p with Ok n => Ok (handle n) | Err e => Err e end, m)
  | SFstat f => Some (info m z f, m)
  | SRead f => Some (match f with
                     | None => Err EISDIR
                     | Some i => match inodes m !! i with Some x => Ok (idata x) | None => Err ENOENT end
                     end, m)
  | SMkdir p => Some (match vacant m p with
                      | Ok _ => (Ok tt, set_names (<[p := Dir]> (names m)) m)
                      | Err e => (Err e, m) end)
  | SRandom => Some (z, set_used z i m)
  | SCreate p => Some (match vacant m p with
                       | Ok _ => let ino := fresh (dom (inodes m)) in
                                 (Ok ino, set_inode ino (MkInode [] z i false) (set_names (<[p := File ino]> (names m)) m))
                       | Err e => (Err e, m) end)
  | SWrite ino d => Some (match inodes m !! ino with
                          | Some x => (Ok tt, set_inode ino (MkInode (idata x ++ d) z (icreator x) (ipublished x)) m)
                          | None => (Err ErrClosed, m) end)
  | SClose => Some (Ok tt, m)
  | SChtimes p t => Some (match find m p with
                          | Ok (File ino) =>
                            match inodes m !! ino with
                            | Some x => (Ok tt, set_inode ino (MkInode (idata x) t (icreator x) (ipublished x)) m)
                            | None => (Err ENOENT, m)
                            end
                          | Ok Dir => (Ok tt, m)
                          | Err e => (Err e, m) end)
  | SLink p q => Some (link p q m)
  | SRename p q => Some (rename p q m)
  | SRemove p => Some (remove p m)
  | SReadDir p => Some (match find m p with
                        | Ok Dir => Ok (readdir m p) | Ok (File _) => Err ENOTDIR | Err e => Err e end, m)
  | SFlock => Some (Ok tt, m)
  | SLock => match mutex m with None => Some (tt, set_mutex (Some i) m) | Some _ => None end
  | SUnlock => Some (tt, set_mutex None m)
  | SNow => Some (z, m)
  | SLast => Some (lastLocalModTime m, m)
  | SNext old new => Some (if decide (lastLocalModTime m = old) then (true, set_last new (Some i) m) else (false, m))
  | SAdvance old new => Some (if decide (lastLocalModTime m = old) then (true, set_last new None m) else (false, m))
  | SLoad c => Some (default 0 (atoms m !! c), m)
  | SCas c old new => Some (if decide (default 0 (atoms m !! c) = old)
                            then (true, set_atoms (<[c := new]> (atoms m)) m) else (false, m))
  | SCtxErr => Some (None, m)
  | SSpin => None
  end.

(** A call that fails without effect. *)
Definition failed {X} (what : string) (s : sys X) : option X :=
  match s in sys X return option X with
  | SStat _ | SOpen _ | SFstat _ | SRead _ | SMkdir _ | SCreate _ | SWrite _ _ | SClose
  | SChtimes _ _ | SLink _ _ | SRename _ _ | SRemove _ | SReadDir _ | SFlock => Some (Err (Msg what))
  | SCtxErr => Some (Some (if decide (what = "context deadline exceeded") then DeadlineExceeded else Canceled))
  | SRandom | SLock | SUnlock | SNow | SLast | SNext _ _ | SAdvance _ _ | SLoad _ | SCas _ _ _ | SSpin => None
  end.

Definition sysexec (i : nat) (o : oracle) {X} (s : sys X) (m : machine) : option (X * machine) :=
  match o with
  | Val z => exec_sys i z s m
  | Fail what => (fun x => (x, m)) <$> failed what s
  end.

(** What is taken for granted of the kernel's choices: the clock is past
    [T0], the latest modification time found when the process started, and
    neither it nor the counter goes past [T1]; random suffixes do not repeat;
    a call that fails for another reason does not claim that a name is
    missing or taken. *)
Definition kernel_ok (T0 T1 : Z) (o : oracle) {X} (s : sys X) (m : machine) : Prop :=
  match o with
  | Fail what => Msg what <> ENOENT /\ Msg what <> EEXIST /\ Msg what <> ENOTEMPTY
  | Val z => match s with
             | SRandom => 0 <= z < 2 ^ 32 /\ used m !! z = None
             | SNow => T0 < z <= T1
             | SLast => lastLocalModTime m < T1
             | _ => True
             end
  end.

(** The next call of a goroutine's program. *)
Definition next_ok (T0 T1 : Z) (o : oracle) {A} (p : proc A) (m : machine) : Prop :=
  match p with Done _ => True | Sys s _ => kernel_ok T0 T1 o s m end.

Definition next_call (i : nat) (o : oracle) {A} (p : proc A) (m : machine) : option (proc A * machine) :=
  match p with
  | Done _ => None
  | Sys s k => '(x, m') ← sysexec i o s m; Some (k x, m')
  end.

(** One call of one goroutine. *)
Inductive mstep (T0 T1 : Z) {A} : relation (list (proc A) * machine) :=
  | MStep ps i o p p' m m' :
      ps !! i = Some p -> next_ok T0 T1 o p m -> next_call i o p m = Some (p', m') ->
      mstep T0 T1 (ps, m) (<[i := p']> ps, m').

#[export] Instance kernel_ok_dec T0 T1 o {X} (s : sys X) m : Decision (kernel_ok T0 T1 o s m).
Proof. destruct o, s; cbn; apply _. Defined.

#[export] Instance next_ok_dec T0 T1 o {A} (p : proc A) m : Decision (next_ok T0 T1 o p m).
Proof. destruct p; cbn; apply _. Defined.

(** An interleaving given by the order of the goroutines and the kernel's
    choices. *)
Fixpoint schedule (T0 T1 : Z) {A} (sched : list (nat * oracle)) (ps : list (proc A)) (m : machine)
  : option (list (proc A) * machine) :=
  match sched with
  | [] => Some (ps, m)
  | (i, o) :: sched =>
    p ← ps !! i;
    if decide (next_ok T0 T1 o p m) then
      '(p', m') ← next_call i o p m; schedule T0 T1 sched (<[i := p']> ps) m'
    else None
  end.

Lemma schedule_steps T0 T1 {A} sched (ps : list (proc A)) m c :
  schedule T0 T1 sched ps m = Some c -> nsteps (mstep T0 T1) (length sched) (ps, m) c.
Proof.
  revert ps m. induction sched as [|[i o] sched IH]; intros ps m E; cbn in E.
  - injection E as <-. constructor.
  - destruct (ps !! i) as [p|] eqn:Ep; [|done]. cbn in E. case_decide; [|done].
    destruct (next_call i o p m) as [[p' m']|] eqn:Ec; [|done]. cbn in E.
    econstructor; [|by apply IH]. by econstructor.
Qed.

(** An undisturbed run of one goroutine without failures, the clock and the
    random numbers given by a list. *)
Fixpoint run_alone {A} (i : nat) (zs : list Z) (p : proc A) (m : machine) : option (A * machine) :=
  match p with
  | Done a => Some (a, m)
  | Sys s k => '(x, m') ← exec_sys i (hd 0 zs) s m; run_alone i (tail zs) (k x) m'
  end.
