(* ===== verification/Local.v ===== *)
(** * objectstore: the local store

    src/objectstore/local.go: a directory tree with one file per object.  A
    write goes to a temporary file that is then linked (if the object must
    not exist) or renamed into place; the generation of an object is its
    file's modification time and size.

    A method is a program of system calls ([proc]), among them the reads of
    [ctx.Err()]; the loops on [lastLocalModTime] have fuel.  [compile] runs a client of the store on it. *)

From S2P Require Import Prelude GoStr ObjectStore Prog LocalFs.
Local Open Scope Z_scope.

Record localStore := MkLocal { dir : fpath }.

(** ** diskLock

    [l.mu] excludes the goroutines of the process; the advisory lock of the
    directory, taken when it can be, excludes other processes, of which the
    machine has none. *)
Definition lock (dir : fpath) : proc bool :=
  _ ← sys_ SLock;
  f ← sys_ (SOpen dir);
  match f with
  | Ok _ => r ← sys_ SFlock;
            match r with
            | Ok _ => mret true
            | Err _ => _ ← sys_ SClose; mret false
            end
  | Err _ => mret false
  end.

Definition unlock (flocked : bool) : proc unit :=
  if flocked then _ ← sys_ SFlock; _ ← sys_ SClose; sys_ SUnlock
  else sys_ SUnlock.

(** ** Modification times *)
Definition spin {A} : proc A := Sys SSpin (fun x => match x with end).

Fixpoint advanceLocalModTime (fuel : nat) (ns : Z) : proc unit :=
  match fuel with
  | O => spin
  | S fuel =>
    last ← sys_ SLast;
    if decide (ns <= last) then mret tt else
    ok ← sys_ (SAdvance last ns);
    if (ok : bool) then mret tt else advanceLocalModTime fuel ns
  end.

Fixpoint nextLocalModTime (fuel : nat) : proc Z :=
  match fuel with
  | O => spin
  | S fuel =>
    now ← sys_ SNow;
    last ← sys_ SLast;
    let next := if decide (now <= last) then i64 (last + 1) else now in
    ok ← sys_ (SNext last next);
    if (ok : bool) then mret next else nextLocalModTime fuel
  end.

(** ** Keys *)
Definition path (d : localStore) (key : string) : res fpath :=
  if decide (key = "") then Err (Msg "objectstore: empty key") else
  let clean := path_Clean key in
  if decide (rooted clean = true \/ clean = ".." \/ HasPrefix clean "../" = true)
  then Err (Msg "objectstore: invalid key")
  else Ok (dir d ++ (if decide (clean = ".") then [] else split_on slash clean)).

Definition objectOf (key : string) (fi : FileInfo) : Object :=
  MkObject key (localGeneration (ModTime fi) (FSize fi)) (FSize fi).

(** [if os.IsNotExist(err) { return ErrNotFound }; return err] *)
Definition notFound (e : error) : error := if IsNotExist e then ErrNotFound else e.

(** ** Reading *)
Definition Stat (d : localStore) (key : string) : proc (res Object) :=
  ctxErr ← sys_ SCtxErr;
  match ctxErr with
  | Some e => mret (Err e)
  | None =>
    match path d key with
    | Err e => mret (Err e)
    | Ok target =>
      r ← sys_ (SStat target);
      mret (match r with
            | Err e => Err (notFound e)
            | Ok fi => if IsDir fi then Err ErrNotFound else Ok (objectOf key fi)
            end)
    end
  end.

Definition open_ (d : localStore) (key : string) : proc (res (option nat * FileInfo)) :=
  match path d key with
  | Err e => mret (Err e)
  | Ok target =>
    r ← sys_ (SOpen target);
    match r with
    | Err e => mret (Err (notFound e))
    | Ok f =>
      r ← sys_ (SFstat f);
      match r with
      | Err e => _ ← sys_ SClose; mret (Err e)
      | Ok fi => if IsDir fi then _ ← sys_ SClose; mret (Err ErrNotFound) else mret (Ok (f, fi))
      end
    end
  end.

(** The reader that [Get] returns is the open file. *)
Definition Get (d : localStore) (key : string)
  : proc (res (option nat * Object)) :=
  ctxErr ← sys_ SCtxErr;
  match ctxErr with
  | Some e => mret (Err e)
  | None => r <# open_ d key; mret (Ok (r.1, objectOf key r.2))
  end.

(** The reader is [io.NewSectionReader(f, offset, length)]. *)
Definition ReadRange (d : localStore) (key : string) (offset len : Z)
  : proc (res (option nat * (Z * Z) * Object)) :=
  ctxErr ← sys_ SCtxErr;
  match ctxErr with
  | Some e => mret (Err e)
  | None =>
    if decide (offset < 0 \/ len < 0) then mret (Err (Msg "objectstore: invalid range")) else
    r <# open_ d key;
    if decide (FSize r.2 < offset)
    then _ ← sys_ SClose; mret (Err (Msg "objectstore: offset exceeds object size"))
    else mret (Ok (r.1, (offset, len), objectOf key r.2))
  end.

Definition Exists (d : localStore) (key : string) : proc (res bool) :=
  ctxErr ← sys_ SCtxErr;
  match ctxErr with
  | Some e => mret (Err e)
  | None =>
    match path d key with
    | Err e => mret (Err e)
    | Ok target =>
      r ← sys_ (SStat target);
      mret (match r with
            | Err e => if IsNotExist e then Ok false else Err e
            | Ok fi => Ok (negb (IsDir fi))
            end)
    end
  end.

(** ** Writing *)
Definition Delete (fuel : nat) (d : localStore) (key : string) : proc (res unit) :=
  ctxErr ← sys_ SCtxErr;
  match ctxErr with
  | Some e => mret (Err e)
  | None =>
    match path d key with
    | Err e => mret (Err e)
    | Ok target =>
      l ← lock (dir d);
      r ← (st ← sys_ (SStat target);
           match st with
           | Err e => mret (Err (notFound e))
           | Ok fi => _ <# sys_ (SRemove target);
                      _ ← advanceLocalModTime fuel (ModTime fi);
                      mret (Ok tt)
           end);
      _ ← unlock l;
      mret r
    end
  end.

(** [os.MkdirAll] of the path whose elements are [rp], last first; a
    directory that another goroutine makes meanwhile is as good. *)
Definition mkdir_one (p : fpath) : proc (res unit) :=
  r ← sys_ (SMkdir p);
  match r with
  | Ok _ => mret (Ok tt)
  | Err e => st ← sys_ (SStat p);
             mret (match st with
                   | Ok fi => if IsDir fi then Ok tt else Err e
                   | Err _ => Err e
                   end)
  end.

Fixpoint mkdir_all (rp : list string) : proc (res unit) :=
  let p := reverse rp in
  r ← sys_ (SStat p);
  match r with
  | Ok fi => mret (if IsDir fi then Ok tt else Err ENOTDIR)
  | Err _ =>
    _ <# (match rp with [] => mret (Ok tt) | _ :: rp => mkdir_all rp end);
    mkdir_one p
  end.
Definition MkdirAll (p : fpath) : proc (res unit) := mkdir_all (reverse p).

(** [os.CreateTemp(parent, ".tmp-*")]: the file and its name. *)
Definition temp_name (z : Z) : string := ".tmp-" +:+ FormatInt z 10.
Fixpoint CreateTemp (tries : nat) (parent : fpath) : proc (res (nat * fpath)) :=
  match tries with
  | O => mret (Err EEXIST)
  | S tries =>
    z ← sys_ SRandom;
    let tmpPath := parent ++ [temp_name z] in
    r ← sys_ (SCreate tmpPath);
    match r with
    | Ok ino => mret (Ok (ino, tmpPath))
    | Err e => if IsExist e then CreateTemp tries parent else mret (Err e)
    end
  end.

(** The part of [Put] with the temporary file in place, on the branch
    [cond.Absent]. *)
Definition put_absent (fuel : nat) (tmpPath target : fpath) : proc (res string) :=
  t ← nextLocalModTime fuel;
  _ <# sys_ (SChtimes tmpPath t);
  r ← sys_ (SLink tmpPath target);
  match r with
  | Err e => mret (Err (if IsExist e then ErrPreconditionFailed else e))
  | Ok _ => fi <# sys_ (SStat target);
            mret (Ok (localGeneration (ModTime fi) (FSize fi)))
  end.

(** The other branch, from [d.l.lock()] to [unlock()]; [replace] is its end,
    once the condition holds. *)
Definition replace (fuel : nat) (tmpPath target : fpath) : proc (res string) :=
  t ← nextLocalModTime fuel;
  _ <# sys_ (SChtimes tmpPath t);
  _ <# sys_ (SRename tmpPath target);
  newFi <# sys_ (SStat target);
  mret (Ok (localGeneration (ModTime newFi) (FSize newFi))).

Definition put_locked (fuel : nat) (tmpPath target : fpath) (cond : Condition) : proc (res string) :=
  st ← sys_ (SStat target);
  prevGen <# (match st with
              | Ok fi => _ ← advanceLocalModTime fuel (ModTime fi);
                         mret (Ok (localGeneration (ModTime fi) (FSize fi)))
              | Err e => mret (if IsNotExist e then Ok "" else Err e)
              end);
  if decide (GenerationMatch cond <> "" /\ (prevGen = "" \/ prevGen <> GenerationMatch cond))
  then mret (Err ErrPreconditionFailed)
  else replace fuel tmpPath target.

Definition copy_temp (ino : nat) (r : reader) : proc (res unit) :=
  w ← sys_ (SWrite ino (content r));
  match w, readErr r with
  | Err e, _ | Ok _, Some e => _ ← sys_ SClose; mret (Err e)
  | Ok _, None => sys_ SClose
  end.

Definition Put (fuel : nat) (d : localStore) (key : string)
    (r : reader) (cond : Condition) : proc (res string) :=
  ctxErr ← sys_ SCtxErr;
  match ctxErr with
  | Some e => mret (Err e)
  | None =>
    match path d key with
    | Err e => mret (Err e)
    | Ok target =>
      if decide (GenerationMatch cond <> "" /\ validLocalGeneration (GenerationMatch cond) = false)
      then mret (Err (Msg "objectstore: malformed generation")) else
      _ <# MkdirAll (parent target);
      tmp <# CreateTemp (Z.to_nat 10000) (parent target);
      let '(ino, tmpPath) := tmp in
      res ← (_ <# copy_temp ino r;
             ctxErr2 ← sys_ SCtxErr;
             match (ctxErr2 : option error) with
             | Some e => mret (Err e)
             | None =>
               if Absent cond then put_absent fuel tmpPath target else
               l ← lock (dir d);
               res ← put_locked fuel tmpPath target cond;
               _ ← unlock l;
               mret res
             end);
      _ ← sys_ (SRemove tmpPath);
      mret res
    end
  end.

(** ** Listing

    [filepath.WalkDir]: [walk] visits the entry at [dir d ++ rel], whose
    [DirEntry] says whether it is a directory. *)
Section Walk.
Context (d : localStore) (prefix startAfter : string).

Definition hidden (name : string) : bool := HasPrefix name ".".

(** [filepath.Rel(d.dir, p)] with slashes; "." for the root itself. *)
Definition rel_key (rel : fpath) : string := if decide (rel = []) then "." else join_with "/" rel.

Definition visit_file (rel : fpath) (name : string) : proc (res (list Object)) :=
  let k := rel_key rel in
  if decide (hidden name = true) then mret (Ok []) else
  if decide (HasPrefix k prefix = true /\ str_lt startAfter k) then
    r ← sys_ (SStat (dir d ++ rel));
    mret (match r with
          | Err e => if IsNotExist e then Ok [] else Err e
          | Ok fi => Ok [objectOf k fi]
          end)
  else mret (Ok []).

(** The entries of one directory, in order. *)
Fixpoint visit_all (visit : string -> bool -> proc (res (list Object))) (entries : list (string * bool))
  : proc (res (list Object)) :=
  match entries with
  | [] => mret (Ok [])
  | (name, isDir) :: entries =>
    here <# visit name isDir;
    rest <# visit_all visit entries;
    mret (Ok (here ++ rest))
  end.

Fixpoint walk (depth : nat) (rel : fpath) (name : string) (isDir : bool) : proc (res (list Object)) :=
  if negb isDir then visit_file rel name else
  if decide (name <> "." /\ hidden name = true) then mret (Ok []) else
  match depth with
  | O => mret (Err OutOfFuel)
  | S depth =>
    r ← sys_ (SReadDir (dir d ++ rel));
    match r with
    | Err e => mret (if IsNotExist e then Ok [] else Err e)
    | Ok entries => visit_all (fun n b => walk depth (rel ++ [n]) n b) entries
    end
  end.

Definition sort_Objects (l : list Object) : list Object :=
  merge_sort (fun a b => String.le (Key a) (Key b)) l.

Definition List_ (depth : nat) (limit : Z) : proc (res (list Object)) :=
  ctxErr ← sys_ SCtxErr;
  match ctxErr with
  | Some e => mret (Err e)
  | None =>
    root ← sys_ (SStat (dir d));
    objs <# (match root with
             | Err e => mret (if IsNotExist e then Ok [] else Err e)
             | Ok fi => walk depth [] (base (dir d)) (IsDir fi)
             end);
    mret (Ok (limited limit (sort_Objects objs)))
  end.
End Walk.

(** ** Clients

    A client of [objectstore.Store] on a local store: it reads what [Get]
    returns to its end ([io.ReadAll]) and closes it. *)
Section Compile.
Context (fuel : nat) (d : localStore).

Definition compile_op {X} (o : op X) : proc X :=
  match o in op X return proc X with
  | OStat key => Stat d key
  | OGet key =>
    r <# Get d key;
    data <# sys_ (SRead r.1);
    _ ← sys_ SClose;
    mret (Ok (data, r.2))
  | OPut key data cond => Put fuel d key (MkReader data None) cond
  | ODelete key => Delete fuel d key
  | OExists key => Exists d key
  | OList p a l => List_ d p a fuel l
  | OLoad c => sys_ (SLoad c)
  | OCas c old new => sys_ (SCas c old new)
  end.

Fixpoint compile {A} (p : prog A) : proc A :=
  match p with
  | Ret a => Done a
  | Vis o k => proc_bind (compile_op o) (fun x => compile (k x))
  end.
End Compile.
