(* ===== verification/LocalSafety.v ===== *)
(** * objectstore: the local store is linearizable

    Clients of a local store, interleaved system call by system call, with
    calls that fail, against the atomic store of Ideal.v.  Every call takes
    effect at one system call: a write at its [os.Link] or [os.Rename], a
    deletion at [os.Remove], a read at [os.Stat] or [os.Open].  What the
    program then still learns (an error of a later call) is not known at that
    moment, so a goroutine is related to a set of results ([opsim]), of which
    the rest of its run picks one.

    The keys are a set [U] of plain, prefix-free keys, such as those of
    Namespace.v: no key may be the directory of another, and no element
    starts with a dot. *)

From S2P Require Import Prelude GoStr ObjectStore Prog Ideal LocalFs Local.
Local Open Scope Z_scope.

(** Keys whose elements are file names that are not hidden. *)
Definition plain (k : string) : Prop :=
  Forall (fun w => good_elem w /\ hidden w = false) (split_on slash k).

Definition prefix_free (U : string -> Prop) : Prop := forall k k', U k -> U k' ->
  split_on slash k `prefix_of` split_on slash k' -> k = k'.

Lemma join_split s : join_with "/" (split_on slash s) = s.
Proof.
  induction s as [|a s IH]; [done|]. cbn [split_on].
  pose proof (split_on_nonempty slash s) as Hne. destruct (split_on slash s) as [|w ws]; [done|].
  case_decide as Ha.
  - subst a. rewrite join_with_cons, IH. done.
  - destruct ws as [|v ws]; simpl in *; [by rewrite IH|]. by rewrite <-IH.
Qed.

Lemma split_inj k k' : split_on slash k = split_on slash k' -> k = k'.
Proof. intros E. by rewrite <-(join_split k), <-(join_split k'), E. Qed.

Lemma plain_good k : plain k -> Forall good_elem (split_on slash k).
Proof. intros H. eapply Forall_impl; [exact H|]. by intros w [? _]. Qed.

Lemma Clean_plain k : plain k -> path_Clean k = k.
Proof.
  intros Hk. rewrite <-(join_split k). apply Clean_good; [apply split_on_nonempty|by apply plain_good].
Qed.

Lemma HasPrefix_dots k : good_elem (hd "" (split_on slash k)) -> HasPrefix k "../" = false.
Proof.
  intros (_ & _ & Hd & _). destruct (HasPrefix k "../") eqn:E; [|done]. exfalso.
  apply HasPrefix_spec in E as [t ->]. by apply Hd.
Qed.

Lemma plain_hd k : plain k -> good_elem (hd "" (split_on slash k)).
Proof.
  intros Hk%plain_good. pose proof (split_on_nonempty slash k).
  destruct (split_on slash k); [done|]. by inversion_clear Hk.
Qed.

Lemma path_plain d k : plain k -> path d k = Ok (dir d ++ split_on slash k).
Proof.
  intros Hk. pose proof (plain_hd k Hk) as Hh. pose proof Hh as (H1 & H2 & H3 & H4).
  unfold path. rewrite Clean_plain by done.
  destruct (join_good_ne (split_on slash k) (split_on_nonempty _ _) (plain_good _ Hk)) as [Hne Hr].
  rewrite join_split in Hne, Hr. rewrite decide_False by done.
  rewrite decide_False.
  - by rewrite decide_False by (intros ->; done).
  - rewrite Hr, HasPrefix_dots by done. intros [?|[->|?]]; done.
Qed.

Lemma hidden_temp z : hidden (temp_name z) = true.
Proof. done. Qed.

Lemma temp_name_inj z z' : 0 <= z < 2 ^ 32 -> 0 <= z' < 2 ^ 32 -> temp_name z = temp_name z' -> z = z'.
Proof.
  intros Hz Hz' E. unfold temp_name in E. injection E as E.
  change (FormatInt z 10 = FormatInt z' 10) in E.
  apply (f_equal (fun s => ParseInt s 10)) in E. rewrite !ParseInt_FormatInt in E by lia. congruence.
Qed.

(** ** Errors

    Every error of a system call is one the store passes on as it is. *)
Definition err_transient {A} (r : res A) : Prop :=
  match r with Ok _ => True | Err e => transient e end.

Definition errs {X} (s : sys X) : X -> Prop :=
  match s in sys X return X -> Prop with
  | SStat _ | SFstat _ => err_transient
  | SOpen _ => err_transient
  | SRead _ => err_transient
  | SCreate _ => err_transient
  | SReadDir _ => err_transient
  | SMkdir _ | SWrite _ _ | SClose | SChtimes _ _ | SLink _ _ | SRename _ _ | SRemove _ | SFlock =>
    err_transient
  | SCtxErr => fun r => forall e, r = Some e -> transient e
  | _ => fun _ => True
  end.

Lemma find_transient m p : err_transient (find m p).
Proof. unfold find. by repeat case_match. Qed.

Lemma vacant_transient m p : err_transient (vacant m p).
Proof. unfold vacant. pose proof (find_transient m p). repeat (case_match || case_decide); done. Qed.

Lemma sysexec_errs i o {X} (s : sys X) m x m' : sysexec i o s m = Some (x, m') -> errs s x.
Proof.
  destruct o as [z|what]; cbn [sysexec].
  - destruct s; cbn; unfold link, rename, remove, info; intros E;
      repeat match type of E with
      | context [find ?m ?p] => pose proof (find_transient m p); destruct (find m p)
      | context [vacant ?m ?p] => pose proof (vacant_transient m p); destruct (vacant m p)
      end; repeat (case_match || case_decide); simplify_eq; try done;
      match goal with H : _ ≫= _ = Err _ |- _ => by injection H as <- end.
  - destruct s; cbn; intros E; simplify_option_eq; try done; intros ? [= <-]; by repeat case_decide.
Qed.

Section Linearizable.
Context (d : localStore) (U : string -> Prop) (HUp : forall k, U k -> plain k) (HUf : prefix_free U).

(** ** Names *)
Definition tgt (k : string) : fpath := dir d ++ split_on slash k.
Definition tmp (q : fpath) (z : Z) : fpath := dir d ++ q ++ [temp_name z].

Lemma tgt_inj k k' : tgt k = tgt k' -> k = k'.
Proof. intros E%(inj (app (dir d))). by apply split_inj. Qed.

(** No directory of an object is a temporary file or another object. *)
Lemma dir_not_tmp k j q z : U k -> take j (tgt k) <> tmp q z.
Proof.
  intros Hk E. unfold tgt, tmp in E. rewrite take_app in E.
  assert (length (dir d) < j)%nat as Hj.
  { apply (f_equal length) in E. rewrite !length_app, !length_take in E. simpl in E. lia. }
  rewrite take_ge in E by lia. apply (inj (app (dir d))) in E.
  assert (temp_name z ∈ split_on slash k) as Hin.
  { apply (subseteq_take (j - length (dir d))). rewrite E. set_solver. }
  pose proof (HUp k Hk) as Hpl. unfold plain in Hpl. rewrite Forall_forall in Hpl.
  destruct (Hpl _ Hin) as [_ Hh]. by rewrite hidden_temp in Hh.
Qed.

Lemma tgt_not_tmp k q z : U k -> tgt k <> tmp q z.
Proof. intros Hk. rewrite <-(take_ge (tgt k) (length (tgt k))) by lia. by apply dir_not_tmp. Qed.

Lemma dir_not_tgt k k' j : U k -> U k' -> (j < length (tgt k))%nat -> take j (tgt k) <> tgt k'.
Proof.
  intros Hk Hk' Hj E. unfold tgt in *. rewrite take_app in E.
  assert (0 < length (split_on slash k'))%nat as Hne.
  { pose proof (split_on_nonempty slash k'). destruct (split_on slash k'); simpl; [done|lia]. }
  assert (length (dir d) <= j)%nat as Hle.
  { apply (f_equal length) in E. rewrite !length_app, !length_take in E. lia. }
  rewrite take_ge in E by lia. apply (inj (app (dir d))) in E.
  assert (k' = k) as ->.
  { apply HUf; [done|done|]. rewrite <-E. by eexists; rewrite take_drop. }
  apply (f_equal length) in E. rewrite length_app in Hj. rewrite length_take in E. lia.
Qed.

Lemma tmp_inj q q' z z' : 0 <= z < 2 ^ 32 -> 0 <= z' < 2 ^ 32 -> tmp q z = tmp q' z' -> z = z'.
Proof.
  intros Hz Hz' E%(inj (app (dir d))). apply app_inj_tail in E as [_ E]. by apply temp_name_inj.
Qed.

(** ** The invariant *)
Context (T0 T1 : Z) (HT0 : 0 <= T0) (HT1 : T1 < 2 ^ 63) (fuel : nat).

(** No object has been published with modification time [t]. *)
Definition unused (m : machine) (t : Z) : Prop :=
  forall j x, inodes m !! j = Some x -> ipublished x = true -> imtime x <> t.

Record inv (m : machine) : Prop := {
  inv_file k n : U k -> names m !! tgt k = Some n ->
    exists i x, n = File i /\ inodes m !! i = Some x /\ ipublished x = true;
  inv_published i x : inodes m !! i = Some x -> ipublished x = true ->
    slice_len (idata x) /\ (0 <= imtime x <= T0 \/ taken m !! imtime x = Some (icreator x));
  inv_taken t i : taken m !! t = Some i -> T0 < t <= T1 /\ t <= lastLocalModTime m;
  inv_used z i : used m !! z = Some i -> 0 <= z < 2 ^ 32;
}.

(** What the other goroutines leave alone of the things of goroutine [i]:
    its temporary files and their inodes, its modification times, and, while
    it holds the lock, the objects there are.  Published inodes never
    change. *)
Record frame (i : nat) (m m' : machine) : Prop := {
  fr_temp z q : used m !! z = Some i -> names m' !! tmp q z = names m !! tmp q z;
  fr_used : used m ⊆ used m';
  fr_inode j x : inodes m !! j = Some x -> icreator x = i \/ ipublished x = true -> inodes m' !! j = Some x;
  fr_taken : taken m ⊆ taken m';
  fr_unused t : taken m !! t = Some i -> unused m t -> unused m' t;
}.

Record rely (i : nat) (m m' : machine) : Prop := {
  r_frame :> frame i m m';
  r_lock : mutex m = Some i -> mutex m' = Some i /\
    forall k n, U k -> names m !! tgt k = Some n -> names m' !! tgt k = Some n;
}.

#[global] Instance frame_preorder i : PreOrder (frame i).
Proof.
  split.
  - intros m. by split.
  - intros m1 m2 m3 [] []. split; [|by etrans|by eauto|by etrans|].
    + intros z q Hz. etrans; [|by apply fr_temp0]. apply fr_temp1. by eapply lookup_weaken.
    + intros t Ht Hu. apply fr_unused1; [by eapply lookup_weaken|by apply fr_unused0].
Qed.

#[global] Instance rely_preorder i : PreOrder (rely i).
Proof.
  split.
  - intros m. by split.
  - intros m1 m2 m3 [H1 L1] [H2 L2]. split; [by etrans|]. intros Hm.
    destruct (L1 Hm) as [Hm2 Hk1]. destruct (L2 Hm2) as [Hm3 Hk2]. eauto.
Qed.

(** ** The objects *)
Definition entry_of (x : inode) : entry :=
  MkEntry (idata x) (localGeneration (imtime x) (Z.of_nat (length (idata x)))).

Definition entry_at (m : machine) (k : string) : option entry :=
  match names m !! tgt k with Some (File i) => entry_of <$> inodes m !! i | _ => None end.

Definition rep (m : machine) (ob : gmap string entry) : Prop :=
  (forall k, U k -> ob !! k = entry_at m k) /\ (forall k, is_Some (ob !! k) -> U k).

Definition same_objects (m m' : machine) : Prop :=
  (forall k, U k -> entry_at m' k = entry_at m k) /\ atoms m' = atoms m.

(** A step of [i] that no object shows. *)
Definition quiet (i : nat) (m m' : machine) : Prop :=
  inv m' /\ (forall j, j <> i -> rely j m m') /\ same_objects m m'.

Lemma quiet_refl i m : inv m -> quiet i m m.
Proof. done. Qed.

(** A step that touches neither names nor inodes. *)
Lemma quiet_meta i m m' : inv m -> names m' = names m -> inodes m' = inodes m -> atoms m' = atoms m ->
  used m ⊆ used m' -> taken m ⊆ taken m' ->
  (forall t j, taken m' !! t = Some j -> T0 < t <= T1 /\ t <= lastLocalModTime m') ->
  (forall z j, used m' !! z = Some j -> 0 <= z < 2 ^ 32) ->
  (forall j, j <> i -> mutex m = Some j -> mutex m' = Some j) ->
  quiet i m m' /\ frame i m m' /\ (mutex m' = mutex m -> rely i m m').
Proof.
  intros [Hf Hp Ht Hu] En Ei Ea Hsu Hst Ht' Hu' Hm.
  assert (forall j, frame j m m') as Hfr.
  { intros j. split; unfold unused; rewrite ?En, ?Ei; auto. }
  assert (forall j, (mutex m = Some j -> mutex m' = Some j) -> rely j m m') as Hr.
  { intros j Hj. split; [done|]. intros H. rewrite En. auto. }
  split_and!; auto.
  - split; [|split; [by auto|split; [|done]]].
    + split; [rewrite En, Ei; apply Hf|rewrite Ei|done|done].
      intros j x Hx Hxp. destruct (Hp j x Hx Hxp) as [? [?|?]]; [by auto|]. split; [done|].
      right. by eapply lookup_weaken.
    + intros k _. unfold entry_at. by rewrite En, Ei.
  - intros E. apply Hr. by rewrite E.
Qed.

Lemma quiet_random i m z : inv m -> 0 <= z < 2 ^ 32 -> used m !! z = None ->
  quiet i m (set_used z i m) /\ rely i m (set_used z i m).
Proof.
  intros Hi Hz Hn. destruct (quiet_meta i m (set_used z i m)) as (? & _ & Hr); try done.
  - by apply insert_subseteq.
  - apply Hi.
  - intros z' j. simpl. rewrite lookup_insert_Some. intros [[<- _]|[_ ?]]; [done|]. by eapply Hi.
  - split; [done|]. by apply Hr.
Qed.

Lemma quiet_next i m t : inv m -> T0 < t <= T1 -> lastLocalModTime m < t ->
  quiet i m (set_last t (Some i) m) /\ rely i m (set_last t (Some i) m) /\ unused m t.
Proof.
  intros Hi Ht Hl.
  assert (taken m !! t = None) as Hn.
  { destruct (taken m !! t) eqn:E; [|done]. apply Hi in E. lia. }
  destruct (quiet_meta i m (set_last t (Some i) m)) as (? & _ & Hr); try done.
  - by apply insert_subseteq.
  - intros t' j. simpl. rewrite lookup_insert_Some. intros [[<- _]|[_ E]]; [lia|]. apply Hi in E. lia.
  - apply Hi.
  - split; [done|]. split; [by apply Hr|]. intros j x Hx Hp <-.
    destruct (inv_published _ Hi _ _ Hx Hp) as [_ [?|E]]; [lia|]. by rewrite E in Hn.
Qed.

Lemma quiet_advance i m t : inv m -> lastLocalModTime m < t ->
  quiet i m (set_last t None m) /\ rely i m (set_last t None m).
Proof.
  intros Hi Hl. destruct (quiet_meta i m (set_last t None m)) as (? & _ & Hr); try done.
  - intros t' j E. simpl. apply Hi in E. lia.
  - apply Hi.
Qed.

Lemma quiet_lock i m : inv m -> mutex m = None ->
  quiet i m (set_mutex (Some i) m) /\ frame i m (set_mutex (Some i) m).
Proof.
  intros Hi Hm. destruct (quiet_meta i m (set_mutex (Some i) m)) as (? & ? & _); try done.
  - apply Hi.
  - apply Hi.
  - intros j _. by rewrite Hm.
Qed.

Lemma quiet_unlock i m : inv m -> mutex m = Some i ->
  quiet i m (set_mutex None m) /\ frame i m (set_mutex None m).
Proof.
  intros Hi Hm. destruct (quiet_meta i m (set_mutex None m)) as (? & ? & _); try done.
  - apply Hi.
  - apply Hi.
  - intros j Hj. rewrite Hm. by intros [= <-].
Qed.

(** A step that changes one name that is not an object's. *)
Lemma quiet_name i m p n : inv m -> (forall k, U k -> tgt k <> p) ->
  (forall q z j, p = tmp q z -> used m !! z = Some j -> j = i) ->
  let m' := set_names (partial_alter (fun _ => n) p (names m)) m in
  quiet i m m' /\ ((forall q z, p <> tmp q z) -> rely i m m').
Proof.
  intros Hi Hk Ht m'.
  assert (forall k, U k -> names m' !! tgt k = names m !! tgt k) as Hnk.
  { intros k HUk. simpl. rewrite lookup_partial_alter_ne; [done|]. intros E. by eapply Hk. }
  assert (forall j, (forall q z, p = tmp q z -> used m !! z <> Some j) -> rely j m m') as Hr.
  { intros j Hj. split; [split|]; try done.
    - intros z q Hz. simpl. rewrite lookup_partial_alter_ne; [done|]. intros E. by eapply Hj.
    - intros Hm. split; [done|]. intros k n' HUk. by rewrite Hnk. }
  split; [split; [|split]|].
  - destruct Hi as [Hf Hp Hta Hu]. split; try done. intros k n' HUk. rewrite Hnk by done. by apply Hf.
  - intros j Hj. apply Hr. intros q z Ep E. by eapply Hj, Ht.
  - split; [|done]. intros k HUk. unfold entry_at. by rewrite Hnk.
  - intros Hnt. apply Hr. intros q z E. by eapply Hnt in E.
Qed.

Lemma quiet_mkdir i m k j : inv m -> U k -> (j < length (tgt k))%nat ->
  let m' := set_names (<[take j (tgt k) := Dir]> (names m)) m in quiet i m m' /\ rely i m m'.
Proof.
  intros Hi Hk Hj m'. destruct (quiet_name i m (take j (tgt k)) (Some Dir)) as [Hq Hr]; [done|..].
  - intros k' Hk' E. by apply (dir_not_tgt k k' j).
  - intros q z ? E. by apply dir_not_tmp in E.
  - split; [done|]. apply Hr. intros q z. by apply dir_not_tmp.
Qed.

Lemma own_temp i j m q q' z z' : inv m -> used m !! z = Some i -> used m !! z' = Some j ->
  tmp q z = tmp q' z' -> j = i.
Proof.
  intros Hi Hz Hz' E. apply tmp_inj in E; [|by eapply Hi..]. subst z'. congruence.
Qed.

Lemma quiet_unlink i m q z : inv m -> used m !! z = Some i ->
  quiet i m (set_names (delete (tmp q z) (names m)) m).
Proof.
  intros Hi Hz. apply (quiet_name i m (tmp q z) None); [done|..].
  - intros k Hk. by apply tgt_not_tmp.
  - intros q' z' j E Hz'. by eapply own_temp.
Qed.

(** Goroutine [i]'s temporary file: not yet an object. *)
Record mine (i : nat) (q : fpath) (z : Z) (ino : nat) (x : inode) (m : machine) : Prop := {
  my_z : used m !! z = Some i;
  my_name : names m !! tmp q z = Some (File ino);
  my_inode : inodes m !! ino = Some x;
  my_creator : icreator x = i;
  my_secret : ipublished x = false;
}.

Lemma mine_stable i q z ino x m m' : frame i m m' -> mine i q z ino x m -> mine i q z ino x m'.
Proof.
  intros [F1 F2 F3 _ _] [M1 M2 M3 M4 M5]. split; [by eapply lookup_weaken| | |done|done].
  - by rewrite F1.
  - apply F3; [done|by left].
Qed.

Lemma quiet_inode i q z ino x x' m : inv m -> mine i q z ino x m ->
  icreator x' = i -> ipublished x' = false ->
  let m' := set_inode ino x' m in quiet i m m' /\ mine i q z ino x' m' /\
    (mutex m = Some i -> mutex m' = Some i /\ names m' = names m) /\
    (forall t, taken m !! t = Some i -> unused m t -> unused m' t).
Proof.
  intros Hi [M1 M2 M3 M4 M5] C5 P5 m'.
  assert (forall j y, j <> ino -> inodes m' !! j = Some y <-> inodes m !! j = Some y) as Hne.
  { intros j y Hj. simpl. by rewrite lookup_insert_ne. }
  assert (forall j y, ipublished y = true -> inodes m' !! j = Some y <-> inodes m !! j = Some y) as Hpub.
  { intros j y Hy. destruct (decide (j = ino)) as [->|Hj]; [|by apply Hne]. simpl.
    rewrite lookup_insert_eq, M3. split; intros [= ->]; congruence. }
  assert (forall t, unused m t -> unused m' t) as Hun.
  { intros t Hu j y Hy Hp. eapply Hu; [by apply Hpub|done]. }
  destruct Hi as [Hf Hp Hta Hu].
  split; [split; [|split]|split; [|by eauto]].
  - split; [|intros j y Hy Hyp; by apply (Hp j y); [apply Hpub|]|done|done].
    intros k n Hk Hn. destruct (Hf k n Hk Hn) as (j & y & -> & Hy & Hyp). exists j, y.
    by rewrite Hpub.
  - intros j Hj. split; [split|]; try done; [|by eauto].
    intros j' y Hy [Hc|Hyp]; [|by apply Hpub]. apply Hne; [|done]. intros ->. simplify_eq.
  - split; [|done]. intros k Hk. unfold entry_at. change (names m') with (names m).
    destruct (names m !! tgt k) as [[|j]|] eqn:En; [done| |done].
    destruct (Hf k _ Hk En) as (j' & y & [= <-] & Hy & Hyp). by rewrite Hy, (proj2 (Hpub j y Hyp) Hy).
  - split; try done. simpl. by rewrite lookup_insert_eq.
Qed.

Lemma quiet_create i q z m b : inv m -> used m !! z = Some i ->
  let ino := fresh (dom (inodes m)) in let x := MkInode [] b i false in
  let m' := set_inode ino x (set_names (<[tmp q z := File ino]> (names m)) m) in
  quiet i m m' /\ mine i q z ino x m'.
Proof.
  intros Hi Hz ino x m'.
  destruct (quiet_name i m (tmp q z) (Some (File ino)) Hi) as [Hq _].
  { intros k Hk. by apply tgt_not_tmp. }
  { intros q' z' j E Hz'. by eapply own_temp. }
  set (m1 := set_names (partial_alter (fun _ => Some (File ino)) (tmp q z) (names m)) m) in *.
  assert (inodes m !! ino = None) as Hno by (apply not_elem_of_dom, is_fresh).
  split; [|by split; simpl; rewrite ?lookup_insert_eq].
  destruct Hq as ([Hf Hp Hta Hu] & Hr & Hs & _).
  assert (forall j y, inodes m !! j = Some y -> inodes m' !! j = Some y) as Hold.
  { intros j y Hy. simpl. rewrite lookup_insert_ne; [done|]. intros ->. congruence. }
  assert (forall j y, inodes m' !! j = Some y -> ipublished y = true -> inodes m !! j = Some y) as Hback.
  { intros j y. simpl. rewrite lookup_insert_Some. intros [[_ <-]|[_ ?]]; done. }
  split; [|split; [|split; [|done]]].
  - split; [|by eauto|done|done]. intros k n Hk Hn.
    destruct (Hf k n Hk Hn) as (j & y & -> & Hy & Hyp). exists j, y. eauto.
  - intros j Hj. destruct (Hr j Hj) as [[R1 R2 R3 R4 R5] R6]. split; [split|]; try done; [by eauto|].
    intros t Ht Hun j' y Hy Hyp. eapply Hun; [by eapply Hback|done].
  - intros k Hk. specialize (Hs k Hk). unfold entry_at in *. change (names m') with (names m1).
    rewrite <-Hs. destruct (names m1 !! tgt k) as [[|j]|] eqn:En; [done| |done].
    destruct (Hf k _ Hk En) as (j' & y & [= <-] & Hy & Hyp). change (inodes m !! j = Some y) in Hy.
    change (inodes m1) with (inodes m). by rewrite (Hold _ _ Hy), Hy.
Qed.

(** ** Steps that objects show *)

(** The temporary file becomes object [k]: by a link, which needs the name to
    be free, or by a rename under the lock, after which the temporary name is
    gone. *)
Lemma publish_step i q z ino x m k ns : inv m -> U k -> mine i q z ino x m -> slice_len (idata x) ->
  taken m !! imtime x = Some i -> unused m (imtime x) ->
  names m !! tgt k = None \/ mutex m = Some i ->
  ns !! tgt k = Some (File ino) -> (forall p, p <> tgt k -> p <> tmp q z -> ns !! p = names m !! p) ->
  let m' := set_inode ino (publish x) (set_names ns m) in
  inv m' /\ (forall j, j <> i -> rely j m m') /\ atoms m' = atoms m /\ ~ unused m' (imtime x) /\
  entry_at m' k = Some (entry_of x) /\ (forall k', U k' -> k' <> k -> entry_at m' k' = entry_at m k').
Proof.
  intros Hi HUk [M1 M2 M3 M4 M5] Hlen Htk Hun Hfree Hns Hother m'.
  assert (inodes m' !! ino = Some (publish x)) as Hino by (simpl; by rewrite lookup_insert_eq).
  assert (forall j y, j <> ino -> inodes m' !! j = Some y <-> inodes m !! j = Some y) as Hne.
  { intros j y Hj. simpl. by rewrite lookup_insert_ne. }
  assert (forall k', U k' -> k' <> k -> names m' !! tgt k' = names m !! tgt k') as Hnk.
  { intros k' Hk' Hkk. apply Hother; [by intros ?%tgt_inj|by apply tgt_not_tmp]. }
  assert (forall k' j, U k' -> names m !! tgt k' = Some (File j) -> j <> ino /\ inodes m' !! j = inodes m !! j) as Hino'.
  { intros k' j Hk' Hj. destruct (inv_file _ Hi _ _ Hk' Hj) as (j' & y & [= <-] & Hy & Hyp).
    assert (j <> ino) as Hji by (intros ->; congruence). split; [done|]. rewrite Hy. by apply Hne. }
  split_and!.
  - split.
    + intros k' n Hk' Hn. destruct (decide (k' = k)) as [->|Hkk].
      * change (ns !! tgt k = Some n) in Hn. rewrite Hns in Hn. injection Hn as <-. eauto.
      * rewrite Hnk in Hn by done. destruct (inv_file _ Hi _ _ Hk' Hn) as (j & y & -> & Hy & Hyp).
        exists j, y. destruct (Hino' k' j Hk' Hn) as [_ ->]. done.
    + intros j y Hy Hyp. destruct (decide (j = ino)) as [->|Hj].
      * rewrite Hino in Hy. injection Hy as <-. split; [done|]. right. simpl. by rewrite M4.
      * apply (inv_published _ Hi j); [by apply Hne|done].
    + apply (inv_taken _ Hi).
    + apply (inv_used _ Hi).
  - intros j Hj. split; [split|]; try done.
    + intros z' q' Hz'. apply Hother; [apply not_eq_sym; by apply tgt_not_tmp|].
      intros E. apply Hj. symmetry. by eapply (own_temp j i).
    + intros j' y Hy Hc. apply Hne; [|done]. intros ->. rewrite M3 in Hy. injection Hy as <-.
      destruct Hc; congruence.
    + intros t Ht Hu j' y Hy Hyp. destruct (decide (j' = ino)) as [->|Hj'].
      * rewrite Hino in Hy. injection Hy as <-. simpl. congruence.
      * eapply Hu; [by apply Hne|done].
    + intros Hm. split; [done|]. intros k' n Hk' Hn. destruct (decide (k' = k)) as [->|Hkk].
      * destruct Hfree as [E|E]; congruence.
      * by rewrite Hnk.
  - done.
  - intros Hu. by apply (Hu ino (publish x) Hino).
  - unfold entry_at. change (names m') with ns. by rewrite Hns, Hino.
  - intros k' Hk' Hkk. unfold entry_at. rewrite Hnk by done.
    destruct (names m !! tgt k') as [[|j]|] eqn:En; [done| |done]. by destruct (Hino' k' j Hk' En) as [_ ->].
Qed.

(** Object [k] is removed, under the lock. *)
Lemma unlink_step i m k : inv m -> U k -> mutex m = Some i ->
  let m' := set_names (delete (tgt k) (names m)) m in
  inv m' /\ (forall j, j <> i -> rely j m m') /\ atoms m' = atoms m /\
  entry_at m' k = None /\ (forall k', U k' -> k' <> k -> entry_at m' k' = entry_at m k').
Proof.
  intros Hi HUk Hm m'.
  assert (forall k', k' <> k -> names m' !! tgt k' = names m !! tgt k') as Hnk.
  { intros k' Hkk. simpl. rewrite lookup_delete_ne; [done|]. by intros ?%tgt_inj. }
  assert (names m' !! tgt k = None) as Hk by (simpl; by rewrite lookup_delete_eq).
  split_and!.
  - destruct Hi as [Hf Hp Hta Hu]. split; try done. intros k' n Hk' Hn.
    destruct (decide (k' = k)) as [->|Hkk]; [congruence|]. rewrite Hnk in Hn by done. by eapply Hf.
  - intros j Hj. split; [split|]; try done; [|intros Hm'; congruence].
    intros z q _. simpl. rewrite lookup_delete_ne; [done|]. by apply tgt_not_tmp.
  - done.
  - unfold entry_at. by rewrite Hk.
  - intros k' _ Hkk. unfold entry_at. by rewrite Hnk.
Qed.

(** ** Linearization

    The atomic store makes the call [o] with result [x] between the objects
    [ob] and [ob']; a write that takes effect uses up the time [ot]. *)
Definition lin {X} (o : op X) (ob : gmap string entry) (c : gmap nat Z) (ot : option Z) (x : X)
    (ob' : gmap string entry) (c' : gmap nat Z) : Prop :=
  forall sup h, exists h', fstep true o
    (MkWorld (MkIdeal ob (from_option (fun t => t :: sup) sup ot) h) c) x
    (MkWorld (MkIdeal ob' sup h') c').

(** It makes it between two machine states, with any of the results [P]. *)
Definition lins {X} (o : op X) (m1 : machine) (ot : option Z) (P : X -> Prop) (m2 : machine) : Prop :=
  (exists x, P x) /\
  match ot with None => True | Some t => T0 < t <= T1 /\ unused m1 t /\ ~ unused m2 t end /\
  forall ob, rep m1 ob -> exists ob', rep m2 ob' /\
    forall x, P x -> lin o ob (atoms m1) ot x ob' (atoms m2).

(** The program [p] of goroutine [i] performs the call [o].  [dec] is [None]
    until the step at which [o] takes effect, and then the set of its
    possible results. *)
Fixpoint opsim {X Y} (i : nat) (o : op X) (p : proc Y) (dec : option (X -> Prop))
    (Post : Y -> option (X -> Prop) -> machine -> Prop) (m : machine) : Prop :=
  match p with
  | Done y => Post y dec m
  | Sys s k => forall m1 c x m2, rely i m m1 -> inv m1 -> kernel_ok T0 T1 c s m1 ->
      sysexec i c s m1 = Some (x, m2) ->
      inv m2 /\ (forall j, j <> i -> rely j m1 m2) /\
      (same_objects m1 m2 /\ opsim i o (k x) dec Post m2 \/
       dec = None /\ exists P ot, lins o m1 ot P m2 /\ opsim i o (k x) (Some P) Post m2)
  end.

(** At the end the result is one of those; a call that has had no effect can
    only fail. *)
Definition final {X} (o : op X) (x : X) (dec : option (X -> Prop)) (m : machine) : Prop :=
  match dec with Some P => P x | None => forall ob c, lin o ob c None x ob c end.

Lemma opsim_bind {X Y Z} i (o : op X) (p : proc Y) (f : Y -> proc Z) dec Post Post' m :
  opsim i o p dec Post m ->
  (forall y dec' m', Post y dec' m' -> opsim i o (f y) dec' Post' m') ->
  opsim i o (proc_bind p f) dec Post' m.
Proof.
  intros Hp Hf. revert dec m Hp. induction p as [y|W s k IH]; intros dec m Hp; cbn; [by apply Hf|].
  intros m1 c x m2 HR HI Hk E. destruct (Hp m1 c x m2 HR HI Hk E) as (HI2 & HR2 & Hc).
  split; [done|]. split; [done|]. destruct Hc as [[Hs Hc]|[-> (P & ot & Hl & Hc)]].
  - left. split; [done|]. by apply IH.
  - right. split; [done|]. exists P, ot. split; [done|]. by apply IH.
Qed.

Lemma opsim_mono {X Y} i (o : op X) (p : proc Y) dec Post m m' :
  (forall y dec, Post y dec m -> Post y dec m') -> rely i m m' -> opsim i o p dec Post m -> opsim i o p dec Post m'.
Proof.
  intros HP HR. destruct p as [y|W s k]; cbn; [apply HP|]. intros Hp m1 c x m2 HR1.
  apply Hp. by etrans.
Qed.

(** Programs no step of which an object shows. *)
Fixpoint silent {Y} (i : nat) (p : proc Y) (P : Y -> machine -> Prop) (m : machine) : Prop :=
  match p with
  | Done y => P y m
  | Sys s k => forall m1 c x m2, rely i m m1 -> inv m1 -> kernel_ok T0 T1 c s m1 ->
      sysexec i c s m1 = Some (x, m2) -> quiet i m1 m2 /\ silent i (k x) P m2
  end.

Lemma silent_opsim {X Y Z} i (o : op X) (p : proc Y) (f : Y -> proc Z) dec P Post m :
  silent i p P m -> (forall y m', P y m' -> opsim i o (f y) dec Post m') ->
  opsim i o (proc_bind p f) dec Post m.
Proof.
  intros Hp Hf. revert m Hp. induction p as [y|W s k IH]; intros m Hp; cbn; [by apply Hf|].
  intros m1 c x m2 HR HI Hk E. destruct (Hp m1 c x m2 HR HI Hk E) as [(HI2 & HR2 & Hs) Hc].
  split; [done|]. split; [done|]. left. split; [done|]. by apply IH.
Qed.

Lemma silent_bind {Y Z} i (p : proc Y) (f : Y -> proc Z) P Q m :
  silent i p P m -> (forall y m', P y m' -> silent i (f y) Q m') -> silent i (proc_bind p f) Q m.
Proof.
  intros Hp Hf. revert m Hp. induction p as [y|W s k IH]; intros m Hp; cbn; [by apply Hf|].
  intros m1 c x m2 HR HI Hk E. destruct (Hp m1 c x m2 HR HI Hk E) as [Hq Hc]. split; [done|]. by apply IH.
Qed.

Lemma silent_weaken {Y} i (p : proc Y) (P Q : Y -> machine -> Prop) m :
  silent i p P m -> (forall y m', P y m' -> Q y m') -> silent i p Q m.
Proof.
  intros Hp HPQ. revert m Hp. induction p as [y|W s k IH]; intros m Hp; cbn; [by apply HPQ|].
  intros m1 c x m2 HR HI Hk E. destruct (Hp m1 c x m2 HR HI Hk E) as [Hq Hc]. split; [done|]. by apply IH.
Qed.

(** *** The helpers of the store *)

(** Calls that change nothing. *)
Definition pure_call {X} (s : sys X) : Prop := forall i c m x m', sysexec i c s m = Some (x, m') -> m' = m.

Lemma silent_pure {X} i (s : sys X) m : pure_call s ->
  silent i (sys_ s) (fun x m' => rely i m m' /\ inv m' /\ errs s x /\
    exists c, kernel_ok T0 T1 c s m' /\ sysexec i c s m' = Some (x, m')) m.
Proof.
  intros Hs m1 c x m2 HR HI Hk E. pose proof (Hs _ _ _ _ _ E) as ->.
  split; [by apply quiet_refl|]. cbn. split; [done|]. split; [done|].
  split; [by eapply sysexec_errs|]. by exists c.
Qed.

Lemma pure_calls : (forall p, pure_call (SStat p)) /\ (forall p, pure_call (SOpen p)) /\
  (forall f, pure_call (SFstat f)) /\ (forall f, pure_call (SRead f)) /\ pure_call SClose /\
  pure_call SFlock /\ pure_call SNow /\ pure_call SLast /\ pure_call SCtxErr.
Proof. split_and!; intros; intros i [z|w] m x m' E; cbn in E; simplify_option_eq; done. Qed.

Lemma silent_next i n m : silent i (nextLocalModTime n) (fun t m' => rely i m m' /\
  T0 < t <= T1 /\ taken m' !! t = Some i /\ unused m' t) m.
Proof.
  revert m. induction n as [|n IH]; intros m; cbn [nextLocalModTime].
  { intros m1 [z|w] x m2 _ _ _ E; done. }
  eapply silent_bind; [by apply silent_pure, pure_calls|].
  intros now m1 (HR1 & _ & _ & [z|w] & Hz & E); [|done]. cbn in E, Hz. injection E as ->.
  eapply silent_bind; [by apply silent_pure, pure_calls|].
  intros last m2 (HR2 & HI2 & _ & [z'|w] & Hz' & E); [|done]. cbn in E, Hz'. injection E as <-.
  set (t := if decide _ then _ else _).
  assert (lastLocalModTime m2 < t /\ T0 < t <= T1) as [Hl Ht].
  { subst t. case_decide; [|lia]. rewrite i64_small; [lia|]. lia. }
  clearbody t. intros m3 [z2|w] x m4 HR3 HI3 _ E; [|done]. cbn in E. injection E as E.
  case_decide as Hd; injection E as <- <-.
  - destruct (quiet_next i m3 t HI3 Ht ltac:(lia)) as (Hq & Hr & Hu). split; [done|]. cbn.
    split; [by do 3 (etrans; [eassumption|])|]. split; [done|]. split; [by rewrite lookup_insert_eq|].
    done.
  - split; [by apply quiet_refl|]. eapply silent_weaken; [apply IH|]. intros t' m' (? & ?).
    split; [|done]. by do 3 (etrans; [eassumption|]).
Qed.

Lemma silent_advance i n ns m : silent i (advanceLocalModTime n ns) (fun _ m' => rely i m m') m.
Proof.
  revert m. induction n as [|n IH]; intros m; cbn [advanceLocalModTime].
  { intros m1 [z|w] x m2 _ _ _ E; done. }
  eapply silent_bind; [by apply silent_pure, pure_calls|].
  intros last m1 (HR1 & HI1 & _ & [z|w] & _ & E); [|done]. cbn in E. injection E as <-.
  case_decide as Hl; [done|]. intros m3 [z2|w] x m4 HR3 HI3 _ E; [|done]. cbn in E. injection E as E.
  case_decide as Hd; injection E as <- <-.
  - destruct (quiet_advance i m3 ns HI3 ltac:(lia)) as (Hq & Hr). split; [done|]. cbn.
    by do 2 (etrans; [eassumption|]).
  - split; [by apply quiet_refl|]. eapply silent_weaken; [apply IH|]. intros ? m' ?.
    by do 2 (etrans; [eassumption|]).
Qed.

Lemma silent_lock i m : silent i (lock (dir d)) (fun _ m' => frame i m m' /\ mutex m' = Some i) m.
Proof.
  unfold lock. eapply (silent_bind _ _ _ (fun _ m' => frame i m m' /\ mutex m' = Some i)).
  { intros m1 [z|w] x m2 HR HI _ E; [|done]. cbn in E. destruct (mutex m1) eqn:Em; [done|].
    injection E as <- <-. destruct (quiet_lock i m1 HI Em) as [Hq Hf]. split; [done|]. cbn.
    split; [|done]. etrans; [apply HR|done]. }
  assert (forall (X : Type) (s : sys X) m', pure_call s -> frame i m m' /\ mutex m' = Some i ->
    silent i (sys_ s) (fun _ m' => frame i m m' /\ mutex m' = Some i) m') as Hpure.
  { intros X s m' Hs [Hf Hm]. eapply silent_weaken; [by apply silent_pure|].
    intros x m2 (HR & _). destruct (r_lock _ _ _ HR Hm) as [? _]. split; [|done]. etrans; [done|apply HR]. }
  intros _ m1 H1. eapply silent_bind; [by apply Hpure; [apply pure_calls|]|].
  intros [f|e] m2 H2; [|done]. eapply silent_bind; [by apply Hpure; [apply pure_calls|]|].
  intros [u|e] m3 H3; [done|]. eapply silent_bind; [by apply Hpure; [apply pure_calls|]|]. done.
Qed.

Lemma silent_unlock i b m : mutex m = Some i -> silent i (unlock b) (fun _ m' => frame i m m') m.
Proof.
  assert (forall m, mutex m = Some i -> silent i (sys_ SUnlock) (fun _ m' => frame i m m') m) as Hun.
  { intros m0 Hm m1 [z|w] x m2 HR HI _ E; [|done]. cbn in E. injection E as <- <-.
    destruct (r_lock _ _ _ HR Hm) as [Hm1 _]. destruct (quiet_unlock i m1 HI Hm1) as [Hq Hf].
    split; [done|]. cbn. etrans; [apply HR|done]. }
  intros Hm. destruct b; [|by apply Hun]. unfold unlock.
  eapply silent_bind; [by apply silent_pure, pure_calls|]. intros r1 m1 (HR1 & _).
  eapply silent_bind; [by apply silent_pure, pure_calls|]. intros r2 m2 (HR2 & _).
  destruct (r_lock _ _ _ HR1 Hm) as [Hm1 _]. destruct (r_lock _ _ _ HR2 Hm1) as [Hm2 _].
  eapply silent_weaken; [by apply Hun|]. intros ? m' Hf. cbn.
  etrans; [apply HR1|]. etrans; [apply HR2|done].
Qed.

Lemma take_reverse_parent {A} (l : list A) j x rp : reverse (x :: rp) = take j l ->
  exists j', (j' <= j)%nat /\ reverse rp = take j' l.
Proof.
  intros E. rewrite reverse_cons in E. exists (length rp). split.
  - apply (f_equal length) in E. rewrite length_app, length_reverse, length_take in E. simpl in E. lia.
  - assert (length rp < j)%nat as Hj.
    { apply (f_equal length) in E. rewrite length_app, length_reverse, length_take in E. simpl in E. lia. }
    apply (f_equal (take (length rp))) in E. rewrite take_take, Nat.min_l in E by lia.
    by rewrite <-E, take_app_length' by (by rewrite length_reverse).
Qed.

Lemma silent_mkdir_one i k j m : U k -> (j < length (tgt k))%nat ->
  silent i (mkdir_one (take j (tgt k))) (fun r m' => rely i m m' /\ err_transient r) m.
Proof.
  intros Hk Hj. eapply (silent_bind _ _ _ (fun r m' => rely i m m' /\ err_transient r)).
  - intros m3 c x m4 HR3 HI3 _ E. pose proof (sysexec_errs _ _ _ _ _ _ E) as Hx.
    assert (quiet i m3 m4 /\ rely i m3 m4) as [Hq Hr].
    { destruct c as [z|w]; cbn in E; [|by simplify_eq].
      destruct (vacant _ _); simplify_eq; [by apply quiet_mkdir|done]. }
    split; [done|]. cbn. split; [by etrans|done].
  - intros [u'|e'] m3 [HR3 He3]; [done|]. eapply silent_bind; [by apply silent_pure, pure_calls|].
    intros [fi|e2] m4 (HR4 & _); (split; [by etrans|]); [by destruct (IsDir fi)|done].
Qed.

Lemma silent_mkdir_all i k rp j m : U k -> (j < length (tgt k))%nat -> reverse rp = take j (tgt k) ->
  silent i (mkdir_all rp) (fun r m' => rely i m m' /\ err_transient r) m.
Proof.
  intros Hk. revert j m. induction rp as [|w rp IH]; intros j m Hj Hrp; cbn [mkdir_all];
    (eapply silent_bind; [by apply silent_pure, pure_calls|]); intros [fi|e] m1 (HR1 & _ & He & _);
    try (cbn; split; [done|by destruct (IsDir fi)]);
    (eapply (silent_bind _ _ _ (fun r m' => rely i m m' /\ err_transient r));
     [|intros [u|e'] m2 [HR2 He2]; [|done]; rewrite Hrp; eapply silent_weaken; [by apply silent_mkdir_one|];
       intros r m3 [? ?]; split; [by etrans|done]]).
  - done.
  - destruct (take_reverse_parent _ _ _ _ Hrp) as (j' & Hj' & Hrp').
    eapply silent_weaken; [apply (IH j'); [lia|done]|]. intros r m2 [? ?]. split; [by etrans|done].
Qed.

(** The directory of object [k], below the store's. *)
Definition updir (k : string) : fpath := take (pred (length (split_on slash k))) (split_on slash k).

Lemma parent_tgt k : parent (tgt k) = dir d ++ updir k /\
  parent (tgt k) = take (pred (length (tgt k))) (tgt k) /\ (pred (length (tgt k)) < length (tgt k))%nat.
Proof.
  assert (0 < length (split_on slash k))%nat as Hne.
  { pose proof (split_on_nonempty slash k). destruct (split_on slash k); simpl; [done|lia]. }
  unfold parent, updir, tgt. rewrite length_app. split; [|split; [done|lia]].
  rewrite take_app_ge by lia. do 2 f_equal. lia.
Qed.

Lemma silent_CreateTemp i q tries m :
  silent i (CreateTemp tries (dir d ++ q)) (fun r m' =>
    match r with
    | Ok (ino, tp) => exists z x, tp = tmp q z /\ mine i q z ino x m' /\ idata x = []
    | Err e => transient e
    end) m.
Proof.
  revert m. induction tries as [|tries IH]; intros m; cbn [CreateTemp]; [done|].
  eapply (silent_bind _ _ _ (fun z m' => used m' !! z = Some i)).
  { intros m1 [z|w] x m2 HR HI Hk E; [|done]. cbn in E, Hk. injection E as <- <-.
    destruct (quiet_random i m1 z HI) as [Hq _]; [apply Hk..|]. split; [done|]. cbn. by rewrite lookup_insert_eq. }
  intros z m1 Hz. rewrite <-app_assoc. change (dir d ++ q ++ [temp_name z]) with (tmp q z).
  eapply (silent_bind _ _ _ (fun r m' => match r with
    | Ok ino => exists x, mine i q z ino x m' /\ idata x = [] | Err e => transient e end)).
  - intros m2 c x m3 HR HI Hk E. pose proof (sysexec_errs _ _ _ _ _ _ E) as Hx.
    assert (used m2 !! z = Some i) as Hz2 by (eapply lookup_weaken; [done|apply HR]).
    destruct c as [b|w]; cbn in E; [|by simplify_eq]. destruct (vacant _ _) as [u|e]; simplify_eq; [|done].
    destruct (quiet_create i q z m2 b HI Hz2) as [Hq Hm]. split; [done|]. cbn. eexists. by split.
  - intros [ino|e] m2 H2; [destruct H2 as (x & Hm & Hx); exists z, x; done|].
    destruct (IsExist e); [apply IH|done].
Qed.

Lemma silent_copy i q z ino x r m : mine i q z ino x m -> idata x = [] ->
  silent i (copy_temp ino r) (fun y m' => used m' !! z = Some i /\
    match y with
    | Ok _ => exists x', mine i q z ino x' m' /\ idata x' = content r
    | Err e => transient e \/ readErr r = Some e
    end) m.
Proof.
  intros Hm Hx. eapply (silent_bind _ _ _ (fun y m' => used m' !! z = Some i /\
    match y with Ok _ => exists x', mine i q z ino x' m' /\ idata x' = content r | Err e => transient e end)).
  - intros m1 c y m2 HR HI _ E. pose proof (sysexec_errs _ _ _ _ _ _ E) as Hy.
    pose proof (mine_stable _ _ _ _ _ _ _ (r_frame _ _ _ HR) Hm) as Hm1. pose proof Hm1 as [M1 M2 M3 M4 M5].
    destruct c as [b|w]; cbn in E; [|by simplify_eq]. rewrite M3, Hx in E. simplify_eq.
    destruct (quiet_inode (icreator x) q z ino x (MkInode (content r) b (icreator x) (ipublished x)) m1)
      as (Hq & Hm2 & _); [done..|]. split; [done|]. cbn. split; [apply Hm2|]. by eexists.
  - assert (forall m', used m' !! z = Some i -> silent i (sys_ SClose) (fun y m' => used m' !! z = Some i /\ err_transient y) m') as Hcl.
    { intros m' Hz. eapply silent_weaken; [by apply silent_pure, pure_calls|]. intros y m2 (HR & _ & He & _).
      split; [|done]. eapply lookup_weaken; [done|apply HR]. }
    intros [u|e] m1 [Hz H1].
    + destruct (readErr r) as [e|] eqn:Er.
      * eapply silent_bind; [by apply Hcl|]. intros y m2 [? _]. cbn. auto.
      * eapply silent_weaken; [by apply silent_pure, pure_calls|]. intros y m2 (HR & _ & He & _).
        split; [eapply lookup_weaken; [done|apply HR]|]. destruct y; [|by left].
        destruct H1 as (x' & Hx' & ?). exists x'. split; [|done]. eapply mine_stable; [apply HR|done].
    + eapply silent_bind; [by apply Hcl|]. intros y m2 [? _]. cbn. auto.
Qed.

(** *** Effects *)

(** A call that fails and has no effect. *)
Lemma lin_fail ob c e : transient e ->
  (forall k, lin (OStat k) ob c None (Err e) ob c) /\ (forall k, lin (OGet k) ob c None (Err e) ob c) /\
  (forall k dt cond, lin (OPut k dt cond) ob c None (Err e) ob c) /\
  (forall k, lin (ODelete k) ob c None (Err e) ob c) /\ (forall k, lin (OExists k) ob c None (Err e) ob c).
Proof. intros He. split_and!; intros; intros sup h; exists h; right; (split; [done|]); cbn; eauto 6. Qed.

Lemma find_cases m k : inv m -> U k ->
  (find m (tgt k) = Err ENOTDIR \/ find m (tgt k) = Err ENOENT) /\ names m !! tgt k = None \/
  exists j y, find m (tgt k) = Ok (File j) /\ names m !! tgt k = Some (File j) /\
    inodes m !! j = Some y /\ ipublished y = true.
Proof.
  intros HI Hk. unfold find. destruct (names m !! tgt k) as [n|] eqn:En.
  - right. destruct (inv_file _ HI _ _ Hk En) as (j & y & -> & Hy & Hp). eauto 8.
  - left. split; [|done]. case_match; auto.
Qed.

Definition file_info (y : inode) : FileInfo := MkInfo false (imtime y) (Z.of_nat (length (idata y))).

(** What [os.Stat] and [os.Open] say of an object. *)
Definition object_file (m : machine) (k : string) (j : nat) (y : inode) : Prop :=
  names m !! tgt k = Some (File j) /\ inodes m !! j = Some y /\ ipublished y = true.

Lemma object_entry m k j y : object_file m k j y -> entry_at m k = Some (entry_of y).
Proof. intros (Hn & Hy & _). unfold entry_at. by rewrite Hn, Hy. Qed.

Lemma stat_cases i c m k x m2 : inv m -> U k -> kernel_ok T0 T1 c (SStat (tgt k)) m ->
  sysexec i c (SStat (tgt k)) m = Some (x, m2) -> m2 = m /\
  ((exists e, x = Err e /\ transient e /\ IsNotExist e = false) \/
   x = Err ENOENT /\ names m !! tgt k = None \/
   exists j y, object_file m k j y /\ x = Ok (file_info y)).
Proof.
  intros HI Hk Hc E. destruct c as [z|w]; cbn in E, Hc.
  - injection E as <- <-. split; [done|].
    destruct (find_cases m k HI Hk) as [[[-> | ->] Hn]|(j & y & -> & Hn & Hy & Hp)].
    + left. by exists ENOTDIR.
    + by right; left.
    + right. right. exists j, y. cbn. by rewrite Hy.
  - injection E as <- <-. split; [done|]. left. eexists. split; [done|]. split; [done|].
    apply bool_decide_eq_false_2. by destruct Hc.
Qed.

Lemma open_cases i c m k x m2 : inv m -> U k -> kernel_ok T0 T1 c (SOpen (tgt k)) m ->
  sysexec i c (SOpen (tgt k)) m = Some (x, m2) -> m2 = m /\
  ((exists e, x = Err e /\ transient e /\ IsNotExist e = false) \/
   x = Err ENOENT /\ names m !! tgt k = None \/
   exists j y, object_file m k j y /\ x = Ok (Some j)).
Proof.
  intros HI Hk Hc E. destruct c as [z|w]; cbn in E, Hc.
  - injection E as <- <-. split; [done|].
    destruct (find_cases m k HI Hk) as [[[-> | ->] Hn]|(j & y & -> & Hn & Hy & Hp)].
    + left. by exists ENOTDIR.
    + by right; left.
    + right. right. by exists j, y.
  - injection E as <- <-. split; [done|]. left. eexists. split; [done|]. split; [done|].
    apply bool_decide_eq_false_2. by destruct Hc.
Qed.

Lemma notFound_other e : IsNotExist e = false -> notFound e = e.
Proof. unfold notFound. by intros ->. Qed.

(** A read that takes effect now. *)
Lemma lins_read {X} (o : op X) m (P : X -> Prop) : (exists x, P x) ->
  (forall ob sup h x, rep m ob -> P x -> fstep true o (MkWorld (MkIdeal ob sup h) (atoms m)) x
     (MkWorld (MkIdeal ob sup h) (atoms m))) -> lins o m None P m.
Proof.
  intros Hex H. split; [done|]. split; [done|]. intros ob Hob. exists ob. split; [done|].
  intros x Hx sup h. exists h. by apply H.
Qed.

Ltac step_read := split; [done|]; split; [done|].

(** The context's error comes first. *)
Lemma opsim_ctx {X Y} i (o : op X) (f : option error -> proc Y) Post m :
  (forall m', rely i m m' -> opsim i o (f None) None Post m') ->
  (forall e m', rely i m m' -> transient e -> opsim i o (f (Some e)) None Post m') ->
  opsim i o (proc_bind (sys_ SCtxErr) f) None Post m.
Proof.
  intros H0 He. eapply silent_opsim; [by apply silent_pure, pure_calls|].
  intros [e|] m' (HR & _ & Hx & _); [apply He; [done|by apply Hx]|by apply H0].
Qed.

Lemma opsim_Stat i k m : U k -> opsim i (OStat k) (Stat d k) None (final (OStat k)) m.
Proof.
  intros Hk. apply opsim_ctx; [|intros e m' _ He; cbn; intros ob c; by apply lin_fail].
  intros m0 _. rewrite path_plain by auto. fold (tgt k).
  intros m1 c x m2 HR HI Hc E. destruct (stat_cases _ _ _ _ _ _ HI Hk Hc E) as (-> & Hx). step_read.
  destruct Hx as [(e & -> & He & Hne)|[[-> Hn]|(j & y & Hf & ->)]].
  - left. split; [done|]. cbn. rewrite notFound_other by done. intros ob c'. by apply lin_fail.
  - right. split; [done|]. exists (eq (Err ErrNotFound)), None. split; [|done].
    apply lins_read; [by eexists|]. intros ob sup h x [Hr _] <-. left. cbn. unfold Mem.Stat. cbn.
    rewrite Hr by done. unfold entry_at. by rewrite Hn.
  - right. split; [done|]. exists (eq (Ok (object_of k (entry_of y)))), None. split; [|done].
    apply lins_read; [by eexists|]. intros ob sup h x [Hr _] <-. left. cbn. unfold Mem.Stat. cbn.
    by rewrite Hr, (object_entry _ _ _ _ Hf) by done.
Qed.

Lemma opsim_Exists i k m : U k -> opsim i (OExists k) (Exists d k) None (final (OExists k)) m.
Proof.
  intros Hk. apply opsim_ctx; [|intros e m' _ He; cbn; intros ob c; by apply lin_fail].
  intros m0 _. rewrite path_plain by auto. fold (tgt k).
  intros m1 c x m2 HR HI Hc E. destruct (stat_cases _ _ _ _ _ _ HI Hk Hc E) as (-> & Hx). step_read.
  destruct Hx as [(e & -> & He & Hne)|[[-> Hn]|(j & y & Hf & ->)]].
  - left. split; [done|]. cbn. rewrite Hne. intros ob c'. by apply lin_fail.
  - right. split; [done|]. exists (eq (Ok false)), None. split; [|done].
    apply lins_read; [by eexists|]. intros ob sup h x [Hr _] <-. left. cbn.
    rewrite Hr by done. unfold entry_at. by rewrite Hn.
  - right. split; [done|]. exists (eq (Ok true)), None. split; [|done].
    apply lins_read; [by eexists|]. intros ob sup h x [Hr _] <-. left. cbn.
    by rewrite Hr, (object_entry _ _ _ _ Hf) by done.
Qed.

(** A [Get] takes effect when it opens the file; whether it can then be read
    is seen later. *)
Definition got (k : string) (y : inode) (r : res (list byte * Object)) : Prop :=
  r = Ok (idata y, object_of k (entry_of y)) \/ exists e, transient e /\ r = Err e.

Definition opened (k : string) (j : nat) (y : inode) (dec : option (res (list byte * Object) -> Prop))
    (m : machine) : Prop :=
  inodes m !! j = Some y /\ ipublished y = true /\ dec = Some (got k y).

Lemma opened_stable i k j y dec m m' : rely i m m' -> opened k j y dec m -> opened k j y dec m'.
Proof. intros HR (H1 & H2 & H3). split; [|done]. apply HR; [done|by right]. Qed.

Lemma opsim_open i k m : U k -> opsim i (OGet k) (open_ d k) None (fun r dec m' =>
  match r with
  | Ok (f, fi) => exists j y, f = Some j /\ fi = file_info y /\ opened k j y dec m'
  | Err e => final (OGet k) (Err e) dec m'
  end) m.
Proof.
  intros Hk. unfold open_. rewrite path_plain by auto. fold (tgt k).
  intros m1 c x m2 HR HI Hc E. destruct (open_cases _ _ _ _ _ _ HI Hk Hc E) as (-> & Hx). step_read.
  destruct Hx as [(e & -> & He & Hne)|[[-> Hn]|(j & y & Hf & ->)]].
  - left. split; [done|]. cbn. rewrite notFound_other by done. intros ob c'. by apply lin_fail.
  - right. split; [done|]. exists (eq (Err ErrNotFound)), None. split; [|done].
    apply lins_read; [by eexists|]. intros ob sup h x [Hr _] <-. left. cbn. unfold Mem.Get. cbn.
    rewrite Hr by done. unfold entry_at. by rewrite Hn.
  - right. split; [done|]. exists (got k y), None. split.
    + apply lins_read; [by eexists; left|]. intros ob sup h x [Hr _] [->|(e & He & ->)].
      * left. cbn. unfold Mem.Get. cbn. by rewrite Hr, (object_entry _ _ _ _ Hf) by done.
      * right. split; [done|]. cbn. eauto.
    + assert (opened k j y (Some (got k y)) m1) as Ho by (destruct Hf as (_ & ? & ?); done).
      cbn [proc_mbind proc_bind]. eapply silent_opsim; [by apply silent_pure, pure_calls|].
      intros r m3 (HR3 & _ & He & c3 & _ & E3). apply (opened_stable _ _ _ _ _ _ _ HR3) in Ho.
      destruct r as [fi|e]; cycle 1.
      { eapply silent_opsim; [by apply silent_pure, pure_calls|]. intros _ m4 _. right. by exists e. }
      assert (fi = file_info y) as ->.
      { destruct c3; cbn in E3; [|done]. destruct Ho as (Hy & _). rewrite Hy in E3. by simplify_eq. }
      exists j, y. done.
Qed.

Lemma opsim_Get i k m : U k -> opsim i (OGet k) (compile_op fuel d (OGet k)) None (final (OGet k)) m.
Proof.
  intros Hk. eapply (opsim_bind _ _ _ _ _ (fun r dec m' => match r with
    | Ok (f, o) => exists j y, f = Some j /\ o = object_of k (entry_of y) /\ opened k j y dec m'
    | Err e => final (OGet k) (Err e) dec m' end)).
  - apply opsim_ctx; [|intros e m' _ He; cbn; intros ob c; by apply lin_fail].
    intros m0 _. eapply opsim_bind; [by apply opsim_open|].
    intros [[f fi]|e] dec m' H; [|done]. destruct H as (j & y & -> & -> & Ho). by exists j, y.
  - intros [[f o]|e] dec m1 H; [|done]. destruct H as (j & y & -> & -> & Ho).
    eapply silent_opsim; [by apply silent_pure, pure_calls|].
    intros r m3 (HR3 & _ & He & c3 & _ & E3). apply (opened_stable _ _ _ _ _ _ _ HR3) in Ho.
    destruct Ho as (Hy & Hp & ->). destruct r as [dt|e]; [|right; by exists e].
    eapply silent_opsim; [by apply silent_pure, pure_calls|]. intros _ m4 _. left.
    destruct c3; cbn in E3; [|done]. rewrite Hy in E3. by simplify_eq.
Qed.

(** The lock is kept by the others. *)
Lemma mutex_stable i m m' : rely i m m' -> mutex m = Some i -> mutex m' = Some i.
Proof. intros HR Hm. by apply HR. Qed.

Lemma rep_delete m m' k ob : U k -> rep m ob -> entry_at m' k = None ->
  (forall k', U k' -> k' <> k -> entry_at m' k' = entry_at m k') -> rep m' (delete k ob).
Proof.
  intros Hk [Hr Hd] Hn Ho. split.
  - intros k' Hk'. destruct (decide (k' = k)) as [->|Hne].
    + by rewrite lookup_delete_eq, Hn.
    + by rewrite lookup_delete_ne, Hr, Ho by done.
  - intros k' [e [_ ?]%lookup_delete_Some]. eauto.
Qed.

Lemma rep_insert m m' k e ob : U k -> rep m ob -> entry_at m' k = Some e ->
  (forall k', U k' -> k' <> k -> entry_at m' k' = entry_at m k') -> rep m' (<[k := e]> ob).
Proof.
  intros Hk [Hr Hd] Hn Ho. split.
  - intros k' Hk'. destruct (decide (k' = k)) as [->|Hne].
    + by rewrite lookup_insert_eq, Hn.
    + by rewrite lookup_insert_ne, Hr, Ho by done.
  - intros k' [e' [[<- _]|[_ ?]]%lookup_insert_Some]; eauto.
Qed.

(** A call that fails changes nothing. *)
Lemma fail_same i c m e m' :
  (forall p, sysexec i c (SRemove p) m = Some (Err e, m') -> m' = m) /\
  (forall p q, sysexec i c (SLink p q) m = Some (Err e, m') -> m' = m) /\
  (forall p q, sysexec i c (SRename p q) m = Some (Err e, m') -> m' = m) /\
  (forall p t, sysexec i c (SChtimes p t) m = Some (Err e, m') -> m' = m).
Proof.
  split_and!; intros; destruct c as [z|w]; cbn in *; try (by simplify_eq);
    unfold link, rename, remove in *; by repeat (case_match || case_decide || simplify_eq).
Qed.

Lemma opsim_remove i k m : U k -> mutex m = Some i ->
  opsim i (ODelete k) (sys_ (SRemove (tgt k))) None (fun r dec m' => mutex m' = Some i /\
    match r with
    | Ok _ => dec = Some (eq (Ok tt))
    | Err e => final (ODelete k) (Err e) dec m'
    end) m.
Proof.
  intros Hk Hm m1 c x m2 HR HI Hc E. apply (mutex_stable _ _ _ HR) in Hm.
  pose proof (sysexec_errs _ _ _ _ _ _ E) as Hx. destruct x as [u|e].
  - destruct c as [z|w]; cbn in E; [|done]. unfold remove in E.
    destruct (find_cases m1 k HI Hk) as [[[Hf|Hf] _]|(j & y & Hf & Hn & Hy & Hp)]; rewrite Hf in E; [done..|].
    injection E as <- <-. destruct (unlink_step i m1 k HI Hk Hm) as (HI2 & HR2 & Ha & Hn2 & Ho).
    split; [done|]. split; [done|]. right. split; [done|]. exists (eq (Ok tt)), None. split; [|done].
    split; [by eexists|]. split; [done|]. intros ob Hob. exists (delete k ob).
    split; [by eapply rep_delete|]. intros r <- sup h. exists h. left. cbn. unfold del, Mem.Delete. cbn.
    destruct Hob as [Hob _]. rewrite Hob by done. by rewrite (object_entry m1 k j y).
  - apply fail_same in E as ->. step_read. left. split; [done|]. split; [done|]. intros ob c'. by apply lin_fail.
Qed.

Lemma opsim_Delete i k m : U k -> opsim i (ODelete k) (Delete fuel d k) None (final (ODelete k)) m.
Proof.
  intros Hk. apply opsim_ctx; [|intros e m' _ He; cbn; intros ob c; by apply lin_fail].
  intros m0 _. rewrite path_plain by auto. fold (tgt k).
  eapply silent_opsim; [apply silent_lock|]. intros l m1 [_ Hm].
  eapply (opsim_bind _ _ _ _ _ (fun r dec m' => mutex m' = Some i /\ final (ODelete k) r dec m')).
  - intros m2 c x m3 HR HI Hc E. destruct (stat_cases _ _ _ _ _ _ HI Hk Hc E) as (-> & Hx). step_read.
    apply (mutex_stable _ _ _ HR) in Hm.
    destruct Hx as [(e & -> & He & Hne)|[[-> Hn]|(j & y & Hf & ->)]].
    + left. split; [done|]. cbn. rewrite notFound_other by done. split; [done|]. intros ob c'. by apply lin_fail.
    + right. split; [done|]. exists (eq (Err ErrNotFound)), None. split; [|done].
      apply lins_read; [by eexists|]. intros ob sup h x [Hr _] <-. left. cbn. unfold del, Mem.Delete. cbn.
      rewrite Hr by done. unfold entry_at. by rewrite Hn.
    + left. split; [done|]. cbn [proc_mbind proc_bind]. eapply opsim_bind; [by apply opsim_remove|].
      intros [u|e] dec m4 [Hm4 Hr]; [|done]. subst dec.
      eapply silent_opsim; [apply silent_advance|]. intros _u m5 HR5. cbn.
      cbn in HR5. split; [by eapply mutex_stable|done].
  - intros r dec m2 [Hm2 Hr]. eapply silent_opsim; [by apply silent_unlock|]. done.
Qed.

(** *** Writes *)

(** While [i] holds the lock, object [k] stays as it is. *)
Definition held (i : nat) (k : string) (j : nat) (y : inode) (m : machine) : Prop :=
  mutex m = Some i /\ object_file m k j y.

Lemma held_stable i k j y m m' : U k -> rely i m m' -> held i k j y m -> held i k j y m'.
Proof.
  intros Hk [HF HL] (Hm & Hn & Hy & Hp). destruct (HL Hm) as [Hm' Hk']. split; [done|].
  split; [by apply Hk'|]. split; [|done]. apply HF; [done|by right].
Qed.

(** The temporary file with its final modification time. *)
Definition primed (i : nat) (q : fpath) (z : Z) (ino : nat) (x : inode) (m : machine) : Prop :=
  mine i q z ino x m /\ T0 < imtime x <= T1 /\ taken m !! imtime x = Some i /\ unused m (imtime x).

Lemma primed_stable i q z ino x m m' : rely i m m' -> primed i q z ino x m -> primed i q z ino x m'.
Proof.
  intros HR (Hm & Ht & Htk & Hu). split; [eapply mine_stable; [apply HR|done]|]. split; [done|].
  split; [eapply lookup_weaken; [done|apply HR]|]. by apply HR.
Qed.

Lemma silent_chtimes i q z ino x t m : mine i q z ino x m -> T0 < t <= T1 ->
  taken m !! t = Some i -> unused m t ->
  silent i (sys_ (SChtimes (tmp q z) t)) (fun r m' => used m' !! z = Some i /\
    (mutex m = Some i -> mutex m' = Some i) /\
    (forall k j y, U k -> held i k j y m -> held i k j y m') /\
    match r with
    | Ok _ => exists x', primed i q z ino x' m' /\ idata x' = idata x
    | Err e => transient e
    end) m.
Proof.
  intros Hm Ht Htk Hu m1 c r m2 HR HI _ E. pose proof (sysexec_errs _ _ _ _ _ _ E) as Hr.
  pose proof (mine_stable _ _ _ _ _ _ _ (r_frame _ _ _ HR) Hm) as Hm1. pose proof Hm1 as [M1 M2 M3 M4 M5].
  assert (taken m1 !! t = Some i) as Htk1 by (eapply lookup_weaken; [done|apply HR]).
  assert (unused m1 t) as Hu1 by (by apply HR).
  assert (mutex m = Some i -> mutex m1 = Some i) as Hmx by (by apply mutex_stable).
  assert (forall k j y, U k -> held i k j y m -> held i k j y m1) as Hh by (intros k j y Hk; by apply held_stable).
  destruct r as [u|e]; cycle 1.
  { apply fail_same in E as ->. split; [by apply quiet_refl|]. cbn. auto. }
  destruct c as [b|w]; cbn in E; [|done]. unfold find in E. rewrite M2, M3 in E. injection E as <- <-.
  destruct (quiet_inode i q z ino x (MkInode (idata x) t (icreator x) (ipublished x)) m1)
    as (Hq & Hm2 & Hlk & Hun2); [done..|]. split; [done|]. cbn. split; [apply Hm2|]. split; [done|].
  split; [|eexists; split; [split; [exact Hm2|by auto]|done]]. intros k j y Hk Hhd. destruct (Hh k j y Hk Hhd) as (Hx1 & Hn & Hy & Hp).
  split; [done|]. split; [done|]. split; [|done].
  destruct Hq as (_ & Hro & _). apply (Hro (S i)); [lia|done|by right].
Qed.

Lemma put_exec_ideal k dt cond ob t sup h c : ~ malformed cond -> rejects cond (ob !! k) = false ->
  let g := localGeneration t (Z.of_nat (length dt)) in
  Prog.exec (OPut k dt cond) (MkWorld (MkIdeal ob (t :: sup) h) c) =
    (Ok g, MkWorld (MkIdeal (<[k := MkEntry dt g]> ob) sup ({[g]} ∪ h)) c).
Proof.
  intros Hm Hr. cbn [Prog.exec store cells]. unfold ObjectStore.Put, ideal_store.
  rewrite (put_done cond k dt (MkIdeal ob (t :: sup) h) t sup Hm Hr eq_refl). done.
Qed.

Lemma put_reject_ideal k dt cond ob sup h c : ~ malformed cond -> rejects cond (ob !! k) = true ->
  Prog.exec (OPut k dt cond) (MkWorld (MkIdeal ob sup h) c) =
    (Err ErrPreconditionFailed, MkWorld (MkIdeal ob sup h) c).
Proof.
  intros Hm Hr. cbn [Prog.exec store cells]. unfold ObjectStore.Put, ideal_store.
  by rewrite (put_rejected cond k dt (MkIdeal ob sup h) Hm Hr).
Qed.

(** A write takes effect: its results [P] are its generation, errors of later
    calls, and for a creation any generation. *)
Lemma lins_put k dt cond m1 m2 x (P : res string -> Prop) : U k -> ~ malformed cond ->
  rejects cond (entry_at m1 k) = false -> idata x = dt -> T0 < imtime x <= T1 ->
  unused m1 (imtime x) -> ~ unused m2 (imtime x) -> atoms m2 = atoms m1 ->
  entry_at m2 k = Some (entry_of x) -> (forall k', U k' -> k' <> k -> entry_at m2 k' = entry_at m1 k') ->
  P (Ok (generation (entry_of x))) ->
  (forall r, P r -> match r with
     | Ok g => g = generation (entry_of x) \/ Absent cond = true | Err e => transient e end) ->
  lins (OPut k dt cond) m1 (Some (imtime x)) P m2.
Proof.
  intros Hk Hm Hrj <- Ht Hu Hu2 Ha He Ho Hex HP. split; [by eexists|]. split; [done|].
  intros ob Hob. exists (<[k := entry_of x]> ob). split; [by eapply rep_insert|].
  intros r Hr sup h. eexists. rewrite Ha.
  pose proof (put_exec_ideal k (idata x) cond ob (imtime x) sup h (atoms m1) Hm) as Hput.
  destruct Hob as [Hob _]. rewrite Hob in Hput by done. specialize (Hput Hrj). cbn in Hput.
  destruct (decide (r = Ok (generation (entry_of x)))) as [->|Hne]; [left; exact Hput|].
  right. split; [done|]. right. split; [eexists; exact Hput|]. specialize (HP r Hr).
  destruct r as [g|e]; [|by left]. destruct HP as [->|?]; done.
Qed.

Definition put_post (i : nat) (z : Z) {X} (o : op (res X)) (r : res X) (dec : option (res X -> Prop)) (m : machine) :=
  used m !! z = Some i /\ final o r dec m.

Lemma put_post_err i z k dt cond e m : used m !! z = Some i -> transient e ->
  put_post i z (OPut k dt cond) (Err e) None m.
Proof. intros Hz He. split; [done|]. intros ob c. by apply lin_fail. Qed.

(** The results of a creation that has taken effect. *)
Definition created (r : res string) : Prop := match r with Ok _ => True | Err e => transient e end.

Lemma opsim_link i q z ino x k cond m : U k -> ~ malformed cond -> Absent cond = true ->
  primed i q z ino x m -> slice_len (idata x) ->
  opsim i (OPut k (idata x) cond) (sys_ (SLink (tmp q z) (tgt k))) None (fun r dec m' =>
    used m' !! z = Some i /\
    match r with
    | Ok _ => dec = Some created
    | Err e => final (OPut k (idata x) cond) (Err (if IsExist e then ErrPreconditionFailed else e)) dec m'
    end) m.
Proof.
  intros Hk Hmal Habs Hrd Hlen m1 c r m2 HR HI Hc E. apply (primed_stable _ _ _ _ _ _ _ HR) in Hrd.
  destruct Hrd as (Hm & Ht & Htk & Hu). pose proof Hm as [M1 M2 M3 M4 M5].
  pose proof (sysexec_errs _ _ _ _ _ _ E) as Hr. destruct r as [u|e].
  - destruct c as [b|w]; cbn in E; [|done]. unfold link, find in E. rewrite M2, M3 in E.
    unfold vacant in E. destruct (find_cases m1 k HI Hk) as [[Hf Hn]|(j & y & Hf & Hn & Hy & Hp)];
      [|by rewrite Hf in E].
    assert (m2 = set_inode ino (publish x) (set_names (<[tgt k := File ino]> (names m1)) m1)) as ->.
    { repeat (case_match || case_decide); congruence. }
    destruct (publish_step i q z ino x m1 k (<[tgt k := File ino]> (names m1)))
      as (HI2 & HR2 & Ha & Hu2 & He & Ho); [try done..|].
    { by left. } { by rewrite lookup_insert_eq. } { intros p Hp _. by rewrite lookup_insert_ne. }
    split; [done|]. split; [done|]. right. split; [done|]. exists created, (Some (imtime x)). split; [|done].
    apply lins_put; try done; [|by intros [g|e] ?; auto].
    unfold rejects, entry_at. by rewrite Habs, Hn.
  - apply fail_same in E as HE. subst m2. step_read. destruct (IsExist e) eqn:Hex; cycle 1.
    { left. split; [done|]. cbn. rewrite Hex. by apply put_post_err. }
    right. split; [done|]. exists (eq (Err ErrPreconditionFailed)), None. cbn. rewrite Hex. split; [|done].
    assert (exists j y, object_file m1 k j y) as (j & y & Hf).
    { destruct c as [b|w]; cbn in E, Hc; cycle 1.
      { injection E as <-. apply bool_decide_eq_true in Hex. by destruct Hc as (_ & ? & ?), Hex. }
      unfold link, find in E. rewrite M2, M3 in E. unfold vacant in E.
      destruct (find_cases m1 k HI Hk) as [[Hf Hn]|(j & y & Hf & Hn & Hy & Hp)]; [|by exists j, y].
      exfalso. destruct Hf as [Hf|Hf]; rewrite Hf in E; repeat (case_match || case_decide); simplify_eq. }
    apply lins_read; [by eexists|]. intros ob sup h r [Hrep _] <-. left. apply put_reject_ideal; [done|].
    unfold rejects. by rewrite Habs, Hrep, (object_entry _ _ _ _ Hf) by done.
Qed.

Lemma opsim_put_absent i q z ino x k cond m : U k -> ~ malformed cond -> Absent cond = true ->
  mine i q z ino x m -> slice_len (idata x) ->
  opsim i (OPut k (idata x) cond) (put_absent fuel (tmp q z) (tgt k)) None
    (put_post i z (OPut k (idata x) cond)) m.
Proof.
  intros Hk Hmal Habs Hm Hlen. unfold put_absent.
  eapply silent_opsim; [apply silent_next|]. intros t m1 (HR1 & Ht & Htk & Hu).
  apply (mine_stable _ _ _ _ _ _ _ (r_frame _ _ _ HR1)) in Hm.
  eapply silent_opsim; [by apply silent_chtimes|]. intros [u|e] m2 (Hz & _ & _ & H2); cycle 1.
  { by apply put_post_err. }
  destruct H2 as (x' & Hrd & Ex). rewrite <-Ex in *. eapply opsim_bind; [by apply (opsim_link i q z ino x')|].
  intros [u'|e] dec m3 [Hz3 H3]; [|done]. subst dec.
  eapply silent_opsim; [by apply silent_pure, pure_calls|]. intros r m4 (HR4 & _ & He & _).
  assert (used m4 !! z = Some i) as Hz4 by (eapply lookup_weaken; [done|apply HR4]).
  destruct r as [fi|e]; split; done.
Qed.

Definition replaced (g : string) (r : res string) : Prop := r = Ok g \/ exists e, transient e /\ r = Err e.

(** The condition of the write is met and stays so while the lock is held. *)
Definition accepts (i : nat) (k : string) (cond : Condition) (m : machine) : Prop :=
  GenerationMatch cond = "" \/
  exists j y, held i k j y m /\ generation (entry_of y) = GenerationMatch cond.

Lemma accepts_rejects i k cond m : Absent cond = false -> accepts i k cond m ->
  rejects cond (entry_at m k) = false.
Proof.
  intros Ha Hacc. unfold rejects. rewrite Ha. case_decide as Hg; [|done].
  destruct Hacc as [?|(j & y & [_ Hf] & E)]; [done|]. rewrite (object_entry _ _ _ _ Hf).
  apply bool_decide_eq_false_2. intros []. done.
Qed.

Lemma opsim_rename i q z ino x k cond m : U k -> ~ malformed cond -> Absent cond = false ->
  primed i q z ino x m -> slice_len (idata x) -> mutex m = Some i -> accepts i k cond m ->
  opsim i (OPut k (idata x) cond) (sys_ (SRename (tmp q z) (tgt k))) None (fun r dec m' =>
    used m' !! z = Some i /\ mutex m' = Some i /\
    match r with
    | Ok _ => dec = Some (replaced (generation (entry_of x))) /\ held i k ino (publish x) m'
    | Err e => final (OPut k (idata x) cond) (Err e) dec m'
    end) m.
Proof.
  intros Hk Hmal Habs Hrd Hlen Hmx Hacc m1 c r m2 HR HI Hc E. apply (primed_stable _ _ _ _ _ _ _ HR) in Hrd.
  apply (mutex_stable _ _ _ HR) in Hmx.
  assert (accepts i k cond m1) as Hacc1.
  { destruct Hacc as [?|(j & y & Hh & ?)]; [by left|]. right. exists j, y. split; [by eapply held_stable|done]. }
  destruct Hrd as (Hm & Ht & Htk & Hu). pose proof Hm as [M1 M2 M3 M4 M5].
  pose proof (sysexec_errs _ _ _ _ _ _ E) as Hr. destruct r as [u|e]; cycle 1.
  { apply fail_same in E as ->. step_read. left. split; [done|]. split; [done|]. split; [done|].
    intros ob c'. by apply lin_fail. }
  destruct c as [b|w]; cbn in E; [|done].
  set (ns := <[tgt k := File ino]> (delete (tmp q z) (names m1))).
  assert (m2 = set_inode ino (publish x) (set_names ns m1)) as ->.
  { unfold rename in E. unfold find at 1 in E. rewrite M2, M3 in E.
    destruct (find_cases m1 k HI Hk) as [[[Hf|Hf] Hn]|(j & y & Hf & Hn & Hy & Hp)]; rewrite Hf in E.
    1, 2: destruct (vacant m1 (tgt k)); [|done]; cbn in E; rewrite decide_False in E by done; by simplify_eq.
    case_decide as Hj; [|by simplify_eq]. injection Hj as ->. congruence. }
  destruct (publish_step i q z ino x m1 k ns) as (HI2 & HR2 & Ha & Hu2 & He & Ho); [try done..|].
  { by right. } { subst ns. by rewrite lookup_insert_eq. }
  { intros p Hp Hp'. subst ns. by rewrite lookup_insert_ne, lookup_delete_ne. }
  split; [done|]. split; [done|]. right. split; [done|].
  exists (replaced (generation (entry_of x))), (Some (imtime x)). split.
  - apply lins_put; try done; [by eapply accepts_rejects|by left|].
    intros r [->|(e & ? & ->)]; [by left|done].
  - split; [done|]. split; [done|]. split; [done|]. split; [done|].
    split; [subst ns; cbn; by rewrite lookup_insert_eq|]. split; [cbn; by rewrite lookup_insert_eq|done].
Qed.

Lemma opsim_replace i q z ino x k cond m : U k -> ~ malformed cond -> Absent cond = false ->
  mine i q z ino x m -> slice_len (idata x) -> mutex m = Some i -> accepts i k cond m ->
  opsim i (OPut k (idata x) cond) (replace fuel (tmp q z) (tgt k)) None (fun r dec m' =>
    mutex m' = Some i /\ put_post i z (OPut k (idata x) cond) r dec m') m.
Proof.
  intros Hk Hmal Habs Hm Hlen Hmx Hacc. unfold replace.
  eapply silent_opsim; [apply silent_next|]. intros t m1 (HR1 & Ht & Htk & Hu).
  apply (mine_stable _ _ _ _ _ _ _ (r_frame _ _ _ HR1)) in Hm. apply (mutex_stable _ _ _ HR1) in Hmx.
  eapply silent_opsim; [by apply silent_chtimes|]. intros r m2 (Hz & Hmx2 & Hh2 & H2).
  specialize (Hmx2 Hmx). destruct r as [u|e]; [|by split; [|apply put_post_err]].
  destruct H2 as (x' & Hrd & Ex). rewrite <-Ex in *.
  eapply opsim_bind; [apply (opsim_rename i q z ino x'); try done|].
  { destruct Hacc as [?|(j & y & Hh & ?)]; [by left|]. right. exists j, y. split; [|done].
    apply Hh2; [done|]. by eapply held_stable. }
  intros [u'|e] dec m3 (Hz3 & Hmx3 & H3); [|done]. destruct H3 as [-> Hh].
  intros m4 c s m5 HR4 HI4 Hc4 E4. destruct (stat_cases _ _ _ _ _ _ HI4 Hk Hc4 E4) as (-> & Hx). step_read.
  assert (used m4 !! z = Some i) as Hz4 by (eapply lookup_weaken; [done|apply HR4]).
  apply (held_stable _ _ _ _ _ _ Hk HR4) in Hh. pose proof Hh as (Hmx4 & Hn4 & Hy4 & _).
  left. split; [done|]. destruct Hx as [(e & -> & He & Hne)|[[-> Hn]|(j & y & (Hn & Hy & _) & ->)]].
  - split; [done|]. split; [done|]. right. by exists e.
  - congruence.
  - rewrite Hn4 in Hn. injection Hn as <-. rewrite Hy4 in Hy. injection Hy as <-.
    split; [done|]. split; [done|]. by left.
Qed.

Lemma rejects_gen cond e : Absent cond = false -> GenerationMatch cond <> "" ->
  (forall e', e = Some e' -> generation e' <> GenerationMatch cond) -> rejects cond e = true.
Proof.
  intros Ha Hg He. unfold rejects. rewrite Ha, decide_True by done. destruct e as [e|]; [|done].
  apply bool_decide_eq_true_2. by apply He.
Qed.

Lemma opsim_prev {X} i (o : op X) y dec m :
  opsim i o (_ ← advanceLocalModTime fuel (ModTime (file_info y));
             mret (Ok (localGeneration (ModTime (file_info y)) (FSize (file_info y))))) dec
    (fun r dec' m' => rely i m m' /\ dec' = dec /\ r = Ok (generation (entry_of y))) m.
Proof. by eapply silent_opsim; [apply silent_advance|]. Qed.

Lemma opsim_put_locked i q z ino x k cond m : U k -> ~ malformed cond -> Absent cond = false ->
  mine i q z ino x m -> slice_len (idata x) -> mutex m = Some i ->
  opsim i (OPut k (idata x) cond) (put_locked fuel (tmp q z) (tgt k) cond) None (fun r dec m' =>
    mutex m' = Some i /\ put_post i z (OPut k (idata x) cond) r dec m') m.
Proof.
  intros Hk Hmal Habs Hm Hlen Hmx m1 c s m2 HR HI Hc E.
  destruct (stat_cases _ _ _ _ _ _ HI Hk Hc E) as (-> & Hx). step_read.
  apply (mutex_stable _ _ _ HR) in Hmx. apply (mine_stable _ _ _ _ _ _ _ (r_frame _ _ _ HR)) in Hm.
  pose proof (my_z _ _ _ _ _ _ Hm) as Hz.
  assert (forall e, entry_at m1 k = e -> rejects cond e = true ->
    lins (OPut k (idata x) cond) m1 None (eq (Err ErrPreconditionFailed)) m1) as Hrej.
  { intros e Ee Hrej. apply lins_read; [by eexists|]. intros ob sup h r [Hrep _] <-. left.
    apply put_reject_ideal; [done|]. by rewrite Hrep, Ee. }
  destruct Hx as [(e & -> & He & Hne)|[[-> Hn]|(j & y & Hf & ->)]].
  - left. split; [done|]. cbn. rewrite Hne. split; [done|]. by apply put_post_err.
  - assert (entry_at m1 k = None) as He by (unfold entry_at; by rewrite Hn).
    cbn [proc_mbind proc_bind]. unfold ptry. cbn [mret proc_mret proc_bind].
    change (IsNotExist ENOENT) with true. cbn iota. case_decide as Hg.
    + right. split; [done|]. exists (eq (Err ErrPreconditionFailed)), None. split; [|done].
      apply (Hrej None He). apply rejects_gen; [done|apply Hg|done].
    + left. split; [done|]. apply (opsim_replace i q z ino x); try done. left.
      destruct (decide (GenerationMatch cond = "")); [done|]. exfalso. apply Hg. auto.
  - pose proof (object_entry _ _ _ _ Hf) as He. cbn [proc_mbind proc_bind].
    destruct (decide (GenerationMatch cond <> "" /\ generation (entry_of y) <> GenerationMatch cond)) as [[Hg1 Hg2]|Hg].
    + right. split; [done|]. exists (eq (Err ErrPreconditionFailed)), None. split.
      { apply (Hrej _ He). apply rejects_gen; [done..|]. by intros e' [= <-]. }
      eapply opsim_bind; [apply opsim_prev|]. intros r dec m3 (HR3 & Hdec & Hr). subst r dec. rewrite decide_True by auto.
      split; [by eapply mutex_stable|]. split; [|done]. eapply lookup_weaken; [done|apply HR3].
    + left. split; [done|].
      eapply opsim_bind; [apply opsim_prev|]. intros r dec m3 (HR3 & Hdec & Hr). subst r dec.
      rewrite decide_False by (intros [H1 [H2|H2]]; [by apply localGeneration_ne in H2|by apply Hg]).
      apply (opsim_replace i q z ino x); try done; [eapply mine_stable; [apply HR3|done]|by eapply mutex_stable|].
      destruct (decide (GenerationMatch cond = "")) as [?|Hne]; [by left|]. right. exists j, y.
      split; [by eapply held_stable|]. destruct (decide (generation (entry_of y) = GenerationMatch cond)); [done|].
      by destruct Hg.
Qed.

Lemma opsim_Put i k dt cond m : U k -> slice_len dt ->
  opsim i (OPut k dt cond) (Put fuel d k (MkReader dt None) cond) None (final (OPut k dt cond)) m.
Proof.
  intros Hk Hlen. apply opsim_ctx; [|intros e m' _ He; cbn; intros ob c; by apply lin_fail].
  intros m0 _. rewrite path_plain by auto. fold (tgt k).
  case_decide as Hmal.
  { intros ob c sup h. exists h. left. cbn. unfold put. by rewrite decide_True. }
  destruct (parent_tgt k) as (Hp1 & Hp2 & Hp3).
  eapply silent_opsim.
  { unfold MkdirAll. apply (silent_mkdir_all i k _ (pred (length (tgt k)))); [done|done|].
    by rewrite reverse_involutive. }
  intros [u|e] m1 [_ He]; [|intros ob c; by apply lin_fail]. rewrite Hp1.
  eapply silent_opsim; [apply silent_CreateTemp|].
  intros [[ino tp]|e] m2 H2; [|intros ob c; by apply lin_fail]. destruct H2 as (z & x & -> & Hm & Hx).
  eapply (opsim_bind _ _ _ _ _ (put_post i z (OPut k dt cond))); cycle 1.
  { intros r dec m3 [Hz Hr]. intros m4 c y m5 HR4 HI4 _ E4.
    assert (used m4 !! z = Some i) as Hz4 by (eapply lookup_weaken; [done|apply HR4]).
    assert (quiet i m4 m5) as (Hq1 & Hq2 & Hq3).
    { destruct y as [u'|e]; [|apply fail_same in E4 as ->; by apply quiet_refl].
      destruct c as [b|w]; cbn in E4; [|done]. unfold remove in E4.
      repeat case_match; simplify_eq; by apply quiet_unlink. }
    split; [done|]. split; [done|]. left. by split. }
  eapply silent_opsim; [by apply (silent_copy i (updir k) z ino x)|].
  intros [u'|e] m3 [Hz H3]; [|destruct H3 as [?|?]; [by apply put_post_err|done]].
  destruct H3 as (x' & Hm' & Ex). cbn in Ex. subst dt.
  apply opsim_ctx; cycle 1.
  { intros e m4 HR4 He'. apply put_post_err; [eapply lookup_weaken; [done|apply HR4]|done]. }
  intros m4 HR4. apply (mine_stable _ _ _ _ _ _ _ (r_frame _ _ _ HR4)) in Hm'.
  destruct (Absent cond) eqn:Habs; [by apply (opsim_put_absent i _ z ino)|].
  eapply silent_opsim; [apply silent_lock|]. intros l m5 [HF5 Hmx].
  apply (mine_stable _ _ _ _ _ _ _ HF5) in Hm'.
  eapply opsim_bind; [by apply (opsim_put_locked i _ z ino)|].
  intros r dec m6 (Hmx6 & Hz6 & Hr). eapply silent_opsim; [by apply silent_unlock|].
  intros ? m7 HF7. split; [eapply lookup_weaken; [done|apply HF7]|done].
Qed.

(** ** Clients *)

(** A client that uses keys of [U] and does not list; the data it writes fit
    a slice. *)
Definition op_ok {X} (o : op X) : Prop :=
  match o with
  | OStat k | OGet k | ODelete k | OExists k => U k
  | OPut k dt _ => U k /\ slice_len dt
  | OList _ _ _ => False
  | OLoad _ | OCas _ _ _ => True
  end.

Fixpoint uses {A} (p : prog A) : Prop :=
  match p with
  | Ret _ => True
  | Vis o k => op_ok o /\ forall x, uses (k x)
  end.

Lemma inv_atoms m cs : inv m -> inv (set_atoms cs m) /\ forall j, rely j m (set_atoms cs m).
Proof.
  intros [Hf Hp Ht Hu]. split; [by split|]. intros j. split; [by split|]. auto.
Qed.

Lemma opsim_op i {X} (o : op X) m : op_ok o -> opsim i o (compile_op fuel d o) None (final o) m.
Proof.
  destruct o as [k|k|k dt cond|k|k|p a l|c|c old new]; intros Ho; cbn in Ho.
  - by apply opsim_Stat.
  - by apply opsim_Get.
  - destruct Ho. by apply opsim_Put.
  - by apply opsim_Delete.
  - by apply opsim_Exists.
  - done.
  - intros m1 [z|w] x m2 HR HI _ E; [|done]. cbn in E. injection E as <- <-. step_read. right.
    split; [done|]. eexists (eq _), None. split; [|done]. apply lins_read; [by eexists|].
    intros ob sup h x _ <-. by left.
  - intros m1 [z|w] x m2 HR HI _ E; [|done]. cbn in E. injection E as E.
    destruct (inv_atoms m1 (<[c := new]> (atoms m1)) HI) as [HI2 HR2].
    case_decide as Hd; injection E as <- <-; (split; [done|]; split; [done|]; right; split; [done|]).
    + exists (eq true), None. split; [|done]. split; [by eexists|]. split; [done|]. intros ob Hob. exists ob.
      split; [done|]. intros x <- sup h. exists h. left. cbn. unfold cell. cbn. by rewrite decide_True.
    + exists (eq false), None. split; [|done]. apply lins_read; [by eexists|].
      intros ob sup h x _ <-. left. cbn. unfold cell. cbn. by rewrite decide_False.
Qed.

(** The programs of the atomic store that a goroutine in the middle of the
    call [o] can stand for. *)
Definition stands_for {X A} (o : op X) (k : X -> prog A) (dec : option (X -> Prop)) (q : prog A) : Prop :=
  match dec with None => q = Vis o k | Some P => exists x, P x /\ q = k x end.

Inductive trel {A} (i : nat) (m : machine) : proc A -> (prog A -> Prop) -> Prop :=
  | TIdle q : uses q -> trel i m (compile fuel d q) (fun q' => q' = q)
  | TBusy X (o : op X) Y (s : sys Y) k0 k dec : opsim i o (Sys s k0) dec (final o) m ->
      (forall x, uses (k x)) -> (forall P, dec = Some P -> exists x, P x) ->
      trel i m (proc_bind (Sys s k0) (fun x => compile fuel d (k x))) (stands_for o k dec).

Lemma trel_mono {A} i m m' (p : proc A) Q : rely i m m' -> trel i m p Q -> trel i m' p Q.
Proof.
  intros HR [q Hq|X o Y s k0 k dec Hs Hk HP]; [by constructor|]. constructor; [|done..].
  eapply opsim_mono; [|done..]. done.
Qed.

Lemma compile_op_sys {X} (o : op X) : exists Y (s : sys Y) k0, compile_op fuel d o = Sys s k0.
Proof. destruct o; cbn; eauto. Qed.

Definition time_ok (ot : option Z) (m m' : machine) : Prop :=
  match ot with None => True | Some t => T0 < t <= T1 /\ unused m t /\ ~ unused m' t end.

(** At most one call of the atomic store. *)
Definition moves {A} (q : prog A) ob c ot (q' : prog A) ob' c' : Prop :=
  q' = q /\ ob' = ob /\ c' = c /\ ot = None \/
  exists X (o : op X) k x, q = Vis o k /\ q' = k x /\ lin o ob c ot x ob' c'.

Lemma rep_same m m' ob : same_objects m m' -> rep m ob -> rep m' ob.
Proof. intros [Hs _] [Hr Hd]. split; [|done]. intros k Hk. by rewrite Hs, Hr. Qed.

Lemma busy_step {A X Y} i c m (o : op X) (s : sys Y) k0 (k : X -> prog A) dec p' m' ob :
  opsim i o (Sys s k0) dec (final o) m -> (forall x, uses (k x)) -> (forall P, dec = Some P -> exists x, P x) ->
  inv m -> rep m ob -> kernel_ok T0 T1 c s m ->
  next_call i c (proc_bind (Sys s k0) (fun x => compile fuel d (k x))) m = Some (p', m') ->
  inv m' /\ (forall j, j <> i -> rely j m m') /\ exists Q' ob' ot,
    trel i m' p' Q' /\ rep m' ob' /\ time_ok ot m m' /\
    forall q', Q' q' -> exists q, stands_for o k dec q /\ moves q ob (atoms m) ot q' ob' (atoms m').
Proof.
  intros Hs Hk HP HI Hob Hc E. cbn in E. destruct (sysexec i c s m) as [[x m2]|] eqn:Ex; [|done].
  cbn in E. injection E as <- <-. destruct (Hs m c x m2 ltac:(reflexivity) HI Hc Ex) as (HI2 & HR2 & Hcase).
  split; [done|]. split; [done|].
  destruct Hcase as [[Hso Hsim]|[-> (P & ot & (Hex & Hot & Hlin) & Hsim)]].
  - pose proof (rep_same _ _ _ Hso Hob) as Hob2. destruct Hso as [_ Ha]. rewrite Ha.
    destruct (k0 x) as [y|Y' s' k0'].
    + cbn in Hsim. destruct dec as [P|].
      * exists (fun q => q = k y), ob, None. split; [by constructor|]. split; [done|]. split; [done|].
        intros q' ->. exists (k y). split; [by exists y|by left].
      * exists (fun q => q = k y), ob, None. split; [by constructor|]. split; [done|]. split; [done|].
        intros q' ->. exists (Vis o k). split; [done|]. right. by exists X, o, k, y.
    + exists (stands_for o k dec), ob, None. split; [by constructor|]. split; [done|]. split; [done|].
      intros q' Hq. exists q'. split; [done|by left].
  - destruct (Hlin ob Hob) as (ob' & Hob' & Hl). destruct (k0 x) as [y|Y' s' k0'].
    + exists (fun q => q = k y), ob', ot. split; [by constructor|]. split; [done|]. split; [done|].
      intros q' ->. exists (Vis o k). split; [done|]. right. exists X, o, k, y. auto.
    + exists (stands_for o k (Some P)), ob', ot. split; [constructor; try done; by intros ? [= <-]|].
      split; [done|]. split; [done|]. intros q' (y & Hy & ->). exists (Vis o k). split; [done|].
      right. exists X, o, k, y. auto.
Qed.

Lemma trel_step {A} i c m (p : proc A) Q p' m' ob : trel i m p Q -> inv m -> rep m ob ->
  next_ok T0 T1 c p m -> next_call i c p m = Some (p', m') ->
  inv m' /\ (forall j, j <> i -> rely j m m') /\ exists Q' ob' ot,
    trel i m' p' Q' /\ rep m' ob' /\ time_ok ot m m' /\
    forall q', Q' q' -> exists q, Q q /\ moves q ob (atoms m) ot q' ob' (atoms m').
Proof.
  intros [q Hq|X o Y s k0 k dec Hs Hk HP] HI Hob Hc E;
    [|by apply (busy_step i c m o s k0 k dec)].
  destruct q as [a|X o k]; [done|]. destruct Hq as [Ho Hk]. pose proof (opsim_op i o m Ho) as Hs.
  destruct (compile_op_sys o) as (Y & s & k0 & Ec). cbn [compile] in E, Hc. rewrite Ec in E, Hs, Hc.
  by apply (busy_step i c m o s k0 k None).
Qed.

Lemma list_choice {B C D} (R : nat -> B -> C -> D -> Prop) (ps : list B) (Qs : list C) :
  length Qs = length ps ->
  (forall i p Q, ps !! i = Some p -> Qs !! i = Some Q -> exists q, R i p Q q) ->
  exists qs, length qs = length ps /\
    forall i p Q q, ps !! i = Some p -> Qs !! i = Some Q -> qs !! i = Some q -> R i p Q q.
Proof.
  revert R Qs. induction ps as [|p ps IH]; intros R [|Q Qs] Hl Hex; try done.
  - exists []. by split.
  - destruct (Hex 0%nat p Q) as [q Hq]; [done..|].
    destruct (IH (fun i => R (S i)) Qs) as (qs & Hlen & Hqs); [by injection Hl| |].
    { intros i p' Q' Hp HQ. by apply (Hex (S i)). }
    exists (q :: qs). split; [by simpl; rewrite Hlen|]. intros [|i] p' Q' q' Hp HQ Hq'; simplify_eq/=; [done|].
    by eapply Hqs.
Qed.

Lemma trel_choice {A} i m (p : proc A) Q : trel i m p Q ->
  exists q, Q q /\ forall a, p = Done a -> q = Ret a.
Proof.
  intros [q Hq|X o Y s k0 k dec Hs Hk HP].
  - exists q. split; [done|]. intros a. destruct q as [b|X o k]; cbn; [by intros [= ->]|].
    destruct (compile_op_sys o) as (Y & s & k0 & ->). done.
  - destruct dec as [P|]; cbn.
    + destruct (HP P eq_refl) as [x Hx]. exists (k x). split; [by exists x|done].
    + by exists (Vis o k).
Qed.

Lemma unused_back i m m' t : (forall j, j <> i -> rely j m m') -> unused m' t -> unused m t.
Proof.
  intros HR Hu j x Hx Hp. destruct (HR (S i)) as [[_ _ HF _ _] _]; [lia|].
  eapply Hu; [|done]. apply HF; [done|by right].
Qed.

(** The atomic store follows: [sup] are the times of the writes of the run,
    [n] the number of its [Put]s. *)
Record follows {A} (Qs : list (prog A -> Prop)) (m : machine) (ob : gmap string entry) (len : nat)
    (ps' : list (proc A)) (m' : machine) (qs : list (prog A)) (sup : list Z) (n : nat)
    (ts : list (prog A)) (ob' : gmap string entry) : Prop := {
  fo_length : length qs = length Qs;
  fo_choice i q Q : qs !! i = Some q -> Qs !! i = Some Q -> Q q;
  fo_n : (n <= len)%nat;
  fo_nodup : NoDup sup;
  fo_sup t : t ∈ sup -> T0 < t <= T1 /\ unused m t;
  fo_rep : rep m' ob';
  fo_inv : inv m';
  fo_run extra h n0 : exists h', rtc (pstep true)
    (qs, ((n + n0)%nat, MkWorld (MkIdeal ob (sup ++ extra) h) (atoms m)))
    (ts, (n0, MkWorld (MkIdeal ob' extra h') (atoms m')));
  fo_done i a : ps' !! i = Some (Done a) -> ts !! i = Some (Ret a);
}.

Lemma follow_step {A} i (Qs : list (prog A -> Prop)) Q Q' m m1 ob ob1 ot len ps' m' qs sup n ts ob' :
  Qs !! i = Some Q -> (forall j, j <> i -> rely j m m1) -> time_ok ot m m1 ->
  (forall q', Q' q' -> exists q, Q q /\ moves q ob (atoms m) ot q' ob1 (atoms m1)) ->
  follows (<[i := Q']> Qs) m1 ob1 len ps' m' qs sup n ts ob' ->
  exists qs0 sup0 n0, follows Qs m ob (S len) ps' m' qs0 sup0 n0 ts ob'.
Proof.
  intros HQ HR Hot Hmv [F1 F2 F3 F4 F5 F6 F7 F8 F9]. rewrite length_insert in F1.
  assert (i < length Qs)%nat as Hi by (by eapply lookup_lt_Some).
  destruct (lookup_lt_is_Some_2 qs i) as [q1 Hq1]; [lia|].
  assert (forall t, t ∈ sup -> T0 < t <= T1 /\ unused m t) as Hsup.
  { intros t Ht. destruct (F5 t Ht). split; [done|]. by eapply unused_back. }
  destruct (Hmv q1) as (q & Hq & Hmove). { apply (F2 i); [done|]. by rewrite list_lookup_insert_eq. }
  assert (forall j q0 Q0, <[i := q]> qs !! j = Some q0 -> Qs !! j = Some Q0 -> Q0 q0) as Hch.
  { intros j q0 Q0 Hj HQ0. destruct (decide (j = i)) as [->|Hne].
    - rewrite list_lookup_insert_eq in Hj by lia. simplify_eq. done.
    - rewrite list_lookup_insert_ne in Hj by done. apply (F2 j); [done|]. by rewrite list_lookup_insert_ne. }
  destruct Hmove as [(<- & -> & Ea & ->)|(X & o & k & x & -> & -> & Hlin)].
  - exists qs, sup, n. rewrite (list_insert_id qs) in Hch by done. split; try done; [lia|].
    intros extra h n0. destruct (F8 extra h n0) as [h' Hr]. exists h'. by rewrite Ea in Hr.
  - exists (<[i := Vis o k]> qs), (from_option (fun t => t :: sup) sup ot), (cost o + n)%nat.
    split; try done; [by rewrite length_insert| | | |].
    + destruct o; simpl; lia.
    + destruct ot as [t|]; [|done]. apply NoDup_cons. split; [|done]. intros Ht. by apply Hot, F5.
    + destruct ot as [t|]; [|done]. intros t' [->|?]%elem_of_cons; [|by apply Hsup].
      destruct Hot as (? & ? & _). done.
    + intros extra h n0. destruct (Hlin (sup ++ extra) h) as [h1 Hst].
      destruct (F8 extra h1 n0) as [h' Hr]. exists h'. eapply rtc_l; [|exact Hr]. rewrite <-Nat.add_assoc.
      replace qs with (<[i := k x]> (<[i := Vis o k]> qs)) at 2 by (by rewrite list_insert_insert_eq, list_insert_id).
      apply PStep; [rewrite list_lookup_insert_eq by lia; done|]. destruct ot; exact Hst.
Qed.

Lemma pool_sim {A} len (ps : list (proc A)) Qs m ob ps' m' : length Qs = length ps ->
  (forall i p Q, ps !! i = Some p -> Qs !! i = Some Q -> trel i m p Q) -> inv m -> rep m ob ->
  nsteps (mstep T0 T1) len (ps, m) (ps', m') ->
  exists qs sup n ts ob', follows Qs m ob len ps' m' qs sup n ts ob'.
Proof.
  revert ps Qs m ob. induction len as [|len IH]; intros ps Qs m ob Hl Hrel HI Hob Hst.
  - inversion Hst; subst.
    destruct (list_choice (fun i p Q q => Q q /\ forall a, p = Done a -> q = Ret a) ps' Qs Hl) as (qs & Hlq & Hq).
    { intros i p Q Hp HQ. by eapply trel_choice, Hrel. }
    exists qs, [], 0%nat, qs, ob. split; try done; try lia; [|by constructor| | |].
    + intros i q Q Hqi HQ. assert (i < length ps')%nat as Hi by (rewrite <-Hl; by eapply lookup_lt_Some).
      destruct (lookup_lt_is_Some_2 ps' i Hi) as [p Hp]. by destruct (Hq i p Q q).
    + intros t Ht. by apply not_elem_of_nil in Ht.
    + intros extra h n0. by exists h.
    + intros i a Ha. assert (i < length qs)%nat as Hi by (rewrite Hlq; by eapply lookup_lt_Some).
      destruct (lookup_lt_is_Some_2 qs i Hi) as [q Hqi].
      destruct (lookup_lt_is_Some_2 Qs i) as [Q HQ]; [lia|].
      destruct (Hq i _ Q q Ha HQ Hqi) as [_ Hr]. by rewrite Hqi, (Hr a).
  - inversion Hst as [|? ? [ps1 m1] ? Hs1 Hrest]; subst.
    inversion Hs1 as [? i o p p' ? ? Hp Hok Hc]; subst.
    destruct (lookup_lt_is_Some_2 Qs i) as [Q HQ]; [rewrite Hl; by eapply lookup_lt_Some|].
    destruct (trel_step i o m p Q p' m1 ob (Hrel i p Q Hp HQ) HI Hob Hok Hc)
      as (HI1 & HR1 & Q' & ob1 & ot & Ht1 & Hob1 & Hot & Hmv).
    destruct (IH (<[i := p']> ps) (<[i := Q']> Qs) m1 ob1) as (qs & sup & n & ts & ob' & Hf); [|..|done|].
    + by rewrite !length_insert.
    + intros j pj Qj Hpj HQj. destruct (decide (j = i)) as [->|Hne].
      * rewrite list_lookup_insert_eq in Hpj by (by eapply lookup_lt_Some).
        rewrite list_lookup_insert_eq in HQj by (by eapply lookup_lt_Some). by simplify_eq.
      * rewrite list_lookup_insert_ne in Hpj by done.
        rewrite list_lookup_insert_ne in HQj by done. eapply trel_mono; [by apply HR1|by apply Hrel].
    + done.
    + done.
    + destruct (follow_step i Qs Q Q' m m1 ob ob1 ot len ps' m' qs sup n ts ob') as (? & ? & ? & ?); try done.
      by eauto 10.
Qed.

(** ** The whole run *)

Lemma rep_entry m ob k e : inv m -> rep m ob -> ob !! k = Some e ->
  exists j y, inodes m !! j = Some y /\ ipublished y = true /\ e = entry_of y.
Proof.
  intros HI [Hr Hd] Hk. assert (U k) as HU by (apply Hd; by eexists). rewrite Hr in Hk by done.
  unfold entry_at in Hk. destruct (names m !! tgt k) as [[|j]|] eqn:En; [done| |done].
  destruct (inv_file _ HI _ _ HU En) as (j' & y & [= <-] & Hy & Hp). rewrite Hy in Hk.
  injection Hk as <-. eauto.
Qed.

Definition generations (ob : gmap string entry) : gset string :=
  list_to_set (generation <$> (map_to_list ob).*2).

Lemma elem_of_generations ob g : g ∈ generations ob <-> exists k e, ob !! k = Some e /\ g = generation e.
Proof.
  unfold generations. rewrite elem_of_list_to_set, list_elem_of_fmap. split.
  - intros (e & -> & He). apply list_elem_of_fmap in He as ([k e'] & -> & He).
    apply elem_of_map_to_list in He. eauto.
  - intros (k & e & Hk & ->). exists e. split; [done|]. apply list_elem_of_fmap. exists (k, e).
    by rewrite elem_of_map_to_list.
Qed.

(** Times after the run, for the writes of the clients that never happen. *)
Definition later (n : nat) : list Z := (fun j => T1 + 1 + Z.of_nat j) <$> seq 0 n.

Lemma elem_of_later n t : t ∈ later n -> T1 < t <= T1 + Z.of_nat n.
Proof. intros (j & -> & Hj)%list_elem_of_fmap. apply elem_of_seq in Hj. lia. Qed.

Lemma start_ok m ob sup n : inv m -> rep m ob -> NoDup sup ->
  (forall t, t ∈ sup -> T0 < t <= T1 /\ unused m t) -> T1 + Z.of_nat n < 2 ^ 63 -> T0 <= T1 ->
  ideal_ok n (MkIdeal ob (sup ++ later n) (generations ob)).
Proof.
  intros HI Hob Hnd Hsup Hn HT. split; [|split; [|split; [|split]]]; cbn.
  - unfold later. rewrite length_app, length_fmap, length_seq. lia.
  - apply NoDup_app. split; [done|]. split.
    + intros t Ht%Hsup Hl%elem_of_later. lia.
    + apply NoDup_fmap_2; [intros ? ?; lia|apply NoDup_seq].
  - intros t Ht. apply elem_of_app in Ht as Hc.
    assert (0 <= t < 2 ^ 63 /\ unused m t) as [Hr Hu].
    { destruct Hc as [Hc|Hc]; [destruct (Hsup t Hc); split; [lia|done]|]. apply elem_of_later in Hc.
      split; [lia|]. intros j x Hx Hp <-. destruct (inv_published _ HI _ _ Hx Hp) as [_ [?|Ht']]; [lia|].
      apply (inv_taken _ HI) in Ht'. lia. }
    split; [done|]. intros z. rewrite elem_of_generations. intros (k & e & Hk & E).
    destruct (rep_entry _ _ _ _ HI Hob Hk) as (j & y & Hy & Hp & ->). cbn in E.
    apply localGeneration_inj in E as ->; [by apply (Hu j y)|done|].
    destruct (inv_published _ HI _ _ Hy Hp) as [_ [?|Ht']]; [lia|]. apply (inv_taken _ HI) in Ht'. lia.
  - intros g. rewrite elem_of_generations. intros (k & e & Hk & ->).
    destruct (rep_entry _ _ _ _ HI Hob Hk) as (j & y & Hy & Hp & ->).
    destruct (inv_published _ HI _ _ Hy Hp) as [Hl Ht]. exists (imtime y), (Z.of_nat (length (idata y))).
    unfold slice_len in Hl. split; [|split; [lia|done]].
    destruct Ht as [?|Ht']; [lia|]. apply (inv_taken _ HI) in Ht'. lia.
  - intros k e Hk. apply elem_of_generations. eauto.
Qed.

Lemma linearize {A} len (clients : list (prog A)) m ob ps' m' : T1 + Z.of_nat len < 2 ^ 63 -> T0 <= T1 ->
  Forall uses clients -> inv m -> rep m ob ->
  nsteps (mstep T0 T1) len (compile fuel d <$> clients, m) (ps', m') ->
  exists sup n ts s', ideal_ok n (MkIdeal ob sup (generations ob)) /\
    rtc (pstep true) (clients, (n, MkWorld (MkIdeal ob sup (generations ob)) (atoms m)))
      (ts, (0%nat, MkWorld s' (atoms m'))) /\
    inv m' /\ rep m' (contents s') /\ forall i a, ps' !! i = Some (Done a) -> ts !! i = Some (Ret a).
Proof.
  intros Hlen HT Hu HI Hob Hst.
  destruct (pool_sim len (compile fuel d <$> clients) ((fun q q' => q' = q) <$> clients) m ob ps' m')
    as (qs & sup & n & ts & ob' & [F1 F2 F3 F4 F5 F6 F7 F8 F9]); try done.
  - by rewrite !length_fmap.
  - intros i p Q (q & -> & Hq)%list_lookup_fmap_Some (q' & -> & Hq')%list_lookup_fmap_Some.
    assert (q' = q) as -> by congruence. constructor. by eapply Forall_lookup_1.
  - assert (qs = clients) as ->.
    { apply list_eq_same_length with (length clients); [done|by rewrite F1, length_fmap|].
      intros i q q' _ Hq Hq'. apply (F2 i q (fun q0 => q0 = q')) in Hq; [done|].
      by rewrite list_lookup_fmap, Hq'. }
    destruct (F8 (later n) (generations ob) 0%nat) as [h' Hr]. rewrite Nat.add_0_r in Hr.
    exists (sup ++ later n), n, ts, (MkIdeal ob' (later n) h').
    split; [apply (start_ok m); try done; lia|]. done.
Qed.
End Linearizable.
