(* ===== verification/LocalAlone.v ===== *)
(** * objectstore: the local store undisturbed

    A client that has the local store to itself, on a file system whose calls
    do not fail, gets exactly the results of the atomic store of Ideal.v,
    listing included ([alone_compile]).  [alone] says that a program runs to
    its end, whatever the clock and the random suffixes, and ends as
    described. *)

From S2P Require Import Prelude GoStr ObjectStore Prog Ideal LocalFs Local LocalSafety.
Local Open Scope Z_scope.

Section Alone.
Context (d : localStore) (U : string -> Prop) (HUp : forall k, U k -> plain k) (HUf : prefix_free U).
Context (T0 T1 : Z) (HT0 : 0 <= T0) (HT1 : T1 < 2 ^ 63) (fuel : nat).

Abbreviation tgt := (tgt d).
Abbreviation tmp := (tmp d).
Abbreviation inv := (inv d U T0 T1).
Abbreviation rep := (rep d U).
Abbreviation entry_at := (entry_at d).
Abbreviation same_objects := (same_objects d U).
Abbreviation silent := (silent d U T0 T1).
Abbreviation mine := (mine d).
Abbreviation object_file := (object_file d).

Fixpoint alone {A} (i : nat) (p : proc A) (P : A -> machine -> Prop) (m : machine) : Prop :=
  match p with
  | Done a => P a m
  | Sys s k => forall z, kernel_ok T0 T1 (Val z) s m ->
      exists x m', exec_sys i z s m = Some (x, m') /\ alone i (k x) P m'
  end.

Lemma alone_bind {A B} i (p : proc A) (f : A -> proc B) P Q m :
  alone i p P m -> (forall a m', P a m' -> alone i (f a) Q m') -> alone i (proc_bind p f) Q m.
Proof.
  intros Hp Hf. revert m Hp. induction p as [a|X s k IH]; intros m Hp; cbn; [by apply Hf|].
  intros z Hz. destruct (Hp z Hz) as (x & m' & E & Hk). exists x, m'. split; [done|]. by apply IH.
Qed.

Lemma alone_weaken {A} i (p : proc A) (P Q : A -> machine -> Prop) m :
  alone i p P m -> (forall a m', P a m' -> Q a m') -> alone i p Q m.
Proof.
  intros Hp HPQ. revert m Hp. induction p as [a|X s k IH]; intros m Hp; cbn; [by apply HPQ|].
  intros z Hz. destruct (Hp z Hz) as (x & m' & E & Hk). exists x, m'. split; [done|]. by apply IH.
Qed.

(** The same for given choices of the kernel. *)
Fixpoint choices_ok {A} (i : nat) (zs : list Z) (p : proc A) (m : machine) : Prop :=
  match p with
  | Done _ => True
  | Sys s k => kernel_ok T0 T1 (Val (hd 0 zs)) s m /\
      match exec_sys i (hd 0 zs) s m with Some (x, m') => choices_ok i (tail zs) (k x) m' | None => True end
  end.

Lemma alone_run {A} i zs (p : proc A) P m : alone i p P m -> choices_ok i zs p m ->
  exists a m', run_alone i zs p m = Some (a, m') /\ P a m'.
Proof.
  revert zs m. induction p as [a|X s k IH]; intros zs m Ha Hz; cbn; [by exists a, m|].
  destruct Hz as [Hz Hk]. destruct (Ha _ Hz) as (x & m' & E & Hx). rewrite E in Hk |- *. cbn. by apply IH.
Qed.

(** What is known of every interleaving holds of the undisturbed run. *)
Definition apart (i : nat) (m0 m : machine) : Prop := forall j, j <> i -> rely d U j m0 m.

Lemma apart_trans i m0 m1 m2 : apart i m0 m1 -> apart i m1 m2 -> apart i m0 m2.
Proof. intros H1 H2 j Hj. etrans; [by apply H1|by apply H2]. Qed.

Lemma same_trans m0 m1 m2 : same_objects m0 m1 -> same_objects m1 m2 -> same_objects m0 m2.
Proof. intros [H1 H2] [H3 H4]. split; [|congruence]. intros k Hk. by rewrite H3, H1. Qed.

Lemma alone_silent {A} i (p : proc A) P Q m : inv m -> silent i p P m -> alone i p Q m ->
  alone i p (fun a m' => Q a m' /\ P a m' /\ inv m' /\ same_objects m m' /\ apart i m m') m.
Proof.
  intros HI Hs Ha.
  assert (forall m1, inv m1 -> same_objects m m1 -> apart i m m1 -> silent i p P m1 -> alone i p Q m1 ->
    alone i p (fun a m' => Q a m' /\ P a m' /\ inv m' /\ same_objects m m' /\ apart i m m') m1) as H.
  { clear Hs Ha. induction p as [a|X s k IH]; intros m1 HI1 Hso Hap Hs Ha; cbn; [done|].
    intros z Hz. destruct (Ha z Hz) as (x & m' & E & Hk). exists x, m'. split; [done|].
    destruct (Hs m1 (Val z) x m') as [(HI' & Hap' & Hso') Hs']; [reflexivity|done|done|done|].
    apply IH; [done|by eapply same_trans|by eapply apart_trans|done|done]. }
  by apply H.
Qed.

(** ** Tidy directories: the names below the store's directory are its
    objects, temporary files and the directories above them. *)
Record tidy (m : machine) : Prop := {
  ti_root : names m !! [] = Some Dir;
  ti_tree p n : names m !! p = Some n -> p <> [] -> names m !! parent p = Some Dir;
  ti_clear k j f : U k -> (j < length (tgt k))%nat -> names m !! take j (tgt k) <> Some (File f);
  ti_only rel f : names m !! (dir d ++ rel) = Some (File f) ->
    hidden (base rel) = true \/ exists k, U k /\ rel = split_on slash k;
  ti_dirs rel : names m !! (dir d ++ rel) = Some Dir -> rel = [] \/ exists k, U k /\ rel `prefix_of` split_on slash k;
  ti_swept q z : 0 <= z < 2 ^ 32 -> used m !! z = None -> names m !! tmp q z = None;
}.

Lemma tidy_eq m m' : names m' = names m -> used m ⊆ used m' -> tidy m -> tidy m'.
Proof.
  intros En Hu [T1' T2' T3' T4' T5' T6']. split; rewrite ?En; try done.
  intros q z Hr Hz. apply T6'; [done|]. by eapply lookup_weaken_None.
Qed.

Lemma parent_snoc (p : fpath) w : parent (p ++ [w]) = p.
Proof. unfold parent. rewrite length_app. simpl. rewrite Nat.add_1_r. simpl. by rewrite take_app_length. Qed.

Lemma parent_take (p : fpath) j : (0 < j <= length p)%nat -> parent (take j p) = take (pred j) p.
Proof. intros Hj. unfold parent. rewrite length_take, take_take. f_equal. lia. Qed.

Lemma base_snoc (p : fpath) w : base (p ++ [w]) = w.
Proof. unfold base. by rewrite last_snoc. Qed.

(** No name lies below one that is not a directory. *)
Lemma tidy_leaf m p q n : tidy m -> names m !! p <> Some Dir -> names m !! q = Some n -> q <> [] -> parent q <> p.
Proof. intros Ht Hp Hq Hne <-. by eapply Hp, ti_tree. Qed.

Lemma tidy_insert m p n : tidy m -> names m !! p <> Some Dir -> p <> [] -> names m !! parent p = Some Dir ->
  (forall q z, 0 <= z < 2 ^ 32 -> p = tmp q z -> used m !! z <> None) ->
  (forall f, n = File f -> (forall k j, U k -> (j < length (tgt k))%nat -> take j (tgt k) <> p) /\
     forall rel, p = dir d ++ rel -> hidden (base rel) = true \/ exists k, U k /\ rel = split_on slash k) ->
  (n = Dir -> forall rel, p = dir d ++ rel -> rel = [] \/ exists k, U k /\ rel `prefix_of` split_on slash k) ->
  tidy (set_names (<[p := n]> (names m)) m).
Proof.
  intros Ht Hp Hne Hpar Htmp Hf Hdir. assert (parent p <> p) as Hpp by (intros E; by rewrite E in Hpar).
  split; cbn.
  - rewrite lookup_insert_ne by done. apply Ht.
  - intros p' n'. rewrite lookup_insert_Some. intros [[<- <-]|[Hpp' Hp']] Hne'.
    + by rewrite lookup_insert_ne.
    + rewrite lookup_insert_ne; [by eapply ti_tree|]. apply not_eq_sym. by eapply tidy_leaf.
  - intros k j f Hk Hj. rewrite lookup_insert_Some. intros [[E En]|[_ E]]; [|by eapply ti_clear].
    destruct (Hf f En) as [H _]. by eapply H.
  - intros rel f. rewrite lookup_insert_Some. intros [[E En]|[_ E]]; [|by eapply ti_only].
    destruct (Hf f En) as [_ H]. by apply H.
  - intros rel. rewrite lookup_insert_Some. intros [[E En]|[_ E]]; [by apply Hdir|by eapply ti_dirs].
  - intros q z Hr Hz. rewrite lookup_insert_ne; [by apply ti_swept|]. intros E. by eapply Htmp.
Qed.

Lemma tidy_delete m p : tidy m -> names m !! p <> Some Dir -> tidy (set_names (delete p (names m)) m).
Proof.
  intros Ht Hp. split; cbn.
  - rewrite lookup_delete_ne; [apply Ht|]. intros ->. by apply Hp, Ht.
  - intros p' n' [Hpp' Hp']%lookup_delete_Some Hne'.
    rewrite lookup_delete_ne; [by eapply ti_tree|]. apply not_eq_sym. by eapply tidy_leaf.
  - intros k j f Hk Hj [_ E]%lookup_delete_Some. by eapply ti_clear.
  - intros rel f [_ E]%lookup_delete_Some. by eapply ti_only.
  - intros rel [_ E]%lookup_delete_Some. by eapply ti_dirs.
  - intros q z Hr Hz. rewrite lookup_delete_None. right. by apply ti_swept.
Qed.

Lemma tidy_find m k : tidy m -> U k -> forall j, (j <= length (tgt k))%nat ->
  find m (take j (tgt k)) = match names m !! take j (tgt k) with Some n => Ok n | None => Err ENOENT end.
Proof.
  intros Ht Hk j Hj. unfold find. destruct (names m !! take j (tgt k)) as [n|]; [done|].
  destruct (existsb _ _) eqn:E; [|done]. exfalso.
  apply existsb_exists in E as (l & Hl & E). apply in_seq in Hl. rewrite length_take in Hl.
  rewrite take_take in E. destruct (names m !! take (Nat.min l j) (tgt k)) as [[|f]|] eqn:En; try done.
  eapply (ti_clear m Ht k (Nat.min l j) f); [done|lia|done].
Qed.

Lemma tidy_find_tgt m k : tidy m -> U k ->
  find m (tgt k) = match names m !! tgt k with Some n => Ok n | None => Err ENOENT end.
Proof.
  intros Ht Hk. pose proof (tidy_find m k Ht Hk (length (tgt k)) ltac:(lia)) as H.
  by rewrite take_ge in H by lia.
Qed.

Lemma tidy_above m p n j : tidy m -> names m !! p = Some n -> (j < length p)%nat -> names m !! take j p = Some Dir.
Proof.
  intros Ht. revert n. induction p as [|w p IH] using rev_ind; intros n Hn Hj; [simpl in Hj; lia|].
  apply ti_tree in Hn; [|done|by destruct p]. rewrite parent_snoc in Hn. rewrite length_app in Hj. simpl in Hj.
  destruct (decide (j = length p)) as [->|Hne]; [by rewrite take_app_length|].
  rewrite take_app_le by lia. eapply IH; [done|lia].
Qed.

(** A free name in a directory. *)
Lemma tidy_vacant m p : tidy m -> names m !! p = None -> p <> [] -> names m !! parent p = Some Dir ->
  vacant m p = Ok tt.
Proof.
  intros Ht Hn Hne Hp. unfold vacant, find. rewrite Hn, Hp.
  assert (existsb (fun k => match names m !! take k p with Some (File _) => true | _ => false end)
    (seq 0 (length p)) = false) as ->.
  { apply not_true_is_false. intros (j & Hj & E)%existsb_exists. apply in_seq in Hj.
    destruct p as [|w p _] using rev_ind; [done|]. rewrite parent_snoc in Hp. rewrite length_app in Hj. simpl in Hj.
    rewrite take_app_le in E by lia. destruct (decide (j = length p)) as [->|?].
    - rewrite take_ge in E by lia. by rewrite Hp in E.
    - by rewrite (tidy_above m p Dir j) in E by (done || lia). }
  by rewrite decide_False by (intros []; done).
Qed.

(** ** The helpers *)

Lemma tidy_mkdir m k j : tidy m -> U k -> (0 < j < length (tgt k))%nat ->
  names m !! take j (tgt k) = None -> names m !! take (pred j) (tgt k) = Some Dir ->
  tidy (set_names (<[take j (tgt k) := Dir]> (names m)) m).
Proof.
  intros Ht Hk Hj Hn Hp. apply tidy_insert; [done|by rewrite Hn| | | |done|].
  - intros E. apply (f_equal length) in E. rewrite length_take in E. simpl in E. lia.
  - by rewrite parent_take by lia.
  - intros q z _ E. by apply (dir_not_tmp d U HUp) in E.
  - intros _ rel E. right. exists k. split; [done|]. apply (prefix_app_inv (dir d)). rewrite <-E. apply prefix_take.
Qed.

Definition made (k : string) (j : nat) (m : machine) (r : res unit) (m' : machine) : Prop :=
  r = Ok tt /\ tidy m' /\ names m' !! take j (tgt k) = Some Dir /\ mutex m' = mutex m.

Lemma alone_mkdir_one i k j m : tidy m -> U k -> (0 < j < length (tgt k))%nat ->
  names m !! take (pred j) (tgt k) = Some Dir ->
  alone i (mkdir_one (take j (tgt k))) (made k j m) m.
Proof.
  intros Ht Hk Hj Hp z _. cbn. unfold vacant. rewrite tidy_find by (done || lia).
  destruct (names m !! take j (tgt k)) as [[|f]|] eqn:En.
  - eexists _, _. split; [done|]. intros z' _. cbn. rewrite tidy_find, En by (done || lia).
    eexists _, _. split; [done|]. done.
  - apply ti_clear in En; [done|done|done|lia].
  - rewrite decide_False by (intros []; done). rewrite parent_take, Hp by lia.
    eexists _, _. split; [done|]. split; [done|]. split; [by apply tidy_mkdir|]. cbn. by rewrite lookup_insert_eq.
Qed.

Lemma alone_mkdir_all i k rp j m : tidy m -> U k -> (j < length (tgt k))%nat -> reverse rp = take j (tgt k) ->
  alone i (mkdir_all rp) (made k j m) m.
Proof.
  intros Ht Hk. revert j m Ht. induction rp as [|w rp IH]; intros j m Ht Hj Hrp; cbn [mkdir_all].
  - assert (take j (tgt k) = []) as E by (by rewrite <-Hrp).
    intros z _. cbn. unfold find. rewrite (ti_root m Ht). eexists _, _. split; [done|]. cbn. unfold made. rewrite E.
    split; [done|]. split; [done|]. split; [apply Ht|done].
  - assert (j = S (length rp)) as ->.
    { apply (f_equal length) in Hrp. rewrite length_reverse, length_take in Hrp. simpl in Hrp. lia. }
    assert (reverse rp = take (length rp) (tgt k)) as Hrp'.
    { rewrite reverse_cons in Hrp. apply (f_equal (take (length rp))) in Hrp.
      rewrite take_app_length' in Hrp by (by rewrite length_reverse). rewrite Hrp, take_take. f_equal. lia. }
    rewrite Hrp. intros z _. cbn. rewrite tidy_find by (done || lia).
    destruct (names m !! take (S (length rp)) (tgt k)) as [[|f]|] eqn:En.
    + eexists _, _. split; [done|]. done.
    + by apply ti_clear in En.
    + eexists _, _. split; [done|]. cbn. eapply alone_bind; [apply (IH (length rp)); [done|lia|done]|].
      intros r m' (-> & Ht' & Hd & Hm). eapply alone_weaken; [apply alone_mkdir_one; [done|done|lia|done]|].
      intros r m2 (-> & Ht2 & Hd2 & Hm2). split; [done|]. split; [done|]. split; [done|]. congruence.
Qed.

Lemma alone_CreateTemp i q tries m : tidy m -> (0 < tries)%nat -> names m !! (dir d ++ q) = Some Dir ->
  alone i (CreateTemp tries (dir d ++ q)) (fun r m' => is_Some (match r with Ok x => Some x | Err _ => None end) /\
    tidy m' /\ mutex m' = mutex m /\ names m' !! (dir d ++ q) = Some Dir) m.
Proof.
  intros Ht Htr Hd. destruct tries as [|tries]; [lia|]. cbn [CreateTemp]. intros z [Hz Hu]. cbn.
  eexists _, _. split; [done|]. cbn. rewrite <-app_assoc. change (dir d ++ q ++ [temp_name z]) with (tmp q z).
  assert (tidy (set_used z i m)) as Ht1 by (eapply tidy_eq; [| |exact Ht]; [done|by apply insert_subseteq]).
  assert (names m !! tmp q z = None) as Hn by (by apply ti_swept).
  assert (parent (tmp q z) = dir d ++ q) as Hp by (unfold LocalSafety.tmp; by rewrite app_assoc, parent_snoc).
  intros b _. cbn. rewrite tidy_vacant; [|done|done|by unfold LocalSafety.tmp; destruct (dir d), q|by rewrite Hp].
  eexists _, _. split; [done|]. cbn. split; [by eexists|]. split; [|split; [done|]].
  - eapply (tidy_eq (set_names (<[tmp q z := File _]> (names m)) (set_used z i m))); [done|done|].
    apply (tidy_insert (set_used z i m)); [done|by cbn; rewrite Hn|by unfold LocalSafety.tmp; destruct (dir d), q|by rewrite Hp| | |done].
    + intros q' z' Hz' E. apply tmp_inj in E as <-; [|done..]. cbn. by rewrite lookup_insert_eq.
    + intros f _. split; [intros k j Hk _; by apply (dir_not_tmp d U HUp)|].
      intros rel E. apply (inj (app (dir d))) in E as <-. left. by rewrite base_snoc.
  - cbn. rewrite lookup_insert_ne; [done|]. intros E. by rewrite <-E, Hn in Hd.
Qed.

Lemma alone_next i n m : (0 < n)%nat -> alone i (nextLocalModTime n) (fun t m' => m' = set_last t (Some i) m) m.
Proof.
  intros Hn. destruct n as [|n]; [lia|]. cbn. intros now _. eexists _, _. split; [done|].
  cbn. intros z _. eexists _, _. split; [done|]. cbn. intros z' _. rewrite decide_True by done.
  eexists _, _. split; [done|]. done.
Qed.

Lemma alone_advance i n ns m : (0 < n)%nat ->
  alone i (advanceLocalModTime n ns) (fun _ m' => m' = m \/ m' = set_last ns None m) m.
Proof.
  intros Hn. destruct n as [|n]; [lia|]. cbn. intros z _. eexists _, _. split; [done|]. cbn.
  case_decide; [by left|]. intros z' _. cbn. rewrite decide_True by done. eexists _, _. split; [done|]. by right.
Qed.

Lemma alone_lock i m : mutex m = None -> alone i (lock (dir d)) (fun _ m' => m' = set_mutex (Some i) m) m.
Proof.
  intros Hm z _. cbn. rewrite Hm. eexists _, _. split; [done|]. cbn. intros z1 _. eexists _, _. split; [done|].
  destruct (find _ _); cbn; [|done]. intros z2 _. by eexists _, _.
Qed.

Lemma alone_unlock i b m : alone i (unlock b) (fun _ m' => m' = set_mutex None m) m.
Proof.
  destruct b; cbn; [|intros z _; by eexists _, _]. intros z _. eexists _, _. split; [done|].
  intros z1 _. eexists _, _. split; [done|]. intros z2 _. by eexists _, _.
Qed.

(** The helpers again, with what the interleavings know of them. *)
Definition calm (i : nat) (h : option nat) (m0 m : machine) : Prop :=
  inv m /\ tidy m /\ mutex m = h /\ same_objects m0 m /\ apart i m0 m.

Lemma calm_refl i h m : inv m -> tidy m -> mutex m = h -> calm i h m m.
Proof. intros. by split_and!. Qed.

Lemma calm_trans i h h' m0 m1 m2 : calm i h m0 m1 -> calm i h' m1 m2 -> calm i h' m0 m2.
Proof.
  intros (_ & _ & _ & H1 & H2) (H3 & H4 & H5 & H6 & H7).
  split_and!; try done; [by eapply same_trans|by eapply apart_trans].
Qed.

Lemma tidy_meta m m' : names m' = names m -> used m' = used m -> tidy m -> tidy m'.
Proof. intros En Eu. apply tidy_eq; [done|by rewrite Eu]. Qed.

Lemma calm_meta i h m m' : tidy m -> names m' = names m -> used m' = used m -> mutex m' = h ->
  inv m' -> same_objects m m' -> apart i m m' -> calm i h m m'.
Proof. intros Ht En Eu. split; [done|]. split; [by apply (tidy_meta m)|done]. Qed.

Lemma calm_lock i m : inv m -> tidy m -> mutex m = None ->
  alone i (lock (dir d)) (fun _ m' => calm i (Some i) m m' /\ frame d i m m' /\ names m' = names m) m.
Proof.
  intros HI Ht Hm. eapply alone_weaken; [eapply alone_silent; [done|by apply silent_lock|by apply alone_lock]|].
  intros b m' (-> & (Hf & _) & HI' & Hso & Hap). split; [by apply calm_meta|done].
Qed.

Lemma calm_unlock i b m : inv m -> tidy m -> mutex m = Some i ->
  alone i (unlock b) (fun _ m' => calm i None m m' /\ frame d i m m' /\ names m' = names m) m.
Proof.
  intros HI Ht Hm. eapply alone_weaken; [eapply alone_silent; [done|by apply silent_unlock|by apply alone_unlock]|].
  intros u m' (-> & Hf & HI' & Hso & Hap). split; [by apply calm_meta|done].
Qed.

Lemma calm_advance i n ns m : (0 < n)%nat -> inv m -> tidy m ->
  alone i (advanceLocalModTime n ns) (fun _ m' => calm i (mutex m) m m' /\ names m' = names m /\ inodes m' = inodes m /\ rely d U i m m') m.
Proof.
  intros Hn HI Ht. eapply alone_weaken; [eapply alone_silent; [done|by apply silent_advance|by apply alone_advance]|].
  intros u m' (E & Hr & HI' & Hso & Hap). destruct E as [-> | ->]; (split; [by apply calm_meta|done]).
Qed.

Lemma calm_next i n m : (0 < n)%nat -> inv m -> tidy m ->
  alone i (nextLocalModTime n) (fun t m' => calm i (mutex m) m m' /\ names m' = names m /\ inodes m' = inodes m /\
    rely d U i m m' /\ T0 < t <= T1 /\ taken m' !! t = Some i /\ unused m' t) m.
Proof.
  intros Hn HI Ht. eapply alone_weaken; [eapply alone_silent; [done|by apply silent_next|by apply alone_next]|].
  intros u m' (-> & (Hr & Hx) & HI' & Hso & Hap). split; [by apply calm_meta|done].
Qed.

(** ** Calls *)

(** The atomic store makes the call without failing. *)
Definition exact {X} (o : op X) (ob : gmap string entry) (c : gmap nat Z) (ot : option Z) (x : X)
    (ob' : gmap string entry) (c' : gmap nat Z) : Prop :=
  forall sup h, exists h', Prog.exec o (MkWorld (MkIdeal ob (from_option (fun t => t :: sup) sup ot) h) c)
    = (x, MkWorld (MkIdeal ob' sup h') c').

(** The write of a step took the time [ot], and no time became free. *)
Definition timed (ot : option Z) (m m' : machine) : Prop :=
  time_ok T0 T1 ot m m' /\ forall t, unused m' t -> unused m t.

Lemma timed_apart i m m' : apart i m m' -> timed None m m'.
Proof. intros H. split; [done|]. intros t. by apply (unused_back d U i). Qed.

Lemma timed_step i ot m m1 m2 m3 : apart i m m1 -> timed ot m1 m2 -> apart i m2 m3 -> timed ot m m3.
Proof.
  intros H1 [Ht Hb] H3. pose proof (fun t => unused_back d U i _ _ t H1). pose proof (fun t => unused_back d U i _ _ t H3). split; [|by eauto].
  destruct ot as [t|]; [|done]. destruct Ht as (Ht & Hu & Hn). split; [done|]. split; [by eauto|].
  intros Hu3. apply Hn. by eauto.
Qed.

Definition settled (m : machine) : Prop := inv m /\ tidy m /\ mutex m = None.

Definition served {X} (o : op X) (ob : gmap string entry) (m : machine) (x : X) (m' : machine) : Prop :=
  settled m' /\ exists ob' ot, rep m' ob' /\ timed ot m m' /\ exact o ob (atoms m) ot x ob' (atoms m').

Lemma served_read {X} (o : op X) ob m x : settled m -> rep m ob ->
  (forall sup h, Prog.exec o (MkWorld (MkIdeal ob sup h) (atoms m)) = (x, MkWorld (MkIdeal ob sup h) (atoms m))) ->
  served o ob m x m.
Proof.
  intros Hs Hob He. split; [done|]. exists ob, None. split; [done|]. split; [by split|].
  intros sup h. exists h. apply He.
Qed.

Lemma object_cases m k : inv m -> tidy m -> U k ->
  find m (tgt k) = Err ENOENT /\ names m !! tgt k = None /\ entry_at m k = None \/
  exists j y, find m (tgt k) = Ok (File j) /\ object_file m k j y /\ entry_at m k = Some (entry_of y).
Proof.
  intros HI Ht Hk. rewrite tidy_find_tgt by done. unfold LocalSafety.entry_at.
  destruct (names m !! tgt k) as [n|] eqn:En; [|by left]. right.
  destruct (inv_file _ _ _ _ _ HI _ _ Hk En) as (j & y & -> & Hy & Hp). exists j, y. rewrite Hy. done.
Qed.

Lemma alone_Stat i k m ob : settled m -> rep m ob -> U k -> alone i (Stat d k) (served (OStat k) ob m) m.
Proof.
  intros Hs Hob Hk z _. eexists _, _. split; [done|]. cbn. rewrite path_plain by auto. cbn. intros z1 _.
  fold (tgt k). pose proof Hob as [Hob' _].
  destruct (object_cases m k (proj1 Hs) (proj1 (proj2 Hs)) Hk) as [(-> & _ & He)|(j & y & -> & (_ & Hy & _) & He)]; cbn.
  - eexists _, _. split; [done|]. apply served_read; [done|done|]. intros sup h. cbn. unfold Mem.Stat. cbn.
    by rewrite Hob', He.
  - rewrite Hy. eexists _, _. split; [done|]. apply served_read; [done|done|]. intros sup h. cbn. unfold Mem.Stat. cbn.
    by rewrite Hob', He.
Qed.

Lemma alone_Exists i k m ob : settled m -> rep m ob -> U k -> alone i (Exists d k) (served (OExists k) ob m) m.
Proof.
  intros Hs Hob Hk z _. eexists _, _. split; [done|]. cbn. rewrite path_plain by auto. cbn. intros z1 _.
  fold (tgt k). pose proof Hob as [Hob' _].
  destruct (object_cases m k (proj1 Hs) (proj1 (proj2 Hs)) Hk) as [(-> & _ & He)|(j & y & -> & (_ & Hy & _) & He)]; cbn.
  - eexists _, _. split; [done|]. apply served_read; [done|done|]. intros sup h. cbn. by rewrite Hob', He.
  - rewrite Hy. eexists _, _. split; [done|]. apply served_read; [done|done|]. intros sup h. cbn.
    by rewrite Hob', He.
Qed.

Lemma alone_Get i k m ob : settled m -> rep m ob -> U k ->
  alone i (compile_op fuel d (OGet k)) (served (OGet k) ob m) m.
Proof.
  intros Hs Hob Hk z _. eexists _, _. split; [done|]. cbn. unfold open_. rewrite path_plain by auto. cbn.
  intros z1 _. fold (tgt k). pose proof Hob as [Hob' _].
  destruct (object_cases m k (proj1 Hs) (proj1 (proj2 Hs)) Hk) as [(-> & _ & He)|(j & y & -> & (_ & Hy & _) & He)]; cbn.
  - eexists _, _. split; [done|]. apply served_read; [done|done|]. intros sup h. cbn. unfold Mem.Get. cbn.
    by rewrite Hob', He.
  - eexists _, _. split; [done|]. cbn. intros z2 _. rewrite Hy. eexists _, _. split; [done|]. cbn.
    intros z3 _. rewrite Hy. eexists _, _. split; [done|]. cbn. intros z4 _. eexists _, _. split; [done|].
    apply served_read; [done|done|]. intros sup h. cbn. unfold Mem.Get. cbn. by rewrite Hob', He.
Qed.

Lemma rep_calm i h m m' ob : calm i h m m' -> rep m ob -> rep m' ob.
Proof. intros (_ & _ & _ & Hso & _). by apply rep_same. Qed.

Lemma alone_ctx {A} i (f : option error -> proc A) P m : alone i (f None) P m ->
  alone i (proc_bind (sys_ SCtxErr) f) P m.
Proof. intros H z _. by eexists _, _. Qed.

Lemma alone_Delete i k m ob : (0 < fuel)%nat -> settled m -> rep m ob -> U k ->
  alone i (Delete fuel d k) (served (ODelete k) ob m) m.
Proof.
  intros Hfuel (HI & Ht & Hmx) Hob Hk. apply alone_ctx. rewrite path_plain by auto. fold (tgt k).
  eapply alone_bind; [by apply calm_lock|]. intros l m1 [Hc1 _]. pose proof Hc1 as (HI1 & Ht1 & Hmx1 & Hso1 & Hap1).
  pose proof (rep_calm _ _ _ _ _ Hc1 Hob) as Hob1. pose proof Hob1 as [Hob1' _].
  assert (atoms m1 = atoms m) as Ha1 by apply Hso1.
  eapply (alone_bind _ _ _ (fun r m' => inv m' /\ tidy m' /\ mutex m' = Some i /\ atoms m' = atoms m /\
    apart i m m' /\ exists ob', rep m' ob' /\ exact (ODelete k) ob (atoms m) None r ob' (atoms m))).
  - intros z1 _. cbn. destruct (object_cases m1 k HI1 Ht1 Hk) as [(-> & _ & He)|(j & y & Hf & (Hn & Hy & _) & He)]; cbn.
    + eexists _, _. split; [done|]. cbn. split_and!; try done. exists ob. split; [done|].
      intros sup h. exists h. cbn. unfold del, Mem.Delete. cbn. by rewrite Hob1', He.
    + rewrite Hf. cbn. rewrite Hy. eexists _, _. split; [done|]. cbn. intros z2 _. unfold remove. rewrite Hf.
      eexists _, _. split; [done|]. cbn.
      destruct (unlink_step d U HUp HUf T0 T1 i m1 k HI1 Hk Hmx1) as (HI2 & HR2 & Ha2 & Hn2 & Ho2).
      assert (tidy (set_names (delete (tgt k) (names m1)) m1)) as Ht2 by (apply tidy_delete; [done|by rewrite Hn]).
      eapply alone_bind; [by apply calm_advance|]. intros u m3 (Hc3 & _).
      pose proof Hc3 as (HI3 & Ht3 & Hmx3 & [_ Ha3] & Hap3).
      split; [done|]. split; [done|]. split; [by rewrite Hmx3|]. split; [by rewrite Ha3|].
      split; [eapply apart_trans; [done|]; by eapply apart_trans|].
      exists (delete k ob). split; [eapply rep_calm; [done|]; by eapply rep_delete|].
      intros sup h. exists h. cbn. unfold del, Mem.Delete. cbn. by rewrite Hob1', He.
  - intros r m2 (HI2 & Ht2 & Hmx2 & Ha2 & Hap2 & ob' & Hob2 & Hex).
    eapply alone_bind; [by apply calm_unlock|]. intros u m3 [Hc3 _]. pose proof Hc3 as (HI3 & Ht3 & Hmx3 & [_ Ha3] & Hap3).
    split; [done|]. exists ob', None. split; [by eapply rep_calm|].
    split; [eapply (timed_apart i), apart_trans; done|].
    by rewrite Ha3, Ha2.
Qed.

(** *** Put *)
Abbreviation primed := (primed d T0 T1).

Lemma calm_mkdir i k m : inv m -> tidy m -> U k ->
  alone i (MkdirAll (parent (tgt k))) (fun r m' => r = Ok tt /\ calm i (mutex m) m m' /\
    names m' !! parent (tgt k) = Some Dir) m.
Proof.
  intros HI Ht Hk. destruct (parent_tgt d k) as (_ & Hp & Hl). rewrite Hp. unfold MkdirAll.
  eapply alone_weaken; [eapply alone_silent; [done| |]|].
  - eapply silent_mkdir_all; [done..|]. by rewrite reverse_involutive.
  - eapply alone_mkdir_all; [done..|]. by rewrite reverse_involutive.
  - intros r m' ((-> & Ht' & Hd & Hm) & _ & HI' & Hso & Hap). done.
Qed.

Lemma calm_temp i q tries m : (0 < tries)%nat -> inv m -> tidy m -> names m !! (dir d ++ q) = Some Dir ->
  alone i (CreateTemp tries (dir d ++ q)) (fun r m' => exists z ino x, r = Ok (ino, tmp q z) /\
    mine i q z ino x m' /\ idata x = [] /\ calm i (mutex m) m m' /\ names m' !! (dir d ++ q) = Some Dir) m.
Proof.
  intros Htr HI Ht Hd.
  eapply alone_weaken; [eapply alone_silent; [done|by apply silent_CreateTemp|by apply alone_CreateTemp]|].
  intros [[ino tp]|e] m' ((Hok & Ht' & Hm & Hd') & Hr & HI' & Hso & Hap); [|by destruct Hok].
  destruct Hr as (z & x & -> & Hmine & Hx). exists z, ino, x. done.
Qed.

Lemma calm_copy i q z ino x dt m : inv m -> tidy m -> mine i q z ino x m -> idata x = [] ->
  alone i (copy_temp ino (MkReader dt None)) (fun r m' => r = Ok tt /\ calm i (mutex m) m m' /\
    names m' = names m /\ exists x', mine i q z ino x' m' /\ idata x' = dt) m.
Proof.
  intros HI Ht Hm Hx. eapply alone_weaken; [eapply (alone_silent _ _ _ (fun r m' => r = Ok tt /\
    names m' = names m /\ used m' = used m /\ mutex m' = mutex m)); [done|by eapply silent_copy|]|].
  - intros z1 _. cbn. rewrite (my_inode _ _ _ _ _ _ _ Hm). eexists _, _. split; [done|]. cbn.
    intros z2 _. by eexists _, _.
  - intros r m' ((-> & En & Eu & Em) & (_ & Hmine) & HI' & Hso & Hap). split; [done|].
    split; [by apply calm_meta|]. done.
Qed.

Lemma calm_chtimes i q z ino x t m : inv m -> tidy m -> mine i q z ino x m -> T0 < t <= T1 ->
  taken m !! t = Some i -> unused m t ->
  alone i (sys_ (SChtimes (tmp q z) t)) (fun r m' => r = Ok tt /\ calm i (mutex m) m m' /\
    names m' = names m /\ exists x', primed i q z ino x' m' /\ idata x' = idata x) m.
Proof.
  intros HI Ht Hm Htt Htk Hu. eapply alone_weaken; [eapply (alone_silent _ _ _ (fun r m' => r = Ok tt /\
    names m' = names m /\ used m' = used m /\ mutex m' = mutex m)); [done|by eapply silent_chtimes|]|].
  - intros z1 _. cbn. unfold find. rewrite (my_name _ _ _ _ _ _ _ Hm), (my_inode _ _ _ _ _ _ _ Hm).
    by eexists _, _.
  - intros r m' ((-> & En & Eu & Em) & (_ & _ & _ & Hpr) & HI' & Hso & Hap). split; [done|].
    split; [by apply calm_meta|]. done.
Qed.

Lemma calm_unlink i q z m : inv m -> tidy m -> used m !! z = Some i -> names m !! tmp q z <> Some Dir ->
  alone i (sys_ (SRemove (tmp q z))) (fun _ m' => calm i (mutex m) m m') m.
Proof.
  intros HI Ht Hz Hd z1 _. cbn. unfold remove, find.
  destruct (quiet_unlink d U HUp HUf T0 T1 i m q z HI Hz) as (HI' & Hap & Hso).
  destruct (names m !! tmp q z) as [[|f]|] eqn:En; [done| |].
  - eexists _, _. split; [done|]. cbn. split; [done|]. split; [apply tidy_delete; [done|by rewrite En]|]. done.
  - exists (Err (if existsb (fun k => match names m !! take k (tmp q z) with Some (File _) => true | _ => false end)
      (seq 0 (length (tmp q z))) then ENOTDIR else ENOENT)), m.
    split; [by destruct (existsb _ _)|]. by apply calm_refl.
Qed.


(** The outcome of a write before its temporary file is removed. *)
Definition wrote (i : nat) (h : option nat) q z k dt cond ob m (r : res string) (m' : machine) : Prop :=
  inv m' /\ tidy m' /\ mutex m' = h /\ used m' !! z = Some i /\ names m' !! tmp q z <> Some Dir /\
  atoms m' = atoms m /\ exists ob' ot, rep m' ob' /\ timed ot m m' /\
    exact (OPut k dt cond) ob (atoms m) ot r ob' (atoms m).

Lemma wrote_rejected i h q z ino x k dt cond ob m m' : calm i h m m' -> mine i q z ino x m' -> rep m ob ->
  ~ malformed cond -> rejects cond (ob !! k) = true ->
  wrote i h q z k dt cond ob m (Err ErrPreconditionFailed) m'.
Proof.
  intros Hc Hm Hob Hmal Hrej. pose proof Hc as (HI & Ht & Hmx & [_ Ha] & Hap).
  split_and!; try done; [apply Hm|by rewrite (my_name _ _ _ _ _ _ _ Hm)|].
  exists ob, None. split; [by eapply rep_calm|]. split; [by eapply (timed_apart i)|]. intros sup hs. exists hs.
  by apply put_reject_ideal.
Qed.

(** The publishing step: [m1] is the state before, [ns] the names after. *)
Lemma wrote_published i h q z ino x k cond ob m m1 ns : calm i h m m1 -> primed i q z ino x m1 -> rep m ob ->
  U k -> slice_len (idata x) -> ~ malformed cond -> rejects cond (ob !! k) = false ->
  names m1 !! tgt k = None \/ mutex m1 = Some i ->
  ns !! tgt k = Some (File ino) -> (forall p, p <> tgt k -> p <> tmp q z -> ns !! p = names m1 !! p) ->
  ns !! tmp q z <> Some Dir ->
  let m' := set_inode ino (publish x) (set_names ns m1) in tidy m' ->
  wrote i h q z k (idata x) cond ob m (Ok (generation (entry_of x))) m' /\ object_file m' k ino (publish x).
Proof.
  intros Hc (Hm & Htt & Htk & Hu) Hob Hk Hlen Hmal Hrej Hfree Hns Hother Hnd m' Ht'.
  pose proof Hc as (HI & Ht & Hmx & [_ Ha] & Hap).
  destruct (publish_step d U HUp HUf T0 T1 i q z ino x m1 k ns HI Hk Hm Hlen Htk Hu Hfree Hns Hother)
    as (HI2 & HR2 & Ha2 & Hu2 & He & Ho).
  split; [|split; [done|]; split; [cbn; by rewrite lookup_insert_eq|done]].
  split_and!; try done; [apply Hm|].
  exists (<[k := entry_of x]> ob), (Some (imtime x)). split; [eapply rep_insert; [done|by eapply rep_calm|done|done]|].
  split; [apply (timed_step i (Some (imtime x)) m m1 m' m'); [done| |done]; split; [done|]; intros t; by apply (unused_back d U i)|].
  intros sup hs. eexists. by apply put_exec_ideal.
Qed.

Lemma tgt_ne k : tgt k <> [].
Proof. intros [_ E]%app_eq_nil. by apply split_on_nonempty in E. Qed.

Lemma tidy_tgt m k ino : tidy m -> U k -> names m !! tgt k <> Some Dir -> names m !! parent (tgt k) = Some Dir ->
  tidy (set_names (<[tgt k := File ino]> (names m)) m).
Proof.
  intros Ht Hk Hn Hp. apply tidy_insert; [done|done|apply tgt_ne|done| | |done].
  - intros q z _ E. by apply (tgt_not_tmp d U HUp) in E.
  - intros f _. split; [intros k' j Hk' Hj E; by apply (dir_not_tgt d U HUf k' k j)|].
    intros rel E. apply (inj (app (dir d))) in E as <-. right. by exists k.
Qed.

Lemma alone_put_absent i q z ino x k cond m ob : (0 < fuel)%nat -> inv m -> tidy m -> mine i q z ino x m ->
  slice_len (idata x) -> U k -> ~ malformed cond -> Absent cond = true -> rep m ob ->
  names m !! parent (tgt k) = Some Dir ->
  alone i (put_absent fuel (tmp q z) (tgt k)) (wrote i (mutex m) q z k (idata x) cond ob m) m.
Proof.
  intros Hfu HI Ht Hm Hlen Hk Hmal Habs Hob Hp. unfold put_absent.
  eapply alone_bind; [by apply calm_next|]. intros t m1 (Hc1 & En1 & _ & Hr1 & Htt & Htk & Hu).
  pose proof Hc1 as (HI1 & Ht1 & _). apply (mine_stable _ _ _ _ _ _ _ _ (r_frame _ _ _ _ _ Hr1)) in Hm.
  eapply alone_bind; [by apply (calm_chtimes i q z ino x)|]. intros r m2 (-> & Hc2 & En2 & x' & Hpr & Ex).
  rewrite <-Ex in *. pose proof (calm_trans _ _ _ _ _ _ Hc1 Hc2) as Hc. pose proof Hc2 as (HI2 & Ht2 & _).
  assert (names m2 !! parent (tgt k) = Some Dir) as Hp2 by (by rewrite En2, En1).
  assert (mutex m1 = mutex m) as Em by apply Hc1. rewrite Em in Hc. pose proof Hpr as (Hm2 & _).
  assert (forall e, entry_at m2 k = e -> ob !! k = e) as Hobk.
  { intros e <-. by apply (rep_calm _ _ _ _ _ Hc Hob). }
  intros z1 _. cbn. unfold link. unfold find at 1.
  rewrite (my_name _ _ _ _ _ _ _ Hm2), (my_inode _ _ _ _ _ _ _ Hm2).
  destruct (object_cases m2 k HI2 Ht2 Hk) as [(Hf & Hn & He)|(j & y & Hf & _ & He)].
  - rewrite tidy_vacant by (done || apply tgt_ne). eexists _, _. split; [done|].
    destruct (wrote_published i (mutex m) q z ino x' k cond ob m m2 (<[tgt k := File ino]> (names m2)))
      as [Hw (Hn' & Hy' & _)]; try done.
    + unfold rejects. by rewrite Habs, (Hobk None He).
    + by left.
    + by rewrite lookup_insert_eq.
    + intros p Hpk _. by rewrite lookup_insert_ne.
    + rewrite lookup_insert_ne by (by apply (tgt_not_tmp d U HUp)). by rewrite (my_name _ _ _ _ _ _ _ Hm2).
    + eapply (tidy_meta (set_names _ m2)); [done|done|]. apply tidy_tgt; [done|done|by rewrite Hn|done].
    + intros z2 _. cbn [exec_sys]. unfold find. rewrite Hn'. cbn [handle info]. rewrite Hy'. eexists _, _. split; [done|].
      exact Hw.
  - unfold vacant. rewrite Hf. eexists _, _. split; [done|]. cbn. eapply wrote_rejected; try done.
    unfold rejects. by rewrite Habs, (Hobk _ He).
Qed.

Lemma tidy_rename m k q z ino : tidy m -> U k -> names m !! tgt k <> Some Dir -> names m !! parent (tgt k) = Some Dir ->
  names m !! tmp q z <> Some Dir -> tidy (set_names (<[tgt k := File ino]> (delete (tmp q z) (names m))) m).
Proof.
  intros Ht Hk Hn Hp Htmp. pose proof (tidy_delete m (tmp q z) Ht Htmp) as Ht2.
  pose proof (tgt_not_tmp d U HUp HUf k q z Hk) as Hne.
  apply (tidy_tgt _ k ino) in Ht2; [exact Ht2|done|..]; cbn; rewrite lookup_delete_ne; try done.
  intros E. by rewrite E in Htmp.
Qed.

(** [m0] is where the write began, [m] where its condition was found to hold. *)
Lemma alone_replace i q z ino x k cond m0 m ob : (0 < fuel)%nat -> calm i (Some i) m0 m -> mine i q z ino x m ->
  slice_len (idata x) -> U k -> ~ malformed cond -> rejects cond (ob !! k) = false -> rep m0 ob ->
  names m !! parent (tgt k) = Some Dir ->
  alone i (replace fuel (tmp q z) (tgt k)) (wrote i (Some i) q z k (idata x) cond ob m0) m.
Proof.
  intros Hfu Hc0 Hm Hlen Hk Hmal Hrej Hob Hp. unfold replace. pose proof Hc0 as (HI & Ht & Hmx & _).
  eapply alone_bind; [by apply calm_next|]. intros t m1 (Hc1 & En1 & _ & Hr1 & Htt & Htk & Hu).
  pose proof Hc1 as (HI1 & Ht1 & Em1 & _). apply (mine_stable _ _ _ _ _ _ _ _ (r_frame _ _ _ _ _ Hr1)) in Hm.
  eapply alone_bind; [by apply (calm_chtimes i q z ino x)|]. intros r m2 (-> & Hc2 & En2 & x' & Hpr & Ex).
  rewrite <-Ex in *. pose proof (calm_trans _ _ _ _ _ _ Hc0 (calm_trans _ _ _ _ _ _ Hc1 Hc2)) as Hc.
  rewrite Em1, Hmx in Hc. pose proof Hc2 as (HI2 & Ht2 & Em2 & _). rewrite Em1, Hmx in Em2.
  assert (names m2 !! parent (tgt k) = Some Dir) as Hp2 by (by rewrite En2, En1). pose proof Hpr as (Hm2 & _).
  pose proof (my_name _ _ _ _ _ _ _ Hm2) as Hn2. pose proof (tgt_not_tmp d U HUp HUf k q z Hk) as Hne.
  assert (names m2 !! tgt k <> Some Dir) as Hnd.
  { intros E. destruct (inv_file _ _ _ _ _ HI2 k _ Hk E) as (? & ? & ? & _). done. }
  intros z1 _. cbn [exec_sys]. set (ns := <[tgt k := File ino]> (delete (tmp q z) (names m2))).
  assert (rename (tmp q z) (tgt k) m2 = (Ok tt, set_inode ino (publish x') (set_names ns m2))) as ->.
  { unfold rename. unfold find at 1. rewrite Hn2, (my_inode _ _ _ _ _ _ _ Hm2).
    destruct (object_cases m2 k HI2 Ht2 Hk) as [(Hf & Hn & He)|(j & y & Hf & (_ & Hy & Hyp) & He)]; rewrite Hf.
    - rewrite tidy_vacant by (done || apply tgt_ne). cbn. by rewrite decide_False.
    - rewrite decide_False; [done|]. intros [= ->]. rewrite (my_inode _ _ _ _ _ _ _ Hm2) in Hy. injection Hy as <-.
      by rewrite (my_secret _ _ _ _ _ _ _ Hm2) in Hyp. }
  eexists _, _. split; [done|].
  destruct (wrote_published i (Some i) q z ino x' k cond ob m0 m2 ns) as [Hw (Hn' & Hy' & _)]; try done.
  - by right.
  - subst ns. by rewrite lookup_insert_eq.
  - intros p Hpk Hpt. subst ns. by rewrite lookup_insert_ne, lookup_delete_ne.
  - subst ns. by rewrite lookup_insert_ne, lookup_delete_eq by done.
  - eapply (tidy_meta (set_names ns m2)); [done|done|]. apply tidy_rename; try done. by rewrite Hn2.
  - intros z2 _. cbn [exec_sys]. unfold find. rewrite Hn'. cbn [handle info]. rewrite Hy'. eexists _, _. split; [done|].
    exact Hw.
Qed.

Lemma alone_put_locked i q z ino x k cond m0 m ob : (0 < fuel)%nat -> calm i (Some i) m0 m -> mine i q z ino x m ->
  slice_len (idata x) -> U k -> ~ malformed cond -> Absent cond = false -> rep m0 ob ->
  names m !! parent (tgt k) = Some Dir ->
  alone i (put_locked fuel (tmp q z) (tgt k) cond) (wrote i (Some i) q z k (idata x) cond ob m0) m.
Proof.
  intros Hfu Hc Hm Hlen Hk Hmal Habs Hob Hp z1 _. pose proof Hc as (HI & Ht & Hmx & _). cbn [exec_sys].
  assert (ob !! k = entry_at m k) as Hobk by (by apply (rep_calm _ _ _ _ _ Hc Hob)).
  destruct (object_cases m k HI Ht Hk) as [(-> & Hn & He)|(j & y & -> & (Hn & Hy & Hyp) & He)].
  - eexists _, _. split; [done|]. cbn [proc_mbind proc_bind]. unfold ptry. cbn [mret proc_mret proc_bind].
    change (IsNotExist ENOENT) with true. cbn iota. case_decide as Hg.
    + eapply wrote_rejected; try done. rewrite Hobk, He. apply rejects_gen; [done|apply Hg|done].
    + apply (alone_replace i q z ino x); try done. rewrite Hobk, He. unfold rejects. rewrite Habs, decide_False; [done|].
      intros H. apply Hg. auto.
  - cbn [handle info]. rewrite Hy. eexists _, _. split; [done|]. cbn [proc_mbind proc_bind]. unfold ptry.
    eapply (alone_bind _ _ _ (fun r m1 => r = Ok (generation (entry_of y)) /\ calm i (mutex m) m m1 /\
      names m1 = names m /\ rely d U i m m1)).
    { eapply alone_bind; [by apply calm_advance|]. intros u m1 (? & ? & _ & ?). done. }
    intros r m1 (-> & Hc1 & En1 & Hr1). rewrite Hmx in Hc1.
    pose proof (calm_trans _ _ _ _ _ _ Hc Hc1) as Hc2.
    apply (mine_stable _ _ _ _ _ _ _ _ (r_frame _ _ _ _ _ Hr1)) in Hm.
    case_decide as Hg.
    + eapply wrote_rejected; try done. rewrite Hobk, He. apply rejects_gen; [done|apply Hg|].
      intros e' [= <-]. destruct Hg as [_ [E|?]]; [by apply localGeneration_ne in E|done].
    + apply (alone_replace i q z ino x); try done; [|by rewrite En1]. rewrite Hobk, He. unfold rejects. rewrite Habs.
      case_decide as Hg2; [|done]. apply bool_decide_eq_false_2. intros Hne. apply Hg. auto.
Qed.

Lemma alone_Put i k dt cond m ob : (0 < fuel)%nat -> settled m -> rep m ob -> U k -> slice_len dt ->
  alone i (Put fuel d k (MkReader dt None) cond) (served (OPut k dt cond) ob m) m.
Proof.
  intros Hfu (HI & Ht & Hmx) Hob Hk Hlen. apply alone_ctx. rewrite path_plain by auto. fold (tgt k).
  case_decide as Hmal.
  { apply served_read; [done|done|]. intros sup h. cbn. unfold put. by rewrite decide_True. }
  eapply alone_bind; [by apply calm_mkdir|]. intros r m1 (-> & Hc1 & Hp1). rewrite Hmx in Hc1.
  pose proof Hc1 as (HI1 & Ht1 & Hmx1 & _). destruct (parent_tgt d k) as (Hpe & _). rewrite Hpe in *.
  eapply alone_bind; [apply calm_temp; try done; lia|].
  intros r m2 (z & ino & x & -> & Hm & Hx & Hc2 & Hp2). rewrite Hmx1 in Hc2. pose proof Hc2 as (HI2 & Ht2 & Hmx2 & _).
  pose proof (calm_trans _ _ _ _ _ _ Hc1 Hc2) as Hc12.
  eapply (alone_bind _ _ _ (wrote i None (updir k) z k dt cond ob m)); cycle 1.
  { intros r m3 (HI3 & Ht3 & Hmx3 & Hz & Hnd & Ha & ob' & ot & Hob' & Hot & Hex).
    eapply alone_bind; [by apply (calm_unlink i (updir k) z)|]. intros u m4 Hc4. rewrite Hmx3 in Hc4.
    pose proof Hc4 as (HI4 & Ht4 & Hmx4 & [_ Ha4] & Hap4). split; [done|]. exists ob', ot.
    split; [by eapply rep_calm|]. split; [by eapply (timed_step i ot m m m3 m4)|]. by rewrite Ha4, Ha. }
  eapply alone_bind; [by apply (calm_copy i (updir k) z ino x)|].
  intros r m3 (-> & Hc3 & En3 & x' & Hm3 & Ex). subst dt. rewrite Hmx2 in Hc3.
  pose proof (calm_trans _ _ _ _ _ _ Hc12 Hc3) as Hc. pose proof Hc as (HI3 & Ht3 & Hmx3 & [_ Ha3] & Hap3).
  assert (names m3 !! parent (tgt k) = Some Dir) as Hp3 by (by rewrite Hpe, En3).
  pose proof (rep_calm _ _ _ _ _ Hc Hob) as Hob3.
  apply alone_ctx. destruct (Absent cond) eqn:Habs.
  - eapply alone_weaken; [by apply (alone_put_absent i (updir k) z ino x')|].
    intros r m4 (HI4 & Ht4 & Hmx4 & Hz4 & Hnd4 & Ha4 & ob' & ot & Hob' & Hot & Hex).
    split_and!; try done; [by rewrite Hmx4|by rewrite Ha4|]. exists ob', ot. split; [done|].
    split; [by eapply (timed_step i ot m m3 m4 m4)|]. by rewrite <-Ha3.
  - eapply alone_bind; [by apply calm_lock|]. intros l m4 (Hc4 & Hf4 & En4).
    pose proof (mine_stable _ _ _ _ _ _ _ _ Hf4 Hm3) as Hm4. pose proof (calm_trans _ _ _ _ _ _ Hc Hc4) as Hc5.
    eapply alone_bind; [apply (alone_put_locked i (updir k) z ino x' k cond m); try done; by rewrite En4|].
    intros r m5 (HI5 & Ht5 & Hmx5 & Hz5 & Hnd5 & Ha5 & ob' & ot & Hob' & Hot & Hex).
    eapply alone_bind; [by apply calm_unlock|]. intros u m6 (Hc6 & Hf6 & En6).
    pose proof Hc6 as (HI6 & Ht6 & Hmx6 & [_ Ha6] & Hap6).
    split_and!; try done; [eapply lookup_weaken; [done|apply Hf6]|by rewrite En6|by rewrite Ha6|].
    exists ob', ot. split; [by eapply rep_calm|]. split; [by eapply (timed_step i ot m m m5 m6)|done].
Qed.
End Alone.
