(* ===== verification/LocalList.v ===== *)
(** * objectstore: listing a local store

    [List_] walks the directory tree; undisturbed, it finds every object
    once and reports exactly what the atomic store reports.  A store whose
    own directory has a hidden name is the exception: the walk ends at its
    root. *)

From S2P Require Import Prelude GoStr ObjectStore Prog Ideal LocalFs Local LocalSafety LocalAlone.
Local Open Scope Z_scope.

(** ** Directory entries *)
Lemma path_snoc (q : fpath) : q <> [] -> q = parent q ++ [base q].
Proof.
  intros Hq. destruct q as [|w q _] using rev_ind; [done|]. by rewrite parent_snoc, base_snoc.
Qed.

Lemma elem_of_children m p q : q ∈ children m p <-> is_Some (names m !! q) /\ q <> [] /\ parent q = p.
Proof.
  unfold children. rewrite list_elem_of_filter, list_elem_of_fmap. split.
  - intros [[H1 H2] ([q' n] & -> & Hq)]. apply elem_of_map_to_list in Hq. split; [by eexists|done].
  - intros ([n Hn] & H1 & H2). split; [done|]. exists (q, n). by rewrite elem_of_map_to_list.
Qed.

Lemma readdir_spec m p :
  NoDup (readdir m p).*1 /\
  forall n b, (n, b) ∈ readdir m p <->
    exists x, names m !! (p ++ [n]) = Some x /\ b = bool_decide (x = Dir).
Proof.
  assert (NoDup (base <$> children m p)) as Hnd.
  { apply NoDup_fmap_2_strong.
    - intros q q' (_ & Hq & Hp)%elem_of_children (_ & Hq' & Hp')%elem_of_children E.
      rewrite (path_snoc q), (path_snoc q') by done. congruence.
    - unfold children. apply NoDup_filter, NoDup_fst_map_to_list. }
  assert ((readdir m p).*1 = sort_Strings (base <$> children m p)) as E1.
  { unfold readdir. rewrite <-list_fmap_compose. apply list_fmap_id. }
  assert (forall n, n ∈ sort_Strings (base <$> children m p) <-> is_Some (names m !! (p ++ [n]))) as Hin.
  { intros n. rewrite sort_Strings_perm, list_elem_of_fmap. split.
    - intros (q & -> & (Hq & Hne & <-)%elem_of_children). by rewrite <-path_snoc.
    - intros Hn. exists (p ++ [n]). rewrite base_snoc, elem_of_children, parent_snoc. split; [done|].
      split; [done|]. split; [by destruct p|done]. }
  split; [by rewrite E1, sort_Strings_perm|].
  intros n b. unfold readdir. rewrite list_elem_of_fmap. split.
  - intros (n' & [= -> ->] & [x Hx]%Hin). exists x. rewrite Hx. split; [done|].
    apply bool_decide_ext. split; [by intros [= ->]|by intros ->].
  - intros (x & Hx & ->). exists n. split; [|apply Hin; by eexists]. f_equal. rewrite Hx.
    apply bool_decide_ext. split; [by intros ->|by intros [= ->]].
Qed.

Section Walk.
Context (d : localStore) (U : string -> Prop) (HUp : forall k, U k -> plain k) (HUf : prefix_free U).
Context (T0 T1 : Z) (prefix startAfter : string).
Context (m : machine) (Ht : tidy d U m) (HI : inv d U T0 T1 m).

Definition selected (k : string) : Prop := HasPrefix k prefix = true /\ str_lt startAfter k.

(** The objects the walk is to find below [rel]. *)
Definition found (rel : fpath) (o : Object) : Prop :=
  exists k j y, U k /\ object_file d m k j y /\ selected k /\ o = object_of k (entry_of y) /\
    rel `prefix_of` split_on slash k.

Definition finds (rel : fpath) (r : res (list Object)) (m' : machine) : Prop :=
  m' = m /\ exists l, r = Ok l /\ NoDup (Key <$> l) /\ forall o, o ∈ l <-> found rel o.

Lemma found_key rel o : found rel o -> rel `prefix_of` split_on slash (Key o).
Proof. intros (k & j & y & _ & _ & _ & -> & Hp). done. Qed.

Lemma hidden_tail k rel w : U k -> rel ++ [w] `prefix_of` split_on slash k -> hidden w = false.
Proof.
  intros Hk [t E]. pose proof (HUp k Hk) as Hp. unfold plain in Hp. rewrite E, !Forall_app in Hp.
  destruct Hp as [[_ Hw] _]. inversion_clear Hw as [|? ? [_ ?] _]. done.
Qed.

Lemma finds_none rel : (forall o, ~ found rel o) -> finds rel (Ok []) m.
Proof.
  intros H. split; [done|]. exists []. split; [done|]. split; [constructor|]. intros o. split; [|by intros ?%H].
  by intros ?%not_elem_of_nil.
Qed.

Lemma found_unique k j y o : U k -> object_file d m k j y -> found (split_on slash k) o ->
  selected k /\ o = object_of k (entry_of y).
Proof.
  intros Hk (Hn & Hy & _) (k' & j' & y' & Hk' & (Hn' & Hy' & _) & Hs & -> & Hp).
  apply HUf in Hp; [|done..]. subst k'. simplify_eq. done.
Qed.

Lemma alone_visit_file i rel w f : names m !! (dir d ++ rel ++ [w]) = Some (File f) ->
  alone T0 T1 i (visit_file d prefix startAfter (rel ++ [w]) w) (finds (rel ++ [w])) m.
Proof.
  intros Hn. unfold visit_file, rel_key. rewrite (decide_False (P := rel ++ [w] = [])) by (by destruct rel). case_decide as Hh.
  { apply finds_none. intros o (k & j & y & Hk & _ & _ & _ & Hp). apply hidden_tail in Hp; [congruence|done]. }
  destruct (ti_only _ _ _ Ht _ _ Hn) as [Hh'|(k & Hk & E)]; [by rewrite base_snoc in Hh'|].
  rewrite E in *. rewrite join_split. fold (tgt d k) in Hn |- *.
  destruct (inv_file _ _ _ _ _ HI k _ Hk Hn) as (j & y & [= <-] & Hy & Hyp).
  assert (object_file d m k f y) as Hf by done. case_decide as Hs.
  - intros z _. cbn. unfold find. rewrite Hn. cbn. rewrite Hy. eexists _, _. split; [done|]. split; [done|].
    eexists. split; [done|]. split; [apply NoDup_singleton|]. intros o. rewrite list_elem_of_singleton. split.
    + intros ->. exists k, f, y. done.
    + intros Hfo. by destruct (found_unique k f y o Hk Hf Hfo) as [_ ->].
  - apply finds_none. intros o Hfo. by destruct (found_unique k f y o Hk Hf Hfo).
Qed.

Lemma alone_visit_all i (visit : string -> bool -> proc (res (list Object))) rel entries :
  NoDup entries.*1 ->
  (forall n b, (n, b) ∈ entries -> alone T0 T1 i (visit n b) (finds (rel ++ [n])) m) ->
  alone T0 T1 i (visit_all visit entries) (fun r m' => m' = m /\ exists l, r = Ok l /\ NoDup (Key <$> l) /\
    forall o, o ∈ l <-> exists n, n ∈ entries.*1 /\ found (rel ++ [n]) o) m.
Proof.
  induction entries as [|[n b] entries IH]; intros Hnd Hv; cbn [visit_all].
  { split; [done|]. exists []. split; [done|]. split; [constructor|]. intros o. split.
    - by intros ?%not_elem_of_nil.
    - by intros (n & ?%not_elem_of_nil & _). }
  apply NoDup_cons in Hnd as [Hn Hnd]. eapply alone_bind; [apply Hv; left|].
  intros r m' (-> & l1 & -> & Hnd1 & Hl1). eapply alone_bind; [apply IH; [done|]; intros; apply Hv; by right|].
  intros r m' (-> & l2 & -> & Hnd2 & Hl2). split; [done|]. eexists. split; [done|]. split.
  - rewrite fmap_app. apply NoDup_app. split; [done|]. split; [|done].
    intros k (o & -> & Ho)%list_elem_of_fmap (o' & E & Ho')%list_elem_of_fmap.
    apply Hl1, found_key in Ho. apply Hl2 in Ho' as (n' & Hn' & Ho'%found_key). rewrite <-E in Ho'.
    destruct Ho as [t E1], Ho' as [t' E2]. rewrite E1, <-!app_assoc in E2. apply (inj (app rel)) in E2.
    injection E2 as -> _. done.
  - intros o. rewrite elem_of_app, Hl1, Hl2, fmap_cons. cbn [fst]. split.
    + intros [?|(n' & ? & ?)]; [exists n; split; [left|done]|exists n'; split; [by right|done]].
    + intros (n' & [->|?]%elem_of_cons & ?); [by left|right; by exists n'].
Qed.

(** Below a directory an object lies in one of its entries. *)
Lemma found_entries rel o : names m !! (dir d ++ rel) = Some Dir ->
  found rel o <-> exists n, n ∈ (readdir m (dir d ++ rel)).*1 /\ found (rel ++ [n]) o.
Proof.
  intros Hd. split.
  - intros (k & j & y & Hk & Hf & Hs & -> & t & E). destruct t as [|n t].
    { rewrite app_nil_r in E. destruct Hf as (Hn & _). unfold tgt in Hn. rewrite E in Hn. congruence. }
    exists n. split; [|exists k, j, y; split_and!; try done; exists t; by rewrite <-app_assoc].
    destruct Hf as (Hn & _). assert (is_Some (names m !! ((dir d ++ rel) ++ [n]))) as [x Hx].
    { destruct (decide (t = [])) as [->|Hne].
      - unfold tgt in Hn. rewrite E, app_assoc in Hn. by eexists.
      - exists Dir. assert ((dir d ++ rel) ++ [n] = take (length ((dir d ++ rel) ++ [n])) (tgt d k)) as ->.
        { unfold tgt. rewrite E. change (n :: t) with ([n] ++ t). rewrite !app_assoc. by rewrite take_app_length. }
        eapply tidy_above; [done|done|]. unfold tgt. rewrite E, !length_app. destruct t; [done|]. simpl. lia. }
    apply list_elem_of_fmap. exists (n, bool_decide (x = Dir)). split; [done|].
    apply (readdir_spec m (dir d ++ rel)). by exists x.
  - intros (n & _ & (k & j & y & Hk & Hf & Hs & -> & Hp)). exists k, j, y. split_and!; try done.
    etrans; [|exact Hp]. by exists [n].
Qed.

Lemma alone_walk i depth rel name x : names m !! (dir d ++ rel) = Some x ->
  (rel = [] -> hidden name = false /\ x = Dir) -> (forall rel0 w, rel = rel0 ++ [w] -> name = w) ->
  (forall p, names m !! (dir d ++ rel ++ p) = Some Dir -> (length p < depth)%nat) ->
  alone T0 T1 i (walk d prefix startAfter depth rel name (bool_decide (x = Dir))) (finds rel) m.
Proof.
  revert rel name x. induction depth as [|depth IH]; intros rel name x Hx Htop Hname Hdepth;
    (destruct x as [|f]; [rewrite bool_decide_eq_true_2 by done|rewrite bool_decide_eq_false_2 by done]).
  1: { exfalso. specialize (Hdepth []). rewrite app_nil_r in Hdepth. specialize (Hdepth Hx). simpl in Hdepth. lia. }
  1, 3: destruct rel as [|w rel _] using rev_ind; [by destruct (Htop eq_refl)|]; rewrite (Hname _ _ eq_refl); by eapply alone_visit_file.
  cbn [walk negb]. case_decide as Hh.
  { apply finds_none. intros o (k & j & y & Hk & _ & _ & _ & Hp).
    destruct rel as [|w rel _] using rev_ind; [destruct (Htop eq_refl); destruct Hh; congruence|].
    rewrite (Hname rel w eq_refl) in Hh. apply hidden_tail in Hp; [|done]. destruct Hh; congruence. }
  intros z _. cbn [exec_sys]. unfold find. rewrite Hx. eexists _, _. split; [done|].
  destruct (readdir_spec m (dir d ++ rel)) as [Hnd Hin].
  eapply alone_weaken; [apply (alone_visit_all i _ rel); [done|]|].
  - intros n b (y & Hy & ->)%Hin. rewrite <-app_assoc in Hy. apply IH; [done| | |].
    + intros E. by destruct rel.
    + by intros rel0 w [_ [= ->]]%app_inj_tail.
    + intros p Hp. specialize (Hdepth ([n] ++ p)). rewrite <-app_assoc in Hp. specialize (Hdepth Hp). simpl in Hdepth. lia.
  - intros r m' (-> & l & -> & Hndl & Hl). split; [done|]. exists l. split; [done|]. split; [done|].
    intros o. by rewrite Hl, found_entries.
Qed.
End Walk.

(** ** The listing *)
Section Listing.
Context (d : localStore) (U : string -> Prop) (HUp : forall k, U k -> plain k) (HUf : prefix_free U).
Context (T0 T1 : Z) (fuel : nat).

#[local] Instance by_key_trans : Transitive (fun a b : Object => String.le (Key a) (Key b)).
Proof. intros a b c H1 H2. by transitivity (Key b). Qed.

#[local] Instance by_key_total : Total (fun a b : Object => String.le (Key a) (Key b)).
Proof. intros a b. apply (total String.le). Qed.

(** What the walk found, sorted and cut, is what the atomic store lists. *)
Lemma listed_found prefix start limit m ob l : inv d U T0 T1 m -> rep d U m ob ->
  NoDup (Key <$> l) -> (forall o, o ∈ l <-> found d U prefix start m [] o) ->
  limited limit (sort_Objects l) = omap (fun k => object_of k <$> ob !! k) (limited limit (listed ob prefix start)).
Proof.
  intros HI [Hob Hdom] Hnd Hl. apply listed_unique.
  - apply NoDup_le_sorted; [unfold sort_Objects; by rewrite (merge_sort_Permutation _ l)|].
    assert (StronglySorted (fun a b => String.le (Key a) (Key b)) (sort_Objects l)) as Hs
      by apply (StronglySorted_merge_sort _).
    induction Hs as [|o os Hs IH Hf]; cbn; constructor; [done|]. apply Forall_fmap.
    by eapply Forall_impl; [exact Hf|].
  - intros o. unfold sort_Objects. rewrite (merge_sort_Permutation _ l), Hl. split.
    + intros (k & j & y & Hk & Hf & [Hp Hs] & -> & _). split; [done|]. split; [done|]. cbn.
      rewrite Hob by done. erewrite object_entry by done. eauto.
    + intros (Hp & Hs & e & He & ->). remember (Key o) as k eqn:Ek. clear Ek o.
      assert (U k) as Hk by (apply Hdom; by eexists). rewrite Hob in He by done.
      unfold entry_at in He. destruct (names m !! tgt d k) as [[|j]|] eqn:En; [done| |done].
      destruct (inv_file _ _ _ _ _ HI _ _ Hk En) as (j' & y & [= <-] & Hy & Hyp). rewrite Hy in He.
      injection He as <-. exists k, j, y. split_and!; try done. by exists (split_on slash k).
Qed.

Lemma find_dir m k : tidy d U m -> U k ->
  find m (dir d) = match names m !! dir d with Some n => Ok n | None => Err ENOENT end.
Proof.
  intros Ht Hk. assert (take (length (dir d)) (tgt d k) = dir d) as E by apply take_app_length.
  rewrite <-E. apply (tidy_find d U); [done|done|]. unfold tgt. rewrite length_app. lia.
Qed.

Lemma alone_List i prefix start limit m ob k0 : settled d U T0 T1 m -> rep d U m ob ->
  hidden (base (dir d)) = false -> U k0 -> (forall k, U k -> (length (split_on slash k) < fuel)%nat) ->
  alone T0 T1 i (List_ d prefix start fuel limit) (served d U T0 T1 (OList prefix start limit) ob m) m.
Proof.
  intros Hs Hob Hh Hk0 Hdeep. pose proof Hs as (HI & Ht & _). apply alone_ctx. intros z _. cbn [exec_sys].
  eexists _, _. split; [done|]. cbn [proc_mbind proc_bind].
  eapply (alone_bind _ _ _ _ _ (finds d U prefix start m [])).
  - rewrite (find_dir m k0) by done. destruct (names m !! dir d) as [[|f]|] eqn:En.
    + cbn. pose proof (alone_walk d U HUp HUf T0 T1 prefix start m Ht HI i fuel [] (base (dir d)) Dir) as Hw.
      rewrite bool_decide_eq_true_2 in Hw by done. apply Hw; [by rewrite app_nil_r|done| |].
      * by intros [] w.
      * intros p Hp. cbn [app] in Hp. destruct (ti_dirs _ _ _ Ht _ Hp) as [->|(k & Hk & Hpre)].
        -- specialize (Hdeep k0 Hk0). simpl. lia.
        -- specialize (Hdeep k Hk). apply prefix_length in Hpre. cbn in *. lia.
    + exfalso. rewrite <-(app_nil_r (dir d)) in En. destruct (ti_only _ _ _ Ht _ _ En) as [?|(k & _ & E)]; [done|].
      symmetry in E. by apply split_on_nonempty in E.
    + cbn. apply finds_none. intros o (k & j & y & Hk & (Hn & _) & _).
      assert (names m !! dir d = Some Dir); [|congruence].
      rewrite <-(take_app_length (dir d) (split_on slash k)). eapply tidy_above; [done|exact Hn|].
      unfold tgt. rewrite length_app. pose proof (split_on_nonempty slash k). destruct (split_on slash k); [done|simpl; lia].
  - intros r m' (-> & l & -> & Hnd & Hl). cbn. apply served_read; [done|done|]. intros sup h. cbn.
    f_equal. unfold Mem.ListObjects. f_equal. symmetry. by apply (listed_found _ _ _ m).
Qed.
End Listing.

(** ** Whole clients *)
Section Client.
Context (d : localStore) (U : string -> Prop) (HUp : forall k, U k -> plain k) (HUf : prefix_free U).
Context (T0 T1 : Z) (HT0 : 0 <= T0) (HT1 : T1 < 2 ^ 63) (fuel : nat).
Context (Hfuel : (0 < fuel)%nat) (Hdeep : forall k, U k -> (length (split_on slash k) < fuel)%nat).
Context (Hroot : hidden (base (dir d)) = false) (k0 : string) (Hk0 : U k0).

(** A client that uses keys of [U], and may list. *)
Definition call_ok {X} (o : op X) : Prop := match o with OList _ _ _ => True | _ => op_ok U o end.

Fixpoint calls {A} (p : prog A) : Prop :=
  match p with
  | Ret _ => True
  | Vis o k => call_ok o /\ forall x, calls (k x)
  end.

Lemma alone_op i {X} (o : op X) m ob : call_ok o -> settled d U T0 T1 m -> rep d U m ob ->
  alone T0 T1 i (compile_op fuel d o) (served d U T0 T1 o ob m) m.
Proof.
  intros Ho Hs Hob. destruct o as [k|k|k dt cond|k|k|p a l|c|c old new]; cbn in Ho.
  - by apply alone_Stat.
  - by apply alone_Get.
  - apply alone_Put; try done; apply Ho.
  - by apply alone_Delete.
  - by apply alone_Exists.
  - by apply (alone_List d U HUp HUf T0 T1 fuel _ _ _ _ _ _ k0).
  - intros z _. eexists _, _. split; [done|]. by apply served_read.
  - intros z _. pose proof Hs as (HI & Ht & Hmx). cbn. case_decide as Hc; eexists _, _; (split; [done|]).
    + split; [split; [by apply inv_atoms|]; split; [by eapply tidy_eq; [| |exact Ht]|done]|].
      exists ob, None. split; [done|]. split; [by split|]. intros sup h. exists h. cbn. unfold cell. cbn. by rewrite decide_True.
    + apply served_read; [done|done|]. intros sup h. cbn. unfold cell. cbn. by rewrite decide_False.
Qed.

(** The run is that of the atomic store whose writes get the times [sup],
    which no object had. *)
Definition matched {A} (p : prog A) (ob : gmap string entry) (m : machine) (a : A) (m' : machine) : Prop :=
  settled d U T0 T1 m' /\ exists sup ob', rep d U m' ob' /\ NoDup sup /\
    (forall t, t ∈ sup -> T0 < t <= T1 /\ unused m t) /\ (forall t, unused m' t -> unused m t) /\
    forall sup' h, exists h', run p (MkWorld (MkIdeal ob (sup ++ sup') h) (atoms m)) =
      (a, MkWorld (MkIdeal ob' sup' h') (atoms m')).

Lemma alone_compile {A} i (p : prog A) m ob : calls p -> settled d U T0 T1 m -> rep d U m ob ->
  alone T0 T1 i (compile fuel d p) (matched p ob m) m.
Proof.
  revert m ob. induction p as [a|X o k IH]; intros m ob Hc Hs Hob; cbn [compile].
  - split; [done|]. exists [], ob. split; [done|]. split; [constructor|].
    split; [by intros t ?%not_elem_of_nil|]. split; [done|]. intros sup' h. by exists h.
  - destruct Hc as [Ho Hk]. eapply alone_bind; [by apply alone_op|].
    intros x m1 (Hs1 & ob1 & ot & Hob1 & [Hot Hback] & Hex).
    eapply alone_weaken; [by apply (IH x m1 ob1)|]. clear IH.
    intros a m2 (Hs2 & sup & ob2 & Hob2 & Hnd & Hsup & Hback2 & Hrun). split; [done|].
    exists (from_option (fun t => t :: sup) sup ot), ob2. split; [done|].
    assert (forall t, t ∈ sup -> T0 < t <= T1 /\ unused m t) as Hsup0 by (intros t [? ?]%Hsup; auto).
    split; [|split; [|split; [by auto|]]].
    + destruct ot as [t|]; [|done]. destruct Hot as (_ & _ & Hn). cbn. apply NoDup_cons. split; [|done].
      by intros [_ ?]%Hsup.
    + destruct ot as [t|]; [|done]. cbn. intros t' [->|?]%elem_of_cons; [by split; apply Hot|by apply Hsup0].
    + intros sup' h. destruct (Hex (sup ++ sup') h) as [h1 E]. destruct (Hrun sup' h1) as [h2 E2]. exists h2.
      destruct ot as [t|]; cbn in *; by rewrite E.
Qed.
End Client.
