(* ===== verification/LocalDisk.v ===== *)
(** * objectstore: the program on a local store

    What the store of local.go gives to the program above it: linearizable
    operations for concurrent clients, exact answers for a client that is
    alone, both for the keys of Namespace.v; the tenant catalog on disk as
    the composition; and the three places where the store departs from the
    contract. *)

From S2P Require Import Prelude GoStr ObjectStore Prog Logstream Codec Namespace Cas Catalog Ideal LocalFs Local LocalSafety LocalAlone LocalList.
From Stdlib Require Import Ascii.
Local Open Scope Z_scope.

(** ** The keys of the program *)
Definition visible (r : role) : Prop := match r with KSegment _ id => hidden id = false | _ => True end.

Definition program_key (k : string) : Prop := exists r, valid_role r /\ visible r /\ key_of r = k.

Lemma hidden_app w v : w <> "" -> hidden (w +:+ v) = hidden w.
Proof. by destruct w. Qed.

Lemma split_key r : valid_role r -> split_on slash (key_of r) = path_of r.
Proof.
  intros Hr. destruct (key_of_path r Hr) as [-> Hs]. apply split_join; [by destruct r|done].
Qed.

Lemma hidden_dot w : str_in "."%char w = false -> hidden w = false.
Proof.
  destruct w as [|c w]; [done|]. intros H. unfold hidden. cbn in *. apply orb_false_iff in H as [H _].
  apply bool_decide_eq_false in H. by rewrite bool_decide_eq_false_2 by congruence.
Qed.

(** A name the program chooses is a file name that is not hidden. *)
Lemma name_ok w : valid_name w -> good_elem w /\ hidden w = false.
Proof.
  intros Hw. split; [by apply valid_name_good|]. apply hidden_dot. by apply valid_name_no.
Qed.

Lemma name_json b : valid_name b -> good_elem (b +:+ ".json") /\ hidden (b +:+ ".json") = false.
Proof.
  intros [(Hb & _ & _ & Hs) Hh]%name_ok. split; [by apply json_good|]. by rewrite hidden_app.
Qed.

Lemma id_recordio id : id <> "" -> str_in slash id = false -> hidden id = false ->
  good_elem (id +:+ ".recordio") /\ hidden (id +:+ ".recordio") = false.
Proof. intros Hid Hs Hh. split; [by apply recordio_good|]. by rewrite hidden_app. Qed.

Lemma program_key_plain k : program_key k -> plain k.
Proof.
  intros (r & Hr & Hv & <-). unfold plain. rewrite split_key by done.
  destruct r as [| |ns|ns b|ns id|ns seq]; cbn in Hr, Hv |- *; destruct_and?; forall_list; try done;
    auto using name_ok, name_json, id_recordio.
  apply id_recordio; [|apply Sprintf_no_slash|].
  { intros E. assert (String.length (Sprintf_020d seq) = 20%nat) as Hl by apply length_fixed_loop. by rewrite E in Hl. }
  by apply hidden_dot, Sprintf_no.
Qed.

Lemma program_keys_prefix_free : prefix_free program_key.
Proof.
  intros k k' (r & Hr & _ & <-) (r' & Hr' & _ & <-). rewrite !split_key by done. intros Hp.
  destruct (key_of_path r Hr) as [-> _], (key_of_path r' Hr') as [-> _]. f_equal.
  apply prefix_length_eq; [done|]. destruct Hp as [t E].
  destruct r, r'; cbn in *; try lia; exfalso; injection E; intros; discriminate.
Qed.

Lemma program_key_depth k : program_key k -> (length (split_on slash k) < 6)%nat.
Proof. intros (r & Hr & _ & <-). rewrite split_key by done. destruct r; cbn; lia. Qed.

Lemma program_key_catalog : program_key CatalogFile.
Proof. exists KCatalog. repeat split. Qed.

(** ** The contract *)

(** C6. Concurrent clients of a local store see atomic operations: however
    the system calls of any number of clients interleave, and whichever of
    them fail, the clients' results and the files left behind are those of a
    run of the same clients in which every [Stat], [Get], [Put], [Delete] and
    [Exists] is one step of a store that gives every write a generation it
    never gave before.  A failed system call is a failed call of that store,
    with or without effect, and a create may report the generation of a later
    write, as [fault] allows. *)
Theorem local_linearizable {A} (d : localStore) (U : string -> Prop) T0 T1 fuel len
    (clients : list (prog A)) m ob ps' m' :
  (forall k, U k -> plain k) -> prefix_free U -> 0 <= T0 <= T1 -> T1 + Z.of_nat len < 2 ^ 63 ->
  Forall (uses U) clients -> inv d U T0 T1 m -> rep d U m ob ->
  nsteps (mstep T0 T1) len (compile fuel d <$> clients, m) (ps', m') ->
  exists sup n ts s', ideal_ok n (MkIdeal ob sup (generations ob)) /\
    rtc (pstep true) (clients, (n, MkWorld (MkIdeal ob sup (generations ob)) (atoms m)))
      (ts, (0%nat, MkWorld s' (atoms m'))) /\
    rep d U m' (contents s') /\ forall i a, ps' !! i = Some (Done a) -> ts !! i = Some (Ret a).
Proof.
  intros HUp HUf [H0 H1] Hlen Hu HI Hob Hst.
  destruct (linearize d U HUp HUf T0 T1 H0 ltac:(lia) fuel len clients m ob ps' m')
    as (sup & n & ts & s' & ? & ? & _ & ?); try done. by exists sup, n, ts, s'.
Qed.

(** C14. A client that has the local store to itself, on a file system whose
    calls do not fail, always gets to its end, whatever the clock says and
    whichever temporary names come up, and its results, listings included,
    are exactly those of the atomic store: what it wrote is what it reads, a
    condition fails only when the store's contents say so, and a listing is
    complete, sorted and cut at the limit. *)
Theorem local_alone {A} (d : localStore) (U : string -> Prop) T0 T1 fuel k0 i (p : prog A) m ob zs :
  (forall k, U k -> plain k) -> prefix_free U -> 0 <= T0 <= T1 -> T1 < 2 ^ 63 ->
  U k0 -> (forall k, U k -> (length (split_on slash k) < fuel)%nat) -> hidden (base (dir d)) = false ->
  calls U p -> settled d U T0 T1 m -> rep d U m ob -> choices_ok T0 T1 i zs (compile fuel d p) m ->
  exists a m', run_alone i zs (compile fuel d p) m = Some (a, m') /\ settled d U T0 T1 m' /\
    exists sup s', ideal_ok (length sup) (MkIdeal ob sup (generations ob)) /\
      run p (MkWorld (MkIdeal ob sup (generations ob)) (atoms m)) = (a, MkWorld s' (atoms m')) /\
      rep d U m' (contents s').
Proof.
  intros HUp HUf [H0 H1] HT Hk0 Hdeep Hroot Hc Hs Hob Hz.
  assert (0 < fuel)%nat as Hf by (specialize (Hdeep k0 Hk0); lia).
  destruct (alone_run T0 T1 i zs (compile fuel d p) (matched d U T0 T1 p ob m) m)
    as (a & m' & Hrun' & Hs' & sup & ob' & Hob' & Hnd & Hsup & _ & Hrun); [by eapply alone_compile|done|].
  exists a, m'. split; [done|]. split; [done|].
  destruct (Hrun [] (generations ob)) as [h' E]. rewrite app_nil_r in E. exists sup, (MkIdeal ob' [] h').
  split; [|done]. destruct (start_ok d U T0 T1 H0 HT m ob sup 0) as [_ Hok]; try done; [apply Hs|lia|].
  split; [done|]. by rewrite app_nil_r in Hok.
Qed.

(** ** The tenant catalog on disk *)
Definition on_disk (ob : gmap string entry) : world ideal := MkWorld (MkIdeal ob [] ∅) ∅.

(** A program that reads and writes one key. *)
Fixpoint only (key : string) {A} (p : prog A) : Prop :=
  match p with
  | Ret _ => True
  | Vis o k => match o with
               | OGet k' | OStat k' | OExists k' | ODelete k' => k' = key
               | OPut k' d _ => k' = key /\ slice_len d
               | OList _ _ _ => False
               | _ => True
               end /\ forall x, only key (k x)
  end.

Lemma only_uses (U : string -> Prop) key {A} (p : prog A) : U key -> only key p -> uses U p.
Proof.
  intros Hk. induction p as [a|X o k IH]; [done|]. intros [Ho Hp]. split; [|intros x; by apply IH].
  destruct o; cbn in *; destruct_and?; subst; done.
Qed.

Lemma only_bind key {A B} (p : prog A) (f : A -> prog B) :
  only key p -> (forall a, only key (f a)) -> only key (prog_bind p f).
Proof.
  intros Hp Hf. induction p as [a|X o k IH]; cbn; [done|]. destruct Hp as [Ho Hp].
  split; [done|]. intros x. by apply IH.
Qed.

Section CatalogUses.
Context `{CodecLaws TenantCatalog}.
#[local] Abbreviation cat_only := (only CatalogFile).

Lemma only_ReadTenantCatalog : cat_only (ReadTenantCatalog false).
Proof. split; [done|]. intros [[dt o]|e]; [|done]. cbn. by destruct (Unmarshal dt). Qed.

Lemma only_readCatalogOrEmpty : cat_only (readCatalogOrEmpty false).
Proof.
  apply only_bind; [apply only_ReadTenantCatalog|]. intros [x|e]; [done|]. cbn. by destruct (errors_Is e _).
Qed.

Lemma only_putTenantCatalog c g : cat_only (putTenantCatalog c g).
Proof. unfold putTenantCatalog. rewrite try_lift. destruct (Marshal c) eqn:E; [|done]. cbn. eauto using codec_slice. Qed.

Lemma only_create_loop fuel name t : cat_only (create_loop fuel name t).
Proof.
  induction fuel as [|fuel IH]; [done|]. cbn [create_loop].
  apply only_bind; [apply only_readCatalogOrEmpty|]. intros [[c g]|e]; [|done].
  destruct (Namespaces c !! name); [done|]. apply only_bind; [apply only_putTenantCatalog|].
  intros [g'|e]; [done|]. by destruct (errors_Is e _).
Qed.

Lemma only_delete_loop fuel name t : cat_only (delete_loop fuel name t).
Proof.
  induction fuel as [|fuel IH]; [done|]. cbn [delete_loop].
  apply only_bind; [apply only_ReadTenantCatalog|]. intros [[c g]|e]; [|by destruct (errors_Is e _)].
  destruct (Namespaces c !! name); [|done]. case_decide; [done|].
  apply only_bind; [apply only_putTenantCatalog|]. intros [g'|e]; [done|]. by destruct (errors_Is e _).
Qed.

Lemma only_cat_prog fuel o : cat_only (cat_prog fuel o).
Proof.
  destruct o; cbn; unfold CreateNamespace, DeleteNamespace; destruct (ValidateName name);
    auto using only_create_loop, only_delete_loop; done.
Qed.
End CatalogUses.

(** C15. The whole stack: goroutines of a process that create and delete
    namespaces of a tenant kept on a local disk, interleaved system call by
    system call, with calls that fail, lose no update.  The catalog file is always a catalog in
    which every namespace it ever had is still there, tombstones are final,
    and what a client was told when its call returned is in it. *)
Theorem local_catalog `{CodecLaws TenantCatalog} (d : localStore) T0 T1 fuel tries len
    (clients : list cat_op) m ob c0 ps' m' :
  0 <= T0 <= T1 -> T1 + Z.of_nat len < 2 ^ 63 ->
  inv d program_key T0 T1 m -> rep d program_key m ob ->
  holds CatalogFile emptyCatalog (on_disk ob) c0 -> cat_good c0 ->
  nsteps (mstep T0 T1) len (compile fuel d <$> (cat_prog tries <$> clients), m) (ps', m') ->
  exists ob' c, rep d program_key m' ob' /\ holds CatalogFile emptyCatalog (on_disk ob') c /\
    cat_good c /\ cat_le c0 c /\
    forall i o r, clients !! i = Some o -> ps' !! i = Some (Done r) -> cat_answered c o r.1.
Proof.
  intros [Hz Hle0] Hlen HI Hob Hc0 Hg Hst.
  assert (program_key CatalogFile) as Hk by apply program_key_catalog.
  destruct (linearize d program_key program_key_plain program_keys_prefix_free T0 T1 Hz ltac:(lia) fuel len
    (cat_prog tries <$> clients) m ob ps' m') as (sup & n & ts & s' & Hok & Hrun & _ & Hob' & Hres); try done.
  { apply Forall_fmap, Forall_true. intros o. eapply only_uses; [done|apply only_cat_prog]. }
  destruct (catalog_pool true tries clients n (MkWorld (MkIdeal ob sup (generations ob)) (atoms m)) c0 ts 0
    (MkWorld s' (atoms m'))) as (c & Hc & Hgc & Hle & Hans); try done.
  exists (contents s'), c. split; [done|]. split; [done|]. split; [done|]. split; [done|].
  intros i o r Ho Hr. eauto.
Qed.

(** ** Where the store departs from the contract *)

(** Goroutine [i] makes [n] calls in a row; the kernel's choices count up. *)
Fixpoint solo (i n : nat) (z : Z) : list (nat * oracle) :=
  match n with O => [] | S n => (i, Val z) :: solo i n (z + 1) end.

Fixpoint round_robin (n : nat) (z : Z) : list (nat * oracle) :=
  match n with O => [] | S n => (0%nat, Val z) :: (1%nat, Val (z + 1)) :: round_robin n (z + 2) end.

Definition ex_machine : machine := MkMachine {[ [] := Dir ]} ∅ 0 None ∅ ∅ ∅.
Definition ex_store : localStore := MkLocal ["data"].

(** A client that creates an object and then replaces what it created. *)
Definition create_then_replace (key : string) (d1 d2 : list byte) : prog (list (res string)) :=
  a ← call (OPut key d1 IfAbsent);
  b ← call (OPut key d2 (IfGeneration (match a with Ok g => g | Err _ => "" end)));
  Ret [a; b].

Definition overwrite (key : string) (d : list byte) : prog (list (res string)) :=
  a ← call (OPut key d Unconditional); Ret [a].

(** A create can hand out the generation of somebody else's write:
    [Put] with [Absent] looks the generation up by name after the link, and
    without the lock.  When another writer replaces the object in between,
    both calls return the same generation, and the creator's next conditional
    write destroys the other's data without noticing: the object ends as the
    creator's second version, and every call reported success. *)
Theorem put_absent_stale_generation : exists m' g2,
  schedule 0 1000 (solo 0 14 1 ++ solo 1 22 100 ++ solo 0 24 200)
    (compile 10 ex_store <$> [create_then_replace "k" [x01] [x03]; overwrite "k" [x02]]) ex_machine =
  Some ([Done [Ok "70-1"; Ok g2]; Done [Ok "70-1"]], m') /\
  entry_at ex_store m' "k" = Some (MkEntry [x03] g2) /\ g2 <> "70-1".
Proof. eexists _, _. split; [vm_compute; reflexivity|]. by split; [vm_compute; reflexivity|]. Qed.

(** A store whose directory has a hidden name lists nothing: the walk
    leaves its root when the root's own name starts with a dot, so [List]
    reports an empty store whatever the directory holds. *)
Theorem list_hidden_root (d : localStore) T0 T1 i prefix startAfter depth limit m : hidden (base (dir d)) = true ->
  base (dir d) <> "." -> names m !! dir d = Some Dir ->
  alone T0 T1 i (List_ d prefix startAfter depth limit) (fun r m' => r = Ok [] /\ m' = m) m.
Proof.
  intros Hh Hb Hd. apply alone_ctx. intros z _. cbn [exec_sys]. unfold find. rewrite Hd. eexists _, _. split; [done|].
  assert (walk d prefix startAfter depth [] (base (dir d)) true = mret (Ok [])) as Hw
    by (destruct depth; cbn; by rewrite decide_True).
  cbn. rewrite Hw. cbn. split; [|done]. unfold limited. case_decide; [by rewrite take_nil|done].
Qed.

(** [Delete] of a key that names an empty directory removes the directory
    and reports success, although [Exists] says that there is no such object
    (the memory store answers [ErrNotFound]). *)
Theorem delete_empty_directory (d : localStore) T0 T1 i fuel key m : (0 < fuel)%nat -> plain key ->
  mutex m = None -> names m !! tgt d key = Some Dir -> children m (tgt d key) = [] ->
  alone T0 T1 i (Exists d key) (fun r m' => r = Ok false /\ m' = m) m /\
  alone T0 T1 i (Delete fuel d key) (fun r m' => r = Ok tt /\ names m' !! tgt d key = None) m.
Proof.
  intros Hf Hp Hmx Hn Hc. split.
  - apply alone_ctx. rewrite path_plain by done. fold (tgt d key). intros z _. cbn. unfold find. rewrite Hn.
    by eexists _, _.
  - apply alone_ctx. rewrite path_plain by done. fold (tgt d key).
    eapply alone_bind; [by apply alone_lock|]. intros l m1 ->. eapply (alone_bind _ _ _ _ _
      (fun r m' => r = Ok tt /\ names m' !! tgt d key = None)).
    + intros z _. cbn. unfold find. cbn. rewrite Hn. eexists _, _. split; [done|]. intros z1 _. cbn. unfold remove, find. cbn.
      rewrite Hn. rewrite decide_True by done. eexists _, _. split; [done|].
      eapply alone_bind; [by apply alone_advance|]. intros u m' [->| ->]; cbn; by rewrite lookup_delete_eq.
    + intros r m2 [-> Hn2]. eapply alone_bind; [apply alone_unlock|]. by intros u m3 ->.
Qed.

(** ** Witnesses *)
Lemma ex_names p n : names ex_machine !! p = Some n -> p = [] /\ n = Dir.
Proof. change (names ex_machine) with ({[ [] := Dir ]} : gmap fpath node). by intros [-> ->]%lookup_singleton_Some. Qed.

Lemma ex_no_file p f : names ex_machine !! p <> Some (File f).
Proof. by intros [_ ?]%ex_names. Qed.

Lemma ex_inv U : inv ex_store U 0 1000 ex_machine.
Proof.
  split.
  - by intros k n _ [E _]%ex_names.
  - intros i x Hx. cbn in Hx. by rewrite lookup_empty in Hx.
  - intros t i Ht. cbn in Ht. by rewrite lookup_empty in Ht.
  - intros z i Hz. cbn in Hz. by rewrite lookup_empty in Hz.
Qed.

Lemma ex_tidy U : tidy ex_store U ex_machine.
Proof.
  split.
  - done.
  - by intros p n [-> _]%ex_names.
  - intros k j f _ _. apply ex_no_file.
  - intros rel f Hf. by apply ex_no_file in Hf.
  - by intros rel [E _]%ex_names.
  - intros q z _ _. destruct (names ex_machine !! _) eqn:E; [|done]. by apply ex_names in E as [? _].
Qed.

Lemma ex_rep U : rep ex_store U ex_machine ∅.
Proof.
  split; [|by intros k [e He]; rewrite lookup_empty in He]. intros k _. rewrite lookup_empty. unfold entry_at.
  destruct (names ex_machine !! tgt ex_store k) as [[|f]|] eqn:E; [done| |done]. by apply ex_no_file in E.
Qed.

Lemma ex_settled U : settled ex_store U 0 1000 ex_machine.
Proof. split; [apply ex_inv|]. split; [apply ex_tidy|done]. Qed.

Definition finished {A} (ps : list (proc A)) : list (option A) :=
  (fun p => match p with Done a => Some a | Sys _ _ => None end) <$> ps.

Lemma finished_lookup {A} (ps : list (proc A)) i a : finished ps !! i = Some (Some a) -> ps !! i = Some (Done a).
Proof.
  unfold finished. rewrite list_lookup_fmap. destruct (ps !! i) as [[b|X s k]|]; cbn; [|done|done].
  by intros [= ->].
Qed.

(** Two clients race for the catalog key; one creates it. *)
Definition ex_race : list (prog (res string)) :=
  [call (OPut CatalogFile [x01] IfAbsent); call (OPut CatalogFile [x02] IfAbsent)].

Lemma ex_race_run : (fun c => finished c.1) <$> schedule 0 1000 (round_robin 14 1 ++ solo 0 2 50 ++ solo 1 2 60)
    (compile 10 ex_store <$> ex_race) ex_machine
  = Some [Some (Ok "13-1"); Some (Err ErrPreconditionFailed)].
Proof. vm_compute. reflexivity. Qed.

Lemma local_linearizable_witness : exists sup n ts s',
  ideal_ok n (MkIdeal ∅ sup (generations ∅)) /\
  rtc (pstep true) (ex_race, (n, MkWorld (MkIdeal ∅ sup (generations ∅)) ∅)) (ts, (0%nat, MkWorld s' ∅)) /\
  ts !! 0%nat = Some (Ret (Ok "13-1")) /\ ts !! 1%nat = Some (Ret (Err ErrPreconditionFailed)).
Proof.
  pose proof ex_race_run as Hr. destruct (schedule _ _ _ _ _) as [[ps m']|] eqn:E; [|discriminate Hr].
  injection Hr as Hr. pose proof E as Hst%schedule_steps.
  destruct (local_linearizable ex_store program_key 0 1000 10 32 ex_race ex_machine ∅ ps m')
    as (sup & n & ts & s' & Hok & Hrun & _ & Hts).
  - exact program_key_plain.
  - exact program_keys_prefix_free.
  - split; [reflexivity|discriminate].
  - reflexivity.
  - assert (program_key CatalogFile) by apply program_key_catalog.
    repeat apply Forall_cons_2; [..|apply Forall_nil_2]; (split; [split; [assumption|reflexivity]|done]).
  - apply ex_inv.
  - apply ex_rep.
  - exact Hst.
  - exists sup, n, ts, s'. assert (atoms m' = ∅) as Ha.
    { revert E. vm_compute. by intros [= _ <-]. }
    rewrite Ha in Hrun. split; [exact Hok|]. split; [exact Hrun|].
    split; apply Hts, finished_lookup; by rewrite Hr.
Defined.

(** Both clients create a namespace; the one that loses the race retries. *)
#[local] Instance ex_disk_codec : Codec TenantCatalog := bit_codec TenantCatalog.
#[local] Instance ex_disk_laws : CodecLaws TenantCatalog := bit_codec_laws TenantCatalog.
Definition ex_creates : list cat_op := [OpCreate "docs" 10; OpCreate "logs" 20].

Lemma ex_creates_run : (fun c => option_map fst <$> finished c.1) <$>
    schedule 0 1000 (round_robin 18 1 ++ solo 1 27 50) (compile 10 ex_store <$> (cat_prog 5 <$> ex_creates)) ex_machine
  = Some [Some (Ok (MkMeta 0 10 0)); Some (Ok (MkMeta 0 20 0))].
Proof. vm_compute. reflexivity. Qed.

Lemma local_catalog_witness : exists c,
  is_Some (Namespaces c !! "docs") /\ is_Some (Namespaces c !! "logs").
Proof.
  pose proof ex_creates_run as Hr. destruct (schedule _ _ _ _ _) as [[ps m']|] eqn:E; [|discriminate Hr].
  injection Hr as Hr. pose proof E as Hst%schedule_steps.
  destruct (local_catalog ex_store 0 1000 10 5 63 ex_creates ex_machine ∅ emptyCatalog ps m')
    as (ob' & c & _ & _ & _ & _ & Hans).
  - split; [reflexivity|discriminate].
  - reflexivity.
  - apply ex_inv.
  - apply ex_rep.
  - reflexivity.
  - exact cat_good_empty.
  - exact Hst.
  - exists c. assert (forall i o r, ex_creates !! i = Some o -> option_map fst <$> finished ps !! i = Some (Some r) ->
      cat_answered c o r) as H.
    { intros i o r Ho. destruct (finished ps !! i) as [[[r' g]|]|] eqn:Ei; [|done|done]. intros [= <-].
      by apply (Hans i o (r', g)), finished_lookup. }
    assert (forall i, option_map fst <$> finished ps !! i =
      [Some (Ok (MkMeta 0 10 0)); Some (Ok (MkMeta 0 20 0))] !! i) as Hi
      by (intros i; rewrite <-Hr; by rewrite list_lookup_fmap).
    destruct (H 0%nat _ _ eq_refl (Hi 0%nat)) as [_ (m1 & H1 & _)].
    destruct (H 1%nat _ _ eq_refl (Hi 1%nat)) as [_ (m2 & H2 & _)]. eauto.
Defined.

(** A client that writes twice, reads, lists and deletes. *)
Definition ex_session : prog (res string * res string * res (list Object) * res unit) :=
  a ← call (OPut CatalogFile [x01] IfAbsent);
  b ← call (OPut (branchesKey (MkScope "docs")) [x02; x03] Unconditional);
  l ← call (OList "" "" 1);
  r ← call (ODelete CatalogFile);
  Ret (a, b, l, r).

Lemma local_alone_witness : exists m' sup w',
  run_alone 0 (Z.of_nat <$> seq 1 70) (compile 10 ex_store ex_session) ex_machine =
    Some ((Ok "a-1", Ok "20-2", Ok [MkObject CatalogFile "a-1" 1], Ok tt), m') /\
  run ex_session (MkWorld (MkIdeal ∅ sup (generations ∅)) ∅) =
    ((Ok "a-1", Ok "20-2", Ok [MkObject CatalogFile "a-1" 1], Ok tt), w').
Proof.
  destruct (local_alone ex_store program_key 0 1000 10 CatalogFile 0 ex_session ex_machine ∅ (Z.of_nat <$> seq 1 70))
    as (a & m' & Hrun & _ & sup & s' & _ & Hid & _).
  - exact program_key_plain.
  - exact program_keys_prefix_free.
  - split; [reflexivity|discriminate].
  - reflexivity.
  - apply program_key_catalog.
  - intros k Hk%program_key_depth. lia.
  - reflexivity.
  - assert (program_key CatalogFile) by apply program_key_catalog.
    assert (program_key (branchesKey (MkScope "docs"))) by (by exists (KBranches "docs")).
    repeat (split; [first [assumption|split; [assumption|reflexivity]|done]|intros ?]). done.
  - apply ex_settled.
  - apply ex_rep.
  - vm_compute. done.
  - pose proof Hrun as E. vm_compute in E. injection E as <- _.
    exists m', sup, (MkWorld s' (atoms m')). split; [exact Hrun|exact Hid].
Defined.

Lemma list_hidden_root_witness : exists m',
  run_alone 0 (Z.of_nat <$> seq 1 30) (compile 10 (MkLocal [".data"])
    (a ← call (OPut "k" [x01] IfAbsent); l ← call (OList "" "" 0); Ret (a, l))) ex_machine
  = Some ((Ok "a-1", Ok []), m') /\ alone 0 1000 0 (List_ (MkLocal [".data"]) "" "" 10 0) (fun r m => r = Ok [] /\ m = m') m'.
Proof.
  eexists. split; [vm_compute; reflexivity|]. apply list_hidden_root; [reflexivity|discriminate|vm_compute; reflexivity].
Defined.

Lemma delete_empty_directory_witness : exists m',
  run_alone 0 (Z.of_nat <$> seq 1 60) (compile 10 ex_store
    (a ← call (OPut "a/b" [x01] IfAbsent); b ← call (ODelete "a/b"); Ret (a, b))) ex_machine
  = Some ((Ok "c-1", Ok tt), m') /\
  alone 0 1000 0 (Delete 10 ex_store "a") (fun r m => r = Ok tt /\ names m !! tgt ex_store "a" = None) m'.
Proof.
  eexists. split; [vm_compute; reflexivity|].
  apply (delete_empty_directory ex_store 0 1000 0 10 "a"); [lia| |vm_compute; reflexivity..].
  repeat (apply Forall_cons_2 || apply Forall_nil_2). by split.
Defined.
