(* ===== verification/Gcs.v ===== *)
(** * objectstore: the Google Cloud Storage store

    src/objectstore/gcs.go on the bucket API of cloud.google.com/go/storage.
    The client library is not part of the program: a bucket is the class
    [Bucket], and what the library's documentation says of it the class
    [BucketLaws].  The store keeps the promises of [StoreLaws] on every such
    bucket, so what the other files prove of any store holds on GCS.
    [fake] is a bucket in memory that satisfies the laws. *)

From S2P Require Import Prelude GoStr ObjectStore.
Local Open Scope Z_scope.

(** ** The storage client *)
Inductive gerror :=
  | ErrObjectNotExist
  | GoogleAPI (code : Z)   (* *googleapi.Error *)
  | Other (e : error).

#[export] Instance gerror_eq_dec : EqDecision gerror.
Proof. solve_decision. Defined.

Definition gres (A : Type) : Type := gerror + A.

Record ObjectAttrs := MkAttrs { Name : string; AGeneration : Z; ASize : Z }.
Record Conditions := MkConds { DoesNotExist : bool; GenerationMatches : option Z }.
Record Query := MkQuery { QPrefix : string; StartOffset : string }.

Definition noConditions : Conditions := MkConds false None.

(** The methods of a bucket handle that the store calls.  [Write] is the
    error, if any, of the [Write] calls of [io.Copy]; [CloseWriter] ends the
    upload of the bytes written.  [Objects] is what [Next] returns until
    [iterator.Done]. *)
Class Bucket (B : Type) := {
  Attrs : option error -> string -> B -> gres ObjectAttrs;
  NewReader : option error -> string -> B -> gres (list byte * ObjectAttrs);
  NewRangeReader : option error -> string -> Z -> Z -> B -> gres (list byte * ObjectAttrs);
  DeleteObject : option error -> string -> B -> gres unit * B;
  Write : option error -> string -> Conditions -> list byte -> B -> option gerror;
  CloseWriter : option error -> string -> Conditions -> list byte -> B -> gres ObjectAttrs * B;
  Objects : option error -> Query -> B -> list (gres ObjectAttrs);
}.

Section Gcs.
Context {B : Type} `{Bucket B}.

Record gcsStore := MkGcs { bkt : B; prefix : string }.

(** ** Keys and object names *)
Definition resolveKey (g : gcsStore) (key : string) : string :=
  if decide (prefix g = "") then key else
  if decide (key = "") then prefix g else
  prefix g +:+ "/" +:+ key.

Definition trimKey (g : gcsStore) (key : string) : string :=
  if decide (prefix g = "") then key else
  TrimPrefix (TrimPrefix key (prefix g)) "/".

(** ** Errors *)

(** The error as it is. *)
Definition plainError (e : gerror) : error :=
  match e with
  | ErrObjectNotExist => Msg "storage: object doesn't exist"
  | GoogleAPI _ => Msg "googleapi: Error"
  | Other e => e
  end.

Definition translateGCS (e : gerror) : error :=
  match e with
  | ErrObjectNotExist => ErrNotFound
  | GoogleAPI code =>
    if decide (code = 404) then ErrNotFound else
    if decide (code = 412) then ErrPreconditionFailed else plainError e
  | Other e => e
  end.

Definition formatGen (gen : Z) : string := FormatInt gen 10.

Definition attrsObject (key : string) (a : ObjectAttrs) : Object :=
  MkObject key (formatGen (AGeneration a)) (ASize a).

(** ** Reading *)
Definition Stat (ctx : option error) (key : string) (g : gcsStore) : res Object :=
  match Attrs ctx (resolveKey g key) (bkt g) with
  | inl e => Err (translateGCS e)
  | inr a => Ok (attrsObject key a)
  end.

Definition Get (ctx : option error) (key : string) (g : gcsStore) : res (list byte * Object) :=
  match NewReader ctx (resolveKey g key) (bkt g) with
  | inl e => Err (translateGCS e)
  | inr (d, a) => Ok (d, attrsObject key a)
  end.

Definition readEmptyRange (ctx : option error) (key : string) (offset : Z) (g : gcsStore)
  : res (list byte * Object) :=
  match Stat ctx key g with
  | Err e => Err e
  | Ok obj => if decide (Size obj < offset) then Err (Msg "objectstore: offset exceeds object size")
              else Ok ([], obj)
  end.

Definition ReadRange (ctx : option error) (key : string) (offset len : Z) (g : gcsStore)
  : res (list byte * Object) :=
  if decide (offset < 0 \/ len < 0) then Err (Msg "objectstore: invalid range") else
  if decide (len = 0) then readEmptyRange ctx key offset g else
  match NewRangeReader ctx (resolveKey g key) offset len (bkt g) with
  | inl e => if decide (e = GoogleAPI 416) then readEmptyRange ctx key offset g
             else Err (translateGCS e)
  | inr (d, a) => Ok (d, attrsObject key a)
  end.

Definition Exists (ctx : option error) (key : string) (g : gcsStore) : res bool :=
  match Attrs ctx (resolveKey g key) (bkt g) with
  | inr _ => Ok true
  | inl ErrObjectNotExist => Ok false
  | inl (GoogleAPI code) => if decide (code = 404) then Ok false else Err (plainError (GoogleAPI code))
  | inl e => Err (plainError e)
  end.

(** ** Writing *)
Definition Delete (ctx : option error) (key : string) (g : gcsStore) : res unit * gcsStore :=
  let '(r, b) := DeleteObject ctx (resolveKey g key) (bkt g) in
  (match r with inl e => Err (translateGCS e) | inr _ => Ok tt end, MkGcs b (prefix g)).

(** The preconditions of the write, [None] when the generation is malformed. *)
Definition conditions (cond : Condition) : option Conditions :=
  if Absent cond then Some (MkConds true None) else
  if decide (GenerationMatch cond <> "") then
    match ParseInt (GenerationMatch cond) 10 with
    | Some gen => if decide (gen <= 0) then None else Some (MkConds false (Some gen))
    | None => None
    end
  else Some noConditions.

(** [io.Copy(w, r)]: the error of a [Write], or else that of the reader. *)
Definition copyError (ctx : option error) (name : string) (conds : Conditions) (r : reader) (b : B)
  : option gerror :=
  match Write ctx name conds (content r) b with
  | Some e => Some e
  | None => Other <$> readErr r
  end.

Definition Put (ctx : option error) (key : string) (r : reader) (cond : Condition) (g : gcsStore)
  : res string * gcsStore :=
  let name := resolveKey g key in
  match conditions cond with
  | None => (Err (Msg "objectstore: malformed generation"), g)
  | Some conds =>
    match copyError ctx name conds r (bkt g) with
    | Some e =>
      let '(_, b) := CloseWriter ctx name conds (content r) (bkt g) in
      (Err (translateGCS e), MkGcs b (prefix g))
    | None =>
      let '(closed, b) := CloseWriter ctx name conds (content r) (bkt g) in
      (match closed with
       | inl e => Err (translateGCS e)
       | inr a => Ok (formatGen (AGeneration a))
       end, MkGcs b (prefix g))
    end
  end.

(** ** Listing *)
Fixpoint list_loop (g : gcsStore) (startAfter : string) (limit : Z) (it : list (gres ObjectAttrs))
    (out : list Object) : res (list Object) :=
  if decide (0 < limit /\ Z.of_nat (length out) = limit) then Ok out else
  match it with
  | [] => Ok out
  | inl e :: _ => Err (plainError e)
  | inr a :: it =>
    let name := trimKey g (Name a) in
    if decide (startAfter <> "" /\ ~ str_lt startAfter name) then list_loop g startAfter limit it out
    else list_loop g startAfter limit it (out ++ [attrsObject name a])
  end.

Definition query (g : gcsStore) (pre startAfter : string) : Query :=
  let resolvedPrefix := if decide (prefix g <> "" /\ pre = "") then prefix g +:+ "/"
                        else resolveKey g pre in
  MkQuery resolvedPrefix (if decide (startAfter <> "") then resolveKey g startAfter else "").

Definition ListObjects (ctx : option error) (pre startAfter : string) (limit : Z) (g : gcsStore)
  : res (list Object) :=
  list_loop g startAfter limit (Objects ctx (query g pre startAfter) (bkt g)) [].
End Gcs.
Arguments gcsStore B : clear implicits.

(** [Close] closes the client: a call of the library. *)

#[export] Instance gcs_store {B} `{Bucket B} : Store (gcsStore B) := {|
  ObjectStore.Stat := Stat; ObjectStore.Get := Get; ObjectStore.ReadRange := ReadRange;
  ObjectStore.Put ctx key r cond g :=
    Put ctx key (match r with Ok d => MkReader d None | Err e => MkReader [] (Some e) end) cond g;
  ObjectStore.Delete := Delete; ObjectStore.Exists := Exists; ObjectStore.ListObjects := ListObjects;
|}.

(** ** What the client promises *)
Definition attrs_of (name : string) (o : list byte * Z) : ObjectAttrs :=
  MkAttrs name o.2 (Z.of_nat (length o.1)).

(** The preconditions of a write hold of the object there is. *)
Definition met (conds : Conditions) (old : option (list byte * Z)) : bool :=
  (negb (DoesNotExist conds) || match old with None => true | Some _ => false end) &&
  match GenerationMatches conds with
  | None => true
  | Some gen => match old with Some o => bool_decide (o.2 = gen) | None => false end
  end.

(** [asked q name]: the query covers the name; [StartOffset] is included. *)
Definition asked (q : Query) (name : string) : Prop :=
  HasPrefix name (QPrefix q) = true /\ ~ str_lt name (StartOffset q).

(** [objects] are the live objects with their generations, [assigned] the
    generations ever given, [bucket_ok n] says that [n] more writes get new
    ones. *)
Class BucketLaws (B : Type) `{Bucket B} := {
  objects : B -> gmap string (list byte * Z);
  assigned : B -> Z -> Prop;
  bucket_ok : nat -> B -> Prop;
  bucket_weaken n m b : (m <= n)%nat -> bucket_ok n b -> bucket_ok m b;
  bucket_named n b : bucket_ok n b -> objects b !! "" = None;
  bucket_assigned n b name o : bucket_ok n b -> objects b !! name = Some o -> assigned b o.2;
  assigned_range n b gen : bucket_ok n b -> assigned b gen -> 0 < gen < 2 ^ 63;
  attrs_spec n b name : bucket_ok n b ->
    Attrs None name b = match objects b !! name with
                        | Some o => inr (attrs_of name o) | None => inl ErrObjectNotExist end;
  reader_spec n b name : bucket_ok n b ->
    NewReader None name b = match objects b !! name with
                            | Some o => inr (o.1, attrs_of name o) | None => inl ErrObjectNotExist end;
  (* a range that starts past the last byte cannot be satisfied *)
  range_spec n b name off len : bucket_ok n b -> 0 <= off -> 0 < len ->
    NewRangeReader None name off len b =
      match objects b !! name with
      | Some o => if decide (off < Z.of_nat (length o.1))
                  then inr (take (Z.to_nat len) (drop (Z.to_nat off) o.1), attrs_of name o)
                  else inl (GoogleAPI 416)
      | None => inl ErrObjectNotExist
      end;
  delete_missing n b name : bucket_ok n b -> objects b !! name = None ->
    DeleteObject None name b = (inl ErrObjectNotExist, b);
  delete_done n b name : bucket_ok n b -> is_Some (objects b !! name) ->
    exists b', DeleteObject None name b = (inr tt, b') /\ bucket_ok n b' /\
      objects b' = delete name (objects b) /\ (forall gen, assigned b gen -> assigned b' gen);
  write_live n b name conds d : bucket_ok n b -> Write None name conds d b = None;
  (* closing the writer creates the object, if the preconditions hold *)
  close_rejected n b name conds d : bucket_ok n b -> met conds (objects b !! name) = false ->
    CloseWriter None name conds d b = (inl (GoogleAPI 412), b);
  close_done n b name conds d : bucket_ok (S n) b -> name <> "" -> slice_len d ->
    met conds (objects b !! name) = true ->
    exists gen b', CloseWriter None name conds d b = (inr (attrs_of name (d, gen)), b') /\
      bucket_ok n b' /\ objects b' = <[name := (d, gen)]> (objects b) /\
      ~ assigned b gen /\ assigned b' gen /\ (forall gen', assigned b gen' -> assigned b' gen');
  (* in the order of the names *)
  objects_spec n b q : bucket_ok n b ->
    exists l, Objects None q b = inr <$> l /\ StronglySorted str_lt (Name <$> l) /\
      forall a, a ∈ l <-> asked q (Name a) /\
        exists o, objects b !! Name a = Some o /\ a = attrs_of (Name a) o;
  (* nothing is done once the context is *)
  bucket_dead b e name q conds d :
    Attrs (Some e) name b = inl (Other e) /\ NewReader (Some e) name b = inl (Other e) /\
    DeleteObject (Some e) name b = (inl (Other e), b) /\ Objects (Some e) q b = [inl (Other e)] /\
    CloseWriter (Some e) name conds d b = (inl (Other e), b) /\
    (Write (Some e) name conds d b = None \/ Write (Some e) name conds d b = Some (Other e));
}.

(** ** Names *)
Section Names.
Context {B : Type} (g : gcsStore B).

Lemma TrimPrefix_app p s : TrimPrefix (p +:+ s) p = s.
Proof. unfold TrimPrefix. rewrite HasPrefix_app. apply str_drop_app. Qed.

Lemma trim_resolve k : trimKey g (resolveKey g k) = k.
Proof.
  unfold trimKey, resolveKey. case_decide as Hp; [done|]. case_decide as Hk.
  - subst k. rewrite <-(str_app_nil_r (prefix g)) at 1. by rewrite TrimPrefix_app.
  - by rewrite !TrimPrefix_app.
Qed.

Lemma compare_app p a b : String.compare (p +:+ a) (p +:+ b) = String.compare a b.
Proof.
  induction p as [|c p IH]; [done|]. rewrite !str_app_cons. cbn. unfold Ascii.compare. by rewrite N.compare_refl.
Qed.

Lemma str_lt_app p a b : str_lt (p +:+ a) (p +:+ b) <-> str_lt a b.
Proof. unfold str_lt. by rewrite compare_app. Qed.

(** Where the names of the non-empty keys start. *)
Definition root : string := if decide (prefix g = "") then "" else prefix g +:+ "/".

Lemma resolve_root k : k <> "" -> resolveKey g k = root +:+ k.
Proof.
  intros Hk. unfold resolveKey, root. case_decide; [done|]. by rewrite decide_False, str_app_assoc.
Qed.

Lemma resolve_lt a b : a <> "" -> b <> "" -> str_lt (resolveKey g a) (resolveKey g b) <-> str_lt a b.
Proof. intros Ha Hb. rewrite !resolve_root by done. apply str_lt_app. Qed.

Lemma resolve_ne_root k : k <> "" \/ prefix g <> "" -> resolveKey g k <> root.
Proof.
  intros Hk E. unfold resolveKey, root in E. case_decide as Hp; [naive_solver|].
  apply (f_equal String.length) in E. case_decide; rewrite ?str_length_app in E; cbn in E; [lia|].
  destruct k; [done|cbn in E; lia].
Qed.

Lemma query_prefix pre start : QPrefix (query g pre start) = root +:+ pre.
Proof.
  unfold query, root, resolveKey. cbn. destruct (decide (prefix g = "")) as [E|E].
  - by rewrite decide_False by tauto.
  - destruct (decide (pre = "")) as [->|]; [rewrite decide_True by done; by rewrite str_app_nil_r|].
    rewrite decide_False by tauto. by rewrite str_app_assoc.
Qed.
End Names.

(** ** The store keeps the promises of [StoreLaws] *)
Section Laws.
Context {B : Type} `{BucketLaws B}.
Implicit Types g : gcsStore B.

Definition entry_of (o : list byte * Z) : entry := MkEntry o.1 (formatGen o.2).

(** The objects of the store by key: those of the bucket whose name the key
    resolves to. *)
Definition by_key g (no : string * (list byte * Z)) : option (string * entry) :=
  let k := trimKey g no.1 in
  if decide (resolveKey g k = no.1) then Some (k, entry_of no.2) else None.

Definition store_view g : gmap string entry :=
  list_to_map (omap (by_key g) (map_to_list (objects (bkt g)))).

Lemma view_lookup g k : store_view g !! k = entry_of <$> objects (bkt g) !! resolveKey g k.
Proof.
  unfold store_view.
  assert (forall e, (k, e) ∈ omap (by_key g) (map_to_list (objects (bkt g))) <->
    entry_of <$> objects (bkt g) !! resolveKey g k = Some e) as Hin.
  { intros e. rewrite list_elem_of_omap, fmap_Some. split.
    - intros ([n o] & Ho%elem_of_map_to_list & E). unfold by_key in E. cbn in E. case_decide as Hn; [|done].
      injection E as <- <-. exists o. by rewrite Hn.
    - intros (o & Ho & ->). exists (resolveKey g k, o). rewrite elem_of_map_to_list. split; [done|].
      unfold by_key. cbn. by rewrite trim_resolve, decide_True. }
  destruct (entry_of <$> objects (bkt g) !! resolveKey g k) as [e|] eqn:E.
  - apply elem_of_list_to_map_1'; [|by apply Hin]. intros e' He'%Hin. congruence.
  - apply not_elem_of_list_to_map_1. intros ([k' e] & -> & He)%list_elem_of_fmap. by apply Hin in He.
Qed.

(** [n] more writes are possible, and no object is named like the directory
    of the store. *)
Definition gcs_ok (n : nat) g : Prop :=
  bucket_ok n (bkt g) /\ (prefix g <> "" -> objects (bkt g) !! root g = None).

Definition gcs_issued g (s : string) : Prop := exists gen, assigned (bkt g) gen /\ s = formatGen gen.

Lemma parse_gen gen : 0 < gen < 2 ^ 63 -> ParseInt (formatGen gen) 10 = Some gen.
Proof. intros Hg. apply ParseInt_FormatInt; lia. Qed.

Lemma formatGen_inj x y : 0 < x < 2 ^ 63 -> 0 < y < 2 ^ 63 -> formatGen x = formatGen y -> x = y.
Proof.
  intros Hx Hy E. apply (f_equal (fun s => ParseInt s 10)) in E. rewrite !parse_gen in E by done. congruence.
Qed.

Lemma formatGen_ne gen : 0 < gen < 2 ^ 63 -> formatGen gen <> "".
Proof. intros Hg E. pose proof (parse_gen gen Hg) as Hp. by rewrite E in Hp. Qed.

Lemma conditions_generation gen : 0 < gen < 2 ^ 63 ->
  conditions (IfGeneration (formatGen gen)) = Some (MkConds false (Some gen)).
Proof.
  intros Hg. unfold conditions. cbn. rewrite decide_True by (by apply formatGen_ne). rewrite parse_gen by done.
  by rewrite decide_False by lia.
Qed.

(** A write on a live context is decided when the writer is closed. *)
Lemma put_closed n g k d cond conds : gcs_ok n g -> conditions cond = Some conds ->
  Put None k (MkReader d None) cond g =
    let '(r, b) := CloseWriter None (resolveKey g k) conds d (bkt g) in
    (match r with inl e => Err (translateGCS e) | inr a => Ok (formatGen (AGeneration a)) end, MkGcs b (prefix g)).
Proof.
  intros [Hok _] Hc. unfold Put, copyError. rewrite Hc. cbn [content readErr]. by rewrite (write_live n).
Qed.

Lemma put_refused n g k d cond conds : gcs_ok n g -> conditions cond = Some conds ->
  met conds (objects (bkt g) !! resolveKey g k) = false ->
  Put None k (MkReader d None) cond g = (Err ErrPreconditionFailed, g).
Proof.
  intros Hok Hc Hm. rewrite (put_closed n _ _ _ _ conds) by done. pose proof Hok as [Hb _].
  rewrite (close_rejected n) by done. by destruct g.
Qed.

(** ** Listing *)
Definition picked g (start : string) (l : list ObjectAttrs) : list Object :=
  (fun a => attrsObject (trimKey g (Name a)) a) <$>
    filter (fun a => ~ (start <> "" /\ ~ str_lt start (trimKey g (Name a)))) l.

Lemma list_loop_picked g start limit l out : (0 < limit -> Z.of_nat (length out) <= limit) ->
  list_loop g start limit (inr <$> l) out = Ok (limited limit (out ++ picked g start l)).
Proof.
  assert (forall ob : list Object, limited limit ob = if decide (0 < limit) then take (Z.to_nat limit) ob else ob) as Hlim.
  { intros ob. unfold limited. case_decide as H1; case_decide as H2; try tauto. rewrite take_ge; [done|]. lia. }
  rewrite Hlim. revert out. induction l as [|a l IH]; intros out Hout; cbn [fmap list_fmap list_loop].
  - rewrite app_nil_r. assert (0 < limit -> take (Z.to_nat limit) out = out) as Ht
      by (intros; apply take_ge; lia).
    case_decide; case_decide; f_equal; symmetry; auto; by apply Ht; lia.
  - destruct (decide (0 < limit /\ Z.of_nat (length out) = limit)) as [Hfull|Hfull].
    + rewrite decide_True by lia. f_equal. symmetry. apply take_app_length'. lia.
    + assert (forall P : Prop, 0 < limit -> Z.of_nat (length out) < limit) as Hlt by (intros; lia).
      unfold picked. destruct (decide (start <> "" /\ ~ str_lt start (trimKey g (Name a)))) as [Hk|Hk].
      * rewrite filter_cons_False by tauto. apply IH. lia.
      * rewrite filter_cons_True by done. cbn [fmap list_fmap]. rewrite IH.
        -- by rewrite <-app_assoc.
        -- intros Hl. rewrite length_app. cbn. specialize (Hlt True Hl). lia.
Qed.

(** A name the query covers belongs to a key. *)
Lemma asked_key n g pre start name o : gcs_ok n g -> objects (bkt g) !! name = Some o ->
  asked (query g pre start) name -> exists k, k <> "" /\ name = resolveKey g k /\ HasPrefix k pre = true.
Proof.
  intros [Hb Hr] Ho [Hp _]. rewrite query_prefix in Hp. apply HasPrefix_spec in Hp as [t ->].
  rewrite str_app_assoc in Ho |- *. exists (pre +:+ t).
  assert (pre +:+ t <> "") as Hne.
  { intros E. rewrite E, str_app_nil_r in Ho. destruct (decide (prefix g = "")) as [Ep|Ep].
    - unfold root in Ho. rewrite decide_True in Ho by done. by rewrite (bucket_named n) in Ho.
    - by rewrite Hr in Ho. }
  split; [done|]. by rewrite resolve_root, HasPrefix_app.
Qed.

Lemma key_asked g pre start k : k <> "" -> HasPrefix k pre = true -> str_lt start k ->
  asked (query g pre start) (resolveKey g k).
Proof.
  intros Hk Hp Hs. split.
  - rewrite query_prefix, resolve_root by done. apply HasPrefix_spec in Hp as [t ->].
    rewrite <-str_app_assoc. apply HasPrefix_app.
  - unfold query. cbn. case_decide as Hs'.
    + rewrite resolve_lt by done. intros Hlt. apply (irreflexivity str_lt k). by transitivity start.
    + by destruct (resolveKey g k).
Qed.

Lemma picked_sorted g start l : (forall a, a ∈ l -> exists k, k <> "" /\ Name a = resolveKey g k) ->
  StronglySorted str_lt (Name <$> l) -> StronglySorted str_lt (Key <$> picked g start l).
Proof.
  induction l as [|a l IH]; intros Hel Hs; [constructor|].
  cbn in Hs. apply StronglySorted_inv in Hs as [Hs Hf].
  assert (StronglySorted str_lt (Key <$> picked g start l)) as Hp by (apply IH; [|done]; intros a' ?; apply Hel; by right).
  unfold picked in *. rewrite filter_cons. destruct (decide _) as [Hk|Hk]; [|done].
  cbn [fmap list_fmap]. constructor; [done|]. apply Forall_fmap, Forall_fmap, Forall_forall.
  intros a' [_ Ha']%list_elem_of_filter. cbn.
  destruct (Hel a) as (k & Hk0 & En); [by left|]. destruct (Hel a') as (k' & Hk0' & En'); [by right|].
  rewrite En, En', !trim_resolve. apply (resolve_lt g); [done..|]. rewrite <-En, <-En'.
  rewrite Forall_forall in Hf. apply Hf. by apply list_elem_of_fmap_2.
Qed.

Lemma list_spec n g pre start limit : gcs_ok n g ->
  ListObjects None pre start limit g =
    Ok (omap (fun k => object_of k <$> store_view g !! k) (limited limit (listed (store_view g) pre start))).
Proof.
  intros Hok. unfold ListObjects. pose proof Hok as [Hb _].
  destruct (objects_spec n (bkt g) (query g pre start) Hb) as (l & -> & Hs & Hl).
  rewrite list_loop_picked by (cbn; lia). f_equal. cbn [app].
  assert (forall a, a ∈ l -> exists k o, k <> "" /\ Name a = resolveKey g k /\ HasPrefix k pre = true /\
    objects (bkt g) !! resolveKey g k = Some o /\ a = attrs_of (resolveKey g k) o) as Hel.
  { intros a (Ha & o & Ho & Ea)%Hl. destruct (asked_key n g pre start _ o Hok Ho Ha) as (k & Hk & En & Hp).
    rewrite En in Ho, Ea. exists k, o. done. }
  apply listed_unique.
  - apply picked_sorted; [|done]. intros a (k & _ & ? & ? & _)%Hel. by exists k.
  - intros ob. unfold picked. rewrite list_elem_of_fmap. split.
    + intros (a & -> & [Hkeep Ha]%list_elem_of_filter). destruct (Hel a Ha) as (k & o & Hk0 & En & Hp & Ho & ->).
      rewrite En, trim_resolve in *. cbn. split; [done|]. split.
      * destruct (decide (start = "")) as [->|]; [by destruct k|]. destruct (decide (str_lt start k)); [done|tauto].
      * rewrite view_lookup, Ho. by eexists.
    + intros (Hp & Hst & e & He & ->). remember (Key ob) as k eqn:Ek. clear Ek ob. rewrite view_lookup in He.
      apply fmap_Some in He as (o & Ho & ->). assert (k <> "") as Hk0 by (intros ->; by destruct start).
      exists (attrs_of (resolveKey g k) o). cbn. rewrite trim_resolve. split; [done|].
      apply list_elem_of_filter. cbn. rewrite trim_resolve. split; [tauto|]. apply Hl. cbn.
      split; [by apply key_asked|]. by exists o.
Qed.
End Laws.

#[local] Arguments Put : simpl never.
#[local] Arguments Delete : simpl never.

Section Instance_.
Context {B : Type} `{BucketLaws B}.

#[export] Program Instance gcs_laws : StoreLaws (gcsStore B) := {|
  view := store_view; issued := gcs_issued; ok := gcs_ok;
|}.
Next Obligation. intros n m g Hle [Hb Hr]. split; [by eapply bucket_weaken|done]. Qed.
Next Obligation.
  intros n g k e [Hb _]. rewrite view_lookup. intros (o & Ho & ->)%fmap_Some. exists o.2. split; [|done].
  by eapply bucket_assigned.
Qed.
Next Obligation. intros n g s [Hb _] (gen & Ha & ->). by eapply formatGen_ne, assigned_range. Qed.
Next Obligation.
  intros n g k [Hb _]. cbn. unfold Stat. rewrite (attrs_spec n) by done. rewrite view_lookup.
  by destruct (objects (bkt g) !! resolveKey g k) as [o|].
Qed.
Next Obligation.
  intros n g k [Hb _]. cbn. unfold Get. rewrite (reader_spec n) by done. rewrite view_lookup.
  by destruct (objects (bkt g) !! resolveKey g k) as [o|].
Qed.
Next Obligation.
  intros n g k [Hb _]. cbn. unfold Exists. rewrite (attrs_spec n) by done. rewrite view_lookup.
  destruct (objects (bkt g) !! resolveKey g k) as [o|]; [|done]. by rewrite bool_decide_eq_true_2.
Qed.
Next Obligation. intros n g pre start limit Hok. by apply (list_spec n). Qed.
Next Obligation.
  intros n g k d Hok Hk. rewrite view_lookup, fmap_is_Some in Hk. destruct Hk as [o Ho].
  cbn. apply (put_refused n _ _ _ _ (MkConds true None)); [done|done|]. by rewrite Ho.
Qed.
Next Obligation.
  intros n g k d s Hok (gen & Ha & ->) Hne. pose proof Hok as [Hb _].
  assert (0 < gen < 2 ^ 63) as Hr by (by eapply assigned_range).
  cbn. apply (put_refused n _ _ _ _ (MkConds false (Some gen))); [done|by apply conditions_generation|].
  destruct (objects (bkt g) !! resolveKey g k) as [o|] eqn:Ho; [|done]. unfold met. cbn.
  apply bool_decide_eq_false_2. intros E. apply (Hne (entry_of o)); [by rewrite view_lookup, Ho|]. cbn. by rewrite E.
Qed.
Next Obligation.
  intros n g k d c Hok Hk Hd Hc. pose proof Hok as [Hb Hroot].
  assert (exists conds, conditions c = Some conds /\ met conds (objects (bkt g) !! resolveKey g k) = true)
    as (conds & Econd & Hmet).
  { rewrite view_lookup in Hc. destruct Hc as [[-> Ho]|[(e & He & ->)| ->]].
    - apply fmap_None in Ho. exists (MkConds true None). by rewrite Ho.
    - apply fmap_Some in He as (o & Ho & ->). exists (MkConds false (Some o.2)).
      rewrite Ho. unfold met. cbn. rewrite bool_decide_eq_true_2 by done.
      split; [|done]. apply conditions_generation. by eapply assigned_range, bucket_assigned.
    - by exists noConditions. }
  assert (resolveKey g k <> "") as Hname by (rewrite resolve_root by done; by destruct (root g), k).
  destruct (close_done n (bkt g) (resolveKey g k) conds d) as (gen & b' & Ec & Hb' & Ho' & Hn & Hi & Hm); try done.
  exists (formatGen gen), (MkGcs b' (prefix g)). cbn. rewrite (put_closed (Datatypes.S n) _ _ _ _ conds), Ec by done.
  split; [done|]. split; [|split; [|split; [|split]]].
  - split; [done|]. cbn. intros Hp. rewrite Ho', lookup_insert_ne; [by apply Hroot|].
    apply (resolve_ne_root g). by right.
  - apply map_eq. intros k'. rewrite view_lookup. cbn. rewrite Ho'.
    change (resolveKey (MkGcs b' (prefix g)) k') with (resolveKey g k').
    destruct (decide (k' = k)) as [->|Hne]; [by rewrite !lookup_insert_eq|].
    rewrite !lookup_insert_ne, view_lookup; [done|done|]. intros E. apply Hne.
    by rewrite <-(trim_resolve g k'), <-E, trim_resolve.
  - intros (gen' & Ha & E). apply formatGen_inj in E as <-; [done|by apply (assigned_range n b')|by apply (assigned_range (Datatypes.S n) (bkt g))].
  - by exists gen.
  - intros s (gen' & Ha & ->). exists gen'. auto.
Qed.
Next Obligation.
  intros n g k [Hb Hroot] Hk. rewrite view_lookup, fmap_is_Some in Hk.
  destruct (delete_done n (bkt g) (resolveKey g k) Hb Hk) as (b' & Ed & Hb' & Ho & Hm).
  exists (MkGcs b' (prefix g)). cbn. unfold Delete. rewrite Ed. split; [done|]. split; [|split].
  - split; [done|]. cbn. intros Hp. rewrite Ho, lookup_delete_None. right. by apply Hroot.
  - apply map_eq. intros k'. rewrite view_lookup. cbn. rewrite Ho.
    change (resolveKey (MkGcs b' (prefix g)) k') with (resolveKey g k').
    destruct (decide (k' = k)) as [->|Hne]; [by rewrite !lookup_delete_eq|].
    rewrite !lookup_delete_ne, view_lookup; [done|done|]. intros E. apply Hne.
    by rewrite <-(trim_resolve g k'), <-E, trim_resolve.
  - intros s (gen & Ha & ->). exists gen. auto.
Qed.
Next Obligation.
  intros n g k [Hb _] Hk. rewrite view_lookup, fmap_None in Hk. cbn. unfold Delete.
  rewrite (Gcs.delete_missing n) by done. by destruct g.
Qed.
Next Obligation.
  intros e k g. pose proof (fun conds d pre start => bucket_dead (bkt g) e (resolveKey g k) (query g pre start) conds d) as Hd.
  destruct (Hd noConditions [] "" "") as (E1 & E2 & E3 & _). cbn. unfold Stat, Get, Exists, Delete, ListObjects.
  rewrite E1, E2, E3. cbn. split; [done|]. split; [done|]. split; [done|]. split; [by destruct g|]. split.
  - intros p a l. destruct (Hd noConditions [] p a) as (_ & _ & _ & -> & _). cbn. by rewrite decide_False by lia.
  - intros d c. unfold Put, copyError. destruct (conditions c) as [conds|]; [|eauto]. cbn [content readErr].
    destruct (Hd conds d "" "") as (_ & _ & _ & _ & E & [-> | ->]); rewrite E; cbn; exists e; destruct g; by split; [|left].
Qed.
End Instance_.

(** ** What the store does *)
Section Behaviour.
Context {B : Type} `{BucketLaws B}.

(** C19. A listing of a GCS store is exactly the objects under the prefix that
    sort after [startAfter], each once, under the keys the program uses, in
    the order of the keys and cut at the limit, although the bucket is asked
    with an inclusive offset and in terms of prefixed names. *)
Theorem gcs_list n (g : gcsStore B) pre start limit : gcs_ok n g ->
  ListObjects None pre start limit g =
    Ok (omap (fun k => object_of k <$> store_view g !! k) (limited limit (listed (store_view g) pre start))).
Proof. apply list_spec. Qed.

(** A range read of a GCS store: a negative offset or length is refused, a
    missing object is not found, an offset past the end is an error and one
    at the end is an empty read (although the bucket answers 416 to both, and
    no request is made for an empty range); otherwise the bytes of the range
    that the object has. *)
Theorem gcs_read_range n (g : gcsStore B) k off len : gcs_ok n g ->
  ReadRange None k off len g =
    if decide (off < 0 \/ len < 0) then Err (Msg "objectstore: invalid range") else
    match store_view g !! k with
    | None => Err ErrNotFound
    | Some e =>
      if decide (Z.of_nat (length (data e)) < off) then Err (Msg "objectstore: offset exceeds object size")
      else Ok (take (Z.to_nat len) (drop (Z.to_nat off) (data e)), object_of k e)
    end.
Proof.
  intros Hok. unfold ReadRange. case_decide as Hneg; [done|].
  assert (readEmptyRange None k off g = match store_view g !! k with
    | None => Err ErrNotFound
    | Some e => if decide (Z.of_nat (length (data e)) < off) then Err (Msg "objectstore: offset exceeds object size")
                else Ok ([], object_of k e) end) as Hempty.
  { unfold readEmptyRange. pose proof (stat_ok n g k Hok) as E. cbn in E. rewrite E.
    by destruct (store_view g !! k). }
  case_decide as Hlen.
  { subst len. rewrite Hempty. by destruct (store_view g !! k). }
  destruct Hok as [Hb _]. rewrite (range_spec n) by (done || lia). rewrite view_lookup in *.
  destruct (objects (bkt g) !! resolveKey g k) as [o|]; [|done]. cbn in *.
  destruct (decide (off < Z.of_nat (length o.1))) as [Hoff|Hoff].
  - by rewrite decide_False by lia.
  - rewrite decide_True by done. rewrite Hempty. case_decide; [done|]. by rewrite drop_ge, take_nil by lia.
Qed.

(** C37. [Put] whose reader fails stores a truncated object: it returns the
    reader's error, but it has closed the writer, and closing is what commits
    the upload.  The bytes read so far become the object, in place of the
    complete one that a generation condition guarded. *)
Theorem gcs_put_truncated n (g : gcsStore B) k part e cond conds : gcs_ok (Datatypes.S n) g -> k <> "" -> slice_len part ->
  conditions cond = Some conds -> met conds (objects (bkt g) !! resolveKey g k) = true ->
  exists g' gen, Put None k (MkReader part (Some e)) cond g = (Err e, g') /\
    store_view g' !! k = Some (MkEntry part gen) /\ Get None k g' = Ok (part, MkObject k gen (Z.of_nat (length part))).
Proof.
  intros [Hb Hroot] Hk Hd Hc Hmet.
  assert (resolveKey g k <> "") as Hname by (rewrite resolve_root by done; by destruct (root g), k).
  destruct (close_done n (bkt g) (resolveKey g k) conds part) as (gen & b' & Ec & Hb' & Ho' & _); try done.
  exists (MkGcs b' (prefix g)), (formatGen gen). unfold Put, copyError. rewrite Hc. cbn [content readErr].
  rewrite (write_live (Datatypes.S n)), Ec by done.
  assert (objects b' !! resolveKey g k = Some (part, gen)) as Hl by (by rewrite Ho', lookup_insert_eq).
  split; [done|]. rewrite view_lookup. unfold Get. cbn.
  change (resolveKey (MkGcs b' (prefix g)) k) with (resolveKey g k). rewrite (reader_spec n), Hl by done. done.
Qed.

(** A directory marker shows up as an object without a name: when the
    bucket has an object named like the store's prefix with a slash, as the
    console makes for a folder, [List] of the whole store reports it under
    the empty key, which no method finds. *)
Theorem gcs_list_marker n (g : gcsStore B) o : bucket_ok n (bkt g) -> prefix g <> "" ->
  objects (bkt g) !! root g = Some o -> objects (bkt g) !! prefix g = None ->
  (exists l, ListObjects None "" "" 0 g = Ok l /\ attrsObject "" (attrs_of (root g) o) ∈ l) /\
  Exists None "" g = Ok false.
Proof.
  intros Hb Hp Ho Hnone. split.
  - unfold ListObjects. destruct (objects_spec n (bkt g) (query g "" "") Hb) as (l & -> & _ & Hl).
    rewrite list_loop_picked by (cbn; lia). eexists. split; [done|]. cbn.
    unfold limited. rewrite decide_False by lia. unfold picked.
    assert (trimKey g (root g) = "") as Et.
    { unfold trimKey, root. rewrite !decide_False by done. by rewrite TrimPrefix_app. }
    apply list_elem_of_fmap. exists (attrs_of (root g) o). cbn. rewrite Et. split; [done|].
    apply list_elem_of_filter. split; [tauto|]. apply Hl. split; [|by exists o]. split.
    + rewrite query_prefix, str_app_nil_r. apply HasPrefix_spec. exists "". by rewrite str_app_nil_r.
    + cbn. by destruct (root g).
  - unfold Exists. rewrite (attrs_spec n) by done. unfold resolveKey. rewrite decide_False, decide_True, Hnone by done. done.
Qed.
End Behaviour.

(** ** A bucket in memory *)
Record fake := MkFake { fobjects : gmap string (list byte * Z); fnext : Z }.

#[export] Instance asked_dec q name : Decision (asked q name).
Proof. unfold asked. apply _. Defined.

Definition fake_listing (q : Query) (b : fake) : list ObjectAttrs :=
  omap (fun name => attrs_of name <$> fobjects b !! name)
    (sort_Strings (filter (asked q) ((map_to_list (fobjects b)).*1))).

#[export] Instance fake_bucket : Bucket fake := {|
  Attrs ctx name b :=
    match ctx with
    | Some e => inl (Other e)
    | None => match fobjects b !! name with
              | Some o => inr (attrs_of name o) | None => inl ErrObjectNotExist end
    end;
  NewReader ctx name b :=
    match ctx with
    | Some e => inl (Other e)
    | None => match fobjects b !! name with
              | Some o => inr (o.1, attrs_of name o) | None => inl ErrObjectNotExist end
    end;
  NewRangeReader ctx name off len b :=
    match ctx with
    | Some e => inl (Other e)
    | None => match fobjects b !! name with
              | Some o => if decide (off < Z.of_nat (length o.1))
                          then inr (take (Z.to_nat len) (drop (Z.to_nat off) o.1), attrs_of name o)
                          else inl (GoogleAPI 416)
              | None => inl ErrObjectNotExist
              end
    end;
  DeleteObject ctx name b :=
    match ctx with
    | Some e => (inl (Other e), b)
    | None => match fobjects b !! name with
              | Some _ => (inr tt, MkFake (delete name (fobjects b)) (fnext b))
              | None => (inl ErrObjectNotExist, b)
              end
    end;
  Write ctx name conds d b := Other <$> ctx;
  CloseWriter ctx name conds d b :=
    match ctx with
    | Some e => (inl (Other e), b)
    | None =>
      if met conds (fobjects b !! name) then
        if decide (name = "") then (inl (GoogleAPI 400), b) else
        (inr (attrs_of name (d, fnext b)), MkFake (<[name := (d, fnext b)]> (fobjects b)) (fnext b + 1))
      else (inl (GoogleAPI 412), b)
    end;
  Objects ctx q b := match ctx with Some e => [inl (Other e)] | None => inr <$> fake_listing q b end;
|}.

Definition fake_ok (n : nat) (b : fake) : Prop :=
  0 < fnext b /\ fnext b + Z.of_nat n < 2 ^ 63 /\ fobjects b !! "" = None /\
  forall name o, fobjects b !! name = Some o -> 0 < o.2 < fnext b.

Lemma fake_listing_names q b : Name <$> fake_listing q b =
  sort_Strings (filter (asked q) ((map_to_list (fobjects b)).*1)).
Proof.
  unfold fake_listing. set (names := sort_Strings _).
  assert (forall name, name ∈ names -> is_Some (fobjects b !! name)) as Hn.
  { intros name. subst names. rewrite sort_Strings_perm, list_elem_of_filter, list_elem_of_fmap.
    intros [_ ([name' o] & -> & Ho%elem_of_map_to_list)]. by eexists. }
  clearbody names. induction names as [|name names IH]; [done|]. cbn.
  destruct (Hn name) as [o Ho]; [by left|]. rewrite Ho. cbn. f_equal. apply IH. intros name' ?. apply Hn. by right.
Qed.

#[export] Program Instance fake_laws : BucketLaws fake := {|
  objects := fobjects; assigned b gen := 0 < gen < fnext b; bucket_ok := fake_ok;
|}.
Next Obligation. intros n m b Hle (H1 & H2 & H3). split; [done|]. split; [lia|done]. Qed.
Next Obligation. intros n b Hok. apply Hok. Qed.
Next Obligation. intros n b name o Hok. apply Hok. Qed.
Next Obligation. intros n b gen (H1 & H2 & _) Hg. cbn in Hg. lia. Qed.
Next Obligation. done. Qed.
Next Obligation. done. Qed.
Next Obligation. done. Qed.
Next Obligation. intros n b name _ Ho. cbn. by rewrite Ho. Qed.
Next Obligation.
  intros n b name (H1 & H2 & H3 & H4) [o Ho]. cbn. rewrite Ho. eexists. split; [done|]. split; [|done].
  split; [done|]. split; [done|]. cbn. split; [by rewrite lookup_delete_None; right|].
  intros name' o' [_ ?]%lookup_delete_Some. by eapply H4.
Qed.
Next Obligation. done. Qed.
Next Obligation. intros n b name conds d _ Hm. cbn. by rewrite Hm. Qed.
Next Obligation.
  intros n b name conds d (H1 & H2 & H3 & H4) Hn Hd Hm. cbn. rewrite Hm, decide_False by done.
  exists (fnext b), (MkFake (<[name := (d, fnext b)]> (fobjects b)) (fnext b + 1)).
  split; [done|]. cbn. split; [|split; [done|]; split_and!; intros; lia].
  split; [cbn; lia|]. split; [cbn; lia|]. cbn. split; [by rewrite lookup_insert_ne|].
  intros name' o'. rewrite lookup_insert_Some. intros [[_ <-]|[_ Ho]]; [cbn; lia|]. specialize (H4 _ _ Ho). lia.
Qed.
Next Obligation.
  intros n b q _. exists (fake_listing q b). split; [done|]. split.
  - rewrite fake_listing_names. apply NoDup_le_sorted; [|apply (StronglySorted_merge_sort String.le)].
    rewrite sort_Strings_perm. apply NoDup_filter, NoDup_fst_map_to_list.
  - intros a. unfold fake_listing. rewrite list_elem_of_omap. split.
    + intros (name & Hin & Ea). rewrite sort_Strings_perm, list_elem_of_filter in Hin. destruct Hin as [Hq _].
      apply fmap_Some in Ea as (o & Ho & ->). split; [done|]. by exists o.
    + intros (Hq & o & Ho & Ea). exists (Name a). rewrite sort_Strings_perm, list_elem_of_filter, list_elem_of_fmap.
      split; [|rewrite Ho; cbn; by rewrite <-Ea]. split; [done|]. exists (Name a, o). by rewrite elem_of_map_to_list.
Qed.
Next Obligation. intros b e name q conds d. cbn. by auto 10. Qed.

(** ** Witnesses *)
Definition ex_bucket : fake :=
  MkFake {[ "t/a" := ([x01; x02; x03], 1); "t/b" := ([], 2); "u/a" := ([x09], 3) ]} 4.
Definition ex_gcs : gcsStore fake := MkGcs ex_bucket "t".

Lemma ex_gcs_ok : gcs_ok 5 ex_gcs.
Proof.
  split; [|done]. split; [done|]. split; [done|]. split; [done|].
  intros name o Ho. assert (Forall (fun x => 0 < x.2.2 < 4) (map_to_list (fobjects ex_bucket))) as Hf
    by (vm_compute; repeat constructor).
  rewrite Forall_forall in Hf. apply (Hf (name, o)). by apply elem_of_map_to_list.
Qed.

Lemma gcs_list_witness : ListObjects None "" "" 0 ex_gcs = Ok [MkObject "a" "1" 3; MkObject "b" "2" 0].
Proof. rewrite (gcs_list 5 ex_gcs "" "" 0 ex_gcs_ok). vm_compute. reflexivity. Defined.

Lemma gcs_read_range_witness :
  ReadRange None "a" 1 9 ex_gcs = Ok ([x02; x03], MkObject "a" "1" 3) /\
  ReadRange None "a" 3 9 ex_gcs = Ok ([], MkObject "a" "1" 3) /\
  ReadRange None "a" 4 9 ex_gcs = Err (Msg "objectstore: offset exceeds object size").
Proof.
  split; [|split]; rewrite (gcs_read_range 5 ex_gcs _ _ _ ex_gcs_ok); vm_compute; reflexivity.
Defined.

Lemma gcs_put_truncated_witness : exists g' gen,
  Put None "a" (MkReader [x07] (Some ErrUnexpectedEOF)) (IfGeneration "1") ex_gcs = (Err ErrUnexpectedEOF, g') /\
  Get None "a" g' = Ok ([x07], MkObject "a" gen 1).
Proof.
  destruct (gcs_put_truncated 4 ex_gcs "a" [x07] ErrUnexpectedEOF (IfGeneration "1") (MkConds false (Some 1)))
    as (g' & gen & H1 & _ & H2).
  - exact ex_gcs_ok.
  - discriminate.
  - reflexivity.
  - reflexivity.
  - vm_compute. reflexivity.
  - exists g', gen. split; [exact H1|exact H2].
Defined.

Lemma gcs_list_marker_witness : exists l,
  ListObjects None "" "" 0 (MkGcs (MkFake {[ "t/" := ([], 1) ]} 2) "t") = Ok l /\ MkObject "" "1" 0 ∈ l.
Proof.
  destruct (gcs_list_marker 1 (MkGcs (MkFake {[ "t/" := ([], 1) ]} 2) "t") ([], 1)) as [(l & H1 & H2) _].
  - split; [reflexivity|]. split; [reflexivity|]. split; [reflexivity|].
    cbn. intros name o [_ <-]%lookup_singleton_Some. done.
  - discriminate.
  - reflexivity.
  - reflexivity.
  - exists l. split; [exact H1|exact H2].
Defined.
