(* ===== verification/Open.v ===== *)
(** * objectstore, namespace: opening the stores

    src/objectstore/open.go with [newLocalStore] and [diskMu] of local.go,
    and [LoadRegistry], [closeOpenedStores] and [Registry.Close] of
    src/namespace/registry.go.  The operating system (paths, directories,
    links) and the storage client are the class [OS], over a state that every
    call may change, so that a directory can be missing at one time and there
    at another; [url.Parse] and the protojson decoder are arguments.  The
    state of the process is that of the system, the table of directory locks
    and, for every store opened, how often it was closed. *)

From S2P Require Import Prelude GoStr ObjectStore Namespace Catalog.
From Stdlib Require Import Ascii.

(** ** Strings *)

(** [strings.Trim(s, "/")] *)
Fixpoint trim_left (s : string) : string :=
  match s with
  | String c t => if decide (c = slash) then trim_left t else s
  | EmptyString => s
  end.

Fixpoint trim_right (s : string) : string :=
  match s with
  | EmptyString => EmptyString
  | String c t => let t := trim_right t in
                  if decide (c = slash /\ t = EmptyString) then EmptyString else String c t
  end.

Definition Trim (s : string) : string := trim_right (trim_left s).

(** [strings.SplitN(s, "/", 2)]: the first part and the rest, if any. *)
Definition SplitN2 (s : string) : string * string :=
  match Cut s slash with Some (u, v) => (u, v) | None => (s, "") end.

(** ** The process *)
Record URL := MkURL { Scheme : string; Host : string; UPath : string; createDir : string }.

(** What a store is on; a local store has the lock of its directory. *)
Inductive location :=
  | AtMem
  | AtDir (dir : string) (lock : nat)
  | AtBucket (bucket prefix : string).

(** An open store: the number it was opened under. *)
Record handle := MkHandle { number : nat; at_ : location }.

(** What the process asks of the system: paths in the state [F] of the files,
    and the storage client.  Time passes with every call. *)
Class OS (F : Type) := {
  Abs : string -> res string;                      (* in the working directory *)
  EvalSymlinks : string -> F -> res string * F;
  MkdirAll : string -> F -> res unit * F;
  NewClient : F -> res unit * F;
}.

Record process (F : Type) := MkProcess {
  files : F;
  diskMus : gmap string nat;
  made : nat;            (* locks made so far *)
  closes : list nat;     (* by number: how often the store was closed *)
}.
Arguments MkProcess {F} files diskMus made closes.
Arguments files {F} p.
Arguments diskMus {F} p.
Arguments made {F} p.
Arguments closes {F} p.

(** A call of the system. *)
Definition ask {F A} (call : F -> A * F) (p : process F) : A * process F :=
  let '(a, f) := call (files p) in (a, MkProcess f (diskMus p) (made p) (closes p)).

Section Open.
Context {F : Type} `{OS F} (Parse : string -> res URL).

(** ** local.go *)

(** The path without links, where it can be had. *)
Definition resolved (abs : string) (p : process F) : string * process F :=
  match ask (EvalSymlinks abs) p with
  | (Ok r, p) => (r, p)
  | (Err _, p) => (abs, p)
  end.

(** [LoadOrStore]: the first lock stored for a directory stays. *)
Definition diskMu (dir : string) (p : process F) : res nat * process F :=
  match Abs dir with
  | Err e => (Err e, p)
  | Ok abs =>
    let '(abs, p) := resolved abs p in
    match diskMus p !! abs with
    | Some l => (Ok l, p)
    | None => (Ok (made p), MkProcess (files p) (<[abs := made p]> (diskMus p)) (S (made p)) (closes p))
    end
  end.

Definition newLocalStore (dir : string) (p : process F) : res location * process F :=
  match Abs dir with
  | Err e => (Err e, p)
  | Ok abs =>
    let '(abs, p) := resolved abs p in
    match diskMu abs p with
    | (Err e, p) => (Err e, p)
    | (Ok l, p) => (Ok (AtDir abs l), p)
    end
  end.

(** ** open.go *)
Definition bucketOf (u : URL) : string * string :=
  if decide (Host u <> "") then (Host u, Trim (UPath u)) else SplitN2 (Trim (UPath u)).

(** [file://dir] puts a relative path in the host. *)
Definition pathOf (u : URL) : string := if decide (UPath u = "" /\ Host u <> "") then Host u else UPath u.

Definition locate (rawURL : string) (p : process F) : res location * process F :=
  match Parse rawURL with
  | Err e => (Err e, p)
  | Ok u =>
    if decide (Scheme u = "mem") then (Ok AtMem, p) else
    if decide (Scheme u = "file") then
      let path := pathOf u in
      if decide (path = "") then (Err (Msg "objectstore: file URL requires a path"), p) else
      if decide (createDir u = "true") then
        match ask (MkdirAll path) p with
        | (Err e, p) => (Err e, p)
        | (Ok _, p) => newLocalStore path p
        end
      else newLocalStore path p
    else if decide (Scheme u = "gs") then
      let '(bucket, prefix) := bucketOf u in
      if decide (bucket = "") then (Err (Msg "objectstore: gs URL requires a bucket name"), p) else
      match ask NewClient p with
      | (Err e, p) => (Err e, p)
      | (Ok _, p) => (Ok (AtBucket bucket prefix), p)
      end
    else (Err (Msg "objectstore: unsupported scheme"), p)
  end.

Definition Open (rawURL : string) (p : process F) : res handle * process F :=
  match locate rawURL p with
  | (Err e, p) => (Err e, p)
  | (Ok l, p) => (Ok (MkHandle (length (closes p)) l), MkProcess (files p) (diskMus p) (made p) (closes p ++ [0]))
  end.

(** [Close]; only the storage client's can fail. *)
Context (clientClose : res unit).

Definition Close (h : handle) (p : process F) : res unit * process F :=
  (match at_ h with AtBucket _ _ => clientClose | _ => Ok tt end,
   MkProcess (files p) (diskMus p) (made p) (alter S (number h) (closes p))).

(** ** registry.go *)
Definition closeOpenedStores (opened : list (string * handle)) (p : process F) : process F :=
  foldl (fun p th => (Close th.2 p).2) p opened.

(** The tenants in the order in which the map is visited; [opened] is the
    map of those opened so far. *)
Fixpoint open_all (cfg : list (string * string)) (opened : list (string * handle)) (p : process F)
  : res (list (string * handle)) * process F :=
  match cfg with
  | [] => (Ok opened, p)
  | (tenant, storageURL) :: cfg =>
    if decide (storageURL = "") then
      (Err (Msg "namespace: tenant missing storage_url"), closeOpenedStores opened p)
    else
      match Open storageURL p with
      | (Err e, p) => (Err e, closeOpenedStores opened p)
      | (Ok h, p) => open_all cfg (opened ++ [(tenant, h)]) p
      end
  end.

Context (ReadFile : string -> res (list byte)) (UnmarshalTenants : list byte -> res (list (string * string))).

Definition LoadRegistry (path : string) (p : process F) : res (Registry handle) * process F :=
  match ReadFile path with
  | Err e => (Err e, p)
  | Ok d =>
    match UnmarshalTenants d with
    | Err e => (Err e, p)
    | Ok cfg =>
      if decide (cfg = []) then (Err (Msg "namespace: no tenants defined"), p) else
      match open_all cfg [] p with
      | (Err e, p) => (Err e, p)
      | (Ok opened, p) =>
        match NewRegistry (Some <$> (list_to_map opened : gmap string handle)) with
        | Err e => (Err e, closeOpenedStores opened p)
        | Ok reg => (Ok reg, p)
        end
      end
    end
  end.

(** [Registry.Close]: the errors that [errors.Join] joins. *)
Definition close_step (st : list error * process F) (th : string * handle) : list error * process F :=
  let '(errs, p) := st in
  match Close th.2 p with
  | (Ok _, p) => (errs, p)
  | (Err e, p) => (errs ++ [e], p)
  end.

Definition close_registry (reg : Registry handle) (p : process F) : list error * process F :=
  foldl close_step ([], p) (map_to_list (stores reg)).
End Open.

(** ** Directory locks *)

(** What the code relies on.  [node] is the file or directory a path leads to,
    links followed; [direct] its path without links, of which a directory has
    one (there are no hard links to directories).  [later] is what becomes of
    the files while the process runs: directories and links may be made, those
    there are stay. *)
Class OSLaws (F : Type) `{OS F} := {
  node : F -> string -> option nat;
  direct : F -> string -> nat -> Prop;
  later : F -> F -> Prop;
  later_po :: PreOrder later;
  later_node f f' path n : later f f' -> node f path = Some n -> node f' path = Some n;
  later_direct f f' r n : later f f' -> direct f r n -> direct f' r n;
  direct_node f r n : direct f r n -> Abs r = Ok r /\ node f r = Some n;
  direct_unique f r r' n : direct f r n -> direct f r' n -> r = r';
  Abs_node f dir abs : Abs dir = Ok abs -> Abs abs = Ok abs /\ node f abs = node f dir;
  EvalSymlinks_later abs f : later f (EvalSymlinks abs f).2;
  EvalSymlinks_direct abs f n : Abs abs = Ok abs -> node f abs = Some n ->
    exists r, (EvalSymlinks abs f).1 = Ok r /\ direct (EvalSymlinks abs f).2 r n;
  MkdirAll_later path f : later f (MkdirAll path f).2;
  MkdirAll_made path f : (MkdirAll path f).1 = Ok tt -> is_Some (node (MkdirAll path f).2 path);
  NewClient_later f : later f (NewClient f).2;
}.

Section Locks.
Context {F : Type} `{OSLaws F} (Parse : string -> res URL) (clientClose : res unit).
Implicit Types p : process F.













(** A store that was opened: its URL, the files at that moment, the store. *)
Record opened := MkOpened { ourl : URL; ofiles : F; ohandle : handle }.





End Locks.


(** ** Closing *)
Definition close_at (ns : list nat) (cs : list nat) : list nat := foldl (fun cs n => alter S n cs) cs ns.

Lemma close_at_lookup ns cs j :
  close_at ns cs !! j = (fun c => c + length (filter (fun n => n = j) ns)) <$> cs !! j.
Proof.
  revert cs. induction ns as [|n ns IH]; intros cs; cbn [close_at foldl].
  { destruct (cs !! j); cbn; [by rewrite Nat.add_0_r|done]. }
  fold (close_at ns (alter S n cs)). rewrite IH, filter_cons. destruct (decide (n = j)) as [->|Hne].
  - rewrite list_lookup_alter_eq. destruct (cs !! j); cbn; [|done]. f_equal. lia.
  - by rewrite list_lookup_alter_ne.
Qed.

(** Closing each of the last [k] stores once. *)
Lemma close_at_all ns cs k : ns ≡ₚ seq (length cs) k ->
  close_at ns (cs ++ replicate k 0) = cs ++ replicate k 1.
Proof.
  intros Hp. apply list_eq. intros j.
  assert (length (filter (fun n => n = j) ns) = length (filter (fun n => n = j) (seq (length cs) k))) as El by (by rewrite Hp).
  rewrite close_at_lookup, El.
  assert (forall n0, length (filter (fun n => n = j) (seq n0 k)) = if decide (n0 <= j < n0 + k) then 1 else 0) as Hc.
  { clear. induction k as [|k IH]; intros n0; cbn; [by rewrite decide_False by lia|].
    destruct (decide (n0 = j)) as [->|Hne]; cbn [length]; rewrite IH.
    - by rewrite decide_False, decide_True by lia.
    - destruct (decide (S n0 <= j < S n0 + k)); [by rewrite decide_True by lia|by rewrite decide_False by lia]. }
  rewrite Hc. destruct (decide (j < length cs)) as [Hj|Hj].
  - rewrite !lookup_app_l by lia. rewrite decide_False by lia. destruct (cs !! j); cbn; [by rewrite Nat.add_0_r|done].
  - rewrite !lookup_app_r by lia. destruct (decide (j - length cs < k)) as [Hk|Hk].
    + rewrite !lookup_replicate_2 by lia. by rewrite decide_True by lia.
    + by rewrite !(proj2 (lookup_ge_None _ _)) by (rewrite length_replicate; lia).
Qed.

Section Lifecycle.
Context {F : Type} `{OS F} (Parse : string -> res URL) (clientClose : res unit).
Implicit Types p : process F.
Context (ReadFile : string -> res (list byte)) (UnmarshalTenants : list byte -> res (list (string * string))).

Lemma closeOpened_closes opened p :
  closes (closeOpenedStores clientClose opened p) = close_at ((fun th => number th.2) <$> opened) (closes p).
Proof. revert p. induction opened as [|th opened IH]; intros p; [done|]. cbn. apply IH. Qed.

Lemma locate_closes url p r p' : locate Parse url p = (r, p') -> closes p' = closes p.
Proof.
  unfold locate, newLocalStore, diskMu, resolved, ask. intros E. repeat (case_match; simplify_eq/=); done.
Qed.

Lemma Open_closes url p r p' : Open Parse url p = (r, p') ->
  match r with
  | Ok h => number h = length (closes p) /\ closes p' = closes p ++ [0]
  | Err _ => closes p' = closes p
  end.
Proof.
  unfold Open. destruct (locate _ url p) as [[l|e] p1] eqn:El; intros [= <- <-];
    apply locate_closes in El; cbn; by rewrite El.
Qed.

(** [opened] are the stores opened since [cs]. *)
Definition fresh_handles (cs : list nat) (opened : list (string * handle)) : Prop :=
  (fun th => number th.2) <$> opened = seq (length cs) (length opened).

Lemma open_all_spec cfg opened p cs r p' : fresh_handles cs opened ->
  closes p = cs ++ replicate (length opened) 0 ->
  open_all Parse clientClose cfg opened p = (r, p') ->
  match r with
  | Ok all => fresh_handles cs all /\ closes p' = cs ++ replicate (length all) 0 /\ all.*1 = opened.*1 ++ cfg.*1
  | Err _ => exists n, closes p' = cs ++ replicate n 1
  end.
Proof.
  revert opened p. induction cfg as [|[tenant url] cfg IH]; intros opened p Hf Hc; cbn [open_all].
  { intros [= <- <-]. by rewrite app_nil_r. }
  assert (forall p1, closes p1 = closes p -> closes (closeOpenedStores clientClose opened p1) = cs ++ replicate (length opened) 1) as Hcl.
  { intros p1 E. rewrite closeOpened_closes, E, Hc, Hf. by apply close_at_all. }
  case_decide; [intros [= <- <-]; exists (length opened); by apply Hcl|].
  destruct (Open _ url p) as [[h|e] p1] eqn:Eo; apply Open_closes in Eo.
  - destruct Eo as [Hn Hc1]. intros E. apply IH in E.
    + destruct r as [all|e]; [|done]. destruct E as (? & ? & E3). split; [done|]. split; [done|].
      rewrite E3, fmap_app. cbn. by rewrite <-app_assoc.
    + unfold fresh_handles. rewrite fmap_app, length_app, Hf, seq_app. cbn. f_equal. f_equal.
      rewrite Hn, Hc, length_app, length_replicate. done.
    + rewrite Hc1, Hc, length_app, replicate_add, <-app_assoc. done.
  - intros [= <- <-]. exists (length opened). by apply Hcl.
Qed.

Lemma check_stores_lookup {S} (l : list (string * option S)) acc r : NoDup l.*1 -> check_stores l acc = Ok r ->
  forall k s, r !! k = Some s <-> (k, Some s) ∈ l \/ (k ∉ l.*1) /\ acc !! k = Some s.
Proof.
  revert acc. induction l as [|[t [s0|]] l IH]; intros acc Hnd; cbn [check_stores].
  - intros [= <-] k s. cbn. split; [right; split; [apply not_elem_of_nil|done]|]. intros [?%not_elem_of_nil|[_ ?]]; done.
  - destruct (ValidateName t); [|done]. cbn in Hnd. apply NoDup_cons in Hnd as [Ht Hnd]. intros E k s.
    rewrite (IH _ Hnd E k s). cbn. rewrite !elem_of_cons, lookup_insert_Some. split.
    + intros [?|[Hk [[<- <-]|[Hne ?]]]]; [by left; right|by left; left|right; split; [|done]; intros [->|?]; done].
    + intros [[[= -> ->]|?]|[Hk ?]]; [right; split; [done|by left]|by left|].
      right. split; [tauto|]. right. split; [|done]. intros ->. tauto.
  - destruct (ValidateName t); done.
Qed.

Lemma NewRegistry_stores {S} (m : gmap string S) reg : NewRegistry (Some <$> m) = Ok reg -> stores reg = m.
Proof.
  unfold NewRegistry. case_decide; [done|]. destruct (check_stores _ ∅) as [r|e] eqn:E; [|done]. intros [= <-]. cbn.
  apply map_eq. intros k. apply option_eq. intros s.
  rewrite (check_stores_lookup _ _ _ (NoDup_fst_map_to_list _) E k s), elem_of_map_to_list, lookup_fmap, fmap_Some.
  split; [intros [(? & ? & [= ->])|[_ ?]]; [done|by rewrite lookup_empty in *]|]. left. eauto.
Qed.

Lemma close_registry_closes reg p :
  closes (close_registry clientClose reg p).2 = close_at ((fun th => number th.2) <$> map_to_list (stores reg)) (closes p).
Proof.
  unfold close_registry. generalize (@nil error). generalize (map_to_list (stores reg)).
  intros l. revert p. induction l as [|th l IH]; intros p errs; [done|]. cbn [foldl fmap list_fmap close_at].
  unfold close_step at 2. destruct (Close clientClose th.2 p) as [[u|e] p1] eqn:E; rewrite IH;
    unfold Close in E; injection E as _ <-; done.
Qed.

(** When [LoadRegistry] fails it has closed the stores it had opened; when it
    succeeds, the registry has the new stores, one for each tenant, all open,
    and closing it closes each of them once.  No other store of the process is touched. *)
Lemma registry_lifecycle path p r p' :
  (forall d cfg, UnmarshalTenants d = Ok cfg -> NoDup cfg.*1) ->
  LoadRegistry Parse clientClose ReadFile UnmarshalTenants path p = (r, p') ->
  match r with
  | Err _ => exists n, closes p' = closes p ++ replicate n 1
  | Ok reg => let n := size (stores reg) in (0 < n) /\ closes p' = closes p ++ replicate n 0 /\
      closes (close_registry clientClose reg p').2 = closes p ++ replicate n 1 /\
      NoDup ((fun th => number th.2) <$> map_to_list (stores reg))
  end.
Proof.
  intros Hnd. unfold LoadRegistry.
  assert (exists n, closes p = closes p ++ replicate n 1) as Hnone by (exists 0; by rewrite app_nil_r).
  destruct (ReadFile path) as [d|e]; [|intros [= <- <-]; done].
  destruct (UnmarshalTenants d) as [cfg|e] eqn:Eu; [|intros [= <- <-]; done]. apply Hnd in Eu.
  case_decide as Hcfg; [intros [= <- <-]; done|].
  destruct (open_all _ _ cfg [] p) as [r1 p1] eqn:Eo.
  apply (open_all_spec _ _ _ (closes p)) in Eo; [|done|by rewrite app_nil_r].
  destruct r1 as [opened|e]; [|intros [= <- <-]; done]. destruct Eo as (Hf & Hc & Hk). cbn in Hk. rewrite <-Hk in Eu.
  destruct (NewRegistry _) as [reg|e] eqn:En; intros [= <- <-].
  - apply NewRegistry_stores in En. pose proof (map_to_list_to_map opened Eu) as Hp. rewrite <-En in Hp.
    assert (size (stores reg) = length opened) as Hsz by (by rewrite <-length_map_to_list, Hp). rewrite Hsz.
    split; [|split; [done|]].
    + apply (f_equal length) in Hk. rewrite !length_fmap in Hk. destruct cfg; [done|]. cbn in Hk. lia.
    + split; [rewrite close_registry_closes, Hc; apply close_at_all; by rewrite Hp, Hf|].
      rewrite Hp, Hf. apply NoDup_seq.
  - exists (length opened). rewrite closeOpened_closes, Hc, Hf. by apply close_at_all.
Qed.
End Lifecycle.

(** ** Witnesses *)
Definition ex_parse (raw : string) : res URL :=
  if decide (raw = "mem://") then Ok (MkURL "mem" "" "" "")
  else if decide (raw = "gs:///b/t") then Ok (MkURL "gs" "" "/b/t" "")
  else Ok (MkURL "file" "" raw "").

(** A system with the directories /data and /other and a link /link to /data;
    /data/sub is there when the state is [true]. *)
Definition ex_node (sub : bool) (path : string) : option nat :=
  if decide (path = "/data" \/ path = "/link") then Some 0
  else if decide (path = "/other") then Some 1
  else if decide (path = "/data/sub" \/ path = "/link/sub") then (if sub then Some 2 else None)
  else None.
Definition ex_path (n : nat) : string := match n with 0 => "/data" | 1 => "/other" | _ => "/data/sub" end.

#[local] Instance ex_os : OS bool := {
  Abs dir := Ok dir;
  EvalSymlinks path sub := (match ex_node sub path with Some n => Ok (ex_path n) | None => Err ErrNotFound end, sub);
  MkdirAll path sub :=
    if decide (path = "/data/sub" \/ path = "/link/sub") then (Ok tt, true)
    else (match ex_node sub path with Some _ => Ok tt | None => Err (Msg "permission denied") end, sub);
  NewClient sub := (Ok tt, sub);
}.

Lemma ex_node_path sub path n : ex_node sub path = Some n -> ex_node sub (ex_path n) = Some n.
Proof.
  unfold ex_node. case_decide; [by intros [= <-]|]. case_decide; [by intros [= <-]|].
  case_decide; [|done]. destruct sub; [|done]. by intros [= <-].
Qed.

#[local] Program Instance ex_os_laws : OSLaws bool := {
  node := ex_node;
  direct sub r n := r = ex_path n /\ ex_node sub r = Some n;
  later sub sub' := sub = true -> sub' = true;
}.
Next Obligation. split; [by intros ? ?|]. intros ? ? ?. tauto. Qed.
Next Obligation.
  intros f f' path n Hl. unfold ex_node. repeat case_decide; try done. destruct f; [by rewrite Hl|done].
Qed.
Next Obligation.
  intros f f' r n Hl [-> Hn]. split; [done|]. revert Hn. unfold ex_node. repeat case_decide; try done.
  destruct f; [by rewrite Hl|done].
Qed.
Next Obligation. by intros f r n [-> Hn]. Qed.
Next Obligation. by intros f r r' n [-> _] [-> _]. Qed.
Next Obligation. by intros f dir abs [= <-]. Qed.
Next Obligation. cbn. tauto. Qed.
Next Obligation.
  intros abs f n _ Hn. cbn. rewrite Hn. exists (ex_path n). split; [done|]. split; [done|]. by eapply ex_node_path.
Qed.
Next Obligation. intros path f. cbn. by case_decide. Qed.
Next Obligation.
  intros path f. cbn. case_decide as Hp; [intros _; by destruct Hp as [-> | ->]; eexists|]. cbn.
  destruct (ex_node f path); [by eexists|done].
Qed.
Next Obligation. cbn. tauto. Qed.

Definition ex_start : process bool := MkProcess false ∅ 0 [].






(** A store that is opened before its directory is there, under a path with a
    link, gets a lock under that path; when the directory has been made, the
    same URL opens a store with another lock for the same directory. *)
Example second_lock :
  let '(h1, p1) := Open ex_parse "/link/sub" ex_start in
  let '(h2, p2) := Open ex_parse "/link/sub" (MkProcess true (diskMus p1) (made p1) (closes p1)) in
  h1 = Ok (MkHandle 0 (AtDir "/link/sub" 0)) /\ h2 = Ok (MkHandle 1 (AtDir "/data/sub" 1)) /\
  node (files p2) "/link/sub" = node (files p2) "/data/sub" /\ is_Some (node (files p2) "/data/sub").
Proof. vm_compute. repeat split; eauto. Qed.
