(* ===== verification/Server.v ===== *)
(** * cmd/cloudy: the servers

    src/cmd/cloudy/main.go: the ingest and the query server of a process.
    Starting opens the stores of all tenants and makes a worker for each (a
    flusher, a query engine); serving runs the gRPC server and the workers
    until a signal arrives or one of them fails.  [Serve] and [serveGRPC] are
    a transition system whose steps are what their goroutines do next
    ([fire]); the gRPC server and the workers are its environment.  The
    packages flag, net and grpc are arguments. *)

From S2P Require Import Prelude GoStr ObjectStore Namespace Catalog Float32 Vector Ingester Flusher Engine Grpc Open.
Local Open Scope Z_scope.

(** ** Flags *)
Record ingestConfig := MkIngestConfig {
  iaddr : string; itenantsFile : string; pollInterval : Z; idebug : bool }.

Record queryConfig := MkQueryConfig {
  qaddr : string; pprofAddr : string; qtenantsFile : string; syncInterval : Z;
  qvariant : Variant; qkernels : Kernels; qdebug : bool }.

(** [fs.Parse] gives the flags' values and the arguments left. *)
Definition parseIngestFlags (Parse : list string -> res (ingestConfig * list string)) (args : list string)
  : res ingestConfig :=
  '(cfg, rest) ← Parse args;
  if decide (rest <> []) then Err (Msg "unexpected arguments") else
  if decide (iaddr cfg = "") then Err (Msg "-addr cannot be empty") else
  if decide (itenantsFile cfg = "") then Err (Msg "-tenants-file required") else
  if decide (pollInterval cfg <= 0) then Err (Msg "-poll-interval must be positive") else
  Ok cfg.

Record queryFlags := MkQueryFlags {
  faddr : string; fpprofAddr : string; ftenantsFile : string; fsyncInterval : Z; fdistance : string; fdebug : bool }.

Definition parseQueryFlags (kernelsOf : Variant -> res Kernels)
    (Parse : list string -> res (queryFlags * list string)) (args : list string) : res queryConfig :=
  '(f, rest) ← Parse args;
  if decide (rest <> []) then Err (Msg "unexpected arguments") else
  if decide (faddr f = "") then Err (Msg "-addr cannot be empty") else
  if decide (ftenantsFile f = "") then Err (Msg "-tenants-file required") else
  if decide (fsyncInterval f <= 0) then Err (Msg "-sync-interval must be positive") else
  variant ← ParseVariant (fdistance f);
  kernels ← kernelsOf variant;
  Ok (MkQueryConfig (faddr f) (fpprofAddr f) (ftenantsFile f) (fsyncInterval f) variant kernels (fdebug f)).

(** ** Starting *)
Record server (W : Type) := MkServer { reg : Registry handle; workers : list W }.
Arguments MkServer {W} reg workers.
Arguments reg {W} s.
Arguments workers {W} s.

Section Start.
Context {F : Type} (load : string -> process F -> res (Registry handle) * process F) (clientClose : res unit).
Context (Listen : string -> res unit).

(** The deferred [reg.Close()] of a start that does not succeed. *)
Definition abandon {A} (e : error) (reg : Registry handle) (p : process F) : res A * process F :=
  (Err e, (close_registry clientClose reg p).2).

(** The loops over [reg.Stores()]; no store of a registry is nil.  The
    ingesters made are [objs], in order, and [ings] refers to them. *)
Fixpoint make_ingesters (cfg : ingestConfig) (l : list (string * handle)) (objs : list ingester_obj)
    (ings : gmap string nat) (flushers : list Flusher) : res (list ingester_obj * gmap string nat * list Flusher) :=
  match l with
  | [] => Ok (objs, ings, flushers)
  | (tenant, store) :: l =>
    ing ← NewIngester false;
    flusher ← NewFlusher false (MkConfig (pollInterval cfg));
    make_ingesters cfg l (objs ++ [MkObj (number store) ing ∅]) (<[tenant := length objs]> ings) (flushers ++ [flusher])
  end.

Definition newIngestServer (cfg : ingestConfig) (p : process F) : res (server Flusher) * process F :=
  match load (itenantsFile cfg) p with
  | (Err e, p) => (Err e, p)
  | (Ok reg, p) =>
    match make_ingesters cfg (map_to_list (Stores reg)) [] ∅ [] with
    | Err e => abandon e reg p
    | Ok (objs, ings, flushers) =>
      match NewIngestServer (Some ings) with
      | Err e => abandon e reg p
      | Ok _ =>
        match Listen (iaddr cfg) with
        | Err e => abandon e reg p
        | Ok _ => (Ok (MkServer reg flushers), p)
        end
      end
    end
  end.

Fixpoint make_engines (cfg : queryConfig) (l : list (string * handle)) (engines : gmap string Engine)
    (runners : list Engine) : res (gmap string Engine * list Engine) :=
  match l with
  | [] => Ok (engines, runners)
  | (tenant, store) :: l =>
    engine ← NewEngine false (syncInterval cfg) (qkernels cfg);
    make_engines cfg l (<[tenant := engine]> engines) (runners ++ [engine])
  end.

Definition newQueryServer (cfg : queryConfig) (p : process F) : res (server Engine) * process F :=
  match load (qtenantsFile cfg) p with
  | (Err e, p) => (Err e, p)
  | (Ok reg, p) =>
    match make_engines cfg (map_to_list (Stores reg)) ∅ [] with
    | Err e => abandon e reg p
    | Ok (engines, runners) =>
      match NewQueryServer (Some engines) with
      | Err e => abandon e reg p
      | Ok _ =>
        match Listen (qaddr cfg) with
        | Err e => abandon e reg p
        | Ok _ => (Ok (MkServer reg runners), p)
        end
      end
    end
  end.

(** The deferred [s.reg.Close()] of [Serve]. *)
Definition end_serve {W} (s : server W) (p : process F) : list error * process F := close_registry clientClose (reg s) p.
End Start.

(** The references are into [objs], and a tenant's ingester is on the store of
    the tenant. *)
Definition on_own_store (l : list (string * handle)) (objs : list ingester_obj) (ings : gmap string nat) : Prop :=
  forall t i, ings !! t = Some i ->
    exists o h, objs !! i = Some o /\ (t, h) ∈ l /\ ostore o = number h.

Lemma make_ingesters_own cfg done l objs ings flushers objs' ings' fs :
  on_own_store done objs ings -> make_ingesters cfg l objs ings flushers = Ok (objs', ings', fs) ->
  on_own_store (done ++ l) objs' ings'.
Proof.
  revert done objs ings flushers. induction l as [|[t h] l IH]; intros done objs ings flushers Hd; cbn.
  { intros [= <- <- <-]. by rewrite app_nil_r. }
  intros E. replace (done ++ (t, h) :: l) with ((done ++ [(t, h)]) ++ l) by (by rewrite <-app_assoc).
  eapply IH; [|exact E]. intros t' i. rewrite lookup_insert_Some. intros [[<- <-]|[_ Hi]].
  - eexists _, h. rewrite list_lookup_middle by done. split; [done|]. split; [set_solver|done].
  - destruct (Hd t' i Hi) as (o & h' & Ho & Hl & Hs). exists o, h'. split; [by apply lookup_app_l_Some|]. set_solver.
Qed.

Section Lifecycle.
Context {F : Type} `{OS F} (Parse : string -> res URL) (clientClose : res unit) (Listen : string -> res unit).
Context (ReadFile : string -> res (list byte)) (UnmarshalTenants : list byte -> res (list (string * string))).

Definition load : string -> process F -> res (Registry handle) * process F :=
  LoadRegistry Parse clientClose ReadFile UnmarshalTenants.

(** What is left of the stores that a start with outcome [r] opened. *)
Definition accounted {W} (p : process F) (r : res (server W)) (p' : process F) : Prop :=
  match r with
  | Err _ => exists n, closes p' = closes p ++ replicate n 1%nat
  | Ok s => let n := length (workers s) in (0 < n)%nat /\ size (Catalog.stores (reg s)) = n /\
      closes p' = closes p ++ replicate n 0%nat /\
      closes (end_serve clientClose s p').2 = closes p ++ replicate n 1%nat
  end.

Lemma make_ingesters_ok cfg l objs ings flushers : exists objs' ings' fs,
  make_ingesters cfg l objs ings flushers = Ok (objs', ings', flushers ++ fs) /\ length fs = length l.
Proof.
  revert objs ings flushers. induction l as [|[t h] l IH]; intros objs ings flushers; cbn.
  { exists objs, ings, []. by rewrite app_nil_r. }
  match goal with |- context [make_ingesters _ _ ?o ?i (flushers ++ [?f])] =>
    destruct (IH o i (flushers ++ [f])) as (o' & i' & fs & E & Hl) end.
  eexists o', i', (_ :: fs). rewrite <-app_assoc in E. split; [exact E|]. cbn. lia.
Qed.

Lemma make_engines_ok cfg l engines runners r : make_engines cfg l engines runners = Ok r ->
  length r.2 = (length runners + length l)%nat.
Proof.
  revert engines runners. induction l as [|[t h] l IH]; intros engines runners; cbn; [intros [= <-]; cbn; lia|].
  case_decide; [done|]. cbn. intros E%IH. rewrite E, length_app. cbn. lia.
Qed.

(** A registry that was loaded and then abandoned or used. *)
Lemma abandoned {W} reg n p p' e : closes (close_registry clientClose reg p').2 = closes p ++ replicate n 1%nat ->
  accounted (W := W) p (abandon (A := server W) clientClose e reg p').1 (abandon (A := server W) clientClose e reg p').2.
Proof. intros Hc. by exists n. Qed.
End Lifecycle.

(** Every store a start opens is accounted for. *)
Lemma starts_accounted {F} `{OS F} Parse clientClose Listen ReadFile UnmarshalTenants icfg qcfg (p : process F) :
  (forall d cfg, UnmarshalTenants d = Ok cfg -> NoDup cfg.*1) ->
  let ld := load Parse clientClose ReadFile UnmarshalTenants in
  accounted clientClose p (newIngestServer ld clientClose Listen icfg p).1 (newIngestServer ld clientClose Listen icfg p).2 /\
  accounted clientClose p (newQueryServer ld clientClose Listen qcfg p).1 (newQueryServer ld clientClose Listen qcfg p).2.
Proof.
  intros Hnd ld.
  assert (forall path r p', ld path p = (r, p') -> match r with
    | Err _ => exists n, closes p' = closes p ++ replicate n 1%nat
    | Ok reg => let n := size (Catalog.stores reg) in (0 < n)%nat /\ closes p' = closes p ++ replicate n 0%nat /\
        closes (close_registry clientClose reg p').2 = closes p ++ replicate n 1%nat end) as Hload.
  { intros path r p' E. apply registry_lifecycle in E; [|done]. destruct r; [|done]. by destruct E as (? & ? & ? & _). }
  split.
  - unfold newIngestServer. destruct (ld (itenantsFile icfg) p) as [[rg|e] p1] eqn:El; apply Hload in El; [|exact El].
    destruct El as (Hpos & Hopen & Hclose). unfold Stores.
    destruct (make_ingesters_ok icfg (map_to_list (Catalog.stores rg)) [] ∅ []) as (objs & ings & fs & -> & Hl). cbn [NewIngestServer].
    destruct (Listen (iaddr icfg)); [|by eapply abandoned]. rewrite length_map_to_list in Hl.
    cbn. rewrite Hl. done.
  - unfold newQueryServer. destruct (ld (qtenantsFile qcfg) p) as [[rg|e] p1] eqn:El; apply Hload in El; [|exact El].
    destruct El as (Hpos & Hopen & Hclose). unfold Stores.
    destruct (make_engines qcfg (map_to_list (Catalog.stores rg)) ∅ []) as [[engines rs]|e] eqn:Em; [|by eapply abandoned].
    apply make_engines_ok in Em. cbn [NewQueryServer]. destruct (Listen (qaddr qcfg)); [|by eapply abandoned].
    rewrite length_map_to_list in Em. cbn in *. rewrite Em. done.
Qed.

(** The tenants of a server that has started are separate, as far as its store
    objects are: each has an ingester of its own on the store of its own. *)
Lemma started_separate {F S} `{OS F} Parse clientClose ReadFile UnmarshalTenants cfg path (p p' : process F) rg objs ings fs
    (contents : gmap nat S) :
  (forall d cfg, UnmarshalTenants d = Ok cfg -> NoDup cfg.*1) ->
  load Parse clientClose ReadFile UnmarshalTenants path p = (Ok rg, p') ->
  make_ingesters cfg (map_to_list (Stores rg)) [] ∅ [] = Ok (objs, ings, fs) ->
  (forall t h, Catalog.stores rg !! t = Some h -> is_Some (contents !! number h)) ->
  separate (MkDeployment contents (map_seq 0 objs) ings).
Proof.
  intros Hnd Hl Hm Hc. apply registry_lifecycle in Hl as (_ & _ & _ & Hnum); [|done].
  apply (make_ingesters_own _ []) in Hm; [|by intros t i ?%lookup_empty_Some]. cbn [app] in Hm. unfold Stores in Hm.
  assert (forall i, map_seq (M := gmap nat ingester_obj) 0 objs !! i = objs !! i) as Hobj.
  { intros i. by rewrite lookup_map_seq_0. }
  split; cbn [Grpc.ingesters objects Grpc.stores].
  - intros t i Hi. destruct (Hm t i Hi) as (o & h & Ho & Hin%elem_of_map_to_list & Hs). exists o. rewrite Hobj, Hs. eauto.
  - intros t t' i i' o o' Hi Hi' Hne. rewrite !Hobj. intros Ho Ho'.
    destruct (Hm t i Hi) as (o1 & h & Ho1 & Hin & E1), (Hm t' i' Hi') as (o2 & h' & Ho2 & Hin' & E2).
    assert (ostore o <> ostore o') as Hs.
    { replace o1 with o in * by congruence. replace o2 with o' in * by congruence. rewrite E1, E2. intros E.
      apply Hne. apply list_elem_of_lookup_1 in Hin as [k Hk], Hin' as [k' Hk'].
      assert (k = k') as <-; [|by rewrite Hk in Hk'; injection Hk'].
      eapply NoDup_lookup; [exact Hnum| |]; rewrite list_lookup_fmap; [by rewrite Hk|rewrite Hk'; cbn; by rewrite E]. }
    split; [|done]. intros ->. congruence.
Qed.

(** ** Serving

    The goroutines of [Serve]: the one in [serveGRPC], the one in
    [srv.Serve], the one in [GracefulStop], and one for each worker. *)

(** [serveGRPC]: the select; waiting for [GracefulStop] with the timer
    running; waiting for it after [srv.Stop()]; waiting for [srv.Serve];
    returned. *)
Inductive gphase := GSelect | GStopping | GForced | GAwait | GDone.

(** A worker: in [Run]; [Run] failed and [grpcServer.Stop()] comes next;
    returned. *)
Inductive wphase := WRunning | WFailed (e : error) | WDone.

(** What [srv.Serve] returned: nil, [grpc.ErrServerStopped], another error. *)
Inductive gresult := RNil | RStopped | RErr (e : error).

Record sup := MkSup {
  ctxDone : bool;            (* the signal's context *)
  graceful : bool;           (* GracefulStop was called *)
  stopped : bool;            (* Stop was called *)
  inflight : nat;            (* calls being served *)
  srv : option gresult;      (* errCh *)
  drained : bool;            (* GracefulStop has returned *)
  gph : gphase;
  cancelled : bool;          (* the workers' context *)
  wks : list wphase;
  gerr : option error;       (* errgroup: the first error *)
}.

Definition start (n : nat) : sup := MkSup false false false 0 None false GSelect false (replicate n WRunning) None.

(** [g.Go]'s function returns. *)
Definition first_err (old new : option error) : option error := match old with Some e => Some e | None => new end.

Definition normalize (r : gresult) : option error :=
  match r with RNil | RStopped => None | RErr e => Some e end.

(** [serveGRPC] returns with what [srv.Serve] returned, and the workers are
    cancelled. *)
Definition grpc_done (r : gresult) (s : sup) : sup :=
  MkSup (ctxDone s) (graceful s) (stopped s) (inflight s) (srv s) (drained s) GDone true (wks s)
    (first_err (gerr s) (normalize r)).

Inductive action :=
  (* the environment: a signal; a call starts or ends; the listener fails; a
     worker's Run fails; srv.Serve returns as soon as a stop begins *)
  | Signal | CallStarts | CallEnds | ListenerFails (e : error) | RunFails (i : nat) (e : error) | ServeReturnsEarly
  (* the goroutines *)
  | ServeReturns (r : gresult) | SelectDone | SelectErr | Drain | Timeout | StoppedClosed | AwaitErr
  | StopServer (i : nat) | RunReturns (i : nat).

Definition environment (a : action) : bool :=
  match a with
  | Signal | CallStarts | CallEnds | ListenerFails _ | RunFails _ _ | ServeReturnsEarly => true
  | _ => false
  end.

Definition with_g (s : sup) (ph : gphase) : sup :=
  MkSup (ctxDone s) (graceful s) (stopped s) (inflight s) (srv s) (drained s) ph (cancelled s) (wks s) (gerr s).
Definition with_srv (s : sup) (r : gresult) : sup :=
  MkSup (ctxDone s) (graceful s) (stopped s) (inflight s) (Some r) (drained s) (gph s) (cancelled s) (wks s) (gerr s).
Definition with_calls (s : sup) (n : nat) : sup :=
  MkSup (ctxDone s) (graceful s) (stopped s) n (srv s) (drained s) (gph s) (cancelled s) (wks s) (gerr s).
Definition with_worker (s : sup) (i : nat) (w : wphase) : sup :=
  MkSup (ctxDone s) (graceful s) (stopped s) (inflight s) (srv s) (drained s) (gph s) (cancelled s) (<[i := w]> (wks s)) (gerr s).
Definition with_stop (s : sup) : sup :=
  MkSup (ctxDone s) (graceful s) true (inflight s) (srv s) (drained s) (gph s) (cancelled s) (wks s) (gerr s).
Definition with_err (s : sup) (e : error) : sup :=
  MkSup (ctxDone s) (graceful s) (stopped s) (inflight s) (srv s) (drained s) (gph s) (cancelled s) (wks s)
    (first_err (gerr s) (Some e)).

Definition guard {A} (b : bool) (a : A) : option A := if b then Some a else None.

(** The effect of an action, [None] when it cannot happen.  [srv.Serve]
    returns when the server has stopped; [GracefulStop] when the calls have
    ended or [Stop] was called; [Run] when its context is cancelled. *)
Definition fire (a : action) (s : sup) : option sup :=
  match a with
  | Signal => Some (MkSup true (graceful s) (stopped s) (inflight s) (srv s) (drained s) (gph s) (cancelled s) (wks s) (gerr s))
  | CallStarts => match srv s with
                  | None => guard (negb (graceful s) && negb (stopped s)) (with_calls s (S (inflight s)))
                  | Some _ => None end
  | CallEnds => match inflight s with O => None | S n => Some (with_calls s n) end
  | ListenerFails e => match srv s with None => Some (with_srv s (RErr e)) | Some _ => None end
  | RunFails i e => match wks s !! i with Some WRunning => Some (with_worker s i (WFailed e)) | _ => None end
  | ServeReturnsEarly => match srv s with None => guard (graceful s) (with_srv s RNil) | Some _ => None end
  | ServeReturns r =>
    match srv s, r with
    | None, RNil | None, RStopped => guard (drained s || stopped s) (with_srv s r)
    | _, _ => None
    end
  | SelectDone =>
    match gph s with
    | GSelect => guard (ctxDone s)
        (MkSup (ctxDone s) true (stopped s) (inflight s) (srv s) (drained s) GStopping (cancelled s) (wks s) (gerr s))
    | _ => None
    end
  | SelectErr => match gph s, srv s with GSelect, Some r => Some (grpc_done r s) | _, _ => None end
  | Drain =>
    guard (graceful s && negb (drained s) && (bool_decide (inflight s = 0%nat) || stopped s))
      (MkSup (ctxDone s) (graceful s) (stopped s) (inflight s) (srv s) true (gph s) (cancelled s) (wks s) (gerr s))
  | Timeout => match gph s with GStopping => Some (with_g (with_stop s) GForced) | _ => None end
  | StoppedClosed =>
    match gph s with
    | GStopping | GForced => guard (drained s) (with_g s GAwait)
    | _ => None
    end
  | AwaitErr => match gph s, srv s with GAwait, Some r => Some (grpc_done r s) | _, _ => None end
  | StopServer i =>
    match wks s !! i with
    | Some (WFailed e) => Some (with_err (with_stop (with_worker s i WDone)) e)
    | _ => None
    end
  | RunReturns i =>
    match wks s !! i with
    | Some WRunning => guard (cancelled s) (with_worker s i WDone)
    | _ => None
    end
  end.

(** A run, by its actions. *)
Definition serve_run (acts : list action) (s : sup) : option sup :=
  foldl (fun s a => s ≫= fire a) (Some s) acts.

(** The steps of the server's own goroutines in it, and its failures. *)
Definition own (acts : list action) : nat := length (filter (fun a => environment a = false) acts).
Definition failure (a : action) : option error :=
  match a with ListenerFails e | RunFails _ e => Some e | _ => None end.
Definition failures (acts : list action) : list error := omap failure acts.

(** [g.Wait()] has returned. *)
Definition returned (s : sup) : Prop := gph s = GDone /\ Forall (fun w => w = WDone) (wks s).

(** Something has happened that ends the server. *)
Definition ending (s : sup) : Prop :=
  ctxDone s = true \/ srv s <> None \/ stopped s = true \/ exists i e, wks s !! i = Some (WFailed e).

Definition phase_weight (ph : gphase) : nat :=
  match ph with GSelect => 4 | GStopping => 3 | GForced => 2 | GAwait => 1 | GDone => 0 end.
Definition worker_weight (w : wphase) : nat := match w with WRunning => 2 | WFailed _ => 1 | WDone => 0 end.
Definition weight (s : sup) : nat :=
  (match srv s with None => 1 | Some _ => 0 end + (if drained s then 0 else 1) + phase_weight (gph s) +
   sum_list_with worker_weight (wks s))%nat.

Record sup_ok (s : sup) : Prop := {
  so_graceful : gph s = GStopping \/ gph s = GForced \/ gph s = GAwait -> graceful s = true;
  so_forced : gph s = GForced -> stopped s = true;
  so_await : gph s = GAwait -> drained s = true;
  so_done : gph s = GDone <-> cancelled s = true;
  so_served : gph s = GDone -> srv s <> None;
}.

Ltac fire_cases :=
  repeat (match goal with
  | H : guard _ _ = Some _ |- _ => unfold guard in H
  | H : match ?x with _ => _ end = Some _ |- _ => destruct x eqn:?; try discriminate H
  end); simplify_eq.

Lemma fire_ok a s s' : sup_ok s -> fire a s = Some s' -> sup_ok s'.
Proof.
  intros [H1 H2 H3 H4 H5] E. destruct s as [cd gr st fl sv dr ph ca ws er]. cbn in *.
  destruct a; cbn in E; fire_cases; split; cbn in *; try naive_solver;
    repeat match goal with H : _ && _ = true |- _ => apply andb_true_iff in H as [] end; naive_solver.
Qed.

Lemma fire_weight a s s' : fire a s = Some s' -> (weight s' + (if environment a then 0 else 1) <= weight s)%nat.
Proof.
  intros E. destruct s as [cd gr st fl sv dr ph ca ws er]. destruct a; cbn in E; fire_cases; unfold weight; cbn;
    try lia; try (destruct dr; cbn; lia).
  all: match goal with H : ?l !! _ = Some ?w |- context [<[_ := ?w']> ?l] =>
         pose proof (sum_list_with_insert worker_weight l _ w w' H) as Hw; cbn in Hw; lia end.
Qed.

Lemma serve_run_snoc acts a s s' : serve_run (acts ++ [a]) s = Some s' ->
  exists s1, serve_run acts s = Some s1 /\ fire a s1 = Some s'.
Proof. unfold serve_run. rewrite foldl_snoc. intros (s1 & H1 & H2)%bind_Some. eauto. Qed.

Lemma serve_run_weight acts s s' : serve_run acts s = Some s' -> (weight s' + own acts <= weight s)%nat.
Proof.
  revert s'. induction acts as [|a acts IH] using rev_ind; intros s'; [intros [= <-]; cbn; lia|].
  intros (s1 & H1%IH & H2%fire_weight)%serve_run_snoc. unfold own in *. rewrite filter_app, length_app.
  destruct (environment a) eqn:Ea; [rewrite filter_cons_False by congruence|rewrite filter_cons_True by done]; cbn; lia.
Qed.

Lemma serve_run_ok acts s s' : sup_ok s -> serve_run acts s = Some s' -> sup_ok s'.
Proof.
  intros Hs. revert s'. induction acts as [|a acts IH] using rev_ind; intros s'; [intros [= <-]; done|].
  intros (s1 & H1 & H2)%serve_run_snoc. eauto using fire_ok.
Qed.

Lemma start_sup_ok n : sup_ok (start n).
Proof. split; cbn; naive_solver. Qed.

Lemma weight_start n : weight (start n) = (6 + 2 * n)%nat.
Proof. unfold weight, start. cbn. rewrite sum_list_with_replicate. cbn. lia. Qed.

Lemma failed_kept (l : list wphase) i w j e : l !! i <> Some (WFailed e) -> l !! j = Some (WFailed e) ->
  <[i := w]> l !! j = Some (WFailed e).
Proof. intros Hi Hj. rewrite list_lookup_insert_ne; [done|]. by intros ->. Qed.

(** Nothing takes it back. *)
Lemma ending_kept a s s' : fire a s = Some s' -> ending s -> ending s'.
Proof.
  intros E He. destruct s as [cd gr st fl sv dr ph ca ws er]. unfold ending in *. cbn in He.
  destruct a; cbn in E; fire_cases; cbn; auto;
    destruct He as [?|[?|[?|(j & e' & Hj)]]]; auto; do 3 right; exists j, e'; apply failed_kept; congruence.
Qed.

#[local] Instance WDone_dec w : Decision (w = WDone).
Proof. by destruct w; [right|right|left]. Defined.

(** A server that is ending and has not returned can go on. *)
Lemma ending_progress s : sup_ok s -> ending s -> returned s \/ exists a s', environment a = false /\ fire a s = Some s'.
Proof.
  intros [H1 H2 H3 H4 H5] He. destruct s as [cd gr st fl sv dr ph ca ws er]. unfold ending, returned in *. cbn in *.
  assert (forall i e, ws !! i = Some (WFailed e) ->
    exists a s', environment a = false /\ fire a (MkSup cd gr st fl sv dr ph ca ws er) = Some s') as Hfail.
  { intros i e Hi. exists (StopServer i). eexists. split; [done|]. cbn. by rewrite Hi. }
  destruct ph.
  - right. destruct He as [->|[Hs|[->|(i & e & Hi)]]]; [by exists SelectDone; eexists| |destruct sv as [r|]|by eapply Hfail].
    + destruct sv as [r|]; [|done]. by exists SelectErr; eexists.
    + by exists SelectErr; eexists.
    + exists (ServeReturns RNil). eexists. split; [done|]. cbn. by rewrite orb_true_r.
  - right. by exists Timeout; eexists.
  - right. destruct dr; [by exists StoppedClosed; eexists|]. exists Drain. eexists. split; [done|]. cbn.
    rewrite H1, H2 by auto. cbn. by rewrite orb_true_r.
  - right. destruct sv as [r|]; [by exists AwaitErr; eexists|]. exists (ServeReturns RNil). eexists. split; [done|]. cbn.
    by rewrite H3.
  - destruct (decide (Forall (fun w => w = WDone) ws)) as [|Hn]; [by left|]. right.
    apply not_Forall_Exists in Hn; [|exact _].
    apply Exists_exists in Hn as (w & [i Hi]%list_elem_of_lookup & Hw). destruct w as [|e|]; [|by eapply Hfail|by destruct Hw].
    exists (RunReturns i). eexists. split; [done|]. cbn. rewrite Hi. by rewrite (proj1 H4).
Qed.

(** Where the errors are on their way to [g.Wait()]. *)
Record err_ok (fs : list error) (s : sup) : Prop := {
  eo_gerr e : gerr s = Some e -> e ∈ fs;
  eo_srv e : srv s = Some (RErr e) -> e ∈ fs;
  eo_wks i e : wks s !! i = Some (WFailed e) -> e ∈ fs;
  eo_kept : fs <> [] -> gerr s <> None \/ (gph s <> GDone /\ exists e, srv s = Some (RErr e)) \/
    exists i e, wks s !! i = Some (WFailed e);
}.

Lemma first_err_some old new e : first_err old new = Some e -> old = Some e \/ new = Some e.
Proof. destruct old; naive_solver. Qed.

Lemma normalize_some r e : normalize r = Some e -> r = RErr e.
Proof. destruct r; naive_solver. Qed.

Lemma failed_insert (l : list wphase) i w j e : <[i := w]> l !! j = Some (WFailed e) ->
  w = WFailed e \/ l !! j = Some (WFailed e).
Proof. intros [(-> & -> & _)|[_ H]]%list_lookup_insert_Some; auto. Qed.

Ltac err_cases :=
  repeat match goal with
  | H : first_err _ _ = Some _ |- _ => apply first_err_some in H as [H|H]
  | H : normalize _ = Some _ |- _ => apply normalize_some in H
  | H : <[_ := _]> _ !! _ = Some (WFailed _) |- _ => apply failed_insert in H as [H|H]
  end; simplify_eq; rewrite ?elem_of_app, ?list_elem_of_singleton; eauto 6.

(** An error is kept until the goroutine that has it returns. *)
Lemma fire_kept a fs s s' : sup_ok s -> err_ok fs s -> fire a s = Some s' -> fs ++ option_list (failure a) <> [] ->
  gerr s' <> None \/ (gph s' <> GDone /\ exists e, srv s' = Some (RErr e)) \/ exists i e, wks s' !! i = Some (WFailed e).
Proof.
  intros [_ _ _ _ H5] [_ _ _ Ek] E. destruct s as [cd gr st fl sv dr ph ca ws er].
  destruct (failure a) as [e|] eqn:Ea; cbn.
  { intros _. destruct a; cbn in *; fire_cases; cbn.
    - right; left. split; [|by eexists]. intros ->. by apply H5.
    - right; right. exists i, e. apply list_lookup_insert_eq. by eapply lookup_lt_Some. }
  rewrite app_nil_r. intros Hfs. specialize (Ek Hfs). cbn in Ek.
  destruct a; try done; cbn in E; fire_cases; cbn; try naive_solver.
  1-2: by destruct Ek as [?|[[_ [e ?]]|?]]; [left|left|right; right]; destruct er; simplify_eq.
  - left. by destruct er.
  - destruct Ek as [?|[?|(j & e & Hj)]]; [auto..|]. right; right. exists j, e. apply failed_kept; congruence.
Qed.

Lemma fire_err a fs s s' : sup_ok s -> err_ok fs s -> fire a s = Some s' -> err_ok (fs ++ option_list (failure a)) s'.
Proof.
  intros Hok Herr E. pose proof (fire_kept _ _ _ _ Hok Herr E) as Hk. destruct Herr as [Eg Es Ew _].
  destruct s as [cd gr st fl sv dr ph ca ws er].
  destruct a; cbn in E; fire_cases; cbn in *; rewrite ?app_nil_r in *; split; cbn; try done; intros; err_cases.
Qed.

Lemma failures_snoc acts a : failures (acts ++ [a]) = failures acts ++ option_list (failure a).
Proof. unfold failures. rewrite omap_app. cbn. by destruct (failure a). Qed.

Lemma serve_run_err n acts s : serve_run acts (start n) = Some s -> err_ok (failures acts) s.
Proof.
  revert s. induction acts as [|a acts IH] using rev_ind; intros s.
  { intros [= <-]. split; cbn; try done. intros i e [Hi _]%lookup_replicate. done. }
  intros (s1 & H1 & H2)%serve_run_snoc. rewrite failures_snoc.
  eapply fire_err; [|by apply IH|done]. by eapply serve_run_ok; [apply start_sup_ok|].
Qed.

Lemma returned_reports fs s : returned s -> err_ok fs s -> gerr s = None -> fs = [].
Proof.
  intros [Hg Hd] [_ _ _ Hk] He. destruct fs as [|e fs]; [done|]. destruct Hk as [|[[]|(i & e' & Hi)]]; [done..|].
  rewrite Forall_lookup in Hd. by apply Hd in Hi.
Qed.

(** C17. A server that is told to end, or part of which fails, ends, and tells
    why: in every run of [Serve] with [n] workers, its goroutines make at
    most [6 + 2n] steps, whatever the signals, calls and failures and however
    they interleave; once a signal has arrived, the gRPC server has returned
    or a worker has failed, this is not taken back and there is a next step
    until [Serve] has returned;
    the workers are told to stop only when the gRPC server has returned; and
    [Serve] returns an error exactly when the listener or a worker failed,
    one of theirs. *)
Theorem serve_returns n acts s : serve_run acts (start n) = Some s ->
  (own acts <= 6 + 2 * n)%nat /\
  (ending s -> returned s \/ exists a s', environment a = false /\ fire a s = Some s') /\
  (forall a s', fire a s = Some s' -> ending s -> ending s') /\
  (cancelled s = true -> srv s <> None) /\
  (returned s -> match gerr s with None => failures acts = [] | Some e => e ∈ failures acts end).
Proof.
  intros Hs. pose proof (serve_run_ok _ _ _ (start_sup_ok n) Hs) as Hok. apply serve_run_weight in Hs as Hw.
  rewrite weight_start in Hw. split; [lia|]. split; [by apply ending_progress|].
  split; [intros a s'; apply ending_kept|]. split; [intros Hc; apply (so_served _ Hok); by apply (so_done _ Hok)|].
  intros Hr. apply serve_run_err in Hs. destruct (gerr s) eqn:E; [by apply (eo_gerr _ _ Hs)|].
  by eapply returned_reports.
Qed.

(** ** The command

    The errors a command returns, joined; none is nil. *)
Definition returnedb (s : sup) : bool :=
  match gph s with GDone => forallb (fun w => match w with WDone => true | _ => false end) (wks s) | _ => false end.

(** [Serve] in the run [acts]; [None] when it has not returned by its end. *)
Definition Serve {W F} (clientClose : res unit) (acts : list action) (srv : server W) (p : process F)
  : option (list error * process F) :=
  s ← serve_run acts (start (length (workers srv)));
  if returnedb s then
    let '(closeErrs, p) := end_serve clientClose srv p in Some (option_list (gerr s) ++ closeErrs, p)
  else None.

Section Command.
Context {F : Type} `{OS F} (Parse : string -> res URL) (clientClose : res unit) (Listen : string -> res unit).
Context (ReadFile : string -> res (list byte)) (UnmarshalTenants : list byte -> res (list (string * string))).
Context (ParseIngest : list string -> res (ingestConfig * list string)).
Context (ParseQuery : list string -> res (queryFlags * list string)) (kernelsOf : Variant -> res Kernels).
Context (acts : list action).

Definition ErrHelp : error := Msg "flag: help requested".

#[local] Abbreviation load := (load Parse clientClose ReadFile UnmarshalTenants).

Definition runIngest (args : list string) (p : process F) : option (list error * process F) :=
  match parseIngestFlags ParseIngest args with
  | Err e => if errors_Is e ErrHelp then Some ([], p) else Some ([e], p)
  | Ok cfg =>
    match newIngestServer load clientClose Listen cfg p with
    | (Err e, p) => Some ([e], p)
    | (Ok srv, p) => Serve clientClose acts srv p
    end
  end.

(** The profiling server is not part of the state. *)
Definition runQuery (args : list string) (p : process F) : option (list error * process F) :=
  match parseQueryFlags kernelsOf ParseQuery args with
  | Err e => if errors_Is e ErrHelp then Some ([], p) else Some ([e], p)
  | Ok cfg =>
    match newQueryServer load clientClose Listen cfg p with
    | (Err e, p) => Some ([e], p)
    | (Ok srv, p) => Serve clientClose acts srv p
    end
  end.

Definition run (args : list string) (p : process F) : option (list error * process F) :=
  match args with
  | [] => Some ([Msg "subcommand required: ingest, query"], p)
  | cmd :: args =>
    if decide (cmd = "-h" \/ cmd = "-help" \/ cmd = "--help") then Some ([], p) else
    if decide (cmd = "ingest") then runIngest args p else
    if decide (cmd = "query") then runQuery args p else
    Some ([Msg "unknown subcommand"], p)
  end.

Lemma returnedb_ok s : returnedb s = true -> returned s.
Proof.
  unfold returnedb, returned. destruct (gph s); try done. intros Hf. split; [done|]. apply Forall_forall. intros w Hw.
  rewrite forallb_forall in Hf. specialize (Hf w (proj1 (list_elem_of_In _ _) Hw)). by destruct w.
Qed.

(** [Serve] hides no failure. *)
Lemma Serve_reports {W} (srv : server W) (p p' : process F) : Serve clientClose acts srv p = Some ([], p') -> failures acts = [].
Proof.
  unfold Serve. intros (s & Hs & E)%bind_Some. destruct (returnedb s) eqn:Hr; [|done].
  apply serve_run_err in Hs. destruct (end_serve clientClose srv p) as [ce p2].
  injection E as [Hg _]%app_nil _. eapply returned_reports; [by apply returnedb_ok|done|by destruct (gerr s)].
Qed.

Lemma Serve_accounted {W} (p : process F) (srv : server W) p1 errs p' : accounted clientClose p (Ok srv) p1 ->
  Serve clientClose acts srv p1 = Some (errs, p') -> exists n, closes p' = closes p ++ replicate n 1%nat.
Proof.
  intros (_ & _ & _ & Hc). unfold Serve. intros (s & _ & E)%bind_Some. destruct (returnedb s); [|done].
  destruct (end_serve clientClose srv p1) as [ce p2]. injection E as _ <-. by eexists.
Qed.
End Command.

(** C16. Every store the command opens is closed exactly once, on every path:
    when a start fails, at whichever tenant and for whichever reason (the
    tenants file, a missing or bad URL, an invalid name, a directory, the
    storage client, a worker, the listener), the stores opened until then
    have been closed; when it succeeds there is a worker for each tenant and
    all its stores are open; and when [run] returns, for whichever arguments
    and however its goroutines ran, no store it opened is open and none was
    closed twice.  The other stores of the process are not touched.  [Serve]
    returns nil only when nothing failed. *)
Theorem cloudy_lifecycle {F} `{OS F} Parse clientClose Listen ReadFile UnmarshalTenants
    ParseIngest ParseQuery kernelsOf acts icfg qcfg (p : process F) :
  (forall d cfg, UnmarshalTenants d = Ok cfg -> NoDup cfg.*1) ->
  let ld := load Parse clientClose ReadFile UnmarshalTenants in
  accounted clientClose p (newIngestServer ld clientClose Listen icfg p).1 (newIngestServer ld clientClose Listen icfg p).2 /\
  accounted clientClose p (newQueryServer ld clientClose Listen qcfg p).1 (newQueryServer ld clientClose Listen qcfg p).2 /\
  (forall args errs p', run Parse clientClose Listen ReadFile UnmarshalTenants
    ParseIngest ParseQuery kernelsOf acts args p = Some (errs, p') -> exists n, closes p' = closes p ++ replicate n 1%nat) /\
  (forall (srv : server Flusher) (p p' : process F), Serve clientClose acts srv p = Some ([], p') -> failures acts = []).
Proof.
  intros Hnd ld.
  assert (forall icfg qcfg, _) as Hst by (intros i q; exact (starts_accounted Parse
    clientClose Listen ReadFile UnmarshalTenants i q p Hnd)).
  split; [apply (Hst icfg qcfg)|]. split; [apply (Hst icfg qcfg)|]. split; [|intros srv p1 p2; apply Serve_reports].
  assert (exists n, closes p = closes p ++ replicate n 1%nat) as Hnone by (exists 0%nat; by rewrite app_nil_r).
  intros [|cmd args] errs p'; cbn [run]; [by intros [= _ <-]|].
  case_decide; [by intros [= _ <-]|]. case_decide; [|case_decide; [|by intros [= _ <-]]].
  - unfold runIngest. destruct (parseIngestFlags _ _) as [cfg|e]; [|destruct (errors_Is e _); by intros [= _ <-]].
    destruct (Hst cfg qcfg) as [Ha _]. cbv zeta in Ha. destruct (newIngestServer _ _ _ _ _) as [[srv|e] p1].
    + by eapply Serve_accounted.
    + by intros [= _ <-].
  - unfold runQuery. destruct (parseQueryFlags _ _ _) as [cfg|e]; [|destruct (errors_Is e _); by intros [= _ <-]].
    destruct (Hst icfg cfg) as [_ Ha]. cbv zeta in Ha. destruct (newQueryServer _ _ _ _ _) as [[srv|e] p1].
    + by eapply Serve_accounted.
    + by intros [= _ <-].
Qed.

(** ** Witnesses

    Two tenants; a signal with a call in flight, which the timer cuts off,
    while the worker of one tenant fails. *)
#[local] Existing Instance ex_os.

Definition ex_config : list (string * string) := [("acme", "mem://"); ("cloudy", "gs:///b/t")].
Definition ex_ingest (args : list string) : res (ingestConfig * list string) := Ok (MkIngestConfig ":0" "tenants" 100 false, []).
Definition ex_flags (args : list string) : res (queryFlags * list string) := Err ErrHelp.

Definition ex_quiet : list action :=
  [Signal; SelectDone; Drain; ServeReturns RNil; StoppedClosed; AwaitErr; RunReturns 0; RunReturns 1].
Definition ex_stormy : list action :=
  [CallStarts; Signal; SelectDone; RunFails 1 ErrClosed; Timeout; Drain; StopServer 1; ServeReturns RStopped; StoppedClosed;
   AwaitErr; RunReturns 0].

Definition ex_run (acts : list action) (args : list string) : option (list error * process bool) :=
  run ex_parse (Ok tt) (fun _ => Ok tt) (fun _ => Ok []) (fun _ => Ok ex_config)
    ex_ingest ex_flags (fun _ => Ok pureKernels) acts args ex_start.

Lemma serve_returns_witness : exists s, serve_run ex_stormy (start 2) = Some s /\ gerr s = Some ErrClosed /\
  (own ex_stormy <= 10)%nat /\ ErrClosed ∈ failures ex_stormy.
Proof.
  destruct (serve_run ex_stormy (start 2)) as [s|] eqn:E; [|vm_compute in E; discriminate E].
  assert (returned s /\ gerr s = Some ErrClosed) as [Hr Hg]
    by (vm_compute in E; injection E as <-; split; [split; [reflexivity|repeat constructor]|reflexivity]).
  destruct (serve_returns 2 ex_stormy s E) as (Hk & _ & _ & _ & Hf). exists s. specialize (Hf Hr). rewrite Hg in Hf.
  split; [reflexivity|]. split; [exact Hg|]. split; [exact Hk|exact Hf].
Defined.

Lemma cloudy_lifecycle_witness : exists p' q', ex_run ex_quiet ["ingest"] = Some ([], p') /\
  ex_run ex_stormy ["ingest"] = Some ([ErrClosed], q') /\ closes p' = [1; 1]%nat /\ exists n, closes q' = replicate n 1%nat.
Proof.
  eexists _, _. split; [vm_compute; reflexivity|]. split; [vm_compute; reflexivity|]. split; [reflexivity|].
  refine (proj1 (proj2 (proj2 (cloudy_lifecycle ex_parse (Ok tt) (fun _ => Ok tt)
    (fun _ => Ok []) (fun _ => Ok ex_config) ex_ingest ex_flags (fun _ => Ok pureKernels) ex_stormy (MkIngestConfig ":0" "tenants" 100 false)
    (MkQueryConfig ":0" "" "tenants" 100 Pure pureKernels false) ex_start _))) ["ingest"] [ErrClosed] _ _).
  - intros d cfg [= <-]. repeat constructor; set_solver.
  - vm_compute. reflexivity.
Defined.
