(* ===== verification/Walbench.v ===== *)
(** * cmd/walbench: the log benchmark and its check

    src/cmd/walbench/main.go.  Writers that share a stream append records
    with a header of their own (id, length, checksum); the check reads the
    stream back and compares it with the acknowledged appends.  Modelled are
    the records ([fill], [verify]), the producer with its channel and the end
    of a run, the writers, the check, and the statistics.  Times and random
    bytes are arguments, JSON is decoded, and what is printed is the value it
    is printed from. *)

From S2P Require Import Prelude GoIo GoStr Recordio Scanner ObjectStore Prog Logstream.
From Stdlib Require Import Ascii.
Local Open Scope Z_scope.

(** ** Records *)
Definition headerSize : nat := 20.

(** [crc32.ChecksumIEEE]: the checksum of [Recordio.Crc] with the other
    polynomial. *)
Definition IEEE : Z := 0xedb88320.
Definition ieee_bit (c : Z) : Z := if Z.odd c then Z.lxor (Z.shiftr c 1) IEEE else Z.shiftr c 1.
Definition ieee_table (c : Z) : Z := Nat.iter 8 ieee_bit c.
Definition ieee_update (crc : Z) (v : byte) : Z :=
  Z.lxor (ieee_table (Z.lxor (Z.land crc 0xff) (byte_to_Z v))) (Z.shiftr crc 8).
Definition ChecksumIEEE (data : list byte) : Z := Z.lxor (foldl ieee_update 0xffffffff data) 0xffffffff.

Example ieee_check_value : ChecksumIEEE [x31; x32; x33; x34; x35; x36; x37; x38; x39] = 0xcbf43926.
Proof. reflexivity. Qed.

(** [binary.BigEndian] *)
Definition getBE (l : list byte) : Z := le_get (reverse l).

Record item := MkItem { iid : Z; ibuf : list byte }.

(** [buf] of [size] bytes after [fill]; [rng i] is the generator's [i]-th
    draw from here on. *)
Definition fill_body (n : nat) (rng : nat -> Z) : list byte :=
  mjoin ((fun i => le_put 8 (rng i)) <$> seq 0 (n / 8)) ++ le_put (n mod 8) (rng (n / 8)%nat).

Definition fill (size : nat) (id : Z) (rng : nat -> Z) : list byte :=
  let body := fill_body (size - headerSize) rng in
  be_put 8 id ++ be_put 4 (u32 (Z.of_nat size)) ++ be_put 4 (ChecksumIEEE body) ++ be_put 4 0 ++ body.

(** [binary.BigEndian.PutUint32(it.buf[16:20], uint32(id))] *)
Definition stamp (writer : Z) (buf : list byte) : list byte := take 16 buf ++ be_put 4 (u32 writer) ++ drop 20 buf.

Definition verify (rec : list byte) : res Z :=
  if decide (length rec < headerSize)%nat then Err (Msg "record is too short") else
  let id := getBE (take 8 rec) in
  if decide (getBE (take 4 (drop 8 rec)) <> Z.of_nat (length rec)) then Err (Msg "length field") else
  if decide (getBE (take 4 (drop 12 rec)) <> ChecksumIEEE (drop headerSize rec)) then Err (Msg "bad CRC") else
  Ok id.

(** ** Writers *)
Record appendRecord := MkAppend {
  awriter : Z; arecord : Z; aseq : Z; asize : Z; amicros : Z; astartAt : Z; adrain : bool }.
Record failureRecord := MkFailure { fwriter : Z; frecord : Z; fmicros : Z; ferr : error }.
Record outcome := MkOutcome { oappends : list appendRecord; ofailures : list failureRecord }.

(** An item that a writer took before the run was stopped, with when it
    started on it and how long the append took, in microseconds. *)
Record claimed := MkClaimed { citem : item; startAt : Z; elapsed : Z }.

Fixpoint write_items (fuel : nat) (log : Log) (d id : Z) (its : list claimed) (o : outcome) : prog outcome :=
  match its with
  | [] => Ret o
  | c :: its =>
    let rec := stamp id (ibuf (citem c)) in
    r ← Append fuel log [rec];
    write_items fuel log d id its
      (match r with
       | Err e => MkOutcome (oappends o)
                    (ofailures o ++ [MkFailure (u32 id) (iid (citem c)) (elapsed c) e])
       | Ok seq => MkOutcome
                    (oappends o ++ [MkAppend (u32 id) (iid (citem c)) seq (Z.of_nat (length rec)) (elapsed c)
                       (startAt c) (bool_decide (d < startAt c + elapsed c))])
                    (ofailures o)
       end)
  end.

Definition write_all (fuel : nat) (name : string) (c : nat) (d id : Z) (its : list claimed) : prog (res outcome) :=
  log <~ lift (New false name c);
  o ← write_items fuel log d id its (MkOutcome [] []);
  Ret (Ok o).

(** [r.appends] of a run, from the writers' outcomes. *)
Definition run_appends (os : list outcome) : list appendRecord := mjoin (oappends <$> os).
Definition run_failures (os : list outcome) : list failureRecord := mjoin (ofailures <$> os).

(** ** The check *)
Record segment := MkSegment { keys : list Z; missing : bool; bad : list error }.

Definition check_record (s : segment) (rec : LRecord) : segment :=
  match verify rec with
  | Err e => MkSegment (keys s) (missing s) (bad s ++ [e])
  | Ok id => MkSegment (keys s ++ [id]) (missing s) (bad s)
  end.

Definition check_segment (r : res (list LRecord)) : segment :=
  match r with
  | Err e => if errors_Is e ErrEndOfStream then MkSegment [] true [] else MkSegment [] false [e]
  | Ok records => foldl check_record (MkSegment [] false []) records
  end.

(** Each number goes to one reader, which fills its own slot of [segs]; the
    slots do not depend on the order. *)
Fixpoint read_segments (log : Log) (seqs : list Z) : prog (list segment) :=
  match seqs with
  | [] => Ret []
  | seq :: seqs =>
    r ← Read log seq;
    segs ← read_segments log seqs;
    Ret (check_segment r :: segs)
  end.

Record report := MkReport {
  tail : Z; records : nat; acked : nat; holes : list Z; corrupt : list error; lost : nat; duplicates : nat; pass : bool }.

(** [seen[k]++] *)
Definition count (seen : gmap Z nat) (k : Z) : gmap Z nat := <[k := S (default 0%nat (seen !! k))]> seen.

Definition is_lost (seen : gmap Z nat) (a : appendRecord) : Prop := default 0%nat (seen !! arecord a) = 0%nat.
#[export] Instance is_lost_dec seen a : Decision (is_lost seen a) := decide (_ = _).

Definition numbers (tail : Z) : list Z := (fun i => Z.of_nat i) <$> seq 1 (Z.to_nat tail).

Definition summarize (tail : Z) (segs : list segment) (appends : list appendRecord) : report :=
  let present := filter (fun s => missing s = false) segs in
  let seen := foldl count ∅ (mjoin (keys <$> present)) in
  let holes := omap (fun '(n, s) => if missing s then Some n else None) (zip (numbers tail) segs) in
  let corrupt := mjoin (bad <$> present) in
  let lost := length (filter (is_lost seen) appends) in
  let duplicates := sum_list ((fun kc => (kc.2 - 1)%nat) <$> map_to_list seen) in
  MkReport tail (length (mjoin (keys <$> present))) (length appends) holes corrupt lost duplicates
    (bool_decide (holes = [] /\ corrupt = [] /\ lost = 0%nat)).

(** Without a reader nobody receives from [work]. *)
Definition checkStream (readers : Z) (stream : string) (c : nat) (appends : list appendRecord) : prog (res report) :=
  log <~ lift (New false stream c);
  tail <~ Tail log;
  if decide (readers <= 0 /\ 0 < tail) then Ret (Err (Panic "all goroutines are asleep - deadlock!")) else
  segs ← read_segments log (numbers tail);
  Ret (Ok (summarize tail segs appends)).

(** ** The check's input *)
Record event := MkEvent {
  Type_ : string; URL : string; Writers : Z; Stream : string; EWriter : Z; ERecord : Z; ESeq : Z }.

(** The lines of the result file: a header, and for each run its own line,
    its appends and its failures. *)
Definition meta (url : string) : event := MkEvent "meta" url 0 "" 0 0 0.

Definition writeRun (writers : Z) (stream : string) (appends : list appendRecord) (failures : list failureRecord) : list event :=
  MkEvent "run" "" writers stream 0 0 0 ::
  ((fun a => MkEvent "append" "" writers "" (awriter a) (arecord a) (aseq a)) <$> appends) ++
  ((fun f => MkEvent "fail" "" writers "" (fwriter f) (frecord f) 0) <$> failures).

Record runResult := MkRun { rstream : string; rappends : list appendRecord }.

(** The lines of the result file, decoded. *)
Fixpoint read_events (es : list event) (url : string) (runs : gmap Z runResult) : res (string * gmap Z runResult) :=
  match es with
  | [] => if decide (url = "") then Err (Msg "no meta line in the log") else Ok (url, runs)
  | e :: es =>
    if decide (Type_ e = "meta") then read_events es (URL e) runs else
    if decide (Type_ e = "run") then read_events es url (<[Writers e := MkRun (Stream e) []]> runs) else
    if decide (Type_ e = "append") then
      match runs !! Writers e with
      | None => Err (Msg "append for unknown run")
      | Some r => read_events es url
          (<[Writers e := MkRun (rstream r) (rappends r ++ [MkAppend (EWriter e) (ERecord e) (ESeq e) 0 0 0 false])]> runs)
      end
    else read_events es url runs
  end.

(** The runs in the order of their numbers of writers. *)
Fixpoint check_runs (readers : Z) (c : nat) (rs : list runResult) (failed : bool) : prog (res unit) :=
  match rs with
  | [] => Ret (if failed then Err (Msg "sanity check failed") else Ok tt)
  | r :: rs =>
    rep <~ checkStream readers (rstream r) c (rappends r);
    check_runs readers c rs (failed || negb (pass rep))
  end.

Definition runSanity (readers : Z) (c : nat) (es : list event) : prog (res unit) :=
  '(_, runs) <~ lift (read_events es "" ∅);
  let order := merge_sort Z.le (map_to_list runs).*1 in
  check_runs readers c (omap (fun n => runs !! n) order) false.

(** ** Statistics *)

(** [mean] on int64. *)
Definition mean (v : list Z) : Z :=
  if decide (v = []) then 0 else Z.quot (foldl (fun sum x => i64 (sum + x)) 0 v) (Z.of_nat (length v)).

(** [pct(sorted, p)]; [None] is a panic. *)
Definition pct (sorted : list Z) (p : Z) : option Z :=
  if decide (sorted = []) then Some 0 else
  let n := Z.of_nat (length sorted) in
  let i := Z.quot (i64 (n * p + 99)) 100 in
  let i := if decide (n <= i) then n - 1 else i in
  if decide (i < 0) then None else sorted !! Z.to_nat i.

(** What [report] gathers from the appends. *)
Record stats := MkStats {
  steady : list Z; bytesTotal : Z; maxSeq : Z; drained : nat; perWriter : list nat }.

(** [perWriter[a.writer]] panics out of range. *)
Definition gather_one (s : option stats) (a : appendRecord) : option stats :=
  s ← s;
  let maxSeq := if decide (maxSeq s < aseq a) then aseq a else maxSeq s in
  if adrain a then Some (MkStats (steady s) (bytesTotal s) maxSeq (S (drained s)) (perWriter s)) else
  n ← perWriter s !! Z.to_nat (awriter a);
  Some (MkStats (steady s ++ [amicros a]) (i64 (bytesTotal s + asize a)) maxSeq (drained s)
    (<[Z.to_nat (awriter a) := S n]> (perWriter s))).

Definition gather (writers : nat) (appends : list appendRecord) : option stats :=
  foldl gather_one (Some (MkStats [] 0 0 0 (replicate writers 0%nat))) appends.

Definition starved (perWriter : list nat) : nat := length (filter (fun v => v <= 1)%nat perWriter).

(** The first writer with the most appends. *)
Definition busiest (perWriter : list nat) : nat :=
  foldl (fun top w => if decide (default 0 (perWriter !! top) < default 0 (perWriter !! w))%nat then w else top) 0%nat
    (seq 0 (length perWriter)).

(** ** The flags *)

(** [strings.TrimSpace] on ASCII. *)
Definition is_space (c : ascii) : bool :=
  let n := N_of_ascii c in bool_decide (n = 32 \/ (9 <= n <= 13))%N.
Fixpoint trim_start (s : string) : string :=
  match s with
  | String c t => if is_space c then trim_start t else s
  | EmptyString => s
  end.
Fixpoint trim_end (s : string) : string :=
  match s with
  | EmptyString => EmptyString
  | String c t => let t := trim_end t in
                  if is_space c && bool_decide (t = EmptyString) then EmptyString else String c t
  end.
Definition TrimSpace (s : string) : string := trim_end (trim_start s).

Definition comma : ascii := ",".

Fixpoint parse_parts (parts : list string) : res (list Z) :=
  match parts with
  | [] => Ok []
  | part :: parts =>
    match ParseInt (TrimSpace part) 10 with
    | None => Err (Msg "bad writer count")
    | Some n => if decide (n <= 0) then Err (Msg "writer count must be positive") else
                ns ← parse_parts parts; Ok (n :: ns)
    end
  end.

Definition parseCounts (s : string) : res (list Z) :=
  counts ← parse_parts (split_on comma s);
  if decide (counts = []) then Err (Msg "no writer counts") else Ok counts.

Definition streamName (prefix : string) (writers : Z) : string := prefix +:+ "bench-n" +:+ FormatInt writers 10.

(** The checks of [run] before it opens the store, and before each run. *)
Definition checkConfig (url out : string) (minSize maxSize : Z) (writers : string) : res (list Z) :=
  if decide (url = "") then Err (Msg "-url is required") else
  if decide (out = "") then Err (Msg "-out is required") else
  if decide (minSize <= Z.of_nat headerSize \/ maxSize < minSize) then Err (Msg "bad payload range") else
  parseCounts writers.

Definition probeStream (prefix : string) (n : Z) (c : nat) : prog (res unit) :=
  probe <~ lift (New false (streamName prefix n) c);
  tail <~ Tail probe;
  Ret (if decide (tail <> 0) then Err (Msg "stream already holds segments, pick another -prefix") else Ok tt).

(** ** Records: what is written verifies *)
Lemma getBE_be_put n v : getBE (be_put n v) = v mod 2 ^ (8 * Z.of_nat n).
Proof. unfold getBE, be_put. rewrite reverse_involutive. apply le_get_put. Qed.

Lemma ieee_bit_range c : is_u32 c -> is_u32 (ieee_bit c).
Proof.
  intros Hc. unfold ieee_bit.
  assert (is_u32 (Z.shiftr c 1)) by (unfold is_u32 in *; rewrite Z.shiftr_div_pow2 by lia; dlia).
  destruct (Z.odd c); [|done]. apply Crc.lxor_u32; [done|unfold is_u32, IEEE; lia].
Qed.

Lemma ieee_update_range c v : is_u32 c -> is_u32 (ieee_update c v).
Proof.
  intros Hc. unfold ieee_update.
  assert (is_u32 (Z.shiftr c 8)) by (unfold is_u32 in *; rewrite Z.shiftr_div_pow2 by lia; dlia).
  apply Crc.lxor_u32; [|done]. unfold ieee_table. cbn. repeat apply ieee_bit_range.
  apply Crc.lxor_u32; [|apply Crc.byte_u32]. unfold is_u32. change 255 with (Z.ones 8).
  rewrite Z.land_ones by lia. dlia.
Qed.

Lemma ChecksumIEEE_range l : is_u32 (ChecksumIEEE l).
Proof.
  apply Crc.lxor_u32; [|unfold is_u32; lia]. assert (is_u32 0xffffffff) as H0 by (unfold is_u32; lia). revert H0.
  generalize 0xffffffff. induction l as [|v l IH]; intros c Hc; [done|]. apply IH. by apply ieee_update_range.
Qed.

Lemma length_fill_body n rng : length (fill_body n rng) = n.
Proof.
  unfold fill_body. rewrite length_app, length_le_put, length_join, <-list_fmap_compose.
  assert (forall k i, sum_list ((length ∘ (fun i => le_put 8 (rng i))) <$> seq i k) = (8 * k)%nat) as Hs.
  { induction k as [|k IH]; intros i; [done|]. cbn [seq fmap list_fmap]. cbn [sum_list_with]. rewrite IH. cbn. lia. }
  rewrite Hs. pose proof (Nat.div_mod_eq n 8). lia.
Qed.

Lemma length_fill size id rng : (headerSize <= size)%nat -> length (fill size id rng) = size.
Proof. unfold fill, headerSize. intros H. rewrite !length_app, !length_be_put, length_fill_body. unfold headerSize. lia. Qed.

Lemma length_stamp w b : (headerSize <= length b)%nat -> length (stamp w b) = length b.
Proof. unfold stamp, headerSize. intros H. rewrite !length_app, length_take, length_drop, length_be_put. lia. Qed.

(** The writer's field is not covered by the checksum, so the writer that
    takes a record can fill it in. *)
Lemma verify_record size id w rng : (headerSize <= size)%nat -> Z.of_nat size < 2 ^ 32 -> is_u64 id ->
  verify (stamp w (fill size id rng)) = Ok id.
Proof.
  intros Hsz Hmax Hid. unfold verify. rewrite length_stamp by (by rewrite length_fill).
  rewrite length_fill by done. rewrite decide_False by lia.
  set (body := fill_body (size - headerSize) rng).
  assert (stamp w (fill size id rng) = be_put 8 id ++ be_put 4 (u32 (Z.of_nat size)) ++ be_put 4 (ChecksumIEEE body) ++
    be_put 4 (u32 w) ++ body) as ->.
  { unfold stamp, fill. fold body. rewrite !app_assoc. rewrite <-2!(app_assoc _ _ body).
    rewrite (take_app_exact _ (be_put 4 0 ++ body)) by (by rewrite !length_app, !length_be_put).
    by rewrite <-!app_assoc. }
  rewrite (take_app_exact (be_put 8 id)), (drop_app_exact (be_put 8 id)) by (by rewrite length_be_put).
  rewrite (take_app_exact (be_put 4 _)) by (by rewrite length_be_put).
  rewrite (app_assoc (be_put 8 id)), (drop_app_exact (be_put 8 id ++ _)) by (by rewrite length_app, !length_be_put).
  rewrite (take_app_exact (be_put 4 _)) by (by rewrite length_be_put).
  rewrite !app_assoc, (drop_app_exact _ body) by (by rewrite !length_app, !length_be_put).
  rewrite !getBE_be_put. change (8 * Z.of_nat 4) with 32. change (8 * Z.of_nat 8) with 64.
  pose proof (ChecksumIEEE_range body) as Hc. unfold is_u32, is_u64 in *.
  rewrite (Z.mod_small (u32 _)) by apply u32_range. rewrite u32_small by (unfold is_u32; lia).
  rewrite decide_False by (intros H; by apply H). rewrite Z.mod_small by lia. rewrite decide_False by (intros H; by apply H).
  by rewrite Z.mod_small.
Qed.

(** ** Writers *)

(** A segment of the benchmark: one record, which verifies as [id]. *)
Definition holds_record (id : Z) (b : list byte) : Prop :=
  exists rec, b = frames [rec] /\ fits Crc.DefaultMaxRecordSize rec /\ slice_len b /\ verify rec = Ok id.
Definition benched (b : list byte) : Prop := exists id, holds_record id b.

(** An item as the producer makes it, with a payload within the limits of
    [run]'s flags and of the log. *)
Definition good_item (it : item) : Prop :=
  exists size rng, (headerSize <= size)%nat /\ Z.of_nat size <= Crc.DefaultMaxRecordSize /\ is_u64 (iid it) /\
    ibuf it = fill size (iid it) rng.

Lemma length_frame_one rec : Z.of_nat (length (frames [rec])) = Z.of_nat (length rec) + 16.
Proof. unfold frames. cbn [fmap list_fmap mjoin list_join]. rewrite app_nil_r, length_frame. unfold Crc.frameOverhead. lia. Qed.

Lemma good_item_holds w it : good_item it -> holds_record (iid it) (frames [stamp w (ibuf it)]).
Proof.
  intros (size & rng & Hsz & Hmax & Hid & E). unfold Crc.DefaultMaxRecordSize in Hmax.
  assert (length (stamp w (ibuf it)) = size) as Hl.
  { rewrite E, length_stamp; rewrite length_fill; done. }
  exists (stamp w (ibuf it)). split; [done|]. unfold fits, is_u64, Crc.DefaultMaxRecordSize, slice_len.
  rewrite length_frame_one, Hl. split; [lia|]. split; [lia|]. rewrite E. apply verify_record; [done|lia|done].
Qed.

Section Writers.
Context {S : Type} `{StoreLaws S} (faulty : bool) (p : string) (cs : list nat).
#[local] Existing Instance log_rel_preorder.
#[local] Abbreviation wsafe := (safe faulty (log_inv p cs) (log_rel p cs benched)).

Definition logged (a : appendRecord) (w : world S) : Prop :=
  exists bs b, log_at p w bs /\ bs !! Z.to_nat (aseq a - 1) = Some b /\ holds_record (arecord a) b.

Definition outcome_ok (o : outcome) (w : world S) : Prop := Forall (fun a => logged a w) (oappends o).

Lemma outcome_ok_stable o w w' : log_rel p cs benched w w' -> outcome_ok o w -> outcome_ok o w'.
Proof.
  intros [HR _] Ho. eapply Forall_impl; [exact Ho|]. intros a (bs & b & Hbs & Hb & Hr).
  destruct (HR bs Hbs) as (new & Hnew & _). exists (bs ++ new), b. split; [done|]. split; [by apply lookup_app_l_Some|done].
Qed.

Lemma write_items_safe fuel log d id its o w : prefix log = p -> lastKnown log ∈ cs ->
  Forall (fun c => good_item (citem c)) its -> at_least p w 0 -> 0 <= cell w (lastKnown log) -> outcome_ok o w ->
  wsafe (write_items fuel log d id its o) outcome_ok w.
Proof.
  intros Hp Hc. revert o w. induction its as [|c its IH]; intros o w Hits Hw Hcell Ho; cbn [write_items]; [done|].
  apply Forall_cons in Hits as [Hit Hits]. pose proof (good_item_holds id _ Hit) as Hh.
  eapply safe_bind; [apply _|apply (Append_safe faulty p cs benched fuel log _ 0); try done|].
  - by destruct Hh as (rec & _ & _ & ? & _).
  - by exists (iid (citem c)).
  - intros r w1 HR1 Hr.
    apply IH; [done|by eapply at_least_stable|destruct HR1 as [_ HR1]; specialize (HR1 _ Hc); lia|].
    apply (outcome_ok_stable _ _ _ HR1) in Ho. destruct r as [seq|e]; [|done].
    apply Forall_app. split; [done|]. apply Forall_singleton. destruct Hr as (_ & bs & Hbs & Hb). by exists bs, (frames [stamp id (ibuf (citem c))]).
Qed.

Lemma write_all_safe fuel c d id its w : c ∈ cs ->
  Forall (fun c => good_item (citem c)) its -> at_least p w 0 -> 0 <= cell w c ->
  wsafe (write_all fuel p c d id its) (fun r w' => forall o, r = Ok o -> outcome_ok o w') w.
Proof.
  intros Hc Hits Hw Hcell. unfold write_all. rewrite try_lift. unfold New. destruct (validPrefix p); [|done].
  cbn [negb]. eapply safe_bind; [apply _|by apply write_items_safe; [..|constructor]|].
  intros o w1 _ Ho. cbn. by intros ? [= <-].
Qed.
End Writers.

(** ** The check *)

Lemma check_record_one id rec : verify rec = Ok id -> check_segment (Ok [rec]) = MkSegment [id] false [].
Proof. intros E. cbn. unfold check_record. by rewrite E. Qed.

(** The check reads and changes nothing. *)
Lemma run_read_segments {S} `{Store S} log seqs (w : world S) :
  run (read_segments log seqs) w = ((fun q => check_segment (run (Read log q) w).1) <$> seqs, w).
Proof.
  assert (forall q, (run (Read log q) w).2 = w) as Hr.
  { intros q. unfold Read. case_decide; [done|]. unfold mbind, prog_mbind. rewrite run_bind. cbn [run call exec].
    destruct (Get _ _ _) as [[b o]|e]; [done|]. by destruct (errors_Is e ErrNotFound). }
  induction seqs as [|q seqs IH]; [done|]. cbn [read_segments fmap list_fmap]. unfold mbind, prog_mbind in *.
  rewrite run_bind. specialize (Hr q). destruct (run (Read log q) w) as [r w1]. cbn in Hr. subst w1.
  rewrite run_bind, IH. done.
Qed.

Lemma count_seen l seen k : default 0%nat (foldl count seen l !! k) =
  (default 0%nat (seen !! k) + length (filter (fun x => x = k) l))%nat.
Proof.
  revert seen. induction l as [|x l IH]; intros seen; cbn [foldl]; [cbn; lia|]. rewrite IH. unfold count.
  rewrite filter_cons. destruct (decide (x = k)) as [->|Hne].
  - rewrite lookup_insert_eq. cbn. lia.
  - by rewrite lookup_insert_ne.
Qed.

Lemma seen_iff l k : default 0%nat (foldl count ∅ l !! k) <> 0%nat <-> k ∈ l.
Proof.
  rewrite count_seen, lookup_empty. cbn. split.
  - intros H. destruct (filter (fun x => x = k) l) as [|y t] eqn:E; [done|].
    assert (y ∈ filter (fun x => x = k) l) as Hy by (rewrite E; left). apply list_elem_of_filter in Hy as [-> ?]. done.
  - intros Hk Hz. apply nil_length_inv in Hz. assert (k ∈ filter (fun x => x = k) l) as Hk' by (by apply list_elem_of_filter).
    rewrite Hz in Hk'. by apply not_elem_of_nil in Hk'.
Qed.

Lemma holes_nil (ns : list Z) segs : length ns = length segs ->
  omap (fun '(n, s) => if missing s then Some n else None) (zip ns segs) = [] <-> Forall (fun s => missing s = false) segs.
Proof.
  revert ns. induction segs as [|s segs IH]; intros [|n ns] Hl; try done. injection Hl as Hl. cbn. rewrite Forall_cons.
  destruct (missing s); [split; [done|by intros [? _]]|]. rewrite IH by done. tauto.
Qed.

Lemma mjoin_nil {A} (l : list (list A)) : mjoin l = [] <-> Forall (fun x => x = []) l.
Proof.
  induction l as [|x l IH]; [done|]. rewrite Forall_cons. cbn. split.
  - intros [-> ?]%app_nil. by rewrite <-IH.
  - intros [-> ?]. by apply IH.
Qed.

Lemma filter_nil_iff {A} (P : A -> Prop) `{!forall x, Decision (P x)} l : length (filter P l) = 0%nat <-> Forall (fun x => ~ P x) l.
Proof.
  induction l as [|x l IH]; [done|]. rewrite filter_cons, Forall_cons. case_decide; [cbn; split; [lia|tauto]|].
  rewrite IH. tauto.
Qed.

Lemma filter_id {A} (P : A -> Prop) `{!forall x, Decision (P x)} l : Forall P l -> filter P l = l.
Proof. induction 1 as [|x l Hx _ IH]; [done|]. by rewrite filter_cons_True, IH. Qed.

(** When the check passes. *)
Lemma summarize_pass tail segs appends : length segs = Z.to_nat tail ->
  pass (summarize tail segs appends) = true <->
  Forall (fun s => missing s = false /\ bad s = []) segs /\
  Forall (fun a => exists s, s ∈ segs /\ arecord a ∈ keys s) appends.
Proof.
  intros Hl. unfold summarize. cbn [pass]. rewrite bool_decide_eq_true, holes_nil, filter_nil_iff, mjoin_nil, Forall_and
    by (unfold numbers; by rewrite length_fmap, length_seq).
  assert (Forall (fun s => missing s = false) segs -> filter (fun s => missing s = false) segs = segs) as Hf
    by apply filter_id.
  split.
  - intros (Hm & Hb & Ha). rewrite Hf in Hb, Ha by done. split; [split; [done|by apply Forall_fmap in Hb]|].
    eapply Forall_impl; [exact Ha|]. intros a Hn. apply seen_iff in Hn as (x & Hx & (s & -> & Hs)%list_elem_of_fmap)%list_elem_of_join.
    by exists s.
  - intros ([Hm Hb] & Ha). rewrite Hf by done. split; [done|]. split; [by apply Forall_fmap|].
    eapply Forall_impl; [exact Ha|]. intros a (s & Hs & Hk). apply seen_iff, list_elem_of_join. exists (keys s).
    split; [done|]. apply list_elem_of_fmap. eauto.
Qed.

Lemma elem_of_numbers q t : q ∈ numbers t <-> 1 <= q <= t.
Proof.
  unfold numbers. rewrite list_elem_of_fmap. split.
  - intros (i & -> & Hi%elem_of_seq). lia.
  - intros Hq. exists (Z.to_nat q). split; [lia|]. apply elem_of_seq. lia.
Qed.

Lemma check_records_keys recs s k : k ∈ keys (foldl check_record s recs) ->
  k ∈ keys s \/ exists rec, rec ∈ recs /\ verify rec = Ok k.
Proof.
  revert s. induction recs as [|r recs IH]; intros s; [by left|]. cbn [foldl]. intros [Hk|(rec & Hr & E)]%IH.
  - unfold check_record in Hk. destruct (verify r) as [id|e] eqn:E; cbn in Hk; [|by left].
    apply elem_of_app in Hk as [?|Hk%list_elem_of_singleton]; [by left|right]. subst k. exists r. split; [left|done].
  - right. exists rec. split; [by right|done].
Qed.

Section Check.
Context {S : Type} `{StoreLaws S} (p : string) (c : nat).

(** The run of the check, on any contents of the store. *)
Lemma run_checkStream readers appends (w : world S) : validPrefix p = true ->
  run (checkStream readers p c appends) w =
    match run (Tail (MkLog p c)) w with
    | (Err e, w) => (Err e, w)
    | (Ok t, w) =>
      (if decide (readers <= 0 /\ 0 < t) then Err (Panic "all goroutines are asleep - deadlock!")
       else Ok (summarize t ((fun q => check_segment (run (Read (MkLog p c) q) w).1) <$> numbers t) appends), w)
    end.
Proof.
  intros Hp. unfold checkStream. rewrite try_lift. unfold New. rewrite Hp. cbn [negb]. rewrite run_try.
  destruct (run (Tail _) w) as [[t|e] w1]; [|done]. case_decide; [done|]. unfold mbind, prog_mbind.
  by rewrite run_bind, run_read_segments.
Qed.

(** A pass means what it says. *)
Lemma sanity_sound readers appends rep (w w' : world S) : validPrefix p = true ->
  run (checkStream readers p c appends) w = (Ok rep, w') -> pass rep = true ->
  forall a, a ∈ appends -> exists seq recs rec, 1 <= seq <= tail rep /\
    (run (Read (MkLog p c) seq) w').1 = Ok recs /\ rec ∈ recs /\ verify rec = Ok (arecord a).
Proof.
  intros Hp E Hpass a Ha. rewrite run_checkStream in E by done.
  destruct (run (Tail _) w) as [[t|e] w1]; [|done]. case_decide; [done|]. injection E as <- <-.
  apply summarize_pass in Hpass as [_ Hk]; [|unfold numbers; by rewrite !length_fmap, length_seq].
  rewrite Forall_forall in Hk. destruct (Hk a Ha) as (s & (q & -> & Hq%elem_of_numbers)%list_elem_of_fmap & Hs).
  exists q. unfold check_segment in Hs. destruct (run (Read _ q) w1).1 as [recs|e]; cbn in Hs.
  - apply check_records_keys in Hs as [Hs%not_elem_of_nil|(rec & Hr & Hv)]; [done|]. by exists recs, rec.
  - destruct (errors_Is e ErrEndOfStream); by apply not_elem_of_nil in Hs.
Qed.
End Check.

(** What the check reports of a log of benchmark records. *)
Lemma sanity_of_log {S} `{StoreLaws S} p c readers appends n (w : world S) bs : validPrefix p = true -> 0 < readers ->
  ok n (store w) -> is_log p (view (store w)) bs -> Z.of_nat (length bs) + Z.of_nat n < MaxUint64 -> Forall benched bs ->
  Forall (fun a => logged p a w) appends ->
  exists rep, run (checkStream readers p c appends) w = (Ok rep, w) /\ pass rep = true /\
    tail rep = Z.of_nat (length bs) /\ records rep = length bs /\ acked rep = length appends.
Proof.
  intros Hp Hr Hok Hbs Hn Hall Ha. rewrite run_checkStream by done. unfold Tail. rewrite run_try.
  destruct (run_head (MkLog p c) 0 n w bs) as [c0 ->]; [done..|lia|]. cbn [run]. rewrite decide_False by lia.
  set (segs := (fun q => check_segment _) <$> numbers _).
  assert (Forall2 (fun b s => exists id, holds_record id b /\ s = MkSegment [id] false []) bs segs) as HF.
  { apply Forall2_same_length_lookup_2.
    - unfold segs, numbers. rewrite !length_fmap, length_seq. lia.
    - intros i b s Hb Hs. unfold segs, numbers in Hs. rewrite !list_lookup_fmap in Hs.
      pose proof (lookup_lt_Some _ _ _ Hb) as Hi. rewrite lookup_seq_lt in Hs by lia. apply (inj Some) in Hs. subst s.
      unfold MaxUint64 in Hn. rewrite (run_Read (MkLog p c) n w bs) by (done || lia).
      replace (Z.to_nat (Z.of_nat (1 + i) - 1)) with i by lia. rewrite Hb. cbn [fst].
      rewrite Forall_lookup in Hall. destruct (Hall _ _ Hb) as (id & rec & -> & Hf & Hl & Hv).
      exists id. split; [by exists rec|]. rewrite scan_segment_frames by (done || by apply Forall_singleton).
      by apply check_record_one. }
  eexists. split; [done|]. split; [apply summarize_pass; [unfold segs, numbers; by rewrite !length_fmap, length_seq|]|].
  - split.
    + apply Forall_forall. intros s [i Hi]%list_elem_of_lookup. destruct (Forall2_lookup_r _ _ _ _ _ HF Hi) as (b & _ & id & _ & ->). done.
    + eapply Forall_impl; [exact Ha|]. intros a (bs' & b & Hbs' & Hb & rec & -> & Hf & Hl & Hv).
      rewrite (is_log_unique _ _ _ _ Hbs' Hbs) in Hb.
      destruct (Forall2_lookup_l _ _ _ _ _ HF Hb) as (s & Hs & id & (rec' & Ef & Hf' & Hl' & Hv') & ->).
      exists (MkSegment [id] false []). split; [by eapply list_elem_of_lookup_2|].
      rewrite Ef in Hl'. apply (f_equal scan_segment) in Ef.
      rewrite !scan_segment_frames in Ef by (done || by apply Forall_singleton). injection Ef as <-. cbn. rewrite Hv in Hv'. injection Hv' as <-. left.
  - split; [done|]. split; [|done]. cbn [records summarize]. rewrite filter_id.
    + clear Hbs Hn Hall Ha. generalize dependent segs. generalize bs. intros l segs HF.
      induction HF as [|b s l segs (id & _ & ->) _ IH]; [done|]. cbn. f_equal. exact IH.
    + apply Forall_forall. intros s [i Hi]%list_elem_of_lookup. by destruct (Forall2_lookup_r _ _ _ _ _ HF Hi) as (b & _ & id & _ & ->).
Qed.

(** *** The result file *)

(** What the check keeps of an append. *)
Definition bare (a : appendRecord) : appendRecord := MkAppend (awriter a) (arecord a) (aseq a) 0 0 0 false.

Lemma read_appends n url r apps es runs : runs !! n = Some r ->
  read_events (((fun a => MkEvent "append" "" n "" (awriter a) (arecord a) (aseq a)) <$> apps) ++ es) url runs =
  read_events es url (<[n := MkRun (rstream r) (rappends r ++ (bare <$> apps))]> runs).
Proof.
  revert r runs. induction apps as [|a apps IH]; intros r runs Hr; cbn [fmap list_fmap app].
  { destruct r. cbn. by rewrite app_nil_r, insert_id. }
  cbn [read_events Type_ Writers]. rewrite Hr. do 2 rewrite decide_False by done. rewrite decide_True by done.
  erewrite IH by apply lookup_insert_eq. rewrite insert_insert_eq. cbn. by rewrite <-app_assoc.
Qed.

Lemma read_writeRun n stream apps fails es url runs :
  read_events (writeRun n stream apps fails ++ es) url runs = read_events es url (<[n := MkRun stream (bare <$> apps)]> runs).
Proof.
  unfold writeRun. rewrite <-app_comm_cons, <-app_assoc. cbn [read_events Type_ Writers Stream].
  rewrite decide_False, decide_True by done. erewrite read_appends by apply lookup_insert_eq. rewrite insert_insert_eq.
  cbn [rstream rappends app]. induction fails as [|f fails IH]; [done|]. cbn [fmap list_fmap app read_events Type_].
  by rewrite !decide_False by done.
Qed.

Lemma run_runSanity {S} `{Store S} readers c url n stream apps fails (w w' : world S) rep : url <> "" ->
  run (checkStream readers stream c (bare <$> apps)) w = (Ok rep, w') -> pass rep = true ->
  run (runSanity readers c (meta url :: writeRun n stream apps fails)) w = (Ok tt, w').
Proof.
  intros Hu E Hp. unfold runSanity. cbn [read_events Type_ meta URL]. rewrite decide_True by done.
  rewrite <-(app_nil_r (writeRun _ _ _ _)), read_writeRun. cbn [read_events]. rewrite decide_False by done.
  rewrite try_lift, insert_empty, map_to_list_singleton. change (merge_sort Z.le [(n, MkRun stream (bare <$> apps))].*1) with [n].
  cbn [omap list_omap]. rewrite lookup_singleton_eq. cbn [check_runs rstream rappends]. rewrite run_try, E, Hp. done.
Qed.

(** C39. The benchmark's check tells the truth.  Whatever the writers of a run
    do, however their store calls interleave and whichever fail, when all of
    them have returned the check of the stream passes: it has no holes, every
    record in it verifies, and every acknowledged append is there; and so
    does [runSanity] on the result file of the run.  On any store, a check
    that passes has read every acknowledged record from a segment of the
    stream. *)
Theorem sanity_check {S} `{StoreLaws S} (faulty : bool) fuel d readers p c (writers : list (nat * list claimed))
    n (w : world S) outs n' w' : validPrefix p = true -> 0 < readers ->
  ok n (store w) -> is_log p (view (store w)) [] -> Z.of_nat n < MaxUint64 ->
  Forall (fun cw => cell w cw.1 = 0 /\ Forall (fun x => good_item (citem x)) cw.2) writers ->
  rtc (pstep faulty) (imap (fun i cw => write_all fuel p cw.1 d (Z.of_nat i) cw.2) writers, (n, w))
    ((fun o => Ret (Ok o)) <$> outs, (n', w')) ->
  (exists rep, run (checkStream readers p c (run_appends outs)) w' = (Ok rep, w') /\ pass rep = true /\
    records rep = Z.to_nat (tail rep) /\ acked rep = length (run_appends outs)) /\
  (forall url k, url <> "" ->
    run (runSanity readers c (meta url :: writeRun k p (run_appends outs) (run_failures outs))) w' = (Ok tt, w')) /\
  (forall (w0 w1 : world S) readers appends rep, run (checkStream readers p c appends) w0 = (Ok rep, w1) -> pass rep = true ->
    forall a, a ∈ appends -> exists seq recs rec, 1 <= seq <= tail rep /\
      (run (Read (MkLog p c) seq) w1).1 = Ok recs /\ rec ∈ recs /\ verify rec = Ok (arecord a)).
Proof.
  intros Hp Hr Hok Hbs Hn Hws Hst. rewrite assoc by exact _. split; [|intros w0 w1 rd appends rep; by apply sanity_sound].
  set (cs := writers.*1). set (Q := fun (r : res outcome) (w' : world S) => forall o, r = Ok o -> outcome_ok p o w').
  assert (log_inv p cs n w) as HI.
  { split; [done|]. exists []. split; [done|]. split; [cbn; lia|]. intros k (cw & -> & Hcw)%list_elem_of_fmap.
    rewrite Forall_forall in Hws. destruct (Hws _ Hcw) as [-> _]. cbn. lia. }
  pose proof (log_rel_preorder p cs benched (S:=S)) as HPO.
  set (Qs := replicate (length writers) Q).
  assert (Forall (stable (log_rel p cs benched)) Qs) as HQs.
  { apply Forall_replicate. intros r w1 w2 HR Hq o Ho. eapply outcome_ok_stable; [exact HR|by apply Hq]. }
  assert (pool_safe faulty (log_inv p cs) (log_rel p cs benched)
    (imap (fun i cw => write_all fuel p cw.1 d (Z.of_nat i) cw.2) writers) Qs w) as Hpool.
  { apply Forall2_same_length_lookup_2; [unfold Qs; by rewrite length_imap, length_replicate|].
    intros i t Q' (cw & Hi & ->)%list_lookup_imap_Some [-> _]%lookup_replicate. rewrite Forall_lookup in Hws.
    destruct (Hws _ _ Hi) as [Hc Hits]. apply write_all_safe; [|done| |lia].
    - apply list_elem_of_fmap. exists cw. split; [done|]. by eapply list_elem_of_lookup_2.
    - exists []. split; [done|]. cbn. unfold MaxUint64. lia. }
  destruct (pool_steps _ _ _ _ _ _ _ _ _ _ HQs Hpool HI Hst) as ((Hok' & bs & Hbs' & Hn' & _) & [HR _] & Hts).
  destruct (HR [] Hbs) as (new & Hnew & Hall).
  cbn in Hnew. rewrite (is_log_unique _ _ _ _ Hnew Hbs') in Hall.
  assert (Forall (fun a => logged p a w') (run_appends outs)) as Hlog.
  { unfold run_appends. apply Forall_join, Forall_fmap, Forall_lookup. intros i o Ho.
    assert (((fun o => Ret (Ok o)) <$> outs) !! i = Some (Ret (Ok o))) as Hi by (by rewrite list_lookup_fmap, Ho).
    destruct (Forall2_lookup_l _ _ _ _ _ Hts Hi) as (Q' & [-> _]%lookup_replicate & HQ). by apply HQ. }
  split.
  - destruct (sanity_of_log p c readers (run_appends outs) n' w' bs) as (rep & E & Hpass & Ht & Hrec & Hack); try done.
    exists rep. split; [done|]. split; [done|]. split; [lia|done].
  - intros url k Hu. destruct (sanity_of_log p c readers (bare <$> run_appends outs) n' w' bs) as (rep & E & Hpass & _); try done.
    { apply Forall_fmap. exact Hlog. }
    by eapply run_runSanity.
Qed.

(** ** The end of a run

    The producer, the channel of 1024 items, the writers, and [benchmark]
    itself, which stops them when the time is up and then takes one item out
    of the channel. *)
Inductive pphase := PLook | PSend | PClosed.
Inductive bphase := BNew | BTake | BLook | BAppend | BDone.

Record bench := MkBench { stop : bool; queue : nat; producer : pphase; emptied : bool; bwriters : list bphase }.

Definition capacity : nat := 1024.
Definition bench_start (n : nat) : bench := MkBench false 0 PLook false (replicate n BNew).

Inductive bact :=
  | TimeUp                         (* stop.Store(true) *)
  | TakeOne                        (* select { case <-work: default: } *)
  | ProducerLooks | ProducerSends
  | WriterStarts (i : nat) (failed : bool)
  | WriterTakes (i : nat) | WriterLooks (i : nat) | WriterAppended (i : nat) | WriterEnds (i : nat).

Definition set_writer (s : bench) (i : nat) (ph : bphase) : bench :=
  MkBench (stop s) (queue s) (producer s) (emptied s) (<[i := ph]> (bwriters s)).
Definition set_queue (s : bench) (n : nat) : bench := MkBench (stop s) n (producer s) (emptied s) (bwriters s).
Definition set_producer (s : bench) (ph : pphase) : bench := MkBench (stop s) (queue s) ph (emptied s) (bwriters s).

Definition bfire (a : bact) (s : bench) : option bench :=
  match a with
  | TimeUp => if stop s then None else Some (MkBench true (queue s) (producer s) (emptied s) (bwriters s))
  | TakeOne => if stop s && negb (emptied s)
               then Some (MkBench (stop s) (pred (queue s)) (producer s) true (bwriters s)) else None
  | ProducerLooks => match producer s with
                     | PLook => Some (set_producer s (if stop s then PClosed else PSend))
                     | _ => None end
  | ProducerSends => match producer s with
                     | PSend => if decide (queue s < capacity)%nat
                                then Some (set_producer (set_queue s (S (queue s))) PLook) else None
                     | _ => None end
  | WriterStarts i failed => match bwriters s !! i with
                     | Some BNew => Some (set_writer s i (if failed then BDone else BTake))
                     | _ => None end
  | WriterTakes i => match bwriters s !! i, queue s with
                     | Some BTake, S n => Some (set_writer (set_queue s n) i BLook)
                     | _, _ => None end
  | WriterLooks i => match bwriters s !! i with
                     | Some BLook => Some (set_writer s i (if stop s then BDone else BAppend))
                     | _ => None end
  | WriterAppended i => match bwriters s !! i with
                     | Some BAppend => Some (set_writer s i BTake)
                     | _ => None end
  | WriterEnds i => match bwriters s !! i, queue s, producer s with
                     | Some BTake, O, PClosed => Some (set_writer s i BDone)
                     | _, _, _ => None end
  end.

Definition bench_run (acts : list bact) (s : bench) : option bench := foldl (fun s a => s ≫= bfire a) (Some s) acts.

Definition ended (s : bench) : Prop := producer s = PClosed /\ Forall (fun b => b = BDone) (bwriters s).

(** What is left to do once the run was stopped. *)
Definition pweight (ph : pphase) : nat := match ph with PSend => 2 | PLook => 1 | PClosed => 0 end.
Definition bweight (ph : bphase) : nat := match ph with BNew | BAppend => 3 | BTake => 2 | BLook => 1 | BDone => 0 end.
Definition left_over (s : bench) : nat :=
  (pweight (producer s) + (if emptied s then 0 else 1) + sum_list_with bweight (bwriters s))%nat.

Record bench_ok (n : nat) (s : bench) : Prop := {
  bo_queue : (queue s <= capacity)%nat;
  bo_emptied : emptied s = true -> stop s = true /\ (producer s = PSend -> queue s < capacity)%nat;
  bo_writers : length (bwriters s) = n;
}.

Ltac bfire_cases :=
  repeat (match goal with
  | H : match ?x with _ => _ end = Some _ |- _ => destruct x eqn:?; try discriminate H
  end); simplify_eq.

Lemma bfire_ok n a s s' : bench_ok n s -> bfire a s = Some s' -> bench_ok n s'.
Proof.
  intros [Hq He Hl] E. assert (0 < capacity)%nat as Hcap by (unfold capacity; lia). destruct s as [st q ph em ws]. cbn in *.
  destruct a; cbn in E; bfire_cases; split; cbn in *; rewrite ?length_insert; try done; try lia.
  - intros Hem. by destruct (He Hem).
  - intros _. split; [by destruct st|lia].
  - intros Hem. by destruct (He Hem) as [-> _].
  - intros Hem. by destruct (He Hem) as [-> _].
  - intros Hem. destruct (He Hem) as [-> Hp]. split; [done|]. intros Hs. specialize (Hp Hs). lia.
Qed.

(** After the stop every step brings the end nearer. *)
Lemma bfire_left a s s' : stop s = true -> bfire a s = Some s' -> stop s' = true /\ (left_over s' < left_over s)%nat.
Proof.
  intros Hs E. destruct s as [st q ph em ws]. cbn in Hs. subst st. unfold left_over.
  destruct a; cbn in E; bfire_cases; split; cbn; try done; try lia.
  1: destruct em; [done|lia].
  1: destruct failed.
  all: match goal with H : ?l !! _ = Some ?w |- context [<[_ := ?w']> ?l] =>
         pose proof (sum_list_with_insert bweight l _ w w' H) as Hw; cbn in Hw; lia end.
Qed.

#[local] Instance BDone_dec (b : bphase) : Decision (b = BDone).
Proof. by destruct b; [right|right|right|right|left]. Defined.

(** A run that was stopped never blocks: in particular the producer, which
    may be waiting to send, finds room after one item was taken. *)
Lemma bench_progress n s : bench_ok n s -> stop s = true -> ended s \/ exists a s', bfire a s = Some s'.
Proof.
  intros [Hq He Hl] Hs. destruct s as [st q ph em ws]. cbn in *. subst st.
  destruct em; [|right; exists TakeOne; by eexists]. destruct (He eq_refl) as [_ Hp].
  destruct ph; [right; exists ProducerLooks; by eexists| |].
  { right. exists ProducerSends. eexists. cbn. by rewrite decide_True by (by apply Hp). }
  destruct (decide (Forall (fun b => b = BDone) ws)) as [Hd|Hx]; [by left|right].
  apply not_Forall_Exists in Hx; [|exact _].
  apply Exists_exists in Hx as (b & [i Hi]%list_elem_of_lookup & Hb). destruct b; [| | | |by destruct Hb].
  - exists (WriterStarts i false). eexists. cbn. by rewrite Hi.
  - destruct q as [|q]; [exists (WriterEnds i)|exists (WriterTakes i)]; eexists; cbn; by rewrite Hi.
  - exists (WriterLooks i). eexists. cbn. by rewrite Hi.
  - exists (WriterAppended i). eexists. cbn. by rewrite Hi.
Qed.

Lemma bench_run_app acts acts' s : bench_run (acts ++ acts') s = bench_run acts s ≫= bench_run acts'.
Proof.
  unfold bench_run. rewrite foldl_app. destruct (foldl _ (Some s) acts); [done|]. by induction acts'.
Qed.

Lemma bench_run_ok n acts s s' : bench_ok n s -> bench_run acts s = Some s' -> bench_ok n s'.
Proof.
  revert s. induction acts as [|a acts IH]; intros s Hs; [by intros [= <-]|]. change (a :: acts) with ([a] ++ acts).
  rewrite bench_run_app. intros (s1 & E1 & E2)%bind_Some. eapply IH; [|exact E2]. by eapply bfire_ok.
Qed.

Lemma bench_run_left acts s s' : stop s = true -> bench_run acts s = Some s' ->
  stop s' = true /\ (left_over s' + length acts <= left_over s)%nat.
Proof.
  revert s. induction acts as [|a acts IH]; intros s Hs; [intros [= <-]; cbn; split; [done|lia]|].
  change (a :: acts) with ([a] ++ acts). rewrite bench_run_app. intros (s1 & E1 & E2)%bind_Some.
  apply bfire_left in E1 as [Hs1 Hlt]; [|done]. destruct (IH _ Hs1 E2) as [? ?]. split; [done|]. cbn. lia.
Qed.

Lemma left_over_bound n s : bench_ok n s -> (left_over s <= 3 + 3 * n)%nat.
Proof.
  intros [_ _ <-]. unfold left_over.
  assert (sum_list_with bweight (bwriters s) <= 3 * length (bwriters s))%nat.
  { induction (bwriters s) as [|b l IH]; cbn; [lia|]. destruct b; cbn; lia. }
  assert (pweight (producer s) <= 2)%nat by (destruct (producer s); cbn; lia). destruct (emptied s); lia.
Qed.

(** C40. A benchmark run ends: whatever the producer and the [n] writers were
    doing when the time was up, and however they go on, they make at most
    [3 + 3n] more steps, and until the producer has closed the channel and
    every writer has returned one of them can make a step.  The one item that
    is taken out of the channel is what makes the producer's last send go
    through when all the writers have already returned. *)
Theorem bench_ends n acts s acts' s' : bench_run acts (bench_start n) = Some s -> stop s = true ->
  bench_run acts' s = Some s' ->
  (length acts' <= 3 + 3 * n)%nat /\ (ended s' \/ exists a s'', bfire a s' = Some s'').
Proof.
  intros E Hs E'. assert (bench_ok n (bench_start n)) as H0 by (split; cbn; [lia|done|apply length_replicate]).
  pose proof (bench_run_ok n _ _ _ H0 E) as Hok. pose proof (bench_run_ok n _ _ _ Hok E') as Hok'.
  destruct (bench_run_left _ _ _ Hs E') as [Hs' Hle]. pose proof (left_over_bound n s Hok).
  split; [lia|]. by eapply bench_progress.
Qed.

(** ** Statistics *)

(** [pct] is an element of the sample with at least [p] percent of it at or
    before it. *)
Lemma pct_enough sorted p : sorted <> [] -> 0 <= p <= 100 -> Z.of_nat (length sorted) * 100 + 99 < 2 ^ 63 ->
  exists i x, pct sorted p = Some x /\ sorted !! i = Some x /\ Z.of_nat (length sorted) * p <= 100 * (Z.of_nat i + 1).
Proof.
  intros Hne Hp Hn. unfold pct. rewrite decide_False by done. set (n := Z.of_nat (length sorted)) in *.
  assert (0 < n) by (destruct sorted; [done|]; cbn in n; lia). rewrite i64_small by nia.
  rewrite Z.quot_div_nonneg by nia. pose proof (Z.div_mod (n * p + 99) 100 ltac:(lia)) as Hd.
  pose proof (Z.mod_pos_bound (n * p + 99) 100 ltac:(lia)) as Hm. set (q := (n * p + 99) / 100) in *.
  assert (exists i, (if decide (n <= q) then n - 1 else q) = Z.of_nat i /\ Z.of_nat i < n /\ n * p <= 100 * (Z.of_nat i + 1)) as (i & -> & Hi & Hle).
  { exists (Z.to_nat (if decide (n <= q) then n - 1 else q)). case_decide; split_and!; try lia; nia. }
  rewrite decide_False, Nat2Z.id by lia. destruct (sorted !! i) as [x|] eqn:E; [by exists i, x|].
  apply lookup_ge_None in E. lia.
Qed.

(** It is one place further than it has to be: the median of two is the
    larger one, and of a hundred samples the 99th percentile is the largest. *)
Example pct_next : pct [1; 2] 50 = Some 2 /\ pct (Z.of_nat <$> seq 1 100) 99 = Some 100.
Proof. done. Qed.

(** Without readers the check of a stream that is not empty blocks. *)
Example no_readers : (run (checkStream 0 "bench-n1" 9 [])
    (run (Append 9 (MkLog "bench-n1" 0) [[x61]]) ex_world).2).1 = Err (Panic "all goroutines are asleep - deadlock!").
Proof. vm_compute. reflexivity. Qed.

Example parse_counts : parseCounts "1, 5,10" = Ok [1; 5; 10] /\ parseCounts "1,,2" = Err (Msg "bad writer count").
Proof. done. Qed.

(** ** Witnesses *)
Definition ex_item (n : Z) : item := MkItem n (fill 31 n (fun i => 7 * Z.of_nat i + n)).
Definition ex_writers : list (nat * list claimed) :=
  [(0%nat, [MkClaimed (ex_item 0) 10 5]); (1%nat, [MkClaimed (ex_item 1) 12 900])].
Definition ex_bench : list (prog (res outcome)) :=
  imap (fun i cw => write_all 9 "bench-n2" cw.1 500 (Z.of_nat i) cw.2) ex_writers.
Definition ex_outs : list outcome :=
  [MkOutcome [MkAppend 0 0 1 31 5 10 false] []; MkOutcome [MkAppend 1 1 2 31 900 12 true] []].

Lemma ex_bench_runs : results <$> (fst <$> interleave ex_sched ex_bench 20 ex_world) = Some (Some <$> (Ok <$> ex_outs)).
Proof. vm_compute. reflexivity. Qed.

Lemma results_done {A} (ts : list (prog A)) l : results ts = Some <$> l -> ts = Ret <$> l.
Proof.
  revert l. induction ts as [|t ts IH]; intros [|a l] E; try done. cbn in E. injection E as Et E.
  destruct t as [b|]; [|done]. injection Et as ->. cbn. f_equal. by apply IH.
Qed.

Lemma ex_writers_good : Forall (fun cw => cell ex_world cw.1 = 0 /\ Forall (fun x => good_item (citem x)) cw.2) ex_writers.
Proof.
  assert (forall n, is_u64 n -> good_item (ex_item n)) as Hg.
  { intros n Hn. exists 31%nat, (fun i => 7 * Z.of_nat i + n). split; [unfold headerSize; lia|]. done. }
  repeat constructor; apply Hg; unfold is_u64; cbn; lia.
Qed.

Lemma sanity_check_witness : exists ts n' w' rep, interleave ex_sched ex_bench 20 ex_world = Some (ts, (n', w')) /\
  run (checkStream 2 "bench-n2" 9 (run_appends ex_outs)) w' = (Ok rep, w') /\ pass rep = true /\ acked rep = 2%nat.
Proof.
  pose proof ex_bench_runs as Hr. destruct (interleave _ _ _ _) as [[ts [n' w']]|] eqn:E; [|discriminate Hr].
  assert (results ts = Some <$> (Ok <$> ex_outs)) as Ht%results_done by (by apply (inj Some) in Hr). pose proof (interleave_steps true _ _ _ _ _ E) as Hst.
  rewrite Ht, <-list_fmap_compose in Hst.
  destruct (sanity_check true 9 500 2 "bench-n2" 9 ex_writers 20 ex_world ex_outs n' w') as [(rep & Hrun & Hp & _ & Ha) _].
  - reflexivity.
  - lia.
  - apply Mem.newMemStore_ok. lia.
  - apply empty_log.
  - reflexivity.
  - exact ex_writers_good.
  - exact Hst.
  - exists ts, n', w', rep. split; [reflexivity|]. split; [exact Hrun|]. split; [exact Hp|exact Ha].
Defined.

(** The time is up with a full channel and no writer left. *)
Definition ex_full : list bact :=
  WriterStarts 0 true :: mjoin (replicate 1024 [ProducerLooks; ProducerSends]) ++ [ProducerLooks; TimeUp].

Lemma bench_ends_witness : exists s s', bench_run ex_full (bench_start 1) = Some s /\ queue s = capacity /\
  bench_run [TakeOne; ProducerSends; ProducerLooks] s = Some s' /\ ended s' /\ (3 <= 6)%nat.
Proof.
  destruct (bench_run ex_full (bench_start 1)) as [s|] eqn:E; [|vm_compute in E; discriminate E].
  assert (s = MkBench true 1024 PSend false [BDone]) as -> by (vm_compute in E; injection E as <-; reflexivity).
  eexists _, (MkBench true 1024 PClosed true [BDone]). split; [reflexivity|]. split; [reflexivity|]. split; [vm_compute; reflexivity|].
  split; [split; [reflexivity|repeat constructor]|].
  exact (proj1 (bench_ends 1 ex_full _ [TakeOne; ProducerSends; ProducerLooks] (MkBench true 1024 PClosed true [BDone]) E eq_refl
    ltac:(vm_compute; reflexivity))).
Defined.
