(* ===== verification/BenchRun.v ===== *)
(** * cmd/walbench: the command and its report

    [run], [benchmark] and [report] of src/cmd/walbench/main.go, around the
    writers and the check of Walbench.v.  What is printed is the values it is
    printed from ([line]); rates and times are float64.  The operating system
    (creating a file, writing to it) and what the concurrent part of a
    benchmark comes to are arguments; stores are opened and closed in the
    process of Open.v. *)

From S2P Require Import Prelude GoStr Recordio ObjectStore Prog Logstream Float32 Namespace Catalog Open Walbench.
From Stdlib Require Import Floats.SpecFloat.
Local Open Scope Z_scope.

(** ** float64 *)
Definition float64 : Type := spec_float.
Definition fadd64 (a b : float64) : float64 := SFadd 53 1024 a b.
Definition fsub64 (a b : float64) : float64 := SFsub 53 1024 a b.
(** [float64(n)] *)
Definition of_int (n : Z) : float64 := binary_normalize 53 1024 n 0 false.

(** ** The report *)
Record benchResult := MkResult {
  writers : nat; stream : string; seconds : float64; drain : float64;
  appends : list appendRecord; failures : list failureRecord }.

Inductive line :=
  | NoAppend (writers fails : nat)
  | AllDrained (writers : nat)
  | Rate (writers steady : nat) (perSecond mibPerSecond : float64) (maxSeq : Z)
  | Window (window drain : float64) (dropped fails : nat) (errorRate : float64)
  | Latency (p50 p90 p99 max mean : float64)
  | PerWriter (min p50 max starved writers : nat) (jain inverse : float64)
  | Busiest (top count : nat) (share p50 : float64) (others : nat) (othersP50 : float64).

Definition ms (micros : Z) : float64 := fdiv64 (of_int micros) (of_int 1000).

Definition jain (counts : list nat) : float64 :=
  let sum := foldl (fun s c => fadd64 s (of_int (Z.of_nat c))) (of_int 0) counts in
  let sumSq := foldl (fun s c => fadd64 s (fmul64 (of_int (Z.of_nat c)) (of_int (Z.of_nat c)))) (of_int 0) counts in
  if SFeqb sumSq (of_int 0) then of_int 0
  else fdiv64 (fmul64 sum sum) (fmul64 (of_int (Z.of_nat (length counts))) sumSq).

(** [latByWriter] *)
Definition lat_one (m : gmap Z (list Z)) (a : appendRecord) : gmap Z (list Z) :=
  if adrain a then m else <[awriter a := default [] (m !! awriter a) ++ [amicros a]]> m.
Definition latByWriter (appends : list appendRecord) : gmap Z (list Z) := foldl lat_one ∅ appends.

(** The last line, of more than one writer. *)
Definition busiest_line (s : stats) (lat : gmap Z (list Z)) : option line :=
  let top := busiest (perWriter s) in
  let others := filter (fun kv => kv.1 <> Z.of_nat top) lat in
  let rest := merge_sort Z.le (mjoin (map_to_list others).*2) in
  let win := merge_sort Z.le (default [] (lat !! Z.of_nat top)) in
  c ← perWriter s !! top;
  winP50 ← pct win 50;
  restP50 ← pct rest 50;
  Some (Busiest top c (fdiv64 (fmul64 (of_int 100) (of_int (Z.of_nat c))) (of_int (Z.of_nat (length (steady s)))))
    (ms winP50) (length rest) (ms restP50)).

(** [None] is a panic: an index out of range. *)
Definition report (r : benchResult) : option (list line) :=
  if decide (appends r = []) then Some [NoAppend (writers r) (length (failures r))] else
  s ← gather (writers r) (appends r);
  if decide (steady s = []) then Some [AllDrained (writers r)] else
  let sorted := merge_sort Z.le (steady s) in
  let window := fsub64 (seconds r) (drain r) in
  let attempts := (length (appends r) + length (failures r))%nat in
  p50 ← pct sorted 50;
  p90 ← pct sorted 90;
  p99 ← pct sorted 99;
  max ← sorted !! (length sorted - 1)%nat;
  let counts := merge_sort Nat.le (perWriter s) in
  lo ← counts !! 0%nat;
  mid ← counts !! (length counts / 2)%nat;
  hi ← counts !! (length counts - 1)%nat;
  let lines :=
    [Rate (writers r) (length sorted) (fdiv64 (of_int (Z.of_nat (length sorted))) window)
       (fdiv64 (fdiv64 (of_int (bytesTotal s)) window) (of_int (2 ^ 20))) (maxSeq s);
     Window window (drain r) (drained s) (length (failures r))
       (fdiv64 (fmul64 (of_int 100) (of_int (Z.of_nat (length (failures r))))) (of_int (Z.of_nat attempts)));
     Latency (ms p50) (ms p90) (ms p99) (ms max) (ms (mean sorted));
     PerWriter lo mid hi (starved counts) (writers r) (jain (perWriter s))
       (fdiv64 (of_int 1) (of_int (Z.of_nat (writers r))))] in
  if decide (1 < writers r)%nat then l ← busiest_line s (latByWriter (appends r)); Some (lines ++ [l]) else Some lines.

(** *** What is gathered *)

(** The appends that landed in the window, and those of one writer. *)
Definition in_window (apps : list appendRecord) : list appendRecord := filter (fun a => adrain a = false) apps.
Definition by_writer (w : Z) (apps : list appendRecord) : list appendRecord :=
  filter (fun a => adrain a = false /\ awriter a = w) apps.

Lemma in_window_snoc apps a : in_window (apps ++ [a]) = in_window apps ++ (if adrain a then [] else [a]).
Proof. unfold in_window. rewrite filter_app, filter_cons. by destruct (adrain a). Qed.

Lemma by_writer_snoc w apps a : by_writer w (apps ++ [a]) =
  by_writer w apps ++ (if adrain a then [] else if decide (awriter a = w) then [a] else []).
Proof. unfold by_writer. rewrite filter_app, filter_cons. destruct (adrain a); repeat case_decide; naive_solver. Qed.

Definition counted (n : nat) (apps : list appendRecord) (s : stats) : Prop :=
  steady s = amicros <$> in_window apps /\ (length (in_window apps) + drained s = length apps)%nat /\
  (forall a, a ∈ apps -> aseq a <= maxSeq s) /\ length (perWriter s) = n /\
  forall i, (i < n)%nat -> perWriter s !! i = Some (length (by_writer (Z.of_nat i) apps)).

Lemma gather_counted n apps : Forall (fun a => 0 <= awriter a < Z.of_nat n) apps ->
  exists s, gather n apps = Some s /\ counted n apps s.
Proof.
  unfold gather. induction apps as [|a apps IH] using rev_ind; intros HF.
  { eexists. split; [done|]. split_and!; [done|done|intros a Ha; by apply not_elem_of_nil in Ha|apply length_replicate|].
    intros i Hi. cbn. by rewrite lookup_replicate_2. }
  apply Forall_app in HF as [HF Ha]. apply Forall_inv in Ha. destruct (IH HF) as (s & E & C1 & C2 & C3 & C4 & C5).
  rewrite foldl_snoc, E. cbn [gather_one mbind option_bind].
  set (mx := if decide (maxSeq s < aseq a) then aseq a else maxSeq s).
  assert (forall b, b ∈ apps ++ [a] -> aseq b <= mx) as Hmx.
  { intros b [Hb| ->%list_elem_of_singleton]%elem_of_app; unfold mx; case_decide; try lia; specialize (C3 b Hb); lia. }
  destruct (adrain a) eqn:Ed.
  - eexists. split; [done|]. unfold counted. cbn. rewrite in_window_snoc, Ed, app_nil_r, length_app. cbn. split_and!; try done; [lia|].
    intros i Hi. by rewrite by_writer_snoc, Ed, app_nil_r, C5.
  - rewrite C5 by lia. eexists. split; [done|]. unfold counted. cbn.
    rewrite in_window_snoc, Ed, !fmap_app, C1, !length_app, length_insert. cbn. split_and!; try done; [lia|].
    intros i Hi. rewrite by_writer_snoc, Ed, length_app. case_decide as Hw.
    + rewrite Hw, Nat2Z.id, list_lookup_insert_eq by (by rewrite C4). cbn. f_equal. lia.
    + rewrite list_lookup_insert_ne by lia. rewrite C5 by done. f_equal. cbn. lia.
Qed.

Lemma lat_lookup apps w : default [] (latByWriter apps !! w) = amicros <$> by_writer w apps.
Proof.
  unfold latByWriter. induction apps as [|a apps IH] using rev_ind; [done|].
  rewrite foldl_snoc, by_writer_snoc, fmap_app. unfold lat_one at 1. destruct (adrain a); [by rewrite IH, app_nil_r|].
  destruct (decide (awriter a = w)) as [->|Hne]; [by rewrite lookup_insert_eq, IH|].
  by rewrite lookup_insert_ne, IH, app_nil_r.
Qed.

(** The number of samples in a map. *)
Definition samples (m : gmap Z (list Z)) : nat := length (mjoin (map_to_list m).*2).

Lemma samples_insert m w v : m !! w = None -> samples (<[w := v]> m) = (length v + samples m)%nat.
Proof. intros Hw. unfold samples. rewrite map_to_list_insert by done. cbn. by rewrite length_app. Qed.

Lemma samples_delete m w : samples m = (length (default [] (m !! w)) + samples (delete w m))%nat.
Proof.
  destruct (m !! w) as [v|] eqn:E; [|by rewrite delete_id].
  rewrite <-(insert_delete_id m w v E) at 1. apply samples_insert, lookup_delete_eq.
Qed.

Lemma samples_lat apps : samples (latByWriter apps) = length (in_window apps).
Proof.
  unfold latByWriter. induction apps as [|a apps IH] using rev_ind; [done|].
  rewrite foldl_snoc, in_window_snoc, length_app, <-IH. unfold lat_one at 1. destruct (adrain a); [cbn; lia|].
  rewrite <-insert_delete_eq, samples_insert by apply lookup_delete_eq.
  rewrite (samples_delete (foldl _ _ _) (awriter a)), length_app. cbn. lia.
Qed.

(** [busiest] is a writer with the most appends. *)
Lemma busiest_max l : l <> [] -> (busiest l < length l)%nat /\
  forall i c, l !! i = Some c -> (c <= default 0 (l !! busiest l))%nat.
Proof.
  intros Hne. unfold busiest.
  set (f := fun top w => if decide (default 0 (l !! top) < default 0 (l !! w))%nat then w else top).
  assert (forall n, (n <= length l)%nat -> (foldl f 0 (seq 0 n) < length l)%nat /\
    forall i, (i < n)%nat -> (default 0 (l !! i) <= default 0 (l !! foldl f 0 (seq 0 n)))%nat) as Hf.
  { induction n as [|n IH]; intros Hn; [split; [destruct l; [done|cbn; lia]|lia]|].
    destruct (IH ltac:(lia)) as [H1 H2]. rewrite seq_S, foldl_snoc. cbn [Nat.add]. set (t := foldl f 0%nat (seq 0 n)) in *.
    unfold f. case_decide; (split; [lia|]); intros i Hi.
    - destruct (decide (i = n)) as [->|?]; [lia|]. specialize (H2 i ltac:(lia)). lia.
    - destruct (decide (i = n)) as [->|?]; [lia|]. apply H2. lia. }
  destruct (Hf (length l) ltac:(lia)) as [H1 H2]. split; [done|]. intros i c E.
  pose proof (H2 i (lookup_lt_Some _ _ _ E)) as H3. by rewrite E in H3.
Qed.

(** The percentile of at most [2 ^ 56] samples. *)
Lemma pct_some sorted p : 0 <= p <= 100 -> Z.of_nat (length sorted) * 100 + 99 < 2 ^ 63 -> is_Some (pct sorted p).
Proof.
  intros Hp Hl. destruct (decide (sorted = [])) as [->|Hne]; [by eexists|].
  destruct (pct_enough sorted p Hne Hp Hl) as (i & x & -> & _). by eexists.
Qed.

Lemma busiest_line_ok n apps s : counted n apps s -> (0 < n)%nat -> Z.of_nat (length apps) * 100 + 99 < 2 ^ 63 ->
  exists t c share p k q, busiest_line s (latByWriter apps) = Some (Busiest t c share p k q) /\
    c = length (by_writer (Z.of_nat t) apps) /\ (c + k = length (in_window apps))%nat /\
    forall i, (i < n)%nat -> (length (by_writer (Z.of_nat i) apps) <= c)%nat.
Proof.
  intros (C1 & C2 & C3 & C4 & C5) Hn Hl. unfold busiest_line. set (t := busiest (perWriter s)).
  destruct (busiest_max (perWriter s)) as [Ht Hmax]; [intros E; rewrite E in C4; cbn in C4; lia|]. fold t in Ht, Hmax.
  rewrite C4 in Ht. rewrite (C5 t Ht) in *. cbn [mbind option_bind].
  assert (filter (fun kv : Z * list Z => kv.1 <> Z.of_nat t) (latByWriter apps) = delete (Z.of_nat t) (latByWriter apps)) as ->.
  { apply map_eq. intros i. destruct (decide (i = Z.of_nat t)) as [->|Hne].
    - rewrite lookup_delete_eq. apply map_lookup_filter_None. right. intros x _ Hx. by apply Hx.
    - rewrite lookup_delete_ne by done. destruct (latByWriter apps !! i) as [x|] eqn:E.
      + by apply map_lookup_filter_Some.
      + apply map_lookup_filter_None. by left. }
  pose proof (samples_delete (latByWriter apps) (Z.of_nat t)) as Hs. rewrite samples_lat, lat_lookup, length_fmap in Hs.
  destruct (pct_some (merge_sort Z.le (default [] (latByWriter apps !! Z.of_nat t))) 50) as [p ->]; [lia| |].
  { rewrite (Permutation_length (merge_sort_Permutation Z.le _)), lat_lookup, length_fmap. lia. }
  set (rest := merge_sort Z.le (mjoin (map_to_list (delete (Z.of_nat t) (latByWriter apps))).*2)).
  assert (length rest = samples (delete (Z.of_nat t) (latByWriter apps))) as Hr
    by (unfold rest; by rewrite (Permutation_length (merge_sort_Permutation Z.le _))).
  destruct (pct_some rest 50) as [q ->]; [lia|lia|]. cbn.
  eexists _, _, _, _, _, _. split; [done|]. split; [done|]. split; [lia|].
  intros i Hi. by apply (Hmax i), C5.
Qed.

(** The report of a run: whatever was acknowledged and whatever failed, no
    index is out of range, and the counts add up.  Every acknowledged append is
    counted in the window or as dropped, the greatest sequence number is
    shown, and with more than one writer the busiest one's appends and the
    others' are those of the window. *)
Theorem report_adds_up r : Forall (fun a => 0 <= awriter a < Z.of_nat (writers r)) (appends r) ->
  Z.of_nat (length (appends r)) * 100 + 99 < 2 ^ 63 ->
  exists lines, report r = Some lines /\
    (forall n c x y m, Rate n c x y m ∈ lines -> c = length (in_window (appends r)) /\
       forall a, a ∈ appends r -> aseq a <= m) /\
    (forall x y d f z, Window x y d f z ∈ lines -> f = length (failures r) /\
       (length (in_window (appends r)) + d = length (appends r))%nat) /\
    (forall t c x y k z, Busiest t c x y k z ∈ lines -> c = length (by_writer (Z.of_nat t) (appends r)) /\
       (c + k = length (in_window (appends r)))%nat /\
       forall i, (i < writers r)%nat -> (length (by_writer (Z.of_nat i) (appends r)) <= c)%nat).
Proof.
  intros HF Hl. unfold report. case_decide as Ha.
  { eexists. split; [done|]. split_and!; intros *; by intros ?%list_elem_of_singleton. }
  destruct (gather_counted (writers r) (appends r) HF) as (s & -> & Hc). pose proof Hc as (C1 & C2 & C3 & C4 & C5).
  cbn [mbind option_bind]. case_decide as Hs.
  { eexists. split; [done|]. split_and!; intros *; by intros ?%list_elem_of_singleton. }
  set (sorted := merge_sort Z.le (steady s)).
  assert (length sorted = length (in_window (appends r))) as Hsl
    by (unfold sorted; by rewrite (Permutation_length (merge_sort_Permutation Z.le _)), C1, length_fmap).
  assert (0 < length sorted)%nat as Hpos.
  { rewrite Hsl, <-(length_fmap amicros), <-C1. destruct (steady s); [done|]. cbn. lia. }
  assert (0 < writers r)%nat as Hw.
  { destruct (appends r) as [|a l]; [done|]. apply Forall_inv in HF. lia. }
  destruct (pct_some sorted 50) as [p50 ->]; [lia|lia|]. destruct (pct_some sorted 90) as [p90 ->]; [lia|lia|].
  destruct (pct_some sorted 99) as [p99 ->]; [lia|lia|].
  destruct (lookup_lt_is_Some_2 sorted (length sorted - 1)) as [mx ->]; [lia|].
  set (counts := merge_sort Nat.le (perWriter s)).
  assert (length counts = writers r) as Hcl
    by (unfold counts; by rewrite (Permutation_length (merge_sort_Permutation Nat.le _))).
  destruct (lookup_lt_is_Some_2 counts 0) as [lo ->]; [lia|].
  destruct (lookup_lt_is_Some_2 counts (length counts / 2)) as [mid ->]; [apply Nat.Div0.div_lt_upper_bound; lia|].
  destruct (lookup_lt_is_Some_2 counts (length counts - 1)) as [hi ->]; [lia|]. cbn [mbind option_bind].
  case_decide.
  - destruct (busiest_line_ok _ _ _ Hc Hw Hl) as (t & c & sh & p & k & q & -> & Hb). cbn [mbind option_bind].
    eexists. split; [reflexivity|]. cbn [app]. split_and!; intros *; rewrite !elem_of_cons;
      intros [E|[E|[E|[E|[E|E%not_elem_of_nil]]]]]; try done; injection E; intros; subst; split_and?; done || lia || apply Hb; done.
  - eexists. split; [done|]. split_and!; intros *; rewrite !elem_of_cons;
      intros [E|[E|[E|[E|E%not_elem_of_nil]]]]; try done; injection E; intros; subst; split_and?; done || lia.
Qed.

(** ** The command *)
Record config := MkConfig {
  cfg_url : string; host : string; cfg_writers : string; duration : Z; minSize : Z; maxSize : Z;
  out : string; sanity : string; readers : Z; cfg_prefix : string; debugLog : string }.

Section Command.
Context {S : Type} `{Store S}.
Context {F : Type} `{OS F} (Parse : string -> res Open.URL) (clientClose : res unit).
(** [os.Create]; [enc.Encode] and [bw.Flush] of the result file, given what is
    in it; the lines of a result file, decoded one by one, and the scanner's
    error. *)
Context (Create : string -> res unit) (Encode : list event -> event -> res unit) (Flush : list event -> res unit).
Context (ReadLines : string -> res (list (res event) * option error)).
(** What the producer and the writers of a run come to: an error of
    [g.Wait()], or the times and the outcomes. *)
Context (body : nat -> string -> world S -> res (float64 * float64 * list outcome) * world S).

Abbreviation Open := (Open.Open Parse).
Abbreviation Close := (Open.Close clientClose).

Definition close_stores (opened : list handle) (p : process F) : process F := foldl (fun p h => (Close h p).2) p opened.

Fixpoint open_stores (n : nat) (url : string) (opened : list handle) (p : process F) : res (list handle) * process F :=
  match n with
  | O => (Ok opened, p)
  | Datatypes.S n =>
    match Open url p with
    | (Err e, p) => (Err e, close_stores opened p)
    | (Ok h, p) => open_stores n url (opened ++ [h]) p
    end
  end.

Definition benchmark (url name : string) (n : nat) (w : world S) (p : process F) : res benchResult * (world S * process F) :=
  match open_stores n url [] p with
  | (Err e, p) => (Err e, (w, p))
  | (Ok stores, p) =>
    let '(r, w) := body n name w in
    (match r with
     | Err e => Err e
     | Ok (secs, drained, outs) => Ok (MkResult n name secs drained (run_appends outs) (run_failures outs))
     end, (w, close_stores stores p))
  end.

(** Encoding events, up to the first error. *)
Fixpoint encode_all (es : list event) (file : list event) : res unit * list event :=
  match es with
  | [] => (Ok tt, file)
  | e :: es => match Encode file e with
               | Err err => (Err err, file)
               | Ok _ => encode_all es (file ++ [e])
               end
  end.

(** The loop over the writer counts; [c] numbers the probes' logs. *)
Fixpoint run_counts (cfg : config) (c : nat) (counts : list Z) (done : list (list line)) (w : world S) (p : process F)
    (file : list event) : res (list (list line)) * (world S * process F * list event) :=
  match counts with
  | [] => (Ok done, (w, p, file))
  | n :: counts =>
    let name := streamName (cfg_prefix cfg) n in
    match Prog.run (probeStream (cfg_prefix cfg) n c) w with
    | (Err e, w) => (Err e, (w, p, file))
    | (Ok _, w) =>
      match benchmark (cfg_url cfg) name (Z.to_nat n) w p with
      | (Err e, (w, p)) => (Err e, (w, p, file))
      | (Ok r, (w, p)) =>
        match encode_all (writeRun n name (appends r) (failures r)) file with
        | (Err e, file) => (Err e, (w, p, file))
        | (Ok _, file) =>
          match Flush file, report r with
          | Err e, _ => (Err e, (w, p, file))
          | Ok _, None => (Err (Panic "index out of range"), (w, p, file))
          | Ok _, Some lines => run_counts cfg c counts (done ++ [lines]) w p file
          end
        end
      end
    end
  end.

(** The lines that could be decoded, and the error after them. *)
Fixpoint decoded (ls : list (res event)) (serr : option error) : list event * option error :=
  match ls with
  | [] => ([], serr)
  | Err e :: _ => ([], Some e)
  | Ok e :: ls => let '(es, err) := decoded ls serr in (e :: es, err)
  end.

Definition read_file (ls : list (res event)) (serr : option error) : res (string * gmap Z runResult) :=
  match decoded ls serr with
  | (es, None) => read_events es "" ∅
  | (es, Some e) => match read_events es "" ∅ with
                    | Err e' => if decide (e' = Msg "append for unknown run") then Err e' else Err e
                    | Ok _ => Err e
                    end
  end.

Definition sanity_command (path : string) (readers : Z) (c : nat) (w : world S) (p : process F)
  : res unit * (world S * process F) :=
  match ReadLines path with
  | Err e => (Err e, (w, p))
  | Ok (ls, serr) =>
    match read_file ls serr with
    | Err e => (Err e, (w, p))
    | Ok (url, runs) =>
      match Open url p with
      | (Err e, p) => (Err e, (w, p))
      | (Ok h, p) =>
        let order := merge_sort Z.le (map_to_list runs).*1 in
        let '(r, w) := Prog.run (check_runs readers c (omap (fun n => runs !! n) order) false) w in
        (r, (w, (Close h p).2))
      end
    end
  end.

(** [run]: the lines printed for each run; the state is what the deferred
    calls leave. *)
Definition command (cfg : config) (c : nat) (w : world S) (p : process F)
  : res (list (list line)) * (world S * process F * list event) :=
  if decide (sanity cfg <> "") then
    let '(r, (w, p)) := sanity_command (sanity cfg) (readers cfg) c w p in
    (match r with Err e => Err e | Ok _ => Ok [] end, (w, p, []))
  else
  match checkConfig (cfg_url cfg) (out cfg) (minSize cfg) (maxSize cfg) (cfg_writers cfg) with
  | Err e => (Err e, (w, p, []))
  | Ok counts =>
    match (if decide (debugLog cfg <> "") then Create (debugLog cfg) else Ok tt) with
    | Err e => (Err e, (w, p, []))
    | Ok _ =>
      match Open (cfg_url cfg) p with
      | (Err e, p) => (Err e, (w, p, []))
      | (Ok h, p) =>
        let '(r, (w, p, file)) :=
          match Create (out cfg) with
          | Err e => (Err e, (w, p, []))
          | Ok _ => match encode_all [meta (cfg_url cfg)] [] with
                    | (Err e, file) => (Err e, (w, p, file))
                    | (Ok _, file) => run_counts cfg c counts [] w p file
                    end
          end in
        (r, (w, (Close h p).2, file))
      end
    end
  end.

(** *** Stores *)

(** Stores opened since [p] are closed, each once, and no other is touched. *)
Definition balanced (p p' : process F) : Prop := exists k, closes p' = closes p ++ replicate k 1%nat.

Lemma balanced_refl p : balanced p p.
Proof. exists 0%nat. by rewrite app_nil_r. Qed.

Lemma balanced_trans p1 p2 p3 : balanced p1 p2 -> balanced p2 p3 -> balanced p1 p3.
Proof. intros [k E] [k' E']. exists (k + k')%nat. by rewrite E', E, replicate_add, app_assoc. Qed.

Lemma Open_opens url p r p' : Open url p = (r, p') ->
  match r with
  | Ok h => number h = length (closes p) /\ closes p' = closes p ++ [0%nat]
  | Err _ => closes p' = closes p
  end.
Proof. apply Open_closes. Qed.

Lemma close_stores_closes hs p : closes (close_stores hs p) = close_at (number <$> hs) (closes p).
Proof. revert p. induction hs as [|h hs IH]; intros p; [done|]. cbn. apply IH. Qed.

Lemma open_stores_spec n url opened p cs r p' : number <$> opened = seq (length cs) (length opened) ->
  closes p = cs ++ replicate (length opened) 0%nat -> open_stores n url opened p = (r, p') ->
  match r with
  | Ok hs => exists k, closes (close_stores hs p') = cs ++ replicate k 1%nat
  | Err _ => exists k, closes p' = cs ++ replicate k 1%nat
  end.
Proof.
  revert opened p. induction n as [|n IH]; intros opened p Hf Hc; cbn [open_stores].
  { intros [= <- <-]. exists (length opened). rewrite close_stores_closes, Hc, Hf. by apply close_at_all. }
  destruct (Open url p) as [[h|e] p1] eqn:Eo; apply Open_opens in Eo.
  - destruct Eo as [Hn Hc1]. apply IH.
    + rewrite fmap_app, length_app, Hf, seq_app. cbn. by rewrite Hn, Hc, length_app, length_replicate.
    + by rewrite Hc1, Hc, length_app, replicate_add, <-app_assoc.
  - intros [= <- <-]. exists (length opened). rewrite close_stores_closes, Eo, Hc, Hf. by apply close_at_all.
Qed.

Lemma benchmark_balanced url name n w p : balanced p (benchmark url name n w p).2.2.
Proof.
  unfold benchmark. destruct (open_stores n url [] p) as [r p1] eqn:E.
  apply (open_stores_spec _ _ _ _ (closes p)) in E; [|done|by rewrite app_nil_r].
  destruct r as [hs|e]; [|done]. by destruct (body n name w) as [[[[? ?] ?]|e] w1].
Qed.

(** One store that is open during something balanced. *)
Lemma open_close_balanced url p h p1 p2 : Open url p = (Ok h, p1) -> balanced p1 p2 -> balanced p (Close h p2).2.
Proof.
  intros [Hn Hc]%Open_opens [k E]. exists (Datatypes.S k). cbn. rewrite E, Hc, Hn, <-app_assoc.
  clear. induction (closes p) as [|x l IH]; [done|]. cbn. by f_equal.
Qed.

Lemma open_failed_balanced url p e p1 : Open url p = (Err e, p1) -> balanced p p1.
Proof. intros E%Open_opens. exists 0%nat. by rewrite app_nil_r. Qed.

Lemma run_counts_balanced cfg c counts done w p file : balanced p (run_counts cfg c counts done w p file).2.1.2.
Proof.
  revert done w p file. induction counts as [|n counts IH]; intros done w p file; cbn [run_counts]; [apply balanced_refl|].
  destruct (Prog.run _ w) as [[[]|e] w1]; [|apply balanced_refl].
  pose proof (benchmark_balanced (cfg_url cfg) (streamName (cfg_prefix cfg) n) (Z.to_nat n) w1 p) as Hb.
  destruct (benchmark _ _ _ w1 p) as [[r|e] [w2 p2]]; [|done].
  destruct (encode_all _ file) as [[[]|e] file2]; [|done].
  destruct (Flush file2); [|done]. destruct (report r); [|done]. by eapply balanced_trans.
Qed.

Lemma sanity_balanced path rd c w p : balanced p (sanity_command path rd c w p).2.2.
Proof.
  unfold sanity_command. destruct (ReadLines path) as [[ls serr]|e]; [|apply balanced_refl].
  destruct (read_file ls serr) as [[url runs]|e]; [|apply balanced_refl].
  destruct (Open url p) as [[h|e] p1] eqn:Eo; [|by eapply open_failed_balanced].
  destruct (Prog.run _ w) as [r w1]. eapply open_close_balanced; [done|apply balanced_refl].
Qed.

(** *** The result file *)
Definition run_events (r : benchResult) : list event :=
  writeRun (Z.of_nat (writers r)) (stream r) (appends r) (failures r).

Lemma encode_all_ok es file file' : encode_all es file = (Ok tt, file') -> file' = file ++ es.
Proof.
  revert file. induction es as [|e es IH]; intros file; cbn [encode_all]; [intros [= <-]; by rewrite app_nil_r|].
  destruct (Encode file e); [|done]. intros ->%IH. by rewrite <-app_assoc.
Qed.

Lemma benchmark_ok url name n w p r wp : benchmark url name n w p = (Ok r, wp) -> writers r = n /\ stream r = name.
Proof.
  unfold benchmark. destruct (open_stores n url [] p) as [[hs|e] p1]; [|done].
  destruct (body n name w) as [[[[? ?] ?]|e] w1]; [|done]. by intros [= <- _].
Qed.

Lemma run_counts_ok cfg c counts done w p file all st : Forall (fun n => 0 < n) counts ->
  run_counts cfg c counts done w p file = (Ok all, st) ->
  exists rs, Forall2 (fun n r => n = Z.of_nat (writers r) /\ stream r = streamName (cfg_prefix cfg) n) counts rs /\
    st.2 = file ++ mjoin (run_events <$> rs) /\ exists new, mapM report rs = Some new /\ all = done ++ new.
Proof.
  intros HF. revert done w p file. induction HF as [|n counts Hn _ IH]; intros done w p file; cbn [run_counts].
  { intros [= <- <-]. exists []. split; [done|]. split; [by rewrite app_nil_r|]. exists []. by rewrite app_nil_r. }
  destruct (Prog.run _ w) as [[[]|e] w1]; [|done].
  destruct (benchmark _ _ _ w1 p) as [[r|e] [w2 p2]] eqn:Eb; [|done]. apply benchmark_ok in Eb as [Hw Hs].
  destruct (encode_all _ file) as [[[]|e] file2] eqn:Ee; [|done]. apply encode_all_ok in Ee as ->.
  destruct (Flush _); [|done]. destruct (report r) as [lines|] eqn:Er; [|done].
  intros (rs & HF2 & Hst & new & Hnew & ->)%IH. exists (r :: rs). split; [constructor; [|done]; split; [lia|done]|].
  split.
  - rewrite Hst. cbn. unfold run_events at 2. replace (Z.of_nat (writers r)) with n by lia. by rewrite Hs, <-app_assoc.
  - exists (lines :: new). cbn. rewrite Er, Hnew. split; [done|]. by rewrite <-app_assoc.
Qed.

(** What the check makes of a run's lines. *)
Definition checked (r : benchResult) : Z * runResult :=
  (Z.of_nat (writers r), MkRun (stream r) (bare <$> appends r)).

Lemma read_runs rs url runs : url <> "" -> read_events (mjoin (run_events <$> rs)) url runs =
  Ok (url, foldl (fun m r => <[(checked r).1 := (checked r).2]> m) runs rs).
Proof.
  intros Hu. revert runs. induction rs as [|r rs IH]; intros runs; cbn [fmap list_fmap mjoin list_join foldl].
  { cbn. by rewrite decide_False. }
  unfold run_events at 1. rewrite read_writeRun. apply IH.
Qed.

Lemma read_file_ok es : read_file (Ok <$> es) None = read_events es "" ∅.
Proof.
  assert (decoded (Ok <$> es) None = (es, None)) as E by (induction es as [|e es IH]; [done|]; cbn; by rewrite IH).
  unfold read_file. by rewrite E.
Qed.

End Command.

Lemma parse_parts_pos parts counts : parse_parts parts = Ok counts -> Forall (fun n => 0 < n) counts.
Proof.
  revert counts. induction parts as [|part parts IH]; intros counts; cbn [parse_parts]; [by intros [= <-]|].
  destruct (ParseInt _ 10) as [n|]; [|done]. case_decide; [done|].
  destruct (parse_parts parts) as [ns|]; [|done]. intros [= <-]. constructor; [lia|by apply IH].
Qed.

(** The command: every store it opens, the one it probes with, those of each
    run's writers, and the one of the check, is closed exactly once, whatever
    fails and wherever.  When it succeeds it has made one run for each writer
    count asked for, in order, each on its own stream, and has shown the
    report of each; and its own check reads the result file back as those
    runs. *)
Theorem walbench_command {S} `{Store S} {F} `{OS F} Parse clientClose Create Encode Flush ReadLines
    body cfg c (w : world S) (p : process F) :
  let go := command Parse clientClose Create Encode Flush ReadLines body cfg c w p in
  balanced p go.2.1.2 /\
  (sanity cfg = "" -> forall all st, go = (Ok all, st) ->
     exists counts rs, parseCounts (cfg_writers cfg) = Ok counts /\
       Forall2 (fun n r => n = Z.of_nat (writers r) /\ stream r = streamName (cfg_prefix cfg) n) counts rs /\
       mapM report rs = Some all /\
       read_file (Ok <$> st.2) None =
         Ok (cfg_url cfg, foldl (fun m r => <[(checked r).1 := (checked r).2]> m) ∅ rs)).
Proof.
  intros go. subst go. unfold command. split.
  - case_decide.
    { pose proof (sanity_balanced Parse clientClose ReadLines (sanity cfg) (readers cfg) c w p) as Hb.
      by destruct (sanity_command _ _ _ _ _ _ w p) as [r [w1 p1]]. }
    destruct (checkConfig _ _ _ _ _) as [counts|e]; [|apply balanced_refl].
    destruct (if decide _ then _ else _); [|apply balanced_refl].
    destruct (Open.Open _ _ p) as [[h|e] p1] eqn:Eo; [|by eapply open_failed_balanced].
    assert (forall p2, balanced p1 p2 -> balanced p (Open.Close clientClose h p2).2) as Hcl
      by (intros p2; by eapply open_close_balanced).
    destruct (Create (out cfg)); [|by apply (Hcl p1), balanced_refl].
    destruct (encode_all _ _ _) as [[[]|e] file]; [|by apply (Hcl p1), balanced_refl].
    pose proof (run_counts_balanced Parse clientClose Encode Flush body cfg c counts [] w p1 file) as Hb.
    destruct (run_counts _ _ _ _ _ _ _ _ _ w p1 file) as [r [[w1 p2] file']]. by apply Hcl.
  - intros Hs all st. rewrite decide_False by (intros ?; done).
    unfold checkConfig. destruct (decide (cfg_url cfg = "")) as [?|Hu]; [done|]. do 2 (case_decide; [done|]).
    destruct (parseCounts (cfg_writers cfg)) as [counts|e] eqn:Ec; [|done].
    destruct (if decide _ then _ else _); [|done].
    destruct (Open.Open _ _ p) as [[h|e] p1]; [|done]. destruct (Create (out cfg)); [|done].
    destruct (encode_all _ _ _) as [[[]|e] file] eqn:Ee; [|done]. apply encode_all_ok in Ee as ->.
    destruct (run_counts _ _ _ _ _ _ _ _ _ w p1 _) as [r [[w2 p2] file]] eqn:Er. intros [= -> <-].
    apply run_counts_ok in Er.
    + destruct Er as (rs & HF & Hfile & new & Hnew & ->). cbn in Hfile. exists counts, rs.
      split; [done|]. split; [done|]. split; [done|]. rewrite read_file_ok, Hfile. cbn [fmap snd app read_events meta Type_ Walbench.URL].
      rewrite decide_True by done. by apply read_runs.
    + unfold parseCounts in Ec. destruct (parse_parts _) as [ns|] eqn:Ep; [|done]. cbn in Ec. case_decide; [done|].
      injection Ec as <-. by eapply parse_parts_pos.
Qed.

(** ** An example: two runs, and the check of their result file *)
#[local] Existing Instance ex_os.

Definition ex_config : config := MkConfig "mem://" "" "1, 2" 500 31 31 "out" "" 4 "" "".

(** Each writer of a run appends one record, one after the other; the second
    takes longer than the window.  Each log has a counter of its own. *)
Fixpoint ex_writes (first : nat) (name : string) (ids : list nat) (w : world Mem.memStore) : list outcome * world Mem.memStore :=
  match ids with
  | [] => ([], w)
  | i :: ids =>
    let '(o, w) := Prog.run (write_all 9 name (first + i) 500 (Z.of_nat i) [MkClaimed (ex_item (Z.of_nat i)) 10 (5 + 800 * Z.of_nat i)]) w in
    let '(os, w) := ex_writes first name ids w in
    (match o with Ok o => o :: os | Err _ => os end, w)
  end.
Definition ex_body (n : nat) (name : string) (w : world Mem.memStore)
  : res (float64 * float64 * list outcome) * world Mem.memStore :=
  let '(os, w) := ex_writes (10 * n) name (seq 0 n) w in (Ok (of_int 3, of_int 1, os), w).

Definition ex_command (file : list event) (cfg : config) : world Mem.memStore -> process bool ->
    res (list (list line)) * (world Mem.memStore * process bool * list event) :=
  command ex_parse (Ok tt) (fun _ => Ok tt) (fun _ _ => Ok tt) (fun _ => Ok tt)
    (fun _ => Ok (Ok <$> file, None)) ex_body cfg 9.

Example ex_command_runs :
  let '(r, (w, p, file)) := ex_command [] ex_config ex_world ex_start in
  r = Ok [[Rate 1 1 (S754_finite false 4503599627370496 (-53)) (S754_finite false 8725724278030336 (-69)) 1;
           Window (of_int 2) (of_int 1) 0 0 (S754_zero false);
           Latency (ms 5) (ms 5) (ms 5) (ms 5) (ms 5); PerWriter 1 1 1 1 1 (of_int 1) (of_int 1)];
          [Rate 2 1 (S754_finite false 4503599627370496 (-53)) (S754_finite false 8725724278030336 (-69)) 2;
           Window (of_int 2) (of_int 1) 1 0 (S754_zero false);
           Latency (ms 5) (ms 5) (ms 5) (ms 5) (ms 5);
           PerWriter 0 1 1 2 2 (S754_finite false 4503599627370496 (-53)) (S754_finite false 4503599627370496 (-53));
           Busiest 0 1 (of_int 100) (ms 5) 0 (ms 0)]] /\
  closes p = [1; 1; 1; 1]%nat /\
  (ex_command file (MkConfig "" "" "" 0 0 0 "" "out" 4 "" "") w p).1 = Ok [].
Proof. vm_compute. repeat split. Qed.

(** The store cannot be opened for the third writer: the others' are closed.
    The state counts the clients that can still be had. *)
#[local] Instance ex_two_clients : OS nat := {
  Abs dir := Ok dir;
  EvalSymlinks path n := (Ok path, n);
  MkdirAll _ n := (Ok tt, n);
  NewClient n := match n with O => (Err ErrClosed, O) | Datatypes.S n => (Ok tt, n) end;
}.
Example ex_open_fails :
  let '(r, (_, p)) := benchmark ex_parse (Ok tt) ex_body "gs:///b/t" "bench-n3" 3 ex_world (MkProcess 2%nat ∅ 0 []) in
  r = Err ErrClosed /\ closes p = [1; 1]%nat.
Proof. vm_compute. done. Qed.
